(* ===== verification/_CoqProject ===== *)
-Q . S2P
Prelude.v
Wp.v
RustStr.v
Messages.v
Row.v
Config.v
RustFloat.v
Routing.v
Upstream.v
Reference.v
Pool.v
PoolHygiene.v
PoolSystem.v
Intercept.v
Registries.v
Session.v
Attach.v
Pump.v
Chores.v
PumpFlow.v
PumpInv.v
RowHooks.v
Failover.v
PoolKeys.v
ScatterLeg.v
Scatter.v
ScatterProps.v
ScatterLimits.v
Ownership.v
Neutral.v
Isolation.v
Replay.v
Site.v
SiteOwnership.v
Front.v
Admin.v
Startup.v
Clients.v
Proxy.v
Server.v
Metrics.v
Gateway.v
GatewayRoute.v
GatewayMain.v
Binary.v
Witnesses.v
