(* ===== verification/Prelude.v ===== *)
(** * pgferry: a verification development

    pgferry is a PostgreSQL proxy.  It accepts client connections, leases
    upstream connections from bounded pools, pumps protocol messages between
    the two, and lets an interceptor rewrite, deny, answer or spread queries on
    the way.  This development models its own logic (the crate under
    src/crates/pgferry/src, the binary under src/crates/pgferry-bin and the
    gateway example) as executable definitions and proves what makes it correct.

    ** The program and where it is modelled

    A client connection is accepted ([proxy.rs]), checked and registered
    ([session.rs], [run_session]), and then pumped ([session.rs], [pump]).  The
    pump asks the router ([routing.rs], through the hooks of [intercept.rs])
    for an endpoint, checks a connection out of that endpoint's pool
    ([pool.rs]), replays the session's state on it, forwards messages, and gives
    the connection back: after every transaction in transaction mode, at the end
    in session mode.  A hook may turn a query into a scatter over several
    endpoints ([scatter.rs]).  Cancel keys and live sessions are kept in shared
    registries ([cancel.rs], [runtime.rs]); [metrics.rs] serves the counters over
    HTTP and [admin.rs] as an SQL console.  The binary ([main.rs]) and the
    gateway ([examples/gateway.rs]) configure and start a proxy.

    - [Prelude]: results, asynchronous computations, record update, machine
      integers, automation and the generic lemmas; [Wp]: weakest preconditions
      of asynchronous computations and the invariants they preserve.
    - [RustStr]: what the sources use of Rust's strings (trim, split, parse,
      format, UTF-8 validity and lossy decoding, escapes) over byte strings;
      [RustFloat]: the binary64 arithmetic behind one formatted duration.
    - [Messages]: the wire vocabulary and the classifiers of [session.rs].
    - [Config] (config.rs and the records of pool.rs), [Upstream] (upstream.rs,
      [make_factory_for]): settings, connect factories, and the class
      [Platform] of everything outside the sources: the pgwire client, the
      clock, the network.  [Reference] is a concrete, executable instance of it.
    - [Row] (intercept.rs, [DataRowMut]): the row view, decoding and encoding.
    - [Routing] (routing.rs): passive health, selection, read/write split.
    - [Pool] (pool.rs): the pool, its operations run by one task, and the
      hygiene of a connection; [PoolHygiene]: what those guarantee;
      [PoolSystem]: any number of tasks interleaved on one pool; [PoolKeys]:
      what a checkout takes from its pool (a permit, a connection) and what it
      leaves.
    - [Intercept] (intercept.rs): the hook trait as a class over the
      interceptor's state, cycles and reports, [FailoverRouter] as an instance.
    - [Registries] (cancel.rs, runtime.rs, intercept/builtin.rs).
    - [Session] (session.rs): the state of one session (the locals of [pump] and
      what it shares), cycle tracking, hook dispatch; [Attach]: statement
      registry, [ensure_attached], baseline parameters, detach, loss of the
      upstream; [Pump]: the loop, phase by phase, one iteration per event;
      [Front]: a session beside the shared registries and the [attached] flags
      it shares with them; [Startup]: [run_session] around the pump; [Admin]
      (admin.rs): the console; [Clients]: what the console says of a session.
    - [Chores]: what of all that touches neither pools nor lease; [PumpFlow],
      [PumpInv], [RowHooks], [Failover], [Replay]: the theorems about it;
      [Neutral]: connections that owe nothing; [Isolation]: the invariant of the
      message flow, [Site]: many sessions on shared pools.
    - [ScatterLeg] (scatter.rs, [run_leg_pooled]): a leg as a future, cut at its
      awaits; [Scatter] (scatter.rs): the legs polled in any order, and the
      merge; [ScatterProps]: what the client sees; [ScatterLimits]: permits, of
      one leg and of all.
    - [Ownership]: the well-typed session, and whose connection it is on;
      [SiteOwnership]: the same for all sessions together.
    - [Proxy] (proxy.rs, config.rs): the builder; [Server] (proxy.rs): [serve],
      the accept loop and shutdown; [Metrics] (metrics.rs).
    - [Gateway], [GatewayRoute], [GatewayMain] (examples/gateway.rs): the
      interceptor, where it sends writes, and its command line; [Binary] (pgferry-bin/src/main.rs): the configuration.
    - [Witnesses]: every theorem with hypotheses applied at a concrete input.

    ** How the code is read

    An [async fn] over mutable state [S] is [async S A]: a function from a state
    to a value or [Pending], and the state reached.  [Pending] is an await that
    does not complete, and a panic; [timeout] turns it into an elapsed deadline.
    Numbers of a fixed width are integers wrapped where the code can wrap
    (counters, gauges, command-tag counts, the [i128] sum).  A [HashMap] is a
    [gmap]; where the code iterates one, the model iterates in the order of
    [map_to_list].  A clock reading is an operation of the platform, so time
    may pass at every reading; a selection over a health table uses one reading
    where the code takes one per endpoint.  The pump consumes a list of events:
    quantifying over the list covers every order in which [select!] can fire.

    Interfaces: [Platform] (with [PlatformLaws] and, for the message flow of the
    server, [ServerLaws], [FlowLaws] and [Traced]), [Interceptor] (with
    [HooksComplete] where a theorem needs the hooks to return and [HookFlow],
    which [Site.responses_do_not_leak] assumes: raw hooks make up neither the
    beginning nor the end of a cycle), [ScatterExec] (what the pump
    expects of the scatter executor, with [ScatterLaws], [ScatterFlow]
    and [ScatterTyped], discharged in [ScatterProps], [Site] and [Ownership]),
    [Schedule] (which scatter leg is polled next), [RegexEngine], [UnicodeTables], [Sockets] and [Host].
    Each is instantiated in [Reference], next to its definition, or in
    [Witnesses].

    ** Fuel and bounds

    Loops that read from a server until [ReadyForQuery] take [Fuel]; a loop out
    of fuel is a loop that has not ended, i.e. pending, so a theorem that such a
    computation returns is about enough messages having arrived, and theorems
    about returning in spite of the server ([checkin_total]) rely on the
    timeouts alone.  The idle loop of [checkout] runs one round more than there
    are parked connections, which suffices since every round removes one
    ([checkout_completes]).  Comment stripping runs for the length of the text
    ([strip_comments_terminates]).  The attempt loops have the bound of the
    code, twice the number of endpoints and at least two.

    ** What the theorems show

    - Pool: connections never exceed the capacity in any interleaving; gauges
      are exact up to dropped futures; checkout and the three ways back are runs
      of the interleaved system; checkout and checkin complete; what is parked
      by checkin is neutral; reuse is last-in first-out.
    - Isolation: sessions that come, run and end on shared pools in any order
      leave no response unread, no batch of the extended protocol and no
      transaction open on a parked connection, as long as clients are as patient
      as [needs] says (nothing that opens or ends a batch before the response to
      the last one, no query over an open batch), scatter legs leave no
      transaction behind, and the interceptor's raw hooks, which the code lets
      do anything, make up neither queries nor the end of a cycle ([HookFlow]).
      A connection an attach takes from its pool is sent exactly the session's
      statements and overrides.
    - Identity: without any such assumption, sessions stay well-typed and every
      connection is used under the user and database it was opened with.
    - Pump: passthrough in both directions, without an interceptor and for a
      client that reads, in any interleaving of the two, with what is answered
      locally (a [Parse] of a registered name) named and the connection handed
      back to its pool at the end; a denied or replied query never
      reaches a server and is answered by exactly one whole cycle (two
      [ReadyForQuery] for an extended reply, which is recorded as a defect);
      statements never leak through the pool; connection loss and shutdown are
      answered as promised; filtered rows and the command tag agree.
    - Routing and failover: health thresholds, priority, read/write split, and
      that an attach ends at a working endpoint.
    - Scatter: all or nothing for the client, one result set, exact sums, no
      success with more legs on a pool than permits, in any interleaving of the
      legs; a leg polled alone does what its [async fn] does and accounts for
      its permit.
    - Rows: decoding is exact and editing round-trips.
    - Startup and registries: refusals, no registration left behind, a cancel
      reaches the session it names and no other; the console answers every
      message with one whole cycle, and shows a session as attached only while
      it holds a connection.
    - Server: the client cap; that a graceful shutdown returns only when every
      task was told to stop, and with all of them stopped unless the drain
      window ran out; that the drain ends, by its timeout if the sessions do
      not, and never before it.  A task that is aborted stays until the
      runtime drops it ([Aborting], [aborting]).
    - Metrics: the answer depends on the request line alone, requests are
      bounded, labels can be unescaped.
    - Gateway and binary: masking of what the server sends the session (not of
      the rows of a scatter), denial and the read/write split through the pump,
      the command line reads back, options and file make the configuration they should.
    - Builder, audit log.
    - Some theorems state behaviour the code should not have: closed statements
      that stay registered, rows masked under another result's columns, a
      graceful shutdown that returns early, unnoted cycles that survive [sanitize], registry
      entries removed by pid alone, an endpoint named [default] that is lost,
      scatters that cannot succeed, a [shutdown] that stops little, a sweeper
      left behind by a failed [serve], an unreadable CA file taken for none; the
      examples at the end of their sections in [Witnesses] show batches left
      open, a rewritten read on a replica, and an attached session shown as idle.

    ** Not modelled

    The TLS handshakes (the settings of both sides are modelled, rustls is a
    class), the messages of the downstream handshake and what closing a socket
    gives (parameters of [Front]), log output; the clap and TOML parsers in front
    of the binary's records.  In [Site] an event of one
    session is atomic for the others, and with it a whole scatter: its legs
    interleave with each other, not with other sessions, so that no other
    session gives a connection back while it runs ([scatter_needs_permits] says
    so); the interleavings below that are the subject of [PoolSystem], for one
    pool.  A row's field count is a [nat], where the wire has a signed 16-bit
    number that no server makes negative.

    ** Plan

    Next: events of sessions cut at their awaits in [Site], as the scatter legs
    are in [ScatterLeg]. *)

From stdpp Require Export base decidable option list gmap strings fin_maps numbers.
From stdpp Require Export tactics.


Declare Scope pgferry_scope.
Delimit Scope pgferry_scope with pgferry.

(** ** Results and asynchronous computations

    [result E A] is Rust's [Result<A, E>].  [async S A] is an [async] function
    over a mutable state [S]: it runs to completion with a value, or it stays
    pending (an await that does not complete).  The state reached so far is
    kept in both cases, because an abandoned future leaves its effects
    behind. *)

Inductive result (E A : Type) : Type :=
| Ok (a : A)
| Err (e : E).
Arguments Ok {E A} a.
Arguments Err {E A} e.

Inductive poll (A : Type) : Type :=
| Ready (a : A)
| Pending.
Arguments Ready {A} a.
Arguments Pending {A}.

Definition async (S A : Type) : Type := S → poll A * S.

#[global] Instance async_ret {S} : MRet (async S) := λ A a s, (Ready a, s).

#[global] Instance async_bind {S} : MBind (async S) := λ A B k m s,
  match m s with
  | (Ready a, s') => k a s'
  | (Pending, s') => (Pending, s')
  end.

Definition is_err {E A} (r : result E A) : bool :=
  match r with Ok _ => false | Err _ => true end.

(** [m?]: the [?] operator; an [Err] leaves the enclosing function. *)
Definition try_bind {S E A B} (m : async S (result E A))
    (k : A → async S (result E B)) : async S (result E B) :=
  r ← m; match r with Ok a => k a | Err e => mret (Err e) end.

Notation "x ←? m ; k" := (try_bind m (λ x, k))
  (at level 20, m at level 100, k at level 200, only parsing) : pgferry_scope.
Open Scope pgferry_scope.

(** A future that never completes. *)
Definition never {S A} : async S A := λ s, (Pending, s).

Definition gets {S A} (f : S → A) : async S A := λ s, (Ready (f s), s).
Definition modify {S} (f : S → S) : async S unit := λ s, (Ready (), f s).

(** [tokio::time::timeout]: [None] when the deadline passes first. *)
Definition timeout {S A} (m : async S A) : async S (option A) := λ s,
  match m s with
  | (Ready a, s') => (Ready (Some a), s')
  | (Pending, s') => (Ready None, s')
  end.

(** Run a computation on a component of the state. *)
Definition zoom {S T A} (get : S → T) (put : T → S → S) (m : async T A) : async S A :=
  λ s, match m (get s) with (r, t) => (r, put t s) end.

(** ** Field updates

    [r <| f := v |>] is the record [r] with field [f] replaced.  A record type
    declares its eta expansion once ([Eta]); the update of each projection is
    derived from it. *)

Class Eta (R : Type) := eta_expand : R → R.

Class Setter {R T : Type} (proj : R → T) := { set_field : (T → T) → R → R }.
Arguments set_field {R T} proj {_} f r /.

Ltac derive_setter :=
  lazymatch goal with
  | |- @Setter ?R ?T ?p =>
    let i := constr:(_ : Eta R) in
    let b := eval hnf in i in
    let g := eval pattern p in b in
    lazymatch g with
    | (λ _, ?body) _ => fail "not a field of" R
    | ?h _ => exact {| set_field := λ f : T → T, h (λ r : R, f (p r)) |}
    end
  end.
#[global] Hint Mode Setter + + + : typeclass_instances.
#[global] Hint Extern 1 (Setter _) => derive_setter : typeclass_instances.

Notation "r <| p := v |>" := (set_field p (λ _, v) r)
  (at level 1, left associativity, p at level 11) : pgferry_scope.
Notation "r <| p ::= f |>" := (set_field p f r)
  (at level 1, left associativity, p at level 11) : pgferry_scope.

(** ** Machine integers

    Counters keep their width: [u64] and [i64] values are [Z]s normalised by
    the wrap-around of the atomic operations. *)

Definition wrap_u (w z : Z) : Z := (z `mod` 2 ^ w)%Z.
Definition wrap_i (w z : Z) : Z := ((z + 2 ^ (w - 1)) `mod` 2 ^ w - 2 ^ (w - 1))%Z.

Definition u64_add (a b : Z) : Z := wrap_u 64 (a + b).
Definition i64_add (a b : Z) : Z := wrap_i 64 (a + b).
Definition i64_sub (a b : Z) : Z := wrap_i 64 (a - b).

(** [u64::saturating_sub]. *)
Definition saturating_sub (a b : Z) : Z := Z.max 0 (a - b).

Lemma wrap_u_add_idemp w a b : (0 ≤ w)%Z → wrap_u w (wrap_u w a + b) = wrap_u w (a + b).
Proof. intros. unfold wrap_u. by rewrite Zplus_mod_idemp_l. Qed.

Lemma wrap_i_add_idemp w a b :
  wrap_i w (wrap_i w a + b) = wrap_i w (a + b).
Proof.
  unfold wrap_i. f_equal.
  replace ((a + 2 ^ (w - 1)) `mod` 2 ^ w - 2 ^ (w - 1) + b + 2 ^ (w - 1))%Z
    with ((a + 2 ^ (w - 1)) `mod` 2 ^ w + b)%Z by lia.
  rewrite Zplus_mod_idemp_l. f_equal. lia.
Qed.

Lemma wrap_i_small z : (- 2 ^ 63 ≤ z < 2 ^ 63)%Z → wrap_i 64 z = z.
Proof. intros. unfold wrap_i. rewrite Z.mod_small; lia. Qed.

(** ** Running asynchronous computations *)

Create HintDb async.
Create Rewrite HintDb async.

Lemma bind_ready {S A B} (m : async S A) (k : A → async S B) s a s' :
  m s = (Ready a, s') → (m ≫= k) s = k a s'.
Proof. unfold mbind, async_bind. by intros ->. Qed.

Lemma bind_pending {S A B} (m : async S A) (k : A → async S B) s s' :
  m s = (Pending, s') → (m ≫= k) s = (Pending, s').
Proof. unfold mbind, async_bind. by intros ->. Qed.

Lemma bind_ready_inv {S A B} (m : async S A) (k : A → async S B) s b s'' :
  (m ≫= k) s = (Ready b, s'') → ∃ a s', m s = (Ready a, s') ∧ k a s' = (Ready b, s'').
Proof. unfold mbind, async_bind. destruct (m s) as [[a|] s'] eqn:?; naive_solver. Qed.

Lemma try_bind_ok {S E A B} (m : async S (result E A)) (k : A → async S (result E B)) s a s' :
  m s = (Ready (Ok a), s') → try_bind m k s = k a s'.
Proof. intros Hm. unfold try_bind. by rewrite (bind_ready _ _ _ _ _ Hm). Qed.

Lemma try_bind_ready_inv {S E A B} (m : async S (result E A)) (k : A → async S (result E B))
    s r s'' :
  try_bind m k s = (Ready r, s'') →
  (∃ a s', m s = (Ready (Ok a), s') ∧ k a s' = (Ready r, s'')) ∨
  (∃ e, m s = (Ready (Err e), s'') ∧ r = Err e).
Proof.
  unfold try_bind. intros (r' & s' & Hm & Hk)%bind_ready_inv.
  destruct r' as [a|e]; [left; eauto|right].
  injection Hk as <- <-. eauto.
Qed.

Lemma timeout_ready_inv {S A} (m : async S A) s o s' :
  timeout m s = (Ready o, s') →
  (∃ a, o = Some a ∧ m s = (Ready a, s')) ∨ (o = None ∧ m s = (Pending, s')).
Proof. unfold timeout. destruct (m s) as [[a|] t] eqn:?; naive_solver. Qed.

Lemma timeout_never_pending {S A} (m : async S A) s : ∃ o s', timeout m s = (Ready o, s').
Proof. unfold timeout. destruct (m s) as [[a|] t]; eauto. Qed.

(** A run by the result it computes. *)
Lemma run_result {S A} (m : async S A) s r : (m s).1 = r → m s = (r, (m s).2).
Proof. by destruct (m s); intros <-. Qed.

(** Unfold the plumbing of the monad without touching the operations. *)
Ltac async_simpl :=
  unfold mret, async_ret, gets, modify, never in *; simpl in *.

(** Split a completed run of a composed computation into its parts. *)
Ltac async_inv :=
  repeat match goal with
  | H : (_ ≫= _) _ = (Ready _, _) |- _ =>
    apply bind_ready_inv in H as (? & ? & ? & ?)
  | H : (gets _) _ = (Ready _, _) |- _ => unfold gets in H; simplify_eq
  | H : (modify _) _ = (Ready _, _) |- _ => unfold modify in H; simplify_eq
  | H : (mret _) _ = (Ready _, _) |- _ => unfold mret, async_ret in H; simplify_eq
  | H : never _ = (Ready _, _) |- _ => discriminate H
  end.

(** ** Relational invariants

    [keeps R m]: every run of [m], completed or pending, relates its initial
    to its last state by [R].  For a preorder the computations that keep it are closed
    under composition; [keeps_tac] walks a handler and leaves the leaves that
    the hint database [keeps] does not know. *)

Definition keeps {S A} (R : S → S → Prop) (m : async S A) : Prop :=
  ∀ s r s', m s = (r, s') → R s s'.

Lemma bind_inv {S A B} (m : async S A) (k : A → async S B) s r s'' :
  (m ≫= k) s = (r, s'') →
  m s = (Pending, s'') ∨ ∃ a s', m s = (Ready a, s') ∧ k a s' = (r, s'').
Proof. unfold mbind, async_bind. destruct (m s) as [[a|] s'] eqn:?; naive_solver. Qed.

Create HintDb keeps.

Section Keeps.
Context {S : Type} (R : S → S → Prop) `{!PreOrder R}.

Lemma keeps_ret {A} (a : A) : keeps R (mret a).
Proof. intros s ? s' [= <- <-]. done. Qed.

Lemma keeps_gets {A} (f : S → A) : keeps R (gets f).
Proof. intros s ? s' [= <- <-]. done. Qed.

Lemma keeps_never {A} : keeps R (never (A := A)).
Proof. intros s ? s' [= <- <-]. done. Qed.

Lemma keeps_modify f : (∀ s, R s (f s)) → keeps R (modify f).
Proof. intros Hf s ? s' [= <- <-]. done. Qed.

Lemma keeps_bind {A B} (m : async S A) (k : A → async S B) :
  keeps R m → (∀ a, keeps R (k a)) → keeps R (m ≫= k).
Proof.
  intros Hm Hk s b s'' [?|(a & s' & ? & ?)]%bind_inv; [by eapply Hm|].
  etrans; [by eapply Hm|by eapply Hk].
Qed.

Lemma keeps_mono {A} (R' : S → S → Prop) (m : async S A) :
  (∀ s s', R' s s' → R s s') → keeps R' m → keeps R m.
Proof. intros HR Hm s a s' ?. eapply HR, Hm; eauto. Qed.
End Keeps.

Ltac keeps_tac :=
  repeat first
    [ solve [eauto 3 with keeps]
    | apply keeps_ret; [apply _]
    | apply keeps_gets; [apply _]
    | apply keeps_never; [apply _]
    | apply keeps_bind; [apply _| |intros ?]
    | match goal with
      | |- keeps _ (match ?x with _ => _ end) => destruct x
      end ].

(** ** Vectors

    A Rust [Vec] is a list in index order: [push] appends and [pop] removes
    the last element. *)

Definition vec_pop {A} (v : list A) : option (A * list A) :=
  match reverse v with
  | [] => None
  | x :: r => Some (x, reverse r)
  end.

Lemma vec_pop_None {A} (v : list A) : vec_pop v = None ↔ v = [].
Proof.
  unfold vec_pop. destruct (reverse v) eqn:Hr; split; try done.
  - intros _. by rewrite <-(reverse_involutive v), Hr.
  - intros ->. done.
Qed.

Lemma vec_pop_Some {A} (v : list A) x r : vec_pop v = Some (x, r) ↔ v = r ++ [x].
Proof.
  unfold vec_pop. split.
  - destruct (reverse v) as [|y l] eqn:Hr; intros ?; simplify_eq.
    by rewrite <-(reverse_involutive v), Hr, reverse_cons.
  - intros ->. by rewrite reverse_snoc, reverse_involutive.
Qed.

Lemma vec_pop_push {A} (v : list A) x : vec_pop (v ++ [x]) = Some (x, v).
Proof. by apply vec_pop_Some. Qed.

Lemma vec_pop_length {A} (v : list A) x r :
  vec_pop v = Some (x, r) → length v = S (length r).
Proof. intros ->%vec_pop_Some. rewrite length_app. simpl. lia. Qed.

Lemma Forall_kept {A} (Q : A → Prop) (g : A → bool) l : Forall Q l → Forall Q (List.filter g l).
Proof. induction 1 as [|x l Hx _ IH]; simpl; [done|]. destruct (g x); [by constructor|done]. Qed.

(** Around an element. *)
Lemma lookup_around {A} (l : list A) i x :
  l !! i = Some x → ∃ l1 l2, l = l1 ++ x :: l2 ∧ delete i l = l1 ++ l2 ∧
    ∀ y, <[i := y]> l = l1 ++ y :: l2.
Proof.
  revert i. induction l as [|z l IH]; intros i; [done|]. destruct i as [|i]; simpl.
  - intros [= ->]. exists [], l. done.
  - intros (l1 & l2 & -> & Hd & Hi)%IH. exists (z :: l1), l2. simpl. rewrite Hd. split; [done|].
    split; [done|]. intros y. by rewrite Hi.
Qed.

#[global] Hint Rewrite @vec_pop_push : async.

(** ** Searching a slice: [iter().find(..)] *)

Lemma find_Some_split {A} (f : A → bool) (l : list A) x :
  List.find f l = Some x ↔
  ∃ l1 l2, l = l1 ++ x :: l2 ∧ f x = true ∧ Forall (λ y, f y = false) l1.
Proof.
  split.
  - induction l as [|y l IH]; simpl; [done|]. destruct (f y) eqn:Hy.
    + intros [= <-]. by exists [], l.
    + intros (l1 & l2 & -> & ? & ?)%IH. exists (y :: l1), l2. auto using Forall_cons_2.
  - intros (l1 & l2 & -> & Hx & Hl). induction Hl as [|y l1 Hy _ IH]; simpl.
    + by rewrite Hx.
    + by rewrite Hy.
Qed.

Lemma find_None_Forall {A} (f : A → bool) (l : list A) :
  List.find f l = None ↔ Forall (λ y, f y = false) l.
Proof.
  split.
  - intros H. apply Forall_forall. intros y Hy.
    exact (List.find_none _ _ H _ Hy).
  - induction 1 as [|y l Hy _ IH]; simpl; [done|]. by rewrite Hy.
Qed.
