(* ===== verification/Wp.v ===== *)
(** * Weakest preconditions of asynchronous computations

    [wp m Q N s]: run from [s], [m] completes with a value and a state in [Q] or
    stays pending in a state in [N].  The rules below compute it along a
    handler; [preserves J m] is the case of an invariant, of which nothing is
    asked where the computation stays pending, and [holding J m] the one where
    it holds there as well. *)

From S2P Require Import Prelude.

Definition wp {S A} (m : async S A) (Q : A → S → Prop) (N : S → Prop) (s : S) : Prop :=
  match m s with
  | (Ready a, s') => Q a s'
  | (Pending, s') => N s'
  end.

Section Wp.
Context {S : Type}.
Implicit Types (s : S) (N : S → Prop).

Lemma wp_ret {A} (a : A) Q N s : Q a s → wp (mret a) Q N s.
Proof. done. Qed.

Lemma wp_never {A} (Q : A → S → Prop) N s : N s → wp never Q N s.
Proof. done. Qed.

Lemma wp_gets {A} (f : S → A) Q N s : Q (f s) s → wp (gets f) Q N s.
Proof. done. Qed.

Lemma wp_modify f (Q : unit → S → Prop) N s : Q () (f s) → wp (modify f) Q N s.
Proof. done. Qed.

Lemma wp_bind {A B} (m : async S A) (k : A → async S B) Q N s :
  wp m (λ a, wp (k a) Q N) N s → wp (m ≫= k) Q N s.
Proof. unfold wp, mbind, async_bind. by destruct (m s) as [[]]. Qed.

Lemma wp_try_bind {E A B} (m : async S (result E A)) (k : A → async S (result E B)) Q N s :
  wp m (λ r, match r with Ok a => wp (k a) Q N | Err e => Q (Err e) end) N s →
  wp (try_bind m k) Q N s.
Proof.
  unfold try_bind. intros Hm. apply wp_bind. unfold wp in *.
  destruct (m s) as [[[]|] s']; done.
Qed.

Lemma wp_timeout {A} (m : async S A) Q N s :
  wp m (λ a, Q (Some a)) (Q None) s → wp (timeout m) Q N s.
Proof. unfold wp, timeout. by destruct (m s) as [[]]. Qed.

Lemma wp_mono {A} (m : async S A) (Q Q' : A → S → Prop) (N N' : S → Prop) s :
  (∀ a s', Q a s' → Q' a s') → (∀ s', N s' → N' s') → wp m Q N s → wp m Q' N' s.
Proof. unfold wp. destruct (m s) as [[]]; naive_solver. Qed.

Lemma wp_and {A} (m : async S A) (Q Q' : A → S → Prop) (N N' : S → Prop) s :
  wp m Q N s → wp m Q' N' s → wp m (λ a s', Q a s' ∧ Q' a s') (λ s', N s' ∧ N' s') s.
Proof. unfold wp. by destruct (m s) as [[]]. Qed.

(** What a computation keeps, in every outcome. *)
Lemma wp_keeps {A} (R : S → S → Prop) (m : async S A) s :
  keeps R m → wp m (λ _, R s) (R s) s.
Proof. unfold wp. intros Hm. destruct (m s) as [[] s'] eqn:Heq; by apply Hm in Heq. Qed.

Lemma wp_run {A} (m : async S A) Q N s a s' : wp m Q N s → m s = (Ready a, s') → Q a s'.
Proof. unfold wp. intros Hm Heq. by rewrite Heq in Hm. Qed.

(** ** Invariants *)

(** From a state in [J], a completed run ends in [J] with a value in [Φ]. *)
Definition preserves {A} (J : S → Prop) (Φ : A → Prop) (m : async S A) : Prop :=
  ∀ s, J s → wp m (λ a s', J s' ∧ Φ a) (λ _, True) s.

Lemma wp_preserves {A} J (Φ : A → Prop) (m : async S A) s :
  preserves J Φ m → J s → wp m (λ a s', J s' ∧ Φ a) (λ _, True) s.
Proof. intros Hm. apply Hm. Qed.

Lemma preserves_ret {A} J (Φ : A → Prop) (a : A) : Φ a → preserves J Φ (mret a).
Proof. by intros Ha s. Qed.
Lemma preserves_gets {A} J (Φ : A → Prop) (f : S → A) : (∀ s, J s → Φ (f s)) → preserves J Φ (gets f).
Proof. intros Hf s Hs. split; auto. Qed.
Lemma preserves_never {A} J Φ : preserves J Φ (never (A := A)).
Proof. by intros s. Qed.
Lemma preserves_modify J f : (∀ s, J s → J (f s)) → preserves J (λ _, True) (modify f).
Proof. intros Hf s Hs. split; [by apply Hf|done]. Qed.
Lemma preserves_bind {A B} J Ψ Φ (m : async S A) (k : A → async S B) :
  preserves J Ψ m → (∀ a, Ψ a → preserves J Φ (k a)) → preserves J Φ (m ≫= k).
Proof.
  intros Hm Hk s Hs. apply wp_bind. eapply wp_mono; [| |by apply Hm]; simpl; [|done].
  intros a s' [Hs' Ha]. by apply Hk.
Qed.
Lemma preserves_mono {A} J (Φ Ψ : A → Prop) (m : async S A) :
  (∀ a, Φ a → Ψ a) → preserves J Φ m → preserves J Ψ m.
Proof.
  intros HΦ Hm s Hs. eapply wp_mono; [| |by apply Hm]; simpl; [|done]. naive_solver.
Qed.
Lemma preserves_keeps {A} (R : S → S → Prop) J (m : async S A) :
  (∀ s s', R s s' → J s → J s') → keeps R m → preserves J (λ _, True) m.
Proof.
  intros HR Hm s Hs. eapply wp_mono; [| |by apply wp_keeps]; simpl; [|done]. eauto.
Qed.

(** The same where the invariant also holds of what a pending run leaves. *)
Definition holding {A} (J : S → Prop) (Φ : A → Prop) (m : async S A) : Prop :=
  ∀ s, J s → wp m (λ a s', J s' ∧ Φ a) J s.

Lemma holding_preserves {A} J (Φ : A → Prop) (m : async S A) : holding J Φ m → preserves J Φ m.
Proof. intros Hm s Hs. eapply wp_mono; [| |by apply Hm]; done. Qed.
Lemma holding_ret {A} J (Φ : A → Prop) (a : A) : Φ a → holding J Φ (mret a).
Proof. by intros Ha s. Qed.
Lemma holding_gets {A} J (Φ : A → Prop) (f : S → A) : (∀ s, J s → Φ (f s)) → holding J Φ (gets f).
Proof. intros Hf s Hs. split; auto. Qed.
Lemma holding_never {A} J Φ : holding J Φ (never (A := A)).
Proof. by intros s. Qed.
Lemma holding_modify J f : (∀ s, J s → J (f s)) → holding J (λ _, True) (modify f).
Proof. intros Hf s Hs. split; [by apply Hf|done]. Qed.
Lemma holding_bind {A B} J Ψ Φ (m : async S A) (k : A → async S B) :
  holding J Ψ m → (∀ a, Ψ a → holding J Φ (k a)) → holding J Φ (m ≫= k).
Proof.
  intros Hm Hk s Hs. apply wp_bind. eapply wp_mono; [| |by apply Hm]; simpl; [|done].
  intros a s' [Hs' Ha]. by apply Hk.
Qed.
Lemma holding_mono {A} J (Φ Ψ : A → Prop) (m : async S A) :
  (∀ a, Φ a → Ψ a) → holding J Φ m → holding J Ψ m.
Proof. intros HΦ Hm s Hs. eapply wp_mono; [| |by apply Hm]; simpl; [naive_solver|done]. Qed.
Lemma holding_keeps {A} (R : S → S → Prop) J (m : async S A) :
  (∀ s s', R s s' → J s → J s') → keeps R m → holding J (λ _, True) m.
Proof. intros HR Hm s Hs. eapply wp_mono; [| |by apply wp_keeps]; simpl; eauto. Qed.

End Wp.

Create HintDb holding.

(** Walks a handler whose every part holds the invariant. *)
Ltac holding_tac :=
  repeat first
    [ solve [eauto 3 with holding]
    | apply holding_ret; [done]
    | apply holding_gets; [done]
    | apply holding_never
    | apply (holding_bind _ (λ _, True)); [|intros ? _]
    | match goal with
      | |- holding _ _ (match ?x with _ => _ end) => destruct x
      end ].

Create HintDb preserves.

(** Walks a handler whose every part preserves the invariant. *)
Ltac preserves_tac :=
  repeat first
    [ solve [eauto 3 with preserves]
    | apply preserves_ret; [done]
    | apply preserves_gets; [done]
    | apply preserves_never
    | apply (preserves_bind _ (λ _, True)); [|intros ? _]
    | match goal with
      | |- preserves _ _ (match ?x with _ => _ end) => destruct x
      end ].
