(* ===== verification/RustStr.v ===== *)
(** * Strings of the Rust standard library

    A [str] is its UTF-8 byte sequence ([string] is a list of 8-bit
    [ascii]s).  This file holds the [str] methods the sources call:
    [replace], [trim], [split], [split_once], [rsplit_once], [strip_prefix],
    [to_ascii_uppercase], decimal [Display] and [FromStr], and UTF-8
    validation.  Whitespace is Unicode's [White_Space], recognised by its
    UTF-8 encoding. *)

From Stdlib Require Export Ascii.
From stdpp Require Export pretty.
From S2P Require Import Prelude.

#[local] Arguments String.append !s1 s2 /.

Definition byte_of (c : ascii) : N := N_of_ascii c.

(** Bytes of the next [White_Space] character of [s], 0 when [s] starts with
    another character. *)
Definition ws_len (s : string) : nat :=
  match s with
  | String a r =>
    let a := byte_of a in
    if bool_decide ((9 ≤ a ≤ 13) ∨ a = 32)%N then 1 else
    match r with
    | String b r' =>
      let b := byte_of b in
      if bool_decide (a = 194 ∧ (b = 133 ∨ b = 160))%N then 2 else
      match r' with
      | String c _ =>
        let c := byte_of c in
        if bool_decide
             ((a = 225 ∧ b = 154 ∧ c = 128) ∨
              (a = 226 ∧ b = 128 ∧ ((128 ≤ c ≤ 138) ∨ c = 168 ∨ c = 169 ∨ c = 175)) ∨
              (a = 226 ∧ b = 129 ∧ c = 159) ∨
              (a = 227 ∧ b = 128 ∧ c = 128))%N
        then 3 else 0
      | _ => 0
      end
    | _ => 0
    end
  | EmptyString => 0
  end.

Fixpoint str_drop (n : nat) (s : string) : string :=
  match n, s with
  | S n, String _ r => str_drop n r
  | _, _ => s
  end.

(** [str::trim_start]. *)
Fixpoint trim_start_go (skip : nat) (s : string) : string :=
  match s with
  | EmptyString => EmptyString
  | String _ r =>
    match skip with
    | S k => trim_start_go k r
    | O => match ws_len s with
           | O => s
           | S k => trim_start_go k r
           end
    end
  end.
Definition trim_start (s : string) : string := trim_start_go 0 s.

(** [str::strip_prefix]. *)
Fixpoint strip_prefix (p s : string) : option string :=
  match p, s with
  | EmptyString, _ => Some s
  | String a p', String b s' => if decide (a = b) then strip_prefix p' s' else None
  | _, EmptyString => None
  end.

(** [str::split_once] on a string pattern: the text around the first
    occurrence. *)
Fixpoint split_once (p s : string) : option (string * string) :=
  match strip_prefix p s with
  | Some r => Some (EmptyString, r)
  | None =>
    match s with
    | EmptyString => None
    | String c s' =>
      match split_once p s' with
      | Some (a, b) => Some (String c a, b)
      | None => None
      end
    end
  end.

(** [str::rsplit_once] on a character: the text around the last occurrence. *)
Fixpoint rsplit_once (c : ascii) (s : string) : option (string * string) :=
  match s with
  | EmptyString => None
  | String d s' =>
    match rsplit_once c s' with
    | Some (a, b) => Some (String d a, b)
    | None => if decide (d = c) then Some (EmptyString, s') else None
    end
  end.

(** [str::replace] of a one-byte pattern. *)
Fixpoint str_replace (c : ascii) (by_ : string) (s : string) : string :=
  match s with
  | EmptyString => EmptyString
  | String d s' => if decide (d = c) then by_ +:+ str_replace c by_ s'
                   else String d (str_replace c by_ s')
  end.

(** [str::split] on the characters whose byte length [dl] reports (0: not a
    separator). *)
Fixpoint split_go (dl : string → nat) (skip : nat) (acc s : string) : list string :=
  match s with
  | EmptyString => [acc]
  | String c r =>
    match skip with
    | S k => split_go dl k acc r
    | O => match dl s with
           | O => split_go dl 0 (acc +:+ String c EmptyString) r
           | S k => acc :: split_go dl k EmptyString r
           end
    end
  end.
Definition str_split (dl : string → nat) (s : string) : list string :=
  split_go dl 0 EmptyString s.

Definition ascii_upper (c : ascii) : ascii :=
  let n := byte_of c in
  if bool_decide (97 ≤ n ≤ 122)%N then ascii_of_N (n - 32) else c.

Fixpoint to_ascii_uppercase (s : string) : string :=
  match s with
  | EmptyString => EmptyString
  | String c r => String (ascii_upper c) (to_ascii_uppercase r)
  end.

(** [str::to_lowercase]: the Unicode tables are an argument, consulted for
    text that is not all ASCII. *)
Class UnicodeTables := unicode_lower : string → string.

Definition ascii_lower (c : ascii) : ascii :=
  let n := byte_of c in
  if bool_decide (65 ≤ n ≤ 90)%N then ascii_of_N (n + 32) else c.

Fixpoint to_ascii_lowercase (s : string) : string :=
  match s with
  | EmptyString => EmptyString
  | String c r => String (ascii_lower c) (to_ascii_lowercase r)
  end.

Fixpoint is_ascii (s : string) : bool :=
  match s with
  | EmptyString => true
  | String c r => bool_decide (byte_of c < 128)%N && is_ascii r
  end.

Definition to_lowercase `{U : UnicodeTables} (s : string) : string :=
  if is_ascii s then to_ascii_lowercase s else unicode_lower s.

(** [trim_end_matches] of one character. *)
Fixpoint trim_end_matches (p : ascii) (s : string) : string :=
  match s with
  | EmptyString => EmptyString
  | String c r =>
    match trim_end_matches p r with
    | EmptyString => if decide (c = p) then EmptyString else String c EmptyString
    | r => String c r
    end
  end.

(** *** Decimal numbers *)

Definition digit_val (c : ascii) : option Z :=
  let n := byte_of c in
  if bool_decide (48 ≤ n ≤ 57)%N then Some (Z.of_N n - 48)%Z else None.

Definition is_ascii_digit (c : ascii) : bool :=
  match digit_val c with Some _ => true | None => false end.

Fixpoint str_all (f : ascii → bool) (s : string) : bool :=
  match s with
  | EmptyString => true
  | String c r => f c && str_all f r
  end.

Fixpoint parse_digits (acc : Z) (s : string) : option Z :=
  match s with
  | EmptyString => Some acc
  | String c r => match digit_val c with
                  | Some d => parse_digits (acc * 10 + d) r
                  | None => None
                  end
  end.

(** Digits of a non-empty string; [FromStr] refuses the empty one. *)
Definition parse_nat (s : string) : option Z :=
  match s with EmptyString => None | _ => parse_digits 0 s end.

(** [u64::from_str]: an optional [+], digits, no overflow. *)
Definition parse_u64 (s : string) : option Z :=
  let body := match strip_prefix "+" s with Some r => r | None => s end in
  match parse_nat body with
  | Some n => if bool_decide (n < 2 ^ 64)%Z then Some n else None
  | None => None
  end.

(** [str::trim_end] and [str::trim]. *)
Fixpoint trim_end (s : string) : string :=
  match s with
  | EmptyString => EmptyString
  | String c r => if decide (trim_start s = EmptyString) then EmptyString else String c (trim_end r)
  end.
Definition trim (s : string) : string := trim_end (trim_start s).

(** [i128::from_str]: an optional sign, digits, no overflow. *)
Definition parse_i128 (s : string) : option Z :=
  let '(neg, body) :=
    match strip_prefix "-" s with
    | Some r => (true, r)
    | None => (false, match strip_prefix "+" s with Some r => r | None => s end)
    end in
  match parse_nat body with
  | Some n =>
    let v := if neg : bool then (- n)%Z else n in
    if bool_decide (- 2 ^ 127 ≤ v < 2 ^ 127)%Z then Some v else None
  | None => None
  end.

(** [Display] of an integer. *)
Definition show_Z (z : Z) : string := pretty z.

(** *** UTF-8 *)

Definition cont (b : ascii) : bool := bool_decide (128 ≤ byte_of b ≤ 191)%N.

(** [std::str::from_utf8] accepts exactly the well-formed sequences. *)
Fixpoint utf8_valid (l : list ascii) : bool :=
  match l with
  | [] => true
  | a :: r =>
    let n := byte_of a in
    if bool_decide (n < 128)%N then utf8_valid r else
    match r with
    | [] => false
    | b :: r1 =>
      let m := byte_of b in
      if bool_decide (194 ≤ n ≤ 223)%N then cont b && utf8_valid r1 else
      match r1 with
      | [] => false
      | c :: r2 =>
        if bool_decide (224 ≤ n ≤ 239)%N then
          bool_decide ((n = 224 → 160 ≤ m) ∧ (n = 237 → m ≤ 159))%N &&
          cont b && cont c && utf8_valid r2
        else
        match r2 with
        | [] => false
        | d :: r3 =>
          bool_decide (240 ≤ n ≤ 244 ∧ (n = 240 → 144 ≤ m) ∧ (n = 244 → m ≤ 143))%N &&
          cont b && cont c && cont d && utf8_valid r3
        end
      end
    end
  end.

Definition from_utf8 (l : list ascii) : option string :=
  if utf8_valid l then Some (String.string_of_list_ascii l) else None.

(** The next character of a byte sequence: its length and whether it is well
    formed.  An ill-formed one is the longest prefix of a character, as
    [Utf8Chunks] cuts it. *)
Definition utf8_step (l : list ascii) : nat * bool :=
  match l with
  | [] => (0, true)
  | a :: r =>
    let n := byte_of a in
    if bool_decide (n < 128)%N then (1, true)
    else if bool_decide (194 ≤ n ≤ 223)%N then
      match r with b :: _ => if cont b then (2, true) else (1, false) | [] => (1, false) end
    else if bool_decide (224 ≤ n ≤ 239)%N then
      match r with
      | b :: r =>
        if cont b && bool_decide ((n = 224 → 160 ≤ byte_of b) ∧ (n = 237 → byte_of b ≤ 159))%N then
          match r with c :: _ => if cont c then (3, true) else (2, false) | [] => (2, false) end
        else (1, false)
      | [] => (1, false)
      end
    else if bool_decide (240 ≤ n ≤ 244)%N then
      match r with
      | b :: r =>
        if cont b && bool_decide ((n = 240 → 144 ≤ byte_of b) ∧ (n = 244 → byte_of b ≤ 143))%N then
          match r with
          | c :: r =>
            if cont c then
              match r with d :: _ => if cont d then (4, true) else (3, false) | [] => (3, false) end
            else (2, false)
          | [] => (2, false)
          end
        else (1, false)
      | [] => (1, false)
      end
    else (1, false)
  end.

(** U+FFFD. *)
Definition replacement_character : list ascii := ["239"; "191"; "189"]%char.

(** [String::from_utf8_lossy]; every step consumes at least a byte. *)
Fixpoint lossy_go (n : nat) (l : list ascii) : list ascii :=
  match n with
  | O => []
  | S n =>
    match l with
    | [] => []
    | _ => let '(k, ok) := utf8_step l in
           (if ok : bool then take k l else replacement_character) ++ lossy_go n (drop k l)
    end
  end.
Definition from_utf8_lossy (l : list ascii) : list ascii := lossy_go (length l) l.

(** [lines().next()]: up to the first line feed, a carriage return before it
    left out. *)
Fixpoint first_line (l : list ascii) : list ascii :=
  match l with
  | [] => []
  | c :: r =>
    if decide (c = "010"%char) then []
    else if decide (c = "013"%char ∧ head r = Some "010"%char) then []
    else c :: first_line r
  end.

(** [split_whitespace]. *)
Definition split_whitespace (s : string) : list string :=
  List.filter (λ w, bool_decide (w ≠ EmptyString)) (str_split ws_len s).

(** ** Lemmas *)

Lemma str_app_nil_r s : s +:+ EmptyString = s.
Proof. induction s; simpl; congruence. Qed.

Lemma str_app_assoc a b c : (a +:+ b) +:+ c = a +:+ (b +:+ c).
Proof. induction a; simpl; congruence. Qed.

Lemma strip_prefix_Some p s r : strip_prefix p s = Some r ↔ s = p +:+ r.
Proof.
  revert s. induction p as [|a p IH]; intros [|b s]; simpl; split; intros; simplify_eq; try done.
  - case_decide; simplify_eq. f_equal. by apply IH.
  - rewrite decide_True by done. by apply IH.
Qed.

Lemma rsplit_once_None c s : rsplit_once c s = None ↔ str_all (λ d, bool_decide (d ≠ c)) s = true.
Proof.
  induction s as [|d s IH]; simpl; [done|].
  destruct (rsplit_once c s) as [[a b]|] eqn:E.
  - split; [done|]. intros [_ H]%andb_true_iff. by apply IH in H.
  - case_decide; rewrite andb_true_iff, bool_decide_eq_true; naive_solver.
Qed.

Lemma rsplit_once_app c a b :
  rsplit_once c b = None → rsplit_once c (a +:+ String c b) = Some (a, b).
Proof.
  intros Hb. induction a as [|d a IH]; simpl.
  - rewrite Hb. by rewrite decide_True.
  - by rewrite IH.
Qed.

Lemma parse_digits_app acc s t :
  parse_digits acc (s +:+ t) = acc' ← parse_digits acc s; parse_digits acc' t.
Proof.
  revert acc. induction s as [|c s IH]; intros acc; simpl; [done|].
  destruct (digit_val c); simpl; [apply IH|done].
Qed.

Lemma digit_val_pretty n : (n < 10)%N → digit_val (pretty_N_char n) = Some (Z.of_N n).
Proof.
  intros Hn. unfold pretty_N_char.
  destruct n as [|p]; [done|].
  do 4 (destruct p as [p|p|]; try done; try lia).
Qed.

Lemma parse_digits_pretty_go x s :
  ∀ acc, (acc = 0)%Z →
  parse_digits acc (pretty_N_go x s) = parse_digits (Z.of_N x) s.
Proof.
  revert s. induction (N.lt_wf_0 x) as [x _ IH]; intros s acc ->.
  destruct (decide (x = 0)%N) as [->|Hx]; [done|].
  rewrite pretty_N_go_step by lia.
  rewrite (IH (x `div` 10)%N) by (done || (apply N.div_lt; lia)).
  simpl. rewrite digit_val_pretty by (apply N.mod_lt; lia).
  f_equal. rewrite (N.div_mod' x 10) at 3. lia.
Qed.

Lemma parse_digits_pretty (x : N) : parse_digits 0 (pretty x) = Some (Z.of_N x).
Proof.
  unfold pretty, pretty_N. case_decide; subst; [done|].
  by rewrite parse_digits_pretty_go.
Qed.

Lemma pretty_N_nonempty (x : N) : pretty x ≠ EmptyString.
Proof.
  intros H. pose proof (parse_digits_pretty x) as Hp. rewrite H in Hp. simpl in Hp.
  assert (x = 0%N) as -> by (simplify_eq; lia). done.
Qed.

Lemma show_Z_nonneg z : (0 ≤ z)%Z → show_Z z = pretty (Z.to_N z).
Proof. intros. unfold show_Z. by destruct z as [|p|p]. Qed.

Lemma parse_digits_all acc s z :
  parse_digits acc s = Some z → str_all is_ascii_digit s = true.
Proof.
  revert acc. induction s as [|c s IH]; intros acc; simpl; [done|].
  unfold is_ascii_digit. destruct (digit_val c); [|done]. intros ?%IH. by simpl.
Qed.

Lemma str_all_parse_digits acc s :
  str_all is_ascii_digit s = true → ∃ z, parse_digits acc s = Some z.
Proof.
  revert acc. induction s as [|c s IH]; intros acc; simpl; [eauto|].
  unfold is_ascii_digit at 1. destruct (digit_val c); [|done]. apply IH.
Qed.

(** Decimal [Display] and [FromStr] are inverse on [u64]. *)
Lemma parse_u64_show z : (0 ≤ z < 2 ^ 64)%Z → parse_u64 (show_Z z) = Some z.
Proof.
  intros Hz. rewrite show_Z_nonneg by lia.
  pose proof (parse_digits_pretty (Z.to_N z)) as Hp. rewrite Z2N.id in Hp by lia.
  assert (parse_nat (pretty (Z.to_N z)) = Some z) as Hn.
  { pose proof (pretty_N_nonempty (Z.to_N z)). unfold parse_nat.
    by destruct (pretty (Z.to_N z)). }
  unfold parse_u64.
  destruct (strip_prefix "+" (pretty (Z.to_N z))) as [r|] eqn:Hs.
  - apply strip_prefix_Some in Hs. rewrite Hs in Hp. done.
  - rewrite Hn. rewrite bool_decide_true by lia. done.
Qed.

(** A decimal string has no separator, so [rsplit_once] does not cut it. *)
Lemma show_digits_all z : (0 ≤ z)%Z → str_all is_ascii_digit (show_Z z) = true.
Proof.
  intros. rewrite show_Z_nonneg by lia. eapply parse_digits_all, parse_digits_pretty.
Qed.

Lemma digits_no_space s :
  str_all is_ascii_digit s = true → rsplit_once " " s = None.
Proof.
  intros H. apply rsplit_once_None. revert H.
  induction s as [|c s IH]; simpl; [done|].
  rewrite !andb_true_iff. intros [Hc Hs]. split; [|by apply IH].
  apply bool_decide_eq_true. intros ->. done.
Qed.

Lemma str_replace_no c b s :
  str_all (λ d, bool_decide (d ≠ c)) s = true → str_replace c b s = s.
Proof.
  induction s as [|d s IH]; simpl; [done|].
  rewrite andb_true_iff, bool_decide_eq_true. intros [? ?].
  rewrite decide_False by done. f_equal. auto.
Qed.

Lemma utf8_valid_ascii l :
  Forall (λ c, byte_of c < 128)%N l → utf8_valid l = true.
Proof.
  induction 1 as [|c l Hc _ IH]; [done|].
  simpl. by rewrite bool_decide_true.
Qed.

(** A hexadecimal digit, lower case. *)
Definition hex_digit (n : N) : ascii := ascii_of_N (if bool_decide (n < 10)%N then 48 + n else 87 + n).

(** [\u{..}] of a control character. *)
Definition unicode_escape (n : N) : string :=
  "\u{" +:+ (if bool_decide (n < 16)%N then String (hex_digit n) EmptyString
             else String (hex_digit (n / 16)) (String (hex_digit (n mod 16)) EmptyString)) +:+ "}".

(** [{:?}] of a [str]: quoted, with the ASCII escapes of [escape_debug];
    characters outside ASCII stand for themselves. *)
Fixpoint debug_body (s : string) : string :=
  match s with
  | EmptyString => EmptyString
  | String c r =>
    let rest := debug_body r in
    match byte_of c with
    | 0 => String "\" (String "0" rest)
    | 9 => String "\" (String "t" rest)
    | 10 => String "\" (String "n" rest)
    | 13 => String "\" (String "r" rest)
    | 34 => String "\" (String "034" rest)
    | 92 => String "\" (String "\" rest)
    | n => if bool_decide (n < 32) || bool_decide (n = 127) then unicode_escape n +:+ rest
           else String c rest
    end%N
  end.
Definition debug_str (s : string) : string :=
  String "034" (debug_body s +:+ String "034" EmptyString).

(** *** Integers as text and back *)

(** Characters of a decimal integer. *)
Definition is_int_char (c : ascii) : bool := is_ascii_digit c || bool_decide (c = "-"%char).

Lemma ws_len_int_char c r : is_int_char c = true → ws_len (String c r) = 0.
Proof.
  intros H. assert (33 ≤ byte_of c < 128)%N as Hc.
  { unfold is_int_char, is_ascii_digit, digit_val, byte_of in *.
    apply orb_true_iff in H as [H|H]; [|apply bool_decide_eq_true in H; subst; done].
    case_bool_decide; [lia|done]. }
  unfold ws_len. rewrite bool_decide_false by lia.
  destruct r as [|b [|d r]]; [done|by rewrite bool_decide_false by lia|].
  rewrite bool_decide_false by lia. by rewrite bool_decide_false by lia.
Qed.

Lemma trim_int s : str_all is_int_char s = true → trim s = s.
Proof.
  intros Hs. unfold trim.
  assert (∀ t, str_all is_int_char t = true → trim_start t = t) as Hst.
  { intros [|c r]; [done|]. simpl. intros [Hc _]%andb_true_iff.
    unfold trim_start. unfold trim_start_go; fold trim_start_go. by rewrite ws_len_int_char. }
  rewrite Hst by done. induction s as [|c s IH]; [done|].
  change (trim_end (String c s)) with
    (if decide (trim_start (String c s) = EmptyString) then EmptyString else String c (trim_end s)).
  rewrite Hst by done. simpl in Hs. apply andb_true_iff in Hs as [_ Hs].
  case_decide; [done|]. by rewrite IH.
Qed.

Lemma int_char_ascii c : is_int_char c = true → (byte_of c < 128)%N.
Proof.
  unfold is_int_char, is_ascii_digit, digit_val, byte_of. intros [H|H]%orb_true_iff.
  - case_bool_decide; [lia|done].
  - apply bool_decide_eq_true in H. by subst.
Qed.

Lemma from_utf8_int s :
  str_all is_int_char s = true → from_utf8 (String.list_ascii_of_string s) = Some s.
Proof.
  intros Hs. unfold from_utf8. rewrite utf8_valid_ascii.
  - f_equal. apply String.string_of_list_ascii_of_string.
  - induction s as [|c s IH]; simpl in *; [constructor|].
    apply andb_true_iff in Hs as [Hc Hs]. constructor; [by apply int_char_ascii|auto].
Qed.

Lemma show_int_chars z : str_all is_int_char (show_Z z) = true.
Proof.
  assert (∀ s, str_all is_ascii_digit s = true → str_all is_int_char s = true) as Hd.
  { intros s. induction s as [|c s IH]; [done|]. simpl. unfold is_int_char.
    intros [-> ?]%andb_true_iff. auto. }
  destruct (decide (0 ≤ z)%Z) as [Hz|Hz]; [by apply Hd, show_digits_all|].
  destruct z as [|p|p]; [lia|lia|]. unfold show_Z. simpl.
  apply Hd. eapply parse_digits_all, parse_digits_pretty.
Qed.

Lemma parse_nat_pretty (x : N) : parse_nat (pretty x) = Some (Z.of_N x).
Proof.
  pose proof (pretty_N_nonempty x). pose proof (parse_digits_pretty x). unfold parse_nat.
  by destruct (pretty x).
Qed.

Lemma strip_sign_pretty c (x : N) :
  digit_val c = None → strip_prefix (String c EmptyString) (pretty x) = None.
Proof.
  intros Hc. destruct (strip_prefix _ (pretty x)) as [r|] eqn:Hs; [|done].
  apply strip_prefix_Some in Hs. pose proof (parse_digits_pretty x) as Hp.
  rewrite Hs in Hp. simpl in Hp. by rewrite Hc in Hp.
Qed.

(** Decimal [Display] and [FromStr] are inverse on [i128]. *)
Lemma parse_i128_show z : (- 2 ^ 127 ≤ z < 2 ^ 127)%Z → parse_i128 (show_Z z) = Some z.
Proof.
  intros Hz. unfold parse_i128. destruct (decide (0 ≤ z)%Z) as [H0|H0].
  - rewrite show_Z_nonneg by done. rewrite !strip_sign_pretty by done.
    rewrite parse_nat_pretty, Z2N.id by done. by rewrite bool_decide_true.
  - destruct z as [|p|p]; [lia|lia|].
    assert (strip_prefix "-" (show_Z (Z.neg p)) = Some (pretty (N.pos p))) as ->
      by (by apply strip_prefix_Some).
    rewrite parse_nat_pretty. by rewrite bool_decide_true.
Qed.

Lemma pretty_go_length (k : nat) (x : N) s :
  (x < 2 ^ N.of_nat k)%N → String.length (pretty_N_go x s) ≤ k + String.length s.
Proof.
  revert x s. induction k as [|k IH]; intros x s Hx.
  - assert (x = 0%N) as -> by (simpl in Hx; lia). done.
  - destruct (decide (x = 0)%N) as [->|]; [rewrite pretty_N_go_0; lia|].
    rewrite pretty_N_go_step by lia.
    etrans; [apply IH|simpl; lia].
    rewrite Nat2N.inj_succ, N.pow_succ_r' in Hx.
    assert (x `div` 10 ≤ x `div` 2)%N by (apply N.div_le_compat_l; lia).
    assert (x `div` 2 < 2 ^ N.of_nat k)%N by (apply N.Div0.div_lt_upper_bound; lia). lia.
Qed.

(** An [i128] prints in at most 129 characters. *)
Lemma show_Z_length z : (- 2 ^ 127 ≤ z < 2 ^ 127)%Z → String.length (show_Z z) ≤ 129.
Proof.
  intros Hz.
  assert (∀ x : N, (x ≤ 2 ^ 127)%N → String.length (pretty x) ≤ 128) as Hp.
  { intros x Hx. unfold pretty, pretty_N. case_decide; [simpl; lia|].
    etrans; [apply (pretty_go_length 128)|simpl; lia]. simpl. lia. }
  destruct (decide (0 ≤ z)%Z).
  - rewrite show_Z_nonneg by done. etrans; [apply Hp|lia].
    apply N2Z.inj_le. rewrite Z2N.id by done. change (Z.of_N (2 ^ 127)) with (2 ^ 127)%Z. lia.
  - destruct z as [|p|p]; [lia|lia|]. unfold show_Z. simpl. apply le_n_S, Hp.
    apply N2Z.inj_le. change (Z.of_N (2 ^ 127)) with (2 ^ 127)%Z. lia.
Qed.

(** *** Lossy decoding *)

Lemma utf8_step_bounds l : l ≠ [] → 1 ≤ (utf8_step l).1 ≤ length l.
Proof.
  destruct l as [|a [|b [|c [|d l]]]]; [done|..]; intros _; unfold utf8_step;
    repeat case_match; simpl; lia.
Qed.

Lemma ascii_not_cont a : (byte_of a < 128)%N → cont a = false.
Proof. intros Ha. apply bool_decide_eq_false. lia. Qed.

(** A character boundary before an ASCII byte: the step sees the end of input
    and an ASCII byte alike. *)
Lemma utf8_step_app l a r : l ≠ [] → (byte_of a < 128)%N → utf8_step (l ++ a :: r) = utf8_step l.
Proof.
  intros Hl Ha. apply ascii_not_cont in Ha.
  destruct l as [|x [|y [|z [|w l]]]]; [done|..]; simpl; rewrite ?Ha; simpl;
    repeat case_match; done.
Qed.

Lemma lossy_go_fuel n m l : length l ≤ n → length l ≤ m → lossy_go n l = lossy_go m l.
Proof.
  revert m l. induction n as [|n IH]; intros m l Hn Hm.
  { by destruct l; [destruct m|simpl in Hn; lia]. }
  destruct m as [|m]; [by destruct l; [|simpl in Hm; lia]|]. cbn [lossy_go].
  destruct l as [|a l]; [done|]. pose proof (utf8_step_bounds (a :: l)) as Hb.
  destruct (utf8_step (a :: l)) as [k ok]. simpl in Hb. f_equal. simpl in Hn, Hm.
  apply IH; rewrite length_drop; simpl; specialize (Hb ltac:(done)); lia.
Qed.

Lemma lossy_cons l :
  l ≠ [] → from_utf8_lossy l =
    (if (utf8_step l).2 then take (utf8_step l).1 l else replacement_character) ++
    from_utf8_lossy (drop (utf8_step l).1 l).
Proof.
  intros Hl. pose proof (utf8_step_bounds l Hl) as Hb. unfold from_utf8_lossy at 1.
  destruct l as [|a l]; [done|]. cbn [lossy_go length]. destruct (utf8_step (a :: l)) as [k ok].
  simpl in *. f_equal. apply lossy_go_fuel; rewrite ?length_drop; simpl; lia.
Qed.

Lemma lossy_app l a r :
  (byte_of a < 128)%N →
  from_utf8_lossy (l ++ a :: r) = from_utf8_lossy l ++ a :: from_utf8_lossy r.
Proof.
  intros Ha. remember (length l) as n eqn:Hn. revert l Hn.
  induction n as [n IH] using lt_wf_ind. intros l ->. destruct l as [|b l].
  - simpl. rewrite lossy_cons by done. unfold utf8_step. by rewrite bool_decide_true.
  - rewrite lossy_cons by done. rewrite (lossy_cons (b :: l)) by done.
    rewrite utf8_step_app by done. pose proof (utf8_step_bounds (b :: l) ltac:(done)) as Hb.
    rewrite take_app_le, drop_app_le by lia. rewrite <-app_assoc. f_equal.
    eapply IH; [|reflexivity]. rewrite length_drop. simpl in *. lia.
Qed.

(** Decoding brings in no ASCII byte. *)
Lemma lossy_elem a l : (byte_of a < 128)%N → a ∈ from_utf8_lossy l → a ∈ l.
Proof.
  intros Ha. remember (length l) as n eqn:Hn. revert l Hn.
  induction n as [n IH] using lt_wf_ind. intros l ->. destruct l as [|b l]; [done|].
  rewrite lossy_cons by done. pose proof (utf8_step_bounds (b :: l) ltac:(done)) as Hb.
  intros [Hin|Hin]%elem_of_app.
  - destruct ((utf8_step (b :: l)).2); [apply elem_of_take in Hin as (? & ? & _); by eapply list_elem_of_lookup_2|].
    exfalso. revert Hin. unfold replacement_character. rewrite !elem_of_cons, elem_of_nil.
    intros [->|[->|[->|[]]]]; vm_compute in Ha; discriminate Ha.
  - eapply IH in Hin; [| |reflexivity]; [|rewrite length_drop; simpl in *; lia].
    rewrite <-(take_drop (utf8_step (b :: l)).1 (b :: l)). apply elem_of_app. by right.
Qed.
