(* ===== verification/Messages.v ===== *)
(** * Wire-protocol vocabulary

    The typed messages the proxy pumps.  The constructors are those the
    sources enumerate (session.rs, [msg_kind_frontend] and
    [msg_kind_backend]); each carries the fields the sources read, and what
    they never look into is one opaque byte string. *)

From S2P Require Import Prelude RustStr.

(** Raw bytes of a message field. *)
Abbreviation bytes := (list ascii).

(** [TransactionStatus]: the status byte of [ReadyForQuery]. *)
Inductive TransactionStatus := Idle | Transaction | Error.

#[global] Instance TransactionStatus_eq_dec : EqDecision TransactionStatus.
Proof. solve_decision. Defined.

(** [pgwire::error::ErrorInfo], by the fields the sources give and read. *)
Record ErrorInfo := MkErrorInfo {
  severity : string;
  code : string;
  message : string
}.

#[global] Instance ErrorInfo_eq_dec : EqDecision ErrorInfo.
Proof. solve_decision. Defined.

(** The startup packet. *)
Record Startup := MkStartup {
  protocol_number_major : Z;
  protocol_number_minor : Z;
  parameters : gmap string string
}.

Inductive SslNegotiationMetaMessage := PostgresSsl (body : bytes) | PostgresGss (body : bytes) | SslNone.

(** Client to server. *)
Inductive PgWireFrontendMessage :=
| FStartup (s : Startup)
| FCancelRequest (pid : Z) (secret_key : bytes)
| FPassword (body : bytes)
| FSslNegotiation (m : SslNegotiationMetaMessage)
| FQuery (query : string)
| FParse (name : option string) (query : string) (type_oids : list Z)
| FBind (statement_name : option string) (body : bytes)
| FDescribe (body : bytes)
| FExecute (body : bytes)
| FClose (name : option string) (target : ascii)
| FFlush
| FSync
| FPortalSuspended
| FTerminate
| FCopyData (body : bytes)
| FCopyDone
| FCopyFail (reason : string).

(** A column of [RowDescription]. *)
Record FieldDescription := MkFieldDescription {
  fd_name : string;
  table_id : Z;
  column_id : Z;
  type_id : Z;
  type_size : Z;
  type_modifier : Z;
  format_code : Z
}.

(** [DataRow]: the undecoded field bytes and the field count. *)
Record DataRow := MkDataRow {
  data : bytes;
  field_count : nat
}.

(** Server to client. *)
Inductive PgWireBackendMessage :=
| BSslResponse (body : bytes)
| BGssEncResponse (body : bytes)
| BAuthentication (body : bytes)
| BParameterStatus (name value : string)
| BBackendKeyData (pid : Z) (secret_key : bytes)
| BNegotiateProtocolVersion (newest_minor : Z) (unsupported : list string)
| BParseComplete
| BBindComplete
| BCloseComplete
| BPortalSuspended
| BCommandComplete (tag : string)
| BEmptyQueryResponse
| BReadyForQuery (status : TransactionStatus)
| BErrorResponse (fields : list (ascii * string))
| BNoticeResponse (body : bytes)
| BNotificationResponse (body : bytes)
| BParameterDescription (body : bytes)
| BRowDescription (fields : list FieldDescription)
| BDataRow (row : DataRow)
| BNoData
| BCopyData (body : bytes)
| BCopyFail (body : bytes)
| BCopyDone
| BCopyInResponse (body : bytes)
| BCopyOutResponse (body : bytes)
| BCopyBothResponse (body : bytes).

#[global] Instance DataRow_eq_dec : EqDecision DataRow.
Proof. solve_decision. Defined.
#[global] Instance FieldDescription_eq_dec : EqDecision FieldDescription.
Proof. solve_decision. Defined.
#[global] Instance SslNegotiation_eq_dec : EqDecision SslNegotiationMetaMessage.
Proof. solve_decision. Defined.
#[global] Instance PgWireBackendMessage_eq_dec : EqDecision PgWireBackendMessage.
Proof. solve_decision. Defined.

(** *** Classifiers of session.rs *)

(** Frontend messages after which the server may answer without more input. *)
Definition triggers_response (msg : PgWireFrontendMessage) : bool :=
  match msg with
  | FQuery _ | FSync | FFlush | FTerminate
  | FCopyData _ | FCopyDone | FCopyFail _ => true
  | _ => false
  end.

Definition msg_kind_frontend (msg : PgWireFrontendMessage) : string :=
  match msg with
  | FStartup _ => "Startup"
  | FCancelRequest _ _ => "CancelRequest"
  | FPassword _ => "Password"
  | FSslNegotiation (PostgresSsl _) => "SslRequest"
  | FSslNegotiation (PostgresGss _) => "GssRequest"
  | FSslNegotiation SslNone => "SslNegotiation"
  | FQuery _ => "Query"
  | FParse _ _ _ => "Parse"
  | FBind _ _ => "Bind"
  | FDescribe _ => "Describe"
  | FExecute _ => "Execute"
  | FClose _ _ => "Close"
  | FFlush => "Flush"
  | FSync => "Sync"
  | FPortalSuspended => "PortalSuspended"
  | FTerminate => "Terminate"
  | FCopyData _ => "CopyData"
  | FCopyDone => "CopyDone"
  | FCopyFail _ => "CopyFail"
  end.

Definition msg_kind_backend (msg : PgWireBackendMessage) : string :=
  match msg with
  | BSslResponse _ => "SslResponse"
  | BGssEncResponse _ => "GssEncResponse"
  | BAuthentication _ => "Authentication"
  | BParameterStatus _ _ => "ParameterStatus"
  | BBackendKeyData _ _ => "BackendKeyData"
  | BNegotiateProtocolVersion _ _ => "NegotiateProtocolVersion"
  | BParseComplete => "ParseComplete"
  | BBindComplete => "BindComplete"
  | BCloseComplete => "CloseComplete"
  | BPortalSuspended => "PortalSuspended"
  | BCommandComplete _ => "CommandComplete"
  | BEmptyQueryResponse => "EmptyQueryResponse"
  | BReadyForQuery _ => "ReadyForQuery"
  | BErrorResponse _ => "ErrorResponse"
  | BNoticeResponse _ => "NoticeResponse"
  | BNotificationResponse _ => "NotificationResponse"
  | BParameterDescription _ => "ParameterDescription"
  | BRowDescription _ => "RowDescription"
  | BDataRow _ => "DataRow"
  | BNoData => "NoData"
  | BCopyData _ => "CopyData"
  | BCopyFail _ => "CopyFail"
  | BCopyDone => "CopyDone"
  | BCopyInResponse _ => "CopyInResponse"
  | BCopyOutResponse _ => "CopyOutResponse"
  | BCopyBothResponse _ => "CopyBothResponse"
  end.
