(* ===== verification/Row.v ===== *)
(** * Row values

    [DataRowMut] of intercept.rs: the decoder of a raw [DataRow] into value
    slots, the mutations a hook may make and the encoder that writes them
    back.  The theorems: decoding is total and its slots lie inside the
    message; a row that was not modified is returned byte for byte; a modified
    row is framed again so that decoding it gives exactly the edited values. *)

From S2P Require Import Prelude RustStr Messages.

(** *** Big-endian 32-bit integers ([Buf::get_i32], [BufMut::put_i32]) *)

Definition i32_of_bytes (a b c d : ascii) : Z :=
  wrap_i 32 (Z.of_N (byte_of a) * 2 ^ 24 + Z.of_N (byte_of b) * 2 ^ 16 +
             Z.of_N (byte_of c) * 2 ^ 8 + Z.of_N (byte_of d)).

Definition byte_at (z : Z) (sh : Z) : ascii := ascii_of_N (Z.to_N ((z ≫ sh) `mod` 256)).

(** [put_i32] of a value cast with [as i32]: the low 32 bits. *)
Definition put_i32 (z : Z) : bytes := [byte_at z 24; byte_at z 16; byte_at z 8; byte_at z 0].
#[global] Arguments put_i32 : simpl never.

(** [get_i32] on a cursor with at least four bytes left. *)
Definition get_i32 (l : bytes) : option (Z * bytes) :=
  match l with
  | a :: b :: c :: d :: r => Some (i32_of_bytes a b c d, r)
  | _ => None
  end.

(** *** Rows *)

(** [RowError]; [usize::MAX] marks a row that does not match its count. *)
Inductive RowError :=
| OutOfRange (index len : Z)
| BinaryColumn (index : Z)
| Null (index : Z).

Definition usize_MAX : Z := 2 ^ 64 - 1.

(** A value slot: a range of the message bytes, or a rewritten value. *)
Inductive ValueSlot :=
| Range (offset len : nat)
| Owned (b : bytes).

Record DataRowMut := MkDataRowMut {
  row : DataRow;
  values : list (option ValueSlot);
  modified : bool
}.
#[global] Instance eta_DataRowMut : Eta DataRowMut :=
  λ r, MkDataRowMut (row r) (values r) (modified r).

(** The loop of [DataRowMut::parse]: [n] fields left, [cursor] the unread
    bytes, [offset] their position. *)
Fixpoint parse_fields (n : nat) (fc : nat) (cursor : bytes) (offset : nat) :
    result RowError (list (option ValueSlot)) :=
  match n with
  | O => Ok []
  | S n =>
    match get_i32 cursor with
    | None => Err (OutOfRange usize_MAX (Z.of_nat fc))
    | Some (len, cursor) =>
      let offset := offset + 4 in
      if bool_decide (len < 0)%Z then
        match parse_fields n fc cursor offset with
        | Ok vs => Ok (None :: vs)
        | Err e => Err e
        end
      else
        let len := Z.to_nat len in
        if bool_decide (length cursor < len) then Err (OutOfRange usize_MAX (Z.of_nat fc))
        else
          match parse_fields n fc (drop len cursor) (offset + len) with
          | Ok vs => Ok (Some (Range offset len) :: vs)
          | Err e => Err e
          end
    end
  end.

Definition parse (r : DataRow) : result RowError DataRowMut :=
  match parse_fields (field_count r) (field_count r) (data r) 0 with
  | Ok vs => Ok (MkDataRowMut r vs false)
  | Err e => Err e
  end.

Definition row_len (m : DataRowMut) : nat := length (values m).
Definition row_is_empty (m : DataRowMut) : bool := bool_decide (values m = []).

Definition out_of_range (i : nat) (m : DataRowMut) : RowError :=
  OutOfRange (Z.of_nat i) (Z.of_nat (length (values m))).

Definition is_null (i : nat) (m : DataRowMut) : result RowError bool :=
  match values m !! i with
  | Some v => Ok (bool_decide (v = None))
  | None => Err (out_of_range i m)
  end.

(** The bytes a slot stands for. *)
Definition slot_bytes (d : bytes) (s : ValueSlot) : bytes :=
  match s with
  | Range offset len => take len (drop offset d)
  | Owned b => b
  end.

Definition text (i : nat) (m : DataRowMut) : result RowError (option string) :=
  match values m !! i with
  | None => Err (out_of_range i m)
  | Some None => Ok None
  | Some (Some s) =>
    match from_utf8 (slot_bytes (data (row m)) s) with
    | Some t => Ok (Some t)
    | None => Err (BinaryColumn (Z.of_nat i))
    end
  end.

Definition set_text (i : nat) (v : string) (m : DataRowMut) : result RowError DataRowMut :=
  if bool_decide (length (values m) ≤ i) then Err (out_of_range i m)
  else Ok (m <| values ::= <[i := Some (Owned (String.list_ascii_of_string v))]> |>
             <| modified := true |>).

Definition set_null (i : nat) (m : DataRowMut) : result RowError DataRowMut :=
  if bool_decide (length (values m) ≤ i) then Err (out_of_range i m)
  else Ok (m <| values ::= <[i := None]> |> <| modified := true |>).

(** One field of the encoder in [apply]. *)
Definition encode_slot (d : bytes) (v : option ValueSlot) : bytes :=
  match v with
  | Some s => let b := slot_bytes d s in
              put_i32 (Z.of_nat (match s with Range _ len => len | Owned b => length b end)) ++ b
  | None => put_i32 (-1)
  end.

Definition apply (m : DataRowMut) : DataRow :=
  if modified m
  then MkDataRow (concat (encode_slot (data (row m)) <$> values m)) (field_count (row m))
  else row m.

(** ** Framing *)

Lemma byte_of_byte_at z sh : Z.of_N (byte_of (byte_at z sh)) = ((z ≫ sh) `mod` 256)%Z.
Proof.
  unfold byte_of, byte_at.
  pose proof (Z.mod_pos_bound (z ≫ sh) 256 ltac:(lia)).
  rewrite N_ascii_embedding by lia. lia.
Qed.

Lemma get_put_i32 z r : get_i32 (put_i32 z ++ r) = Some (wrap_i 32 z, r).
Proof.
  unfold put_i32. cbn [app get_i32]. do 2 f_equal. unfold i32_of_bytes.
  rewrite !byte_of_byte_at, !Z.shiftr_div_pow2 by lia.
  unfold wrap_i. f_equal.
  rewrite <-(Zplus_mod_idemp_l _ (2 ^ (32 - 1))), <-(Zplus_mod_idemp_l z). do 2 f_equal.
  change (2 ^ 0)%Z with 1%Z. rewrite Z.div_1_r.
  change (2 ^ 32)%Z with (2 ^ 8 * 2 ^ 24)%Z. change 256%Z with (2 ^ 8)%Z.
  rewrite Z.mod_small.
  2:{ pose proof (Z.mod_pos_bound (z `div` 2 ^ 24) (2 ^ 8) ltac:(lia)).
      pose proof (Z.mod_pos_bound (z `div` 2 ^ 16) (2 ^ 8) ltac:(lia)).
      pose proof (Z.mod_pos_bound (z `div` 2 ^ 8) (2 ^ 8) ltac:(lia)).
      pose proof (Z.mod_pos_bound z (2 ^ 8) ltac:(lia)). lia. }
  change (2 ^ 16)%Z with (2 ^ 8 * 2 ^ 8)%Z. change (2 ^ 24)%Z with (2 ^ 8 * (2 ^ 8 * 2 ^ 8))%Z.
  rewrite <-!Z.div_div by lia.
  rewrite (Z.rem_mul_r z (2 ^ 8)) by lia.
  rewrite (Z.rem_mul_r (z `div` 2 ^ 8) (2 ^ 8)) by lia.
  rewrite (Z.rem_mul_r ((z `div` 2 ^ 8) `div` 2 ^ 8) (2 ^ 8)) by lia.
  lia.
Qed.

Lemma get_i32_length d len r : get_i32 d = Some (len, r) → r = drop 4 d ∧ 4 ≤ length d.
Proof.
  unfold get_i32. repeat case_match; intros; simplify_eq. simpl. split; [done|lia].
Qed.

(** What the wire format says of [n] fields: a length, then that many bytes;
    a negative length is NULL. *)
Inductive framed : nat → bytes → list (option bytes) → Prop :=
| framed_nil d : framed 0 d []
| framed_null n d len r vs :
    get_i32 d = Some (len, r) → (len < 0)%Z → framed n r vs →
    framed (S n) d (None :: vs)
| framed_val n d len r vs :
    get_i32 d = Some (len, r) → (0 ≤ len)%Z → Z.to_nat len ≤ length r →
    framed n (drop (Z.to_nat len) r) vs →
    framed (S n) d (Some (take (Z.to_nat len) r) :: vs).
Create HintDb row.
#[export] Hint Constructors framed : row.

(** A slot is well formed over the bytes [d]: a range lies inside them, and
    its length, like that of a rewritten value, fits the 32-bit length. *)
Definition slot_ok (d : bytes) (v : option ValueSlot) : Prop :=
  match v with
  | None => True
  | Some (Range off len) => off + len ≤ length d ∧ (Z.of_nat len < 2 ^ 31)%Z
  | Some (Owned b) => (Z.of_nat (length b) < 2 ^ 31)%Z
  end.

(** The values a row view stands for. *)
Definition slot_values (d : bytes) (vs : list (option ValueSlot)) : list (option bytes) :=
  map (option_map (slot_bytes d)) vs.
Definition row_values (m : DataRowMut) : list (option bytes) :=
  slot_values (data (row m)) (values m).

Lemma i32_of_bytes_bound a b c d : (i32_of_bytes a b c d < 2 ^ 31)%Z.
Proof.
  unfold i32_of_bytes, wrap_i.
  pose proof (Z.mod_pos_bound
    (Z.of_N (byte_of a) * 2 ^ 24 + Z.of_N (byte_of b) * 2 ^ 16 +
     Z.of_N (byte_of c) * 2 ^ 8 + Z.of_N (byte_of d) + 2 ^ (32 - 1)) (2 ^ 32) ltac:(lia)).
  lia.
Qed.

Lemma get_i32_bound d len r : get_i32 d = Some (len, r) → (len < 2 ^ 31)%Z.
Proof.
  unfold get_i32. repeat case_match; intros; simplify_eq. apply i32_of_bytes_bound.
Qed.

Lemma parse_fields_sound n fc D off slots :
  parse_fields n fc (drop off D) off = Ok slots →
  framed n (drop off D) (slot_values D slots) ∧ Forall (slot_ok D) slots ∧ length slots = n.
Proof.
  revert off slots. induction n as [|n IH]; intros off slots; simpl.
  { intros [= <-]. repeat constructor. }
  destruct (get_i32 (drop off D)) as [[len r]|] eqn:Hg; [|done].
  pose proof (get_i32_length _ _ _ Hg) as [-> Hlen]. pose proof (get_i32_bound _ _ _ Hg).
  rewrite !drop_drop. rewrite length_drop in Hlen.
  case_bool_decide.
  - destruct (parse_fields _ _ _ _) as [vs|] eqn:Hp; [|done]. intros [= <-].
    apply IH in Hp as (? & ? & ?). rewrite <-drop_drop in *.
    split; [|split; [by constructor|simpl; lia]].
    by eapply framed_null.
  - case_bool_decide as Hlt; [done|]. rewrite length_drop in Hlt.
    rewrite <-Nat.add_assoc.
    destruct (parse_fields _ _ _ _) as [vs|] eqn:Hp; [|done]. intros [= <-].
    rewrite Nat.add_assoc in Hp. apply IH in Hp as (Hf & ? & ?).
    split; [|split; [constructor; [simpl; lia|done]|simpl; lia]].
    simpl. rewrite <-drop_drop. eapply framed_val; [done|lia|rewrite !length_drop; lia|].
    by rewrite !drop_drop, Nat.add_assoc.
Qed.

Lemma parse_fields_complete n fc D off vs :
  framed n (drop off D) vs →
  ∃ slots, parse_fields n fc (drop off D) off = Ok slots ∧ slot_values D slots = vs.
Proof.
  remember (drop off D) as d eqn:Hd. intros Hf. revert off Hd.
  induction Hf as [d|n d len r vs Hg Hneg Hf IH|n d len r vs Hg Hpos Hlen Hf IH];
    intros off ->; simpl; [by eexists| |];
    pose proof (get_i32_length _ _ _ Hg) as [-> _]; rewrite Hg, ?drop_drop in *.
  - rewrite bool_decide_true by lia.
    destruct (IH _ eq_refl) as (slots & -> & <-). by eexists.
  - rewrite bool_decide_false by lia. rewrite bool_decide_false by lia.
    rewrite ?drop_drop, ?Nat.add_assoc in *.
    destruct (IH _ eq_refl) as (slots & -> & <-). by eexists.
Qed.

Lemma framed_length n d vs : framed n d vs → length vs = n.
Proof. induction 1; simpl; congruence. Qed.

(** The encoder writes framed fields. *)
Lemma encode_framed D slots tail :
  Forall (slot_ok D) slots →
  framed (length slots) (concat (encode_slot D <$> slots) ++ tail) (slot_values D slots).
Proof.
  induction 1 as [|v slots Hv _ IH]; [constructor|].
  rewrite fmap_cons. cbn [concat]. rewrite <-(assoc_L (++)). destruct v as [s|].
  - assert (∃ n, encode_slot D (Some s) = put_i32 (Z.of_nat n) ++ slot_bytes D s ∧
                 length (slot_bytes D s) = n ∧ (Z.of_nat n < 2 ^ 31)%Z)
      as (n & He & Hl & Hb).
    { destruct s as [off len|b]; simpl in *; (eexists; split; [reflexivity|]); [|done].
      rewrite length_take, length_drop. lia. }
    rewrite He. rewrite <-(assoc_L (++)). cbn [slot_values map option_map length].
    set (rest := concat (encode_slot D <$> slots) ++ tail) in *.
    assert (wrap_i 32 (Z.of_nat n) = Z.of_nat n) as Hw.
    { unfold wrap_i. rewrite Z.mod_small; lia. }
    pose proof (framed_val (length slots) (put_i32 (Z.of_nat n) ++ slot_bytes D s ++ rest)
      (Z.of_nat n) (slot_bytes D s ++ rest) (slot_values D slots)) as Hf.
    rewrite get_put_i32, Hw, Nat2Z.id in Hf.
    rewrite take_app_length' in Hf by done. rewrite drop_app_length' in Hf by done.
    apply Hf; [done|lia| |done]. rewrite length_app. lia.
  - eapply framed_null; [apply get_put_i32|by vm_compute|done].
Qed.

(** ** The view invariant

    The slots match the field count and lie inside the message, and an
    unmodified view is the decoding of its row. *)
Definition row_inv (m : DataRowMut) : Prop :=
  Forall (slot_ok (data (row m))) (values m) ∧
  length (values m) = field_count (row m) ∧
  (modified m = false → parse (row m) = Ok m).

Lemma parse_inv r m : parse r = Ok m → row_inv m ∧ row m = r ∧ modified m = false.
Proof.
  intros Hp. pose proof Hp as Hp'. unfold parse in Hp.
  destruct (parse_fields _ _ _ _) as [vs|] eqn:Hf; simplify_eq.
  apply (parse_fields_sound _ _ _ 0) in Hf as (_ & ? & ?). done.
Qed.

Lemma set_text_inv i v m m' :
  (Z.of_nat (String.length v) < 2 ^ 31)%Z → row_inv m → set_text i v m = Ok m' → row_inv m'.
Proof.
  intros Hv (Hs & Hl & _). unfold set_text. case_bool_decide; [done|]. intros [= <-].
  split; [|split; [simpl; by rewrite length_insert|done]]. simpl.
  apply Forall_insert; [done|]. simpl.
  replace (length _) with (String.length v); [done|].
  clear. induction v; simpl; congruence.
Qed.

Lemma set_null_inv i m m' : row_inv m → set_null i m = Ok m' → row_inv m'.
Proof.
  intros (Hs & Hl & _). unfold set_null. case_bool_decide; [done|]. intros [= <-].
  split; [|split; [simpl; by rewrite length_insert|done]]. by apply Forall_insert.
Qed.
#[export] Hint Resolve parse_inv set_text_inv set_null_inv : row.

(** ** Properties *)

Lemma framed_parse r vs :
  framed (field_count r) (data r) vs → ∃ m, parse r = Ok m ∧ row_values m = vs.
Proof.
  unfold parse, row_values. intros (slots & Hp & <-)%(parse_fields_complete _ (field_count r) _ 0).
  rewrite drop_0 in Hp. rewrite Hp. by eexists.
Qed.

(** Decoding accepts exactly the rows whose bytes hold [field_count] framed
    fields, and the decoded slots stand for those fields' values. *)
Theorem parse_exact r vs :
  framed (field_count r) (data r) vs ↔ ∃ m, parse r = Ok m ∧ row_values m = vs.
Proof.
  split; [apply framed_parse|]. unfold parse, row_values.
  intros (m & Hm & <-). destruct (parse_fields _ _ _ _) as [slots|] eqn:Hp; simplify_eq.
  by apply (parse_fields_sound _ _ _ 0) in Hp as (? & _).
Qed.

(** The message written by [apply] decodes again to the values of the view. *)
Lemma apply_roundtrip m :
  row_inv m →
  field_count (apply m) = field_count (row m) ∧
  ∃ m', parse (apply m) = Ok m' ∧ row_values m' = row_values m.
Proof.
  intros (Hs & Hl & Hu). unfold apply. destruct (modified m).
  - split; [done|]. apply framed_parse. simpl. rewrite <-Hl.
    rewrite <-(app_nil_r (concat _)). by apply encode_framed.
  - split; [done|]. exists m. auto.
Qed.

(** What a hook does to a row, and what it means for the values: an index out
    of range is refused and changes nothing. *)
Inductive Edit :=
| SetText (i : nat) (v : string)
| SetNull (i : nat).

Definition edit (e : Edit) (m : DataRowMut) : result RowError DataRowMut :=
  match e with SetText i v => set_text i v m | SetNull i => set_null i m end.

Fixpoint edits (es : list Edit) (m : DataRowMut) : DataRowMut :=
  match es with
  | [] => m
  | e :: es => edits es (match edit e m with Ok m' => m' | Err _ => m end)
  end.

Definition edit_value (e : Edit) (vs : list (option bytes)) : list (option bytes) :=
  match e with
  | SetText i v => <[i := Some (String.list_ascii_of_string v)]> vs
  | SetNull i => <[i := None]> vs
  end.

(** A value whose length fits the 32-bit length field. *)
Definition edit_fits (e : Edit) : Prop :=
  match e with SetText _ v => (Z.of_nat (String.length v) < 2 ^ 31)%Z | SetNull _ => True end.

Lemma slot_values_insert d i v vs :
  slot_values d (<[i := v]> vs) = <[i := option_map (slot_bytes d) v]> (slot_values d vs).
Proof. unfold slot_values. apply list_fmap_insert. Qed.

Lemma edit_spec e m :
  edit_fits e → row_inv m →
  let m' := match edit e m with Ok m' => m' | Err _ => m end in
  row_inv m' ∧ row m' = row m ∧ row_values m' = edit_value e (row_values m).
Proof.
  intros Hf Hm. destruct e as [i v|i]; simpl.
  - destruct (set_text i v m) as [m'|] eqn:Hs.
    + split; [by eapply set_text_inv|]. unfold set_text in Hs. case_bool_decide; [done|].
      injection Hs as <-. split; [done|]. unfold row_values. simpl. by rewrite slot_values_insert.
    + split; [done|split; [done|]]. unfold set_text in Hs. case_bool_decide; [|done].
      rewrite list_insert_ge; [done|]. unfold row_values, slot_values. by rewrite length_map.
  - destruct (set_null i m) as [m'|] eqn:Hs.
    + split; [by eapply set_null_inv|]. unfold set_null in Hs. case_bool_decide; [done|].
      injection Hs as <-. split; [done|]. unfold row_values. simpl. by rewrite slot_values_insert.
    + split; [done|split; [done|]]. unfold set_null in Hs. case_bool_decide; [|done].
      rewrite list_insert_ge; [done|]. unfold row_values, slot_values. by rewrite length_map.
Qed.

(** C11: row rewriting: a row decoded, edited any number of times and written
    back is framed correctly, keeps its field count, and decodes again to the
    original values with exactly the edits made to them; without edits it is
    the original message byte for byte. *)
Theorem edits_roundtrip r m es :
  parse r = Ok m → Forall edit_fits es →
  field_count (apply (edits es m)) = field_count r ∧ (es = [] → apply (edits es m) = r) ∧
  ∃ m', parse (apply (edits es m)) = Ok m' ∧
        row_values m' = foldl (λ vs e, edit_value e vs) (row_values m) es.
Proof.
  intros Hp Hes. destruct (parse_inv _ _ Hp) as (Hi & Hr & Hu).
  assert (row_inv (edits es m) ∧ row (edits es m) = r ∧
          row_values (edits es m) = foldl (λ vs e, edit_value e vs) (row_values m) es) as (Hi' & Hr' & <-).
  { clear Hp Hu. revert m Hi Hr. induction Hes as [|e es He _ IH]; intros m Hi Hr; simpl; [done|].
    destruct (edit_spec e m He Hi) as (? & ? & <-). apply IH; [done|]. congruence. }
  destruct (apply_roundtrip _ Hi') as (Hf & Hv). rewrite Hr' in Hf. split; [done|]. split; [|done].
  intros ->. unfold apply. simpl. by rewrite Hu.
Qed.
