(* ===== verification/Config.v ===== *)
(** * Configuration data

    The records of config.rs and the pool knobs of pool.rs.  Times are
    nanoseconds on the monotonic clock. *)

From S2P Require Import Prelude RustStr.

(** [std::time::Instant] and [Duration], in nanoseconds. *)
Abbreviation Instant := Z (only parsing).
Abbreviation Duration := Z (only parsing).

Definition from_secs (n : Z) : Duration := (n * 10 ^ 9)%Z.

(** [Instant::elapsed] and [duration_since] saturate at zero. *)
Definition duration_since (now since : Instant) : Duration := Z.max 0 (now - since).

(** [EndpointId]. *)
Abbreviation EndpointId := string (only parsing).

Record UpstreamTlsConfig := MkUpstreamTlsConfig {
  ca : option string;
  insecure : bool
}.

Record EndpointConfig := MkEndpointConfig {
  id : EndpointId;
  upstream : string;
  ep_password : option string;
  ep_tls : option UpstreamTlsConfig
}.

Record RouteConfig := MkRouteConfig {
  name : string;
  endpoints : list EndpointConfig;
  password : option string;
  tls : UpstreamTlsConfig
}.

(** [iter().find(..)]. *)
Definition find_endpoint (f : EndpointConfig → bool) (l : list EndpointConfig) :
    option EndpointConfig := List.find f l.

(** [RouteConfig::endpoint]. *)
Definition endpoint (r : RouteConfig) (i : EndpointId) : option EndpointConfig :=
  find_endpoint (λ e, bool_decide (id e = i)) (endpoints r).

(** ** Pool knobs (pool.rs) *)

Inductive PoolMode := SessionMode | TransactionMode.

#[global] Instance PoolMode_eq_dec : EqDecision PoolMode.
Proof. solve_decision. Defined.

Record PoolKey := MkPoolKey {
  pk_route : string;
  pk_endpoint : string;
  pk_user : string;
  pk_database : option string
}.

#[global] Instance PoolKey_eq_dec : EqDecision PoolKey.
Proof. solve_decision. Defined.
#[global] Instance PoolKey_countable : Countable PoolKey.
Proof.
  refine (inj_countable'
    (λ k, (pk_route k, pk_endpoint k, pk_user k, pk_database k))
    (λ '(r, e, u, d), MkPoolKey r e u d) _).
  by intros [].
Defined.

Record PoolConfig := MkPoolConfig {
  mode : PoolMode;
  max_size : nat;
  idle_timeout : Duration;
  max_lifetime : Duration;
  stale_after : Duration;
  sweep_interval : Duration
}.

Definition PoolConfig_default : PoolConfig := {|
  mode := SessionMode;
  max_size := 16;
  idle_timeout := from_secs 600;
  max_lifetime := from_secs 3600;
  stale_after := from_secs 30;
  sweep_interval := from_secs 15
|}.

(** ** Lookup *)

Lemma endpoint_Some r i e : endpoint r i = Some e → e ∈ endpoints r ∧ id e = i.
Proof.
  unfold endpoint, find_endpoint. intros [Hin Hid]%List.find_some.
  apply bool_decide_eq_true in Hid. by rewrite list_elem_of_In.
Qed.

Lemma endpoint_is_Some r e : e ∈ endpoints r → is_Some (endpoint r (id e)).
Proof.
  intros Hin%list_elem_of_In. unfold endpoint, find_endpoint.
  destruct (List.find _ _) as [e'|] eqn:Hf; [done|].
  eapply List.find_none in Hf; [|done]. apply bool_decide_eq_false in Hf. done.
Qed.
