(* ===== verification/RustFloat.v ===== *)
(** * Seconds as text

    [Duration::as_secs_f64] and the format [{:.1}], on the IEEE-754 binary64
    values of the Standard Library's [SpecFloat] (computed on integers). *)

From Stdlib Require Import Floats.SpecFloat.
From S2P Require Import Prelude RustStr Config.

Definition prec : Z := 53.
Definition emax : Z := 1024.

(** [z as f64], for a natural number. *)
Definition f64_of_Z (z : Z) : spec_float := binary_normalize prec emax z 0 false.

Definition as_secs_f64 (d : Duration) : spec_float :=
  SFadd prec emax (f64_of_Z (d / 10 ^ 9))
    (SFdiv prec emax (f64_of_Z (d `mod` 10 ^ 9)) (f64_of_Z (10 ^ 9))).

(** The quotient [n / d] rounded to the nearest integer, halves to even. *)
Definition round_div (n d : Z) : Z :=
  let q := (n / d)%Z in
  match Z.compare (2 * (n `mod` d)) d with
  | Lt => q
  | Gt => q + 1
  | Eq => if Z.even q then q else q + 1
  end%Z.

(** Tenths of a non-negative value. *)
Definition tenths (x : spec_float) : Z :=
  match x with
  | S754_finite _ m e =>
    if bool_decide (0 ≤ e)%Z then (10 * Z.pos m * 2 ^ e)%Z else round_div (10 * Z.pos m) (2 ^ (- e))
  | _ => 0
  end.

(** [{:.1}] of a finite non-negative value. *)
Definition format_tenths (x : spec_float) : string :=
  let t := tenths x in show_Z (t / 10) +:+ "." +:+ show_Z (t `mod` 10).

Definition format_secs (d : Duration) : string := format_tenths (as_secs_f64 d).

Example format_quarter : format_secs 250000000 = "0.2".
Proof. vm_compute. reflexivity. Qed.

Example format_minutes : format_secs 90960000000 = "91.0".
Proof. vm_compute. reflexivity. Qed.
