(* ===== verification/Routing.v ===== *)
(** * Routing helpers (routing.rs)

    [EndpointGroup] is the passive health tracker shared by the sessions of a
    route, [RwSplit] the read/write splitter and [default_is_read] its SQL
    classifier.  The group is explicit state; the clock reading of each call
    is an argument. *)

From S2P Require Import Prelude RustStr Config.

Definition DEFAULT_FAILURE_THRESHOLD : Z := 2.
Definition DEFAULT_REVIVE_AFTER : Duration := from_secs 30.

Inductive Health :=
| Alive (failures : Z)
| Dead (since : Instant).

Record EndpointGroup := MkEndpointGroup {
  inner : gmap string Health;
  failure_threshold : Z;
  revive_after : Duration
}.
#[global] Instance eta_EndpointGroup : Eta EndpointGroup :=
  λ g, MkEndpointGroup (inner g) (failure_threshold g) (revive_after g).

(** [EndpointGroup::new]: collecting into the map, later ids win. *)
Definition group_new (ids : list string) : EndpointGroup :=
  MkEndpointGroup (foldl (λ m i, <[i := Alive 0]> m) ∅ ids)
    DEFAULT_FAILURE_THRESHOLD DEFAULT_REVIVE_AFTER.

Definition from_endpoints (es : list EndpointConfig) : EndpointGroup :=
  group_new (id <$> es).

Definition with_failure_threshold (t : Z) (g : EndpointGroup) : EndpointGroup :=
  g <| failure_threshold := Z.max t 1 |>.

Definition with_revive_after (d : Duration) (g : EndpointGroup) : EndpointGroup :=
  g <| revive_after := d |>.

Definition is_alive (now : Instant) (g : EndpointGroup) (i : string) : bool :=
  match inner g !! i with
  | None => true
  | Some (Alive _) => true
  | Some (Dead since) => bool_decide (revive_after g ≤ duration_since now since)%Z
  end.

Definition report_failure (now : Instant) (i : string) (g : EndpointGroup) : EndpointGroup :=
  match default (Alive 0) (inner g !! i) with
  | Alive failures =>
    let failures := wrap_u 32 (failures + 1) in
    if bool_decide (failure_threshold g ≤ failures)%Z
    then g <| inner ::= <[i := Dead now]> |>
    else g <| inner ::= <[i := Alive failures]> |>
  | Dead _ => g <| inner ::= <[i := Dead now]> |>
  end.

Definition report_success (i : string) (g : EndpointGroup) : EndpointGroup :=
  match inner g !! i with
  | Some _ => g <| inner ::= <[i := Alive 0]> |>
  | None => g
  end.

(** [RoutingInfo]: the context of a routing decision. *)
Record RoutingInfo := MkRoutingInfo {
  ri_endpoints : list EndpointConfig;
  ri_user : string;
  ri_database : option string;
  ri_sql : option string
}.

(** The default (first configured) endpoint id. *)
Definition default_endpoint (info : RoutingInfo) : string :=
  match ri_endpoints info with
  | e :: _ => id e
  | [] => EmptyString
  end.

Definition select_first_alive (now : Instant) (g : EndpointGroup) (info : RoutingInfo) :
    option EndpointId :=
  option_map id (find_endpoint (λ e, is_alive now g (id e)) (ri_endpoints info)).

(** [nanos] is the sub-second reading of the system clock. *)
Definition select_round_robin (now : Instant) (nanos : nat) (g : EndpointGroup)
    (info : RoutingInfo) : option EndpointId :=
  let alive := List.filter (λ e, is_alive now g (id e)) (ri_endpoints info) in
  match alive with
  | [] => None
  | _ => option_map id (alive !! (nanos `mod` length alive))
  end.

Inductive ReadPreference := PrimaryOnly | ReplicaFirst.

#[global] Instance ReadPreference_eq_dec : EqDecision ReadPreference.
Proof. solve_decision. Defined.

Record RwSplit := MkRwSplit {
  group : EndpointGroup;
  primary : EndpointId;
  preference : ReadPreference;
  classifier : string → bool
}.
#[global] Instance eta_RwSplit : Eta RwSplit :=
  λ r, MkRwSplit (group r) (primary r) (preference r) (classifier r).

(** *** The SQL classifier *)

(** One iteration of the loop of [strip_comments]; [None] when no comment
    leads the text. *)
Definition strip_comment (s : string) : option string :=
  match strip_prefix "--" s with
  | Some rest => Some (match split_once (String "010" EmptyString) rest with
                       | Some (_, r) => r | None => EmptyString end)
  | None =>
    match strip_prefix "/*" s with
    | Some rest => Some (match split_once "*/" rest with
                         | Some (_, r) => r | None => EmptyString end)
    | None => None
    end
  end.

Fixpoint strip_comments_go (fuel : nat) (s : string) : string :=
  match fuel with
  | O => s
  | S fuel => match strip_comment s with
              | Some s' => strip_comments_go fuel s'
              | None => s
              end
  end.

(** Every round removes at least two bytes, so the length bounds the loop. *)
Definition strip_comments (s : string) : string := strip_comments_go (String.length s) s.

(** Separators of [split(|c| c.is_whitespace() || c == '(')]. *)
Definition token_sep (s : string) : nat :=
  match s with
  | String "("%char _ => 1
  | _ => ws_len s
  end.

Definition default_is_read (sql : string) : bool :=
  let stripped := strip_comments (trim_start sql) in
  let first := to_ascii_uppercase
    (default EmptyString (List.find (λ s, bool_decide (s ≠ EmptyString)) (str_split token_sep stripped))) in
  bool_decide (first ∈ ["SELECT"; "SHOW"; "TABLE"]).

(** *** [RwSplit] *)

Definition rwsplit_new (g : EndpointGroup) (primary : string) : RwSplit :=
  MkRwSplit g primary ReplicaFirst default_is_read.

Definition with_read_preference (p : ReadPreference) (r : RwSplit) : RwSplit :=
  r <| preference := p |>.

Definition with_classifier (f : string → bool) (r : RwSplit) : RwSplit :=
  r <| classifier := f |>.

(** First alive endpoint other than the primary, else the primary. *)
Definition route (now : Instant) (r : RwSplit) (info : RoutingInfo) (is_read : bool) : EndpointId :=
  if negb is_read || bool_decide (preference r = PrimaryOnly) then primary r
  else default (primary r)
    (option_map id
      (find_endpoint (λ e, bool_decide (id e ≠ primary r) && is_alive now (group r) (id e))
         (ri_endpoints info))).

Definition route_sql (now : Instant) (r : RwSplit) (info : RoutingInfo) (sql : string) : EndpointId :=
  let is_read := classifier r sql in
  if negb is_read || bool_decide (preference r = PrimaryOnly) then primary r
  else default (primary r)
    (option_map id
      (find_endpoint (λ e, bool_decide (id e ≠ primary r) && is_alive now (group r) (id e))
         (ri_endpoints info))).

(** ** Health tracking *)

(** Lookup of one endpoint after a report. *)
Lemma report_failure_lookup now i g j :
  inner (report_failure now i g) !! j =
  if decide (i = j) then
    Some (match default (Alive 0) (inner g !! i) with
          | Alive f => if bool_decide (failure_threshold g ≤ wrap_u 32 (f + 1))%Z
                       then Dead now else Alive (wrap_u 32 (f + 1))
          | Dead _ => Dead now
          end)
  else inner g !! j.
Proof.
  unfold report_failure. destruct (default _ _); [case_bool_decide|]; simpl;
    rewrite lookup_insert; by case_decide.
Qed.

Lemma report_success_lookup i g j :
  inner (report_success i g) !! j =
  if decide (i = j) then (λ _, Alive 0) <$> inner g !! i else inner g !! j.
Proof.
  unfold report_success. destruct (inner g !! i) eqn:Hi; simpl.
  - rewrite lookup_insert. by case_decide.
  - case_decide; by subst.
Qed.

Lemma report_failure_config now i g :
  failure_threshold (report_failure now i g) = failure_threshold g ∧
  revive_after (report_failure now i g) = revive_after g.
Proof. unfold report_failure. destruct (default _ _); [case_bool_decide|]; done. Qed.

Lemma report_success_config i g :
  failure_threshold (report_success i g) = failure_threshold g ∧
  revive_after (report_success i g) = revive_after g.
Proof. unfold report_success. by destruct (inner g !! i). Qed.

(** A counter of an endpoint that is alive stays below the threshold, and the
    threshold is a positive [u32]: the counter never wraps. *)
Definition group_inv (g : EndpointGroup) : Prop :=
  (1 ≤ failure_threshold g < 2 ^ 32)%Z ∧
  ∀ i f, inner g !! i = Some (Alive f) → (0 ≤ f < failure_threshold g)%Z.

Lemma group_new_lookup ids (m : gmap string Health) j h :
  foldl (λ m i, <[i := Alive 0]> m) m ids !! j = Some h → h = Alive 0 ∨ m !! j = Some h.
Proof.
  revert m. induction ids as [|i ids IH]; intros m; simpl; [auto|].
  intros [?|Hm]%IH; [auto|]. rewrite lookup_insert in Hm. case_decide; naive_solver.
Qed.

Lemma group_new_inv ids : group_inv (group_new ids).
Proof.
  split; [by vm_compute|]. intros i f [?|?]%group_new_lookup; simplify_eq.
  by vm_compute.
Qed.

Lemma report_failure_inv now i g : group_inv g → group_inv (report_failure now i g).
Proof.
  intros [Ht Hf]. split; [by rewrite (proj1 (report_failure_config now i g))|].
  intros j f. rewrite report_failure_lookup, (proj1 (report_failure_config now i g)).
  case_decide as Hij; [subst|apply Hf].
  destruct (inner g !! j) as [[f'|]|] eqn:Hj; simpl; [|done|];
    case_bool_decide as Hb; intros; simplify_eq.
  - apply Hf in Hj. unfold wrap_u in *. rewrite Z.mod_small in * by lia. lia.
  - unfold wrap_u in *. rewrite Z.mod_small in * by lia. lia.
Qed.

Lemma report_success_inv i g : group_inv g → group_inv (report_success i g).
Proof.
  intros [Ht Hf]. split; [by rewrite (proj1 (report_success_config i g))|].
  intros j f. rewrite report_success_lookup, (proj1 (report_success_config i g)).
  case_decide; [|apply Hf]. destruct (inner g !! i); simpl; [|done].
  intros. simplify_eq. lia.
Qed.

Create HintDb routing.
#[export] Hint Resolve group_new_inv report_failure_inv report_success_inv : routing.

(** A run of failure reports of one endpoint at the given times. *)
Definition report_failures (times : list Instant) (i : string) (g : EndpointGroup) :
    EndpointGroup :=
  foldl (λ g t, report_failure t i g) g times.

(** The entry of an endpoint after a run of failures with no success between. *)
Lemma report_failures_lookup times i g f :
  (1 ≤ failure_threshold g < 2 ^ 32)%Z → (0 ≤ f < failure_threshold g)%Z →
  default (Alive 0) (inner g !! i) = Alive f →
  default (Alive 0) (inner (report_failures times i g) !! i) =
  match last times with
  | Some t => if bool_decide (failure_threshold g ≤ f + Z.of_nat (length times))%Z
              then Dead t else Alive (f + Z.of_nat (length times))
  | None => Alive f
  end.
Proof.
  intros Ht Hf Hi. unfold report_failures.
  induction times as [|t times IH] using rev_ind; [done|].
  rewrite foldl_snoc, last_snoc, length_app; simpl.
  assert (failure_threshold (foldl (λ g t, report_failure t i g) g times) =
          failure_threshold g) as Hthr.
  { clear -times. induction times as [|t times IH] using rev_ind; [done|].
    rewrite foldl_snoc. by rewrite (proj1 (report_failure_config _ _ _)). }
  rewrite report_failure_lookup, decide_True, Hthr, IH by done; simpl.
  destruct (last times) as [t'|] eqn:Hlast.
  - case_bool_decide as Hb.
    + rewrite bool_decide_true by lia. done.
    + unfold wrap_u. rewrite Z.mod_small by lia.
      replace (f + Z.of_nat (length times) + 1)%Z with (f + Z.of_nat (length times + 1))%Z by lia.
      done.
  - apply last_None in Hlast as ->. simpl. unfold wrap_u. rewrite Z.mod_small by lia. done.
Qed.

(** C38: an endpoint is dead after [failure_threshold] failures in a row, and not
    before; it stays dead until [revive_after] has passed since the last one. *)
Theorem failures_mark_dead times last_t i g now f :
  group_inv g → default (Alive 0) (inner g !! i) = Alive f →
  last times = Some last_t →
  is_alive now (report_failures times i g) i = true ↔
  (f + Z.of_nat (length times) < failure_threshold g)%Z ∨
  (revive_after g ≤ duration_since now last_t)%Z.
Proof.
  intros [Ht Hg] Hi Hl.
  assert (0 ≤ f < failure_threshold g)%Z as Hf.
  { destruct (inner g !! i) as [h|] eqn:E; simpl in Hi; [subst; by eapply Hg|].
    injection Hi as <-. lia. }
  pose proof (report_failures_lookup times i g f Ht Hf Hi) as H. rewrite Hl in H.
  assert (revive_after (report_failures times i g) = revive_after g) as Hr.
  { unfold report_failures. clear. induction times as [|t times IH] using rev_ind; [done|].
    rewrite foldl_snoc. by rewrite (proj2 (report_failure_config _ _ _)). }
  unfold is_alive. rewrite Hr.
  destruct (inner (report_failures times i g) !! i) as [h|] eqn:E; simpl in H.
  - subst h. case_bool_decide.
    + rewrite bool_decide_eq_true. split; [auto|]. intros [?|?]; [lia|done].
    + split; [intros _; left; lia|done].
  - case_bool_decide; [done|]. split; [intros _; left; lia|done].
Qed.

(** ** Selection *)

Lemma select_first_alive_Some now g info i :
  select_first_alive now g info = Some i ↔
  ∃ l1 e l2, ri_endpoints info = l1 ++ e :: l2 ∧ id e = i ∧ is_alive now g i = true ∧
             Forall (λ e', is_alive now g (id e') = false) l1.
Proof.
  unfold select_first_alive, find_endpoint. split.
  - destruct (List.find _ _) as [e|] eqn:Hf; simpl; intros; simplify_eq.
    apply find_Some_split in Hf as (l1 & l2 & ? & ? & ?). naive_solver.
  - intros (l1 & e & l2 & He & <- & ? & ?).
    assert (List.find (λ e, is_alive now g (id e)) (ri_endpoints info) = Some e) as ->; [|done].
    apply find_Some_split. naive_solver.
Qed.

(** [select_first_alive] respects the configured priority: it answers the
    first endpoint that is alive, every one before it being dead, and [None]
    exactly when all are dead. *)
Theorem select_first_alive_priority now g info :
  match select_first_alive now g info with
  | Some i => ∃ l1 e l2, ri_endpoints info = l1 ++ e :: l2 ∧ id e = i ∧
                is_alive now g i = true ∧ Forall (λ e', is_alive now g (id e') = false) l1
  | None => Forall (λ e, is_alive now g (id e) = false) (ri_endpoints info)
  end.
Proof.
  destruct (select_first_alive now g info) eqn:H.
  - by apply select_first_alive_Some.
  - unfold select_first_alive, find_endpoint in H. apply find_None_Forall.
    by destruct (List.find _ _).
Qed.

(** Writes go to the primary whatever its health; a read goes to an endpoint
    that is alive and not the primary if there is one, to the primary if not;
    [route_sql] is [route] on the classifier's verdict. *)
Theorem route_sql_spec now r info sql :
  route_sql now r info sql = route now r info (classifier r sql) ∧
  (classifier r sql = false → route_sql now r info sql = primary r) ∧
  (classifier r sql = true → preference r = ReplicaFirst →
   (route_sql now r info sql = primary r ∧
    Forall (λ e, id e = primary r ∨ is_alive now (group r) (id e) = false) (ri_endpoints info)) ∨
   (route_sql now r info sql ≠ primary r ∧
    is_alive now (group r) (route_sql now r info sql) = true ∧
    ∃ e, e ∈ ri_endpoints info ∧ id e = route_sql now r info sql)).
Proof.
  split; [done|]. unfold route_sql. split; [by intros ->|]. intros -> ->. simpl.
  unfold find_endpoint.
  destruct (List.find _ _) as [e|] eqn:Hf; simpl.
  - right. apply List.find_some in Hf as [Hin [Hne Ha]%andb_true_iff].
    apply bool_decide_eq_true in Hne. rewrite <-list_elem_of_In in Hin. naive_solver.
  - left. split; [done|]. apply find_None_Forall in Hf.
    eapply Forall_impl; [done|]. intros e [He|He]%andb_false_iff; [left|by right].
    apply bool_decide_eq_false in He. by apply dec_stable.
Qed.

(** ** The classifier's comment stripper *)

Lemma split_once_app p s a b : split_once p s = Some (a, b) → s = a +:+ p +:+ b.
Proof.
  revert a b. induction s as [|c s IH]; intros a b; simpl;
    destruct (strip_prefix p _) as [r|] eqn:Hp; intros; simplify_eq.
  - by apply strip_prefix_Some in Hp.
  - by apply strip_prefix_Some in Hp.
  - destruct (split_once p s) as [[a' b']|]; simplify_eq. by rewrite (IH _ _ eq_refl).
Qed.

Lemma str_length_app a b : String.length (a +:+ b) = String.length a + String.length b.
Proof. induction a as [|c a IH]; [done|]. change (S (String.length (a +:+ b)) = S (String.length a) + String.length b). lia. Qed.

(** A round strips a proper, non-empty prefix. *)
Lemma strip_comment_suffix s s' :
  strip_comment s = Some s' → ∃ p, s = p +:+ s' ∧ 2 ≤ String.length p.
Proof.
  unfold strip_comment.
  destruct (strip_prefix "--" s) as [rest|] eqn:H1;
    [|destruct (strip_prefix "/*" s) as [rest|] eqn:H2; [|done]];
    intros [= <-];
    match goal with H : strip_prefix _ _ = Some _ |- _ => apply strip_prefix_Some in H as -> end.
  - destruct (split_once _ rest) as [[a b]|] eqn:Hs.
    + apply split_once_app in Hs as ->. eexists ("--" +:+ a +:+ String "010" EmptyString).
      rewrite !str_app_assoc, !str_length_app. simpl. split; [done|lia].
    + exists ("--" +:+ rest). rewrite str_app_nil_r, str_length_app. simpl. split; [done|lia].
  - destruct (split_once _ rest) as [[a b]|] eqn:Hs.
    + apply split_once_app in Hs as ->. eexists ("/*" +:+ a +:+ "*/").
      rewrite !str_app_assoc, !str_length_app. simpl. split; [done|lia].
    + exists ("/*" +:+ rest). rewrite str_app_nil_r, str_length_app. simpl. split; [done|lia].
Qed.

(** The comment loop ends within the length of the text, at a suffix of it
    that no comment leads. *)
Theorem strip_comments_terminates s :
  strip_comment (strip_comments s) = None ∧ ∃ p, s = p +:+ strip_comments s.
Proof.
  unfold strip_comments.
  enough (∀ n, String.length s ≤ n →
    strip_comment (strip_comments_go n s) = None ∧ ∃ p, s = p +:+ strip_comments_go n s)
    by auto.
  intros n. revert s. induction n as [|n IH]; intros s Hn; simpl.
  - destruct s; [|simpl in Hn; lia]. split; [done|by exists EmptyString].
  - destruct (strip_comment s) as [s'|] eqn:Hs; [|split; [done|by exists EmptyString]].
    apply strip_comment_suffix in Hs as (p & -> & Hp). rewrite str_length_app in Hn.
    destruct (IH s') as (? & q & Hq); [lia|]. split; [done|].
    exists (p +:+ q). by rewrite str_app_assoc, <-Hq.
Qed.

(** Comments separated by blanks: only the first one is seen through. *)
Example default_is_read_select : default_is_read "  SELECT 1" = true.
Proof. vm_compute. reflexivity. Qed.
Example default_is_read_comment : default_is_read "/* a */ select(1)" = true.
Proof. vm_compute. reflexivity. Qed.
Example default_is_read_insert : default_is_read "INSERT INTO t SELECT 1" = false.
Proof. vm_compute. reflexivity. Qed.
