(* ===== verification/Upstream.v ===== *)
(** * Upstream connections (upstream.rs) and the environment

    [PgWireClient], the wire-protocol client, the clock and the network are
    not part of the sources: they are the operations of the class [Platform],
    and every component that uses them is proved for any instance.  A
    connection is owned by one holder at a time, so each operation is an
    asynchronous computation over the connection value; the answers of the
    server are whatever the instance makes of them. *)

From S2P Require Import Prelude RustStr Messages Config.

(** ** Upstream TLS *)

(** The signature schemes of [rustls] the sources name. *)
Inductive SignatureScheme :=
| RSA_PKCS1_SHA256 | RSA_PKCS1_SHA384 | RSA_PKCS1_SHA512
| ECDSA_NISTP256_SHA256 | ECDSA_NISTP384_SHA384
| ED25519
| RSA_PSS_SHA256 | RSA_PSS_SHA384 | RSA_PSS_SHA512.

(** A verifier's verdicts: on the end-entity certificate with its intermediates,
    for a server name; on a message signed with a certificate. *)
Record ServerCertVerifier (Certificate : Type) := MkServerCertVerifier {
  verify_server_cert : Certificate → list Certificate → string → bool;
  verify_tls12_signature : string → Certificate → string → bool;
  verify_tls13_signature : string → Certificate → string → bool;
  supported_verify_schemes : list SignatureScheme
}.
Arguments MkServerCertVerifier {_} _ _ _ _.

Inductive Verification (Certificate : Type) :=
| CustomVerifier (v : ServerCertVerifier Certificate)
| RootCertificates (roots : list Certificate).
Arguments CustomVerifier {_} _.
Arguments RootCertificates {_} _.

Record ClientConfig (Certificate : Type) := MkClientConfig {
  verification : Verification Certificate;
  alpn_protocols : list string
}.
Arguments MkClientConfig {_} _ _.
Arguments verification {_} _.

(** Accepts any certificate and any signature. *)
Definition NoVerify {Certificate : Type} : ServerCertVerifier Certificate :=
  MkServerCertVerifier (λ _ _ _, true) (λ _ _ _, true) (λ _ _ _, true)
    [RSA_PKCS1_SHA256; RSA_PKCS1_SHA384; RSA_PKCS1_SHA512; ECDSA_NISTP256_SHA256; ECDSA_NISTP384_SHA384; ED25519;
     RSA_PSS_SHA256; RSA_PSS_SHA384; RSA_PSS_SHA512].

Class Platform := {
  (** The client library. *)
  PgWireClient : Type;
  PgWireClientError : Type;
  UnexpectedEOF : PgWireClientError;
  show_error : PgWireClientError → string;
  conn_send : PgWireFrontendMessage → async PgWireClient (result PgWireClientError unit);
  conn_feed : PgWireFrontendMessage → async PgWireClient (result PgWireClientError unit);
  conn_next : async PgWireClient (option (result PgWireClientError PgWireBackendMessage));
  conn_simple_query : string → async PgWireClient (result PgWireClientError unit);
  conn_cancel : async PgWireClient (result PgWireClientError unit);
  transaction_status : PgWireClient → TransactionStatus;
  set_transaction_status : TransactionStatus → PgWireClient → PgWireClient;
  server_parameters : PgWireClient → gmap string string;
  set_server_parameter : string → string → PgWireClient → PgWireClient;
  process_id : PgWireClient → Z;
  (** Conversions between [ErrorInfo] and the [ErrorResponse] fields. *)
  error_fields : ErrorInfo → list (ascii * string);
  error_info : list (ascii * string) → ErrorInfo;
  (** Connecting: the connection-string parser, the settings it yields, and
      the handshake. *)
  Config : Type;
  parse_config : string → result PgWireClientError Config;
  config_user : string → Config → Config;
  config_dbname : string → Config → Config;
  config_password : string → Config → Config;
  (** TLS: a PEM file's certificates ([None] when it cannot be opened or one
      does not parse), adding one to a root store, a connector of a setting. *)
  Certificate : Type;
  read_certs : string → option (list Certificate);
  add_root : Certificate → list Certificate → option (list Certificate);
  TlsConnector : Type;
  connector_from : ClientConfig Certificate → TlsConnector;
  (** The outside world: clock readings and connection attempts. *)
  Env : Type;
  instant_now : async Env Instant;
  client_connect : Config → option TlsConnector → async Env (result PgWireClientError PgWireClient);
}.

(** What the sources rely on of the client library: its cached session state
    is plain storage, and reading the clock does not block. *)
Class PlatformLaws (P : Platform) : Prop := {
  clock_ready e : ∃ t e', instant_now e = (Ready t, e');
  status_set st c : transaction_status (set_transaction_status st c) = st;
  params_set_status st c : server_parameters (set_transaction_status st c) = server_parameters c;
  status_set_param n v c : transaction_status (set_server_parameter n v c) = transaction_status c;
  params_set n v c : server_parameters (set_server_parameter n v c) = <[n := v]> (server_parameters c);
}.

Section Connect.
Context `{P : Platform}.

(** [ConnectFactory]: opens a connection for one pool. *)
Definition ConnectFactory : Type := async Env (result PgWireClientError PgWireClient).

Definition connect_parts (connstring user : string) (database password : option string)
    (tls_connector : option TlsConnector) : ConnectFactory :=
  match parse_config connstring with
  | Err e => mret (Err e)
  | Ok config =>
    let config := config_user user config in
    let config := match database with Some db => config_dbname db config | None => config end in
    let config := match password with Some p => config_password p config | None => config end in
    client_connect config tls_connector
  end.

Fixpoint add_roots (certs roots : list Certificate) : option (list Certificate) :=
  match certs with
  | [] => Some roots
  | c :: certs => roots ← add_root c roots; add_roots certs roots
  end.

Definition alpn : list string := ["postgresql"].

(** [build_upstream_connector] (session.rs): [insecure] wins over a CA file;
    with neither, the connection is plaintext. *)
Definition build_upstream_connector (t : UpstreamTlsConfig) : option TlsConnector :=
  if insecure t then Some (connector_from (MkClientConfig (CustomVerifier NoVerify) alpn))
  else
    ca_path ← ca t;
    certs ← read_certs ca_path;
    roots ← add_roots certs [];
    Some (connector_from (MkClientConfig (RootCertificates roots) alpn)).

(** A CA file that cannot be read is taken for no TLS settings at all: the
    connection falls back to what the connection string asks for without them. *)
Lemma unreadable_ca_is_plaintext t path :
  insecure t = false → ca t = Some path → read_certs path = None →
  build_upstream_connector t = build_upstream_connector (MkUpstreamTlsConfig None false).
Proof. unfold build_upstream_connector. intros -> -> Hr. simpl. by rewrite Hr. Qed.

(** [make_factory_for] (session.rs): an endpoint's password and TLS settings
    override the route's. *)
Definition make_factory_for (e : EndpointConfig) (r : RouteConfig)
    (user : string) (database : option string) : ConnectFactory :=
  let connstring := upstream e in
  let pw := match ep_password e with Some p => Some p | None => password r end in
  let tls := match ep_tls e with Some t => t | None => tls r end in
  let tls_connector := build_upstream_connector tls in
  connect_parts connstring user database pw tls_connector.

End Connect.
