(* ===== verification/Reference.v ===== *)
(** * A reference platform

    A concrete instance of [Platform], executable: a scripted server with an
    inbox of undelivered messages and a transaction status, a clock that advances by [tick] on every
    reading, and a script of connection attempts.  It shows that what the theorems assume of
    the platform can hold, and it is the platform of the witnesses. *)

From S2P Require Import Prelude RustStr Messages Config Upstream.

Record RefConn := MkRefConn {
  inbox : list (result string PgWireBackendMessage);
  ref_status : TransactionStatus;
  ref_params : gmap string string;
  ref_base : gmap string string;
  sent : list PgWireFrontendMessage;
  queries : list string;
  dead : bool;
  ref_pid : Z;
  (** The status of the last [ReadyForQuery] delivered. *)
  ref_told : TransactionStatus
}.
#[global] Instance eta_RefConn : Eta RefConn := λ c,
  MkRefConn (inbox c) (ref_status c) (ref_params c) (ref_base c) (sent c) (queries c)
    (dead c) (ref_pid c) (ref_told c).

Record RefEnv := MkRefEnv {
  clock : Z;
  tick : Z;
  outcomes : list (result string RefConn)
}.
#[global] Instance eta_RefEnv : Eta RefEnv := λ e, MkRefEnv (clock e) (tick e) (outcomes e).

(** The status of the last [ReadyForQuery] of an inbox. *)
Fixpoint last_status (l : list (result string PgWireBackendMessage)) : option TransactionStatus :=
  match l with
  | [] => None
  | x :: l =>
    match last_status l, x with
    | Some st, _ => Some st
    | None, Ok (BReadyForQuery st) => Some st
    | None, _ => None
    end
  end.

(** The status the server reports last. *)
Definition ref_server_status (c : RefConn) : TransactionStatus :=
  default (ref_told c) (last_status (inbox c)).

(** What the scripted server answers to a message. *)
Definition react (st : TransactionStatus) (m : PgWireFrontendMessage) :
    list PgWireBackendMessage :=
  match m with
  | FSync => [BReadyForQuery st]
  | FQuery _ => [BCommandComplete "SELECT 0"; BReadyForQuery st]
  | FParse _ _ _ => [BParseComplete]
  | FBind _ _ => [BBindComplete]
  | FExecute _ => [BCommandComplete "SELECT 0"]
  | FClose _ _ => [BCloseComplete]
  | _ => []
  end.

Definition ref_send (m : PgWireFrontendMessage) : async RefConn (result string unit) := λ c,
  if dead c then (Ready (Err "broken pipe"), c)
  else (Ready (Ok ()), c <| sent ::= λ s, s ++ [m] |>
                         <| inbox ::= λ i, i ++ (Ok <$> react (ref_server_status c) m) |>).

Definition ref_next : async RefConn (option (result string PgWireBackendMessage)) := λ c,
  match inbox c with
  | x :: rest =>
    (Ready (Some x), c <| inbox := rest |>
       <| ref_told ::= λ t, match x with Ok (BReadyForQuery st) => st | _ => t end |>)
  | [] => if dead c then (Ready None, c) else (Pending, c)
  end.

Definition ref_simple_query (sql : string) : async RefConn (result string unit) := λ c,
  if dead c then (Ready (Err "broken pipe"), c)
  else if decide (sql = "DISCARD ALL" ∧ ref_server_status c ≠ Idle) then
    (Ready (Err "cannot run inside a transaction block"), c)
  else
    let c := c <| queries ::= λ q, q ++ [sql] |> in
    (Ready (Ok ()),
     if decide (sql = "ROLLBACK") then c <| ref_status := Idle |> <| ref_told := Idle |>
     else if decide (sql = "DISCARD ALL") then c <| ref_params := ref_base c |>
     else c).

(** A fresh connection with nothing pending. *)
Definition fresh_conn : RefConn := MkRefConn [] Idle ∅ ∅ [] [] false 1 Idle.

(** Past the script, the server called [down] refuses and any other accepts.  A
    new connection has nothing unread and is outside a transaction. *)
Definition ref_connect (config : string) : async RefEnv (result string RefConn) := λ e,
  match outcomes e with
  | [] => (Ready (if decide (config = "down") then Err "connection refused" else Ok fresh_conn), e)
  | Ok c :: rest => (Ready (Ok (c <| inbox := [] |> <| sent := [] |> <| ref_told := Idle |>)), e <| outcomes := rest |>)
  | Err x :: rest => (Ready (Err x), e <| outcomes := rest |>)
  end.

Definition ref_clock : async RefEnv Instant := λ e,
  (Ready (clock e), e <| clock ::= Z.add (tick e) |>).

Fixpoint ref_field (k : ascii) (fs : list (ascii * string)) : string :=
  match fs with
  | [] => EmptyString
  | (k', v) :: fs => if decide (k = k') then v else ref_field k fs
  end.

#[global] Instance ref_platform : Platform := {|
  PgWireClient := RefConn;
  PgWireClientError := string;
  UnexpectedEOF := "unexpected EOF";
  show_error := λ e, e;
  conn_send := ref_send;
  conn_feed := ref_send;
  conn_next := ref_next;
  conn_simple_query := ref_simple_query;
  conn_cancel := λ c, (Ready (Ok ()), c);
  transaction_status := ref_status;
  set_transaction_status := λ st c, c <| ref_status := st |>;
  server_parameters := ref_params;
  set_server_parameter := λ n v c, c <| ref_params ::= <[n := v]> |>;
  process_id := ref_pid;
  error_fields := λ i, [("S"%char, severity i); ("C"%char, code i); ("M"%char, message i)];
  error_info := λ fs, MkErrorInfo (ref_field "S"%char fs) (ref_field "C"%char fs) (ref_field "M"%char fs);
  Config := string;
  parse_config := Ok;
  config_user := λ _ c, c;
  config_dbname := λ _ c, c;
  config_password := λ _ c, c;
  Certificate := string;
  read_certs := λ path, Some [path];
  add_root := λ c roots, Some (roots ++ [c]);
  TlsConnector := unit;
  connector_from := λ _, ();
  Env := RefEnv;
  instant_now := ref_clock;
  client_connect := λ c _, ref_connect c
|}.

#[global] Instance ref_laws : PlatformLaws ref_platform.
Proof. constructor; try done. intros e. by eexists _, _. Qed.
