(* ===== verification/Pool.v ===== *)
(** * The connection pool (pool.rs)

    The data, the hygiene procedures that bring a connection back to a neutral
    state, and the operations [checkout], [checkin], [checkin_detached],
    [destroy], [baseline_params], [sweep] and [get_or_create], as one task
    runs them.  PoolSystem.v interleaves the same atomic steps among many
    tasks. *)

From S2P Require Import Prelude RustStr Messages Config Upstream.

(** Bound on the messages read by one unbounded receive loop: running out of
    it is the loop not having ended, i.e. a pending future. *)
Class Fuel := fuel : nat.

Inductive CopyCleanup := CopyNone | ClientOwesCopy | ServerStreamsCopy.

#[global] Instance CopyCleanup_eq_dec : EqDecision CopyCleanup.
Proof. solve_decision. Defined.

Record Hygiene := MkHygiene {
  awaiting_response : bool;
  copy : CopyCleanup
}.
#[global] Instance eta_Hygiene : Eta Hygiene := λ h, MkHygiene (awaiting_response h) (copy h).

Definition Hygiene_default : Hygiene := MkHygiene false CopyNone.

(** Startup parameters replayed onto a reused connection. *)
Definition TRACKED_STARTUP_PARAMETERS : list string := ["application_name"; "client_encoding"].

(** Counters since startup ([AtomicU64]) and gauges ([AtomicI64]). *)
Record PoolMetrics := MkPoolMetrics {
  checkouts : Z;
  reused : Z;
  created : Z;
  checked_in : Z;
  dropped : Z;
  probed : Z;
  evicted : Z;
  active : Z;
  waiting : Z
}.
#[global] Instance eta_PoolMetrics : Eta PoolMetrics := λ m,
  MkPoolMetrics (checkouts m) (reused m) (created m) (checked_in m) (dropped m)
    (probed m) (evicted m) (active m) (waiting m).

Definition PoolMetrics_default : PoolMetrics := MkPoolMetrics 0 0 0 0 0 0 0 0 0.

(** [fetch_add(1)] on a counter, [fetch_add]/[fetch_sub] on a gauge. *)
Definition bump (z : Z) : Z := u64_add z 1.
Definition inc (z : Z) : Z := i64_add z 1.
Definition dec (z : Z) : Z := i64_sub z 1.

Section Pool.
Context `{P : Platform} {F : Fuel}.

Record Parked := MkParked {
  pk_conn : PgWireClient;
  idle_since : Instant;
  pk_created_at : Instant
}.

Record PoolInner := MkPoolInner {
  p_key : PoolKey;
  p_config : PoolConfig;
  permits : nat;
  idle : list Parked;
  p_baseline : option (gmap string string);
  p_connect : ConnectFactory;
  metrics : PoolMetrics
}.
#[global] Instance eta_PoolInner : Eta PoolInner := λ p,
  MkPoolInner (p_key p) (p_config p) (permits p) (idle p) (p_baseline p) (p_connect p) (metrics p).

(** A checked-out connection; it owns one permit of its pool. *)
Record UpstreamLease := MkUpstreamLease {
  conn : PgWireClient;
  lease_created_at : Instant;
  lease_pool : PoolKey
}.
#[global] Instance eta_UpstreamLease : Eta UpstreamLease := λ l,
  MkUpstreamLease (conn l) (lease_created_at l) (lease_pool l).

(** The pool an operation works on, and the outside world. *)
Record PoolWorld := MkPoolWorld { pool : PoolInner; env : Env }.
#[global] Instance eta_PoolWorld : Eta PoolWorld := λ w, MkPoolWorld (pool w) (env w).

(** [Pool::new]. *)
Definition Pool_new (k : PoolKey) (c : PoolConfig) (f : ConnectFactory) : PoolInner :=
  MkPoolInner k c (Nat.max (max_size c) 1) [] None f PoolMetrics_default.

Definition idle_len (p : PoolInner) : nat := length (idle p).
Definition pool_max_size (p : PoolInner) : nat := max_size (p_config p).

(** ** Hygiene of a connection *)

Fixpoint drain_go (n : nat) : async PgWireClient (result PgWireClientError unit) :=
  match n with
  | O => never
  | S n =>
    item ← conn_next;
    match item with
    | None => mret (Err UnexpectedEOF)
    | Some (Err e) => mret (Err e)
    | Some (Ok (BReadyForQuery st)) =>
      _ ← modify (set_transaction_status st); mret (Ok ())
    | Some (Ok (BParameterStatus n' v)) =>
      _ ← modify (set_server_parameter n' v); drain_go n
    | Some (Ok _) => drain_go n
    end
  end.

Definition drain_until_ready : async PgWireClient (result PgWireClientError unit) :=
  drain_go fuel.

Definition close_cycle : async PgWireClient (result PgWireClientError unit) :=
  _ ←? conn_send FSync; drain_until_ready.

Definition probe : async PgWireClient (result PgWireClientError unit) :=
  r ← timeout (_ ←? conn_send FSync; drain_until_ready);
  match r with
  | Some r => mret r
  | None => mret (Err UnexpectedEOF)
  end.

Definition settle (send_copy_fail awaiting : bool) :
    async PgWireClient (result PgWireClientError unit) :=
  _ ←? (if send_copy_fail
        then conn_send (FCopyFail "pgferry: client disconnected during COPY")
        else mret (Ok ()));
  _ ← (if awaiting then conn_cancel else mret (Ok ()));
  r ← timeout drain_until_ready;
  match r with
  | Some result => mret result
  | None => close_cycle
  end.

Definition sanitize (h : Hygiene) : async PgWireClient (result PgWireClientError unit) :=
  _ ←? (if decide (copy h = ClientOwesCopy) then settle true (awaiting_response h)
        else if awaiting_response h then settle false true
        else close_cycle);
  st ← gets transaction_status;
  _ ←? (if decide (st ≠ Idle) then conn_simple_query "ROLLBACK" else mret (Ok ()));
  _ ←? conn_simple_query "DISCARD ALL";
  mret (Ok ()).

(** The quote character doubled, as in a SQL literal. *)
Definition quote : ascii := "039"%char.
Definition escape_quotes (v : string) : string :=
  str_replace quote (String quote (String quote EmptyString)) v.

Definition set_statement (n v : string) : string :=
  "SET " +:+ n +:+ " = " +:+ String quote (escape_quotes v +:+ String quote EmptyString).

Definition set_parameter (n v : string) : async PgWireClient (result PgWireClientError unit) :=
  _ ←? conn_simple_query (set_statement n v);
  _ ← modify (set_server_parameter n v);
  mret (Ok ()).

(** [sync_startup_parameters], on the lease's connection. *)
Fixpoint sync_params (names : list string) (sp : gmap string string) :
    async PgWireClient (result PgWireClientError unit) :=
  match names with
  | [] => mret (Ok ())
  | n :: names =>
    match sp !! n with
    | None => sync_params names sp
    | Some desired =>
      current ← gets (λ c, default EmptyString (server_parameters c !! n));
      if decide (current ≠ desired)
      then _ ←? set_parameter n desired; sync_params names sp
      else sync_params names sp
    end
  end.

Definition sync_startup_parameters (sp : gmap string string) :
    async PgWireClient (result PgWireClientError unit) :=
  sync_params TRACKED_STARTUP_PARAMETERS sp.

(** ** Atomic steps on the pool *)

Definition count (f : PoolMetrics → PoolMetrics) (p : PoolInner) : PoolInner :=
  p <| metrics ::= f |>.

Definition begin_wait (p : PoolInner) : PoolInner := count (λ m, m <| waiting ::= inc |>) p.

(** The semaphore hands out a permit, if one is left. *)
Definition grant (p : PoolInner) : option PoolInner :=
  match permits p with
  | O => None
  | S n => Some (count (λ m, m <| waiting ::= dec |>) (p <| permits := n |>))
  end.

(** An [OwnedSemaphorePermit] is dropped. *)
Definition release (p : PoolInner) : PoolInner := p <| permits ::= S |>.

Definition pop_idle (p : PoolInner) : option (Parked * PoolInner) :=
  match vec_pop (idle p) with
  | Some (x, rest) => Some (x, p <| idle := rest |>)
  | None => None
  end.

Definition note_evicted (p : PoolInner) : PoolInner := count (λ m, m <| evicted ::= bump |>) p.
Definition note_probed (p : PoolInner) : PoolInner := count (λ m, m <| probed ::= bump |>) p.
Definition note_dropped (p : PoolInner) : PoolInner := count (λ m, m <| dropped ::= bump |>) p.
Definition note_created (p : PoolInner) : PoolInner := count (λ m, m <| created ::= bump |>) p.

Definition finish_checkout (c : PgWireClient) (created_at : Instant) (p : PoolInner) :
    UpstreamLease * PoolInner :=
  (MkUpstreamLease c created_at (p_key p),
   count (λ m, m <| checkouts ::= bump |> <| reused ::= bump |> <| active ::= inc |>) p).

Definition begin_checkin (p : PoolInner) : PoolInner := count (λ m, m <| active ::= dec |>) p.

(** Push onto the idle stack. *)
Definition park (c : PgWireClient) (now created_at : Instant) (p : PoolInner) : PoolInner :=
  count (λ m, m <| checked_in ::= bump |>)
    (p <| idle ::= λ v, v ++ [MkParked c now created_at] |>).

Definition is_expired (now created_at : Instant) (p : PoolInner) : bool :=
  bool_decide (max_lifetime (p_config p) < duration_since now created_at)%Z.

Definition is_stale (now since : Instant) (p : PoolInner) : bool :=
  bool_decide (stale_after (p_config p) < duration_since now since)%Z.

(** [Pool::sweep]. *)
Definition swept (now : Instant) (c : PoolConfig) (k : Parked) : bool :=
  bool_decide (idle_timeout c < duration_since now (idle_since k))%Z ||
  bool_decide (max_lifetime c < duration_since now (pk_created_at k))%Z.

Definition sweep (now : Instant) (p : PoolInner) : PoolInner :=
  let kept := List.filter (λ k, negb (swept now (p_config p) k)) (idle p) in
  let n := length (List.filter (swept now (p_config p)) (idle p)) in
  let p := p <| idle := kept |> in
  if bool_decide (n = 0) then p
  else count (λ m, m <| evicted ::= λ z, u64_add z (Z.of_nat n) |>) p.

(** ** Operations of one task *)

Definition on_pool (f : PoolInner → PoolInner) : async PoolWorld unit :=
  modify (λ w, w <| pool ::= f |>).

Definition in_env {A} (m : async Env A) : async PoolWorld A :=
  zoom env (λ e w, w <| env := e |>) m.

(** Run a connection procedure on an owned connection. *)
Definition on_conn {S A} (c : PgWireClient) (m : async PgWireClient A) :
    async S (A * PgWireClient) :=
  λ s, match m c with
       | (Ready a, c') => (Ready (a, c'), s)
       | (Pending, _) => (Pending, s)
       end.

(** [acquire_owned().await]: pending while no permit is left. *)
Definition acquire : async PoolWorld unit := λ w,
  match grant (pool w) with
  | Some p => (Ready (), w <| pool := p |>)
  | None => (Pending, w)
  end.

(** The idle loop of [checkout].  Every round removes a parked connection, so
    one more round than there are parked connections ends it. *)
Fixpoint pop_loop (n : nat) : async PoolWorld (option (PgWireClient * Instant)) :=
  match n with
  | O => never
  | S n =>
    popped ← (λ w, match pop_idle (pool w) with
                   | Some (k, p) => (Ready (Some k), w <| pool := p |>)
                   | None => (Ready None, w)
                   end);
    match popped with
    | None => mret None
    | Some k =>
      now ← in_env instant_now;
      expired ← gets (λ w, is_expired now (pk_created_at k) (pool w));
      if expired : bool then _ ← on_pool note_evicted; pop_loop n
      else
        now ← in_env instant_now;
        stale ← gets (λ w, is_stale now (idle_since k) (pool w));
        if stale : bool then
          _ ← on_pool note_probed;
          rc ← on_conn (pk_conn k) probe;
          match rc with
          | (Err _, _) => _ ← on_pool note_dropped; pop_loop n
          | (Ok _, c) => mret (Some (c, pk_created_at k))
          end
        else mret (Some (pk_conn k, pk_created_at k))
    end
  end.

Definition finish (c : PgWireClient) (created_at : Instant) : async PoolWorld UpstreamLease :=
  λ w, let '(l, p) := finish_checkout c created_at (pool w) in (Ready l, w <| pool := p |>).

(** [checkout] up to the permit, and with it. *)
Definition enter_pool : async PoolWorld unit :=
  _ ← on_pool begin_wait; acquire.

Definition admitted_checkout : async PoolWorld (result PgWireClientError UpstreamLease) :=
  n ← gets (λ w, length (idle (pool w)));
  reuse ← pop_loop (S n);
  match reuse with
  | Some (c, created_at) => l ← finish c created_at; mret (Ok l)
  | None =>
    factory ← gets (λ w, p_connect (pool w));
    r ← in_env factory;
    match r with
    | Err e => _ ← on_pool note_dropped; _ ← on_pool release; mret (Err e)
    | Ok c =>
      _ ← on_pool note_created;
      now ← in_env instant_now;
      l ← finish c now; mret (Ok l)
    end
  end.

Definition checkout : async PoolWorld (result PgWireClientError UpstreamLease) :=
  _ ← enter_pool; admitted_checkout.

(** A lease, or a checkout past [enter_pool], is dropped: the permit goes back and
    nothing else is noted. *)
Definition drop_admitted : async PoolWorld unit := on_pool release.

(** Park the connection, or close it when it is past its lifetime, and give
    the permit back. *)
Definition park_or_evict (c : PgWireClient) (created_at : Instant) : async PoolWorld unit :=
  now ← in_env instant_now;
  expired ← gets (λ w, is_expired now created_at (pool w));
  if expired : bool then _ ← on_pool note_evicted; on_pool release
  else
    now ← in_env instant_now;
    _ ← on_pool (park c now created_at);
    on_pool release.

Definition checkin (l : UpstreamLease) (h : Hygiene) : async PoolWorld unit :=
  _ ← on_pool begin_checkin;
  rc ← on_conn (conn l) (timeout (sanitize h));
  match rc with
  | (Some (Ok _), c) => park_or_evict c (lease_created_at l)
  | (_, _) =>
    _ ← in_env instant_now;
    _ ← on_pool note_dropped; on_pool release
  end.

Definition checkin_detached (l : UpstreamLease) (dirty : bool) : async PoolWorld unit :=
  _ ← on_pool begin_checkin;
  rc ← (if dirty
        then on_conn (conn l) (timeout (conn_simple_query "DISCARD ALL"))
        else mret (Some (Ok ()), conn l));
  match rc with
  | (Some (Ok _), c) =>
    _ ← on_pool (λ p, p <| p_baseline := Some (server_parameters c) |>);
    park_or_evict c (lease_created_at l)
  | (_, _) => _ ← on_pool note_dropped; on_pool release
  end.

(** [UpstreamLease::destroy]. *)
Definition destroy (p : PoolInner) : PoolInner :=
  release (count (λ m, m <| dropped ::= bump |> <| active ::= dec |>) p).

(** [Pool::baseline_params]. *)
Definition baseline_params : async PoolWorld (result PgWireClientError (gmap string string)) :=
  cached ← gets (λ w, p_baseline (pool w));
  match cached with
  | Some params => mret (Ok params)
  | None =>
    lease ←? checkout;
    let params := server_parameters (conn lease) in
    _ ← checkin lease Hygiene_default;
    mret (Ok params)
  end.

(** [PoolManager]: pools by key. *)
Definition get_or_create (k : PoolKey) (c : PoolConfig) (f : ConnectFactory)
    (pools : gmap PoolKey PoolInner) : PoolInner * gmap PoolKey PoolInner :=
  match pools !! k with
  | Some p => (p, pools)
  | None => let p := Pool_new k c f in (p, <[k := p]> pools)
  end.

(** One round of [run_sweeper]: every pool is swept, at its own clock
    reading. *)
Definition sweep_all (now : PoolKey → Instant) (pools : gmap PoolKey PoolInner) :
    gmap PoolKey PoolInner :=
  map_imap (λ k p, Some (sweep (now k) p)) pools.

End Pool.
