(* ===== verification/PoolHygiene.v ===== *)
(** * Hygiene of pooled connections (pool.rs)

    What [checkin] guarantees about the connection it parks and about the
    permit it holds.  The server is any server that keeps the message-flow
    rules of the protocol ([ServerLaws]). *)

From S2P Require Import Prelude RustStr Messages Config Upstream Reference Pool.

(** The message flow of the PostgreSQL protocol, as far as the pool relies on
    it: [owed] is the number of [ReadyForQuery] messages the server still has
    to deliver on a connection.  A [Sync] makes it one more, a [CopyFail] ends
    a cycle that is owed its [ReadyForQuery] already, a received
    [ReadyForQuery] makes it one less, and a completed simple query leaves it
    as it was. *)
Class ServerLaws (P : Platform) := {
  owed : PgWireClient → nat;
  owed_sync c c' : conn_send FSync c = (Ready (Ok ()), c') → owed c' = S (owed c);
  owed_copy_fail s c c' : conn_send (FCopyFail s) c = (Ready (Ok ()), c') → owed c' = owed c;
  owed_next_ready st c c' :
    conn_next c = (Ready (Some (Ok (BReadyForQuery st))), c') → owed c = S (owed c');
  owed_next_other m c c' :
    conn_next c = (Ready (Some (Ok m)), c') → (∀ st, m ≠ BReadyForQuery st) → owed c' = owed c;
  owed_cancel r c c' : conn_cancel c = (Ready r, c') → owed c' = owed c;
  owed_query sql c c' :
    conn_simple_query sql c = (Ready (Ok ()), c') → owed c' = owed c;
  owed_set_status st c : owed (set_transaction_status st c) = owed c;
  owed_set_param n v c : owed (set_server_parameter n v c) = owed c;
  discard_idle c c' :
    conn_simple_query "DISCARD ALL" c = (Ready (Ok ()), c') →
    transaction_status c' = transaction_status c;
  rollback_idle c c' :
    conn_simple_query "ROLLBACK" c = (Ready (Ok ()), c') → transaction_status c' = Idle;
}.

Section Hygiene.
Context `{P : Platform} {F : Fuel} {S : ServerLaws P}.

(** A successful drain consumes one [ReadyForQuery], whatever precedes it. *)
Lemma drain_go_owed n c c' : drain_go n c = (Ready (Ok ()), c') → owed c = Datatypes.S (owed c').
Proof.
  revert c. induction n as [|n IH]; intros c; simpl; [done|].
  intros (item & c1 & Hn & H)%bind_ready_inv.
  destruct item as [[m|e]|]; [|by async_inv|by async_inv].
  assert ((∃ st, m = BReadyForQuery st) ∨ (∀ st, m ≠ BReadyForQuery st)) as [[st ->]|Hm].
  { destruct m; eauto. }
  - async_inv. rewrite owed_set_status. by eapply owed_next_ready.
  - pose proof (owed_next_other _ _ _ Hn Hm) as Ho.
    destruct m; try (apply IH in H; lia); [|by destruct (Hm status)].
    async_inv. match goal with H : drain_go _ _ = _ |- _ => apply IH in H end.
    rewrite owed_set_param in *. lia.
Qed.

Lemma drain_owed c c' : drain_until_ready c = (Ready (Ok ()), c') → owed c = Datatypes.S (owed c').
Proof. apply drain_go_owed. Qed.

(** [Sync] and drain: balanced. *)
Lemma close_cycle_owed c c' : close_cycle c = (Ready (Ok ()), c') → owed c' = owed c.
Proof.
  intros [(u & c1 & Hs & Hd)|(e & _ & ?)]%try_bind_ready_inv; [|done].
  destruct u. apply owed_sync in Hs. apply drain_owed in Hd. lia.
Qed.

(** [settle] up to its timed drain. *)
Definition settle_begin (send_copy_fail awaiting : bool) :
    async PgWireClient (result PgWireClientError unit) :=
  _ ←? (if send_copy_fail
        then conn_send (FCopyFail "pgferry: client disconnected during COPY")
        else mret (Ok ()));
  _ ← (if awaiting then conn_cancel else mret (Ok ()));
  mret (Ok ()).

(** The timed drain of [settle]: either it saw the end of the cycle in time, or
    the cycle is closed with a [Sync]. *)
Lemma settle_owed copy_fail awaiting c c' :
  settle copy_fail awaiting c = (Ready (Ok ()), c') →
  owed c = Datatypes.S (owed c') ∨
  (∃ c1 c2, settle_begin copy_fail awaiting c = (Ready (Ok ()), c1) ∧
            drain_until_ready c1 = (Pending, c2) ∧ owed c' = owed c2).
Proof.
  intros [(u & c1 & Hs & H)|(e & _ & ?)]%try_bind_ready_inv; [|done].
  assert (owed c1 = owed c) as H1.
  { destruct copy_fail; [destruct u; by eapply owed_copy_fail|by async_inv]. }
  apply bind_ready_inv in H as (r & c2 & Hc & H).
  assert (owed c2 = owed c1) as H2.
  { destruct awaiting; [by eapply owed_cancel|by async_inv]. }
  apply bind_ready_inv in H as (o & c3 & Ht & H).
  apply timeout_ready_inv in Ht as [(r' & -> & Hd)|(-> & Hd)].
  - async_inv. apply drain_owed in Hd. left. lia.
  - apply close_cycle_owed in H. right. exists c2, c3. split; [|done].
    unfold settle_begin. rewrite (try_bind_ok _ _ _ _ _ Hs). by rewrite (bind_ready _ _ _ _ _ Hc).
Qed.

(** The tail of [sanitize] after the cycle was closed. *)
Lemma sanitize_tail_owed h c c' :
  sanitize h c = (Ready (Ok ()), c') →
  ∃ c1, (if decide (copy h = ClientOwesCopy) then settle true (awaiting_response h)
         else if awaiting_response h then settle false true
         else close_cycle) c = (Ready (Ok ()), c1) ∧ owed c' = owed c1 ∧
        transaction_status c' = Idle.
Proof.
  intros [(u & c1 & Hs & H)|(e & _ & ?)]%try_bind_ready_inv; [|done].
  destruct u. exists c1. split; [done|].
  apply bind_ready_inv in H as (st & c2 & Hg & H). unfold gets in Hg. simplify_eq.
  apply try_bind_ready_inv in H as [(u & c3 & Hr & H)|(e & _ & ?)]; [|done].
  apply try_bind_ready_inv in H as [(u' & c4 & Hd & H)|(e & _ & ?)]; [|done].
  destruct u, u'. async_inv. rewrite (owed_query _ _ _ Hd), (discard_idle _ _ Hd).
  case_decide as Hst.
  - rewrite (owed_query _ _ _ Hr), (rollback_idle _ _ Hr). done.
  - async_inv. done.
Qed.

(** What the pump's hygiene record has to say about a connection: a cycle is
    in flight only if it was noted, and at most one. *)
Definition hygiene_matches (h : Hygiene) (c : PgWireClient) : Prop :=
  if decide (copy h = ClientOwesCopy ∨ awaiting_response h = true)
  then owed c ≤ 1 else owed c = 0.

(** A cancelled cycle delivers its [ReadyForQuery] within the drain window: a
    drain that times out left nothing owed. *)
Definition drains_in_time (h : Hygiene) (c : PgWireClient) : Prop :=
  ∀ c1 c2, settle_begin (bool_decide (copy h = ClientOwesCopy)) (awaiting_response h) c =
             (Ready (Ok ()), c1) →
           drain_until_ready c1 = (Pending, c2) → owed c2 = 0.

Lemma sanitize_owes_nothing h c c' :
  hygiene_matches h c → drains_in_time h c → sanitize h c = (Ready (Ok ()), c') → owed c' = 0.
Proof.
  unfold hygiene_matches, drains_in_time.
  intros Hm Hd (c1 & Hs & -> & _)%sanitize_tail_owed.
  destruct (decide (copy h = ClientOwesCopy)) as [Hcp|Hcp].
  - rewrite decide_True in Hm by auto. rewrite bool_decide_true in Hd by done.
    apply settle_owed in Hs as [?|(? & ? & ? & ? & ->)]; [lia|eauto].
  - rewrite bool_decide_false in Hd by done. destruct (awaiting_response h).
    + rewrite decide_True in Hm by auto.
      apply settle_owed in Hs as [?|(? & ? & ? & ? & ->)]; [lia|eauto].
    + rewrite decide_False in Hm by (by intros [?|?]). apply close_cycle_owed in Hs. lia.
Qed.

(** C8: a connection that [sanitize] accepts is neutral: outside a transaction
    and with no response left unread, provided the hygiene record matches the
    connection and a cancelled cycle that still owes its [ReadyForQuery]
    delivers it within the drain window. *)
Theorem sanitize_neutral h c c' :
  hygiene_matches h c → drains_in_time h c → sanitize h c = (Ready (Ok ()), c') →
  owed c' = 0 ∧ transaction_status c' = Idle.
Proof.
  intros Hm Hd Hs. split; [by eapply sanitize_owes_nothing|].
  by apply sanitize_tail_owed in Hs as (_ & _ & _ & ?).
Qed.

(** Without a noted cycle [sanitize] consumes exactly what it sends: a
    [ReadyForQuery] that was already on its way (a second cycle pipelined by the
    client) is still unread when the connection is parked. *)
Theorem sanitize_keeps_unnoted h c c' :
  copy h ≠ ClientOwesCopy → awaiting_response h = false →
  sanitize h c = (Ready (Ok ()), c') → owed c' = owed c.
Proof.
  intros Hc Ha (c1 & Hs & -> & _)%sanitize_tail_owed.
  rewrite decide_False in Hs by done. rewrite Ha in Hs. by apply close_cycle_owed.
Qed.

(** ** Permits *)

Context {L : PlatformLaws P}.

Lemma in_env_now w : ∃ t w', in_env instant_now w = (Ready t, w') ∧ pool w' = pool w.
Proof.
  unfold in_env, zoom. destruct (clock_ready (env w)) as (t & e & ->). eauto.
Qed.

(** Parking or evicting completes, and gives the permit back. *)
Lemma park_or_evict_total c t w :
  ∃ w', park_or_evict c t w = (Ready (), w') ∧
    permits (pool w') = Datatypes.S (permits (pool w)) ∧
    active (metrics (pool w')) = active (metrics (pool w)) ∧
    ((idle (pool w') = idle (pool w) ∧
      ∃ now e, instant_now (env w) = (Ready now, e) ∧ is_expired now t (pool w) = true) ∨
     ∃ now, idle (pool w') = idle (pool w) ++ [MkParked c now t]).
Proof.
  unfold park_or_evict. destruct (in_env_now w) as (now & w1 & H1 & Hp1).
  assert (∃ e, instant_now (env w) = (Ready now, e)) as [e Hnow].
  { revert H1. unfold in_env, zoom. destruct (instant_now _) as [? e]. intros [= -> _]. by exists e. }
  rewrite (bind_ready _ _ _ _ _ H1).
  rewrite (bind_ready _ _ _ (is_expired now t (pool w1)) w1) by done.
  rewrite Hp1. destruct (is_expired now t (pool w)) eqn:He.
  - eexists. split; [reflexivity|]. simpl. rewrite Hp1. eauto 10.
  - destruct (in_env_now w1) as (now2 & w2 & H2 & Hp2). rewrite (bind_ready _ _ _ _ _ H2).
    eexists. split; [reflexivity|]. simpl. rewrite Hp2, Hp1. eauto 10.
Qed.

(** C14: returning a connection always completes and gives its permit back,
    whatever the server does: the cleanup is under a timeout and every outcome
    (parked, evicted, dropped) releases the permit and leaves [active] one
    lower.  A connection that could not be sanitized is never parked. *)
Theorem checkin_total l h w :
  ∃ w', checkin l h w = (Ready (), w') ∧
    permits (pool w') = Datatypes.S (permits (pool w)) ∧
    active (metrics (pool w')) = dec (active (metrics (pool w))) ∧
    (idle (pool w') = idle (pool w) ∨
     ∃ c now, sanitize h (conn l) = (Ready (Ok ()), c) ∧
              idle (pool w') = idle (pool w) ++ [MkParked c now (lease_created_at l)]).
Proof.
  unfold checkin. rewrite (bind_ready _ _ _ () (w <| pool ::= begin_checkin |>)) by done.
  destruct (timeout_never_pending (sanitize h) (conn l)) as (o & c & Ht).
  rewrite (bind_ready _ _ _ (o, c) (w <| pool ::= begin_checkin |>))
    by (unfold on_conn; by rewrite Ht).
  assert (∃ w', (_ ← in_env instant_now; _ ← on_pool note_dropped; on_pool release)
            (w <| pool ::= begin_checkin |>) = (Ready (), w') ∧
    permits (pool w') = Datatypes.S (permits (pool w)) ∧
    active (metrics (pool w')) = dec (active (metrics (pool w))) ∧
    idle (pool w') = idle (pool w)) as (w0 & H0 & ? & ? & ?).
  { destruct (in_env_now (w <| pool ::= begin_checkin |>)) as (t & w1 & H1 & Hp).
    rewrite (bind_ready _ _ _ _ _ H1). eexists. split; [reflexivity|]. simpl. by rewrite Hp. }
  destruct o as [[[]|e]|]; [|by eauto 10..].
  destruct (park_or_evict_total c (lease_created_at l) (w <| pool ::= begin_checkin |>))
    as (w1 & Hw & Hp & Ha & Hi).
  exists w1. do 3 (split; [done|]). destruct Hi as [[Hi _]|[now Hi]]; [by left|right].
  apply timeout_ready_inv in Ht as [(a & [= <-] & Hs)|[? _]]; [|done]. eauto.
Qed.

(** The connection [checkin_detached] parks: as it is when clean, after a
    successful [DISCARD ALL] when dirty. *)
Definition reset_done (dirty : bool) (c c' : PgWireClient) : Prop :=
  if dirty then conn_simple_query "DISCARD ALL" c = (Ready (Ok ()), c') else c' = c.

(** [p'] is [p] with the lease [l] handed back: the permit is there again, and
    the connection is parked last in, reset if it is [dirty], unless its lifetime
    is over by the clock or the reset failed. *)
Definition handed_back (l : UpstreamLease) (dirty : bool) (e : Env) (p p' : PoolInner) : Prop :=
  permits p' = Datatypes.S (permits p) ∧
  active (metrics p') = dec (active (metrics p)) ∧
  ((∃ c now, reset_done dirty (conn l) c ∧ idle p' = idle p ++ [MkParked c now (lease_created_at l)]) ∨
   idle p' = idle p ∧
     ((∃ now e', instant_now e = (Ready now, e') ∧ is_expired now (lease_created_at l) p = true) ∨
      ∀ c, ¬ reset_done dirty (conn l) c)).

Lemma checkin_detached_returns l dirty w :
  ∃ w', checkin_detached l dirty w = (Ready (), w') ∧ handed_back l dirty (env w) (pool w) (pool w').
Proof.
  unfold checkin_detached. rewrite (bind_ready _ _ _ () (w <| pool ::= begin_checkin |>)) by done.
  assert (∃ o c, (if dirty
        then on_conn (conn l) (timeout (conn_simple_query "DISCARD ALL"))
        else mret (Some (Ok ()), conn l)) (w <| pool ::= begin_checkin |>) =
      (Ready (o, c), w <| pool ::= begin_checkin |>) ∧
      (o = Some (Ok ()) ∧ reset_done dirty (conn l) c ∨
       o ≠ Some (Ok ()) ∧ ∀ c', ¬ reset_done dirty (conn l) c')) as (o & c & Ho & Hr).
  { destruct dirty; [|eexists _, _; split; [reflexivity|by left]].
    destruct (timeout_never_pending (conn_simple_query "DISCARD ALL") (conn l)) as (o & c & Ht).
    exists o, c. unfold on_conn. rewrite Ht. split; [done|]. unfold reset_done.
    apply timeout_ready_inv in Ht as [([[]|e] & -> & Hs)|[-> Hs]]; [by left|right..];
      (split; [done|]; intros c'; rewrite Hs; done). }
  rewrite (bind_ready _ _ _ _ _ Ho). unfold handed_back.
  destruct Hr as [[-> Hr]|[Hno Hr]].
  - set (w1 := w <| pool ::= begin_checkin |> <| pool ::= λ p, p <| p_baseline := Some (server_parameters c) |> |>).
    destruct (park_or_evict_total c (lease_created_at l) w1) as (w2 & Hw & Hp & Ha & Hi).
    exists w2. do 3 (split; [done|]). destruct Hi as [[Hi He]|[now Hi]]; [right|left; eauto].
    split; [done|left]. exact He.
  - destruct o as [[[]|e]|]; [done|..]; eexists; (split; [reflexivity|]); simpl; eauto 10.
Qed.

Lemma checkin_detached_total l dirty w :
  ∃ w', checkin_detached l dirty w = (Ready (), w') ∧
    permits (pool w') = Datatypes.S (permits (pool w)) ∧
    active (metrics (pool w')) = dec (active (metrics (pool w))) ∧
    (idle (pool w') = idle (pool w) ∨
     ∃ c now, reset_done dirty (conn l) c ∧
              idle (pool w') = idle (pool w) ++ [MkParked c now (lease_created_at l)]).
Proof.
  destruct (checkin_detached_returns l dirty w) as (w' & Hw & Hp & Ha & Hi).
  exists w'. do 3 (split; [done|]). destruct Hi as [?|[? _]]; auto.
Qed.

(** The idle loop ends: every round removes a parked connection, and the probe
    of a stale one is under a timeout. *)
Lemma probe_never_pending c : ∃ r c', probe c = (Ready r, c').
Proof.
  unfold probe. destruct (timeout_never_pending (_ ←? conn_send FSync; drain_until_ready) c)
    as (o & c' & Ho). rewrite (bind_ready _ _ _ _ _ Ho). destruct o; by eexists _, _.
Qed.

Definition same_limits (p p' : PoolInner) : Prop :=
  permits p' = permits p ∧ p_connect p' = p_connect p.

Lemma pop_loop_total n w :
  length (idle (pool w)) < n →
  ∃ r w', pop_loop n w = (Ready r, w') ∧ same_limits (pool w) (pool w').
Proof.
  unfold same_limits. revert w. induction n as [|n IH]; intros w Hn; [lia|]. simpl.
  destruct (pop_idle (pool w)) as [[k p]|] eqn:Hpop.
  2: { rewrite (bind_ready _ _ _ None w) by by rewrite Hpop. by eexists _, _. }
  rewrite (bind_ready _ _ _ (Some k) (w <| pool := p |>)) by by rewrite Hpop.
  assert (permits p = permits (pool w) ∧ p_connect p = p_connect (pool w) ∧ length (idle p) < n)
    as (<- & <- & Hlen).
  { unfold pop_idle in Hpop. destruct (vec_pop (idle (pool w))) as [[x r]|] eqn:Hv; simplify_eq.
    apply vec_pop_length in Hv. simpl. split_and!; [done|done|lia]. }
  destruct (in_env_now (w <| pool := p |>)) as (t1 & w1 & H1 & Hp1). simpl in Hp1.
  rewrite (bind_ready _ _ _ _ _ H1).
  rewrite (bind_ready _ _ _ (is_expired t1 (pk_created_at k) (pool w1)) w1) by done.
  rewrite <-Hp1 in *. destruct (is_expired _ _ _).
  { rewrite (bind_ready _ _ _ () (w1 <| pool ::= note_evicted |>)) by done.
    exact (IH (w1 <| pool ::= note_evicted |>) Hlen). }
  destruct (in_env_now w1) as (t2 & w2 & H2 & Hp2). rewrite <-Hp2 in *.
  rewrite (bind_ready _ _ _ _ _ H2).
  rewrite (bind_ready _ _ _ (is_stale t2 (idle_since k) (pool w2)) w2) by done.
  destruct (is_stale _ _ _); [|by eexists _, _].
  rewrite (bind_ready _ _ _ () (w2 <| pool ::= note_probed |>)) by done.
  destruct (probe_never_pending (pk_conn k)) as (r & c & Hpr).
  rewrite (bind_ready _ _ _ (r, c) (w2 <| pool ::= note_probed |>)) by (unfold on_conn; by rewrite Hpr).
  destruct r; [by eexists _, _|].
  rewrite (bind_ready _ _ _ () (w2 <| pool ::= note_probed |> <| pool ::= note_dropped |>)) by done.
  exact (IH (w2 <| pool ::= note_probed |> <| pool ::= note_dropped |>) Hlen).
Qed.

(** C15: [checkout] completes whenever a permit is free and the connect attempt
    of the factory ends: with a lease, one permit taken, or with the connect
    error and the permit back.  Stale and expired connections, however many,
    and servers that never answer the probe do not block it. *)
Theorem checkout_completes w n :
  permits (pool w) = Datatypes.S n →
  (∀ e, ∃ r e', p_connect (pool w) e = (Ready r, e')) →
  ∃ r w', checkout w = (Ready r, w') ∧
    permits (pool w') = if is_err r then Datatypes.S n else n.
Proof.
  intros Hn Hf.
  set (w0 := w <| pool := count (λ m, m <| waiting ::= dec |>) ((begin_wait (pool w)) <| permits := n |>) |>).
  unfold checkout. rewrite (bind_ready _ _ _ () w0).
  2: { unfold enter_pool. rewrite (bind_ready _ _ _ () (w <| pool ::= begin_wait |>)) by done.
       unfold acquire, grant. simpl. by rewrite Hn. }
  unfold admitted_checkout. rewrite (bind_ready _ _ _ (length (idle (pool w0))) w0) by done.
  destruct (pop_loop_total (Datatypes.S (length (idle (pool w0)))) w0) as (r & w1 & H1 & Hp1 & Hc1); [lia|].
  change (permits (pool w1) = n) in Hp1. change (p_connect (pool w1) = p_connect (pool w)) in Hc1.
  rewrite (bind_ready _ _ _ _ _ H1). destruct r as [[c t]|].
  { by eexists _, _. }
  rewrite (bind_ready _ _ _ (p_connect (pool w)) w1) by (unfold gets; by rewrite Hc1).
  destruct (Hf (env w1)) as (r & e & He).
  rewrite (bind_ready _ _ _ r (w1 <| env := e |>)) by (unfold in_env, zoom; by rewrite He).
  destruct r as [c|err].
  - rewrite (bind_ready _ _ _ () (w1 <| env := e |> <| pool ::= note_created |>)) by done.
    destruct (in_env_now (w1 <| env := e |> <| pool ::= note_created |>)) as (t & w2 & H2 & Hp2).
    rewrite (bind_ready _ _ _ _ _ H2). eexists _, _. split; [reflexivity|]. simpl. by rewrite Hp2.
  - eexists _, _. split; [reflexivity|]. simpl. by rewrite Hp1.
Qed.

End Hygiene.

(** ** The reference server keeps the laws *)

Definition is_ready (m : result string PgWireBackendMessage) : bool :=
  match m with Ok (BReadyForQuery _) => true | _ => false end.

Definition ref_owed (c : RefConn) : nat := length (List.filter is_ready (inbox c)).

#[global] Program Instance ref_server : ServerLaws ref_platform := {| owed := ref_owed |}.
Next Obligation.
  intros c c'. simpl. unfold ref_send. destruct (dead c); intros [= <-].
  unfold ref_owed. simpl. rewrite List.filter_app, length_app. simpl. lia.
Qed.
Next Obligation.
  intros s c c'. simpl. unfold ref_send. destruct (dead c); intros [= <-].
  unfold ref_owed. simpl. by rewrite app_nil_r.
Qed.
Next Obligation.
  intros st c c'. simpl. unfold ref_next, ref_owed. destruct (inbox c); [by destruct (dead c)|].
  intros; simplify_eq/=. done.
Qed.
Next Obligation.
  intros m c c'. simpl. unfold ref_next, ref_owed. destruct (inbox c); [by destruct (dead c)|].
  intros; simplify_eq/=. destruct m; naive_solver.
Qed.
Next Obligation. intros r c c'. simpl. intros; by simplify_eq. Qed.
Next Obligation.
  intros sql c c'. simpl. unfold ref_simple_query. destruct (dead c); [done|].
  by repeat case_decide; intros [= <-].
Qed.
Next Obligation. done. Qed.
Next Obligation. done. Qed.
Next Obligation.
  intros c c'. simpl. unfold ref_simple_query. destruct (dead c); [done|].
  by repeat case_decide; intros [= <-].
Qed.
Next Obligation.
  intros c c'. simpl. unfold ref_simple_query. destruct (dead c); [done|].
  by repeat case_decide; intros [= <-].
Qed.
