(* ===== verification/PoolSystem.v ===== *)
(** * Many tasks on one pool

    Sessions, scatter legs and the sweeper share a pool; between two awaits a
    task runs one of the atomic steps of Pool.v.  The step relation interleaves
    them in any order, with any outcome of the awaited operations, and lets a
    future be dropped at any await.  Theorems: the pool never has more
    connections than its capacity; the gauges are exact up to dropped futures;
    [checkout] and [checkin] are runs of the system. *)

From S2P Require Import Prelude RustStr Messages Config Upstream Pool.

Section System.
Context `{P : Platform} {F : Fuel}.

(** Where a task stands. *)
Inductive Task :=
| TWaiting                                 (* in [acquire_owned().await] *)
| TAcquired                                (* permit held, in the idle loop *)
| TProbing (k : Parked)                    (* probing a popped connection *)
| TConnecting                              (* idle stack was empty *)
| TLeased (l : UpstreamLease)
| TReturning (l : UpstreamLease)           (* in [checkin]'s cleanup *)
| TParked.                                 (* pushed, permit not yet dropped *)

(** The pool, its tasks, and how many leases and waiting futures were dropped
    without being returned. *)
Record Sys := MkSys {
  sys_pool : PoolInner;
  tasks : list Task;
  lost_leases : nat;
  lost_waiters : nat
}.

(** [t] becomes the tasks [ts'] while the pool goes from [p] to [p']. *)
Inductive task_step : PoolInner → Task → PoolInner → list Task → Prop :=
| step_acquire p p' : grant p = Some p' → task_step p TWaiting p' [TAcquired]
| step_pop_expired p k p' now :
    pop_idle p = Some (k, p') → is_expired now (pk_created_at k) p' = true →
    task_step p TAcquired (note_evicted p') [TAcquired]
| step_pop_stale p k p' now now' :
    pop_idle p = Some (k, p') → is_expired now (pk_created_at k) p' = false →
    is_stale now' (idle_since k) p' = true →
    task_step p TAcquired (note_probed p') [TProbing k]
| step_pop_fresh p k p' now now' :
    pop_idle p = Some (k, p') → is_expired now (pk_created_at k) p' = false →
    is_stale now' (idle_since k) p' = false →
    task_step p TAcquired
      (finish_checkout (pk_conn k) (pk_created_at k) p').2
      [TLeased (finish_checkout (pk_conn k) (pk_created_at k) p').1]
| step_probe_fail p k :
    task_step p (TProbing k) (note_dropped p) [TAcquired]
| step_probe_ok p k c :
    task_step p (TProbing k) (finish_checkout c (pk_created_at k) p).2
      [TLeased (finish_checkout c (pk_created_at k) p).1]
| step_pop_none p : pop_idle p = None → task_step p TAcquired p [TConnecting]
| step_connect_err p : task_step p TConnecting (release (note_dropped p)) []
| step_connect_ok p c now :
    task_step p TConnecting (finish_checkout c now (note_created p)).2
      [TLeased (finish_checkout c now (note_created p)).1]
| step_use p l c :
    task_step p (TLeased l) p [TLeased (l <| conn := c |>)]
| step_destroy p l : task_step p (TLeased l) (destroy p) []
| step_checkin p l : task_step p (TLeased l) (begin_checkin p) [TReturning l]
| step_snapshot p l params :
    task_step p (TReturning l) (p <| p_baseline := Some params |>) [TReturning l]
| step_park p l c now :
    task_step p (TReturning l) (park c now (lease_created_at l) p) [TParked]
| step_evict p l : task_step p (TReturning l) (release (note_evicted p)) []
| step_unclean p l : task_step p (TReturning l) (release (note_dropped p)) []
| step_parked p : task_step p TParked (release p) [].

(** Whether a dropped future gives a permit back. *)
Definition holds_permit (t : Task) : bool :=
  match t with TWaiting => false | _ => true end.

(** Whether a task owns (or is opening) a connection. *)
Definition has_conn (t : Task) : bool :=
  match t with
  | TProbing _ | TConnecting | TLeased _ | TReturning _ => true
  | _ => false
  end.

Definition is_leased (t : Task) : bool :=
  match t with TLeased _ => true | _ => false end.

Definition is_waiting (t : Task) : bool :=
  match t with TWaiting => true | _ => false end.

Inductive step : Sys → Sys → Prop :=
| step_new p ts ll lw :
    step (MkSys p ts ll lw) (MkSys (begin_wait p) (TWaiting :: ts) ll lw)
| step_task p ts1 t ts2 p' ts' ll lw :
    task_step p t p' ts' →
    step (MkSys p (ts1 ++ t :: ts2) ll lw) (MkSys p' (ts1 ++ ts' ++ ts2) ll lw)
| step_drop p ts1 t ts2 ll lw :
    step (MkSys p (ts1 ++ t :: ts2) ll lw)
      (MkSys (if holds_permit t then release p else p) (ts1 ++ ts2)
        (if is_leased t then S ll else ll) (if is_waiting t then S lw else lw))
| step_sweep p ts ll lw now :
    step (MkSys p ts ll lw) (MkSys (sweep now p) ts ll lw).

Definition steps : Sys → Sys → Prop := rtc step.

Definition init (k : PoolKey) (c : PoolConfig) (f : ConnectFactory) : Sys :=
  MkSys (Pool_new k c f) [] 0 0.

Definition reachable (k : PoolKey) (c : PoolConfig) (f : ConnectFactory) (s : Sys) : Prop :=
  steps (init k c f) s.

Definition capacity (p : PoolInner) : nat := Nat.max (max_size (p_config p)) 1.

(** Number of tasks satisfying [f]. *)
Definition tally (f : Task → bool) (ts : list Task) : nat := length (List.filter f ts).

Lemma tally_app f ts1 ts2 : tally f (ts1 ++ ts2) = tally f ts1 + tally f ts2.
Proof. unfold tally. by rewrite List.filter_app, length_app. Qed.

Lemma tally_cons f t ts : tally f (t :: ts) = (if f t then 1 else 0) + tally f ts.
Proof. unfold tally. simpl. by destruct (f t). Qed.

Lemma tally_nil f : tally f [] = 0.
Proof. done. Qed.
#[local] Opaque tally.

(** Connections in existence: parked, owned, or being opened. *)
Definition connections (s : Sys) : nat := length (idle (sys_pool s)) + tally has_conn (tasks s).

(** ** The capacity invariant *)

Definition sys_inv (s : Sys) : Prop :=
  permits (sys_pool s) + tally holds_permit (tasks s) = capacity (sys_pool s) ∧
  connections s ≤ capacity (sys_pool s).

(** The same accounting at one task: what the step changes. *)
Definition task_inv (p : PoolInner) (ts : list Task) (held conns : nat) : Prop :=
  permits p + (tally holds_permit ts + held) = capacity p ∧
  length (idle p) + (tally has_conn ts + conns) ≤ capacity p ∧ conns ≤ held.

Lemma pop_idle_length p k p' :
  pop_idle p = Some (k, p') →
  length (idle p) = S (length (idle p')) ∧ permits p' = permits p ∧ p_config p' = p_config p ∧
  metrics p' = metrics p ∧ p_key p' = p_key p.
Proof.
  unfold pop_idle. destruct (vec_pop (idle p)) as [[x r]|] eqn:Hp; intros; simplify_eq.
  apply vec_pop_length in Hp. done.
Qed.

Lemma grant_Some p p' :
  grant p = Some p' →
  permits p = S (permits p') ∧ idle p' = idle p ∧ p_config p' = p_config p ∧
  metrics p' = (metrics p) <| waiting ::= dec |> ∧ p_key p' = p_key p.
Proof. unfold grant. destruct (permits p) eqn:?; intros; simplify_eq. done. Qed.

Lemma task_step_inv p t p' ts' held conns :
  task_step p t p' ts' → task_inv p [t] held conns → task_inv p' ts' held conns.
Proof.
  unfold task_inv, capacity. destruct 1; rewrite ?tally_cons, ?tally_nil; simpl;
    try match goal with H : pop_idle _ = Some _ |- _ =>
      apply pop_idle_length in H as (? & ? & ? & ? & ?) end;
    try match goal with H : pop_idle _ = None |- _ =>
      unfold pop_idle in H; destruct (vec_pop (idle p)) as [[? ?]|] eqn:Hv; [done|];
      apply vec_pop_None in Hv as -> end;
    try match goal with H : grant _ = Some _ |- _ =>
      apply grant_Some in H as (? & ? & ? & ? & ?) end;
    rewrite ?length_app; simpl in *; repeat match goal with H : _ = _ |- _ => rewrite H in * end;
    lia.
Qed.

Lemma has_conn_le_holds ts : tally has_conn ts ≤ tally holds_permit ts.
Proof.
  induction ts as [|t ts IH]; [done|]. rewrite !tally_cons. destruct t; simpl; lia.
Qed.

Lemma sweep_facts now p :
  length (idle (sweep now p)) ≤ length (idle p) ∧ permits (sweep now p) = permits p ∧
  p_config (sweep now p) = p_config p ∧ p_key (sweep now p) = p_key p ∧
  active (metrics (sweep now p)) = active (metrics p) ∧
  waiting (metrics (sweep now p)) = waiting (metrics p) ∧
  checkouts (metrics (sweep now p)) = checkouts (metrics p) ∧
  reused (metrics (sweep now p)) = reused (metrics p).
Proof.
  unfold sweep. pose proof (List.filter_length_le (λ k, negb (swept now (p_config p) k)) (idle p)).
  case_bool_decide; simpl; auto 10.
Qed.

Lemma step_inv s s' : step s s' → sys_inv s → sys_inv s'.
Proof.
  unfold sys_inv, connections. destruct 1 as [p ts ll lw|p ts1 t ts2 p' ts' ll lw Hst
    |p ts1 t ts2 ll lw|p ts ll lw now]; simpl.
  - rewrite !tally_cons. simpl. done.
  - rewrite !tally_app, !tally_cons. intros [Hp Hc].
    pose proof (has_conn_le_holds ts1). pose proof (has_conn_le_holds ts2).
    edestruct (task_step_inv _ _ _ _ (tally holds_permit ts1 + tally holds_permit ts2)
      (tally has_conn ts1 + tally has_conn ts2) Hst) as (? & ? & ?); [|lia].
    unfold task_inv. rewrite !tally_cons, !tally_nil. lia.
  - rewrite !tally_app, !tally_cons. destruct t; simpl; unfold capacity; simpl; lia.
  - destruct (sweep_facts now p) as (? & ? & Hcfg & ?). unfold capacity. rewrite Hcfg. lia.
Qed.

Lemma steps_inv s s' : steps s s' → sys_inv s → sys_inv s'.
Proof. induction 1; eauto using step_inv. Qed.

Lemma init_inv k c f : sys_inv (init k c f).
Proof. unfold sys_inv, connections, capacity. simpl. rewrite !tally_nil. lia. Qed.

Lemma step_config s s' : step s s' → p_config (sys_pool s') = p_config (sys_pool s).
Proof.
  destruct 1 as [|p ts1 t ts2 p' ts' ll lw Hst| |]; simpl; try done.
  - destruct Hst; simpl; try done;
      by first [match goal with H : pop_idle _ = Some _ |- _ =>
                  apply pop_idle_length in H as (? & ? & ? & ? & ?) end
               |match goal with H : grant _ = Some _ |- _ =>
                  apply grant_Some in H as (? & ? & ? & ? & ?) end].
  - by case_match.
  - apply sweep_facts.
Qed.

Lemma reachable_config k c f s : reachable k c f s → p_config (sys_pool s) = c.
Proof.
  intros H. apply (rtc_ind_r (λ s, p_config (sys_pool s) = c) (init k c f)) in H; [done|done|].
  intros s1 s2 _ Hst IH. by rewrite (step_config _ _ Hst).
Qed.

(** C1: whatever the interleaving of checkouts, checkins, probes, failed
    connects, sweeps and dropped futures, the pool never has more connections
    (parked, checked out, or being opened) than [max_size] (at least one), and
    the permits left are the capacity minus the tasks holding one. *)
Theorem pool_capacity k c f s :
  reachable k c f s →
  connections s ≤ Nat.max (max_size c) 1 ∧
  permits (sys_pool s) + tally holds_permit (tasks s) = Nat.max (max_size c) 1.
Proof.
  intros Hr. pose proof (reachable_config _ _ _ _ Hr) as Hc.
  destruct (steps_inv _ _ Hr (init_inv k c f)) as [? ?]. unfold capacity in *.
  rewrite Hc in *. lia.
Qed.

(** ** The gauges *)

Definition gauge_inv (s : Sys) : Prop :=
  active (metrics (sys_pool s)) = wrap_i 64 (Z.of_nat (tally is_leased (tasks s) + lost_leases s)) ∧
  waiting (metrics (sys_pool s)) = wrap_i 64 (Z.of_nat (tally is_waiting (tasks s) + lost_waiters s)) ∧
  reused (metrics (sys_pool s)) = checkouts (metrics (sys_pool s)).

Lemma inc_wrap z : inc (wrap_i 64 z) = wrap_i 64 (z + 1).
Proof. unfold inc, i64_add. apply wrap_i_add_idemp. Qed.

Lemma dec_wrap z : dec (wrap_i 64 z) = wrap_i 64 (z - 1).
Proof. unfold dec, i64_sub. rewrite <-!Z.add_opp_r. apply wrap_i_add_idemp. Qed.

(** The gauges around one task, the others counting [nl] leases and [nw]
    waiting futures. *)
Definition task_gauges (p : PoolInner) (ts : list Task) (nl nw : nat) : Prop :=
  active (metrics p) = wrap_i 64 (Z.of_nat (tally is_leased ts + nl)) ∧
  waiting (metrics p) = wrap_i 64 (Z.of_nat (tally is_waiting ts + nw)) ∧
  reused (metrics p) = checkouts (metrics p).

Lemma task_step_gauges p t p' ts' nl nw :
  task_step p t p' ts' → task_gauges p [t] nl nw → task_gauges p' ts' nl nw.
Proof.
  unfold task_gauges. destruct 1; rewrite ?tally_cons, ?tally_nil; simpl;
    try match goal with H : pop_idle _ = Some _ |- _ =>
      apply pop_idle_length in H as (? & ? & ? & Hm & ?); rewrite Hm end;
    try match goal with H : grant _ = Some _ |- _ =>
      apply grant_Some in H as (? & ? & ? & Hm & ?); rewrite Hm end;
    simpl; intros (-> & -> & ->); rewrite ?inc_wrap, ?dec_wrap;
    repeat split; f_equal; lia.
Qed.

Lemma step_gauges s s' : step s s' → gauge_inv s → gauge_inv s'.
Proof.
  unfold gauge_inv. destruct 1 as [p ts ll lw|p ts1 t ts2 p' ts' ll lw Hst
    |p ts1 t ts2 ll lw|p ts ll lw now]; simpl.
  - rewrite !tally_cons. simpl. intros (-> & -> & ->). rewrite inc_wrap.
    repeat split; f_equal; lia.
  - rewrite !tally_app, !tally_cons. intros (Ha & Hw & Hr).
    edestruct (task_step_gauges _ _ _ _ (tally is_leased ts1 + tally is_leased ts2 + ll)
      (tally is_waiting ts1 + tally is_waiting ts2 + lw) Hst) as (-> & -> & ->).
    { unfold task_gauges. rewrite !tally_cons, !tally_nil, Ha, Hw, Hr.
      repeat split; f_equal; lia. }
    repeat split; f_equal; lia.
  - rewrite !tally_app, !tally_cons. destruct t; simpl; intros (-> & -> & ->);
      repeat split; f_equal; lia.
  - destruct (sweep_facts now p) as (? & ? & ? & ? & -> & -> & -> & ->). done.
Qed.

(** C21: the gauges a pool reports are exact up to abandoned futures: [active] is
    the number of leases plus the leases dropped without [checkin] or
    [destroy], [waiting] the number of waiting checkouts plus those dropped
    while waiting (neither is given back on drop); and [reused] counts every
    checkout, new connections included. *)
Theorem gauges_exact k c f s :
  reachable k c f s →
  active (metrics (sys_pool s)) =
    wrap_i 64 (Z.of_nat (tally is_leased (tasks s) + lost_leases s)) ∧
  waiting (metrics (sys_pool s)) =
    wrap_i 64 (Z.of_nat (tally is_waiting (tasks s) + lost_waiters s)) ∧
  reused (metrics (sys_pool s)) = checkouts (metrics (sys_pool s)).
Proof.
  intros Hr. change (gauge_inv s).
  assert (gauge_inv (init k c f)) as Hi by (repeat split; by vm_compute).
  revert Hi. induction Hr; eauto using step_gauges.
Qed.

(** ** The task functions are runs of the system *)

Lemma step_head p t ts p' ts' ll lw :
  task_step p t p' ts' → step (MkSys p (t :: ts) ll lw) (MkSys p' (ts' ++ ts) ll lw).
Proof. apply (step_task p []). Qed.

Lemma steps_head p t ts p' ts' ll lw s :
  task_step p t p' ts' → steps (MkSys p' (ts' ++ ts) ll lw) s → steps (MkSys p (t :: ts) ll lw) s.
Proof. intros. eapply rtc_l; [by apply step_head|done]. Qed.

Lemma in_env_pool {A} (m : async Env A) w r w' :
  in_env m w = (r, w') → pool w' = pool w.
Proof. unfold in_env, zoom. destruct (m (env w)). intros [= <- <-]. done. Qed.

Lemma on_conn_pool {S A} c (m : async PgWireClient A) (w w' : S) r :
  on_conn c m w = (r, w') → w' = w.
Proof. unfold on_conn. destruct (m c) as [[]]; by intros [= <- <-]. Qed.

Ltac pool_facts :=
  repeat match goal with
  | H : in_env _ _ = (_, ?w) |- _ => apply in_env_pool in H
  | H : on_conn _ _ _ = (_, ?w) |- _ => apply on_conn_pool in H as ->
  end.

Lemma pop_loop_steps n w r w' ts ll lw :
  pop_loop n w = (Ready r, w') →
  steps (MkSys (pool w) (TAcquired :: ts) ll lw)
    match r with
    | Some (c, t) => MkSys (finish_checkout c t (pool w')).2
                       (TLeased (finish_checkout c t (pool w')).1 :: ts) ll lw
    | None => MkSys (pool w') (TConnecting :: ts) ll lw
    end.
Proof.
  revert w. induction n as [|n IH]; intros w; simpl; [done|].
  destruct (pop_idle (pool w)) as [[k p]|] eqn:Hpop; intros H.
  - rewrite (bind_ready _ _ _ (Some k) (w <| pool := p |>)) in H by by rewrite Hpop.
    apply bind_ready_inv in H as (now & w1 & Hnow & H). pool_facts.
    apply bind_ready_inv in H as (ex & w2 & Hex & H). unfold gets in Hex. simplify_eq.
    destruct (is_expired now (pk_created_at k) (pool w2)) eqn:Hexp;
      rewrite Hnow in Hexp; simpl in Hexp.
    + unfold on_pool in H. async_inv. eapply steps_head; [by eapply step_pop_expired|].
      match goal with H : pop_loop _ _ = _ |- _ => apply IH in H; simpl in H;
        rewrite Hnow in H end. done.
    + apply bind_ready_inv in H as (now2 & w3 & Hnow2 & H). pool_facts.
      apply bind_ready_inv in H as (st & w4 & Hst & H). unfold gets in Hst. simplify_eq.
      destruct (is_stale now2 (idle_since k) (pool w4)) eqn:Hs;
        rewrite Hnow2, Hnow in Hs; simpl in Hs.
      * apply bind_ready_inv in H as (? & w5 & Hm & H). unfold on_pool, modify in Hm. simplify_eq.
        apply bind_ready_inv in H as ([rc c] & w6 & Hc & H). pool_facts.
        eapply steps_head; [by eapply step_pop_stale|].
        destruct rc.
        -- async_inv. eapply steps_head; [by eapply (step_probe_ok _ _ c)|].
           simpl. rewrite Hnow2, Hnow. apply rtc_refl.
        -- unfold on_pool in H. async_inv. eapply steps_head; [by eapply step_probe_fail|].
           match goal with H : pop_loop _ _ = _ |- _ => apply IH in H; simpl in H;
             rewrite Hnow2, Hnow in H end. done.
      * async_inv. eapply steps_head; [by eapply step_pop_fresh|].
        simpl. rewrite Hnow2, Hnow. apply rtc_refl.
  - rewrite (bind_ready _ _ _ None w) in H by by rewrite Hpop.
    async_inv. eapply steps_head; [by apply step_pop_none|]. apply rtc_refl.
Qed.

(** C16: a completed [checkout] is a run of the system that ends with the task
    holding the lease it returned, or gone and its permit given back when
    connecting failed. *)
Theorem checkout_refines w r w' ts ll lw :
  checkout w = (Ready r, w') →
  steps (MkSys (pool w) ts ll lw)
    (MkSys (pool w') (match r with Ok l => [TLeased l] | Err _ => [] end ++ ts) ll lw).
Proof.
  intros (? & w2 & H & Hadm)%bind_ready_inv.
  apply bind_ready_inv in H as (? & w1 & Hb & Ha). unfold on_pool, modify in Hb. simplify_eq.
  rename Hadm into H. unfold acquire in Ha. simpl in Ha.
  destruct (grant (begin_wait (pool w))) as [p|] eqn:Hg; simplify_eq.
  eapply rtc_l; [apply step_new|]. eapply steps_head; [by eapply step_acquire|]. simpl.
  apply bind_ready_inv in H as (n & w3 & Hn & H). unfold gets in Hn. simplify_eq.
  apply bind_ready_inv in H as (reuse & w4 & Hl & H).
  apply (pop_loop_steps _ _ _ _ ts ll lw) in Hl. simpl in Hl.
  etrans; [exact Hl|]. clear Hl. destruct reuse as [[c t]|].
  - async_inv. unfold finish in *. simplify_eq/=. apply rtc_refl.
  - apply bind_ready_inv in H as (f & w5 & Hf & H). unfold gets in Hf. simplify_eq.
    apply bind_ready_inv in H as (rc & w6 & Hc & H). pool_facts. rewrite <-Hc.
    destruct rc as [c|e].
    + apply bind_ready_inv in H as (? & w7 & Hm & H). unfold on_pool, modify in Hm. simplify_eq.
      apply bind_ready_inv in H as (now & w8 & Hnow & H). pool_facts.
      async_inv. unfold finish in *. simplify_eq/=.
      eapply steps_head; [by eapply (step_connect_ok _ c now)|]. simpl. rewrite Hnow. apply rtc_refl.
    + unfold on_pool in H. async_inv. eapply steps_head; [apply step_connect_err|]. apply rtc_refl.
Qed.

Lemma park_or_evict_steps l c w w' ts ll lw :
  park_or_evict c (lease_created_at l) w = (Ready (), w') →
  steps (MkSys (pool w) (TReturning l :: ts) ll lw) (MkSys (pool w') ts ll lw).
Proof.
  unfold park_or_evict. intros (now & w1 & H1 & H)%bind_ready_inv. pool_facts. rewrite <-H1.
  apply bind_ready_inv in H as (ex & w2 & Hex & H). unfold gets in Hex. simplify_eq.
  destruct (is_expired _ _ _).
  - unfold on_pool in H. async_inv. eapply steps_head; [apply (step_evict _ l)|]. apply rtc_refl.
  - apply bind_ready_inv in H as (now2 & w3 & H3 & H). pool_facts. rewrite <-H3.
    unfold on_pool in H. async_inv. eapply steps_head; [apply (step_park _ l c now2)|].
    eapply steps_head; [apply step_parked|]. apply rtc_refl.
Qed.

Lemma unclean_steps l p ts ll lw :
  steps (MkSys p (TReturning l :: ts) ll lw) (MkSys (release (note_dropped p)) ts ll lw).
Proof. eapply steps_head; [apply (step_unclean _ l)|]. apply rtc_refl. Qed.

(** C17: giving a connection back, by [checkin], [checkin_detached] or
    [destroy], is a run of the system that ends with the task gone: the three
    returns never leave a permit or a gauge behind. *)
Theorem return_refines l h dirty w w' ts ll lw :
  checkin l h w = (Ready (), w') ∨ checkin_detached l dirty w = (Ready (), w') ∨
    on_pool destroy w = (Ready (), w') →
  steps (MkSys (pool w) (TLeased l :: ts) ll lw) (MkSys (pool w') ts ll lw).
Proof.
  intros [H|[H|H]].
  - apply bind_ready_inv in H as (? & w1 & Hb & H). unfold on_pool, modify in Hb. simplify_eq.
    eapply steps_head; [apply step_checkin|].
    apply bind_ready_inv in H as ([r c] & w2 & Hc & H). pool_facts.
    destruct r as [[u|e]|]; [destruct u; exact (park_or_evict_steps l c _ _ ts ll lw H)| |];
      apply bind_ready_inv in H as (t & w3 & Ht & H); pool_facts; unfold on_pool in H; async_inv;
      simpl in *; rewrite Ht; apply unclean_steps.
  - apply bind_ready_inv in H as (? & w1 & Hb & H). unfold on_pool, modify in Hb. simplify_eq.
    eapply steps_head; [apply step_checkin|].
    apply bind_ready_inv in H as ([r c] & w2 & Hc & H).
    assert (w2 = w <| pool ::= begin_checkin |>) as ->.
    { destruct dirty; [by apply on_conn_pool in Hc|by injection Hc as <- <- <-]. }
    destruct r as [[u|e]|]; [|unfold on_pool in H; async_inv; apply unclean_steps..].
    apply bind_ready_inv in H as (? & w3 & Hm & H). unfold on_pool, modify in Hm. simplify_eq.
    eapply steps_head; [apply (step_snapshot _ l (server_parameters c))|].
    apply (park_or_evict_steps l c) with (ts := ts) (ll := ll) (lw := lw) in H. exact H.
  - injection H as <-. eapply steps_head; [apply (step_destroy _ l)|]. apply rtc_refl.
Qed.

(** ** What [checkout] answers *)

Lemma pop_fresh_top now1 now2 (p : PoolInner) k rest e e1 e2 n :
  idle p = rest ++ [k] → is_expired now1 (pk_created_at k) p = false →
  is_stale now2 (idle_since k) p = false →
  instant_now e = (Ready now1, e1) → instant_now e1 = (Ready now2, e2) →
  pop_loop (S n) (MkPoolWorld p e) =
  (Ready (Some (pk_conn k, pk_created_at k)), MkPoolWorld (p <| idle := rest |>) e2).
Proof.
  intros Hi Hex Hst H1 H2. simpl.
  rewrite (bind_ready _ _ _ (Some k) (MkPoolWorld (p <| idle := rest |>) e)).
  2: { unfold pop_idle. simpl. by rewrite Hi, vec_pop_push. }
  rewrite (bind_ready _ _ _ now1 (MkPoolWorld (p <| idle := rest |>) e1))
    by (unfold in_env, zoom; simpl; by rewrite H1).
  rewrite (bind_ready _ _ _ false (MkPoolWorld (p <| idle := rest |>) e1))
    by (unfold gets; by rewrite <-Hex).
  rewrite (bind_ready _ _ _ now2 (MkPoolWorld (p <| idle := rest |>) e2))
    by (unfold in_env, zoom; simpl; by rewrite H2).
  by rewrite (bind_ready _ _ _ false (MkPoolWorld (p <| idle := rest |>) e2))
    by (unfold gets; by rewrite <-Hst).
Qed.

(** Reuse is last-in first-out: with a permit free and the connection on top
    of the idle stack neither past its lifetime nor stale, [checkout] answers
    that connection, untouched, and opens none. *)
Theorem checkout_reuses_top now1 now2 (p : PoolInner) k rest e e1 e2 n :
  permits p = S n → idle p = rest ++ [k] →
  instant_now e = (Ready now1, e1) → instant_now e1 = (Ready now2, e2) →
  (duration_since now1 (pk_created_at k) ≤ max_lifetime (p_config p))%Z →
  (duration_since now2 (idle_since k) ≤ stale_after (p_config p))%Z →
  ∃ w', checkout (MkPoolWorld p e) =
      (Ready (Ok (MkUpstreamLease (pk_conn k) (pk_created_at k) (p_key p))), w') ∧
    idle (pool w') = rest ∧ permits (pool w') = n ∧
    created (metrics (pool w')) = created (metrics p).
Proof.
  intros Hp Hi H1 H2 Hex Hst.
  set (p1 := count (λ m, m <| waiting ::= dec |>) ((begin_wait p) <| permits := n |>)).
  unfold checkout. rewrite (bind_ready _ _ _ () (MkPoolWorld p1 e)).
  2: { unfold enter_pool. rewrite (bind_ready _ _ _ () (MkPoolWorld (begin_wait p) e)) by done.
       unfold acquire, grant. simpl. by rewrite Hp. }
  unfold admitted_checkout.
  rewrite (bind_ready _ _ _ (length (idle p)) (MkPoolWorld p1 e)) by done.
  rewrite (bind_ready _ _ _ _ _ (pop_fresh_top now1 now2 p1 k rest e e1 e2 (length (idle p)) Hi
    ltac:(apply bool_decide_eq_false; simpl; lia) ltac:(apply bool_decide_eq_false; simpl; lia) H1 H2)).
  by eexists.
Qed.

End System.
