(* ===== verification/Intercept.v ===== *)
(** * The extension point (intercept.rs)

    The types the hooks exchange with the session and the hook interface
    itself.  An interceptor is user code: it is an instance of the class
    [Interceptor], whose state holds both the per-session context and what the
    interceptor shares between sessions; its hooks may read the clock, so they
    run over that state and the environment.  [NoopInterceptor] and
    [FailoverRouter] (routing.rs) are the instances the sources ship. *)

From S2P Require Import Prelude RustStr Messages Config Upstream Row Routing.

(** ** Query cycles *)

(** An error snapshot in a cycle report. *)
Record CycleError := MkCycleError {
  ce_code : string;
  ce_message : string
}.

Definition CycleError_from_info (info : ErrorInfo) : CycleError :=
  MkCycleError (code info) (message info).

(** The error info [to_error_response] sends. *)
Definition to_error_info (e : CycleError) : ErrorInfo :=
  MkErrorInfo "ERROR" (ce_code e) (ce_message e).

Inductive CycleKind :=
| Simple
| Extended (statement : option string).

Record QueryCycle := MkQueryCycle {
  sql : string;
  qc_kind : CycleKind;
  rewritten : bool
}.
#[global] Instance eta_QueryCycle : Eta QueryCycle :=
  λ c, MkQueryCycle (sql c) (qc_kind c) (rewritten c).

Definition QueryCycle_new (s : string) (k : CycleKind) : QueryCycle := MkQueryCycle s k false.

Definition set_sql (s : string) (c : QueryCycle) : QueryCycle :=
  c <| sql := s |> <| rewritten := true |>.

Definition take_rewritten (c : QueryCycle) : option string * QueryCycle :=
  if rewritten c then (Some (sql c), c <| rewritten := false |> <| sql := EmptyString |>)
  else (None, c).

Record CycleReport := MkCycleReport {
  rep_sql : option string;
  rep_kind : CycleKind;
  rep_tag : option string;
  rep_rows : Z;
  rows_dropped : Z;
  rep_error : option CycleError;
  latency : Duration
}.

(** ** Scatter requests (scatter.rs) *)

Inductive MergePolicy := Concat | Sum.

Record ScatterLeg := MkScatterLeg {
  leg_endpoint : string;
  leg_sql : string
}.

Record ScatterRequest := MkScatterRequest {
  legs : list ScatterLeg;
  merge : MergePolicy;
  req_tag : string
}.

(** ** Verdicts *)

Inductive Action :=
| Forward
| Reply (messages : list PgWireBackendMessage)
| Deny (info : ErrorInfo)
| Scatter (request : ScatterRequest)
| CloseSession.

Inductive RowAction := Keep | Drop.

Inductive UpstreamError :=
| Connect (endpoint message : string)
| ConnectionLost (endpoint message : string).

Definition error_endpoint (e : UpstreamError) : string :=
  match e with Connect ep _ | ConnectionLost ep _ => ep end.

Inductive RetryDecision := Relink | Close.

(** ** Row schema *)

Record ColumnMeta := MkColumnMeta {
  col_name : string;
  type_oid : Z;
  format : Z
}.

Definition is_text (c : ColumnMeta) : bool := bool_decide (format c = 0%Z).

Abbreviation RowSchema := (list ColumnMeta) (only parsing).

Definition from_row_description (fields : list FieldDescription) : RowSchema :=
  (λ f, MkColumnMeta (fd_name f) (type_id f) (format_code f)) <$> fields.

(** [iter().position(..)]. *)
Definition column_index (schema : RowSchema) (n : string) : option nat :=
  fst <$> list_find (λ c, col_name c = n) schema.

(** ** The hooks *)

Class Interceptor `{P : Platform} := {
  IState : Type;
  (** A fresh context ([Ctx::default()]) beside the shared state. *)
  new_session_ctx : IState → IState;
  wants_rows : bool;
  adjust_command_counts : bool;
  on_query : QueryCycle → async (IState * Env) (Action * QueryCycle);
  on_frontend : PgWireFrontendMessage → async (IState * Env) (Action * PgWireFrontendMessage);
  on_backend : PgWireBackendMessage → async (IState * Env) (Action * PgWireBackendMessage);
  on_row : RowSchema → DataRowMut → async (IState * Env) (RowAction * DataRowMut);
  on_cycle_end : CycleReport → async (IState * Env) unit;
  upstream_hook : RoutingInfo → async (IState * Env) EndpointId;
  on_upstream_error : UpstreamError → async (IState * Env) RetryDecision;
  on_upstream_connected : string → async (IState * Env) unit
}.

Section Instances.
Context `{P : Platform}.

(** The trait's default methods. *)
Definition NoopInterceptor : Interceptor := {|
  IState := unit;
  new_session_ctx := λ s, s;
  wants_rows := false;
  adjust_command_counts := false;
  on_query := λ c, mret (Forward, c);
  on_frontend := λ m, mret (Forward, m);
  on_backend := λ m, mret (Forward, m);
  on_row := λ _ r, mret (Keep, r);
  on_cycle_end := λ _, mret ();
  upstream_hook := λ info, mret (default_endpoint info);
  on_upstream_error := λ _, mret Relink;
  on_upstream_connected := λ _, mret ()
|}.

Definition hook_now {A} : async (A * Env) Instant :=
  zoom snd (λ e s, (s.1, e)) instant_now.

(** [FailoverRouter]: first alive endpoint, failures reported, always relink. *)
Definition failover_upstream (info : RoutingInfo) : async (EndpointGroup * Env) EndpointId :=
  now ← hook_now;
  g ← gets fst;
  mret (default (default_endpoint info) (select_first_alive now g info)).

Definition failover_on_upstream_error (e : UpstreamError) :
    async (EndpointGroup * Env) RetryDecision :=
  now ← hook_now;
  _ ← modify (λ s, (report_failure now (error_endpoint e) s.1, s.2));
  mret Relink.

Definition failover_on_upstream_connected (ep : string) : async (EndpointGroup * Env) unit :=
  modify (λ s, (report_success ep s.1, s.2)).

Definition FailoverRouter : Interceptor := {|
  IState := EndpointGroup;
  new_session_ctx := λ s, s;
  wants_rows := false;
  adjust_command_counts := false;
  on_query := λ c, mret (Forward, c);
  on_frontend := λ m, mret (Forward, m);
  on_backend := λ m, mret (Forward, m);
  on_row := λ _ r, mret (Keep, r);
  on_cycle_end := λ _, mret ();
  upstream_hook := failover_upstream;
  on_upstream_error := failover_on_upstream_error;
  on_upstream_connected := failover_on_upstream_connected
|}.

End Instances.
