(* ===== verification/Registries.v ===== *)
(** * Shared registries (cancel.rs, runtime.rs) and hook helpers (builtin.rs)

    [CancelRouter] maps the virtual cancel keys of live sessions to their
    cancel channels, [RuntimeState] lists the live sessions, and the helpers
    of intercept/builtin.rs ([DenyList], [Rewrite], [Audit]) are values hooks
    call.  The registries are explicit state, one function per operation. *)

From S2P Require Import Prelude RustStr Messages Config Upstream Row Routing Intercept.

(** ** Cancel routing *)

(** A cancel key: the virtual pid and the secret. *)
Abbreviation CancelKey := (Z * string)%type (only parsing).

(** Channels have capacity one: [signalled] holds those with a message in
    them.  Each registration makes a new channel. *)
Record CancelRouter := MkCancelRouter {
  cr_sessions : gmap CancelKey nat;
  signalled : gset nat;
  next_channel : nat
}.
#[global] Instance eta_CancelRouter : Eta CancelRouter :=
  λ r, MkCancelRouter (cr_sessions r) (signalled r) (next_channel r).

Definition CancelRouter_new : CancelRouter := MkCancelRouter ∅ ∅ 0.

(** [register]: answers the receiver. *)
Definition cancel_register (k : CancelKey) (r : CancelRouter) : nat * CancelRouter :=
  (next_channel r, r <| cr_sessions ::= <[k := next_channel r]> |> <| next_channel ::= S |>).

(** [cancel]: [try_send] on a full channel is ignored. *)
Definition cancel (k : CancelKey) (r : CancelRouter) : bool * CancelRouter :=
  match cr_sessions r !! k with
  | Some c => (true, r <| signalled ::= λ s, {[ c ]} ∪ s |>)
  | None => (false, r)
  end.

Definition cancel_unregister (k : CancelKey) (r : CancelRouter) : CancelRouter :=
  r <| cr_sessions ::= delete k |>.

(** [recv().await] of the session that holds receiver [c]. *)
Definition cancel_recv (c : nat) : async CancelRouter unit := λ r,
  if decide (c ∈ signalled r) then (Ready (), r <| signalled ::= λ s, s ∖ {[ c ]} |>)
  else (Pending, r).

(** The operations as a sequence. *)
Inductive CancelOp :=
| OpRegister (k : CancelKey)
| OpUnregister (k : CancelKey)
| OpCancel (k : CancelKey)
| OpRecv (c : nat).

Definition cancel_op (o : CancelOp) (r : CancelRouter) : CancelRouter :=
  match o with
  | OpRegister k => (cancel_register k r).2
  | OpUnregister k => cancel_unregister k r
  | OpCancel k => (cancel k r).2
  | OpRecv c => (cancel_recv c r).2
  end.

Definition cancel_ops (os : list CancelOp) : CancelRouter :=
  foldl (λ r o, cancel_op o r) CancelRouter_new os.

(** The session that owns [k] after [os]: the channel of its last
    registration, unless it was unregistered since. *)
Fixpoint owner_from (k : CancelKey) (n : nat) (cur : option nat) (os : list CancelOp) : option nat :=
  match os with
  | [] => cur
  | OpRegister k' :: os => owner_from k (S n) (if decide (k' = k) then Some n else cur) os
  | OpUnregister k' :: os => owner_from k n (if decide (k' = k) then None else cur) os
  | _ :: os => owner_from k n cur os
  end.
Definition owner (k : CancelKey) (os : list CancelOp) : option nat := owner_from k 0 None os.

Lemma cancel_ops_owner os r k :
  cr_sessions (foldl (λ r o, cancel_op o r) r os) !! k =
  owner_from k (next_channel r) (cr_sessions r !! k) os.
Proof.
  revert r. induction os as [|o os IH]; intros r; simpl; [done|]. rewrite IH.
  destruct o as [k'|k'|k'|c]; simpl.
  - by rewrite lookup_insert.
  - f_equal. rewrite lookup_delete. done.
  - unfold cancel. by destruct (cr_sessions r !! k').
  - unfold cancel_recv. by case_decide.
Qed.

(** C39: a cancel request reaches exactly the session it names: it is accepted
    iff a session registered that very (pid, secret) pair and did not end
    since, it signals the receiver of the last such registration, and it
    changes nothing for any other session, registered or waiting. *)
Theorem cancel_reaches_owner os k :
  let r := cancel_ops os in
  cancel k r = match owner k os with
               | Some c => (true, r <| signalled ::= λ s, {[ c ]} ∪ s |>)
               | None => (false, r)
               end ∧
  ∀ c, c ∈ signalled (cancel k r).2 ↔ c ∈ signalled r ∨ owner k os = Some c.
Proof.
  simpl. unfold cancel_ops, owner.
  pose proof (cancel_ops_owner os CancelRouter_new k) as Ho. simpl in Ho.
  rewrite lookup_empty in Ho. unfold cancel. rewrite Ho.
  destruct (owner_from k 0 None os) as [c|]; simpl; (split; [done|]); set_solver.
Qed.

(** ** Live sessions *)

(** [attached] is an atomic flag that the session and the registry share: the
    entry holds its address in the store of such flags ([Front]). *)
Record SessionInfo := MkSessionInfo {
  si_pid : Z;
  si_addr : string;
  si_user : string;
  si_database : string;
  is_admin : bool;
  si_attached : nat;
  si_started : Instant
}.

Record RuntimeState := MkRuntimeState {
  rt_sessions : list SessionInfo;
  sessions_total : Z
}.
#[global] Instance eta_RuntimeState : Eta RuntimeState :=
  λ r, MkRuntimeState (rt_sessions r) (sessions_total r).

Definition RuntimeState_new : RuntimeState := MkRuntimeState [] 0.

(** [register]; the guard it answers is the pid. *)
Definition rt_register (i : SessionInfo) (r : RuntimeState) : Z * RuntimeState :=
  (si_pid i, r <| sessions_total ::= λ n, u64_add n 1 |> <| rt_sessions ::= λ l, l ++ [i] |>).

Definition sessions_active (r : RuntimeState) : nat := length (rt_sessions r).

(** [SessionGuard::drop]. *)
Definition rt_unregister (pid : Z) (r : RuntimeState) : RuntimeState :=
  r <| rt_sessions ::= List.filter (λ i, bool_decide (si_pid i ≠ pid)) |>.

(** Pids are drawn at random; the registry assumes them distinct. *)
Definition distinct_pids (r : RuntimeState) : Prop := NoDup (si_pid <$> rt_sessions r).

Lemma filter_other_pids pid l :
  pid ∉ (si_pid <$> l) → List.filter (λ i, bool_decide (si_pid i ≠ pid)) l = l.
Proof.
  induction l as [|i l IH]; [done|]. rewrite fmap_cons, not_elem_of_cons. intros [Hi Hl]. simpl.
  rewrite bool_decide_true by congruence. by rewrite IH.
Qed.

(** The registry of live sessions: a session that registers under a pid of
    its own is listed until its guard drops, which removes it and no other
    session; the running total counts every registration. *)
Theorem guard_removes_its_session i r :
  distinct_pids r → si_pid i ∉ (si_pid <$> rt_sessions r) →
  let r' := (rt_register i r).2 in
  distinct_pids r' ∧ rt_sessions r' = rt_sessions r ++ [i] ∧
  sessions_total r' = u64_add (sessions_total r) 1 ∧
  rt_sessions (rt_unregister (rt_register i r).1 r') = rt_sessions r.
Proof.
  intros Hd Hi. simpl. split.
  { unfold distinct_pids. simpl. rewrite fmap_app. apply NoDup_app. split; [done|].
    split; [|apply NoDup_singleton]. intros x Hx Hy. apply list_elem_of_singleton in Hy as ->. done. }
  split; [done|]. split; [done|].
  rewrite List.filter_app. simpl. rewrite bool_decide_false by (by intros []). rewrite app_nil_r.
  by apply filter_other_pids.
Qed.

(** The guard removes by pid alone: when two sessions drew the same pid, the
    end of one removes both from the registry. *)
Theorem guard_removes_twins i j r :
  si_pid i = si_pid j → si_pid i ∉ (si_pid <$> rt_sessions r) →
  rt_sessions (rt_unregister (si_pid i) (rt_register j (rt_register i r).2).2) = rt_sessions r.
Proof.
  intros Hij Hi. simpl. rewrite !List.filter_app. simpl.
  rewrite !bool_decide_false by congruence. rewrite !app_nil_r. by apply filter_other_pids.
Qed.

(** ** Hook helpers *)

(** The regex engine. *)
Class RegexEngine := {
  Regex : Type;
  regex_new : string → option Regex;
  is_match : Regex → string → bool;
  replace_all : Regex → string → string → string
}.

Section Helpers.
Context {E : RegexEngine}.

Record DenyList := MkDenyList {
  patterns : list Regex;
  deny_code : string;
  deny_message : string
}.
#[global] Instance eta_DenyList : Eta DenyList :=
  λ d, MkDenyList (patterns d) (deny_code d) (deny_message d).

(** [None] is the panic on an invalid pattern. *)
Definition DenyList_new (ps : list string) : option DenyList :=
  rs ← mapM (λ p, regex_new ("(?is)^" +:+ p)) ps;
  Some (MkDenyList rs "42501" "insufficient privilege (pgferry deny-list)").

Definition with_message (c m : string) (d : DenyList) : DenyList :=
  d <| deny_code := c |> <| deny_message := m |>.

Definition deny_check (d : DenyList) (q : string) : option ErrorInfo :=
  if existsb (λ p, is_match p q) (patterns d)
  then Some (MkErrorInfo "ERROR" (deny_code d) (deny_message d))
  else None.

Record Rewrite := MkRewrite {
  pattern : Regex;
  replacement : string
}.

Definition Rewrite_new (p r : string) : option Rewrite :=
  x ← regex_new p; Some (MkRewrite x r).

Definition rewrite_sql (w : Rewrite) (q : string) : option string :=
  if is_match (pattern w) q then Some (replace_all (pattern w) q (replacement w)) else None.

End Helpers.

(** [Audit]. *)
Record AuditInner := MkAuditInner {
  cycles : Z;
  errors : Z;
  audit_rows : Z;
  latency_total_us : Z;
  recent : list CycleReport
}.

Definition Audit_new : AuditInner := MkAuditInner 0 0 0 0 [].

(** Keep the last 128. *)
Definition keep_recent (l : list CycleReport) : list CycleReport :=
  if bool_decide (128 < length l) then drop (length l - 128) l else l.

Definition audit_record (rep : CycleReport) (a : AuditInner) : AuditInner :=
  MkAuditInner (u64_add (cycles a) 1)
    (if bool_decide (is_Some (rep_error rep)) then u64_add (errors a) 1 else errors a)
    (u64_add (audit_rows a) (rep_rows rep))
    (u64_add (latency_total_us a) (wrap_u 64 (latency rep / 1000)))
    (keep_recent (recent a ++ [rep])).

Definition audit_all (reps : list CycleReport) : AuditInner :=
  foldl (λ a rep, audit_record rep a) Audit_new reps.

Lemma keep_recent_drop l : keep_recent l = drop (length l - 128) l.
Proof.
  unfold keep_recent. case_bool_decide; [done|]. by replace (length l - 128) with 0 by lia.
Qed.

(** The audit collector keeps exactly the last 128 reports, oldest first,
    and counts all cycles and all failed cycles, modulo the counters' width. *)
Theorem audit_keeps_last reps :
  recent (audit_all reps) = drop (length reps - 128) reps ∧
  cycles (audit_all reps) = wrap_u 64 (Z.of_nat (length reps)) ∧
  errors (audit_all reps) =
    wrap_u 64 (Z.of_nat (length (List.filter (λ r, bool_decide (is_Some (rep_error r))) reps))).
Proof.
  unfold audit_all. induction reps as [|r reps IH] using rev_ind; [done|].
  destruct IH as (IHr & IHc & IHe). rewrite foldl_snoc. simpl. rewrite IHr, IHc, IHe. split; [|split].
  - rewrite keep_recent_drop, !length_app, length_drop. simpl.
    destruct (decide (length reps < 128)) as [Hl|Hl].
    + replace (length reps - 128) with 0 by lia. simpl.
      f_equal. lia.
    + replace (length reps - (length reps - 128) + 1 - 128) with 1 by lia.
      replace (length reps + 1 - 128) with (1 + (length reps - 128)) by lia.
      rewrite (drop_app_le _ _ 1) by (rewrite length_drop; lia).
      rewrite drop_app_le by lia. by rewrite drop_drop, Nat.add_comm.
  - rewrite length_app. unfold u64_add. rewrite wrap_u_add_idemp by lia. f_equal. simpl. lia.
  - rewrite List.filter_app, length_app. simpl. unfold u64_add. case_bool_decide; simpl.
    + rewrite wrap_u_add_idemp by lia. f_equal. lia.
    + f_equal. lia.
Qed.
