(* ===== verification/Session.v ===== *)
(** * Session state (session.rs)

    The mutable state of one session task (the locals of the pump, the
    session's hooks, the downstream socket) and the small helpers every phase
    uses: sending downstream, calling a hook, working on a pool, tracking a
    query cycle. *)

From S2P Require Import Prelude RustStr Messages Config Upstream Row Routing Intercept Pool.

(** What a session is given and never changes: the route, the pool knobs, the
    identity and parameters of its startup packet and the pooling mode. *)
Class SessionCtx := MkSessionCtx {
  cx_route : RouteConfig;
  cx_pool_config : PoolConfig;
  cx_user : string;
  cx_database : option string;
  cx_startup_parameters : gmap string string;
  cx_transaction_mode : bool
}.

(** The downstream socket: what was sent, the cached transaction status, and
    how many more sends the client takes ([None]: it stays). *)
Record Downstream := MkDownstream {
  ds_sent : list PgWireBackendMessage;
  ds_status : TransactionStatus;
  ds_gone_after : option nat
}.
#[global] Instance eta_Downstream : Eta Downstream :=
  λ d, MkDownstream (ds_sent d) (ds_status d) (ds_gone_after d).

(** [CycleTracking]. *)
Record CycleTracking := MkCycleTracking {
  cyc_active : bool;
  cyc_sql : option string;
  cyc_kind : CycleKind;
  cyc_started : Instant;
  cyc_tag : option string;
  cyc_rows : Z;
  dropped_pending : Z;
  dropped_total : Z;
  cyc_error : option CycleError
}.
#[global] Instance eta_CycleTracking : Eta CycleTracking := λ c,
  MkCycleTracking (cyc_active c) (cyc_sql c) (cyc_kind c) (cyc_started c) (cyc_tag c)
    (cyc_rows c) (dropped_pending c) (dropped_total c) (cyc_error c).

Definition CycleTracking_default (now : Instant) : CycleTracking :=
  MkCycleTracking false None Simple now None 0 0 0 None.

Definition cycle_start (s : option string) (k : CycleKind) (now : Instant) (c : CycleTracking) :
    CycleTracking :=
  MkCycleTracking true s k now None 0 0 0 None.

Definition cycle_finish (now : Instant) (c : CycleTracking) : CycleReport * CycleTracking :=
  (MkCycleReport (cyc_sql c) (cyc_kind c) (cyc_tag c) (cyc_rows c) (dropped_total c)
     (cyc_error c) (duration_since now (cyc_started c)),
   c <| cyc_sql := None |> <| cyc_kind := Simple |> <| cyc_tag := None |>
     <| cyc_error := None |> <| cyc_active := false |>).

(** The named prepared statements of the session: name to (sql, type_oids). *)
Abbreviation StatementRegistry := (gmap string (string * list Z)) (only parsing).

Section Session.
Context `{P : Platform} {F : Fuel} {I : Interceptor} {X : SessionCtx}.

(** [SessionHooks]: the interceptor's state, its cached capabilities, the
    schema in effect and the cycle being tracked. *)
Record SessionHooks := MkSessionHooks {
  h_state : IState;
  h_wants_rows : bool;
  h_adjust_counts : bool;
  h_schema : RowSchema;
  h_cycle : CycleTracking
}.
#[global] Instance eta_SessionHooks : Eta SessionHooks := λ h,
  MkSessionHooks (h_state h) (h_wants_rows h) (h_adjust_counts h) (h_schema h) (h_cycle h).

Definition SessionHooks_new (st : IState) (now : Instant) : SessionHooks :=
  MkSessionHooks (new_session_ctx st) wants_rows adjust_command_counts []
    (CycleTracking_default now).

Record Session := MkSession {
  downstream : Downstream;
  s_env : Env;
  s_pools : gmap PoolKey PoolInner;
  lease : option UpstreamLease;
  hooks : option SessionHooks;
  factories : gmap string ConnectFactory;
  registry : StatementRegistry;
  guc_overrides : gmap string string;
  lease_dirty : bool;
  current_endpoint : option string;
  fed_since_rfq : Z;
  cycle_is_extended : bool;
  frontend : Z;
  backend : Z;
  hygiene : Hygiene;
  swallow_until_sync : bool;
  draining : bool;
  attached : bool
}.
#[global] Instance eta_Session : Eta Session := λ s,
  MkSession (downstream s) (s_env s) (s_pools s) (lease s) (hooks s) (factories s) (registry s)
    (guc_overrides s) (lease_dirty s) (current_endpoint s) (fed_since_rfq s)
    (cycle_is_extended s) (frontend s) (backend s) (hygiene s) (swallow_until_sync s)
    (draining s) (attached s).

(** ** Helpers *)

(** [downstream.send(m).await]. *)
Definition ds_push (m : PgWireBackendMessage) (d : Downstream) : result unit unit * Downstream :=
  match ds_gone_after d with
  | Some O => (Err (), d)
  | Some (S n) => (Ok (), d <| ds_sent ::= λ l, l ++ [m] |> <| ds_gone_after := Some n |>)
  | None => (Ok (), d <| ds_sent ::= λ l, l ++ [m] |>)
  end.

Definition ds_send (m : PgWireBackendMessage) : async Session (result unit unit) := λ s,
  let '(r, d) := ds_push m (downstream s) in (Ready r, s <| downstream := d |>).

Definition send_ready_for_query (st : TransactionStatus) : async Session (result unit unit) :=
  ds_send (BReadyForQuery st).

Definition set_downstream_status (st : TransactionStatus) : async Session unit :=
  modify (λ s, s <| downstream ::= λ d, d <| ds_status := st |> |>).

(** The transaction status of the leased connection, [Idle] when detached. *)
Definition lease_status (s : Session) : TransactionStatus :=
  match lease s with Some l => transaction_status (conn l) | None => Idle end.

Definition now_s : async Session Instant :=
  zoom s_env (λ e s, s <| s_env := e |>) instant_now.

(** Call a hook of the registered interceptor. *)
Definition hook {A} (m : async (IState * Env) A) : async Session A := λ s,
  match hooks s with
  | Some h =>
    let '(r, (st, e)) := m (h_state h, s_env s) in
    (r, s <| hooks := Some (h <| h_state := st |>) |> <| s_env := e |>)
  | None => (Pending, s)
  end.

Definition on_cycle (f : CycleTracking → CycleTracking) : async Session unit :=
  modify (λ s, s <| hooks ::= option_map (λ h, h <| h_cycle ::= f |>) |>).

Definition start_cycle (q : option string) (k : CycleKind) : async Session unit :=
  now ← now_s; on_cycle (cycle_start q k now).

(** [cycle.finish()]. *)
Definition take_report (now : Instant) : async Session (option CycleReport) := λ s,
  match hooks s with
  | Some h => let '(rep, c) := cycle_finish now (h_cycle h) in
              (Ready (Some rep), s <| hooks := Some (h <| h_cycle := c |>) |>)
  | None => (Ready None, s)
  end.
Definition finish_cycle : async Session (option CycleReport) :=
  now ← now_s; take_report now.

(** [let report = cycle.finish(); on_cycle_end(&report)]. *)
Definition end_cycle : async Session unit :=
  rep ← finish_cycle;
  match rep with
  | Some rep => hook (on_cycle_end rep)
  | None => mret ()
  end.

(** The same when an interceptor is registered and its cycle is active. *)
Definition cycle_active (s : Session) : bool :=
  match hooks s with Some h => cyc_active (h_cycle h) | None => false end.

Definition end_active_cycle : async Session unit :=
  a ← gets cycle_active;
  if a : bool then end_cycle else mret ().

(** Run a pool operation on the pool of key [k]. *)
Definition with_pool {A} (k : PoolKey) (m : async PoolWorld A) : async Session A := λ s,
  match s_pools s !! k with
  | None => (Pending, s)
  | Some p =>
    let '(r, w) := m (MkPoolWorld p (s_env s)) in
    (r, s <| s_pools ::= <[k := pool w]> |> <| s_env := env w |>)
  end.

(** [lease.destroy(reason)]. *)
Definition destroy_lease (l : UpstreamLease) : async Session unit :=
  with_pool (lease_pool l) (on_pool destroy).

(** Run a connection procedure on the session's lease. *)
Definition on_lease {A} (m : async PgWireClient A) : async Session A := λ s,
  match lease s with
  | Some l => let '(r, c) := m (conn l) in (r, s <| lease := Some (l <| conn := c |>) |>)
  | None => (Pending, s)
  end.

Definition set_attached (b : bool) : async Session unit := modify (λ s, s <| attached := b |>).

(** ** Hook dispatch *)

Definition routing_info (q : option string) : RoutingInfo :=
  MkRoutingInfo (endpoints cx_route) cx_user cx_database q.

Definition dispatch_upstream (q : option string) : async Session EndpointId :=
  h ← gets hooks;
  match h with
  | Some _ => hook (upstream_hook (routing_info q))
  | None => mret (default_endpoint (routing_info q))
  end.

Definition dispatch_on_upstream_error (e : UpstreamError) : async Session RetryDecision :=
  h ← gets hooks;
  match h with
  | Some _ => hook (on_upstream_error e)
  | None => mret Relink
  end.

Definition dispatch_on_upstream_connected (ep : string) : async Session unit :=
  h ← gets hooks;
  match h with
  | Some _ => hook (on_upstream_connected ep)
  | None => mret ()
  end.

(** The pool of an endpoint, resolved (created on first use) through the
    session's connect factories. *)
Definition resolve_pool (ep : EndpointConfig) : async Session PoolKey := λ s,
  let f := match factories s !! id ep with
           | Some f => f
           | None => make_factory_for ep cx_route cx_user cx_database
           end in
  let k := MkPoolKey (name cx_route) (id ep) cx_user cx_database in
  (Ready k, s <| factories ::= <[id ep := f]> |>
              <| s_pools := (get_or_create k cx_pool_config f (s_pools s)).2 |>).

End Session.
