(* ===== verification/Attach.v ===== *)
(** * Attaching and detaching (session.rs)

    [ensure_attached] routes the session's next cycle to an endpoint and
    prepares a pooled connection with the session's state (startup parameters,
    GUC overrides, named statements); [baseline_params_routed] probes the
    startup parameters of a transaction-mode session; [detach_if_idle] returns
    the connection at the end of a transaction; [synthesize_upstream_lost]
    answers a cycle whose connection broke. *)

From S2P Require Import Prelude RustStr Messages Config Upstream Row Routing Intercept Pool Session.

Section Attach.
Context `{P : Platform} {F : Fuel} {I : Interceptor} {X : SessionCtx}.

(** ** The statement registry *)

Definition record_parse (n q : string) (oids : list Z) (r : StatementRegistry) :
    StatementRegistry := <[n := (q, oids)]> r.

Definition lookup_statement (n : string) (r : StatementRegistry) : option (string * list Z) :=
  r !! n.

Definition record_close (n : string) (r : StatementRegistry) : StatementRegistry :=
  delete n r.

(** [Parse] of every registered statement, unflushed. *)
Fixpoint feed_parses (l : list (string * (string * list Z))) :
    async PgWireClient (result unit unit) :=
  match l with
  | [] => mret (Ok ())
  | (n, (q, oids)) :: l =>
    r ← conn_feed (FParse (Some n) q oids);
    match r with
    | Ok _ => feed_parses l
    | Err _ => mret (Err ())
    end
  end.

(** Answers up to [ReadyForQuery]; an [ErrorResponse] fails the replay. *)
Fixpoint replay_loop (n : nat) : async PgWireClient (result unit unit) :=
  match n with
  | O => never
  | S n =>
    item ← conn_next;
    match item with
    | None => mret (Err ())
    | Some (Err _) => mret (Err ())
    | Some (Ok (BReadyForQuery st)) => _ ← modify (set_transaction_status st); mret (Ok ())
    | Some (Ok (BParameterStatus n' v)) =>
      _ ← modify (set_server_parameter n' v); replay_loop n
    | Some (Ok (BErrorResponse _)) => mret (Err ())
    | Some (Ok _) => replay_loop n
    end
  end.

Definition replay (r : StatementRegistry) : async PgWireClient (result unit unit) :=
  if decide (r = ∅) then mret (Ok ())
  else
    _ ←? feed_parses (map_to_list r);
    sent ← conn_send FSync;
    match sent with
    | Ok _ => replay_loop fuel
    | Err _ => mret (Err ())
    end.

(** [SET] of every override that differs from the connection's cached value;
    answers the name that failed, if any, and whether a [SET] was made. *)
Fixpoint guc_replay (l : list (string * string)) (dirty : bool) :
    async PgWireClient (option string * bool) :=
  match l with
  | [] => mret (None, dirty)
  | (n, v) :: l =>
    current ← gets (λ c, default EmptyString (server_parameters c !! n));
    if decide (current ≠ v) then
      r ← conn_simple_query (set_statement n v);
      match r with
      | Err _ => mret (Some n, dirty)
      | Ok _ => guc_replay l true
      end
    else guc_replay l dirty
  end.

(** ** Attach *)

Definition send_attach_fatal (m : string) : async Session unit :=
  _ ← ds_send (BErrorResponse (error_fields (MkErrorInfo "FATAL" "08006" m)));
  mret ().

(** The error policy after a failed attempt: [None] re-enters routing. *)
Definition attempt_failed (e : UpstreamError) (fatal : string) : async Session (option bool) :=
  d ← dispatch_on_upstream_error e;
  match d with
  | Close => _ ← send_attach_fatal fatal; mret (Some false)
  | Relink => mret None
  end.

(** The session state carried onto a checked-out connection. *)
Definition prepare_lease (ep : EndpointConfig) (l : UpstreamLease) : async Session (option bool) :=
  rc ← on_conn (conn l) (sync_startup_parameters cx_startup_parameters);
  match rc with
  | (Err e, _) =>
    _ ← destroy_lease l;
    attempt_failed (Connect (id ep) ("parameter sync: " +:+ show_error e))
      ("pgferry: failed to prepare upstream connection: " +:+ show_error e)
  | (Ok _, c) =>
    gucs ← gets guc_overrides;
    rc ← on_conn c (guc_replay (map_to_list gucs) false);
    let '(guc_failure, dirtied, c) := rc in
    _ ← modify (λ s, s <| lease_dirty ::= orb dirtied |>);
    match guc_failure with
    | Some n =>
      _ ← destroy_lease l;
      attempt_failed (Connect (id ep) ("GUC replay: SET " +:+ n))
        ("pgferry: failed to replay session state: SET " +:+ n)
    | None =>
      reg ← gets registry;
      rc ← on_conn c (replay reg);
      match rc with
      | (Err _, _) =>
        _ ← destroy_lease l;
        attempt_failed (Connect (id ep) "prepared statement replay failed")
          "pgferry: failed to replay prepared statements"
      | (Ok _, c) =>
        _ ← modify (λ s, s <| lease_dirty ::= orb (bool_decide (registry s ≠ ∅)) |>);
        _ ← dispatch_on_upstream_connected (id ep);
        _ ← modify (λ s, s <| current_endpoint := Some (id ep) |>
                           <| lease := Some (l <| conn := c |>) |>);
        mret (Some true)
      end
    end
  end.

(** Resolve the pool of an endpoint, check out and prepare. *)
Definition attach_to (ep : EndpointConfig) : async Session (option bool) :=
  k ← resolve_pool ep;
  r ← with_pool k checkout;
  match r with
  | Err e =>
    attempt_failed (Connect (id ep) (show_error e))
      ("pgferry: failed to connect to upstream: " +:+ show_error e)
  | Ok l => prepare_lease ep l
  end.

(** One round of the attempt loop. *)
Definition attempt (q : option string) : async Session (option bool) :=
  endpoint_id ← dispatch_upstream q;
  match endpoint cx_route endpoint_id with
  | None =>
    _ ← send_attach_fatal ("pgferry: unknown upstream endpoint " +:+ debug_str endpoint_id);
    mret (Some false)
  | Some ep => attach_to ep
  end.

Fixpoint attempts_loop (n : nat) (q : option string) : async Session bool :=
  match n with
  | O => _ ← send_attach_fatal "pgferry: all upstream endpoints failed"; mret false
  | S n =>
    r ← attempt q;
    match r with
    | Some b => mret b
    | None => attempts_loop n q
    end
  end.

(** [endpoints.len().saturating_mul(2).max(2)]. *)
Definition attempts : nat := Nat.max (length (endpoints cx_route) * 2) 2.

Definition ensure_attached (q : option string) : async Session bool :=
  l ← gets lease;
  match l with
  | Some _ => mret true
  | None => attempts_loop attempts q
  end.

(** ** Transaction-mode startup parameters *)

Fixpoint baseline_loop (n : nat) : async Session (result string (gmap string string)) :=
  match n with
  | O => mret (Err "all upstream endpoints failed")
  | S n =>
    endpoint_id ← dispatch_upstream None;
    match endpoint cx_route endpoint_id with
    | None => mret (Err ("unknown upstream endpoint " +:+ debug_str endpoint_id))
    | Some ep =>
      k ← resolve_pool ep;
      r ← with_pool k baseline_params;
      match r with
      | Ok m => _ ← dispatch_on_upstream_connected (id ep); mret (Ok m)
      | Err e =>
        d ← dispatch_on_upstream_error (Connect (id ep) (show_error e));
        match d with
        | Close => mret (Err (show_error e))
        | Relink => baseline_loop n
        end
      end
    end
  end.

Definition baseline_params_routed : async Session (result string (gmap string string)) :=
  baseline_loop attempts.

(** ** Detach and connection loss *)

Definition detach_if_idle (st : TransactionStatus) (dirty transaction_mode : bool) :
    async Session bool :=
  if negb transaction_mode then mret false
  else if decide (st ≠ Idle) then mret false
  else
    l ← gets lease;
    match l with
    | Some l =>
      _ ← modify (λ s, s <| lease := None |>);
      _ ← with_pool (lease_pool l) (checkin_detached l dirty);
      mret true
    | None => mret false
    end.

(** Answers [false] when the client is gone. *)
Definition synthesize_upstream_lost (extended : bool) : async Session bool :=
  r ← ds_send (BErrorResponse (error_fields
         (MkErrorInfo "ERROR" "08006" "upstream connection lost")));
  match r with
  | Err _ => mret false
  | Ok _ =>
    if extended then _ ← modify (λ s, s <| swallow_until_sync := true |>); mret true
    else
      r ← send_ready_for_query Idle;
      match r with
      | Err _ => mret false
      | Ok _ =>
        _ ← set_downstream_status Idle;
        a ← gets cycle_active;
        if a : bool then
          rep ← finish_cycle;
          _ ← on_cycle (λ c, c <| cyc_error :=
                 Some (MkCycleError "08006" "upstream connection lost") |>);
          match rep with
          | Some rep => _ ← hook (on_cycle_end rep); mret true
          | None => mret true
          end
        else mret true
      end
  end.

End Attach.
