(* ===== verification/Pump.v ===== *)
(** * The message pump (session.rs)

    One iteration of the pump's [select!] loop per event: a message of the
    client, an item of the upstream connection, a cancel request or the
    shutdown signal.  The handlers follow the phases of the source: injected-
    error recovery, local answers while detached, the [on_query] verdict, the
    statement registry, attach, the raw hooks, forwarding and failover; on the
    other side state tracking, row hooks, forwarding and detach. *)

From S2P Require Import Prelude RustStr Messages Config Upstream Row Routing Intercept Pool Session Attach.

(** Why the pump ended. *)
Inductive End :=
| ClientGone
| UpstreamBroken (reason : string).

Inductive Flow :=
| Continue
| Break (e : End).

(** ** Message helpers *)

(** [CycleInput]. *)
Record CycleInput := MkCycleInput {
  ci_sql : string;
  ci_kind : CycleKind
}.

Definition cycle_input_of (m : PgWireFrontendMessage) : option CycleInput :=
  match m with
  | FQuery q => Some (MkCycleInput q Simple)
  | FParse n q _ => Some (MkCycleInput q (Extended n))
  | _ => None
  end.

Definition apply_rewrite (m : PgWireFrontendMessage) (r : option string) : PgWireFrontendMessage :=
  match m, r with
  | FQuery _, Some q => FQuery q
  | FParse n _ oids, Some q => FParse n q oids
  | _, _ => m
  end.

Definition cycle_sql_of (m : PgWireFrontendMessage) : option string :=
  match m with
  | FQuery q => Some q
  | FParse _ q _ => Some q
  | _ => None
  end.

Definition bind_statement_sql (m : PgWireFrontendMessage) (reg : StatementRegistry) :
    option string :=
  match m with
  | FBind sn _ =>
    let n := default EmptyString sn in
    if decide (n = EmptyString) then None else fst <$> reg !! n
  | _ => None
  end.

(** The last [C] and [M] fields of an [ErrorResponse]. *)
Definition cycle_error_of (fields : list (ascii * string)) : CycleError :=
  foldl (λ e '(k, v),
    if decide (k = "C"%char) then MkCycleError v (ce_message e)
    else if decide (k = "M"%char) then MkCycleError (ce_code e) v
    else e) (MkCycleError EmptyString EmptyString) fields.

(** Subtract dropped rows from the trailing count of a command tag. *)
Definition adjust_tag (tag : string) (n_dropped : Z) : string :=
  match rsplit_once " " tag with
  | Some (head, count) =>
    if bool_decide (count ≠ EmptyString) && str_all is_ascii_digit count then
      let n := default 0%Z (parse_u64 count) in
      head +:+ String " " (show_Z (saturating_sub n n_dropped))
    else tag
  | None => tag
  end.

Definition is_extended (k : CycleKind) : bool :=
  match k with Extended _ => true | Simple => false end.

(** Messages that open a response cycle of the server. *)
Definition opens_cycle (m : PgWireFrontendMessage) : bool :=
  match m with FQuery _ | FSync | FFlush => true | _ => false end.

Section Pump.
Context `{P : Platform} {F : Fuel} {I : Interceptor} {X : SessionCtx}.

(** A failed scatter, and whether it broke the session's own lease. *)
Record ScatterFailure := MkScatterFailure {
  sf_error : ErrorInfo;
  session_lease_broken : bool
}.

(** The scatter executor (scatter.rs, [execute_scatter]) as the pump uses it. *)
Class ScatterExec :=
  execute_scatter : ScatterRequest → async Session (result ScatterFailure Z).
Context {E : ScatterExec}.

(** A phase either ends the iteration or hands a value to the next phase. *)
Abbreviation phase A := (async Session (Flow + A)%type).

Definition phase_bind {A B} (m : phase A) (k : A → phase B) : phase B :=
  r ← m; match r with inl f => mret (inl f) | inr a => k a end.
Definition phase_run {A} (m : phase A) (k : A → async Session Flow) : async Session Flow :=
  r ← m; match r with inl f => mret f | inr a => k a end.
Definition lift {A} (m : async Session A) : phase A := a ← m; mret (inr a).
Definition pass {A} (a : A) : phase A := mret (inr a).
Definition stop {A} (f : Flow) : phase A := mret (inl f).

(** Send downstream; a client that is gone ends the pump. *)
Definition send_or_gone (m : PgWireBackendMessage) : phase unit :=
  r ← ds_send m;
  match r with
  | Ok _ => pass ()
  | Err _ => stop (Break ClientGone)
  end.

Fixpoint send_all (ms : list PgWireBackendMessage) : phase unit :=
  match ms with
  | [] => pass ()
  | m :: ms => phase_bind (send_or_gone m) (λ _, send_all ms)
  end.

(** ** Client to server *)

(** Injected-error recovery: swallow until [Sync], then [ReadyForQuery]. *)
Definition swallow_phase (m : PgWireFrontendMessage) : async Session Flow :=
  match m with
  | FSync =>
    _ ← modify (λ s, s <| swallow_until_sync := false |>);
    st ← gets lease_status;
    phase_run (send_or_gone (BReadyForQuery st)) (λ _, _ ← end_cycle; mret Continue)
  | _ => mret Continue
  end.

(** Transaction mode, detached: [Sync], [Flush] and [Close] have nothing to
    reach upstream and are answered locally. *)
Definition local_phase (m : PgWireFrontendMessage) : phase unit :=
  l ← gets lease;
  match cx_transaction_mode, l with
  | true, None =>
    match m with
    | FSync =>
      st ← gets (λ s, ds_status (downstream s));
      phase_bind (send_or_gone (BReadyForQuery st)) (λ _,
        _ ← end_active_cycle; stop Continue)
    | FFlush => stop Continue
    | FClose n _ =>
      _ ← modify (λ s, s <| registry ::= match n with Some n => record_close n | None => λ r, r end |>);
      phase_bind (send_or_gone BCloseComplete) (λ _, stop Continue)
    | _ => pass ()
    end
  | _, _ => pass ()
  end.

Definition set_cycle_error (e : CycleError) : async Session unit :=
  on_cycle (λ c, c <| cyc_error := Some e |>).

Definition error_response (i : ErrorInfo) : PgWireBackendMessage :=
  BErrorResponse (error_fields i).

(** [Action::Deny]. *)
Definition deny (input : CycleInput) (info : ErrorInfo) : phase PgWireFrontendMessage :=
  _ ← start_cycle (Some (ci_sql input)) (ci_kind input);
  _ ← set_cycle_error (CycleError_from_info info);
  phase_bind (send_or_gone (error_response info)) (λ _,
    match ci_kind input with
    | Simple =>
      st ← gets lease_status;
      phase_bind (send_or_gone (BReadyForQuery st)) (λ _, _ ← end_cycle; stop Continue)
    | Extended _ =>
      _ ← modify (λ s, s <| swallow_until_sync := true |>); stop Continue
    end).

(** Telemetry of a locally answered cycle. *)
Definition note_reply (m : PgWireBackendMessage) (c : CycleTracking) : CycleTracking :=
  match m with
  | BDataRow _ => c <| cyc_rows ::= λ n, u64_add n 1 |>
  | BCommandComplete tag => c <| cyc_tag := Some tag |>
  | _ => c
  end.

Fixpoint reply_all (ms : list PgWireBackendMessage) : phase unit :=
  match ms with
  | [] => pass ()
  | m :: ms =>
    _ ← on_cycle (note_reply m);
    phase_bind (send_or_gone m) (λ _, reply_all ms)
  end.

(** [Action::Reply] from [on_query]. *)
Definition reply (input : CycleInput) (ms : list PgWireBackendMessage) :
    phase PgWireFrontendMessage :=
  _ ← start_cycle (Some (ci_sql input)) (ci_kind input);
  phase_bind (reply_all ms) (λ _,
    st ← gets lease_status;
    phase_bind (send_or_gone (BReadyForQuery st)) (λ _,
      match ci_kind input with
      | Simple => _ ← end_cycle; stop Continue
      | Extended _ => _ ← modify (λ s, s <| swallow_until_sync := true |>); stop Continue
      end)).

(** [Action::Scatter] from [on_query]. *)
Definition scatter_refusal (k : CycleKind) (st : TransactionStatus) : option ErrorInfo :=
  if is_extended k then Some (MkErrorInfo "ERROR" "0A000" "pgferry scatter: simple protocol only")
  else if decide (st ≠ Idle) then
    Some (MkErrorInfo "ERROR" "0A000" "pgferry scatter: not allowed inside a transaction")
  else None.

Definition scatter (input : CycleInput) (request : ScatterRequest) :
    phase PgWireFrontendMessage :=
  ds ← gets (λ s, ds_status (downstream s));
  let refusal := scatter_refusal (ci_kind input) ds in
  _ ← start_cycle (Some (ci_sql input)) (ci_kind input);
  res ← match refusal with
        | Some info => mret (Err (MkScatterFailure info false))
        | None => execute_scatter request
        end;
  match res with
  | Ok rows =>
    _ ← on_cycle (λ c, c <| cyc_rows := rows |>
                         <| cyc_tag := Some (req_tag request +:+ String " " (show_Z rows)) |>);
    st ← gets (λ s, ds_status (downstream s));
    phase_bind (send_or_gone (BReadyForQuery st)) (λ _, _ ← end_cycle; stop Continue)
  | Err failure =>
    l ← gets lease;
    _ ← match session_lease_broken failure, l with
        | true, Some l => _ ← modify (λ s, s <| lease := None |>); destroy_lease l
        | _, _ => mret ()
        end;
    _ ← modify (λ s, s <| current_endpoint := None |> <| attached := false |>);
    _ ← set_cycle_error (CycleError_from_info (sf_error failure));
    phase_bind (send_or_gone (error_response (sf_error failure))) (λ _,
      phase_bind (send_or_gone (BReadyForQuery Idle)) (λ _,
        _ ← set_downstream_status Idle;
        _ ← end_cycle; stop Continue))
  end.

(** The [on_query] phase: hands on the (possibly rewritten) message. *)
Definition on_query_phase (m : PgWireFrontendMessage) : phase PgWireFrontendMessage :=
  match cycle_input_of m with
  | None => pass m
  | Some input =>
    _ ← modify (λ s, s <| cycle_is_extended := is_extended (ci_kind input) |>);
    h ← gets hooks;
    match h with
    | None => pass m
    | Some _ =>
      ac ← hook (on_query (QueryCycle_new (ci_sql input) (ci_kind input)));
      let '(action, cycle) := ac in
      match action with
      | Forward =>
        let m := apply_rewrite m (take_rewritten cycle).1 in
        _ ← start_cycle (cycle_sql_of m) (ci_kind input);
        pass m
      | Deny info => deny input info
      | Scatter request => scatter input request
      | Reply ms => reply input ms
      | CloseSession => stop (Break ClientGone)
      end
    end
  end.

(** The statement registry: a [Parse] of a registered name is answered
    locally, a clash is refused, a new name is recorded after the attach. *)
Definition registry_phase (m : PgWireFrontendMessage) :
    phase (option (string * string * list Z)) :=
  match m with
  | FParse (Some n) q oids =>
    if decide (n = EmptyString) then pass None
    else
      known ← gets (λ s, lookup_statement n (registry s));
      match known with
      | Some (known_sql, _) =>
        if decide (known_sql = q) then
          phase_bind (send_or_gone BParseComplete) (λ _, stop Continue)
        else
          phase_bind (send_or_gone (error_response (MkErrorInfo "ERROR" "42P05"
            ("prepared statement " +:+ String "034" (n +:+ String "034" " already exists (pgferry)")))))
            (λ _, _ ← modify (λ s, s <| swallow_until_sync := true |>); stop Continue)
      | None => pass (Some (n, q, oids))
      end
  | _ => pass None
  end.

(** Attach, then record the new statement. *)
Definition attach_phase (input : option CycleInput) (m : PgWireFrontendMessage)
    (pending : option (string * string * list Z)) : phase unit :=
  reg ← gets registry;
  let hint := match input with
              | Some i => Some (ci_sql i)
              | None => bind_statement_sql m reg
              end in
  ok ← ensure_attached hint;
  if ok : bool then
    _ ← match pending with
        | Some (n, q, oids) =>
          modify (λ s, s <| registry ::= record_parse n q oids |> <| lease_dirty := true |>)
        | None => mret ()
        end;
    lift (set_attached true)
  else stop (Break ClientGone).

(** The raw frontend hook. *)
Definition frontend_hook_phase (m : PgWireFrontendMessage) : phase PgWireFrontendMessage :=
  h ← gets hooks;
  match h with
  | None => pass m
  | Some _ =>
    am ← hook (on_frontend m);
    let '(action, m) := am in
    match action with
    | Forward => pass m
    | Reply ms => phase_bind (send_all ms) (λ _, stop Continue)
    | Deny _ | Scatter _ | CloseSession => stop (Break ClientGone)
    end
  end.

Definition bump_frontend : async Session unit :=
  modify (λ s, s <| frontend ::= λ n, u64_add n 1 |>).

(** Drop a broken lease and forget where it was. *)
Definition drop_broken_lease : async Session unit :=
  l ← gets lease;
  _ ← match l with
      | Some l => _ ← modify (λ s, s <| lease := None |>); destroy_lease l
      | None => mret ()
      end;
  modify (λ s, s <| current_endpoint := None |> <| attached := false |>).

Definition reset_flight : async Session unit :=
  modify (λ s, s <| hygiene ::= λ h, h <| awaiting_response := false |> |>
                 <| fed_since_rfq := 0%Z |>).

(** A failed send upstream. *)
Definition send_failed : async Session Flow :=
  ep ← gets (λ s, default EmptyString (current_endpoint s));
  d ← dispatch_on_upstream_error (ConnectionLost ep "send failed");
  match d with
  | Close => mret (Break (UpstreamBroken "upstream send failed"))
  | Relink =>
    _ ← drop_broken_lease;
    mid ← gets (λ s, awaiting_response (hygiene s) || bool_decide (0 < fed_since_rfq s)%Z);
    if mid : bool then
      ext ← gets cycle_is_extended;
      ok ← synthesize_upstream_lost ext;
      if ok : bool then _ ← reset_flight; _ ← bump_frontend; mret Continue
      else mret (Break ClientGone)
    else _ ← bump_frontend; mret Continue
  end.

(** Forward upstream: flushed when the server may answer, else buffered. *)
Definition forward_phase (m : PgWireFrontendMessage) : async Session Flow :=
  _ ← (if opens_cycle m
       then modify (λ s, s <| hygiene ::= λ h, h <| awaiting_response := true |> |>)
       else mret ());
  r ← on_lease (if triggers_response m then conn_send m else conn_feed m);
  match r with
  | Err _ => send_failed
  | Ok _ =>
    _ ← modify (λ s, s <| fed_since_rfq ::= λ n, wrap_u 32 (n + 1) |>);
    _ ← bump_frontend;
    mret Continue
  end.

Definition on_client_message (m : PgWireFrontendMessage) : async Session Flow :=
  sw ← gets swallow_until_sync;
  if sw : bool then swallow_phase m
  else
    phase_run (local_phase m) (λ _,
    phase_run (on_query_phase m) (λ m',
    phase_run (registry_phase m') (λ pending,
    phase_run (attach_phase (cycle_input_of m) m' pending) (λ _,
    phase_run (frontend_hook_phase m') forward_phase)))).

(** ** Server to client *)

(** Session state read off a backend message; the transaction status the
    detach decision uses. *)
Definition track (m : PgWireBackendMessage) : async Session TransactionStatus :=
  match m with
  | BReadyForQuery st =>
    _ ← on_lease (modify (set_transaction_status st));
    _ ← set_downstream_status st;
    _ ← modify (λ s, s <| hygiene := MkHygiene false CopyNone |> <| fed_since_rfq := 0%Z |>);
    mret st
  | BParameterStatus n v =>
    _ ← on_lease (modify (set_server_parameter n v));
    _ ← modify (λ s, s <| guc_overrides ::= <[n := v]> |>
                       <| lease_dirty ::= orb cx_transaction_mode |>);
    gets lease_status
  | BCopyInResponse _ | BCopyBothResponse _ =>
    _ ← modify (λ s, s <| hygiene ::= λ h, h <| copy := ClientOwesCopy |> |>);
    gets lease_status
  | BCopyOutResponse _ =>
    _ ← modify (λ s, s <| hygiene ::= λ h, h <| copy := ServerStreamsCopy |> |>);
    gets lease_status
  | _ => gets lease_status
  end.

Definition add_row (c : CycleTracking) : CycleTracking := c <| cyc_rows ::= λ n, u64_add n 1 |>.

(** The row hook: [None] when the row is dropped. *)
Definition row_hook (h : SessionHooks) (r : DataRow) : async Session (option DataRow) :=
  if h_wants_rows h then
    match Row.parse r with
    | Err _ => _ ← on_cycle add_row; mret (Some r)
    | Ok view =>
      av ← hook (on_row (h_schema h) view);
      match av with
      | (Keep, view) => _ ← on_cycle add_row; mret (Some (Row.apply view))
      | (Drop, _) =>
        _ ← on_cycle (λ c, c <| dropped_total ::= λ n, u64_add n 1 |>
                             <| dropped_pending ::= λ n, u64_add n 1 |>);
        mret None
      end
    end
  else _ ← on_cycle add_row; mret (Some r).

(** Schema, telemetry and row phase: [None] when the message is dropped. *)
Definition observe (m : PgWireBackendMessage) : async Session (option PgWireBackendMessage) :=
  h ← gets hooks;
  match h with
  | None => mret (Some m)
  | Some h =>
    match m with
    | BRowDescription fields =>
      _ ← modify (λ s, if h_wants_rows h
                       then s <| hooks ::= option_map
                              (λ h, h <| h_schema := from_row_description fields |>) |>
                       else s);
      mret (Some m)
    | BCommandComplete tag =>
      _ ← on_cycle (λ c, c <| cyc_tag := Some tag |>);
      let pending := dropped_pending (h_cycle h) in
      _ ← on_cycle (λ c, c <| dropped_pending := 0%Z |>);
      mret (Some (if h_adjust_counts h && bool_decide (0 < pending)%Z
                  then BCommandComplete (adjust_tag tag pending) else m))
    | BErrorResponse fields => _ ← set_cycle_error (cycle_error_of fields); mret (Some m)
    | BDataRow r => o ← row_hook h r; mret (BDataRow <$> o)
    | _ => mret (Some m)
    end
  end.

(** The raw backend hook: [inr None] when the message was replaced. *)
Definition backend_hook_phase (m : PgWireBackendMessage) : phase (option PgWireBackendMessage) :=
  h ← gets hooks;
  match h with
  | None => pass (Some m)
  | Some _ =>
    am ← hook (on_backend m);
    let '(action, m) := am in
    match action with
    | Forward => pass (Some m)
    | Reply ms => phase_bind (send_all ms) (λ _, pass None)
    | Deny _ | Scatter _ | CloseSession => stop (Break ClientGone)
    end
  end.

Definition bump_backend : async Session unit :=
  modify (λ s, s <| backend ::= λ n, u64_add n 1 |>).

Definition is_ready_for_query (m : PgWireBackendMessage) : bool :=
  match m with BReadyForQuery _ => true | _ => false end.

(** Forward downstream, report a finished cycle, end a drained session, detach
    an idle one. *)
Definition deliver (st : TransactionStatus) (m : PgWireBackendMessage) : async Session Flow :=
  let rfq := is_ready_for_query m in
  a ← gets cycle_active;
  cycle_done ← (if rfq && a then finish_cycle else mret None);
  phase_run (send_or_gone m) (λ _,
    _ ← bump_backend;
    _ ← match cycle_done with
        | Some rep => hook (on_cycle_end rep)
        | None => mret ()
        end;
    dr ← gets draining;
    if rfq && dr then mret (Break ClientGone)
    else if rfq then
      dirty ← gets lease_dirty;
      detached ← detach_if_idle st dirty cx_transaction_mode;
      _ ← (if detached : bool
           then modify (λ s, s <| lease_dirty := false |> <| attached := false |>)
           else mret ());
      mret Continue
    else mret Continue).

Definition on_server_message (m : PgWireBackendMessage) : async Session Flow :=
  st ← track m;
  o ← observe m;
  match o with
  | None => mret Continue
  | Some m =>
    phase_run (backend_hook_phase m) (λ o,
      match o with
      | Some m => deliver st m
      | None => _ ← bump_backend; mret Continue
      end)
  end.

(** The upstream connection closed. *)
Definition upstream_eof : async Session Flow :=
  ep ← gets (λ s, default EmptyString (current_endpoint s));
  d ← dispatch_on_upstream_error (ConnectionLost ep "upstream closed unexpectedly");
  match d with
  | Close => mret (Break (UpstreamBroken "upstream EOF"))
  | Relink =>
    _ ← drop_broken_lease;
    waits ← gets (λ s, awaiting_response (hygiene s));
    ext ← gets cycle_is_extended;
    ok ← (if waits : bool then synthesize_upstream_lost ext else mret true);
    if ok : bool then _ ← reset_flight; mret Continue
    else mret (Break ClientGone)
  end.

(** ** The loop *)

Inductive Event :=
| EvClient (item : option (result unit PgWireFrontendMessage))
| EvUpstream
| EvCancel
| EvShutdown.

Definition on_event (ev : Event) : async Session Flow :=
  match ev with
  | EvClient None | EvClient (Some (Err _)) | EvClient (Some (Ok FTerminate)) =>
    mret (Break ClientGone)
  | EvClient (Some (Ok m)) => on_client_message m
  | EvUpstream =>
    l ← gets lease;
    match l with
    | None => mret Continue
    | Some _ =>
      item ← on_lease conn_next;
      match item with
      | None => upstream_eof
      | Some (Err e) => mret (Break (UpstreamBroken ("upstream error: " +:+ show_error e)))
      | Some (Ok m) => on_server_message m
      end
    end
  | EvCancel =>
    l ← gets lease;
    match l with
    | Some _ => _ ← on_lease conn_cancel; mret Continue
    | None => mret Continue
    end
  | EvShutdown =>
    busy ← gets (λ s, awaiting_response (hygiene s) || bool_decide (copy (hygiene s) ≠ CopyNone));
    if busy : bool then _ ← modify (λ s, s <| draining := true |>); mret Continue
    else mret (Break ClientGone)
  end.

(** The pump over a sequence of events; [None] while it still runs. *)
Fixpoint pump (evs : list Event) : async Session (option End) :=
  match evs with
  | [] => mret None
  | ev :: evs =>
    f ← on_event ev;
    match f with
    | Break e => mret (Some e)
    | Continue => pump evs
    end
  end.

(** Session end: what still is leased is sanitized and parked, or destroyed. *)
Definition session_end (e : End) : async Session unit :=
  l ← gets lease;
  h ← gets hygiene;
  _ ← modify (λ s, s <| lease := None |>);
  match e, l with
  | ClientGone, Some l => with_pool (lease_pool l) (checkin l h)
  | UpstreamBroken _, Some l => destroy_lease l
  | _, None => mret ()
  end.

(** The pump's initial state for a session that starts with [l]. *)
Definition pump_init (d : Downstream) (e : Env) (pools : gmap PoolKey PoolInner)
    (l : option UpstreamLease) (h : option SessionHooks) (att : bool) : Session :=
  MkSession d e pools l h ∅ ∅ ∅ false
    (match l with
     | Some _ => Some (match endpoints cx_route with e :: _ => id e | [] => EmptyString end)
     | None => None
     end) 0 false 0 0 Hygiene_default false false att.

End Pump.
