(* ===== verification/Chores.v ===== *)
(** * What leaves pools and lease alone

    Most of what a session does on the way (sends to the client, hooks, cycle
    telemetry, clock readings) changes nothing but the client's side, the
    environment, the interceptor and the swallow mark.  Invariants that look at
    none of these are kept by all of it: [chore] is the relation, and a frame of
    an invariant follows from it. *)

From S2P Require Import Prelude RustStr Messages Config Upstream Row Routing Intercept Pool Session Attach Pump.

Section Chores.
Context `{P : Platform} {F : Fuel} {I : Interceptor} {X : SessionCtx}.

Definition chore (s s' : Session) : Prop :=
  ∃ d e h w, s' = s <| downstream := d |> <| s_env := e |> <| hooks := h |> <| swallow_until_sync := w |> ∧
             (is_Some (hooks s) → is_Some h).

#[global] Instance chore_preorder : PreOrder chore.
Proof.
  split.
  - intros s. exists (downstream s), (s_env s), (hooks s), (swallow_until_sync s). by destruct s.
  - intros s ?? (d1 & e1 & h1 & w1 & -> & H1) (d & e & h & w & -> & H2). exists d, e, h, w. split; [done|].
    intros ?. apply H2. by apply H1.
Qed.

Lemma chore_same s : chore s s.
Proof. reflexivity. Qed.

Lemma chore_modify f :
  (∀ s, ∃ d e h w, f s = s <| downstream := d |> <| s_env := e |> <| hooks := h |> <| swallow_until_sync := w |> ∧
        (is_Some (hooks s) → is_Some h)) → keeps chore (modify f).
Proof. intros Hf. apply keeps_modify. exact Hf. Qed.

Lemma chore_ds_send m : keeps chore (ds_send m).
Proof.
  intros s a s'. unfold ds_send. destruct (ds_push _ _) as [r d]. intros [= <- <-].
  exists d, (s_env s), (hooks s), (swallow_until_sync s). by destruct s.
Qed.

Lemma chore_hook {A} (m : async (IState * Env) A) : keeps chore (hook m).
Proof.
  intros s a s'. unfold hook. destruct (hooks s) as [h|] eqn:Hh; [|intros [= <- <-]; reflexivity].
  destruct (m _) as [r [st e]]. intros [= <- <-].
  exists (downstream s), e, (Some (h <| h_state := st |>)), (swallow_until_sync s). by destruct s.
Qed.

Lemma chore_now : keeps chore now_s.
Proof.
  intros s a s'. unfold now_s, zoom. destruct (instant_now _) as [r e]. intros [= <- <-].
  exists (downstream s), e, (hooks s), (swallow_until_sync s). by destruct s.
Qed.

Lemma chore_take_report t : keeps chore (take_report t).
Proof.
  intros s a s'. unfold take_report. destruct (hooks s) as [h|] eqn:Hh; [|intros [= <- <-]; reflexivity].
  destruct (cycle_finish t (h_cycle h)) as [rep c]. intros [= <- <-].
  exists (downstream s), (s_env s), (Some (h <| h_cycle := c |>)), (swallow_until_sync s). by destruct s.
Qed.

Lemma chore_on_cycle f : keeps chore (on_cycle f).
Proof.
  apply chore_modify. intros s.
  exists (downstream s), (s_env s), (option_map (λ h, h <| h_cycle ::= f |>) (hooks s)), (swallow_until_sync s).
  split; [by destruct s|]. by intros [h ->].
Qed.

Lemma chore_swallow b : keeps chore (modify (λ s, s <| swallow_until_sync := b |>)).
Proof.
  apply chore_modify. intros s. exists (downstream s), (s_env s), (hooks s), b. by destruct s.
Qed.

Lemma chore_downstream_status st : keeps chore (set_downstream_status st).
Proof.
  apply chore_modify. intros s.
  exists ((downstream s) <| ds_status := st |>), (s_env s), (hooks s), (swallow_until_sync s). by destruct s.
Qed.

Lemma chore_schema f : keeps chore (modify (λ s, s <| hooks ::= option_map f |>)).
Proof.
  apply chore_modify. intros s. exists (downstream s), (s_env s), (option_map f (hooks s)), (swallow_until_sync s).
  split; [by destruct s|]. by intros [h ->].
Qed.

Lemma chore_on_conn {A} c (m : async PgWireClient A) : keeps chore (on_conn c m).
Proof. intros s a s'. unfold on_conn. destruct (m c) as [[]]; intros [= <- <-]; reflexivity. Qed.

#[local] Hint Resolve chore_ds_send chore_hook chore_now chore_take_report chore_on_cycle chore_swallow
  chore_downstream_status chore_on_conn : keeps.

(** ** Handlers made of them *)

Lemma chore_finish_cycle : keeps chore finish_cycle.
Proof. unfold finish_cycle. keeps_tac. Qed.
Lemma chore_start_cycle q k : keeps chore (start_cycle q k).
Proof. unfold start_cycle. keeps_tac. Qed.
#[local] Hint Resolve chore_finish_cycle chore_start_cycle : keeps.
Lemma chore_end_cycle : keeps chore end_cycle.
Proof. unfold end_cycle. keeps_tac. Qed.
#[local] Hint Resolve chore_end_cycle : keeps.
Lemma chore_end_active_cycle : keeps chore end_active_cycle.
Proof. unfold end_active_cycle. keeps_tac. Qed.
Lemma chore_cycle_error e : keeps chore (set_cycle_error e).
Proof. apply chore_on_cycle. Qed.

Lemma chore_upstream q : keeps chore (dispatch_upstream q).
Proof. unfold dispatch_upstream. keeps_tac. Qed.
Lemma chore_upstream_error e : keeps chore (dispatch_on_upstream_error e).
Proof. unfold dispatch_on_upstream_error. keeps_tac. Qed.
Lemma chore_upstream_connected e : keeps chore (dispatch_on_upstream_connected e).
Proof. unfold dispatch_on_upstream_connected. keeps_tac. Qed.
Lemma chore_attach_fatal m : keeps chore (send_attach_fatal m).
Proof. unfold send_attach_fatal. keeps_tac. Qed.
#[local] Hint Resolve chore_end_active_cycle chore_cycle_error chore_upstream chore_upstream_error
  chore_upstream_connected chore_attach_fatal : keeps.
Lemma chore_attempt_failed e m : keeps chore (attempt_failed e m).
Proof. unfold attempt_failed. keeps_tac. Qed.
Lemma chore_synthesize b : keeps chore (synthesize_upstream_lost b).
Proof. unfold synthesize_upstream_lost, send_ready_for_query. keeps_tac. Qed.

Lemma chore_send_or_gone m : keeps chore (send_or_gone m).
Proof. unfold send_or_gone, pass, stop. keeps_tac. Qed.
#[local] Hint Resolve chore_attempt_failed chore_synthesize chore_send_or_gone : keeps.
Lemma chore_send_all ms : keeps chore (send_all ms).
Proof. induction ms; simpl; unfold phase_bind, pass; keeps_tac. Qed.
Lemma chore_reply_all ms : keeps chore (reply_all ms).
Proof. induction ms; simpl; unfold phase_bind, pass; keeps_tac. Qed.
#[local] Hint Resolve chore_send_all chore_reply_all : keeps.

Lemma chore_swallow_phase m : keeps chore (swallow_phase m).
Proof. unfold swallow_phase, phase_run. keeps_tac. Qed.
Lemma chore_deny input info : keeps chore (deny input info).
Proof. unfold deny, phase_bind, stop. keeps_tac. Qed.
Lemma chore_reply input ms : keeps chore (reply input ms).
Proof. unfold reply, phase_bind, stop. keeps_tac. Qed.
Lemma chore_registry m : keeps chore (registry_phase m).
Proof. unfold registry_phase, phase_bind, pass, stop. keeps_tac. Qed.
Lemma chore_frontend_hook m : keeps chore (frontend_hook_phase m).
Proof. unfold frontend_hook_phase, phase_bind, pass, stop. keeps_tac. Qed.
Lemma chore_backend_hook m : keeps chore (backend_hook_phase m).
Proof. unfold backend_hook_phase, phase_bind, pass, stop. keeps_tac. Qed.

Lemma chore_observe m : keeps chore (observe m).
Proof.
  assert (∀ h fields, keeps chore (modify (λ s : Session, if h_wants_rows h
    then s <| hooks ::= option_map (λ h, h <| h_schema := from_row_description fields |>) |> else s))) as Hs.
  { intros h fields. destruct (h_wants_rows h); [apply chore_schema|].
    apply keeps_modify. intros s. apply chore_same. }
  unfold observe, row_hook. keeps_tac; apply Hs.
Qed.

End Chores.

#[export] Hint Resolve chore_ds_send chore_hook chore_now chore_take_report chore_on_cycle chore_swallow
  chore_downstream_status chore_on_conn chore_finish_cycle chore_start_cycle chore_end_cycle
  chore_end_active_cycle chore_cycle_error chore_upstream chore_upstream_error chore_upstream_connected
  chore_attach_fatal chore_attempt_failed chore_synthesize chore_send_or_gone chore_send_all
  chore_reply_all chore_swallow_phase chore_deny chore_reply chore_registry chore_frontend_hook
  chore_backend_hook chore_observe : keeps.
