(* ===== verification/PumpFlow.v ===== *)
(** * What the pump does with a message

    Functional behaviour of the pump's handlers, branch by branch: verbatim
    forwarding both ways, the recovery after an injected error, the statement
    registry, the loss of the upstream connection and graceful shutdown. *)

From S2P Require Import Prelude RustStr Messages Config Upstream Reference Row Routing Intercept Pool PoolHygiene Session Attach Pump.

Section Flow.
Context `{P : Platform} {F : Fuel} {I : Interceptor} {X : SessionCtx} {E : ScatterExec}.

Abbreviation phase A := (async Session (Flow + A)%type) (only parsing).

(** Running a phase that passes, or that ends the iteration. *)
Lemma phase_run_pass {A} (m : phase A) k s a s' :
  m s = (Ready (inr a), s') → phase_run m k s = k a s'.
Proof. intros Hm. unfold phase_run. by rewrite (bind_ready _ _ _ _ _ Hm). Qed.

Lemma phase_run_stop {A} (m : phase A) k s f s' :
  m s = (Ready (inl f), s') → phase_run m k s = (Ready f, s').
Proof. intros Hm. unfold phase_run. by rewrite (bind_ready _ _ _ _ _ Hm). Qed.

Lemma phase_bind_pass {A B} (m : phase A) (k : A → phase B) s a s' :
  m s = (Ready (inr a), s') → phase_bind m k s = k a s'.
Proof. intros Hm. unfold phase_bind. by rewrite (bind_ready _ _ _ _ _ Hm). Qed.

(** The client takes whatever is sent. *)
Definition client_there (s : Session) : Prop := ds_gone_after (downstream s) = None.

(** [s] after sending [m] downstream. *)
Definition sent_down (m : PgWireBackendMessage) (s : Session) : Session :=
  s <| downstream ::= λ d, d <| ds_sent ::= λ l, l ++ [m] |> |>.

Lemma ds_send_there m s : client_there s → ds_send m s = (Ready (Ok ()), sent_down m s).
Proof. unfold client_there. intros H. unfold ds_send, ds_push. by rewrite H. Qed.

Lemma send_or_gone_there m s :
  client_there s → send_or_gone m s = (Ready (inr ()), sent_down m s).
Proof. intros H. unfold send_or_gone. by rewrite (bind_ready _ _ _ _ _ (ds_send_there m s H)). Qed.

(** The statement a message names, if it is a [Parse] of a named one. *)
Definition parse_name (m : PgWireFrontendMessage) : option (string * string * list Z) :=
  match m with
  | FParse (Some n) q oids => if decide (n = EmptyString) then None else Some (n, q, oids)
  | _ => None
  end.

(** A message the pump has no answer to itself: not the end of the session and
    not a [Parse] of a name the session has registered. *)
Definition unanswered (m : PgWireFrontendMessage) (r : StatementRegistry) : Prop :=
  m ≠ FTerminate ∧ ∀ x, parse_name m = Some x → r !! x.1.1 = None.

(** The registry with the statement that [m] names. *)
Definition recorded (m : PgWireFrontendMessage) (r : StatementRegistry) : StatementRegistry :=
  match parse_name m with Some (n, q, oids) => <[n := (q, oids)]> r | None => r end.

Lemma registry_unanswered m s : unanswered m (registry s) → registry_phase m s = (Ready (inr (parse_name m)), s).
Proof.
  intros [_ Hn]. destruct m; try done. destruct name as [n|]; simpl in *; [|done].
  destruct (decide (n = EmptyString)); [done|]. specialize (Hn _ eq_refl). simpl in Hn.
  rewrite (bind_ready _ _ _ None s); [done|]. unfold gets, lookup_statement. by rewrite Hn.
Qed.

(** What a server may answer without further input, by the protocol: a query, a
    [Sync], a [Flush], data of a [COPY] and its end.  [Parse], [Bind],
    [Describe], [Execute] and [Close] wait for one of these. *)
Definition may_answer (m : PgWireFrontendMessage) : bool :=
  match m with
  | FQuery _ => true
  | FSync => true
  | FFlush => true
  | FCopyData _ => true
  | FCopyDone => true
  | FCopyFail _ => true
  | FTerminate => true
  | FParse _ _ _ | FBind _ _ | FDescribe _ | FExecute _ | FClose _ _ => false
  | _ => false
  end.

Lemma triggers_may_answer m : triggers_response m = may_answer m.
Proof. by destruct m. Qed.

(** [m] is flushed to the server when it may be answered, else buffered. *)
Definition conn_forward (m : PgWireFrontendMessage) : async PgWireClient (result PgWireClientError unit) :=
  if may_answer m then conn_send m else conn_feed m.

(** What a forwarded client message changes beside the connection. *)
Definition after_forward (m : PgWireFrontendMessage) (s : Session) : Session :=
  let s := if opens_cycle m
           then s <| hygiene ::= λ h, h <| awaiting_response := true |> |> else s in
  s <| fed_since_rfq ::= λ n, wrap_u 32 (n + 1) |> <| frontend ::= λ n, u64_add n 1 |>.

(** The phases of an attached session without an interceptor. *)
Lemma local_attached m s l : lease s = Some l → local_phase m s = (Ready (inr ()), s).
Proof.
  intros Hl. unfold local_phase. rewrite (bind_ready _ _ _ (Some l) s) by (unfold gets; by rewrite Hl).
  by destruct cx_transaction_mode.
Qed.

Definition note_protocol (m : PgWireFrontendMessage) (s : Session) : Session :=
  match cycle_input_of m with
  | Some i => s <| cycle_is_extended := is_extended (ci_kind i) |>
  | None => s
  end.

Lemma on_query_plain m s :
  hooks s = None → on_query_phase m s = (Ready (inr m), note_protocol m s).
Proof.
  intros Hh. unfold on_query_phase, note_protocol. destruct (cycle_input_of m) as [i|]; [|done].
  rewrite (bind_ready _ _ _ () (s <| cycle_is_extended := is_extended (ci_kind i) |>)) by done.
  rewrite (bind_ready _ _ _ None (s <| cycle_is_extended := is_extended (ci_kind i) |>));
    [done|]. unfold gets. simpl. by rewrite Hh.
Qed.

(** What the attach phase of an attached session does. *)
Definition note_statement (x : option (string * string * list Z)) (s : Session) : Session :=
  match x with
  | Some (n, q, oids) => s <| registry ::= record_parse n q oids |> <| lease_dirty := true |>
  | None => s
  end.

Lemma attach_attached i m x s l :
  lease s = Some l → attach_phase i m x s = (Ready (inr ()), (note_statement x s) <| attached := true |>).
Proof.
  intros Hl. unfold attach_phase, ensure_attached.
  rewrite (bind_ready _ _ _ (registry s) s) by done.
  rewrite (bind_ready _ _ _ true s).
  - by destruct x as [[[n q] oids]|].
  - rewrite (bind_ready _ _ _ (Some l) s) by (unfold gets; by rewrite Hl). done.
Qed.

Lemma frontend_hook_plain m s : hooks s = None → frontend_hook_phase m s = (Ready (inr m), s).
Proof.
  intros Hh. unfold frontend_hook_phase.
  rewrite (bind_ready _ _ _ None s) by (unfold gets; by rewrite Hh). done.
Qed.

Lemma forward_ok m l c' s :
  lease s = Some l → conn_forward m (conn l) = (Ready (Ok ()), c') →
  forward_phase m s = (Ready Continue, (after_forward m s) <| lease := Some (l <| conn := c' |>) |>).
Proof.
  unfold conn_forward, forward_phase, after_forward. intros Hl Hc.
  set (s1 := if opens_cycle m then s <| hygiene ::= λ h, h <| awaiting_response := true |> |> else s).
  rewrite (bind_ready _ _ _ () s1) by (subst s1; by destruct (opens_cycle m)).
  assert (lease s1 = Some l) as Hl1 by (subst s1; by destruct (opens_cycle m)).
  rewrite (bind_ready _ _ _ (Ok ()) (s1 <| lease := Some (l <| conn := c' |>) |>)); [done|].
  unfold on_lease. by rewrite Hl1, triggers_may_answer, Hc.
Qed.

(** What a message that goes through changes beside the connection. *)
Definition went_through (m : PgWireFrontendMessage) (s : Session) : Session :=
  after_forward m ((note_statement (parse_name m) (note_protocol m s)) <| attached := true |>).

Lemma forwarded m l c' s :
  hooks s = None → lease s = Some l → swallow_until_sync s = false → unanswered m (registry s) →
  conn_forward m (conn l) = (Ready (Ok ()), c') →
  on_event (EvClient (Some (Ok m))) s =
  (Ready Continue, (went_through m s) <| lease := Some (l <| conn := c' |>) |>).
Proof.
  intros Hh Hl Hsw Hp Hc. destruct Hp as [Ht Hn].
  assert (on_event (EvClient (Some (Ok m))) s = on_client_message m s) as -> by by destruct m.
  unfold on_client_message, went_through.
  rewrite (bind_ready _ _ _ false s) by (unfold gets; by rewrite Hsw).
  rewrite (phase_run_pass _ _ _ _ _ (local_attached m s l Hl)).
  rewrite (phase_run_pass _ _ _ _ _ (on_query_plain m s Hh)).
  assert (lease (note_protocol m s) = Some l ∧ registry (note_protocol m s) = registry s) as [Hl' Hr]
    by by destruct m.
  rewrite (phase_run_pass _ _ _ _ _ (registry_unanswered m (note_protocol m s) ltac:(by rewrite Hr))).
  rewrite (phase_run_pass _ _ _ _ _ (attach_attached _ m (parse_name m) _ l Hl')).
  set (s1 := (note_statement _ _) <| attached := true |>).
  assert (hooks s1 = None ∧ lease s1 = Some l) as [Hh1 Hl1].
  { subst s1. destruct m; try done. simpl. destruct name as [n|]; simpl; [case_decide|]; done. }
  rewrite (phase_run_pass _ _ _ _ _ (frontend_hook_plain m s1 Hh1)). by apply forward_ok.
Qed.

(** ** Server to client *)

Context {L : PlatformLaws P} {SL : ServerLaws P}.

(** What state tracking leaves alone. *)
Definition steady (s s' : Session) : Prop :=
  ds_sent (downstream s') = ds_sent (downstream s) ∧
  ds_gone_after (downstream s') = ds_gone_after (downstream s) ∧
  hooks s' = hooks s ∧ s_pools s' = s_pools s ∧ draining s' = draining s ∧
  registry s' = registry s ∧ lease_pool <$> lease s' = lease_pool <$> lease s.

(** The status the detach decision sees. *)
Definition detach_status (m : PgWireBackendMessage) (s : Session) : TransactionStatus :=
  match m with BReadyForQuery st => st | _ => lease_status s end.

Lemma track_spec m s l :
  lease s = Some l →
  ∃ s', track m s = (Ready (detach_status m s), s') ∧ steady s s'.
Proof.
  intros Hl. unfold steady, detach_status, track, on_lease, lease_status, set_downstream_status.
  unfold mbind, async_bind, gets, modify, mret, async_ret.
  destruct m; simpl; rewrite Hl; simpl; rewrite ?status_set_param;
    (eexists; split; [reflexivity|]); simpl; rewrite ?Hl; done.
Qed.

(** [deliver] of a message the client takes: it is sent, and the connection is
    returned when a cycle of a transaction-mode session ended idle. *)
Definition detaches (m : PgWireBackendMessage) (st : TransactionStatus) : bool :=
  is_ready_for_query m && cx_transaction_mode && bool_decide (st = Idle).

Lemma detach_if_idle_spec st dirty s l p :
  lease s = Some l → s_pools s !! lease_pool l = Some p →
  if cx_transaction_mode && bool_decide (st = Idle) then
    ∃ s' w', detach_if_idle st dirty cx_transaction_mode s = (Ready true, s') ∧
      lease s' = None ∧ downstream s' = downstream s ∧
      checkin_detached l dirty (MkPoolWorld p (s_env s)) = (Ready (), w') ∧
      s_pools s' = <[lease_pool l := pool w']> (s_pools s) ∧ registry s' = registry s
  else detach_if_idle st dirty cx_transaction_mode s = (Ready false, s).
Proof.
  intros Hl Hp. unfold detach_if_idle. destruct cx_transaction_mode; simpl; [|done].
  case_bool_decide as Hst; [|by rewrite decide_True].
  rewrite decide_False by (by intros []).
  rewrite (bind_ready _ _ _ (Some l) s) by (unfold gets; by rewrite Hl).
  rewrite (bind_ready _ _ _ () (s <| lease := None |>)) by done.
  destruct (checkin_detached_total l dirty (MkPoolWorld p (s_env s))) as (w' & Hw & _).
  eexists _, w'. split.
  - etrans; [eapply bind_ready; unfold with_pool; simpl; rewrite Hp, Hw; reflexivity|]. reflexivity.
  - done.
Qed.

(** The lease of a detached session, in its pool. *)
Definition given_back (l : UpstreamLease) (dirty : bool) (p : PoolInner) (s s' : Session) : Prop :=
  lease s' = None ∧ attached s' = false ∧
  ∃ p', handed_back l dirty (s_env s) p p' ∧ s_pools s' = <[lease_pool l := p']> (s_pools s).

Lemma deliver_plain st m s l p :
  hooks s = None → client_there s → lease s = Some l → s_pools s !! lease_pool l = Some p →
  ∃ s', deliver st m s =
      (Ready (if is_ready_for_query m && draining s then Break ClientGone else Continue), s') ∧
    ds_sent (downstream s') = ds_sent (downstream s) ++ [m] ∧
    (if detaches m st && negb (draining s) then given_back l (lease_dirty s) p s s'
     else lease s' = Some l ∧ s_pools s' = s_pools s).
Proof.
  intros Hh Hcl Hl Hp. unfold deliver, detaches, cycle_active.
  rewrite (bind_ready _ _ _ false s) by (unfold gets; by rewrite Hh).
  rewrite andb_false_r. rewrite (bind_ready _ _ _ None s) by done.
  rewrite (phase_run_pass _ _ _ _ _ (send_or_gone_there m s Hcl)).
  set (s1 := (sent_down m s) <| backend ::= λ n, u64_add n 1 |>).
  rewrite (bind_ready _ _ _ () s1) by done. rewrite (bind_ready _ _ _ () s1) by done.
  rewrite (bind_ready _ _ _ (draining s) s1) by done.
  destruct (is_ready_for_query m); simpl; [|by exists s1].
  destruct (draining s); simpl; [by exists s1; rewrite andb_false_r|]. rewrite andb_true_r.
  rewrite (bind_ready _ _ _ (lease_dirty s) s1) by done.
  pose proof (detach_if_idle_spec st (lease_dirty s) s1 l p Hl Hp) as Hd.
  destruct (cx_transaction_mode && bool_decide (st = Idle)).
  - destruct Hd as (s2 & w & Hd & Hl2 & Hds & Hw & Hps & _). rewrite (bind_ready _ _ _ _ _ Hd).
    eexists. split; [reflexivity|]. simpl. rewrite Hds. split; [done|]. split; [done|]. split; [done|].
    exists (pool w). split; [|done]. destruct (checkin_detached_returns l (lease_dirty s)
      (MkPoolWorld p (s_env s1))) as (w' & Hw' & Hb). rewrite Hw in Hw'. by injection Hw' as <-.
  - rewrite (bind_ready _ _ _ _ _ Hd). by exists s1.
Qed.

(** What the pump caches of a server message on the connection. *)
Definition cached (m : PgWireBackendMessage) : PgWireClient → PgWireClient :=
  match m with
  | BReadyForQuery st => set_transaction_status st
  | BParameterStatus n v => set_server_parameter n v
  | _ => λ c, c
  end.

(** The [ReadyForQuery] that ends a response. *)
Lemma ready_delivered st s l p c :
  hooks s = None → client_there s → lease s = Some l → s_pools s !! lease_pool l = Some p →
  conn_next (conn l) = (Ready (Some (Ok (BReadyForQuery st))), c) →
  ∃ s', on_event EvUpstream s = (Ready (if draining s then Break ClientGone else Continue), s') ∧
    ds_sent (downstream s') = ds_sent (downstream s) ++ [BReadyForQuery st] ∧
    (if cx_transaction_mode && bool_decide (st = Idle) && negb (draining s)
     then given_back (l <| conn := set_transaction_status st c |>) (lease_dirty s) p s s'
     else lease s' = Some (l <| conn := set_transaction_status st c |>) ∧ s_pools s' = s_pools s).
Proof.
  intros Hh Hcl Hl Hp Hn. simpl.
  rewrite (bind_ready _ _ _ (Some l) s) by (unfold gets; by rewrite Hl).
  set (s1 := s <| lease := Some (l <| conn := c |>) |>).
  rewrite (bind_ready _ _ _ (Some (Ok (BReadyForQuery st))) s1) by (unfold on_lease; by rewrite Hl, Hn).
  unfold on_server_message. set (l2 := l <| conn := set_transaction_status st c |>).
  set (s2 := s1 <| lease := Some l2 |> <| downstream ::= λ d, d <| ds_status := st |> |>
                <| hygiene := MkHygiene false CopyNone |> <| fed_since_rfq := 0%Z |>).
  rewrite (bind_ready _ _ _ st s2) by done.
  rewrite (bind_ready _ _ _ (Some (BReadyForQuery st)) s2)
    by (unfold observe; by rewrite (bind_ready _ _ _ None s2) by (unfold gets; simpl; by rewrite Hh)).
  rewrite (phase_run_pass _ _ _ (Some (BReadyForQuery st)) s2)
    by (unfold backend_hook_phase; by rewrite (bind_ready _ _ _ None s2) by (unfold gets; simpl; by rewrite Hh)).
  destruct (deliver_plain st (BReadyForQuery st) s2 l2 p) as (s3 & Hd & Hs3 & Hl3); [done..|].
  exists s3. split; [exact Hd|]. split; [done|exact Hl3].
Qed.

(** ** Local answers *)

(** The telemetry hook of the interceptor completes. *)
Class HooksComplete : Prop :=
  cycle_end_ready rep st : ∃ st', on_cycle_end rep st = (Ready (), st').
Context {HC : HooksComplete}.

(** Nothing reached or left the upstream side, and the client is as much there
    as before. *)
Definition untouched (s s' : Session) : Prop :=
  lease s' = lease s ∧ s_pools s' = s_pools s ∧ registry s' = registry s ∧
  hygiene s' = hygiene s ∧ attached s' = attached s ∧ draining s' = draining s ∧
  lease_dirty s' = lease_dirty s ∧
  ds_gone_after (downstream s') = ds_gone_after (downstream s) ∧
  (is_Some (hooks s) → is_Some (hooks s')).

#[global] Instance untouched_preorder : PreOrder untouched.
Proof. split; unfold untouched; [done|]. intros ???. naive_solver congruence. Qed.

(** As [untouched], and nothing was sent or decided. *)
Definition quiet (s s' : Session) : Prop :=
  untouched s s' ∧ downstream s' = downstream s ∧ swallow_until_sync s' = swallow_until_sync s.

Lemma now_quiet s : ∃ t s', now_s s = (Ready t, s') ∧ quiet s s'.
Proof.
  unfold now_s, zoom. destruct (clock_ready (s_env s)) as (t & e & ->).
  eexists _, _. split; [done|]. by unfold quiet, untouched.
Qed.

Lemma on_cycle_quiet f s : quiet s (on_cycle f s).2.
Proof.
  unfold quiet, untouched. simpl. split_and!; try done. intros [h ->]. by eexists.
Qed.

Lemma start_cycle_quiet q k s : ∃ s', start_cycle q k s = (Ready (), s') ∧ quiet s s'.
Proof.
  unfold start_cycle. destruct (now_quiet s) as (t & s1 & H1 & Q1).
  rewrite (bind_ready _ _ _ _ _ H1). eexists. split; [reflexivity|].
  destruct (on_cycle_quiet (cycle_start q k t) s1) as (U2 & ? & ?). destruct Q1 as (U1 & ? & ?).
  split; [by etrans|]. by split; etrans.
Qed.

Lemma end_cycle_quiet s : ∃ s', end_cycle s = (Ready (), s') ∧ quiet s s'.
Proof.
  unfold end_cycle, finish_cycle. destruct (now_quiet s) as (t & s1 & H1 & U1 & D1 & W1).
  unfold take_report. destruct (hooks s1) as [h|] eqn:Hh.
  - set (rep := (cycle_finish t (h_cycle h)).1).
    set (s2 := s1 <| hooks := Some (h <| h_cycle := (cycle_finish t (h_cycle h)).2 |>) |>).
    rewrite (bind_ready _ _ _ (Some rep) s2).
    2: { rewrite (bind_ready _ _ _ _ _ H1). by rewrite Hh. }
    unfold hook. simpl. destruct (cycle_end_ready rep (h_state h, s_env s1)) as ([st e] & ->).
    eexists. split; [reflexivity|]. unfold quiet, untouched in *. simpl.
    destruct U1 as (?&?&?&?&?&?&?&?&?). split_and!; try done.
  - rewrite (bind_ready _ _ _ None s1).
    2: { rewrite (bind_ready _ _ _ _ _ H1). by rewrite Hh. }
    exists s1. by unfold quiet.
Qed.

(** [deny] answers the client and nothing else. *)
Definition answers (ms : list PgWireBackendMessage) (s s' : Session) : Prop :=
  untouched s s' ∧ ds_sent (downstream s') = ds_sent (downstream s) ++ ms.

Lemma deny_spec input info s :
  client_there s →
  ∃ s', deny input info s = (Ready (inl Continue), s') ∧
    answers (error_response info :: if is_extended (ci_kind input) then []
                                    else [BReadyForQuery (lease_status s)]) s s' ∧
    swallow_until_sync s' = is_extended (ci_kind input) || swallow_until_sync s.
Proof.
  intros Hcl. unfold deny.
  destruct (start_cycle_quiet (Some (ci_sql input)) (ci_kind input) s) as (s1 & H1 & U1 & D1 & W1).
  rewrite (bind_ready _ _ _ _ _ H1). unfold set_cycle_error.
  destruct (on_cycle_quiet (λ c, c <| cyc_error := Some (CycleError_from_info info) |>) s1)
    as (U2 & D2 & W2).
  set (s2 := (on_cycle _ s1).2) in *.
  rewrite (bind_ready _ _ _ () s2) by done. clearbody s2.
  assert (untouched s s2) as U by (by etrans). assert (downstream s2 = downstream s) as D by congruence.
  assert (client_there s2) as Hcl2 by (unfold client_there; by rewrite D).
  rewrite (phase_bind_pass _ _ _ _ _ (send_or_gone_there _ _ Hcl2)).
  assert (lease_status s2 = lease_status s) as HL
    by (unfold lease_status; destruct U as (-> & _); done).
  destruct (ci_kind input) as [|st]; simpl.
  - rewrite (bind_ready _ _ _ (lease_status s) (sent_down (error_response info) s2))
      by (unfold gets; by rewrite <-HL).
    rewrite (phase_bind_pass _ _ _ _ _
      (send_or_gone_there _ (sent_down (error_response info) s2) Hcl2)).
    set (s3 := sent_down _ (sent_down _ s2)).
    destruct (end_cycle_quiet s3) as (s4 & H4 & U4 & D4 & W4).
    rewrite (bind_ready _ _ _ _ _ H4). eexists. split; [reflexivity|].
    split; [|rewrite W4; simpl; congruence]. split; [by etrans; [exact U|]|].
    rewrite D4. simpl. by rewrite D, <-app_assoc.
  - eexists. split; [reflexivity|]. split; [|done]. split; [done|]. simpl. by rewrite D.
Qed.

Lemma answers_trans ms1 ms2 s1 s2 s3 :
  answers ms1 s1 s2 → answers ms2 s2 s3 → answers (ms1 ++ ms2) s1 s3.
Proof. intros [? H1] [? H2]. split; [by etrans|]. by rewrite H2, H1, app_assoc. Qed.

Lemma answers_there ms s s' : answers ms s s' → client_there s → client_there s'.
Proof. unfold client_there. intros [(?&?&?&?&?&?&?&->&?) _]. done. Qed.

Lemma quiet_answers s s' : quiet s s' → answers [] s s'.
Proof. intros (? & Hd & _). split; [done|]. by rewrite Hd, app_nil_r. Qed.

Lemma answers_status ms s s' : answers ms s s' → lease_status s' = lease_status s.
Proof. unfold lease_status. intros [(-> & _) _]. done. Qed.

Lemma send_answers m s : client_there s →
  send_or_gone m s = (Ready (inr ()), sent_down m s) ∧ answers [m] s (sent_down m s).
Proof. intros Hc. split; [by apply send_or_gone_there|done]. Qed.

(** [Action::Reply]: the messages, then [ReadyForQuery] at once. *)
Lemma reply_all_spec ms s :
  client_there s → ∃ s', reply_all ms s = (Ready (inr ()), s') ∧ answers ms s s' ∧
                         swallow_until_sync s' = swallow_until_sync s.
Proof.
  revert s. induction ms as [|m ms IH]; intros s Hc; simpl.
  { exists s. split; [done|]. split; [|done]. by apply quiet_answers. }
  pose proof (on_cycle_quiet (note_reply m) s) as Q.
  set (s1 := (on_cycle (note_reply m) s).2) in *.
  rewrite (bind_ready _ _ _ () s1) by done. clearbody s1.
  pose proof (quiet_answers _ _ Q) as A. pose proof (answers_there _ _ _ A Hc) as Hc1.
  rewrite (phase_bind_pass _ _ _ _ _ (send_or_gone_there m s1 Hc1)).
  destruct (IH (sent_down m s1) Hc1) as (s2 & H2 & A2 & W2). exists s2. split; [done|].
  split; [|rewrite W2; by destruct Q as (_ & _ & W)].
  apply (answers_trans [] (m :: ms) s s1 s2 A).
  by apply (answers_trans [m] ms s1 (sent_down m s1)); [apply send_answers|].
Qed.

Lemma reply_spec input ms s :
  client_there s →
  ∃ s', reply input ms s = (Ready (inl Continue), s') ∧
    answers (ms ++ [BReadyForQuery (lease_status s)]) s s' ∧
    swallow_until_sync s' = is_extended (ci_kind input) || swallow_until_sync s.
Proof.
  intros Hc. unfold reply.
  destruct (start_cycle_quiet (Some (ci_sql input)) (ci_kind input) s) as (s1 & H1 & Q1).
  rewrite (bind_ready _ _ _ _ _ H1). pose proof (quiet_answers _ _ Q1) as A1.
  destruct (reply_all_spec ms s1) as (s2 & H2 & A2 & W2); [by eapply answers_there|].
  rewrite (phase_bind_pass _ _ _ _ _ H2).
  pose proof (answers_trans _ _ _ _ _ A1 A2) as A. simpl in A.
  rewrite (bind_ready _ _ _ (lease_status s) s2)
    by (unfold gets; by rewrite (answers_status _ _ _ A)).
  pose proof (answers_there _ _ _ A Hc) as Hc2.
  rewrite (phase_bind_pass _ _ _ _ _ (send_or_gone_there _ s2 Hc2)).
  set (s3 := sent_down _ s2).
  assert (answers (ms ++ [BReadyForQuery (lease_status s)]) s s3) as A3
    by (eapply answers_trans; [exact A|]; by apply send_answers).
  assert (swallow_until_sync s3 = swallow_until_sync s) as W3
    by (destruct Q1 as (_ & _ & <-); exact W2).
  destruct (ci_kind input) as [|n]; simpl.
  - destruct (end_cycle_quiet s3) as (s4 & H4 & Q4). rewrite (bind_ready _ _ _ _ _ H4).
    eexists. split; [reflexivity|]. split; [|destruct Q4 as (_ & _ & ->); exact W3].
    rewrite <-(app_nil_r (ms ++ _)). eapply answers_trans; [exact A3|]. by apply quiet_answers.
  - eexists. split; [reflexivity|]. split; [|done]. exact A3.
Qed.

(** ** Injected answers over a whole cycle *)

(** The client sends [ms]. *)
Definition client_events (ms : list PgWireFrontendMessage) : list Event :=
  (λ m, EvClient (Some (Ok m))) <$> ms.

(** Between an injected answer and [Sync]. *)
Definition mid_cycle (m : PgWireFrontendMessage) : Prop := m ≠ FSync ∧ m ≠ FTerminate.

(** The interceptor decides [a] about the cycle that [m] opens. *)
Definition verdict (m : PgWireFrontendMessage) (s : Session) (i : CycleInput) (a : Action) : Prop :=
  cycle_input_of m = Some i ∧
  ∃ h c st, hooks s = Some h ∧
    on_query (QueryCycle_new (ci_sql i) (ci_kind i)) (h_state h, s_env s) = (Ready (a, c), st).

Lemma verdict_runs m s i a (k : phase PgWireFrontendMessage) :
  verdict m s i a → swallow_until_sync s = false →
  match a with Deny info => k = deny i info | Reply ms => k = reply i ms | _ => False end →
  ∃ s1, quiet s s1 ∧ ∀ s2, k s1 = (Ready (inl Continue), s2) →
    on_event (EvClient (Some (Ok m))) s = (Ready Continue, s2).
Proof.
  intros [Hi (h & c & [st e] & Hh & Hq)] Hsw Hk.
  assert (on_event (EvClient (Some (Ok m))) s = on_client_message m s) as -> by by destruct m.
  set (s0 := s <| cycle_is_extended := is_extended (ci_kind i) |>).
  set (s1 := s0 <| hooks := Some (h <| h_state := st |>) |> <| s_env := e |>).
  exists s1. split; [unfold quiet, untouched; simpl; split_and!; try done|].
  intros s2 Hs2. unfold on_client_message.
  rewrite (bind_ready _ _ _ false s) by (unfold gets; by rewrite Hsw).
  rewrite (phase_run_pass _ _ _ () s).
  2: { unfold local_phase. rewrite (bind_ready _ _ _ (lease s) s) by done.
       destruct m, cx_transaction_mode, (lease s); done. }
  apply phase_run_stop. unfold on_query_phase. rewrite Hi.
  rewrite (bind_ready _ _ _ () s0) by done.
  rewrite (bind_ready _ _ _ (Some h) s0) by (unfold gets; simpl; by rewrite Hh).
  rewrite (bind_ready _ _ _ (a, c) s1) by (unfold hook; simpl; by rewrite Hh, Hq).
  destruct a; try done; by subst k.
Qed.

Lemma pump_app evs1 evs2 s s1 :
  pump evs1 s = (Ready None, s1) → pump (evs1 ++ evs2) s = pump evs2 s1.
Proof.
  revert s. induction evs1 as [|ev evs1 IH]; intros s; simpl; [by intros [= ->]|].
  intros (f & s' & Hev & H)%bind_ready_inv. rewrite (bind_ready _ _ _ _ _ Hev).
  destruct f; [by apply IH|done].
Qed.

Lemma pump_cons ev evs s s1 :
  on_event ev s = (Ready Continue, s1) → pump (ev :: evs) s = pump evs s1.
Proof. intros Hev. simpl. by rewrite (bind_ready _ _ _ _ _ Hev). Qed.

Lemma pump_swallowed ms s :
  swallow_until_sync s = true → Forall mid_cycle ms →
  pump (client_events ms) s = (Ready None, s).
Proof.
  intros Hsw. induction 1 as [|m ms [? ?] _ IH]; [done|].
  change (client_events (m :: ms)) with (EvClient (Some (Ok m)) :: client_events ms).
  rewrite (pump_cons _ _ _ s); [done|].
  assert (on_event (EvClient (Some (Ok m))) s = on_client_message m s) as -> by by destruct m.
  unfold on_client_message. rewrite (bind_ready _ _ _ true s) by (unfold gets; by rewrite Hsw).
  by destruct m.
Qed.

Lemma swallowed_sync s :
  swallow_until_sync s = true → client_there s →
  ∃ s', on_event (EvClient (Some (Ok FSync))) s = (Ready Continue, s') ∧
    answers [BReadyForQuery (lease_status s)] s s' ∧ swallow_until_sync s' = false.
Proof.
  intros Hsw Hc. simpl. unfold on_client_message.
  rewrite (bind_ready _ _ _ true s) by (unfold gets; by rewrite Hsw). simpl.
  set (s1 := s <| swallow_until_sync := false |>).
  rewrite (bind_ready _ _ _ () s1) by done.
  rewrite (bind_ready _ _ _ (lease_status s) s1) by done.
  rewrite (phase_run_pass _ _ _ _ _ (send_or_gone_there _ s1 Hc)).
  destruct (end_cycle_quiet (sent_down (BReadyForQuery (lease_status s)) s1)) as (s2 & H2 & U & D & W).
  rewrite (bind_ready _ _ _ _ _ H2). eexists. split; [reflexivity|].
  split; [|exact W]. split; [exact U|]. by rewrite D.
Qed.

(** What follows an injected answer to [m] up to the end of the client's
    cycle: nothing for a simple query, for an extended cycle the messages
    [rest] that were still on their way, then [Sync]. *)
Definition rest_of_cycle (i : CycleInput) (rest : list PgWireFrontendMessage) :=
  if is_extended (ci_kind i) then rest ++ [FSync] else [].

Lemma injected_cycle m rest s i a ms (k : phase PgWireFrontendMessage) :
  verdict m s i a → swallow_until_sync s = false → client_there s → Forall mid_cycle rest →
  match a with Deny info => k = deny i info | Reply ms => k = reply i ms | _ => False end →
  (∀ s1, client_there s1 → lease_status s1 = lease_status s →
     swallow_until_sync s1 = false → ∃ s2, k s1 = (Ready (inl Continue), s2) ∧
     answers ms s1 s2 ∧ swallow_until_sync s2 = is_extended (ci_kind i)) →
  ∃ s', pump (client_events (m :: rest_of_cycle i rest)) s = (Ready None, s') ∧
    answers (ms ++ if is_extended (ci_kind i) then [BReadyForQuery (lease_status s)] else []) s s' ∧
    swallow_until_sync s' = false.
Proof.
  intros Hv Hsw Hc Hrest Ha Hk.
  destruct (verdict_runs m s i a k Hv Hsw Ha) as (s1 & Q1 & Hev).
  pose proof (quiet_answers _ _ Q1) as A1. pose proof (answers_there _ _ _ A1 Hc) as Hc1.
  destruct (Hk s1) as (s2 & H2 & A2 & W2); [done|by eapply answers_status|
    by destruct Q1 as (_ & _ & ->)|].
  pose proof (answers_trans _ _ _ _ _ A1 A2) as A. simpl in A.
  change (client_events (m :: rest_of_cycle i rest))
    with (EvClient (Some (Ok m)) :: client_events (rest_of_cycle i rest)).
  rewrite (pump_cons _ _ _ _ (Hev s2 H2)). unfold rest_of_cycle.
  destruct (is_extended (ci_kind i)).
  - unfold client_events. rewrite fmap_app. rewrite (pump_app _ _ _ _ (pump_swallowed rest s2 W2 Hrest)).
    destruct (swallowed_sync s2) as (s3 & H3 & A3 & W3); [done|by eapply answers_there|].
    simpl fmap. rewrite (pump_cons _ _ _ _ H3). exists s3. split; [done|]. split; [|done].
    rewrite <-(answers_status _ _ _ A). by eapply answers_trans.
  - exists s2. split; [done|]. rewrite app_nil_r. done.
Qed.

(** C5: a denied cycle is answered by the proxy alone: the client receives
    exactly the error and one [ReadyForQuery], at once for a simple query and
    at its [Sync] for an extended cycle whatever it pipelined in between, and
    neither the server connection nor the pools are touched. *)
Theorem deny_answers_locally m rest s i info :
  verdict m s i (Deny info) → swallow_until_sync s = false → client_there s →
  Forall mid_cycle rest →
  ∃ s', pump (client_events (m :: rest_of_cycle i rest)) s = (Ready None, s') ∧
    answers [error_response info; BReadyForQuery (lease_status s)] s s' ∧
    swallow_until_sync s' = false.
Proof.
  intros Hv Hsw Hc Hr.
  destruct (injected_cycle m rest s i (Deny info)
    (error_response info :: if is_extended (ci_kind i) then [] else [BReadyForQuery (lease_status s)])
    (deny i info) Hv Hsw Hc Hr eq_refl) as (s' & ? & A & ?).
  - intros s1 Hc1 Hl1 Hw1. destruct (deny_spec i info s1 Hc1) as (s2 & ? & ? & W).
    exists s2. rewrite Hl1, Hw1, orb_false_r in *. done.
  - exists s'. split; [done|]. split; [|done]. by destruct (is_extended (ci_kind i)).
Qed.

(** A reply from [on_query] to a simple query is the reply and one
    [ReadyForQuery]; in an extended cycle the client receives a second
    [ReadyForQuery] when its [Sync] arrives, for one cycle. *)
Theorem reply_answers_locally m rest s i ms :
  verdict m s i (Reply ms) → swallow_until_sync s = false → client_there s →
  Forall mid_cycle rest →
  ∃ s', pump (client_events (m :: rest_of_cycle i rest)) s = (Ready None, s') ∧
    answers (ms ++ BReadyForQuery (lease_status s) ::
             if is_extended (ci_kind i) then [BReadyForQuery (lease_status s)] else []) s s' ∧
    swallow_until_sync s' = false.
Proof.
  intros Hv Hsw Hc Hr.
  destruct (injected_cycle m rest s i (Reply ms) (ms ++ [BReadyForQuery (lease_status s)])
    (reply i ms) Hv Hsw Hc Hr eq_refl) as (s' & ? & A & ?).
  - intros s1 Hc1 Hl1 Hw1. destruct (reply_spec i ms s1 Hc1) as (s2 & ? & ? & W).
    exists s2. rewrite Hl1, Hw1, orb_false_r in *. done.
  - exists s'. split; [done|]. split; [|done]. by rewrite <-app_assoc in A.
Qed.

(** ** Whole exchanges without an interceptor *)

(** What passes between client and server: a message up, or one down. *)
Inductive Turn :=
| Up (m : PgWireFrontendMessage)
| Down (m : PgWireBackendMessage).

Definition turn_event (t : Turn) : Event :=
  match t with Up m => EvClient (Some (Ok m)) | Down _ => EvUpstream end.

Definition downs (ts : list Turn) : list PgWireBackendMessage :=
  omap (λ t, match t with Down m => Some m | Up _ => None end) ts.

(** On the connection: what goes up is sent, flushed when the server may answer
    it; what comes down is what the server has next, and is recorded there. *)
Fixpoint exchanged (ts : list Turn) (c c' : PgWireClient) : Prop :=
  match ts with
  | [] => c' = c
  | Up m :: ts => ∃ c1, conn_forward m c = (Ready (Ok ()), c1) ∧ exchanged ts c1 c'
  | Down m :: ts => ∃ c1, conn_next c = (Ready (Some (Ok m)), c1) ∧ exchanged ts (cached m c1) c'
  end.

(** Turns within one response that the pump has no part in, from a session
    with the statements [r]. *)
Fixpoint undisturbed (ts : list Turn) (r : StatementRegistry) : Prop :=
  match ts with
  | [] => True
  | Up m :: ts => unanswered m r ∧ undisturbed ts (recorded m r)
  | Down m :: ts => is_ready_for_query m = false ∧ undisturbed ts r
  end.

(** A turn after which the connection is not as a fresh one. *)
Definition dirties (t : Turn) : bool :=
  match t with
  | Up m => bool_decide (is_Some (parse_name m))
  | Down (BParameterStatus _ _) => cx_transaction_mode
  | Down _ => false
  end.

(** The session after the turns [ts], its connection apart. *)
Record talked (ts : list Turn) (s s' : Session) : Prop := {
  tk_sent : ds_sent (downstream s') = ds_sent (downstream s) ++ downs ts;
  tk_there : client_there s';
  tk_hooks : hooks s' = None;
  tk_swallow : swallow_until_sync s' = swallow_until_sync s;
  tk_pools : s_pools s' = s_pools s;
  tk_env : s_env s' = s_env s;
  tk_draining : draining s' = draining s;
  tk_dirty : lease_dirty s' = lease_dirty s || existsb dirties ts;
  tk_registry : registry s' = foldl (λ r t, match t with Up m => recorded m r | Down _ => r end) (registry s) ts
}.

Lemma turn_up m s l c1 :
  hooks s = None → client_there s → lease s = Some l → swallow_until_sync s = false →
  unanswered m (registry s) → conn_forward m (conn l) = (Ready (Ok ()), c1) →
  ∃ s', on_event (EvClient (Some (Ok m))) s = (Ready Continue, s') ∧
    talked [Up m] s s' ∧ lease s' = Some (l <| conn := c1 |>).
Proof.
  intros Hh Hc Hl Hsw Hun Hf. eexists. split; [by apply forwarded|]. split; [|done].
  unfold client_there, went_through in *.
  destruct m as [| | | | |[n|]| | | | | | | | | | |]; try case_decide; split;
    unfold client_there, dirties, recorded; simpl; rewrite ?app_nil_r, ?orb_false_r; try done.
  all: case_decide; simpl; by rewrite ?orb_false_r, ?orb_true_r.
Qed.

Lemma turn_down m s l c :
  hooks s = None → client_there s → lease s = Some l →
  conn_next (conn l) = (Ready (Some (Ok m)), c) → is_ready_for_query m = false →
  ∃ s', on_event EvUpstream s = (Ready Continue, s') ∧
    talked [Down m] s s' ∧ lease s' = Some (l <| conn := cached m c |>).
Proof.
  intros Hh Hc Hl Hn Hm. destruct s as [d e ps le ho fa re gu ld ce fs ci fr ba hy sw dr at_].
  unfold client_there in *. simpl in *; subst.
  unfold on_lease, on_server_message, track, observe, backend_hook_phase, deliver, cycle_active,
    send_or_gone, ds_send, ds_push, phase_run, bump_backend, pass, on_lease.
  unfold mbind, async_bind, gets, modify, mret, async_ret; simpl. rewrite Hn. simpl.
  destruct m; try discriminate Hm; simpl; rewrite Hc; simpl; (eexists; split; [reflexivity|]);
    (split; [|done]); split; unfold client_there; simpl; rewrite ?orb_false_r; try done.
  by rewrite orb_comm.
Qed.

Lemma talked_trans ts1 ts2 s1 s2 s3 : talked ts1 s1 s2 → talked ts2 s2 s3 → talked (ts1 ++ ts2) s1 s3.
Proof.
  intros [S1 _ _ W1 P1 E1 G1 L1 R1] [S2 C2 H2 W2 P2 E2 G2 L2 R2].
  split; try done; try congruence.
  - unfold downs in *. by rewrite omap_app, S2, S1, app_assoc.
  - by rewrite L2, L1, existsb_app, orb_assoc.
  - by rewrite R2, R1, foldl_app.
Qed.

(** A session that swallows its client's messages has only its server's left to
    hand on. *)
Definition only_downs_swallowing (ts : list Turn) (s : Session) : Prop :=
  swallow_until_sync s = false ∨ ∃ ms, ts = Down <$> ms.

(** The turns run one by one; whatever they are, the pump hands on each and
    keeps the connection. *)
Lemma exchange ts s l c' :
  hooks s = None → client_there s → lease s = Some l → only_downs_swallowing ts s →
  undisturbed ts (registry s) → exchanged ts (conn l) c' →
  ∃ s', pump (turn_event <$> ts) s = (Ready None, s') ∧ talked ts s s' ∧ lease s' = Some (l <| conn := c' |>).
Proof.
  revert s l. induction ts as [|t ts IH]; intros s l Hh Hc Hl Hsw Hun.
  { simpl. intros ->. exists s. split; [done|]. split; [|by destruct l].
    by split; simpl; rewrite ?app_nil_r, ?orb_false_r. }
  intros Hex. assert (∃ s1 c1, on_event (turn_event t) s = (Ready Continue, s1) ∧ talked [t] s s1 ∧
    lease s1 = Some (l <| conn := c1 |>) ∧ undisturbed ts (registry s1) ∧ exchanged ts c1 c')
    as (s1 & c1 & Hev & T1 & Hl1 & Hun1 & Hex1).
  { destruct t as [m|m]; simpl in Hun, Hex; destruct Hun as [Hm Hun], Hex as (c1 & Hf & Hex).
    - assert (swallow_until_sync s = false) as Hsw0 by (by destruct Hsw as [?|[[] ?]]).
      destruct (turn_up m s l c1 Hh Hc Hl Hsw0 Hm Hf) as (s1 & Hev & T1 & Hl1).
      exists s1, c1. split_and!; try done. by rewrite (tk_registry _ _ _ T1).
    - destruct (turn_down m s l c1 Hh Hc Hl Hf Hm) as (s1 & Hev & T1 & Hl1).
      exists s1, (cached m c1). split_and!; try done. by rewrite (tk_registry _ _ _ T1). }
  destruct (IH s1 _ (tk_hooks _ _ _ T1) (tk_there _ _ _ T1) Hl1) as (s2 & Hp & T2 & Hl2); [|done|done|].
  { unfold only_downs_swallowing. rewrite (tk_swallow _ _ _ T1). destruct Hsw as [?|[ms Hms]]; [by left|right].
    destruct ms as [|m ms]; [done|]. exists ms. by injection Hms. }
  exists s2. split; [by rewrite fmap_cons, (pump_cons _ _ _ _ Hev)|].
  split; [exact (talked_trans [t] ts _ _ _ T1 T2)|done].
Qed.

(** C7: passthrough, client to server: with no interceptor and a client that
    reads, an attached session that is not swallowing a refused batch hands on whatever its client sends, unchanged
    and in order, on the server connection: everything but [Terminate], which
    ends the session, and a [Parse] of a name it has registered, which it
    answers itself.  A query, [Sync], [Flush] and the messages of a [COPY] are
    flushed, the others buffered.  Nothing is sent to the client, the pools are
    as before, and exactly the named statements were registered and mark the
    connection for its reset. *)
Theorem client_passthrough ms l c' s :
  hooks s = None → client_there s → lease s = Some l → swallow_until_sync s = false →
  undisturbed (Up <$> ms) (registry s) → exchanged (Up <$> ms) (conn l) c' →
  ∃ s', pump (client_events ms) s = (Ready None, s') ∧
    lease s' = Some (l <| conn := c' |>) ∧ ds_sent (downstream s') = ds_sent (downstream s) ∧
    s_pools s' = s_pools s ∧ registry s' = foldl (λ r m, recorded m r) (registry s) ms ∧
    lease_dirty s' = lease_dirty s || existsb (λ m, bool_decide (is_Some (parse_name m))) ms.
Proof.
  intros Hh Hc Hl Hsw Hun Hex. destruct (exchange _ _ _ _ Hh Hc Hl (or_introl Hsw) Hun Hex) as (s' & Hp & T & Hl').
  exists s'. split; [by rewrite <-Hp, <-list_fmap_compose|]. split; [done|].
  destruct T as [-> _ _ _ -> _ _ -> ->]. clear. split_and!.
  - induction ms; [apply app_nil_r|done].
  - done.
  - generalize (registry s). induction ms as [|m ms IH]; intros r; [done|apply IH].
  - f_equal. induction ms as [|m ms IH]; [done|].
    change (dirties (Up m) || existsb dirties (Up <$> ms) =
      bool_decide (is_Some (parse_name m)) || existsb (λ m, bool_decide (is_Some (parse_name m))) ms). by rewrite IH.
Qed.

(** The server delivers [ms]. *)
Definition serves (ms : list PgWireBackendMessage) : PgWireClient → PgWireClient → Prop := exchanged (Down <$> ms).

(** The pump receives as many messages as a response has. *)
Definition response_events (ms : list PgWireBackendMessage) : list Event :=
  (const EvUpstream <$> ms) ++ [EvUpstream].

Lemma exchanged_app ts1 ts2 c c' : exchanged (ts1 ++ ts2) c c' ↔ ∃ c1, exchanged ts1 c c1 ∧ exchanged ts2 c1 c'.
Proof.
  revert c. induction ts1 as [|[m|m] ts1 IH]; intros c; simpl; [naive_solver|..];
    setoid_rewrite IH; naive_solver.
Qed.

(** Any exchange and then the end of the response. *)
Lemma exchange_ready ts st s l p c' :
  hooks s = None → client_there s → lease s = Some l → only_downs_swallowing ts s →
  s_pools s !! lease_pool l = Some p → undisturbed ts (registry s) →
  exchanged (ts ++ [Down (BReadyForQuery st)]) (conn l) c' →
  ∃ s', pump ((turn_event <$> ts) ++ [EvUpstream]) s =
      (Ready (if draining s then Some ClientGone else None), s') ∧
    ds_sent (downstream s') = ds_sent (downstream s) ++ downs ts ++ [BReadyForQuery st] ∧
    (if cx_transaction_mode && bool_decide (st = Idle) && negb (draining s)
     then given_back (l <| conn := c' |>) (lease_dirty s || existsb dirties ts) p s s'
     else lease s' = Some (l <| conn := c' |>) ∧ s_pools s' = s_pools s).
Proof.
  intros Hh Hc Hl Hsw Hp Hun (c1 & Hex & (c2 & Hn & ->))%exchanged_app.
  destruct (exchange _ _ _ _ Hh Hc Hl Hsw Hun Hex) as (s1 & Hpump & T & Hl1).
  rewrite (pump_app _ _ _ _ Hpump).
  destruct (ready_delivered st s1 _ p c2 (tk_hooks _ _ _ T) (tk_there _ _ _ T) Hl1) as (s' & Hev & Hs & Hback);
    [by rewrite (tk_pools _ _ _ T)|done|].
  exists s'. simpl. rewrite (bind_ready _ _ _ _ _ Hev), (tk_draining _ _ _ T) in *.
  split; [by destruct (draining s)|]. split; [by rewrite Hs, (tk_sent _ _ _ T), <-app_assoc|].
  unfold given_back in *. by rewrite <-(tk_pools _ _ _ T), <-(tk_env _ _ _ T), <-(tk_dirty _ _ _ T).
Qed.

Lemma undisturbed_downs ms r :
  Forall (λ m, is_ready_for_query m = false) ms → undisturbed (Down <$> ms) r.
Proof. induction 1; by split. Qed.

Lemma downs_down ms : downs (Down <$> ms) = ms.
Proof. induction ms as [|m ms IH]; [done|]. change (m :: downs (Down <$> ms) = m :: ms). by rewrite IH. Qed.

(** Whether a response changes a parameter in transaction mode. *)
Definition sets_parameter (ms : list PgWireBackendMessage) : bool := existsb dirties (Down <$> ms).



(** ** The statement registry *)

Lemma registry_known n q oids known known_oids s :
  n ≠ EmptyString → registry s !! n = Some (known, known_oids) → client_there s →
  registry_phase (FParse (Some n) q oids) s =
  (Ready (inl Continue),
   if decide (known = q) then sent_down BParseComplete s
   else (sent_down (error_response (MkErrorInfo "ERROR" "42P05"
           ("prepared statement " +:+ String "034" (n +:+ String "034" " already exists (pgferry)")))) s)
        <| swallow_until_sync := true |>).
Proof.
  intros Hn Hr Hc. simpl. rewrite decide_False by done.
  rewrite (bind_ready _ _ _ (Some (known, known_oids)) s)
    by (unfold gets, lookup_statement; by rewrite Hr).
  case_decide; by rewrite (phase_bind_pass _ _ _ _ _ (send_or_gone_there _ _ Hc)).
Qed.

Lemma parse_known n q oids known known_oids s :
  hooks s = None → swallow_until_sync s = false → n ≠ EmptyString →
  registry s !! n = Some (known, known_oids) → client_there s →
  on_event (EvClient (Some (Ok (FParse (Some n) q oids)))) s =
  (Ready Continue, (registry_phase (FParse (Some n) q oids) (note_protocol (FParse (Some n) q oids) s)).2).
Proof.
  intros Hh Hsw Hn Hr Hc. simpl on_event. unfold on_client_message.
  rewrite (bind_ready _ _ _ false s) by (unfold gets; by rewrite Hsw).
  rewrite (phase_run_pass _ _ _ () s).
  2: { unfold local_phase. rewrite (bind_ready _ _ _ (lease s) s) by done.
       destruct cx_transaction_mode, (lease s); done. }
  rewrite (phase_run_pass _ _ _ _ _ (on_query_plain _ s Hh)). apply phase_run_stop.
  by rewrite (registry_known n q oids known known_oids (note_protocol _ s)).
Qed.

(** A statement the client closed while attached stays registered: the
    [Close] is forwarded to the server, and a later [Parse] of the name with
    other text is refused by the proxy with [42P05] although the server has
    forgotten the name. *)
Theorem closed_statement_still_registered n t q oids known known_oids l c' s :
  hooks s = None → lease s = Some l → swallow_until_sync s = false → client_there s →
  n ≠ EmptyString → registry s !! n = Some (known, known_oids) → known ≠ q →
  conn_forward (FClose (Some n) t) (conn l) = (Ready (Ok ()), c') →
  ∃ s', pump (client_events [FClose (Some n) t; FParse (Some n) q oids]) s = (Ready None, s') ∧
    lease s' = Some (l <| conn := c' |>) ∧ swallow_until_sync s' = true ∧
    ds_sent (downstream s') = ds_sent (downstream s) ++
      [error_response (MkErrorInfo "ERROR" "42P05"
         ("prepared statement " +:+ String "034" (n +:+ String "034" " already exists (pgferry)")))].
Proof.
  intros Hh Hl Hsw Hc Hn Hr Hq Hf. unfold client_events. simpl fmap.
  set (s1 := (after_forward (FClose (Some n) t) (s <| attached := true |>)) <| lease := Some (l <| conn := c' |>) |>).
  rewrite (pump_cons _ _ _ s1) by (by apply forwarded).
  rewrite (pump_cons _ _ _ _ (parse_known n q oids known known_oids s1 Hh Hsw Hn Hr Hc)).
  rewrite (registry_known n q oids known known_oids) by done. rewrite decide_False by done.
  eexists. split; [reflexivity|]. done.
Qed.

(** ** Losing the upstream connection *)

Definition lost_error : ErrorInfo := MkErrorInfo "ERROR" "08006" "upstream connection lost".

(** The pool after a lease of it was destroyed. *)
Definition destroyed (l : UpstreamLease) (p : PoolInner) (s : Session) : gmap PoolKey PoolInner :=
  <[lease_pool l := destroy p]> (s_pools s).

(** [Sync] while swallowing, with no interceptor. *)
Lemma sync_ends_swallowing s :
  hooks s = None → client_there s → swallow_until_sync s = true →
  ∃ s', on_event (EvClient (Some (Ok FSync))) s = (Ready Continue, s') ∧
    ds_sent (downstream s') = ds_sent (downstream s) ++ [BReadyForQuery (lease_status s)] ∧
    swallow_until_sync s' = false ∧ lease s' = lease s ∧ s_pools s' = s_pools s.
Proof.
  intros Hh Hc Hsw. simpl. unfold on_client_message.
  rewrite (bind_ready _ _ _ true s) by (unfold gets; by rewrite Hsw). simpl.
  set (s1 := s <| swallow_until_sync := false |>).
  rewrite (bind_ready _ _ _ () s1), (bind_ready _ _ _ (lease_status s) s1) by done.
  rewrite (phase_run_pass _ _ _ _ _ (send_or_gone_there _ s1 Hc)).
  set (s2 := sent_down _ s1). destruct (now_quiet s2) as (t & s3 & H3 & (Hl & Hp & _) & Hd & Hw).
  assert (hooks s3 = None) as Hh3.
  { revert H3. unfold now_s, zoom. destruct (instant_now _) as [r e]. by intros [= _ <-]. }
  rewrite (bind_ready _ _ _ () s3).
  - eexists. split; [reflexivity|]. by rewrite Hl, Hp, Hd, Hw.
  - unfold end_cycle, finish_cycle. rewrite (bind_ready _ _ _ None s3); [done|].
    rewrite (bind_ready _ _ _ _ _ H3). unfold take_report. by rewrite Hh3.
Qed.

(** C18: when the server closes the connection, the session survives, with no
    interceptor to decide otherwise and a client that reads: the lease is
    destroyed, which gives its permit back, and the cycle in flight, if there is
    one, is answered with error [08006].  For a simple query [ReadyForQuery] idle
    follows at once; for an extended cycle whatever the client still pipelines
    is swallowed, and its [Sync] is answered with [ReadyForQuery] idle and ends
    it.  An idle client sees nothing. *)
Theorem upstream_eof_recovers l p c s :
  hooks s = None → lease s = Some l → s_pools s !! lease_pool l = Some p → client_there s →
  conn_next (conn l) = (Ready None, c) →
  ∃ s', on_event EvUpstream s = (Ready Continue, s') ∧
    lease s' = None ∧ attached s' = false ∧ s_pools s' = destroyed l p s ∧
    awaiting_response (hygiene s') = false ∧
    ds_sent (downstream s') = ds_sent (downstream s) ++
      (if awaiting_response (hygiene s) then
         error_response lost_error :: (if cycle_is_extended s then [] else [BReadyForQuery Idle])
       else []) ∧
    swallow_until_sync s' =
      awaiting_response (hygiene s) && cycle_is_extended s || swallow_until_sync s ∧
    (awaiting_response (hygiene s) && cycle_is_extended s = true →
     ∀ rest, Forall mid_cycle rest →
       ∃ s'', pump (client_events (rest ++ [FSync])) s' = (Ready None, s'') ∧
         ds_sent (downstream s'') = ds_sent (downstream s') ++ [BReadyForQuery Idle] ∧
         swallow_until_sync s'' = false ∧ lease s'' = None ∧ s_pools s'' = s_pools s').
Proof.
  intros Hh Hl Hp Hc Hn.
  assert (∃ s', on_event EvUpstream s = (Ready Continue, s') ∧
    lease s' = None ∧ attached s' = false ∧ s_pools s' = destroyed l p s ∧
    awaiting_response (hygiene s') = false ∧
    ds_sent (downstream s') = ds_sent (downstream s) ++
      (if awaiting_response (hygiene s) then
         error_response lost_error :: (if cycle_is_extended s then [] else [BReadyForQuery Idle])
       else []) ∧
    swallow_until_sync s' =
      awaiting_response (hygiene s) && cycle_is_extended s || swallow_until_sync s ∧
    hooks s' = None ∧ client_there s') as (s' & Hev & Hl' & Ha & Hp' & Hw & Hs & Hsw & Hh' & Hc').
  { destruct s as [d e ps le ho fa re gu ld ce fs ci fr ba hy sw dr at_].
    unfold client_there in *. simpl in *; subst.
    unfold upstream_eof, dispatch_on_upstream_error, drop_broken_lease, destroy_lease, with_pool,
      synthesize_upstream_lost, send_ready_for_query, on_lease, ds_send, ds_push, cycle_active,
      reset_flight, set_downstream_status, on_pool, destroyed, lost_error, error_response.
    unfold mbind, async_bind, gets, modify, mret, async_ret; simpl. rewrite Hn. simpl.
    rewrite Hp. simpl. destruct (awaiting_response hy), ci; simpl; rewrite ?Hc; simpl; rewrite ?Hc;
      simpl; (eexists; split; [reflexivity|]); simpl; rewrite ?app_nil_r, <-?app_assoc; done. }
  exists s'. do 7 (split; [done|]). intros Hext rest Hrest. rewrite Hext in Hsw. simpl in Hsw.
  unfold client_events. rewrite fmap_app, (pump_app _ _ _ _ (pump_swallowed rest s' Hsw Hrest)).
  destruct (sync_ends_swallowing s' Hh' Hc' Hsw) as (s2 & H2 & Hs2 & Hw2 & Hl2 & Hp2).
  exists s2. simpl fmap. rewrite (pump_cons _ _ _ _ H2). split; [done|].
  unfold lease_status in Hs2. rewrite Hl' in Hs2. by rewrite Hl2.
Qed.

End Flow.
