(* ===== verification/PumpInv.v ===== *)
(** * Invariants of the pump

    What holds in every state of a session, whatever the client, the server
    and the interceptor do: a connection that carries prepared statements of
    the session is marked for [DISCARD ALL] before it is shared again. *)

From S2P Require Import Prelude RustStr Messages Config Upstream Reference Row Routing Intercept Pool PoolHygiene Session Attach Pump Chores.

Section Inv.
Context `{P : Platform} {F : Fuel} {I : Interceptor} {X : SessionCtx} {E : ScatterExec}.

(** Statements of the session are on its connection only if it is dirty. *)
Definition dirty_inv (s : Session) : Prop :=
  registry s ≠ ∅ → is_Some (lease s) → lease_dirty s = true.

(** Neither the registry, nor the mark, nor whether a connection is held. *)
Definition frame (s s' : Session) : Prop :=
  registry s' = registry s ∧ lease_dirty s' = lease_dirty s ∧
  (is_Some (lease s') ↔ is_Some (lease s)).

Definition stable (s s' : Session) : Prop := dirty_inv s → dirty_inv s'.

#[global] Instance frame_preorder : PreOrder frame.
Proof.
  split; unfold frame; [naive_solver|].
  intros ??? (-> & -> & ->) (-> & -> & ->). naive_solver.
Qed.

#[local] Instance stable_preorder : PreOrder stable.
Proof. split; [by intros ? ?|]. intros ??? H1 H2 ?. by apply H2, H1. Qed.

Lemma frame_stable s s' : frame s s' → stable s s'.
Proof. unfold frame, stable, dirty_inv. intros (-> & -> & ->). done. Qed.

Lemma keeps_stable {A} (m : async Session A) : keeps frame m → keeps stable m.
Proof. apply keeps_mono, frame_stable. Qed.
#[local] Hint Resolve keeps_stable : keeps.

(** ** Operations that leave the frame alone *)

Lemma keeps_chore {A} (m : async Session A) : keeps chore m → keeps frame m.
Proof. apply keeps_mono. by intros s s' (d & e & h & w & -> & _). Qed.
#[local] Hint Resolve keeps_chore : keeps.

Lemma keeps_with_pool {A} k (m : async PoolWorld A) : keeps frame (with_pool k m).
Proof.
  intros s a s'. unfold with_pool. destruct (s_pools s !! k); [|by intros [= <- <-]].
  destruct (m _). intros [= <- <-]. done.
Qed.

Lemma keeps_on_lease {A} (m : async PgWireClient A) : keeps frame (on_lease m).
Proof.
  intros s a s'. unfold on_lease. destruct (lease s) eqn:Hl; [|by intros [= <- <-]].
  destruct (m _). intros [= <- <-]. unfold frame. simpl. by rewrite Hl.
Qed.

Lemma keeps_resolve_pool e : keeps frame (resolve_pool e).
Proof. intros s a s' [= <- <-]. done. Qed.

Lemma keeps_destroy_lease l : keeps frame (destroy_lease l).
Proof. apply keeps_with_pool. Qed.

#[local] Hint Resolve keeps_with_pool keeps_on_lease keeps_resolve_pool keeps_destroy_lease : keeps.
#[local] Hint Extern 1 (keeps frame (modify _)) =>
  solve [apply keeps_modify; intros ?; unfold frame; repeat case_match; done] : keeps.

Ltac frame_tac := unfold phase_bind, phase_run, pass, stop, lift; keeps_tac.

(** ** Attach and detach *)

Lemma stable_no_lease s s' : lease s' = None → stable s s'.
Proof. unfold stable, dirty_inv. intros -> _ _ [? ?]. done. Qed.

Lemma stable_dirty s s' : lease_dirty s' = true → stable s s'.
Proof. by unfold stable, dirty_inv. Qed.

Lemma keeps_prepare_lease ep l : keeps stable (prepare_lease ep l).
Proof.
  unfold prepare_lease. apply keeps_bind; [apply _|eauto with keeps|intros [[] c]]; [|frame_tac].
  apply keeps_bind; [apply _|frame_tac|intros gucs].
  apply keeps_bind; [apply _|eauto with keeps|intros [[fl dirtied] c1]].
  apply keeps_bind; [apply _| |intros ?].
  { apply keeps_modify. intros s0 Hi Hr Hl. simpl. rewrite (Hi Hr Hl). by rewrite orb_true_r. }
  destruct fl; [frame_tac|].
  apply keeps_bind; [apply _|frame_tac|intros reg].
  apply keeps_bind; [apply _|eauto with keeps|intros [[] c2]]; [|frame_tac].
  intros s b s'. set (s1 := s <| lease_dirty ::= orb (bool_decide (registry s ≠ ∅)) |>).
  rewrite (bind_ready _ _ _ () s1) by done.
  assert (stable s s1) as Hs1.
  { intros Hi Hr Hl. subst s1. simpl. by rewrite bool_decide_true. }
  intros [Hd|(? & s2 & Hd & H)]%bind_inv; apply (keeps_chore _ (chore_upstream_connected _)) in Hd.
  { etrans; [exact Hs1|]. by apply frame_stable. }
  injection H as <- <-. destruct Hd as (Hreg & Hdirty & _).
  intros _ Hr _. simpl in *. rewrite Hdirty. rewrite Hreg in Hr. by rewrite bool_decide_true.
Qed.
#[local] Hint Resolve keeps_prepare_lease : keeps.

Lemma keeps_attempts n q : keeps stable (attempts_loop n q).
Proof.
  induction n as [|n IH]; simpl; unfold attempt, attach_to, send_attach_fatal; frame_tac.
Qed.
#[local] Hint Resolve keeps_attempts : keeps.

Lemma keeps_ensure_attached q : keeps stable (ensure_attached q).
Proof. unfold ensure_attached. frame_tac. Qed.
#[local] Hint Resolve keeps_ensure_attached : keeps.

(** ** The handlers *)

(** What the pump relies on of the scatter executor: it works on connections
    and pools and leaves the session's bookkeeping as it was. *)
Class ScatterLaws : Prop :=
  scatter_frame request : keeps frame (execute_scatter request).
Context {EL : ScatterLaws} {SL : ServerLaws P} {L : PlatformLaws P}.
#[local] Hint Resolve scatter_frame : keeps.

Ltac stable_modify :=
  lazymatch goal with
  | |- keeps stable (modify _) =>
    apply keeps_modify; intros ?;
    first [ by apply frame_stable | by apply stable_no_lease | by apply stable_dirty
          | idtac ]
  end.
#[local] Hint Extern 2 (keeps stable (modify _)) => solve [stable_modify] : keeps.

Lemma keeps_record_close n : keeps stable
  (modify (λ s, s <| registry ::= match n with Some n => record_close n | None => λ r, r end |>)).
Proof.
  apply keeps_modify. intros s Hi. unfold dirty_inv in *. simpl. destruct n as [n|]; [|done].
  intros Hr Hl. apply Hi; [|done]. intros He. apply Hr. unfold record_close. by rewrite He, delete_empty.
Qed.
#[local] Hint Resolve keeps_record_close : keeps.

Lemma keeps_local m : keeps stable (local_phase m).
Proof. unfold local_phase, end_active_cycle. frame_tac. Qed.

Lemma keeps_on_query m : keeps stable (on_query_phase m).
Proof.
  unfold on_query_phase, deny, reply, scatter, set_cycle_error, set_downstream_status. frame_tac.
Qed.

Lemma keeps_attach i m pending : keeps stable (attach_phase i m pending).
Proof. unfold attach_phase, set_attached. frame_tac. Qed.

Lemma keeps_drop_broken : keeps stable drop_broken_lease.
Proof. unfold drop_broken_lease. frame_tac. Qed.
#[local] Hint Resolve keeps_local keeps_on_query keeps_attach keeps_drop_broken : keeps.

Lemma keeps_forward m : keeps stable (forward_phase m).
Proof. unfold forward_phase, send_failed, reset_flight, bump_frontend. frame_tac. Qed.
#[local] Hint Resolve keeps_forward : keeps.

Lemma keeps_client_message m : keeps stable (on_client_message m).
Proof. unfold on_client_message. frame_tac. Qed.

Lemma keeps_track m : keeps stable (track m).
Proof.
  unfold track, set_downstream_status. frame_tac.
  apply keeps_modify. intros s Hi Hr Hl. simpl. by rewrite (Hi Hr Hl), orb_true_r.
Qed.

#[local] Hint Resolve keeps_client_message keeps_track : keeps.

(** The end of a delivery: the mark is cleared only when the connection is
    gone. *)
Lemma detach_no_lease st dirty tm s s' :
  detach_if_idle st dirty tm s = (Ready true, s') → lease s' = None.
Proof.
  unfold detach_if_idle. destruct tm; simpl; [|by intros; async_inv]. case_decide as Hst; [by intros; async_inv|].
  rewrite (bind_ready _ _ _ (lease s) s) by done. destruct (lease s) as [l|]; [|by intros; async_inv].
  rewrite (bind_ready _ _ _ () (s <| lease := None |>)) by done.
  intros (? & s1 & Hwp & Hret)%bind_ready_inv. injection Hret as <-.
  revert Hwp. unfold with_pool. simpl. destruct (s_pools s !! _); [|done].
  destruct (checkin_detached _ _ _). by intros [= -> <-].
Qed.

Lemma keeps_detach st dirty tm : keeps stable (detach_if_idle st dirty tm).
Proof. unfold detach_if_idle. frame_tac. Qed.

Lemma keeps_detach_clears st dirty tm : keeps stable
  (detached ← detach_if_idle st dirty tm;
   _ ← (if detached : bool
        then modify (λ s, s <| lease_dirty := false |> <| attached := false |>)
        else mret ());
   mret Continue).
Proof.
  intros s b s' [Hd|(detached & s1 & Hd & H)]%bind_inv; [by eapply keeps_detach|].
  destruct detached; injection H as <- <-.
  - apply detach_no_lease in Hd. by apply stable_no_lease.
  - by eapply keeps_detach.
Qed.
#[local] Hint Resolve keeps_detach_clears : keeps.

Lemma keeps_deliver st m : keeps stable (deliver st m).
Proof. unfold deliver, finish_cycle, bump_backend. frame_tac. Qed.
#[local] Hint Resolve keeps_deliver : keeps.

Lemma keeps_on_event ev : keeps stable (on_event ev).
Proof.
  assert (keeps stable (A := Flow) upstream_eof).
  { unfold upstream_eof, reset_flight. frame_tac. }
  assert (∀ m, keeps stable (on_server_message m)).
  { intros m. unfold on_server_message, bump_backend. frame_tac. }
  unfold on_event. frame_tac.
Qed.

Lemma keeps_pump evs : keeps stable (pump evs).
Proof.
  pose proof keeps_on_event. induction evs as [|ev evs IH]; simpl; frame_tac.
Qed.

(** C3: no prepared statement of a session leaks through the pool: in every
    state the pump reaches, whatever the client, the server, the interceptor
    and failures do, a connection held while the session has registered
    statements is marked dirty, so that at the end of the transaction it is
    parked only after a successful [DISCARD ALL]. *)
Theorem statements_do_not_leak evs d e pools l0 h att s l p st s' :
  pump evs (pump_init d e pools l0 h att) = (Ready None, s) →
  registry s ≠ ∅ → lease s = Some l → s_pools s !! lease_pool l = Some p →
  detach_if_idle st (lease_dirty s) cx_transaction_mode s = (Ready true, s') →
  ∃ p', s_pools s' !! lease_pool l = Some p' ∧
    (idle p' = idle p ∨ ∃ c now,
       conn_simple_query "DISCARD ALL" (conn l) = (Ready (Ok ()), c) ∧
       idle p' = idle p ++ [MkParked c now (lease_created_at l)]).
Proof.
  intros Hp Hr Hl Hpool Hd.
  assert (dirty_inv s) as Hi by (eapply keeps_pump; [exact Hp|by intros []]).
  rewrite (Hi Hr) in Hd by eauto.
  destruct (checkin_detached_total l true (MkPoolWorld p (s_env s))) as (w & Hw & _ & _ & Hidle).
  exists (pool w). split; [|exact Hidle].
  revert Hd. unfold detach_if_idle. destruct cx_transaction_mode; simpl; [|by intros; async_inv].
  case_decide; [by intros; async_inv|]. rewrite (bind_ready _ _ _ (Some l) s) by (unfold gets; by rewrite Hl).
  rewrite (bind_ready _ _ _ () (s <| lease := None |>)) by done.
  intros (? & s1 & Hwp & Hret)%bind_ready_inv. injection Hret as <-.
  revert Hwp. unfold with_pool. simpl. rewrite Hpool, Hw. intros [= _ <-].
  apply lookup_insert_eq.
Qed.

End Inv.

#[export] Hint Resolve keeps_chore keeps_with_pool keeps_on_lease keeps_resolve_pool keeps_destroy_lease : keeps.
