(* ===== verification/RowHooks.v ===== *)
(** * Row hooks and command counts

    An interceptor that drops rows may have the row count of the command tag
    corrected ([adjust_command_counts]).  The theorem: the tag the client sees
    counts exactly the rows it was given, for any row hook. *)

From S2P Require Import Prelude RustStr Messages Config Upstream Row Routing Intercept Pool Session Attach Pump.

(** A tag with its trailing count. *)
Definition tag_of (verb : string) (n : Z) : string := verb +:+ String " " (show_Z n).

Lemma adjust_tag_count verb n d :
  (0 ≤ n < 2 ^ 64)%Z → adjust_tag (tag_of verb n) d = tag_of verb (saturating_sub n d).
Proof.
  intros Hn. unfold adjust_tag, tag_of.
  pose proof (show_digits_all n ltac:(lia)) as Hd.
  rewrite rsplit_once_app by (by apply digits_no_space).
  rewrite Hd, parse_u64_show by done. rewrite bool_decide_true; [done|].
  rewrite show_Z_nonneg by lia. apply pretty_N_nonempty.
Qed.

Section RowHooks.
Context `{P : Platform} {F : Fuel} {I : Interceptor} {X : SessionCtx}.

(** The rows of a result set through the row phase, in order: those kept. *)
Fixpoint observe_rows (rs : list DataRow) : async Session (list DataRow) :=
  match rs with
  | [] => mret []
  | r :: rs =>
    o ← observe (BDataRow r);
    kept ← observe_rows rs;
    mret (match o with Some (BDataRow r') => r' :: kept | _ => kept end)
  end.

(** The hooks of a session that filters rows and corrects counts. *)
Definition filtering (pending : Z) (s : Session) : Prop :=
  ∃ h, hooks s = Some h ∧ h_wants_rows h = true ∧ h_adjust_counts h = true ∧
       dropped_pending (h_cycle h) = pending.

Lemma on_cycle_filtering f pending pending' s :
  (∀ c, dropped_pending c = pending → dropped_pending (f c) = pending') →
  filtering pending s →
  ∃ s', on_cycle f s = (Ready (), s') ∧ filtering pending' s'.
Proof.
  intros Hf (h & Hh & ? & ? & Hp). eexists. split; [reflexivity|].
  exists (h <| h_cycle ::= f |>). simpl. rewrite Hh. simpl. auto.
Qed.

Lemma observe_row_spec r pending s o s' :
  (0 ≤ pending < 2 ^ 64 - 1)%Z → filtering pending s → observe (BDataRow r) s = (Ready o, s') →
  match o with
  | Some (BDataRow _) => filtering pending s'
  | Some _ => False
  | None => filtering (pending + 1) s'
  end.
Proof.
  intros Hb Hf. pose proof Hf as (h & Hh & Hw & Ha & Hp). unfold observe.
  rewrite (bind_ready _ _ _ (Some h) s) by (unfold gets; by rewrite Hh).
  intros (o' & s1 & Hr & H)%bind_ready_inv. injection H as <- <-.
  unfold row_hook in Hr. rewrite Hw in Hr.
  assert (∀ r' s0, filtering pending s0 →
    (_ ← on_cycle add_row; mret (Some r')) s0 = (Ready o', s1) → o' = Some r' ∧ filtering pending s1)
    as Hkeep.
  { intros r' s0 H0. destruct (on_cycle_filtering add_row pending pending s0) as (s2 & Hc & H2); [done|done|].
    rewrite (bind_ready _ _ _ _ _ Hc). by intros [= <- <-]. }
  destruct (Row.parse r) as [view|e].
  2: { by destruct (Hkeep r s Hf Hr) as [-> ?]. }
  apply bind_ready_inv in Hr as ([a v] & s2 & Hk & Hr).
  assert (filtering pending s2) as Hf2.
  { unfold hook in Hk. rewrite Hh in Hk. destruct (on_row _ _ _) as [x [st e]].
    injection Hk as -> <-. by exists (h <| h_state := st |>). }
  destruct a.
  - by destruct (Hkeep _ s2 Hf2 Hr) as [-> ?].
  - edestruct (on_cycle_filtering (λ c, c <| dropped_total ::= λ n, u64_add n 1 |>
      <| dropped_pending ::= λ n, u64_add n 1 |>) pending (pending + 1) s2) as (s3 & Hc & H3); [|done|].
    { intros c <-. simpl. unfold u64_add, wrap_u. rewrite Z.mod_small; lia. }
    rewrite (bind_ready _ _ _ _ _ Hc) in Hr. by injection Hr as <- <-.
Qed.

Lemma observe_rows_spec rs pending s kept s' :
  (0 ≤ pending)%Z → (pending + Z.of_nat (length rs) < 2 ^ 64)%Z → filtering pending s →
  observe_rows rs s = (Ready kept, s') →
  length kept ≤ length rs ∧ filtering (pending + Z.of_nat (length rs - length kept)) s'.
Proof.
  revert pending s kept. induction rs as [|r rs IH]; intros pending s kept Hp Hb Hf; simpl.
  { intros [= <- <-]. simpl. by rewrite Z.add_0_r. }
  simpl length in Hb. intros (o & s1 & Ho & H)%bind_ready_inv.
  apply bind_ready_inv in H as (kept' & s2 & Hk & H). injection H as <- <-.
  apply (observe_row_spec r pending) in Ho; [|lia|done].
  destruct o as [m|].
  - destruct m; try done. destruct (IH pending s1 kept') as [? Hf2]; [lia|lia|done|done|].
    simpl. split; [lia|done].
  - destruct (IH (pending + 1)%Z s1 kept') as [? Hf2]; [lia|lia|done|done|].
    split; [lia|]. replace (pending + Z.of_nat (S (length rs) - length kept'))%Z
      with (pending + 1 + Z.of_nat (length rs - length kept'))%Z by lia. done.
Qed.

(** C23: with row filtering, the count in the command tag is the number of rows
    the client received: whatever rows the hook keeps, drops or rewrites of a
    result set of [length rs] rows, the completion tag is adjusted to the
    number of rows kept. *)
Theorem tag_counts_kept_rows verb rs s kept s' :
  filtering 0 s → (Z.of_nat (length rs) < 2 ^ 64)%Z →
  observe_rows rs s = (Ready kept, s') →
  ∃ s'', observe (BCommandComplete (tag_of verb (Z.of_nat (length rs)))) s' =
    (Ready (Some (BCommandComplete (tag_of verb (Z.of_nat (length kept))))), s'').
Proof.
  intros Hf Hb Ho.
  destruct (observe_rows_spec rs 0 s kept s' ltac:(lia) ltac:(lia) Hf Ho)
    as (Hle & h & Hh & Hw & Ha & Hp). unfold observe.
  rewrite (bind_ready _ _ _ (Some h) s') by (unfold gets; by rewrite Hh).
  set (tag := tag_of verb (Z.of_nat (length rs))).
  rewrite (bind_ready _ _ _ () (on_cycle (λ c, c <| cyc_tag := Some tag |>) s').2) by done.
  eexists. unfold on_cycle, mbind, async_bind, modify, mret, async_ret. f_equal. do 2 f_equal.
  rewrite Ha, Hp. simpl. case_bool_decide.
  - f_equal. subst tag. rewrite adjust_tag_count by lia. unfold saturating_sub. do 2 f_equal. lia.
  - f_equal. subst tag. do 2 f_equal. lia.
Qed.

End RowHooks.
