(* ===== verification/Failover.v ===== *)
(** * Failover reaches a working endpoint

    With [FailoverRouter] registered, the attempt loop of [ensure_attached]
    ends attached as soon as one endpoint of the route works: the router skips
    an endpoint after [failure_threshold] failures, and the loop makes twice as
    many attempts as there are endpoints. *)

From S2P Require Import Prelude RustStr Messages Config Upstream Reference Row Routing Intercept Pool Session Attach.

Section Failover.
Context `{P : Platform} {F : Fuel} {X : SessionCtx}.
#[local] Instance router : Interceptor := FailoverRouter.

(** ** The health table during an attach *)

(** Failures an endpoint still has before it is skipped. *)
Definition remaining (g : EndpointGroup) (i : string) : Z :=
  match default (Alive 0) (inner g !! i) with
  | Alive f => failure_threshold g - f
  | Dead _ => 0
  end.

(** Every endpoint marked dead was so at [t0] or later. *)
Definition dead_since (t0 : Instant) (g : EndpointGroup) : Prop :=
  ∀ i since, inner g !! i = Some (Dead since) → (t0 ≤ since)%Z.

(** A clock reading of the attach, which takes less than [revive_after]. *)
Definition in_window (t0 now : Instant) (g : EndpointGroup) : Prop :=
  (t0 ≤ now < t0 + revive_after g)%Z.

Lemma alive_remaining t0 now g i :
  group_inv g → dead_since t0 g → in_window t0 now g →
  is_alive now g i = bool_decide (0 < remaining g i)%Z.
Proof.
  intros [Ht Hg] Hd Hw. unfold is_alive, remaining.
  destruct (inner g !! i) as [[f|since]|] eqn:Hi; simpl.
  - apply Hg in Hi. by rewrite bool_decide_true by lia.
  - apply Hd in Hi. unfold in_window in Hw. unfold duration_since.
    by rewrite !bool_decide_false by lia.
  - by rewrite bool_decide_true by lia.
Qed.

Lemma remaining_nonneg g i : group_inv g → (0 ≤ remaining g i ≤ failure_threshold g)%Z.
Proof.
  intros [Ht Hg]. unfold remaining. destruct (inner g !! i) as [[f|since]|] eqn:Hi; simpl; [|lia|lia].
  apply Hg in Hi. lia.
Qed.

Lemma report_failure_remaining now i j g :
  group_inv g →
  remaining (report_failure now i g) j =
  if decide (i = j) then Z.max 0 (remaining g i - 1) else remaining g j.
Proof.
  intros [Ht Hg]. unfold remaining. rewrite report_failure_lookup, (proj1 (report_failure_config now i g)).
  case_decide; subst; [|done]. simpl.
  assert (∀ f, inner g !! j = Some (Alive f) ∨ (inner g !! j = None ∧ f = 0%Z) →
    (0 ≤ f < failure_threshold g)%Z) as Hf.
  { intros f [?|[? ->]]; [by eapply Hg|lia]. }
  destruct (inner g !! j) as [[f|since]|]; simpl; [|lia|].
  - specialize (Hf f ltac:(auto)). unfold wrap_u. rewrite Z.mod_small by lia.
    case_bool_decide; lia.
  - specialize (Hf 0%Z ltac:(auto)). unfold wrap_u. rewrite Z.mod_small by lia.
    case_bool_decide; lia.
Qed.

Lemma report_failure_dead_since t0 now i g :
  (t0 ≤ now)%Z → dead_since t0 g → dead_since t0 (report_failure now i g).
Proof.
  intros Hn Hd j since. rewrite report_failure_lookup. case_decide; [|apply Hd].
  destruct (default _ _) as [f|]; [case_bool_decide|]; intros; by simplify_eq.
Qed.

(** Failures left over a list of endpoints. *)
Fixpoint budget (g : EndpointGroup) (es : list EndpointConfig) : Z :=
  match es with
  | [] => 0
  | e :: es => remaining g (id e) + budget g es
  end.

Lemma budget_bound g es :
  group_inv g → (0 ≤ budget g es ≤ failure_threshold g * Z.of_nat (length es))%Z.
Proof.
  intros Hg. induction es as [|e es IH]; [simpl; lia|].
  rewrite length_cons, Nat2Z.inj_succ, Z.mul_succ_r. simpl.
  pose proof (remaining_nonneg g (id e) Hg). lia.
Qed.

Lemma budget_app g l1 l2 : budget g (l1 ++ l2) = (budget g l1 + budget g l2)%Z.
Proof. induction l1 as [|e l1 IH]; simpl; [done|]. rewrite IH. lia. Qed.

Lemma budget_other now i g es :
  group_inv g → i ∉ (id <$> es) → budget (report_failure now i g) es = budget g es.
Proof.
  intros Hg. induction es as [|e es IH]; [done|].
  rewrite fmap_cons, not_elem_of_cons. simpl budget. intros [Hi Hes]. rewrite IH by done.
  rewrite report_failure_remaining, decide_False by done. done.
Qed.

(** A failure of one endpoint among distinct ones uses one up. *)
Lemma budget_failure now g l1 e l2 :
  group_inv g → NoDup (id <$> l1 ++ e :: l2) → (0 < remaining g (id e))%Z →
  budget (report_failure now (id e) g) (l1 ++ e :: l2) = (budget g (l1 ++ e :: l2) - 1)%Z.
Proof.
  intros Hg Hnd Hr. rewrite fmap_app, fmap_cons in Hnd.
  apply NoDup_app in Hnd as (_ & Hd1 & Hnd). apply NoDup_cons in Hnd as [Hd2 _].
  rewrite !budget_app. rewrite (budget_other _ _ _ l1); [|done|].
  2: { intros Hin. apply (Hd1 _ Hin). by left. }
  change (budget (report_failure now (id e) g) (e :: l2)) with
    (remaining (report_failure now (id e) g) (id e) + budget (report_failure now (id e) g) l2)%Z.
  change (budget g (e :: l2)) with (remaining g (id e) + budget g l2)%Z.
  rewrite (budget_other _ _ _ l2) by done. rewrite report_failure_remaining, decide_True by done. lia.
Qed.

(** ** The attempt loop *)

(** The part of the session an attach works with, apart from the router:
    any property of it that clock readings keep, under which an endpoint
    either refuses (its connect or its preparation fails, and the failure is
    reported) or accepts. *)
Context (Inv : Session → Prop) (t0 : Instant) (revive : Duration).
Hypothesis Inv_hooks : ∀ s h, Inv s → Inv (s <| hooks := h |>).
Hypothesis Inv_clock : ∀ s, Inv s →
  ∃ t e, instant_now (s_env s) = (Ready t, e) ∧ (t0 ≤ t < t0 + revive)%Z ∧ Inv (s <| s_env := e |>).

Definition refuses (ep : EndpointConfig) : Prop :=
  ∀ s, Inv s → ∃ e m s1, attach_to ep s = attempt_failed (Connect (id ep) e) m s1 ∧
                         Inv s1 ∧ hooks s1 = hooks s.
Definition accepts (ep : EndpointConfig) : Prop :=
  ∀ s, Inv s → ∃ s', attach_to ep s = (Ready (Some true), s').

Definition with_group (g : @IState P router) (h : SessionHooks) : SessionHooks :=
  h <| h_state := g |>.

(** The router of the session, in a healthy state. *)
Definition routed (g : EndpointGroup) (s : Session) : Prop :=
  (∃ h, hooks s = Some h ∧ h_state h = g) ∧ group_inv g ∧ dead_since t0 g ∧ revive_after g = revive.

Lemma dispatch_failover q g s :
  Inv s → routed g s →
  ∃ now s', dispatch_upstream q s =
      (Ready (default (default_endpoint (routing_info q)) (select_first_alive now g (routing_info q))), s') ∧
    in_window t0 now g ∧ Inv s' ∧ routed g s'.
Proof.
  intros HI ((h & Hh & Hg) & Hinv & Hd & Hr).
  destruct (Inv_clock s HI) as (t & e & Ht & Hw & HI'). exists t.
  exists (s <| hooks := Some (with_group g h) |> <| s_env := e |>).
  split; [|split; [unfold in_window; by rewrite Hr|split]].
  - unfold dispatch_upstream. rewrite (bind_ready _ _ _ (Some h) s) by (unfold gets; by rewrite Hh).
    unfold hook. rewrite Hh. simpl. unfold failover_upstream, hook_now, zoom, mbind, async_bind, gets, mret, async_ret.
    simpl. by rewrite Ht, Hg.
  - apply (Inv_hooks (s <| s_env := e |>) _ HI').
  - unfold routed. simpl. eauto 10.
Qed.

Lemma failed_failover ep e m g s :
  Inv s → routed g s →
  ∃ now s', attempt_failed (Connect (id ep) e) m s = (Ready None, s') ∧ in_window t0 now g ∧
    Inv s' ∧ routed (report_failure now (id ep) g) s'.
Proof.
  intros HI ((h & Hh & Hg) & Hinv & Hd & Hr).
  destruct (Inv_clock s HI) as (t & e' & Ht & Hw & HI'). exists t.
  set (g' := report_failure t (id ep) g).
  exists (s <| hooks := Some (with_group g' h) |> <| s_env := e' |>).
  split; [|split; [unfold in_window; by rewrite Hr|split]].
  - unfold attempt_failed, dispatch_on_upstream_error.
    rewrite (bind_ready _ _ _ Relink (s <| hooks := Some (with_group g' h) |> <| s_env := e' |>)); [done|].
    rewrite (bind_ready _ _ _ (Some h) s) by (unfold gets; by rewrite Hh).
    unfold hook. rewrite Hh. simpl.
    unfold failover_on_upstream_error, hook_now, zoom, mbind, async_bind, modify, mret, async_ret.
    simpl. by rewrite Ht, Hg.
  - apply (Inv_hooks (s <| s_env := e' |>) _ HI').
  - unfold routed. simpl. split; [eauto|]. split; [by apply report_failure_inv|].
    split; [by apply report_failure_dead_since; [lia|]|].
    subst g'. by rewrite (proj2 (report_failure_config t (id ep) g)).
Qed.

(** The endpoints before the first that accepts all refuse. *)
Context (l1 l2 : list EndpointConfig) (target : EndpointConfig).
Hypothesis Hends : endpoints cx_route = l1 ++ target :: l2.
Hypothesis Hids : NoDup (id <$> endpoints cx_route).
Hypothesis Hrefuse : Forall refuses l1.
Hypothesis Haccept : accepts target.

Lemma endpoint_by_id e : e ∈ endpoints cx_route → endpoint cx_route (id e) = Some e.
Proof.
  intros He. unfold endpoint, find_endpoint. apply find_Some_split.
  apply list_elem_of_split in He as (k1 & k2 & Hk). exists k1, k2. split; [done|].
  split; [by apply bool_decide_eq_true|]. rewrite Hk, fmap_app in Hids.
  apply NoDup_app in Hids as (_ & Hd & _). apply Forall_forall. intros y Hy.
  apply bool_decide_eq_false. intros Hid. apply (Hd (id y)).
  - apply list_elem_of_fmap. exists y. split; [done|]. exact Hy.
  - rewrite Hid. by left.
Qed.

(** The router's choice: a refusing endpoint that has failures left, or the
    target. *)
Lemma failover_choice now g q :
  group_inv g → dead_since t0 g → in_window t0 now g → (0 < remaining g (id target))%Z →
  ∃ e, select_first_alive now g (routing_info q) = Some (id e) ∧ e ∈ endpoints cx_route ∧
    (e = target ∨ (e ∈ l1 ∧ (0 < remaining g (id e))%Z)).
Proof.
  intros Hg Hd Hw Ht. unfold select_first_alive, find_endpoint. simpl. rewrite Hends.
  destruct (List.find (λ e, is_alive now g (id e)) (l1 ++ target :: l2)) as [e|] eqn:Hf.
  - exists e. split; [done|]. apply find_Some_split in Hf as (k1 & k2 & Hk & Ha & Hk1).
    split; [rewrite Hk; set_solver|].
    rewrite (alive_remaining t0) in Ha by done. apply bool_decide_eq_true in Ha.
    assert (is_alive now g (id target) = true) as Hta
      by (rewrite (alive_remaining t0) by done; by apply bool_decide_eq_true).
    apply app_eq_inv in Hk as [(k & -> & Hk)|(k & -> & Hk)].
    + destruct k as [|x k]; simplify_eq/=; [by left|]. right. set_solver.
    + destruct k as [|x k]; simplify_eq/=; [by left|].
      exfalso. apply Forall_app in Hk1 as [_ Hk1]. inv Hk1. congruence.
  - apply find_None_Forall in Hf. apply Forall_app in Hf as [_ Hf]. inv Hf.
    rewrite (alive_remaining t0) in * by done. by rewrite bool_decide_true in *.
Qed.

Lemma attempts_reach n q g s :
  Inv s → routed g s → (0 < remaining g (id target))%Z → (budget g l1 < Z.of_nat n)%Z →
  ∃ s', attempts_loop n q s = (Ready true, s').
Proof.
  revert g s. induction n as [|n IH]; intros g s HI HR Ht Hb.
  { destruct HR as (_ & Hg & _). pose proof (budget_bound g l1 Hg). lia. }
  simpl. unfold attempt.
  destruct (dispatch_failover q g s HI HR) as (now & s1 & H1 & Hw & HI1 & HR1).
  pose proof HR1 as (_ & Hg & Hd & _).
  destruct (failover_choice now g q Hg Hd Hw Ht) as (e & Hsel & He & Hcase).
  rewrite Hsel in H1. simpl in H1.
  assert (attempt q s = attach_to e s1) as Hatt.
  { unfold attempt. rewrite (bind_ready _ _ _ _ _ H1). by rewrite (endpoint_by_id e He). }
  fold (attempt q). destruct Hcase as [->|[Hl1 Hr]].
  - destruct (Haccept s1 HI1) as (s' & Hs'). exists s'. rewrite Hs' in Hatt.
    by rewrite (bind_ready _ _ _ _ _ Hatt).
  - assert (refuses e) as Href by (rewrite Forall_forall in Hrefuse; by apply Hrefuse).
    destruct (Href s1 HI1) as (err & m & s2 & H2 & HI2 & Hh2). rewrite H2 in Hatt.
    assert (routed g s2) as HR2 by (unfold routed in *; by rewrite Hh2).
    destruct (failed_failover e err m g s2 HI2 HR2) as (now' & s3 & H3 & Hw3 & HI3 & HR3).
    rewrite H3 in Hatt. rewrite (bind_ready _ _ _ _ _ Hatt).
    assert (id e ≠ id target) as Hne.
    { rewrite Hends, fmap_app, fmap_cons in Hids. apply NoDup_app in Hids as (_ & Hdis & _).
      intros Heq. apply (Hdis (id e)); [by apply list_elem_of_fmap_2|]. rewrite Heq. by left. }
    apply (IH (report_failure now' (id e) g) s3 HI3 HR3).
    + rewrite report_failure_remaining by done. by rewrite decide_False.
    + apply list_elem_of_split in Hl1 as (k1 & k2 & ->).
      rewrite budget_failure; [lia|done| |done].
      rewrite Hends, fmap_app in Hids. by apply NoDup_app in Hids as (? & _).
Qed.

(** C9: failover reaches a working endpoint: with the router's health table in
    any state in which the first working endpoint is not marked dead and a
    threshold of at most two (the default), an attach that takes less than
    [revive_after] ends attached, whichever endpoints before it refuse. *)
Theorem failover_attaches q g s :
  lease s = None → Inv s → routed g s → (failure_threshold g ≤ 2)%Z →
  (0 < remaining g (id target))%Z →
  ∃ s', ensure_attached q s = (Ready true, s').
Proof.
  intros Hl HI HR Hthr Ht. unfold ensure_attached.
  rewrite (bind_ready _ _ _ None s) by (unfold gets; by rewrite Hl).
  apply (attempts_reach attempts q g s HI HR Ht).
  destruct HR as (_ & Hg & _). pose proof (budget_bound g l1 Hg) as [_ Hb].
  pose proof Hg as [? _]. unfold attempts. rewrite Hends, length_app. simpl length.
  assert (failure_threshold g * Z.of_nat (length l1) ≤ 2 * Z.of_nat (length l1))%Z
    by (apply Z.mul_le_mono_nonneg_r; lia). lia.
Qed.

End Failover.
