(* ===== verification/PoolKeys.v ===== *)
(** * Pools and what a checkout takes from them (pool.rs)

    A pool keeps the key it was made with, and a lease names it; what a checkout
    takes is one permit, if it gives a lease, and a connection that was parked
    in the pool or that the pool's factory makes. *)

From S2P Require Import Prelude Wp RustStr Messages Config Upstream Row Routing Intercept Pool Session.

Section Keyed.
Context `{P : Platform} {F : Fuel}.

Definition same_key (w w' : PoolWorld) : Prop := p_key (pool w') = p_key (pool w).
#[global] Instance same_key_preorder : PreOrder same_key.
Proof. split; unfold same_key; [done|]. congruence. Qed.

Lemma key_on_pool f : (∀ p, p_key (f p) = p_key p) → keeps same_key (on_pool f).
Proof. intros Hf. apply keeps_modify. intros w. apply Hf. Qed.
Lemma key_in_env {A} (m : async Env A) : keeps same_key (in_env m).
Proof. intros w r w'. unfold in_env, zoom. destruct (m _). by intros [= <- <-]. Qed.
Lemma key_on_conn {A} c (m : async PgWireClient A) : keeps same_key (on_conn c m).
Proof. intros w r w'. unfold on_conn. destruct (m c) as [[]]; by intros [= <- <-]. Qed.
Lemma key_pop : keeps same_key (λ w, match pop_idle (pool w) with
  | Some (k, p) => (Ready (Some k), w <| pool := p |>)
  | None => (Ready None, w)
  end).
Proof.
  intros w r w'. unfold pop_idle. destruct (vec_pop _) as [[]|]; by intros [= <- <-].
Qed.
Lemma key_acquire : keeps same_key acquire.
Proof. intros w r w'. unfold acquire, grant. destruct (permits _); by intros [= <- <-]. Qed.
Lemma key_finish c t : keeps same_key (finish c t).
Proof. by intros w r w' [= <- <-]. Qed.
#[local] Hint Resolve key_in_env key_on_conn key_pop key_acquire key_finish : keeps.
#[local] Hint Extern 1 (keeps same_key (on_pool _)) => by apply key_on_pool : keeps.

Lemma key_pop_loop n : keeps same_key (pop_loop n).
Proof. induction n as [|n IH]; simpl; keeps_tac. Qed.
#[local] Hint Resolve key_pop_loop : keeps.

Lemma key_checkout : keeps same_key checkout.
Proof. unfold checkout, enter_pool, admitted_checkout. keeps_tac. Qed.

(** A checked-out lease names the pool it is from. *)
Lemma checkout_key w l w' : checkout w = (Ready (Ok l), w') → lease_pool l = p_key (pool w).
Proof.
  assert (∀ c t w l w', finish c t w = (Ready l, w') → lease_pool l = p_key (pool w)) as Hf
    by (by intros ????? [= <- <-]).
  unfold checkout. intros (? & w1 & H1 & H)%bind_ready_inv.
  assert (keeps same_key enter_pool) as He by (unfold enter_pool; keeps_tac). apply He in H1 as <-.
  unfold admitted_checkout in H. apply bind_ready_inv in H as (n & w2 & [= <- <-] & H).
  apply bind_ready_inv in H as (r & w2 & H2 & H). apply key_pop_loop in H2 as <-. destruct r as [[c t]|].
  { apply bind_ready_inv in H as (l' & w3 & Hl & [= <- <-]). by eapply Hf. }
  apply bind_ready_inv in H as (f & w3 & [= <- <-] & H).
  apply bind_ready_inv in H as (r & w4 & H4 & H). apply key_in_env in H4 as <-. destruct r as [c|e].
  - apply bind_ready_inv in H as (? & w5 & H5 & H). apply key_on_pool in H5 as <-; [|done].
    apply bind_ready_inv in H as (t & w6 & H6 & H). apply key_in_env in H6 as <-.
    apply bind_ready_inv in H as (l' & w7 & Hl & [= <- <-]). by eapply Hf.
  - apply bind_ready_inv in H as (? & w5 & _ & H). by apply bind_ready_inv in H as (? & w6 & _ & H).
Qed.

Definition keyed (pools : gmap PoolKey PoolInner) : Prop := map_Forall (λ k p, p_key p = k) pools.

End Keyed.

(** ** Connections *)

Section Taken.
Context `{P : Platform} {F : Fuel}.

(** A connection as a pool hands it out: one it had parked, untouched or after
    a probe that succeeded, or one its factory makes. *)
Definition taken_from (p : PoolInner) (c : PgWireClient) : Prop :=
  (∃ x, x ∈ idle p ∧ (c = pk_conn x ∨ ∃ u, probe (pk_conn x) = (Ready (Ok u), c))) ∨
  (∃ e e', p_connect p e = (Ready (Ok c), e')).

(** Nothing is parked, and the factory stays. *)
Definition drains_only (p p' : PoolInner) : Prop :=
  (∀ x, x ∈ idle p' → x ∈ idle p) ∧ p_connect p' = p_connect p.
#[global] Instance drains_only_preorder : PreOrder drains_only.
Proof. split; unfold drains_only; [done|]. intros ??? [H1 ->] [H2 ->]. auto. Qed.

Definition only_drained (w w' : PoolWorld) : Prop := drains_only (pool w) (pool w').
#[local] Instance only_drained_preorder : PreOrder only_drained.
Proof. split; unfold only_drained; [by intros ?|]. intros ??? H1 H2. by etrans. Qed.

Lemma taken_earlier p p' c : drains_only p p' → taken_from p' c → taken_from p c.
Proof.
  intros [Hidle Hf] [(x & Hx & Hc)|(e & e' & He)]; [left; exists x; auto|].
  right. exists e, e'. by rewrite <-Hf.
Qed.

Lemma drained_on_pool f : (∀ p, idle (f p) = idle p ∧ p_connect (f p) = p_connect p) → keeps only_drained (on_pool f).
Proof.
  intros Hf. apply keeps_modify. intros w. unfold only_drained, drains_only. simpl.
  destruct (Hf (pool w)) as [-> ->]. done.
Qed.
Lemma drained_in_env {A} (m : async Env A) : keeps only_drained (in_env m).
Proof. intros w r w'. unfold in_env, zoom. destruct (m _). by intros [= <- <-]. Qed.
Lemma drained_on_conn {A} c (m : async PgWireClient A) : keeps only_drained (on_conn c m).
Proof. intros w r w'. unfold on_conn. destruct (m c) as [[]]; by intros [= <- <-]. Qed.
Lemma drained_acquire : keeps only_drained acquire.
Proof. intros w r w'. unfold acquire, grant. destruct (permits _); by intros [= <- <-]. Qed.
Lemma drained_finish c t : keeps only_drained (finish c t).
Proof. by intros w r w' [= <- <-]. Qed.
#[local] Hint Resolve drained_in_env drained_on_conn drained_acquire drained_finish : keeps.
#[local] Hint Extern 1 (keeps only_drained (on_pool _)) => by apply drained_on_pool : keeps.

Lemma drained_pop : keeps only_drained (λ w, match pop_idle (pool w) with
  | Some (k, p) => (Ready (Some k), w <| pool := p |>)
  | None => (Ready None, w)
  end).
Proof.
  intros w r w'. unfold pop_idle. destruct (vec_pop _) as [[x rest]|] eqn:Hv; intros [= <- <-]; [|done].
  apply vec_pop_Some in Hv. split; [|done]. simpl. intros y Hy. rewrite Hv. apply elem_of_app. by left.
Qed.
#[local] Hint Resolve drained_pop : keeps.

Lemma drained_pop_loop n : keeps only_drained (pop_loop n).
Proof. induction n as [|n IH]; simpl; keeps_tac. Qed.
#[local] Hint Resolve drained_pop_loop : keeps.

Lemma drained_checkout : keeps only_drained checkout.
Proof. unfold checkout, enter_pool, admitted_checkout. keeps_tac. Qed.

Lemma pop_loop_taken n w c t w' :
  pop_loop n w = (Ready (Some (c, t)), w') → taken_from (pool w) c.
Proof.
  revert w. induction n as [|n IH]; intros w; simpl; [done|].
  intros (popped & w1 & H1 & H)%bind_ready_inv. apply drained_pop in H1 as Hd1.
  destruct popped as [k|]; [|done].
  assert (k ∈ idle (pool w)) as Hk.
  { unfold pop_idle in H1. destruct (vec_pop _) as [[x rest]|] eqn:Hv; [|done].
    injection H1 as -> _. apply vec_pop_Some in Hv. rewrite Hv. apply elem_of_app. right. by left. }
  assert (∀ w2, only_drained w1 w2 → pop_loop n w2 = (Ready (Some (c, t)), w') → taken_from (pool w) c) as Hgo.
  { intros w2 Hd Hr. apply IH in Hr. eapply taken_earlier; [|exact Hr]. by etrans. }
  apply bind_ready_inv in H as (now & w2 & H2 & H). apply drained_in_env in H2.
  apply bind_ready_inv in H as (expired & w3 & [= <- <-] & H). destruct (is_expired _ _ _).
  { apply bind_ready_inv in H as (? & w4 & H4 & H). apply drained_on_pool in H4; [|done].
    apply (Hgo w4); [by etrans|done]. }
  apply bind_ready_inv in H as (now' & w4 & H4 & H). apply drained_in_env in H4.
  apply bind_ready_inv in H as (stale & w5 & [= <- <-] & H). destruct (is_stale _ _ _).
  2: { injection H as <- _ _. left. exists k. auto. }
  apply bind_ready_inv in H as (? & w5 & H5 & H). apply drained_on_pool in H5; [|done].
  apply bind_ready_inv in H as ([[u|e] c'] & w6 & H6 & H).
  - injection H as <- _ _. left. exists k. split; [done|]. right. exists u. unfold on_conn in H6.
    destruct (probe _) as [[]]; by simplify_eq.
  - apply drained_on_conn in H6. apply bind_ready_inv in H as (? & w7 & H7 & H).
    apply drained_on_pool in H7; [|done]. apply (Hgo w7); [|done].
    repeat (etrans; [eassumption|]). done.
Qed.

(** A checkout hands out a connection of its pool. *)
Lemma checkout_taken w l w' : checkout w = (Ready (Ok l), w') → taken_from (pool w) (conn l).
Proof.
  assert (∀ c t w l w', finish c t w = (Ready l, w') → conn l = c) as Hf by (by intros ????? [= <- <-]).
  unfold checkout. intros (? & w1 & H1 & H)%bind_ready_inv.
  assert (keeps only_drained enter_pool) as He by (unfold enter_pool; keeps_tac). apply He in H1.
  eapply taken_earlier; [exact H1|]. clear H1 He.
  unfold admitted_checkout in H. apply bind_ready_inv in H as (n & w2 & [= <- <-] & H).
  apply bind_ready_inv in H as (r & w2 & H2 & H). destruct r as [[c t]|].
  { apply pop_loop_taken in H2. apply bind_ready_inv in H as (l' & w3 & <-%Hf & [= <- _]). done. }
  apply drained_pop_loop in H2. eapply taken_earlier; [exact H2|].
  apply bind_ready_inv in H as (f & w3 & [= <- <-] & H).
  apply bind_ready_inv in H as (r & w4 & H4 & H). destruct r as [c|e].
  - apply bind_ready_inv in H as (? & w5 & _ & H). apply bind_ready_inv in H as (t & w6 & _ & H).
    apply bind_ready_inv in H as (l' & w7 & <-%Hf & [= <- _]). right. exists (env w2).
    unfold in_env, zoom in H4. destruct (p_connect _ _) as [r' e'] eqn:Hc. simplify_eq. by exists e'.
  - apply bind_ready_inv in H as (? & w5 & _ & H). by apply bind_ready_inv in H as (? & w6 & _ & H).
Qed.

End Taken.

(** ** Permits *)

Section Permits.
Context `{P : Platform} {F : Fuel}.

Definition same_permits (w w' : PoolWorld) : Prop := permits (pool w') = permits (pool w).
#[global] Instance same_permits_preorder : PreOrder same_permits.
Proof. split; unfold same_permits; [done|]. congruence. Qed.

Lemma keeps_on_pool f : (∀ p, permits (f p) = permits p) → keeps same_permits (on_pool f).
Proof. intros Hf. apply keeps_modify. intros w. apply Hf. Qed.
Lemma keeps_in_env {A} (m : async Env A) : keeps same_permits (in_env m).
Proof. intros w r w'. unfold in_env, zoom. destruct (m _). by intros [= <- <-]. Qed.
Lemma keeps_on_conn_w {A} c (m : async PgWireClient A) : keeps same_permits (on_conn c m).
Proof. intros w r w'. unfold on_conn. destruct (m c) as [[]]; by intros [= <- <-]. Qed.
Lemma keeps_pop : keeps same_permits (λ w, match pop_idle (pool w) with
  | Some (k, p) => (Ready (Some k), w <| pool := p |>)
  | None => (Ready None, w)
  end).
Proof.
  intros w r w'. unfold pop_idle. destruct (vec_pop _) as [[]|]; by intros [= <- <-].
Qed.
Lemma keeps_finish c t : keeps same_permits (finish c t).
Proof. by intros w r w' [= <- <-]. Qed.
#[local] Hint Resolve keeps_in_env keeps_on_conn_w keeps_pop keeps_finish : keeps.
#[local] Hint Extern 1 (keeps same_permits (on_pool _)) => by apply keeps_on_pool : keeps.

Lemma keeps_pop_loop n : keeps same_permits (pop_loop n).
Proof. induction n as [|n IH]; simpl; keeps_tac. Qed.
#[local] Hint Resolve keeps_pop_loop : keeps.

(** A checkout takes one permit with its lease, and none with an error. *)
Lemma checkout_permits w r w' :
  checkout w = (Ready r, w') →
  permits (pool w) = (match r with Ok _ => 1 | Err _ => 0 end) + permits (pool w').
Proof.
  unfold checkout, enter_pool. intros (? & w1 & H1 & H)%bind_ready_inv.
  apply bind_ready_inv in H1 as (? & w2 & [= <- <-] & H1). unfold acquire, grant in H1. simpl in H1.
  destruct (permits (pool w)) as [|n] eqn:Hn; [done|]. injection H1 as _ <-.
  assert (∀ w2 w3, same_permits (w <| pool := count (λ m, m <| waiting ::= dec |>)
    (begin_wait (pool w) <| permits := n |>) |>) w2 → same_permits w2 w3 → permits (pool w3) = n) as Hgo.
  { unfold same_permits. intros w2 w3 Ha Hb. by rewrite Hb, Ha. }
  unfold admitted_checkout in H. apply bind_ready_inv in H as (m & w2 & [= <- <-] & H).
  apply bind_ready_inv in H as (reuse & w2 & H2 & H). apply keeps_pop_loop in H2.
  destruct reuse as [[c t]|].
  { apply bind_ready_inv in H as (l & w3 & H3 & [= <- <-]). apply keeps_finish in H3.
    simpl. f_equal. symmetry. by apply (Hgo w2). }
  apply bind_ready_inv in H as (f & w3 & [= <- <-] & H).
  apply bind_ready_inv in H as (rc & w3 & H3 & H). apply keeps_in_env in H3. destruct rc as [c|e].
  - assert (keeps same_permits (_ ← on_pool note_created; now ← in_env instant_now; l ← finish c now;
      mret (Ok (E := PgWireClientError) l))) as Hk by keeps_tac.
    assert (∃ l, r = Ok l) as [l ->].
    { apply bind_ready_inv in H as (? & ? & _ & H). apply bind_ready_inv in H as (? & ? & _ & H).
      apply bind_ready_inv in H as (l & ? & _ & [= <- _]). by exists l. }
    apply Hk in H. simpl. f_equal. symmetry. apply (Hgo w3); [by etrans|done].
  - apply bind_ready_inv in H as (? & w4 & [= <- <-] & H). apply bind_ready_inv in H as (? & w5 & [= <- <-] & H).
    injection H as <- <-. simpl. f_equal. symmetry. by apply (Hgo w2).
Qed.

End Permits.

#[export] Hint Resolve keeps_in_env keeps_on_conn_w keeps_pop keeps_finish : keeps.
#[export] Hint Extern 1 (keeps same_permits (on_pool _)) => by apply keeps_on_pool : keeps.
