(* ===== verification/ScatterLeg.v ===== *)
(** * Scatter legs (scatter.rs)

    One leg of a scatter: its query cycle, its outcome, and the leg as a future.
    The pooled legs of a scatter are polled by one task in any order; a leg runs
    from one await to the next, and [poll_leg] is such a stretch: to the permit,
    through a round of the idle loop, over a probe, a connect, the parameter
    sync, the query cycle.  Polled without others in between a leg does what
    [run_leg_pooled] does ([poll_alone_sound], [poll_alone_complete]). *)

From S2P Require Import Prelude RustStr Messages Config Upstream Row Routing Intercept Pool PoolHygiene Session Attach.

(** ** Shard sets *)

Record ShardSet := MkShardSet { shards : list string }.

(** The owner of a key, by its 64-bit hash; [None] is the division by zero of
    an empty set. *)
Definition shard_for (hash : string → N) (s : ShardSet) (key : string) : option string :=
  match shards s with
  | [] => None
  | _ => shards s !! (N.to_nat (hash key `mod` N.of_nat (length (shards s))))
  end.

Definition broadcast (s : ShardSet) (sql : string) (m : MergePolicy) (tag : string) : Action :=
  Scatter (MkScatterRequest ((λ ep, MkScatterLeg ep sql) <$> shards s) m tag).

(** ** The first column of a row *)

Inductive FirstColumn :=
| Panics                 (* a read past the end of the row *)
| NotNumeric
| Value (z : Z).

Definition first_column_i128 (r : DataRow) : FirstColumn :=
  match get_i32 (data r) with
  | None => Panics
  | Some (len, cursor) =>
    if bool_decide (len < 0)%Z then NotNumeric
    else if bool_decide (length cursor < Z.to_nat len) then Panics
    else
      match from_utf8 (take (Z.to_nat len) cursor) with
      | None => NotNumeric
      | Some t => match parse_i128 (trim t) with
                  | Some z => Value z
                  | None => NotNumeric
                  end
      end
  end.

(** The row a [Sum] merge answers with. *)
Definition sum_row (total : Z) : DataRow :=
  let text := show_Z total in
  MkDataRow (put_i32 (Z.of_nat (String.length text)) ++ String.list_ascii_of_string text) 1.

(** ** Errors *)

Definition shard_failed (ep : string) : ErrorInfo :=
  MkErrorInfo "ERROR" "08006" ("shard " +:+ ep +:+ " failed").
Definition unknown_endpoint (ep : string) : ErrorInfo :=
  MkErrorInfo "ERROR" "0A000" ("pgferry scatter: unknown endpoint " +:+ debug_str ep).

Section Leg.
Context `{P : Platform} {F : Fuel} {I : Interceptor} {X : SessionCtx}.

(** ** One leg *)

(** What a leg's query cycle gave. *)
Record Collected := MkCollected {
  col_messages : list PgWireBackendMessage;
  col_rows : Z;
  col_error : option ErrorInfo;
  col_dirty : bool;
  col_broken : bool
}.
#[global] Instance eta_Collected : Eta Collected := λ c,
  MkCollected (col_messages c) (col_rows c) (col_error c) (col_dirty c) (col_broken c).

Definition is_data_row (m : PgWireBackendMessage) : bool :=
  match m with BDataRow _ => true | _ => false end.

Fixpoint collect_loop (n : nat) (acc : Collected) : async PgWireClient Collected :=
  match n with
  | O => never
  | S n =>
    item ← conn_next;
    match item with
    | None => mret (acc <| col_broken := true |>)
    | Some (Err _) => mret (acc <| col_broken := true |>)
    | Some (Ok (BReadyForQuery st)) => _ ← modify (set_transaction_status st); mret acc
    | Some (Ok (BParameterStatus n' v)) =>
      _ ← modify (set_server_parameter n' v); collect_loop n (acc <| col_dirty := true |>)
    | Some (Ok (BErrorResponse fields)) =>
      collect_loop n (acc <| col_error := Some (error_info fields) |>)
    | Some (Ok m) =>
      collect_loop n (acc <| col_rows ::= λ r, if is_data_row m then u64_add r 1 else r |>
                          <| col_messages ::= λ l, l ++ [m] |>)
    end
  end.

Definition run_query_collect (q : string) : async PgWireClient Collected :=
  r ← conn_send (FQuery q);
  match r with
  | Err _ => mret (MkCollected [] 0 None false true)
  | Ok _ => collect_loop fuel (MkCollected [] 0 None false false)
  end.

Record LegOutcome := MkLegOutcome {
  o_endpoint : string;
  o_messages : list PgWireBackendMessage;
  o_rows : Z;
  o_error : option ErrorInfo;
  o_lease : option UpstreamLease;
  conn_broken : bool;
  o_dirty : bool
}.

Definition connect_failed (ep : string) (e : PgWireClientError) : LegOutcome :=
  MkLegOutcome ep [] 0
    (Some (MkErrorInfo "ERROR" "08006" ("connect to shard failed: " +:+ show_error e)))
    None true false.

(** A leg from its checkout on. *)
Definition leg_with (leg : ScatterLeg) (r : result PgWireClientError UpstreamLease) :
    async Session LegOutcome :=
  match r with
  | Err e => mret (connect_failed (leg_endpoint leg) e)
  | Ok l =>
    rc ← on_conn (conn l) (sync_startup_parameters cx_startup_parameters);
    match rc with
    | (Err e, _) => _ ← destroy_lease l; mret (connect_failed (leg_endpoint leg) e)
    | (Ok _, c) =>
      qc ← on_conn c (run_query_collect (leg_sql leg));
      let '(q, c) := qc in
      if col_broken q then
        _ ← destroy_lease l;
        mret (MkLegOutcome (leg_endpoint leg) (col_messages q) (col_rows q) (col_error q)
                None true (col_dirty q))
      else
        mret (MkLegOutcome (leg_endpoint leg) (col_messages q) (col_rows q) (col_error q)
                (Some (l <| conn := c |>)) false (col_dirty q))
    end
  end.

Definition run_leg_pooled (leg : ScatterLeg) (k : PoolKey) : async Session LegOutcome :=
  r ← with_pool k checkout; leg_with leg r.

(** ** The leg as a future *)

(** Where a leg awaits. *)
Inductive LegPhase :=
| LegStart                                  (* not polled yet *)
| LegWaiting                                (* in [acquire_owned().await] *)
| LegIdleLoop                               (* permit held, before a round of the idle loop *)
| LegProbing (k : Parked)
| LegConnecting
| LegSyncing (l : UpstreamLease)            (* checked out *)
| LegQuerying (l : UpstreamLease)
| LegStuck (l : option UpstreamLease).      (* in an await that does not end *)

Inductive Polled :=
| LegAwaits (ph : LegPhase)
| LegDone (o : LegOutcome).

(** What a round of the idle loop of [checkout] finds. *)
Inductive Popped :=
| PopNone
| PopExpired
| PopStale (k : Parked)
| PopFresh (k : Parked).

Definition idle_pop : async PoolWorld Popped :=
  popped ← (λ w, match pop_idle (pool w) with
                 | Some (k, p) => (Ready (Some k), w <| pool := p |>)
                 | None => (Ready None, w)
                 end);
  match popped with
  | None => mret PopNone
  | Some k =>
    now ← in_env instant_now;
    expired ← gets (λ w, is_expired now (pk_created_at k) (pool w));
    if expired : bool then _ ← on_pool note_evicted; mret PopExpired
    else
      now ← in_env instant_now;
      stale ← gets (λ w, is_stale now (idle_since k) (pool w));
      if stale : bool then _ ← on_pool note_probed; mret (PopStale k) else mret (PopFresh k)
  end.

Definition idle_round : async PoolWorld LegPhase :=
  r ← idle_pop;
  match r with
  | PopNone => mret LegConnecting
  | PopExpired => mret LegIdleLoop
  | PopStale k => mret (LegProbing k)
  | PopFresh k => l ← finish (pk_conn k) (pk_created_at k); mret (LegSyncing l)
  end.

Definition probe_round (k : Parked) : async PoolWorld LegPhase :=
  rc ← on_conn (pk_conn k) probe;
  match rc with
  | (Err _, _) => _ ← on_pool note_dropped; mret LegIdleLoop
  | (Ok _, c) => l ← finish c (pk_created_at k); mret (LegSyncing l)
  end.

Definition connect_round : async PoolWorld (result PgWireClientError UpstreamLease) :=
  factory ← gets (λ w, p_connect (pool w));
  r ← in_env factory;
  match r with
  | Err e => _ ← on_pool note_dropped; _ ← on_pool release; mret (Err e)
  | Ok c =>
    _ ← on_pool note_created;
    now ← in_env instant_now;
    l ← finish c now; mret (Ok l)
  end.

Definition sync_round (leg : ScatterLeg) (l : UpstreamLease) : async Session Polled :=
  rc ← on_conn (conn l) (sync_startup_parameters cx_startup_parameters);
  match rc with
  | (Err e, _) => _ ← destroy_lease l; mret (LegDone (connect_failed (leg_endpoint leg) e))
  | (Ok _, c) => mret (LegAwaits (LegQuerying (l <| conn := c |>)))
  end.

Definition query_round (leg : ScatterLeg) (l : UpstreamLease) : async Session Polled :=
  qc ← on_conn (conn l) (run_query_collect (leg_sql leg));
  let '(q, c) := qc in
  if col_broken q then
    _ ← destroy_lease l;
    mret (LegDone (MkLegOutcome (leg_endpoint leg) (col_messages q) (col_rows q) (col_error q)
            None true (col_dirty q)))
  else
    mret (LegDone (MkLegOutcome (leg_endpoint leg) (col_messages q) (col_rows q) (col_error q)
            (Some (l <| conn := c |>)) false (col_dirty q))).

(** From one await to the next. *)
Definition leg_round (leg : ScatterLeg) (k : PoolKey) (ph : LegPhase) : async Session Polled :=
  match ph with
  | LegStart => _ ← with_pool k (on_pool begin_wait); mret (LegAwaits LegWaiting)
  | LegWaiting => _ ← with_pool k acquire; mret (LegAwaits LegIdleLoop)
  | LegIdleLoop => ph ← with_pool k idle_round; mret (LegAwaits ph)
  | LegProbing c => ph ← with_pool k (probe_round c); mret (LegAwaits ph)
  | LegConnecting =>
    r ← with_pool k connect_round;
    match r with
    | Err e => mret (LegDone (connect_failed (leg_endpoint leg) e))
    | Ok l => mret (LegAwaits (LegSyncing l))
    end
  | LegSyncing l => sync_round leg l
  | LegQuerying l => query_round leg l
  | LegStuck _ => never
  end.

(** Where a leg whose await does not complete is left: waiting for a permit it
    can be woken later, other awaits do not end. *)
Definition left_in (ph : LegPhase) : LegPhase :=
  match ph with
  | LegStart | LegWaiting | LegStuck _ => ph
  | LegIdleLoop | LegProbing _ | LegConnecting => LegStuck None
  | LegSyncing l | LegQuerying l => LegStuck (Some l)
  end.

Definition poll_leg (leg : ScatterLeg) (k : PoolKey) (ph : LegPhase) (s : Session) : Polled * Session :=
  match leg_round leg k ph s with
  | (Ready p, s') => (p, s')
  | (Pending, s') => (LegAwaits (left_in ph), s')
  end.

(** Drop a lease, or a leg's future with what it holds. *)
Definition drop_lease (o : option UpstreamLease) : async Session unit :=
  match o with
  | Some l => with_pool (lease_pool l) drop_admitted
  | None => mret ()
  end.

Definition drop_leg (k : PoolKey) (ph : LegPhase) : async Session unit :=
  match ph with
  | LegStart | LegWaiting => mret ()
  | LegIdleLoop | LegProbing _ | LegConnecting | LegStuck None => with_pool k drop_admitted
  | LegSyncing l | LegQuerying l | LegStuck (Some l) => drop_lease (Some l)
  end.

(** ** A leg on its own *)

(** Polled [n] times without anything else in between. *)
Fixpoint poll_alone (n : nat) (leg : ScatterLeg) (k : PoolKey) (ph : LegPhase) (s : Session) :
    option (LegOutcome * Session) :=
  match n with
  | O => None
  | S n =>
    match poll_leg leg k ph s with
    | (LegDone o, s') => Some (o, s')
    | (LegAwaits ph, s') => poll_alone n leg k ph s'
    end
  end.

(** What is left of a checkout, and of a leg. *)
Definition checkout_rest (ph : LegPhase) : async PoolWorld (result PgWireClientError UpstreamLease) :=
  match ph with
  | LegIdleLoop => admitted_checkout
  | LegConnecting => connect_round
  | LegProbing k =>
    ph ← probe_round k;
    match ph with
    | LegIdleLoop => admitted_checkout
    | LegSyncing l => mret (Ok l)
    | _ => never
    end
  | LegSyncing l => mret (Ok l)
  | _ => never
  end.

Definition leg_rest (leg : ScatterLeg) (k : PoolKey) (ph : LegPhase) : async Session LegOutcome :=
  match ph with
  | LegStart => run_leg_pooled leg k
  | LegWaiting => _ ← with_pool k acquire; r ← with_pool k admitted_checkout; leg_with leg r
  | LegIdleLoop | LegProbing _ | LegConnecting => r ← with_pool k (checkout_rest ph); leg_with leg r
  | LegSyncing l => leg_with leg (Ok l)
  | LegQuerying l =>
    p ← query_round leg l;
    match p with LegDone o => mret o | LegAwaits _ => never end
  | LegStuck _ => never
  end.

(** Computations that run alike. *)
Definition alike {S A} (m m' : async S A) : Prop := ∀ s, m s = m' s.

#[local] Instance alike_equivalence {S A} : Equivalence (@alike S A).
Proof. split; [by intros ? ?|by intros ? ? H ?|intros ? ? ? H1 H2 s; by rewrite H1]. Qed.

Lemma alike_bind {S A B} (m m' : async S A) (f f' : A → async S B) :
  alike m m' → (∀ a, alike (f a) (f' a)) → alike (m ≫= f) (m' ≫= f').
Proof. intros Hm Hf s. unfold mbind, async_bind. rewrite Hm. destruct (m' s) as [[]]; [apply Hf|done]. Qed.

Lemma bind_ext {S A B} (m : async S A) (f g : A → async S B) s :
  (∀ a s', m s = (Ready a, s') → f a s' = g a s') → (m ≫= f) s = (m ≫= g) s.
Proof. unfold mbind, async_bind. intros Hf. destruct (m s) as [[]]; [by apply Hf|done]. Qed.

Lemma alike_assoc {S A B C} (m : async S A) (f : A → async S B) (g : B → async S C) :
  alike ((m ≫= f) ≫= g) (m ≫= λ a, f a ≫= g).
Proof. intros s. unfold mbind, async_bind. by destruct (m s) as [[]]. Qed.

Lemma with_pool_alike {A} k (m m' : async PoolWorld A) : alike m m' → alike (with_pool k m) (with_pool k m').
Proof. intros Hm s. unfold with_pool. by destruct (s_pools s !! k); rewrite ?Hm. Qed.

Lemma with_pool_bind {A B} k (m : async PoolWorld A) (f : A → async PoolWorld B) :
  alike (with_pool k (m ≫= f)) (with_pool k m ≫= λ a, with_pool k (f a)).
Proof.
  intros s. unfold mbind, async_bind. unfold with_pool at 2. unfold with_pool at 1.
  destruct (s_pools s !! k) as [p|]; [|done].
  destruct (m (MkPoolWorld p (s_env s))) as [[a|] [p1 e1]]; [|done]. unfold with_pool. simpl.
  rewrite lookup_insert_eq. destruct (f a (MkPoolWorld p1 e1)) as [r w]. simpl.
  by rewrite insert_insert_eq.
Qed.

Lemma with_pool_ret {A} k (a : A) s p : s_pools s !! k = Some p → with_pool k (mret a) s = (Ready a, s).
Proof. intros Hk. unfold with_pool. rewrite Hk. simpl. rewrite (insert_id _ _ _ Hk). by destruct s. Qed.

(** The idle loop, round by round. *)
Lemma pop_loop_S n : alike (pop_loop (S n))
  (r ← idle_pop;
   match r with
   | PopNone => mret None
   | PopExpired => pop_loop n
   | PopStale k =>
     rc ← on_conn (pk_conn k) probe;
     match rc with
     | (Err _, _) => _ ← on_pool note_dropped; pop_loop n
     | (Ok _, c) => mret (Some (c, pk_created_at k))
     end
   | PopFresh k => mret (Some (pk_conn k, pk_created_at k))
   end).
Proof.
  intros w. cbn [pop_loop]. unfold idle_pop. rewrite alike_assoc. apply alike_bind; [done|]. clear w.
  intros [k|]; [|done]. rewrite alike_assoc. apply alike_bind; [done|intros now].
  rewrite alike_assoc. apply alike_bind; [done|intros []]; [by rewrite alike_assoc|].
  rewrite alike_assoc. apply alike_bind; [done|intros now'].
  rewrite alike_assoc. apply alike_bind; [done|intros []]; [by rewrite alike_assoc|done].
Qed.

Lemma idle_pop_length w r w' :
  idle_pop w = (Ready r, w') →
  length (idle (pool w')) = pred (length (idle (pool w))) ∧ (r = PopNone ↔ idle (pool w) = []).
Proof.
  unfold idle_pop, on_pool. intros (popped & w1 & Hp & H)%bind_ready_inv. unfold pop_idle in Hp.
  destruct (vec_pop (idle (pool w))) as [[x rest]|] eqn:Hv; simplify_eq.
  - apply vec_pop_Some in Hv as ->. rewrite length_app. simpl.
    assert (∀ w1 t w2, in_env instant_now w1 = (Ready t, w2) → pool w2 = pool w1) as He.
    { intros w1 t w2. unfold in_env, zoom. destruct (instant_now _). by intros [= _ <-]. }
    async_inv. destruct (is_expired _ _ _); async_inv; [|destruct (is_stale _ _ _); async_inv];
      repeat match goal with H : in_env _ _ = _ |- _ => apply He in H end; simpl in *;
      repeat match goal with H : pool _ = _ |- _ => rewrite H; clear H end; simpl;
      (split; [lia|]); (split; [done|]); by destruct rest.
  - apply vec_pop_None in Hv. async_inv. by rewrite Hv.
Qed.

(** More fuel than parked connections does not matter. *)
Lemma pop_loop_fuel n m w :
  length (idle (pool w)) < n → length (idle (pool w)) < m → pop_loop n w = pop_loop m w.
Proof.
  revert m w. induction n as [|n IH]; intros m w Hn Hm; [lia|]. destruct m as [|m]; [lia|].
  rewrite !pop_loop_S. apply bind_ext. intros r w1 [Hl Hr]%idle_pop_length.
  assert (r ≠ PopNone → ∀ w2, idle (pool w2) = idle (pool w1) → pop_loop n w2 = pop_loop m w2) as Hgo.
  { intros Hx w2 Hw2. apply IH; rewrite Hw2; destruct (idle (pool w)); simpl in *; tauto || lia. }
  destruct r as [| |k|k]; [done|by apply Hgo| |done].
  apply bind_ext. intros [[]] w2 Hc; [done|].
  apply bind_ext. intros [] w3 Hd. apply Hgo; [done|]. unfold on_pool in Hd. async_inv. simpl.
  unfold on_conn in Hc. destruct (probe _) as [[]]; by simplify_eq.
Qed.

(** The checkout of an admitted leg, round by round. *)
Lemma admitted_rounds : alike admitted_checkout (ph ← idle_round; checkout_rest ph).
Proof.
  intros w. unfold admitted_checkout at 1. rewrite (bind_ready _ _ _ (length (idle (pool w))) w) by done.
  transitivity ((r ← idle_pop; match r with
    | PopNone => connect_round
    | PopExpired => admitted_checkout
    | PopStale k => ph ← probe_round k; match ph with
       | LegIdleLoop => admitted_checkout | LegSyncing l => mret (Ok l) | _ => never end
    | PopFresh k => l ← finish (pk_conn k) (pk_created_at k); mret (Ok l)
    end) w).
  2: { unfold idle_round. rewrite alike_assoc. apply alike_bind; [done|].
       by intros []. }
  rewrite (alike_bind _ _ _ _ (pop_loop_S _) (λ _, reflexivity _)). rewrite alike_assoc. apply bind_ext.
  intros r w1 [Hl Hr]%idle_pop_length.
  assert (r ≠ PopNone → length (idle (pool w)) = S (length (idle (pool w1)))) as Hn.
  { intros Hx. destruct (idle (pool w)); simpl in *; tauto || lia. }
  destruct r as [| |k|k]; [done| | |done].
  { rewrite Hn by done. done. }
  rewrite Hn by done. unfold probe_round. rewrite !alike_assoc. apply bind_ext. intros [[u|e] c] w2 Hc; [done|].
  rewrite !alike_assoc. apply bind_ext. intros [] w3 Hd. unfold on_pool in Hd. async_inv.
  unfold on_conn in Hc. destruct (probe _) as [[]]; by simplify_eq.
Qed.

(** The phases a round of a checkout leads to. *)
Definition in_checkout (ph : LegPhase) : Prop :=
  match ph with LegIdleLoop | LegProbing _ | LegConnecting | LegSyncing _ => True | _ => False end.

Lemma idle_round_phase w ph w' : idle_round w = (Ready ph, w') → in_checkout ph.
Proof. unfold idle_round. intros ([] & w1 & _ & H)%bind_ready_inv; by async_inv. Qed.

Lemma probe_round_phase k w ph w' :
  probe_round k w = (Ready ph, w') → ph = LegIdleLoop ∨ ∃ l, ph = LegSyncing l.
Proof. unfold probe_round. intros ([[] c] & w1 & _ & H)%bind_ready_inv; async_inv; eauto. Qed.

Lemma with_pool_known {A} k (m : async PoolWorld A) s a s' :
  with_pool k m s = (Ready a, s') → ∃ p w, m (MkPoolWorld p (s_env s)) = (Ready a, w) ∧
    s_pools s !! k = Some p ∧ s_pools s' !! k = Some (pool w).
Proof.
  unfold with_pool. destruct (s_pools s !! k) as [p|]; [|done].
  destruct (m _) as [r w] eqn:Hm. intros [= -> <-]. exists p, w. simpl. by rewrite Hm, lookup_insert_eq.
Qed.

(** A round that leads to a phase of the checkout, and the rest of the leg. *)
Lemma checkout_then leg k (m : async PoolWorld LegPhase) s :
  (∀ w ph w', m w = (Ready ph, w') → in_checkout ph) →
  (r ← with_pool k (ph ← m; checkout_rest ph); leg_with leg r) s =
  ((ph ← with_pool k m; mret (LegAwaits ph)) ≫=
    λ p, match p with LegAwaits ph => leg_rest leg k ph | LegDone o => mret o end) s.
Proof.
  intros Hm. rewrite (alike_bind _ _ _ _ (with_pool_bind k _ _) (λ _, reflexivity _)), !alike_assoc.
  apply bind_ext. intros ph s1 Hs. apply with_pool_known in Hs as (p & w & Hw & _ & Hk).
  apply Hm in Hw. destruct ph; try done.
  exact (bind_ready _ _ _ _ _ (with_pool_ret _ _ _ _ Hk)).
Qed.

Lemma leg_rounds leg k ph s :
  leg_rest leg k ph s =
  (p ← leg_round leg k ph; match p with LegAwaits ph => leg_rest leg k ph | LegDone o => mret o end) s.
Proof.
  destruct ph as [| | |c| |l|l|l]; simpl.
  - unfold run_leg_pooled, checkout, enter_pool.
    rewrite (alike_bind _ _ _ _ (with_pool_bind k _ _) (λ _, reflexivity _)), !alike_assoc.
    rewrite (alike_bind _ _ _ _ (with_pool_bind k _ _) (λ _, reflexivity _)), !alike_assoc. done.
  - by rewrite !alike_assoc.
  - rewrite <-checkout_then by apply idle_round_phase.
    by rewrite (alike_bind _ _ _ _ (with_pool_alike k _ _ admitted_rounds) (λ _, reflexivity _)).
  - rewrite <-checkout_then by (by intros w ph w' [->|[l ->]]%probe_round_phase).
    apply alike_bind; [|done]. apply with_pool_alike. intros w. apply bind_ext.
    by intros ph w' [->|[l ->]]%probe_round_phase.
  - rewrite alike_assoc. apply bind_ext. by intros [l|e] s1 _.
  - unfold sync_round. rewrite alike_assoc. apply bind_ext. intros [[u|e] c] s1 _; [|by rewrite alike_assoc].
    transitivity (leg_rest leg k (LegQuerying (l <| conn := c |>)) s1); [|done].
    unfold leg_rest, query_round. rewrite alike_assoc. apply bind_ext. intros [q c'] s2 _.
    destruct (col_broken q); [by rewrite alike_assoc|done].
  - apply bind_ext. intros [ph|o] s1 Hq; [|done]. unfold query_round in Hq.
    apply bind_ready_inv in Hq as ([q c] & s2 & _ & Hq). destruct (col_broken q); by async_inv.
  - done.
Qed.

(** A leg that waits for a permit is left as it was. *)
Lemma waits_unchanged leg k ph s s' :
  ph = LegStart ∨ ph = LegWaiting → leg_round leg k ph s = (Pending, s') → s' = s.
Proof.
  intros [->| ->] [H|(? & ? & _ & H)]%bind_inv; try done; revert H; unfold with_pool;
    (destruct (s_pools s !! k) as [p|] eqn:Hk; [|by intros [= ->]]); [done|].
  unfold acquire. simpl. destruct (grant p); [done|]. intros [= <-]. simpl.
  rewrite (insert_id _ _ _ Hk). by destruct s.
Qed.

Lemma poll_alone_sound n leg k ph s o s' :
  poll_alone n leg k ph s = Some (o, s') → leg_rest leg k ph s = (Ready o, s').
Proof.
  revert ph s. induction n as [|n IH]; intros ph s; simpl; [done|]. unfold poll_leg. rewrite leg_rounds.
  destruct (leg_round leg k ph s) as [[[ph'|o']|] s1] eqn:Hr; intros H.
  - apply IH in H. by rewrite (bind_ready _ _ _ _ _ Hr).
  - injection H as <- <-. by rewrite (bind_ready _ _ _ _ _ Hr).
  - apply IH in H. exfalso. destruct ph; try done;
      apply waits_unchanged in Hr as Hs; auto; subst s1; rewrite leg_rounds in H;
      by rewrite (bind_pending _ _ _ _ Hr) in H.
Qed.

(** How many polls may be left. *)
Definition polls_left (k : PoolKey) (ph : LegPhase) (s : Session) : nat :=
  let parked := match s_pools s !! k with Some p => length (idle p) | None => 0 end in
  match ph with
  | LegStart => 2 * parked + 5
  | LegWaiting | LegProbing _ => 2 * parked + 4
  | LegIdleLoop => 2 * parked + 3
  | LegConnecting => 2
  | LegSyncing _ => 1
  | LegQuerying _ | LegStuck _ => 0
  end.

Lemma round_progress leg k ph s ph' s' :
  leg_round leg k ph s = (Ready (LegAwaits ph'), s') → polls_left k ph' s' < polls_left k ph s.
Proof.
  destruct ph as [| | |c| |l|l|l]; simpl; intros H.
  - apply bind_ready_inv in H as (? & ? & H & ?). async_inv.
    apply with_pool_known in H as (p & w & Hw & Hp & Hp'). unfold polls_left. rewrite Hp, Hp'.
    unfold on_pool in Hw. async_inv. simpl. lia.
  - apply bind_ready_inv in H as (? & ? & H & ?). async_inv.
    apply with_pool_known in H as (p & w & Hw & Hp & Hp'). unfold polls_left. rewrite Hp, Hp'.
    unfold acquire, grant in Hw. simpl in Hw. destruct (permits p); simplify_eq. simpl. lia.
  - apply bind_ready_inv in H as (? & ? & H & ?). async_inv.
    apply with_pool_known in H as (p & w & Hw & Hp & Hp'). unfold polls_left. rewrite Hp, Hp'.
    unfold idle_round in Hw. apply bind_ready_inv in Hw as (r & w1 & Hr & Hw).
    apply idle_pop_length in Hr as [Hl Hr]. simpl in *.
    destruct r; async_inv; try (simpl; lia);
      (assert (idle p ≠ []) by (intros Hx; by apply Hr in Hx)); destruct (idle p); simpl in *; (done || lia).
  - apply bind_ready_inv in H as (? & ? & H & ?). async_inv.
    apply with_pool_known in H as (p & w & Hw & Hp & Hp'). unfold polls_left. rewrite Hp, Hp'.
    unfold probe_round in Hw. apply bind_ready_inv in Hw as ([[] c'] & w1 & Hr & Hw);
      unfold on_conn in Hr; destruct (probe _) as [[]]; simplify_eq; [async_inv; simpl; lia|].
    unfold on_pool in Hw. async_inv. simpl. lia.
  - apply bind_ready_inv in H as ([] & ? & _ & ?); async_inv. simpl. lia.
  - unfold sync_round in H. apply bind_ready_inv in H as ([[] c] & ? & _ & H); async_inv. simpl. lia.
  - unfold query_round in H. apply bind_ready_inv in H as ([q c] & ? & _ & H).
    destruct (col_broken q); async_inv.
  - done.
Qed.

Lemma poll_alone_complete n leg k ph s o s' :
  polls_left k ph s < n → leg_rest leg k ph s = (Ready o, s') → poll_alone n leg k ph s = Some (o, s').
Proof.
  revert ph s. induction n as [|n IH]; intros ph s Hn; [lia|]. rewrite leg_rounds. simpl. unfold poll_leg.
  intros (p & s1 & Hr & H)%bind_ready_inv. rewrite Hr. destruct p as [ph'|o']; [|by async_inv].
  apply IH; [|done]. apply round_progress in Hr. lia.
Qed.

End Leg.
