(* ===== verification/Scatter.v ===== *)
(** * Scatter-gather (scatter.rs)

    [execute_scatter] runs the legs of a request, one connection each, and
    composes one client-visible cycle from their results.  The pooled legs are
    the futures of [ScatterLeg], polled one at a time in the order a [Schedule]
    gives; the first failure drops the others with what they hold. *)

From S2P Require Import Prelude Wp RustStr Messages Config Upstream Reference Row Routing Intercept Pool PoolHygiene Session Attach Pump ScatterLeg.

Section Scatter.
Context `{P : Platform} {F : Fuel} {I : Interceptor} {X : SessionCtx}.

(** Which of the legs left is polled next, until the stream is given up: any
    interleaving, for every scatter of its own. *)
Class Schedule := polls : list ScatterLeg → Session → list nat.
Context {Sch : Schedule}.

Definition sum_failure : ScatterFailure :=
  MkScatterFailure (MkErrorInfo "ERROR" "0A000"
    "pgferry scatter: Sum merge requires a numeric first column") false.
Definition conn_gone : ScatterFailure :=
  MkScatterFailure (MkErrorInfo "ERROR" "08006" "client connection lost") false.

(** ** All legs *)

Fixpoint each {A} (f : A → async Session unit) (l : list A) : async Session unit :=
  match l with
  | [] => mret ()
  | a :: l => _ ← f a; each f l
  end.

Definition leg_failed (o : LegOutcome) : bool :=
  bool_decide (is_Some (o_error o)) || conn_broken o.

(** A leg in the stream: on its pool, at its phase. *)
Definition Running : Type := ScatterLeg * PoolKey * LegPhase.
Definition drop_running (r : Running) : async Session unit := drop_leg r.1.2 r.2.

(** The outcomes in completion order, or the first error and the outcomes
    before it; legs left when the schedule ends wait for ever. *)
Fixpoint collect_legs (turns : list nat) (legs : list Running) (done : list LegOutcome) :
    async Session (option ErrorInfo * list LegOutcome) :=
  match legs, turns with
  | [], _ => mret (None, done)
  | _ :: _, [] => never
  | _ :: _, i :: turns =>
    match legs !! i with
    | None => collect_legs turns legs done
    | Some (leg, k, ph) =>
      p ← (λ s, let '(p, s) := poll_leg leg k ph s in (Ready p, s));
      match p with
      | LegAwaits ph => collect_legs turns (<[i := (leg, k, ph)]> legs) done
      | LegDone o =>
        if leg_failed o then
          _ ← drop_lease (o_lease o);
          _ ← each drop_running (delete i legs);
          mret (Some (default (shard_failed (o_endpoint o)) (o_error o)), done)
        else collect_legs turns (delete i legs) (done ++ [o])
      end
    end
  end.

(** An invariant of the legs left, the outcomes so far and the session that
    every poll keeps, whichever leg it is of. *)
Lemma wp_collect (J : list Running → list LegOutcome → Session → Prop)
    (Q : option ErrorInfo * list LegOutcome → Session → Prop) turns legs os s :
  (∀ l1 leg k ph l2 os s, J (l1 ++ (leg, k, ph) :: l2) os s →
     match poll_leg leg k ph s with
     | (LegAwaits ph, s') => J (l1 ++ (leg, k, ph) :: l2) os s'
     | (LegDone o, s') =>
       if leg_failed o then
         wp (_ ← drop_lease (o_lease o); each drop_running (l1 ++ l2))
           (λ _, Q (Some (default (shard_failed (o_endpoint o)) (o_error o)), os)) (λ _, True) s'
       else J (l1 ++ l2) (os ++ [o]) s'
     end) →
  (∀ os s, J [] os s → Q (None, os) s) →
  J legs os s → wp (collect_legs turns legs os) Q (λ _, True) s.
Proof.
  intros Hpoll Hend. revert legs os s.
  induction turns as [|i turns IH]; intros [|r legs] os s HJ; try (by apply wp_ret, Hend); [done|].
  cbn [collect_legs]. destruct (_ !! i) as [[[leg k] ph]|] eqn:Hi; [|by apply IH].
  apply (lookup_around (A := Running)) in Hi as (l1 & l2 & Hl & Hd & Hs). rewrite Hd. rewrite Hl in HJ.
  apply wp_bind. unfold wp at 1. apply Hpoll in HJ.
  destruct (poll_leg leg k ph s) as [[ph'|o] s']; [rewrite Hs; by apply IH|].
  destruct (leg_failed o); [|by apply IH]. unfold wp, mbind, async_bind in *.
  destruct (drop_lease _ _) as [[[]|] s1]; [|done]. by destruct (each drop_running _ _) as [[[]|] s2].
Qed.

(** The leg that runs on the session's own connection: the first on the
    current endpoint. *)
Definition is_session_leg (s : Session) (leg : ScatterLeg) : bool :=
  bool_decide (current_endpoint s = Some (leg_endpoint leg)) && bool_decide (is_Some (lease s)).

Fixpoint partition_legs (own : ScatterLeg → bool) (legs : list ScatterLeg) :
    option ScatterLeg * list ScatterLeg :=
  match legs with
  | [] => (None, [])
  | leg :: legs =>
    if own leg then (Some leg, legs)
    else let '(o, rest) := partition_legs own legs in (o, leg :: rest)
  end.

Definition known_endpoint (leg : ScatterLeg) : bool :=
  match endpoint cx_route (leg_endpoint leg) with Some _ => true | None => false end.

(** The pools of the endpoints, each resolved once. *)
Fixpoint resolve_all (legs : list ScatterLeg) (pools : gmap string PoolKey) :
    async Session (gmap string PoolKey) :=
  match legs with
  | [] => mret pools
  | leg :: legs =>
    if decide (is_Some (pools !! leg_endpoint leg)) then resolve_all legs pools
    else match endpoint cx_route (leg_endpoint leg) with
         | None => never
         | Some ep => k ← resolve_pool ep; resolve_all legs (<[id ep := k]> pools)
         end
  end.

(** ** Merging *)

Fixpoint merge_send (ms : list PgWireBackendMessage) : async Session (result ScatterFailure unit) :=
  match ms with
  | [] => mret (Ok ())
  | m :: ms =>
    r ← ds_send m;
    match r with
    | Ok _ => merge_send ms
    | Err _ => mret (Err conn_gone)
    end
  end.

(** [Concat]: the first row description and every row. *)
Fixpoint concat_messages (written : bool) (ms : list PgWireBackendMessage) :
    list PgWireBackendMessage :=
  match ms with
  | [] => []
  | BRowDescription rd :: ms =>
    if written then concat_messages written ms
    else BRowDescription rd :: concat_messages true ms
  | BDataRow r :: ms => BDataRow r :: concat_messages written ms
  | _ :: ms => concat_messages written ms
  end.

(** [Sum]: the first row description and the total; an overflow of the [i128]
    accumulator wraps. *)
Inductive Summed :=
| SumPanics
| SumFails
| SumOk (schema : option PgWireBackendMessage) (total : Z).

Fixpoint sum_messages (schema : option PgWireBackendMessage) (total : Z)
    (ms : list PgWireBackendMessage) : Summed :=
  match ms with
  | [] => SumOk schema total
  | BRowDescription rd :: ms =>
    sum_messages (match schema with None => Some (BRowDescription rd) | _ => schema end) total ms
  | BDataRow r :: ms =>
    match first_column_i128 r with
    | Panics => SumPanics
    | NotNumeric => SumFails
    | Value z => sum_messages schema (wrap_i 128 (total + z)) ms
    end
  | _ :: ms => sum_messages schema total ms
  end.

Definition tagged (tag : string) (rows : Z) : PgWireBackendMessage :=
  BCommandComplete (tag +:+ String " " (show_Z rows)).

Definition merge_write (request : ScatterRequest) (ms : list PgWireBackendMessage) (total_rows : Z) :
    async Session (result ScatterFailure unit) :=
  match merge request with
  | Concat => merge_send (concat_messages false ms ++ [tagged (req_tag request) total_rows])
  | Sum =>
    match sum_messages None 0 ms with
    | SumPanics => never
    | SumFails => mret (Err sum_failure)
    | SumOk schema total =>
      merge_send (match schema with Some m => [m] | None => [] end ++
                  [BDataRow (sum_row total); BCommandComplete (req_tag request +:+ " 1")])
    end
  end.

Definition return_lease (o : LegOutcome) : async Session unit :=
  match o_lease o with
  | Some l => with_pool (lease_pool l) (checkin_detached l (o_dirty o))
  | None => mret ()
  end.

Definition merged_rows (request : ScatterRequest) (total : Z) : Z :=
  match merge request with Sum => 1%Z | Concat => total end.

(** The session-lease leg, after the pooled legs succeeded. *)
Definition run_session_leg (own : option ScatterLeg) :
    async Session (result ScatterFailure (option Collected)) :=
  match own with
  | None => mret (Ok None)
  | Some leg =>
    q ← on_lease (run_query_collect (leg_sql leg));
    if col_broken q then
      mret (Err (MkScatterFailure (default (shard_failed (leg_endpoint leg)) (col_error q)) true))
    else mret (Ok (Some q))
  end.

(** Everything after the legs ran. *)
Definition finish_scatter (request : ScatterRequest) (own : option Collected)
    (done : list LegOutcome) : async Session (result ScatterFailure Z) :=
  let total := foldl u64_add 0%Z (match own with Some q => [col_rows q] | None => [] end ++ (o_rows <$> done)) in
  let ms := (match own with Some q => col_messages q | None => [] end) ++ concat (o_messages <$> done) in
  w ← merge_write request ms total;
  match w with
  | Err f => _ ← each drop_lease (o_lease <$> done); mret (Err f)
  | Ok _ => _ ← each return_lease done; mret (Ok (merged_rows request total))
  end.

Definition enlist (pools : gmap string PoolKey) (leg : ScatterLeg) : Running :=
  (leg, default (MkPoolKey EmptyString EmptyString EmptyString None) (pools !! leg_endpoint leg), LegStart).

#[global] Instance execute_scatter_impl : ScatterExec := λ request,
  match List.find (λ leg, negb (known_endpoint leg)) (legs request) with
  | Some leg => mret (Err (MkScatterFailure (unknown_endpoint (leg_endpoint leg)) false))
  | None =>
    pools ← resolve_all (legs request) ∅;
    own ← gets is_session_leg;
    let '(session_leg, rest) := partition_legs own (legs request) in
    turns ← gets (polls rest);
    r ← collect_legs turns (enlist pools <$> rest) [];
    let '(first_error, done) := r in
    match first_error with
    | Some e =>
      _ ← each return_lease done; mret (Err (MkScatterFailure e false))
    | None =>
      sl ← run_session_leg session_leg;
      match sl with
      | Err f => _ ← each drop_lease (o_lease <$> done); mret (Err f)
      | Ok own =>
        match own ≫= col_error with
        | Some e => _ ← each return_lease done; mret (Err (MkScatterFailure e false))
        | None => finish_scatter request own done
        end
      end
    end
  end.

End Scatter.
