(* ===== verification/ScatterProps.v ===== *)
(** * Properties of scatter-gather

    The client sees one whole cycle or only an error; the merged result is the
    sum, or the concatenation, of what the shards sent; the executor respects
    what the pump expects of it. *)

From S2P Require Import Prelude RustStr Messages Config Upstream Reference Row Routing Intercept Pool PoolHygiene Session Attach Pump Chores PumpFlow PumpInv ScatterLeg Scatter.

(** ** Sums *)

(** The rows among a leg's messages. *)
Definition rows_of (ms : list PgWireBackendMessage) : list DataRow :=
  omap (λ m, match m with BDataRow r => Some r | _ => None end) ms.

(** The first row description among messages. *)
Definition first_schema (ms : list PgWireBackendMessage) : option PgWireBackendMessage :=
  List.find (λ m, match m with BRowDescription _ => true | _ => false end) ms.

Lemma first_column_sum_row z :
  (- 2 ^ 127 ≤ z < 2 ^ 127)%Z → first_column_i128 (sum_row z) = Value z.
Proof.
  intros Hz. pose proof (show_Z_length z Hz) as Hl. unfold first_column_i128, sum_row. cbn [data]. rewrite get_put_i32.
  assert (length (String.list_ascii_of_string (show_Z z)) = String.length (show_Z z)) as Hlen.
  { generalize (show_Z z). intros s. induction s; simpl; congruence. }
  unfold wrap_i. rewrite Z.mod_small by lia.
  replace (Z.of_nat (String.length (show_Z z)) + 2 ^ (32 - 1) - 2 ^ (32 - 1))%Z
    with (Z.of_nat (String.length (show_Z z))) by lia.
  rewrite bool_decide_false by lia. rewrite Nat2Z.id, Hlen. rewrite bool_decide_false by lia.
  rewrite take_ge by lia. rewrite from_utf8_int by apply show_int_chars.
  rewrite trim_int by apply show_int_chars. by rewrite parse_i128_show.
Qed.

Lemma sum_messages_spec ms vs schema total :
  (λ r, first_column_i128 r) <$> rows_of ms = Value <$> vs →
  ∃ t, sum_messages schema total ms =
      SumOk (match schema with None => first_schema ms | _ => schema end) t ∧
    t = foldl (λ a z, wrap_i 128 (a + z)) total vs.
Proof.
  revert vs schema total. induction ms as [|m ms IH]; intros vs schema total; simpl.
  { intros Hv. destruct vs; [|done]. exists total. by destruct schema. }
  destruct m; try apply IH.
  - intros Hv. destruct (IH vs (match schema with None => Some (BRowDescription fields) | _ => schema end)
      total Hv) as (t & -> & Ht). exists t. split; [|done]. by destruct schema.
  - destruct vs as [|v vs]; [done|]. simpl. intros [= -> Hv]. by apply IH.
Qed.

(** Partial sums that fit an [i128]. *)
Fixpoint sums_fit (total : Z) (vs : list Z) : Prop :=
  match vs with
  | [] => True
  | v :: vs => (- 2 ^ 127 ≤ total + v < 2 ^ 127)%Z ∧ sums_fit (total + v) vs
  end.

Definition zsum (vs : list Z) : Z := foldr Z.add 0%Z vs.

Lemma wrap_i128_small z : (- 2 ^ 127 ≤ z < 2 ^ 127)%Z → wrap_i 128 z = z.
Proof. intros. unfold wrap_i. change (2 ^ (128 - 1))%Z with (2 ^ 127)%Z. rewrite Z.mod_small; lia. Qed.

Lemma foldl_sums vs total :
  sums_fit total vs → foldl (λ a z, wrap_i 128 (a + z)) total vs = (total + zsum vs)%Z.
Proof.
  revert total. induction vs as [|v vs IH]; intros total; simpl; [lia|].
  intros [Hv Hvs]. rewrite wrap_i128_small by done. rewrite IH by done. lia.
Qed.

Lemma sums_fit_total vs total :
  sums_fit total vs → (- 2 ^ 127 ≤ total < 2 ^ 127)%Z →
  (- 2 ^ 127 ≤ total + zsum vs < 2 ^ 127)%Z.
Proof.
  revert total. induction vs as [|v vs IH]; intros total; simpl; [lia|].
  intros [Hv Hvs] _. specialize (IH _ Hvs Hv). lia.
Qed.

(** ** Concatenation *)

Definition is_schema (m : PgWireBackendMessage) : bool :=
  match m with BRowDescription _ => true | _ => false end.

Lemma concat_messages_spec ms written :
  rows_of (concat_messages written ms) = rows_of ms ∧
  List.filter is_schema (concat_messages written ms) =
    (if written then [] else match first_schema ms with Some m => [m] | None => [] end) ∧
  Forall (λ m, is_schema m || is_data_row m = true) (concat_messages written ms).
Proof.
  revert written. induction ms as [|m ms IH]; intros written; simpl.
  { by destruct written. }
  destruct m; try apply IH; simpl.
  - destruct written; simpl; [apply IH|]. destruct (IH true) as (? & -> & ?). auto.
  - destruct (IH written) as (-> & ? & ?). auto.
Qed.

Section Props.
Context `{P : Platform} {F : Fuel} {I : Interceptor} {X : SessionCtx} {Sch : Schedule}.

(** ** Silence until the merge *)

Definition silent (s s' : Session) : Prop := downstream s' = downstream s.

#[local] Instance silent_preorder : PreOrder silent.
Proof. split; unfold silent; [by intros ?|]. intros ??? H1 H2. by etrans. Qed.

Lemma silent_with_pool {A} k (m : async PoolWorld A) : keeps silent (with_pool k m).
Proof.
  intros s a s'. unfold with_pool. destruct (s_pools s !! k); [|by intros [= <- <-]].
  destruct (m _). by intros [= <- <-].
Qed.
Lemma silent_on_lease {A} (m : async PgWireClient A) : keeps silent (on_lease m).
Proof.
  intros s a s'. unfold on_lease. destruct (lease s); [|by intros [= <- <-]].
  destruct (m _). by intros [= <- <-].
Qed.
Lemma silent_on_conn {A} c (m : async PgWireClient A) : keeps silent (on_conn c m).
Proof. intros s a s'. unfold on_conn. destruct (m c) as [[]]; by intros [= <- <-]. Qed.
Lemma silent_resolve_pool e : keeps silent (resolve_pool e).
Proof. by intros s a s' [= <- <-]. Qed.
#[local] Hint Resolve silent_with_pool silent_on_lease silent_on_conn silent_resolve_pool : keeps.

#[local] Hint Extern 1 (keeps silent (modify _)) =>
  solve [apply keeps_modify; intros ?; done] : keeps.

(** What holds of every computation on connections and pools. *)
Class Backstage (R : Session → Session → Prop) : Prop := {
  bs_preorder : PreOrder R;
  bs_pool {A} k (m : async PoolWorld A) : keeps R (with_pool k m);
  bs_lease {A} (m : async PgWireClient A) : keeps R (on_lease m);
  bs_conn {A} c (m : async PgWireClient A) : keeps R (on_conn c m);
  bs_resolve e : keeps R (resolve_pool e)
}.
#[global] Instance frame_backstage : Backstage frame.
Proof. constructor; eauto with keeps typeclass_instances. Qed.
#[global] Instance silent_backstage : Backstage silent.
Proof. constructor; eauto with keeps typeclass_instances. Qed.
#[local] Hint Extern 0 (Backstage _) => apply _ : keeps.

Section Backstage.
Context {R : Session → Session → Prop} {B : Backstage R}.
#[local] Existing Instance bs_preorder.
#[local] Hint Resolve bs_pool bs_lease bs_conn bs_resolve : keeps.

Lemma keeps_each {A} (f : A → async Session unit) l : (∀ a, keeps R (f a)) → keeps R (each f l).
Proof. intros Hf. induction l; simpl; keeps_tac. Qed.

Lemma keeps_drop_lease o : keeps R (drop_lease o).
Proof. unfold drop_lease. keeps_tac. Qed.
Lemma keeps_drop_running r : keeps R (drop_running r).
Proof. unfold drop_running, drop_leg, drop_lease. keeps_tac. Qed.
Lemma keeps_return_lease o : keeps R (return_lease o).
Proof. unfold return_lease. keeps_tac. Qed.
#[local] Hint Resolve keeps_drop_lease keeps_drop_running keeps_return_lease keeps_each : keeps.

Lemma keeps_leg_round leg k ph : keeps R (leg_round leg k ph).
Proof. unfold leg_round, sync_round, query_round, destroy_lease. keeps_tac. Qed.

Lemma poll_leg_keeps leg k ph s p s' : poll_leg leg k ph s = (p, s') → R s s'.
Proof.
  unfold poll_leg. destruct (leg_round leg k ph s) as [r s1] eqn:Hr. apply keeps_leg_round in Hr.
  by destruct r; intros [= _ <-].
Qed.

Lemma keeps_collect turns legs done : keeps R (collect_legs turns legs done).
Proof.
  revert legs done. induction turns as [|i turns IH]; intros [|r legs] done; simpl; try by keeps_tac.
  destruct (_ !! i) as [[[leg k] ph]|]; [|apply IH].
  apply keeps_bind; [apply _| |intros ?; keeps_tac].
  intros s p s'. destruct (poll_leg leg k ph s) eqn:Hp. apply poll_leg_keeps in Hp. by intros [= <- <-].
Qed.

Lemma keeps_resolve_all legs pools : keeps R (resolve_all legs pools).
Proof. revert pools. induction legs; intros; simpl; keeps_tac. Qed.

Lemma keeps_session_leg own : keeps R (run_session_leg own).
Proof. unfold run_session_leg. keeps_tac. Qed.
End Backstage.

#[local] Hint Resolve keeps_collect keeps_resolve_all keeps_session_leg keeps_each keeps_drop_lease
  keeps_return_lease : keeps.

Lemma keeps_merge_send ms : keeps frame (merge_send ms).
Proof. induction ms; simpl; keeps_tac. Qed.
#[local] Hint Resolve keeps_merge_send : keeps.

(** The executor keeps what the pump relies on. *)
#[global] Instance execute_scatter_laws : ScatterLaws.
Proof.
  intros request. unfold execute_scatter, execute_scatter_impl, finish_scatter, merge_write.
  keeps_tac.
Qed.

(** ** Row counts *)

Definition row_count (ms : list PgWireBackendMessage) : Z := wrap_u 64 (Z.of_nat (length (rows_of ms))).

Lemma row_count_app ms1 ms2 : row_count (ms1 ++ ms2) = u64_add (row_count ms1) (Z.of_nat (length (rows_of ms2))).
Proof.
  unfold row_count, u64_add, rows_of. rewrite wrap_u_add_idemp by lia.
  by rewrite omap_app, length_app, Nat2Z.inj_add.
Qed.

Definition counted (q : Collected) : Prop := col_rows q = row_count (col_messages q).

Lemma collect_loop_counted n acc c q c' :
  counted acc → collect_loop n acc c = (Ready q, c') → counted q.
Proof.
  revert acc c. induction n as [|n IH]; intros acc c Hacc; simpl; [done|].
  intros (item & c1 & _ & H)%bind_ready_inv.
  destruct item as [[m|e]|]; [|by injection H as <- <-..].
  assert (∀ m, counted (acc <| col_rows ::= λ r, if is_data_row m then u64_add r 1 else r |>
                            <| col_messages ::= λ l, l ++ [m] |>)) as Hm.
  { intros m'. unfold counted in *. simpl. rewrite row_count_app, Hacc.
    destruct m'; simpl; unfold u64_add; rewrite ?Z.add_0_r; try done;
      unfold row_count; unfold wrap_u; by rewrite Zmod_mod. }
  destruct m; try (apply IH in H; [done|]; first [exact (Hm _)|exact Hacc]).
  by async_inv.
Qed.

Lemma collected_counted q c r c' : run_query_collect q c = (Ready r, c') → counted r.
Proof.
  unfold run_query_collect. intros (x & c1 & _ & H)%bind_ready_inv. destruct x.
  - by eapply collect_loop_counted; [|exact H].
  - by injection H as <- <-.
Qed.

Definition outcome_counted (o : LegOutcome) : Prop := o_rows o = row_count (o_messages o).

Lemma round_counted leg k ph s o s' : leg_round leg k ph s = (Ready (LegDone o), s') → outcome_counted o.
Proof.
  destruct ph as [| | |c| |l|l|l]; simpl; try (intros (? & ? & _ & H)%bind_ready_inv; by async_inv).
  - intros ([] & ? & _ & H)%bind_ready_inv; by async_inv.
  - unfold sync_round. intros ([[] c] & ? & _ & H)%bind_ready_inv; by async_inv.
  - unfold query_round. intros ([q c] & s1 & Hq & H)%bind_ready_inv.
    assert (counted q) as Hc.
    { unfold on_conn in Hq. destruct (run_query_collect (leg_sql leg) (conn l)) as [[q'|] c2] eqn:Hr; simplify_eq.
      by eapply collected_counted. }
    destruct (col_broken q); by async_inv.
  - done.
Qed.

Lemma poll_counted leg k ph s o s' : poll_leg leg k ph s = (LegDone o, s') → outcome_counted o.
Proof.
  unfold poll_leg. destruct (leg_round leg k ph s) as [[p|] s1] eqn:Hr; [|done].
  intros [= -> ->]. by eapply round_counted.
Qed.

Lemma collect_legs_counted turns legs done s e os s' :
  Forall outcome_counted done → collect_legs turns legs done s = (Ready (e, os), s') →
  Forall outcome_counted os.
Proof.
  revert legs done s. induction turns as [|i turns IH]; intros [|r legs] done s Hd; simpl;
    try (by intros [= <- <- <-]).
  destruct (_ !! i) as [[[leg k] ph]|]; [|by apply IH].
  intros (p & s1 & Hp & H)%bind_ready_inv. destruct (poll_leg leg k ph s) as [p' s2] eqn:Hpoll.
  injection Hp as -> ->. destruct p as [ph'|o]; [by eapply IH|]. apply poll_counted in Hpoll.
  destruct (leg_failed o).
  - async_inv. by simplify_eq.
  - eapply IH; [|exact H]. apply Forall_app. auto.
Qed.

(** Sending to a client that reads. *)
Lemma merge_send_there ms s :
  client_there s →
  ∃ s', merge_send ms s = (Ready (Ok ()), s') ∧
        ds_sent (downstream s') = ds_sent (downstream s) ++ ms ∧ s_pools s' = s_pools s.
Proof.
  revert s. induction ms as [|m ms IH]; intros s Hc; simpl.
  - exists s. by rewrite app_nil_r.
  - rewrite (bind_ready _ _ _ _ _ (ds_send_there m s Hc)).
    destruct (IH (sent_down m s) Hc) as (s' & ? & Hs & Hp). exists s'. split; [done|].
    rewrite Hs. simpl. by rewrite <-app_assoc.
Qed.

(** ** One cycle, or an error *)

(** A complete result set: at most one row description, rows, then a tag that
    counts the rows. *)
Definition one_result (tag : string) (n : Z) (out : list PgWireBackendMessage) : Prop :=
  ∃ ms, out = ms ++ [BCommandComplete (tag +:+ " " +:+ show_Z n)] ∧ n = row_count ms ∧
        Forall (λ m, is_schema m || is_data_row m = true) ms ∧ length (List.filter is_schema ms) ≤ 1.

Lemma first_schema_is_schema ms m : first_schema ms = Some m → is_schema m = true.
Proof. intros H. apply List.find_some in H as [_ H]. by destruct m. Qed.

Lemma sum_messages_schema ms schema total schema' t :
  (∀ m, schema = Some m → is_schema m = true) →
  sum_messages schema total ms = SumOk schema' t → ∀ m, schema' = Some m → is_schema m = true.
Proof.
  revert schema total. induction ms as [|m ms IH]; intros schema total Hs; simpl.
  { by intros [= <- <-]. }
  destruct m; try (by apply IH).
  - apply IH. destruct schema; [done|]. by intros ? [= <-].
  - destruct (first_column_i128 row); try done. by apply IH.
Qed.

Lemma merge_write_spec request ms total s w s' :
  client_there s → total = row_count ms → merge_write request ms total s = (Ready w, s') →
  match w with
  | Err _ => s' = s
  | Ok _ => ∃ out, ds_sent (downstream s') = ds_sent (downstream s) ++ out ∧
                   one_result (req_tag request) (merged_rows request total) out
  end.
Proof.
  intros Hc Ht. unfold merge_write, merged_rows. destruct (merge request).
  - destruct (merge_send_there (concat_messages false ms ++ [tagged (req_tag request) total]) s Hc)
      as (s1 & -> & Hs1 & _). intros [= <- <-]. eexists. split; [exact Hs1|].
    destruct (concat_messages_spec ms false) as (Hr & Hs & Hf).
    exists (concat_messages false ms). split; [done|]. split; [unfold row_count in *; by rewrite Hr|].
    split; [done|]. rewrite Hs. destruct (first_schema ms); simpl; lia.
  - destruct (sum_messages None 0 ms) as [| |schema t] eqn:Hsum; [done|by intros [= <- <-]|].
    destruct (merge_send_there (match schema with Some m => [m] | None => [] end ++
      [BDataRow (sum_row t); BCommandComplete (req_tag request +:+ " 1")]) s Hc) as (s1 & -> & Hs1 & _).
    intros [= <- <-]. eexists. split; [exact Hs1|].
    exists (match schema with Some m => [m] | None => [] end ++ [BDataRow (sum_row t)]).
    split; [by rewrite <-app_assoc|].
    pose proof (sum_messages_schema ms None 0 schema t ltac:(done) Hsum) as Hm.
    destruct schema as [m|]; [|split; [done|]; split; [by repeat constructor|simpl; lia]].
    specialize (Hm m eq_refl). destruct m; try done. split; [done|]. split; [by repeat constructor|simpl; lia].
Qed.

Lemma foldl_rows_of (l : list (list PgWireBackendMessage)) ms :
  foldl u64_add (row_count ms) (row_count <$> l) = row_count (ms ++ concat l).
Proof.
  revert ms. induction l as [|x l IH]; intros ms; simpl; [by rewrite app_nil_r|].
  rewrite app_assoc, <-IH. f_equal. rewrite row_count_app. unfold u64_add, row_count, wrap_u.
  by rewrite Zplus_mod_idemp_r.
Qed.

Lemma total_rows_spec own done :
  (∀ q, own = Some q → counted q) → Forall outcome_counted done →
  foldl u64_add 0%Z (match own with Some q => [col_rows q] | None => [] end ++ (o_rows <$> done)) =
  row_count ((match own with Some q => col_messages q | None => [] end) ++ concat (o_messages <$> done)).
Proof.
  intros Hq Hd.
  assert (o_rows <$> done = row_count <$> (o_messages <$> done)) as ->.
  { induction Hd as [|o os Ho _ IH]; [done|]. rewrite !fmap_cons. by rewrite Ho, IH. }
  destruct own as [q|].
  - rewrite (Hq q eq_refl). rewrite <-(foldl_rows_of (_ <$> done) (col_messages q)).
    simpl. f_equal. unfold u64_add, row_count, wrap_u. by rewrite Z.add_0_l, Zmod_mod.
  - by rewrite <-(foldl_rows_of (_ <$> done) []).
Qed.

Lemma finish_scatter_spec request own done s r s' :
  client_there s → (∀ q, own = Some q → counted q) → Forall outcome_counted done →
  finish_scatter request own done s = (Ready r, s') →
  match r with
  | Err _ => downstream s' = downstream s
  | Ok n => ∃ out, ds_sent (downstream s') = ds_sent (downstream s) ++ out ∧
                   one_result (req_tag request) n out
  end.
Proof.
  intros Hc Hq Hd. unfold finish_scatter. intros (w & s1 & Hw & H)%bind_ready_inv.
  apply merge_write_spec in Hw; [|done|by apply total_rows_spec].
  destruct w as [u|f]; async_inv.
  - match goal with H : each _ _ _ = _ |- _ =>
      apply (keeps_each (R := silent)) in H; [|intros; apply keeps_return_lease] end.
    destruct Hw as (out & Hs & Hone). exists out.
    match goal with H : silent _ _ |- _ => rewrite H end. done.
  - match goal with H : each _ _ _ = _ |- _ =>
      apply (keeps_each (R := silent)) in H; [|intros; apply keeps_drop_lease] end. congruence.
Qed.

(** C10: a scatter is all or nothing for a client that reads: when it fails,
    nothing of any shard was sent; when it succeeds the client got one result
    set: at most one row description, rows, and then a command tag that counts
    exactly the rows sent, and nothing else. *)
Theorem scatter_all_or_nothing request s r s' :
  client_there s → execute_scatter request s = (Ready r, s') →
  match r with
  | Err _ => downstream s' = downstream s
  | Ok n => ∃ out, ds_sent (downstream s') = ds_sent (downstream s) ++ out ∧
                   one_result (req_tag request) n out
  end.
Proof.
  intros Hc. unfold execute_scatter, execute_scatter_impl.
  destruct (List.find _ _); [by intros [= <- <-]|].
  intros (pools & s1 & H1 & H)%bind_ready_inv. apply (keeps_resolve_all (R := silent)) in H1.
  apply bind_ready_inv in H as (own & ? & [= <- <-] & H).
  destruct (partition_legs _ _) as [session_leg rest].
  apply bind_ready_inv in H as (turns & ? & [= <- <-] & H).
  apply bind_ready_inv in H as ([e done] & s2 & H2 & H).
  pose proof (collect_legs_counted _ _ _ _ _ _ _ (Forall_nil_2 _) H2) as Hd.
  apply (keeps_collect (R := silent)) in H2. assert (silent s s2) as H02 by (by etrans).
  clear H1 H2. destruct e as [e|].
  { async_inv. match goal with H : each _ _ _ = _ |- _ =>
      apply (keeps_each (R := silent)) in H; [|intros; apply keeps_return_lease] end.
    by etrans. }
  apply bind_ready_inv in H as (sl & s3 & H3 & H).
  assert (match sl with Ok (Some q) => counted q | _ => True end) as Hq.
  { revert H3. unfold run_session_leg. destruct session_leg; [|by intros [= <- <-]].
    intros (q & s4 & H4 & H5)%bind_ready_inv. unfold on_lease in H4. destruct (lease s2); [|done].
    destruct (run_query_collect _ _) as [q' c] eqn:Hr. injection H4 as -> <-.
    apply collected_counted in Hr. destruct (col_broken q); by injection H5 as <- <-. }
  apply (keeps_session_leg (R := silent)) in H3.
  assert (silent s s3) as H03 by (by etrans). clear H02 H3. destruct sl as [own|f].
  - destruct (own ≫= col_error).
    + async_inv. match goal with H : each _ _ _ = _ |- _ =>
        apply (keeps_each (R := silent)) in H; [|intros; apply keeps_return_lease] end.
      by etrans.
    + apply finish_scatter_spec in H; [by rewrite H03 in H| |by intros q ->|done].
      unfold client_there. by rewrite H03.
  - async_inv. match goal with H : each _ _ _ = _ |- _ =>
      apply (keeps_each (R := silent)) in H; [|intros; apply keeps_drop_lease] end.
    by etrans.
Qed.

(** ** The sum *)

Context {L : PlatformLaws P} {SL : ServerLaws P}.

(** The pools of the legs' leases exist. *)
Definition pools_known (done : list LegOutcome) (s : Session) : Prop :=
  ∀ o l, o ∈ done → o_lease o = Some l → is_Some (s_pools s !! lease_pool l).

Lemma return_leases_total done s :
  pools_known done s →
  ∃ s', each return_lease done s = (Ready (), s') ∧ downstream s' = downstream s.
Proof.
  revert s. induction done as [|o done IH]; intros s Hp; simpl; [by exists s|].
  assert (∃ s1, return_lease o s = (Ready (), s1) ∧ downstream s1 = downstream s ∧
                ∀ k, is_Some (s_pools s !! k) → is_Some (s_pools s1 !! k)) as (s1 & H1 & Hd & Hk).
  { unfold return_lease. destruct (o_lease o) as [l|] eqn:Hl; [|by exists s].
    destruct (Hp o l) as [p Hpl]; [set_solver|done|]. unfold with_pool. rewrite Hpl.
    destruct (checkin_detached_total l (o_dirty o) (MkPoolWorld p (s_env s))) as (w & -> & _).
    eexists. split; [done|]. split; [done|]. intros k Hk. simpl.
    destruct (decide (lease_pool l = k)) as [<-|]; [rewrite lookup_insert_eq; eauto|].
    by rewrite lookup_insert_ne. }
  rewrite (bind_ready _ _ _ _ _ H1). destruct (IH s1) as (s2 & H2 & Hd2).
  { intros o' l' ? ?. apply Hk. apply (Hp o' l'); [set_solver|done]. }
  exists s2. split; [done|]. congruence.
Qed.

(** The legs of a scatter all ran: they gave [own] on the session's connection and
    [done] on pooled ones, without an error, and the merge starts from [s']. *)
Definition legs_ran (request : ScatterRequest) (s : Session) (own : option Collected)
    (done : list LegOutcome) (s' : Session) : Prop :=
  Forall (λ leg, known_endpoint leg = true) (legs request) ∧
  ∃ pools s1 session_leg rest s2,
    resolve_all (legs request) ∅ s = (Ready pools, s1) ∧
    partition_legs (is_session_leg s1) (legs request) = (session_leg, rest) ∧
    collect_legs (polls rest s1) (enlist pools <$> rest) [] s1 = (Ready (None, done), s2) ∧
    run_session_leg session_leg s2 = (Ready (Ok own), s') ∧ own ≫= col_error = None.

Lemma legs_then_merge request s own done s' :
  legs_ran request s own done s' →
  execute_scatter request s = finish_scatter request own done s' ∧ downstream s' = downstream s.
Proof.
  intros (Hk & pools & s1 & sl & rest & s2 & H1 & Hp & H2 & H3 & Herr).
  assert (silent s s') as Hs.
  { apply (keeps_resolve_all (R := silent)) in H1. apply (keeps_collect (R := silent)) in H2.
    apply (keeps_session_leg (R := silent)) in H3. etrans; [exact H1|]. by etrans. }
  split; [|exact Hs]. unfold execute_scatter, execute_scatter_impl.
  assert (List.find (λ leg, negb (known_endpoint leg)) (legs request) = None) as ->.
  { clear -Hk. induction Hk as [|leg legs Hl _ IH]; [done|]. simpl. by rewrite Hl. }
  rewrite (bind_ready _ _ _ _ _ H1), (bind_ready _ _ _ (is_session_leg s1) s1), Hp by done.
  rewrite (bind_ready _ _ _ (polls rest s1) s1), (bind_ready _ _ _ _ _ H2) by done.
  rewrite (bind_ready _ _ _ _ _ H3). by rewrite Herr.
Qed.

(** C25: a [Sum] scatter answers with the sum: when its legs ran without an error,
    every row of every shard has an integer first column and the partial sums
    fit an [i128], a client that reads receives the first row description among
    the shards' answers (none when there is none), one row whose one column
    reads back as the exact sum, and the tag counting one row; nothing else.
    ([pools_known]: the pools that gave the legs their connections exist.) *)
Theorem scatter_sum_exact request s own done s1 vs :
  merge request = Sum → client_there s → legs_ran request s own done s1 → pools_known done s1 →
  first_column_i128 <$>
    rows_of ((match own with Some q => col_messages q | None => [] end) ++ concat (o_messages <$> done)) =
    Value <$> vs →
  sums_fit 0 vs →
  ∃ s' row, execute_scatter request s = (Ready (Ok 1%Z), s') ∧
    ds_sent (downstream s') = ds_sent (downstream s) ++
      option_list (first_schema
        ((match own with Some q => col_messages q | None => [] end) ++ concat (o_messages <$> done))) ++
      [BDataRow row; BCommandComplete (req_tag request +:+ " 1")] ∧
    field_count row = 1 ∧ first_column_i128 row = Value (zsum vs).
Proof.
  intros Hm Hc Hran Hp Hv Hfit. apply legs_then_merge in Hran as [-> Hds].
  unfold client_there in Hc. rewrite <-Hds in Hc |- *.
  unfold finish_scatter, merge_write, merged_rows. rewrite Hm.
  set (ms := _ ++ concat (o_messages <$> done)) in *.
  destruct (sum_messages_spec ms vs None 0 Hv) as (t & Hs & Ht). rewrite Hs.
  rewrite foldl_sums in Ht by done. rewrite Z.add_0_l in Ht.
  change (match first_schema ms with Some m => [m] | None => [] end) with (option_list (first_schema ms)).
  destruct (merge_send_there (option_list (first_schema ms) ++
    [BDataRow (sum_row t); BCommandComplete (req_tag request +:+ " 1")]) s1 Hc) as (s2 & H1 & Hs1 & Hp1).
  rewrite (bind_ready _ _ _ _ _ H1).
  destruct (return_leases_total done s2) as (s3 & H2 & Hd2).
  { intros o l Ho Hl. apply (Hp o l Ho) in Hl as [p Hl]. rewrite Hp1. by eauto. }
  rewrite (bind_ready _ _ _ _ _ H2). exists s3, (sum_row t). split; [done|].
  rewrite Hd2, Hs1. split; [done|]. split; [done|].
  subst t. apply first_column_sum_row. apply (sums_fit_total vs 0); [done|lia].
Qed.

End Props.
