(* ===== verification/ScatterLimits.v ===== *)
(** * Scatters and small pools (scatter.rs)

    What one leg takes from its pool and gives back ([leg_polled_alone]), and
    what all of them need together.  Every pooled leg keeps its connection until
    all legs are done: a scatter with more legs on one endpoint than the
    endpoint's pool has permits left, and the session's own connection, does not
    succeed ([scatter_needs_permits]). *)

From S2P Require Import Prelude Wp RustStr Messages Config Upstream Row Routing Intercept Pool Session Attach Pump PoolKeys ScatterLeg Scatter ScatterProps.

Section Limits.
Context `{P : Platform} {F : Fuel} {I : Interceptor} {X : SessionCtx} {Sch : Schedule}.

(** The permits left in a pool. *)
Definition permits_left (k : PoolKey) (s : Session) : nat :=
  match s_pools s !! k with Some p => permits p | None => 0 end.

Lemma keeps_idle_round : keeps same_permits idle_round.
Proof. unfold idle_round, idle_pop. keeps_tac. Qed.
Lemma keeps_probe_round k : keeps same_permits (probe_round k).
Proof. unfold probe_round. keeps_tac. Qed.

(** A connect that succeeds keeps its permit. *)
Lemma connect_keeps_permit w l w' : connect_round w = (Ready (Ok l), w') → same_permits w w'.
Proof.
  unfold connect_round. intros (f & w3 & [= <- <-] & H)%bind_ready_inv.
  apply bind_ready_inv in H as (r & w4 & He & H). apply keeps_in_env in He. etrans; [exact He|]. clear He.
  destruct r as [c|e].
  - assert (keeps same_permits (_ ← on_pool note_created; now ← in_env instant_now; l ← finish c now;
      mret (Ok (E := PgWireClientError) l))) as Hk by keeps_tac.
    by apply Hk in H.
  - apply bind_ready_inv in H as (? & w5 & _ & H). apply bind_ready_inv in H as (? & w6 & _ & H). done.
Qed.

(** A completed operation on one pool leaves the others alone. *)
Lemma with_pool_permits {A} k (m : async PoolWorld A) s a s' k' :
  with_pool k m s = (Ready a, s') →
  (k ≠ k' → permits_left k' s' = permits_left k' s) ∧
  (k = k' → ∃ w w', m w = (Ready a, w') ∧
     permits_left k' s = permits (pool w) ∧ permits_left k' s' = permits (pool w')).
Proof.
  unfold with_pool, permits_left. destruct (s_pools s !! k) as [p|] eqn:Hk; [|done].
  destruct (m _) as [r w] eqn:Hm. intros [= -> <-]. simpl. split.
  - intros Hne. by rewrite lookup_insert_ne.
  - intros <-. rewrite lookup_insert_eq. eexists _, w. rewrite Hm, Hk. done.
Qed.

(** Whether a leg holds a permit of its pool. *)
Definition leg_holds (ph : LegPhase) : nat :=
  match ph with LegStart | LegWaiting => 0 | _ => 1 end.

Definition held (k : PoolKey) (r : Running) : nat :=
  if decide (r.1.2 = k) then leg_holds r.2 else 0.

(** What a poll gives, in permits of the leg's pool. *)
Definition holds_after (p : Polled) : nat :=
  match p with LegAwaits ph => leg_holds ph | LegDone _ => 1 end.

Definition fails (p : Polled) : bool :=
  match p with LegDone o => leg_failed o | LegAwaits _ => false end.

(** A computation on the leg's pool that takes [d] permits. *)
Lemma pool_takes {A} k (m : async PoolWorld A) s a s' k' d :
  with_pool k m s = (Ready a, s') →
  (∀ w w', m w = (Ready a, w') → permits (pool w) = d + permits (pool w')) →
  permits_left k' s = (if decide (k = k') then d else 0) + permits_left k' s'.
Proof.
  intros Hm Hd. destruct (with_pool_permits _ _ _ _ _ k' Hm) as [H1 H2]. case_decide as Hk.
  - destruct (H2 Hk) as (w & w' & Hw & -> & ->). by apply Hd.
  - by rewrite H1.
Qed.

Lemma round_permits leg k ph s p s' k' :
  leg_round leg k ph s = (Ready p, s') → fails p = false →
  permits_left k' s + (if decide (k = k') then leg_holds ph else 0) =
  permits_left k' s' + (if decide (k = k') then holds_after p else 0).
Proof.
  intros Hr Hok.
  assert (∀ A (m : async PoolWorld A) a s1, with_pool k m s = (Ready a, s1) →
    (∀ w w', m w = (Ready a, w') → same_permits w w') → permits_left k' s = permits_left k' s1) as Hkeep.
  { intros A m a s1 Hm Hs. rewrite (pool_takes _ _ _ _ _ k' 0 Hm); [by case_decide|]. by intros w w' ->%Hs. }
  destruct ph as [| | |c| |l|l|l]; simpl in *.
  - apply bind_ready_inv in Hr as (? & s1 & H & Hr). async_inv.
    rewrite (Hkeep _ _ _ _ H); [done|]. intros w w' Hw. by apply keeps_on_pool in Hw.
  - apply bind_ready_inv in Hr as (? & s1 & H & Hr). async_inv.
    rewrite (pool_takes _ _ _ _ _ k' 1 H); [case_decide; simpl; lia|].
    intros w w'. unfold acquire, grant. destruct (permits (pool w)) eqn:Hp; [done|]. by intros [= _ <-].
  - apply bind_ready_inv in Hr as (ph & s1 & H & Hr). async_inv.
    rewrite (Hkeep _ _ _ _ H) by (intros w w' Hw; by apply keeps_idle_round in Hw).
    apply with_pool_known in H as (pl & w & Hw & _). apply idle_round_phase in Hw. by destruct ph.
  - apply bind_ready_inv in Hr as (ph & s1 & H & Hr). async_inv.
    rewrite (Hkeep _ _ _ _ H) by (intros w w' Hw; by apply keeps_probe_round in Hw).
    apply with_pool_known in H as (pl & w & Hw & _). by apply probe_round_phase in Hw as [->|[l ->]].
  - apply bind_ready_inv in Hr as ([l|e] & s1 & H & Hr); async_inv; try done.
    rewrite (Hkeep _ _ _ _ H) by (intros w w' Hw; by apply connect_keeps_permit in Hw). done.
  - unfold sync_round in Hr. apply bind_ready_inv in Hr as ([[u|e] c] & s1 & Hc & Hr).
    + unfold on_conn in Hc. destruct (sync_startup_parameters _ _) as [[]]; simplify_eq. by async_inv.
    + apply bind_ready_inv in Hr as (? & s2 & _ & Hr). by async_inv.
  - unfold query_round in Hr. apply bind_ready_inv in Hr as ([q c] & s1 & Hc & Hr).
    unfold on_conn in Hc. destruct (run_query_collect _ _) as [[]]; simplify_eq.
    destruct (col_broken q) eqn:Hb; [|by async_inv].
    apply bind_ready_inv in Hr as (? & s2 & _ & Hr). async_inv.
    revert Hok. unfold fails, leg_failed. simpl. by rewrite orb_true_r.
  - done.
Qed.

(** A leg whose await does not end keeps what it holds. *)
Lemma stuck_permits leg k ph s s' k' :
  leg_round leg k ph s = (Pending, s') →
  permits_left k' s' = permits_left k' s ∧ leg_holds (left_in ph) = leg_holds ph.
Proof.
  intros Hr. split; [|by destruct ph].
  assert (∀ A (m : async PoolWorld A), with_pool k m s = (Pending, s') →
    (∀ w w', m w = (Pending, w') → same_permits w w') → permits_left k' s' = permits_left k' s) as Hkeep.
  { intros A m. unfold with_pool, permits_left. destruct (s_pools s !! k) as [p|] eqn:Hk; [|by intros [= <-]].
    destruct (m _) as [r w] eqn:Hm. intros [= -> <-] Hw. simpl. apply Hw in Hm. unfold same_permits in Hm.
    destruct (decide (k = k')) as [<-|]; [by rewrite lookup_insert_eq, Hk|by rewrite lookup_insert_ne]. }
  assert (∀ l (o : Polled), (_ ← destroy_lease l; mret o) s = (Pending, s') →
    permits_left k' s' = permits_left k' s) as Hdestroy.
  { intros l o [H|(? & ? & _ & ?)]%bind_inv; [|done]. unfold destroy_lease, with_pool in H.
    destruct (s_pools s !! _); [done|]. by injection H as <-. }
  destruct ph as [| | |c| |l|l|l]; simpl in *; try (apply bind_inv in Hr as [Hr|(? & ? & _ & Hr)]; [|done];
    apply (Hkeep _ _ Hr)).
  - done.
  - intros w w'. unfold acquire. destruct (grant _); [done|]. by intros [= <-].
  - intros w w' Hw. by apply keeps_idle_round in Hw.
  - intros w w' Hw. by apply keeps_probe_round in Hw.
  - apply bind_inv in Hr as [Hr|([] & ? & _ & Hr)]; [|done..]. apply (Hkeep _ _ Hr).
    intros w w'. unfold connect_round. intros [H|(f & w1 & [= <- <-] & H)]%bind_inv; [done|].
    apply bind_inv in H as [H|([c|e] & w2 & He & H)]; [by apply keeps_in_env in H| |done].
    apply keeps_in_env in He. etrans; [exact He|].
    assert (keeps same_permits (_ ← on_pool note_created; now ← in_env instant_now; l ← finish c now;
      mret (Ok (E := PgWireClientError) l))) as Hk by keeps_tac.
    by apply Hk in H.
  - unfold sync_round in Hr. apply bind_inv in Hr as [Hr|([[u|e] c] & s1 & Hc & Hr)]; [| done |].
    + revert Hr. unfold on_conn. destruct (sync_startup_parameters _ _) as [[]]; [done|]. by intros [= <-].
    + unfold on_conn in Hc. destruct (sync_startup_parameters _ _) as [[]]; simplify_eq. by eapply Hdestroy.
  - unfold query_round in Hr. apply bind_inv in Hr as [Hr|([q c] & s1 & Hc & Hr)].
    + revert Hr. unfold on_conn. destruct (run_query_collect _ _) as [[]]; [done|]. by intros [= <-].
    + unfold on_conn in Hc. destruct (run_query_collect _ _) as [[]]; simplify_eq.
      destruct (col_broken q); [by eapply Hdestroy|done].
  - by injection Hr as <-.
Qed.

Lemma poll_permits leg k ph s p s' k' :
  poll_leg leg k ph s = (p, s') → fails p = false →
  permits_left k' s + (if decide (k = k') then leg_holds ph else 0) =
  permits_left k' s' + (if decide (k = k') then holds_after p else 0).
Proof.
  unfold poll_leg. destruct (leg_round leg k ph s) as [[p'|] s1] eqn:Hr; intros [= <- <-] Hok.
  - by eapply round_permits.
  - apply (stuck_permits _ _ _ _ _ k') in Hr as [-> Hh]. simpl. by rewrite Hh.
Qed.

Definition legs_on (k : PoolKey) (legs : list Running) : nat :=
  sum_list_with (λ r, if decide (r.1.2 = k) then 1 else 0) legs.

Definition held_by (k : PoolKey) (legs : list Running) : nat := sum_list_with (held k) legs.

(** However the legs are interleaved, a scatter whose pooled legs all succeed
    found a permit for each of them. *)
Lemma collect_needs_permits k turns legs os s os' s' :
  collect_legs turns legs os s = (Ready (None, os'), s') →
  legs_on k legs ≤ permits_left k s + held_by k legs.
Proof.
  set (J (ls : list Running) (_ : list LegOutcome) s1 :=
    permits_left k s1 + held_by k ls + legs_on k legs = legs_on k ls + (permits_left k s + held_by k legs)).
  assert (wp (collect_legs turns legs os) (λ r _, r.1 = None → legs_on k legs ≤ permits_left k s + held_by k legs)
    (λ _, True) s) as Hw; [|by intros H; apply (wp_run _ _ _ _ _ _ Hw H)].
  apply (wp_collect J); [|subst J; simpl; lia|subst J; simpl; lia].
  subst J. simpl. intros l1 leg k0 ph l2 os0 s0 HJ. destruct (poll_leg leg k0 ph s0) as [p s1] eqn:Hp.
  destruct (fails p) eqn:Hf.
  { destruct p as [|o]; [done|]. simpl in Hf. rewrite Hf.
    unfold wp. by destruct (mbind (M := async Session) _ _ s1) as [[]]. }
  apply (poll_permits _ _ _ _ _ _ k) in Hp; [|done].
  destruct p as [ph'|o]; simpl in *; [|rewrite Hf]; unfold legs_on, held_by, held in *;
    rewrite ?sum_list_with_app in *; simpl in *; case_decide; lia.
Qed.

(** ** A leg on its own *)

(** The permit a completed leg holds. *)
Definition leased (o : LegOutcome) : nat := match o_lease o with Some _ => 1 | None => 0 end.

(** What a completed leg hands over, whatever happened: the permit it took from
    its pool comes with a lease, of that pool, or has gone back; the connection
    is called broken exactly when there is no lease; the rows are the rows among
    its messages; nothing but its pool is touched. *)
Definition leg_accounts (leg : ScatterLeg) (k : PoolKey) (o : LegOutcome) (s s' : Session) : Prop :=
  o_endpoint o = leg_endpoint leg ∧
  (conn_broken o = true ↔ o_lease o = None) ∧
  (∀ l, o_lease o = Some l → lease_pool l = k) ∧
  permits_left k s = leased o + permits_left k s' ∧
  o_rows o = row_count (o_messages o).

(** Nothing but pool [k] changes. *)
Definition confined (k : PoolKey) (s s' : Session) : Prop :=
  (∀ k', k' ≠ k → s_pools s' !! k' = s_pools s !! k') ∧
  lease s' = lease s ∧ downstream s' = downstream s.
#[local] Instance confined_preorder k : PreOrder (confined k).
Proof.
  split; unfold confined; [done|]. intros ??? (H1 & -> & ->) (H2 & -> & ->). split; [|done].
  intros k' Hk. by rewrite H2, H1.
Qed.

Lemma confined_with_pool {A} k (m : async PoolWorld A) : keeps (confined k) (with_pool k m).
Proof.
  intros s a s'. unfold with_pool. destruct (s_pools s !! k); [|by intros [= <- <-]].
  destruct (m _) as [r w]. intros [= <- <-]. split; [|done]. intros k' Hk. simpl. by rewrite lookup_insert_ne.
Qed.
Lemma confined_on_conn {A} k c (m : async PgWireClient A) : keeps (confined k) (on_conn c m).
Proof. intros s a s'. unfold on_conn. destruct (m c) as [[]]; by intros [= <- <-]. Qed.
#[local] Hint Resolve confined_with_pool confined_on_conn : keeps.

Lemma leg_with_confined leg k l : lease_pool l = k → keeps (confined k) (leg_with leg (Ok l)).
Proof. intros <-. unfold leg_with, destroy_lease. keeps_tac. Qed.

(** Giving a lease up gives its permit back. *)
Lemma destroy_lease_permit l s u s' :
  destroy_lease l s = (Ready u, s') → permits_left (lease_pool l) s' = S (permits_left (lease_pool l) s).
Proof.
  intros H. destruct (with_pool_permits _ _ _ _ _ (lease_pool l) H) as [_ H2].
  destruct (H2 eq_refl) as (w & w' & [= _ <-] & -> & ->). done.
Qed.

Lemma on_conn_same {A} c (m : async PgWireClient A) (s s' : Session) r :
  on_conn c m s = (Ready r, s') → s' = s ∧ m c = (Ready (r.1), r.2).
Proof. unfold on_conn. destruct (m c) as [[]]; by intros [= <- <-]. Qed.

Lemma leg_with_accounts leg l s o s' :
  leg_with leg (Ok l) s = (Ready o, s') →
  o_endpoint o = leg_endpoint leg ∧ (conn_broken o = true ↔ o_lease o = None) ∧
  (∀ l', o_lease o = Some l' → lease_pool l' = lease_pool l) ∧
  leased o + permits_left (lease_pool l) s' = S (permits_left (lease_pool l) s) ∧
  o_rows o = row_count (o_messages o).
Proof.
  unfold leg_with. intros ([r c] & s1 & [-> _]%on_conn_same & H)%bind_ready_inv. destruct r as [u|e].
  2: { apply bind_ready_inv in H as (? & s2 & Hd%destroy_lease_permit & [= <- <-]). unfold leased. simpl. by rewrite Hd. }
  apply bind_ready_inv in H as ([q c'] & s2 & [-> Hq%collected_counted]%on_conn_same & H). simpl in *.
  destruct (col_broken q); [|injection H as <- <-; split_and!; naive_solver].
  apply bind_ready_inv in H as (? & s3 & Hd%destroy_lease_permit & [= <- <-]). unfold leased. simpl. by rewrite Hd.
Qed.

Lemma leg_pooled_accounts leg k s p o s' :
  s_pools s !! k = Some p → p_key p = k → run_leg_pooled leg k s = (Ready o, s') →
  leg_accounts leg k o s s' ∧ confined k s s'.
Proof.
  intros Hk Hp. unfold run_leg_pooled. intros (r & s1 & Hc & H)%bind_ready_inv.
  assert (confined k s s1) as Hs1 by (by apply confined_with_pool in Hc).
  assert (permits_left k s = (match r with Ok _ => 1 | Err _ => 0 end) + permits_left k s1) as Hperm.
  { destruct (with_pool_permits _ _ _ _ _ k Hc) as [_ H2]. destruct (H2 eq_refl) as (w & w' & Hw & -> & ->).
    by eapply checkout_permits. }
  destruct r as [l|e]; [|by injection H as <- <-].
  assert (lease_pool l = k) as Hl.
  { unfold with_pool in Hc. rewrite Hk in Hc. destruct (checkout _) as [r w] eqn:Hw.
    injection Hc as -> _. apply checkout_key in Hw. by rewrite Hw. }
  pose proof (leg_with_confined leg k l Hl _ _ _ H) as H1.
  apply leg_with_accounts in H as (? & ? & Hls & Hpl & ?). rewrite Hl in *.
  split; [|by etrans]. split_and!; try done. rewrite Hperm. unfold leased in *. destruct (o_lease o); lia.
Qed.

(** C24: a leg, however it is cut at its awaits.  Polled without other legs in
    between it gives the outcome, and leaves the pools, that [run_leg_pooled]
    does, within six polls and two for every parked connection, and it is done
    by no number of polls when [run_leg_pooled] does not return.  A leg that is
    done has either a lease, of its own pool, which then has one permit less, or
    says that the connection is broken and has given the permit back; it touches
    no other pool, not the session's connection and not the client; its row
    count is that of the rows among its messages. *)
Theorem leg_polled_alone leg k s p :
  s_pools s !! k = Some p → p_key p = k →
  (∀ o s', run_leg_pooled leg k s = (Ready o, s') ↔ ∃ n, poll_alone n leg k LegStart s = Some (o, s')) ∧
  (∀ o s', run_leg_pooled leg k s = (Ready o, s') →
     poll_alone (2 * length (idle p) + 6) leg k LegStart s = Some (o, s')) ∧
  (∀ n o s', poll_alone n leg k LegStart s = Some (o, s') →
     leg_accounts leg k o s s' ∧ confined k s s').
Proof.
  intros Hk Hp.
  assert (∀ o s', run_leg_pooled leg k s = (Ready o, s') →
     poll_alone (2 * length (idle p) + 6) leg k LegStart s = Some (o, s')) as Hc.
  { intros o s' H. apply poll_alone_complete; [|done]. unfold polls_left. rewrite Hk. lia. }
  split_and!; [|done|].
  - intros o s'. split; [by eauto|]. intros [n Hn]. by apply poll_alone_sound in Hn.
  - intros n o s' H%poll_alone_sound. by eapply leg_pooled_accounts.
Qed.

(** ** The whole scatter *)

Definition key_of (ep : string) : PoolKey := MkPoolKey (name cx_route) ep cx_user cx_database.

(** Pools that exist keep their permits while pools are resolved, and each
    endpoint resolves to its own. *)
Lemma resolve_all_keys legs pools s pools' s' k p :
  s_pools s !! k = Some p → (∀ ep k, pools !! ep = Some k → k = key_of ep) →
  resolve_all legs pools s = (Ready pools', s') →
  s_pools s' !! k = Some p ∧ lease s' = lease s ∧ current_endpoint s' = current_endpoint s ∧
  (∀ ep k, pools' !! ep = Some k → k = key_of ep) ∧
  (∀ leg, leg ∈ legs → is_Some (pools' !! leg_endpoint leg)) ∧
  (∀ ep, is_Some (pools !! ep) → is_Some (pools' !! ep)).
Proof.
  intros Hk. revert pools s Hk. induction legs as [|leg legs IH]; intros pools s Hk Hpools; simpl.
  { intros [= <- <-]. split_and!; try done. by intros leg Hin%elem_of_nil. }
  destruct (decide (is_Some (pools !! leg_endpoint leg))) as [Hs|Hn].
  - intros (? & ? & ? & ? & Hl & Hm)%IH; [|done|done]. split_and!; try done.
    intros leg' [->|Hin]%elem_of_cons; auto.
  - destruct (endpoint cx_route (leg_endpoint leg)) as [ep|] eqn:He; [|done].
    apply endpoint_Some in He as [_ He].
    intros (k' & s1 & [= <- <-] & H)%bind_ready_inv.
    apply IH in H as (? & ? & ? & ? & Hl & Hm).
    + split_and!; try done.
      * intros leg' [->|Hin]%elem_of_cons; [|auto]. apply Hm. rewrite <-He, lookup_insert_eq. by eexists.
      * intros ep' Hep'. apply Hm. destruct (decide (id ep = ep')) as [<-|];
          [rewrite lookup_insert_eq; by eexists|by rewrite lookup_insert_ne].
    + simpl. unfold get_or_create. destruct (s_pools s !! MkPoolKey _ _ _ _) eqn:Hx; [done|].
      simpl. rewrite lookup_insert_ne; [done|congruence].
    + intros ep' k'. destruct (decide (id ep = ep')) as [<-|];
        [rewrite lookup_insert_eq; by intros [= <-]|rewrite lookup_insert_ne by done; apply Hpools].
Qed.

Definition legs_for (ep : string) (legs : list ScatterLeg) : nat :=
  length (List.filter (λ leg, bool_decide (leg_endpoint leg = ep)) legs).

(** Every leg for an endpoint runs on the endpoint's pool, and holds no permit
    yet. *)
Lemma legs_on_pool ep pools legs :
  (∀ ep k, pools !! ep = Some k → k = key_of ep) →
  (∀ leg, leg ∈ legs → is_Some (pools !! leg_endpoint leg)) →
  legs_for ep legs ≤ legs_on (key_of ep) (enlist pools <$> legs) ∧
  held_by (key_of ep) (enlist pools <$> legs) = 0.
Proof.
  intros Hkeys Hall. unfold legs_on, legs_for, held_by, held. induction legs as [|leg legs IH]; simpl; [done|].
  destruct (Hall leg) as [k Hk]; [by left|]. rewrite Hk. simpl. apply Hkeys in Hk as ->.
  destruct IH as [IH1 IH2]; [intros; apply Hall; by right|]. unfold fmap in *. split.
  - case_bool_decide as Hep; [rewrite decide_True by (by rewrite Hep)|case_decide]; simpl; lia.
  - case_decide; lia.
Qed.

(** Whether the session's own connection is there to serve a leg on [ep]. *)
Definition session_serves (s : Session) (ep : string) : bool :=
  bool_decide (current_endpoint s = Some ep) && bool_decide (is_Some (lease s)).

(** The session's connection serves one leg at most, on its endpoint. *)
Lemma partition_serves s ep legs own rest :
  partition_legs (is_session_leg s) legs = (own, rest) →
  legs_for ep legs ≤ legs_for ep rest + Nat.b2n (session_serves s ep) ∧ (∀ leg, leg ∈ rest → leg ∈ legs).
Proof.
  unfold legs_for. revert own rest. induction legs as [|leg legs IH]; intros own rest; simpl.
  { intros [= <- <-]. split; [simpl; lia|done]. }
  destruct (is_session_leg s leg) eqn:Hs.
  - intros [= <- <-]. split; [|by right]. unfold is_session_leg, session_serves in *.
    destruct (decide (leg_endpoint leg = ep)) as [Hep|Hep].
    + rewrite <-Hep, Hs, bool_decide_true by done. simpl. lia.
    + rewrite bool_decide_false by done. lia.
  - destruct (partition_legs _ legs) as [o rest'] eqn:Hp. intros [= <- <-].
    destruct (IH o rest' eq_refl) as [Hl Hin]. split; [simpl; case_bool_decide; simpl; lia|].
    intros leg' [->|H]%elem_of_cons; [by left|right; auto].
Qed.

(** C35: a scatter is limited by the pool: when its legs on one endpoint are more
    than the permits the endpoint's pool has left, and the session's own
    connection, where it is on that endpoint, which serves one of them, the
    scatter does not succeed, in whatever order its legs run: it fails or does
    not return.  Two legs on an endpoint with [max_size] 1, and a session that
    holds no connection, are such a case.  The scatter is on its own here: no
    other session gives a connection back while it runs. *)
Theorem scatter_needs_permits request ep p s rows s' :
  s_pools s !! key_of ep = Some p →
  permits p + Nat.b2n (session_serves s ep) < legs_for ep (legs request) →
  execute_scatter request s ≠ (Ready (Ok rows), s').
Proof.
  intros Hk Hlt. unfold execute_scatter, execute_scatter_impl.
  destruct (List.find _ _); [done|].
  intros (pools & s1 & Hr & H)%bind_ready_inv.
  destruct (resolve_all_keys (legs request) ∅ s pools s1 _ _ Hk) as (Hk1 & Hl1 & He1 & Hkeys & Hall & _);
    [by intros ? ? ?%lookup_empty_Some|done|].
  apply bind_ready_inv in H as (own & s2 & [= <- <-] & H).
  destruct (partition_legs (is_session_leg s1) (legs request)) as [own rest] eqn:Hp.
  destruct (partition_serves _ ep _ _ _ Hp) as [Hserves Hin].
  assert (session_serves s1 ep = session_serves s ep) as Hsame by (unfold session_serves; by rewrite He1, Hl1).
  apply bind_ready_inv in H as (turns & s4 & [= <- <-] & H).
  apply bind_ready_inv in H as ([[e|] os] & s3 & Hc & H).
  { by apply bind_ready_inv in H as (? & ? & _ & ?). }
  apply (collect_needs_permits (key_of ep)) in Hc as Hle.
  unfold permits_left in Hle. rewrite Hk1 in Hle. rewrite Hsame in Hserves.
  destruct (legs_on_pool ep pools rest Hkeys) as [? ?]; [auto|]. lia.
Qed.

End Limits.
