(* ===== verification/Ownership.v ===== *)
(** * Whose connection it is

    A session only ever works on connections that were opened for its own user
    and database, with the credentials of an endpoint of its route, and touches
    no pool of another user or database.  [opened f c]: [c] is a connection that
    the factory [f] made, after any operations of the client library on it.  The
    invariant holds through attaches, failovers, scatters and the pump, whatever
    the server, the client and the interceptor do. *)

From S2P Require Import Prelude Wp RustStr Messages Config Upstream Row Routing Intercept Pool Session Attach Pump Chores ScatterLeg Scatter.

(** ** Where a connection comes from *)

Section Wire.
Context `{P : Platform} {F : Fuel}.

(** One operation of the client library. *)
Inductive wire_step : PgWireClient → PgWireClient → Prop :=
| wire_send m c r c' : conn_send m c = (r, c') → wire_step c c'
| wire_feed m c r c' : conn_feed m c = (r, c') → wire_step c c'
| wire_next c r c' : conn_next c = (r, c') → wire_step c c'
| wire_query q c r c' : conn_simple_query q c = (r, c') → wire_step c c'
| wire_cancel c r c' : conn_cancel c = (r, c') → wire_step c c'
| wire_status st c : wire_step c (set_transaction_status st c)
| wire_param n v c : wire_step c (set_server_parameter n v c).

Definition wired : PgWireClient → PgWireClient → Prop := rtc wire_step.
#[local] Instance wired_preorder : PreOrder wired.
Proof. unfold wired. apply _. Qed.

Definition opened (f : ConnectFactory) (c : PgWireClient) : Prop :=
  ∃ e c0 e', f e = (Ready (Ok c0), e') ∧ wired c0 c.

Lemma opened_wired f c c' : opened f c → wired c c' → opened f c'.
Proof. intros (e & c0 & e' & Hf & Hc) Hw. exists e, c0, e'. split; [done|]. by etrans. Qed.

Lemma wired_send m : keeps wired (conn_send m).
Proof. intros c r c' H. by eapply rtc_once, wire_send. Qed.
Lemma wired_feed m : keeps wired (conn_feed m).
Proof. intros c r c' H. by eapply rtc_once, wire_feed. Qed.
Lemma wired_next : keeps wired conn_next.
Proof. intros c r c' H. by eapply rtc_once, wire_next. Qed.
Lemma wired_query q : keeps wired (conn_simple_query q).
Proof. intros c r c' H. by eapply rtc_once, wire_query. Qed.
Lemma wired_cancel : keeps wired conn_cancel.
Proof. intros c r c' H. by eapply rtc_once, wire_cancel. Qed.
Lemma wired_status st : keeps wired (modify (set_transaction_status st)).
Proof. apply keeps_modify. intros c. apply rtc_once, wire_status. Qed.
Lemma wired_param n v : keeps wired (modify (set_server_parameter n v)).
Proof. apply keeps_modify. intros c. apply rtc_once, wire_param. Qed.
Lemma wired_timeout {A} (m : async PgWireClient A) : keeps wired m → keeps wired (timeout m).
Proof.
  intros Hm c r c'. unfold timeout. destruct (m c) as [[a|] c1] eqn:Hc; apply Hm in Hc; by intros [= <- <-].
Qed.
#[local] Hint Resolve wired_send wired_feed wired_next wired_query wired_cancel wired_status wired_param
  wired_timeout : keeps.

Ltac wire_tac := unfold try_bind; repeat (progress keeps_tac || apply wired_timeout).

(** Every procedure on a connection is a sequence of such operations. *)
Lemma wired_drain n : keeps wired (drain_go n).
Proof. induction n; simpl; wire_tac. Qed.
#[local] Hint Resolve wired_drain : keeps.
Lemma wired_close_cycle : keeps wired close_cycle.
Proof. unfold close_cycle, drain_until_ready. wire_tac. Qed.
Lemma wired_probe : keeps wired probe.
Proof. unfold probe. wire_tac. Qed.
#[local] Hint Resolve wired_close_cycle wired_probe : keeps.
Lemma wired_settle b1 b2 : keeps wired (settle b1 b2).
Proof. unfold settle, drain_until_ready. wire_tac. Qed.
#[local] Hint Resolve wired_settle : keeps.
Lemma wired_sanitize h : keeps wired (sanitize h).
Proof. unfold sanitize. wire_tac. Qed.
Lemma wired_sync sp : keeps wired (sync_startup_parameters sp).
Proof.
  unfold sync_startup_parameters. induction TRACKED_STARTUP_PARAMETERS; simpl;
    unfold set_parameter; wire_tac.
Qed.
Lemma wired_guc l d : keeps wired (guc_replay l d).
Proof. revert d. induction l as [|[n v] l IH]; intros d; simpl; wire_tac. Qed.
Lemma wired_feed_parses l : keeps wired (feed_parses l).
Proof. induction l as [|[n [q o]] l IH]; simpl; wire_tac. Qed.
Lemma wired_replay_loop n : keeps wired (replay_loop n).
Proof. induction n; simpl; wire_tac. Qed.
#[local] Hint Resolve wired_feed_parses wired_replay_loop : keeps.
Lemma wired_replay r : keeps wired (replay r).
Proof. unfold replay. wire_tac. Qed.
Lemma wired_collect_loop n acc : keeps wired (collect_loop n acc).
Proof. revert acc. induction n; intros acc; simpl; wire_tac. Qed.
#[local] Hint Resolve wired_collect_loop : keeps.
Lemma wired_query_collect q : keeps wired (run_query_collect q).
Proof. unfold run_query_collect. wire_tac. Qed.

End Wire.

(** ** A pool under its key *)

Section Pools.
Context `{P : Platform} {F : Fuel} (k : PoolKey) (f : ConnectFactory).
#[local] Existing Instance wired_preorder.

Definition pool_at (p : PoolInner) : Prop :=
  p_key p = k ∧ p_connect p = f ∧ Forall (λ x, opened f (pk_conn x)) (idle p).
Definition world_at (w : PoolWorld) : Prop := pool_at (pool w).
Definition lease_at (l : UpstreamLease) : Prop := lease_pool l = k ∧ opened f (conn l).

Lemma at_on_pool g : (∀ p, pool_at p → pool_at (g p)) → holding world_at (λ _, True) (on_pool g).
Proof. intros Hg. apply holding_modify. intros w. apply Hg. Qed.

Lemma at_in_env {A} (m : async Env A) : holding world_at (λ _, True) (in_env m).
Proof. intros w Hw. unfold wp, in_env, zoom. by destruct (m _) as [[]]. Qed.

Lemma at_on_conn {A} c (m : async PgWireClient A) :
  keeps wired m → opened f c → holding world_at (λ ac, opened f ac.2) (on_conn c m).
Proof.
  intros Hm Hc w Hw. unfold wp, on_conn. destruct (m c) as [[a|] c'] eqn:Hr; [|done].
  split; [done|]. eapply opened_wired; [done|]. by eapply Hm.
Qed.

Lemma at_acquire : holding world_at (λ _, True) acquire.
Proof. intros w Hw. unfold wp, acquire, grant. by destruct (permits (pool w)). Qed.

Lemma at_finish c t : opened f c → holding world_at lease_at (finish c t).
Proof. intros Hc w Hw. unfold wp, finish, finish_checkout. simpl. by destruct Hw as (? & ? & ?). Qed.

#[local] Hint Resolve at_in_env at_acquire : holding.
#[local] Hint Extern 1 (holding world_at (λ _, True) (on_pool _)) =>
  solve [apply at_on_pool; intros ? (? & ? & ?); by split_and!] : holding.

Lemma at_pop :
  holding world_at (λ o, ∀ x, o = Some x → opened f (pk_conn x)) (λ w,
    match pop_idle (pool w) with
    | Some (x, p) => (Ready (Some x), w <| pool := p |>)
    | None => (Ready None, w)
    end).
Proof.
  intros w Hw. unfold wp, pop_idle. destruct (vec_pop (idle (pool w))) as [[x rest]|] eqn:Hv; [|by split].
  apply vec_pop_Some in Hv. destruct Hw as (Hk & Hf & Hi). rewrite Hv in Hi.
  apply Forall_app in Hi as [Hr Hx]. rewrite Forall_singleton in Hx.
  split; [by split_and!|]. by intros ? [= <-].
Qed.

Lemma at_probe x :
  opened f (pk_conn x) → holding world_at (λ rc, opened f rc.2) (on_conn (pk_conn x) probe).
Proof. apply at_on_conn, wired_probe. Qed.

Lemma at_pop_loop n : holding world_at (λ o, ∀ c t, o = Some (c, t) → opened f c) (pop_loop n).
Proof.
  induction n as [|n IH]; simpl; [apply holding_never|].
  eapply holding_bind; [apply at_pop|]. intros [x|] Hx; [|by apply holding_ret]. specialize (Hx x eq_refl).
  apply (holding_bind _ (λ _, True)); [holding_tac|intros now _].
  apply (holding_bind _ (λ _, True)); [holding_tac|intros expired _].
  destruct expired; [apply (holding_bind _ (λ _, True)); [holding_tac|done]|].
  apply (holding_bind _ (λ _, True)); [holding_tac|intros now' _].
  apply (holding_bind _ (λ _, True)); [holding_tac|intros stale _].
  destruct stale; [|apply holding_ret; by intros ? ? [= <- <-]].
  apply (holding_bind _ (λ _, True)); [holding_tac|intros _ _].
  eapply holding_bind; [by apply at_probe|]. intros [[u|e] c] Hc.
  - apply holding_ret. by intros ? ? [= <- <-].
  - apply (holding_bind _ (λ _, True)); [holding_tac|done].
Qed.

(** Making a connection. *)
Lemma at_connect : holding world_at (λ r, ∀ l, r = Ok l → lease_at l) connect_round.
Proof.
  unfold connect_round. intros w Hw. apply wp_bind, wp_gets, wp_bind.
  unfold wp at 1, in_env, zoom. destruct (p_connect (pool w) (env w)) as [[[c|e]|] e'] eqn:Hcn; [| |done].
  - assert (opened f c) as Hc.
    { destruct Hw as (_ & Hf & _). rewrite Hf in Hcn. eexists _, _, _. split; [exact Hcn|]. reflexivity. }
    apply (holding_bind _ (λ _, True)); [holding_tac|intros _ _|done].
    apply (holding_bind _ (λ _, True)); [holding_tac|intros now _].
    eapply holding_bind; [by apply at_finish|]. intros l Hl. apply holding_ret. by intros ? [= <-].
  - apply (holding_bind _ (λ _, True)); [holding_tac|intros _ _|done].
    apply (holding_bind _ (λ _, True)); [holding_tac|intros _ _]. by apply holding_ret.
Qed.

Lemma at_checkout : holding world_at (λ r, ∀ l, r = Ok l → lease_at l) checkout.
Proof.
  unfold checkout, enter_pool. apply (holding_bind _ (λ _, True)); [holding_tac|intros _ _].
  unfold admitted_checkout. apply (holding_bind _ (λ _, True)); [holding_tac|intros n _].
  eapply holding_bind; [apply at_pop_loop|]. intros [[c t]|] Hc; [|apply at_connect].
  eapply holding_bind; [by eapply at_finish, Hc|]. intros l Hl. apply holding_ret. by intros ? [= <-].
Qed.

Lemma at_park c t : opened f c → holding world_at (λ _, True) (park_or_evict c t).
Proof.
  intros Hc. unfold park_or_evict.
  assert (∀ now, holding world_at (λ _, True) (on_pool (park c now t))) as Hp.
  { intros now. apply at_on_pool. intros p (? & ? & ?). split_and!; [done..|]. simpl.
    apply Forall_app. by rewrite Forall_singleton. }
  holding_tac.
Qed.

Lemma at_checkin l h : lease_at l → holding world_at (λ _, True) (checkin l h).
Proof.
  intros [_ Hl]. unfold checkin. apply (holding_bind _ (λ _, True)); [holding_tac|intros _ _].
  eapply holding_bind; [apply at_on_conn; [apply wired_timeout, wired_sanitize|exact Hl]|].
  intros [[[u|e]|] c] Hc; [by apply at_park|holding_tac..].
Qed.

Lemma at_detached l dirty : lease_at l → holding world_at (λ _, True) (checkin_detached l dirty).
Proof.
  intros [_ Hl]. unfold checkin_detached. apply (holding_bind _ (λ _, True)); [holding_tac|intros _ _].
  apply (holding_bind _ (λ rc, opened f rc.2)).
  { destruct dirty; [|by apply holding_ret]. apply at_on_conn; [apply wired_timeout, wired_query|done]. }
  intros [[[u|e]|] c] Hc; [|holding_tac..]. pose proof (at_park c (lease_created_at l) Hc). holding_tac.
Qed.

Lemma at_destroy : holding world_at (λ _, True) (on_pool destroy).
Proof. holding_tac. Qed.
Lemma at_drop : holding world_at (λ _, True) drop_admitted.
Proof. unfold drop_admitted. holding_tac. Qed.
Lemma at_begin_wait : holding world_at (λ _, True) (on_pool begin_wait).
Proof. holding_tac. Qed.

Lemma at_baseline : holding world_at (λ _, True) baseline_params.
Proof.
  unfold baseline_params, try_bind. apply (holding_bind _ (λ _, True)); [holding_tac|intros cached _].
  destruct cached; [holding_tac|]. eapply holding_bind; [apply at_checkout|].
  intros [l|e] Hl; [|holding_tac]. pose proof (at_checkin l Hygiene_default (Hl l eq_refl)). holding_tac.
Qed.

(** The rounds of a scatter leg. *)
Definition phase_at (ph : LegPhase) : Prop :=
  match ph with
  | LegProbing x => opened f (pk_conn x)
  | LegSyncing l | LegQuerying l | LegStuck (Some l) => lease_at l
  | _ => True
  end.

Lemma at_syncing c t : opened f c → holding world_at phase_at (l ← finish c t; mret (LegSyncing l)).
Proof. intros Hc. eapply holding_bind; [by apply at_finish|]. intros l Hl. by apply holding_ret. Qed.

Lemma at_idle_round : holding world_at phase_at idle_round.
Proof.
  unfold idle_round.
  apply (holding_bind _ (λ r, match r with PopStale x | PopFresh x => opened f (pk_conn x) | _ => True end)).
  { unfold idle_pop. eapply holding_bind; [apply at_pop|]. intros [x|] Hx; [|by apply holding_ret].
    specialize (Hx x eq_refl).
    apply (holding_bind _ (λ _, True)); [holding_tac|intros now _].
    apply (holding_bind _ (λ _, True)); [holding_tac|intros expired _].
    destruct expired; [apply (holding_bind _ (λ _, True)); [holding_tac|intros _ _; by apply holding_ret]|].
    apply (holding_bind _ (λ _, True)); [holding_tac|intros now' _].
    apply (holding_bind _ (λ _, True)); [holding_tac|intros stale _].
    destruct stale; [apply (holding_bind _ (λ _, True)); [holding_tac|intros _ _]|]; by apply holding_ret. }
  intros [| |x|x] Hx; [by apply holding_ret..|by apply at_syncing].
Qed.

Lemma at_probe_round x : opened f (pk_conn x) → holding world_at phase_at (probe_round x).
Proof.
  intros Hx. unfold probe_round. eapply holding_bind; [by apply at_probe|]. intros [[u|e] c] Hc.
  - by apply at_syncing.
  - apply (holding_bind _ (λ _, True)); [holding_tac|intros _ _]. by apply holding_ret.
Qed.

Lemma at_sweep now p : pool_at p → pool_at (sweep now p).
Proof.
  intros (Hk & Hf & Hi). unfold sweep.
  apply (Forall_kept _ (λ x, negb (swept now (p_config p) x))) in Hi.
  case_bool_decide; by split_and!.
Qed.

End Pools.

(** ** The session *)

Section Session.
Context `{P : Platform} {F : Fuel} {I : Interceptor} {X : SessionCtx}.

(** The factory of a pool key on a route. *)
Definition factory_of (r : RouteConfig) (k : PoolKey) (f : ConnectFactory) : Prop :=
  pk_route k = name r ∧
  ∃ ep, endpoint r (pk_endpoint k) = Some ep ∧ f = make_factory_for ep r (pk_user k) (pk_database k).

Definition pool_own (r : RouteConfig) (k : PoolKey) (p : PoolInner) : Prop :=
  ∃ f, factory_of r k f ∧ pool_at k f p.

Definition conn_own (r : RouteConfig) (k : PoolKey) (c : PgWireClient) : Prop :=
  ∃ f, factory_of r k f ∧ opened f c.

Lemma factory_of_eq r k f f' : factory_of r k f → factory_of r k f' → f = f'.
Proof. intros (_ & ep & He & ->) (_ & ep' & He' & ->). congruence. Qed.

Lemma conn_own_wired r k c c' : conn_own r k c → wired c c' → conn_own r k c'.
Proof. intros (f & Hf & Hc) Hw. exists f. split; [done|]. by eapply opened_wired. Qed.

(** The keys of the session's user and database. *)
Definition mine (k : PoolKey) : Prop :=
  pk_route k = name cx_route ∧ pk_user k = cx_user ∧ pk_database k = cx_database.

Definition lease_own (l : UpstreamLease) : Prop :=
  mine (lease_pool l) ∧ conn_own cx_route (lease_pool l) (conn l).

Definition in_u64 (z : Z) : Prop := (0 ≤ z < 2 ^ 64)%Z.
Definition in_u32 (z : Z) : Prop := (0 ≤ z < 2 ^ 32)%Z.

(** A well-typed session: every pool holds connections of its key's factory, the
    pools of other users and databases are [others], those of [ks] exist, the
    lease is of an existing pool of the session's user and database, a session
    that says it is attached ([strict]) has a lease, and the counters are in
    their width. *)
Record typed (others : gmap PoolKey PoolInner) (ks : PoolKey → Prop) (strict : bool) (s : Session) : Prop := {
  ty_pools : map_Forall (pool_own cx_route) (s_pools s);
  ty_others k : ¬ mine k → s_pools s !! k = others !! k;
  ty_present k : ks k → is_Some (s_pools s !! k);
  ty_factories i f : factories s !! i = Some f →
    factory_of cx_route (MkPoolKey (name cx_route) i cx_user cx_database) f;
  ty_lease l : lease s = Some l → is_Some (s_pools s !! lease_pool l) ∧ lease_own l;
  ty_flag : strict = true → attached s = true → is_Some (lease s);
  ty_counts : in_u64 (frontend s) ∧ in_u64 (backend s) ∧ in_u32 (fed_since_rfq s)
}.

Context (others : gmap PoolKey PoolInner).
Implicit Types (ks : PoolKey → Prop) (strict : bool).

Lemma typed_loose ks strict s : typed others ks strict s → typed others ks false s.
Proof. intros []. by split. Qed.

Lemma typed_strict ks strict s :
  typed others ks false s → (attached s = true → is_Some (lease s)) → typed others ks strict s.
Proof. intros [] ?. by split. Qed.

(** What the invariant looks at is as it was. *)
Definition still (s s' : Session) : Prop :=
  s_pools s' = s_pools s ∧ factories s' = factories s ∧ lease s' = lease s ∧ attached s' = attached s ∧
  frontend s' = frontend s ∧ backend s' = backend s ∧ fed_since_rfq s' = fed_since_rfq s.

#[global] Instance still_preorder : PreOrder still.
Proof.
  split; unfold still; [done|].
  intros ??? (-> & -> & -> & -> & -> & -> & ->) (-> & -> & -> & -> & -> & -> & ->). done.
Qed.

Lemma still_typed ks strict s s' : still s s' → typed others ks strict s → typed others ks strict s'.
Proof. intros (Hp & Hf & Hl & Ha & H1 & H2 & H3) []. split; by rewrite ?Hp, ?Hf, ?Hl, ?Ha, ?H1, ?H2, ?H3. Qed.

Lemma still_chore {A} (m : async Session A) : keeps chore m → keeps still m.
Proof. apply keeps_mono. by intros s s' (d & e & h & w & -> & _). Qed.
#[local] Hint Resolve still_chore : keeps.
#[local] Hint Extern 1 (keeps still (modify _)) =>
  solve [apply keeps_modify; intros ?; unfold still; repeat case_match; done] : keeps.

Lemma typed_still {A} ks strict (m : async Session A) :
  keeps still m → holding (typed others ks strict) (λ _, True) m.
Proof. apply holding_keeps, still_typed. Qed.
#[local] Hint Extern 3 (holding (typed _ _ _) (λ _, True) _) =>
  (apply typed_still; solve [eauto 3 with keeps]) : holding.

(** Counting. *)
Lemma u64_add_in a b : in_u64 (u64_add a b).
Proof. unfold in_u64, u64_add, wrap_u. by apply Z.mod_pos_bound. Qed.
Lemma u32_wrap_in z : in_u32 (wrap_u 32 z).
Proof. unfold in_u32, wrap_u. by apply Z.mod_pos_bound. Qed.

Lemma typed_counted ks strict f :
  (∀ s, s_pools (f s) = s_pools s ∧ factories (f s) = factories s ∧ lease (f s) = lease s ∧
        attached (f s) = attached s) →
  (∀ s, in_u64 (frontend s) ∧ in_u64 (backend s) ∧ in_u32 (fed_since_rfq s) →
        in_u64 (frontend (f s)) ∧ in_u64 (backend (f s)) ∧ in_u32 (fed_since_rfq (f s))) →
  holding (typed others ks strict) (λ _, True) (modify f).
Proof.
  intros Hsame Hc. apply holding_modify. intros s []. destruct (Hsame s) as (Hp & Hf & Hl & Ha).
  split; rewrite ?Hp, ?Hf, ?Hl, ?Ha; auto.
Qed.

Lemma typed_bump_frontend ks strict : holding (typed others ks strict) (λ _, True) bump_frontend.
Proof. apply typed_counted; [done|]. intros s (_ & ? & ?). split; [apply u64_add_in|done]. Qed.
Lemma typed_bump_backend ks strict : holding (typed others ks strict) (λ _, True) bump_backend.
Proof. apply typed_counted; [done|]. intros s (? & _ & ?). split; [done|]. split; [apply u64_add_in|done]. Qed.
Lemma typed_fed ks strict :
  holding (typed others ks strict) (λ _, True) (modify (λ s, s <| fed_since_rfq ::= λ n, wrap_u 32 (n + 1) |>)).
Proof. apply typed_counted; [done|]. intros s (Hf & Hb & _). split; [exact Hf|]. split; [exact Hb|apply u32_wrap_in]. Qed.
Lemma typed_reset ks strict : holding (typed others ks strict) (λ _, True) reset_flight.
Proof. apply typed_counted; [done|]. by intros s (? & ? & _). Qed.
Lemma typed_idle ks strict :
  holding (typed others ks strict) (λ _, True)
    (modify (λ s, s <| hygiene := MkHygiene false CopyNone |> <| fed_since_rfq := 0%Z |>)).
Proof. apply typed_counted; [done|]. by intros s (? & ? & _). Qed.
#[local] Hint Resolve typed_bump_frontend typed_bump_backend typed_fed typed_reset typed_idle : holding.

(** Work on one of the session's own pools. *)
Lemma typed_with_pool {A} ks strict k (m : async PoolWorld A) (Φ : A → Prop) :
  mine k → (∀ f, factory_of cx_route k f → holding (world_at k f) Φ m) →
  holding (typed others ks strict) Φ (with_pool k m).
Proof.
  intros Hk Hm s [Hpools Ho Hpr Hf Hl Hfl Hc]. unfold wp, with_pool.
  destruct (s_pools s !! k) as [p|] eqn:Hp; [|by split].
  destruct (Hpools _ _ Hp) as (f & Hfac & Hat). specialize (Hm f Hfac (MkPoolWorld p (s_env s)) Hat).
  assert (∀ w, world_at k f w →
    typed others ks strict (s <| s_pools ::= <[k := pool w]> |> <| s_env := env w |>)) as Hty.
  { intros w Hw. split; simpl; try done.
    - apply map_Forall_insert_2; [by exists f|done].
    - intros k' Hk'. rewrite lookup_insert_ne by congruence. by apply Ho.
    - intros k' Hk'. rewrite lookup_insert_is_Some. destruct (decide (k = k')); auto.
    - intros l Hx. destruct (Hl l Hx) as [Hs ?]. split; [|done].
      rewrite lookup_insert_is_Some. destruct (decide (k = lease_pool l)); auto. }
  unfold wp in Hm. destruct (m _) as [[a|] w]; simpl in *; [|by apply Hty].
  destruct Hm as [Hw Ha]. split; [by apply Hty|done].
Qed.

Lemma typed_destroy ks strict l :
  mine (lease_pool l) → holding (typed others ks strict) (λ _, True) (destroy_lease l).
Proof. intros Hl. apply typed_with_pool; [done|]. intros f _. apply at_destroy. Qed.

(** A checkout from one of them. *)
Lemma typed_checkout ks strict k :
  mine k → holding (typed others ks strict) (λ r, ∀ l, r = Ok l → lease_pool l = k ∧ lease_own l) (with_pool k checkout).
Proof.
  intros Hk. apply typed_with_pool; [done|]. intros f Hf.
  eapply holding_mono; [|apply at_checkout]. simpl. intros r Hr l Hl. destruct (Hr l Hl) as [<- Ho].
  split; [done|]. split; [done|]. by exists f.
Qed.

(** The pool of an endpoint of the route. *)
Lemma typed_resolve ks strict ep i N s :
  endpoint cx_route i = Some ep → typed others ks strict s →
  wp (resolve_pool ep) (λ k s', typed others (λ k', ks k' ∨ k' = k) strict s' ∧ mine k) N s.
Proof.
  intros He [Hpools Ho Hpr Hf Hl Hfl Hc]. unfold wp, resolve_pool.
  apply endpoint_Some in He as Hid. destruct Hid as [_ Hid].
  set (k := MkPoolKey (name cx_route) (id ep) cx_user cx_database).
  set (f := match factories s !! id ep with Some f => f | None => _ end).
  assert (mine k) as Hk by done.
  assert (factory_of cx_route k f) as Hfac.
  { subst f. destruct (factories s !! id ep) eqn:Hx; [by apply Hf|].
    split; [done|]. exists ep. simpl. by rewrite Hid. }
  clearbody f. split; [|done]. unfold get_or_create.
  assert (∀ pools, map_Forall (pool_own cx_route) pools → (∀ k', ¬ mine k' → pools !! k' = others !! k') →
    (∀ k', is_Some (s_pools s !! k') → is_Some (pools !! k')) → is_Some (pools !! k) →
    typed others (λ k', ks k' ∨ k' = k) strict (s <| factories ::= <[id ep := f]> |> <| s_pools := pools |>)) as Hty.
  { intros pools H1 H2 H3 H4. split; simpl; try done.
    - intros k' [Hk'| ->]; auto.
    - intros j g. rewrite lookup_insert_Some. intros [[<- <-]|[_ Hg]]; [done|by apply Hf].
    - intros l Hx. destruct (Hl l Hx). auto. }
  destruct (s_pools s !! k) as [p|] eqn:Hp; simpl; apply Hty; try done.
  - apply map_Forall_insert_2; [|done]. exists f. by split_and!.
  - intros k' Hk'. rewrite lookup_insert_ne by congruence. by apply Ho.
  - intros k' Hk'. rewrite lookup_insert_is_Some. destruct (decide (k = k')); auto.
  - rewrite lookup_insert_eq. by eexists.
Qed.

Lemma typed_more ks ks' strict s :
  (∀ k, ks k → ks' k) → typed others ks' strict s → typed others ks strict s.
Proof. intros Hks []. split; auto. Qed.

(** Work on the lease. *)
Lemma typed_on_lease {A} ks strict (m : async PgWireClient A) :
  keeps wired m → holding (typed others ks strict) (λ _, True) (on_lease m).
Proof.
  intros Hm s Hs. unfold wp, on_lease. destruct (lease s) as [l|] eqn:Hl; [|done].
  assert (∀ c, wired (conn l) c → typed others ks strict (s <| lease := Some (l <| conn := c |>) |>)) as Hty.
  { intros c Hc. destruct Hs as [? ? ? ? Hx ? ?]. split; try done; simpl.
    intros l' [= <-]. simpl. destruct (Hx l Hl) as [Hp [Hm' Ho]]. split; [done|]. split; [done|].
    by eapply conn_own_wired. }
  destruct (m (conn l)) as [[a|] c] eqn:Hr; apply Hm in Hr; [split; [|done]|]; by apply Hty.
Qed.

(** *** Attach and detach *)

Lemma own_on_conn {A} (J : Session → Prop) k c (m : async PgWireClient A) :
  keeps wired m → conn_own cx_route k c → holding J (λ ac, conn_own cx_route k ac.2) (on_conn c m).
Proof.
  intros Hm Hc s Hs. unfold wp, on_conn. destruct (m c) as [[a|] c'] eqn:Hr; [|done].
  split; [done|]. eapply conn_own_wired; [done|]. by eapply Hm.
Qed.

Lemma typed_prepare ks strict ep l :
  ks (lease_pool l) → lease_own l → holding (typed others ks strict) (λ _, True) (prepare_lease ep l).
Proof.
  intros Hk [Hl Ho]. pose proof (typed_destroy ks strict l Hl) as Hd. unfold prepare_lease.
  eapply holding_bind; [apply own_on_conn; [apply wired_sync|exact Ho]|].
  intros [[u|e] c1] H1; [|holding_tac]. simpl in H1.
  apply (holding_bind _ (λ _, True)); [holding_tac|intros gucs _].
  eapply holding_bind; [apply own_on_conn; [apply wired_guc|exact H1]|].
  intros [[fl d] c2] H2. simpl in H2.
  apply (holding_bind _ (λ _, True)); [holding_tac|intros _ _].
  destruct fl; [holding_tac|].
  apply (holding_bind _ (λ _, True)); [holding_tac|intros reg _].
  eapply holding_bind; [apply own_on_conn; [apply wired_replay|exact H2]|].
  intros [[u'|e] c3] H3; [|holding_tac]. simpl in H3.
  do 2 (apply (holding_bind _ (λ _, True)); [holding_tac|intros _ _]).
  apply (holding_bind _ (λ _, True)); [|holding_tac].
  apply holding_modify. intros s []. split; try done; simpl.
  intros l' [= <-]. simpl. split; [by auto|]. by split.
Qed.

Lemma typed_attach ks strict ep i :
  endpoint cx_route i = Some ep → holding (typed others ks strict) (λ _, True) (attach_to ep).
Proof.
  intros He s Hs. unfold attach_to. apply wp_bind.
  eapply wp_mono; [| |by eapply (typed_resolve _ _ _ _ (typed others ks strict))]; simpl; [|done].
  clear s Hs. intros k s [Hs Hk]. set (ks' := λ k', ks k' ∨ k' = k) in *.
  assert (∀ s, typed others ks' strict s → typed others ks strict s) as Hless
    by (intros s0; apply typed_more; intros k' Hk'; by left).
  match goal with |- wp ?m _ _ _ => assert (holding (typed others ks' strict) (λ _, True) m) as Hh end.
  { eapply holding_bind; [by apply typed_checkout|].
    intros [l|e] Hl; [|holding_tac]. destruct (Hl l eq_refl) as [<- Ho].
    apply typed_prepare; [by right|done]. }
  eapply wp_mono; [| |by apply Hh]; simpl; [naive_solver|done].
Qed.

Lemma typed_attempts ks strict n q : holding (typed others ks strict) (λ _, True) (attempts_loop n q).
Proof.
  induction n as [|n IH]; simpl; [holding_tac|].
  apply (holding_bind _ (λ _, True)); [|intros r _; holding_tac]. unfold attempt.
  apply (holding_bind _ (λ _, True)); [holding_tac|intros i _].
  destruct (endpoint cx_route i) as [ep|] eqn:He; [|holding_tac]. by eapply typed_attach.
Qed.

Lemma typed_ensure ks strict q : holding (typed others ks strict) (λ _, True) (ensure_attached q).
Proof. pose proof typed_attempts. unfold ensure_attached. holding_tac. Qed.

(** A session that attached has a lease. *)
Definition leased (r : option bool) (s : Session) : Prop := r = Some true → is_Some (lease s).

Lemma leased_bind {A} (m : async Session A) (k : A → async Session (option bool)) s :
  (∀ a s, wp (k a) leased (λ _, True) s) → wp (m ≫= k) leased (λ _, True) s.
Proof. intros Hk. apply wp_bind. unfold wp at 1. destruct (m s) as [[a|] s']; [apply Hk|done]. Qed.

Lemma leased_failed e m s : wp (attempt_failed e m) leased (λ _, True) s.
Proof.
  unfold attempt_failed. apply leased_bind. intros [] s1; [by apply wp_ret|].
  apply leased_bind. intros _ s2. by apply wp_ret.
Qed.

Lemma leased_destroyed l e m s : wp (_ ← destroy_lease l; attempt_failed e m) leased (λ _, True) s.
Proof. apply leased_bind. intros _. apply leased_failed. Qed.

Lemma leased_prepare ep l s : wp (prepare_lease ep l) leased (λ _, True) s.
Proof.
  unfold prepare_lease.
  apply leased_bind. clear s. intros [[u|e] c] s; [|apply leased_destroyed].
  apply leased_bind. clear s. intros gucs s. apply leased_bind. clear s. intros [[fl d] c2] s.
  apply leased_bind. clear s. intros _ s. destruct fl; [apply leased_destroyed|].
  apply leased_bind. clear s. intros reg s. apply leased_bind. clear s.
  intros [[u'|e] c3] s; [|apply leased_destroyed]. do 2 (apply leased_bind; clear s; intros _ s).
  apply wp_bind, wp_modify, wp_ret. by eexists.
Qed.

Lemma leased_attempt q s : wp (attempt q) leased (λ _, True) s.
Proof.
  unfold attempt. apply leased_bind. clear s. intros i s. destruct (endpoint cx_route i) as [ep|].
  - unfold attach_to. do 2 (apply leased_bind; clear s; intros ? s).
    case_match; [apply leased_prepare|apply leased_failed].
  - apply leased_bind. intros _ s'. by apply wp_ret.
Qed.

Lemma ensure_lease q s : wp (ensure_attached q) (λ b s', b = true → is_Some (lease s')) (λ _, True) s.
Proof.
  unfold ensure_attached. apply wp_bind, wp_gets. destruct (lease s) eqn:Hl; [by apply wp_ret|]. clear Hl.
  generalize attempts. intros n. revert s. induction n as [|n IH]; intros s; simpl.
  { apply wp_bind. unfold wp. by destruct (send_attach_fatal _ _) as [[]]. }
  apply wp_bind. eapply wp_mono; [| |apply leased_attempt]; simpl; [|done].
  intros [b|] s' Hs'; [|apply IH]. apply wp_ret. intros ->. by apply Hs'.
Qed.

(** *** The probe for startup parameters *)

Lemma typed_baseline ks strict : holding (typed others ks strict) (λ _, True) baseline_params_routed.
Proof.
  unfold baseline_params_routed. generalize attempts. intros n.
  induction n as [|n IH]; simpl; [holding_tac|].
  apply (holding_bind _ (λ _, True)); [holding_tac|intros i _].
  destruct (endpoint cx_route i) as [ep|] eqn:He; [|holding_tac].
  intros s Hs. apply wp_bind.
  eapply wp_mono; [| |by eapply (typed_resolve _ _ _ _ (typed others ks strict))]; simpl; [|done].
  clear s Hs. intros k s [Hs Hk]. apply (typed_more ks) in Hs; [|by left].
  apply (holding_bind _ (λ _, True)); [|intros r _; holding_tac|done].
  apply typed_with_pool; [done|]. intros f _. apply at_baseline.
Qed.

(** *** The pump *)

Context {E : ScatterExec}.

Class ScatterTyped : Prop :=
  scatter_typed ks request : preserves (typed others ks true) (λ _, True) (execute_scatter request).
Context {ST : ScatterTyped}.
#[local] Hint Resolve typed_ensure : holding.
#[local] Hint Resolve scatter_typed : preserves.
#[local] Hint Extern 4 (preserves (typed _ _ _) (λ _, True) _) =>
  (apply holding_preserves; solve [eauto 4 with holding]) : preserves.

Ltac typed_tac := unfold phase_bind, phase_run, pass, stop, lift; preserves_tac.

(** The lease is given up: the session is still to say that it is detached. *)
Lemma typed_give_up ks l :
  mine (lease_pool l) →
  holding (typed others ks false) (λ _, True) (_ ← modify (λ s, s <| lease := None |>); destroy_lease l).
Proof.
  intros Hl. pose proof (typed_destroy ks false l Hl).
  apply (holding_bind _ (λ _, True)); [|by intros _ _]. apply holding_modify. intros s []. by split.
Qed.

Lemma typed_unflag ks strict f s :
  typed others ks false s → still (s <| attached := attached (f s) |> <| lease := lease (f s) |>) (f s) →
  lease (f s) = lease s → attached (f s) = false → typed others ks strict (f s).
Proof.
  intros [] (Hp & Hf & _ & _ & H1 & H2 & H3) Hl Ha. simpl in *.
  split; rewrite ?Hp, ?Hf, ?Hl, ?H1, ?H2, ?H3; try done. by rewrite Ha.
Qed.

Lemma typed_drop_broken ks s :
  typed others ks false s → wp drop_broken_lease (λ _, typed others ks true) (λ _, True) s.
Proof.
  intros Hs. unfold drop_broken_lease. apply wp_bind, wp_gets, wp_bind.
  apply (wp_mono _ (λ _ s', typed others ks false s' ∧ True) _ (λ _, True)); [|done|].
  { intros _ s' [Hs' _]. apply wp_modify. by apply (typed_unflag _ _ (λ s, s <| current_endpoint := None |> <| attached := false |>)). }
  destruct (lease s) as [l|] eqn:Hl; [|by apply wp_ret].
  eapply wp_mono; [| |apply typed_give_up; [by apply (ty_lease _ _ _ _ Hs)|exact Hs]]; auto.
Qed.

Lemma typed_local ks strict m : holding (typed others ks strict) (λ _, True) (local_phase m).
Proof. unfold local_phase, phase_bind, pass, stop. holding_tac. Qed.

Lemma typed_scatter ks input request : preserves (typed others ks true) (λ _, True) (scatter input request).
Proof.
  unfold scatter. do 2 (apply (preserves_bind _ (λ _, True)); [preserves_tac|intros ? _]).
  apply (preserves_bind _ (λ _, True)); [preserves_tac|intros res _]. destruct res as [rows|f]; [typed_tac|].
  intros s Hs. apply wp_bind, wp_gets, wp_bind.
  apply (wp_mono _ (λ _ s', typed others ks false s' ∧ True) _ (λ _, True)); [|done|].
  { intros _ s' [Hs' _]. apply wp_bind, wp_modify.
    apply (typed_unflag _ true (λ s, s <| current_endpoint := None |> <| attached := false |>)) in Hs'; [|done..].
    revert Hs'. match goal with |- ?J ?s → _ => generalize s end. clear s Hs s'. intros s Hs.
    eapply wp_mono; [| |apply (wp_preserves (typed others ks true) (λ _, True)); [typed_tac|exact Hs]]; simpl; auto. }
  apply typed_loose in Hs as Hs'.
  destruct (session_lease_broken f); [|by apply wp_ret].
  destruct (lease s) as [l|] eqn:Hl; [|by apply wp_ret].
  eapply wp_mono; [| |apply typed_give_up; [by apply (ty_lease _ _ _ _ Hs)|exact Hs']]; auto.
Qed.
#[local] Hint Resolve typed_local : holding.
#[local] Hint Resolve typed_scatter : preserves.

Lemma typed_on_query ks m : preserves (typed others ks true) (λ _, True) (on_query_phase m).
Proof. unfold on_query_phase. typed_tac. Qed.

Lemma typed_attach_phase ks i m pending : preserves (typed others ks true) (λ _, True) (attach_phase i m pending).
Proof.
  unfold attach_phase, lift, stop. apply (preserves_bind _ (λ _, True)); [preserves_tac|intros reg _].
  intros s Hs. apply wp_bind.
  eapply wp_mono; [| |apply wp_and; [by apply typed_ensure|apply ensure_lease]]; simpl; [|done].
  clear s Hs. intros ok s [[Hs _] Hl]. destruct ok; [|by apply wp_ret]. specialize (Hl eq_refl).
  apply wp_bind.
  apply (wp_mono _ (λ _ s', typed others ks true s' ∧ is_Some (lease s')) _ (λ _, True)); [|done|].
  { intros _ s' [Hs' Hl']. apply wp_bind, wp_modify, wp_ret. split; [|done].
    destruct Hs'. by split. }
  destruct pending as [[[n q] oids]|]; [|by apply wp_ret]. apply wp_modify. split; [|done].
  destruct Hs. by split.
Qed.
#[local] Hint Resolve typed_on_query typed_attach_phase : preserves.

Lemma typed_dispatch_error ks e : preserves (typed others ks true) (λ _, True) (dispatch_on_upstream_error e).
Proof. preserves_tac. Qed.

Lemma typed_send_failed ks : preserves (typed others ks true) (λ _, True) send_failed.
Proof.
  unfold send_failed. apply (preserves_bind _ (λ _, True)); [preserves_tac|intros ep _].
  apply (preserves_bind _ (λ _, True)); [preserves_tac|intros d _]. destruct d; [|preserves_tac].
  apply (preserves_bind _ (λ _, True)).
  { intros s Hs. eapply wp_mono; [| |apply typed_drop_broken; by eapply typed_loose]; auto. }
  intros _ _. preserves_tac.
Qed.

Lemma typed_upstream_eof ks : preserves (typed others ks true) (λ _, True) upstream_eof.
Proof.
  unfold upstream_eof. apply (preserves_bind _ (λ _, True)); [preserves_tac|intros ep _].
  apply (preserves_bind _ (λ _, True)); [preserves_tac|intros d _]. destruct d; [|preserves_tac].
  apply (preserves_bind _ (λ _, True)).
  { intros s Hs. eapply wp_mono; [| |apply typed_drop_broken; by eapply typed_loose]; auto. }
  intros _ _. preserves_tac.
Qed.
#[local] Hint Resolve typed_send_failed typed_upstream_eof : preserves.

Lemma typed_forward ks m : preserves (typed others ks true) (λ _, True) (forward_phase m).
Proof.
  unfold forward_phase.
  assert (holding (typed others ks true) (λ _, True) (on_lease (if triggers_response m then conn_send m else conn_feed m)))
    by (apply typed_on_lease; destruct (triggers_response m); [apply wired_send|apply wired_feed]).
  typed_tac.
Qed.
#[local] Hint Resolve typed_forward : preserves.

Lemma typed_client_message ks m : preserves (typed others ks true) (λ _, True) (on_client_message m).
Proof. unfold on_client_message. typed_tac. Qed.

Lemma typed_track ks m : preserves (typed others ks true) (λ _, True) (track m).
Proof.
  pose proof (λ st, typed_on_lease ks true _ (wired_status st)).
  pose proof (λ n v, typed_on_lease ks true _ (wired_param n v)).
  unfold track. typed_tac.
Qed.

(** The connection goes back, and with it the flag. *)
Lemma typed_detach ks st dirty tm :
  preserves (typed others ks true) (λ _, True)
    (detached ← detach_if_idle st dirty tm;
     _ ← (if detached : bool
          then modify (λ s, s <| lease_dirty := false |> <| attached := false |>)
          else mret ());
     mret Continue).
Proof.
  intros s Hs. apply wp_bind.
  apply (wp_mono _ (λ b s', if b : bool then typed others ks false s' else typed others ks true s') _ (λ _, True)); [|done|].
  { intros [] s' Hs'; [|by apply wp_ret]. apply wp_bind, wp_modify, wp_ret. split; [|done].
    by apply (typed_unflag _ _ (λ s, s <| lease_dirty := false |> <| attached := false |>)). }
  unfold detach_if_idle. destruct (negb tm); [by apply wp_ret|]. case_decide; [by apply wp_ret|].
  apply wp_bind, wp_gets. destruct (lease s) as [l|] eqn:Hl; [|by apply wp_ret].
  destruct (ty_lease _ _ _ _ Hs l Hl) as [_ [Hm Ho]]. apply typed_loose in Hs.
  match goal with |- wp ?m _ _ _ => assert (holding (typed others ks false) (λ b, b = true) m) as Hh end.
  { apply (holding_bind _ (λ _, True)).
    { apply holding_modify. intros s' []. by split. }
    intros _ _. apply (holding_bind _ (λ _, True)); [|intros _ _; by apply holding_ret].
    apply typed_with_pool; [done|]. intros f Hf. apply at_detached. split; [done|].
    destruct Ho as (f' & Hf' & Ho). by rewrite (factory_of_eq _ _ _ _ Hf Hf'). }
  eapply wp_mono; [| |by apply Hh]; simpl; [|done]. by intros b s' [Hs' ->].
Qed.
#[local] Hint Resolve typed_detach : preserves.

Lemma typed_deliver ks st m : preserves (typed others ks true) (λ _, True) (deliver st m).
Proof. unfold deliver. typed_tac. Qed.
#[local] Hint Resolve typed_client_message typed_track typed_deliver : preserves.

Lemma typed_server_message ks m : preserves (typed others ks true) (λ _, True) (on_server_message m).
Proof. unfold on_server_message. typed_tac. Qed.
#[local] Hint Resolve typed_server_message : preserves.

Lemma typed_on_event ks ev : preserves (typed others ks true) (λ _, True) (on_event ev).
Proof.
  pose proof (typed_on_lease ks true _ wired_next). pose proof (typed_on_lease ks true _ wired_cancel).
  unfold on_event. typed_tac.
Qed.

Lemma typed_pump ks evs : preserves (typed others ks true) (λ _, True) (pump evs).
Proof. pose proof (typed_on_event ks). induction evs as [|ev evs IH]; simpl; typed_tac. Qed.

(** The end of a session. *)
Lemma typed_session_end ks e s :
  typed others ks true s → wp (session_end e) (λ _, typed others ks false) (λ _, True) s.
Proof.
  intros Hs. apply typed_loose in Hs as Hs'. unfold session_end.
  apply wp_bind, wp_gets, wp_bind, wp_gets, wp_bind, wp_modify.
  assert (typed others ks false (s <| lease := None |>)) as Hn by (destruct Hs'; by split).
  assert (∀ m : async Session unit, holding (typed others ks false) (λ _, True) m →
    wp m (λ _, typed others ks false) (λ _, True) (s <| lease := None |>)) as Hgo.
  { intros m Hm. eapply wp_mono; [| |by apply Hm]; simpl; [|done]. by intros ? ? [? _]. }
  destruct (lease s) as [l|] eqn:Hl; [|by destruct e; apply wp_ret].
  destruct (ty_lease _ _ _ _ Hs l Hl) as [_ [Hm Ho]]. destruct e; apply Hgo; [|by apply typed_destroy].
  apply typed_with_pool; [done|]. intros f Hf. apply at_checkin. split; [done|].
  destruct Ho as (f' & Hf' & Ho). by rewrite (factory_of_eq _ _ _ _ Hf Hf').
Qed.

End Session.

(** ** Scatters *)

Section ScatterOwn.
Context `{P : Platform} {F : Fuel} {I : Interceptor} {X : SessionCtx} {Sch : Schedule}.
Context (others : gmap PoolKey PoolInner).
#[local] Hint Extern 3 (holding (typed _ _ _) (λ _, True) _) =>
  (apply typed_still; apply still_chore; solve [eauto 3 with keeps]) : holding.

(** What a leg holds is of its pool. *)
Definition phase_own (k : PoolKey) (ph : LegPhase) : Prop :=
  match ph with
  | LegProbing x => conn_own cx_route k (pk_conn x)
  | LegSyncing l | LegQuerying l | LegStuck (Some l) => lease_own l
  | _ => True
  end.
Definition outcome_own (o : LegOutcome) : Prop := ∀ l, o_lease o = Some l → lease_own l.
Definition polled_own (k : PoolKey) (p : Polled) : Prop :=
  match p with LegAwaits ph => phase_own k ph | LegDone o => outcome_own o end.
Definition running_own (r : Running) : Prop := mine r.1.2 ∧ phase_own r.1.2 r.2.

Lemma phase_at_own k f ph : mine k → factory_of cx_route k f → phase_at k f ph → phase_own k ph.
Proof.
  intros Hk Hf. assert (∀ l, lease_at k f l → lease_own l) as Hl.
  { intros l [<- Ho]. split; [done|]. by exists f. }
  destruct ph as [| | |x| |l|l|[l|]]; simpl; auto. intros Hx. by exists f.
Qed.

Lemma typed_phase ks k m :
  mine k → (∀ f, factory_of cx_route k f → holding (world_at k f) (phase_at k f) m) →
  holding (typed others ks true) (polled_own k) (ph ← with_pool k m; mret (LegAwaits ph)).
Proof.
  intros Hk Hm. apply (holding_bind _ (phase_own k)); [|intros ph Hph; by apply holding_ret].
  apply typed_with_pool; [done|]. intros f Hf. eapply holding_mono; [|by apply Hm].
  intros ph. by apply phase_at_own.
Qed.

Lemma typed_sync_round ks k leg l :
  lease_own l → holding (typed others ks true) (polled_own k) (sync_round leg l).
Proof.
  intros [Hl Ho]. unfold sync_round. eapply holding_bind; [apply own_on_conn; [apply wired_sync|exact Ho]|].
  intros [[u|e] c] Hc; [by apply holding_ret|].
  apply (holding_bind _ (λ _, True)); [by apply typed_destroy|intros _ _]. by apply holding_ret.
Qed.

Lemma typed_query_round ks k leg l :
  lease_own l → holding (typed others ks true) (polled_own k) (query_round leg l).
Proof.
  intros [Hl Ho]. unfold query_round. eapply holding_bind; [apply own_on_conn; [apply wired_query_collect|exact Ho]|].
  intros [q c] Hc. destruct (col_broken q).
  - apply (holding_bind _ (λ _, True)); [by apply typed_destroy|intros _ _]. by apply holding_ret.
  - apply holding_ret. intros ? [= <-]. by split.
Qed.

Lemma typed_leg_round ks k leg ph :
  mine k → phase_own k ph → holding (typed others ks true) (polled_own k) (leg_round leg k ph).
Proof.
  intros Hk Hph. destruct ph as [| | |x| |l|l|l]; simpl in *.
  - apply (holding_bind _ (λ _, True)); [|intros _ _; by apply holding_ret].
    apply typed_with_pool; [done|]. intros f _. apply at_begin_wait.
  - apply (holding_bind _ (λ _, True)); [|intros _ _; by apply holding_ret].
    apply typed_with_pool; [done|]. intros f _. apply at_acquire.
  - apply typed_phase; [done|]. intros f _. apply at_idle_round.
  - destruct Hph as (f & Hf & Hx). apply typed_phase; [done|]. intros f' Hf'.
    rewrite (factory_of_eq _ _ _ _ Hf' Hf). by apply at_probe_round.
  - apply (holding_bind _ (λ r, ∀ l, r = Ok l → lease_own l)).
    + apply typed_with_pool; [done|]. intros f Hf. eapply holding_mono; [|apply at_connect].
      intros r Hr l Hl. destruct (Hr l Hl) as [<- Ho]. split; [done|]. by exists f.
    + intros [l|e] Hl; apply holding_ret; simpl; [by apply Hl|done].
  - by apply typed_sync_round.
  - by apply typed_query_round.
  - apply holding_never.
Qed.

Lemma typed_poll_leg ks k leg ph s :
  mine k → phase_own k ph → typed others ks true s →
  typed others ks true (poll_leg leg k ph s).2 ∧ polled_own k (poll_leg leg k ph s).1.
Proof.
  intros Hk Hph Hs. pose proof (typed_leg_round ks k leg ph Hk Hph s Hs) as Hr. unfold poll_leg.
  unfold wp in Hr. destruct (leg_round leg k ph s) as [[p|] s']; [done|]. split; [done|]. by destruct ph.
Qed.

Lemma typed_drop ks k : mine k → holding (typed others ks true) (λ _, True) (with_pool k drop_admitted).
Proof. intros Hk. apply typed_with_pool; [done|]. intros f _. apply at_drop. Qed.

Lemma typed_drop_lease ks o :
  (∀ l, o = Some l → lease_own l) → holding (typed others ks true) (λ _, True) (drop_lease o).
Proof.
  intros Ho. unfold drop_lease. destruct o as [l|]; [|by apply holding_ret].
  apply typed_drop. by apply (Ho l).
Qed.

Lemma typed_drop_running ks r : running_own r → holding (typed others ks true) (λ _, True) (drop_running r).
Proof.
  destruct r as [[leg k] ph]. intros [Hk Hph]. unfold drop_running, drop_leg. simpl in *.
  pose proof (typed_drop ks k Hk).
  assert (∀ l, lease_own l → holding (typed others ks true) (λ _, True) (drop_lease (Some l))) as Hd.
  { intros l Hl. apply typed_drop_lease. by intros ? [= <-]. }
  destruct ph as [| | |x| |l|l|[l|]]; first [by apply holding_ret|done|exact (Hd _ Hph)].
Qed.

Lemma typed_return ks o : outcome_own o → holding (typed others ks true) (λ _, True) (return_lease o).
Proof.
  intros Ho. unfold return_lease. destruct (o_lease o) as [l|] eqn:Hl; [|by apply holding_ret].
  destruct (Ho l Hl) as [Hm (f & Hf & Hc)]. apply typed_with_pool; [done|]. intros f' Hf'.
  rewrite (factory_of_eq _ _ _ _ Hf' Hf). by apply at_detached.
Qed.

Lemma holding_each {A} J (f : A → async Session unit) l :
  Forall (λ a, holding J (λ _, True) (f a)) l → holding J (λ _, True) (each f l).
Proof.
  induction 1 as [|a l Ha _ IH]; simpl; [by apply holding_ret|]. by apply (holding_bind _ (λ _, True)).
Qed.

Lemma typed_each_drop ks os :
  Forall outcome_own os → holding (typed others ks true) (λ _, True) (each drop_lease (o_lease <$> os)).
Proof.
  intros Hos. apply holding_each, Forall_fmap. eapply Forall_impl; [exact Hos|]. intros o Ho. by apply typed_drop_lease.
Qed.
Lemma typed_each_return ks os :
  Forall outcome_own os → holding (typed others ks true) (λ _, True) (each return_lease os).
Proof. intros Hos. apply holding_each. eapply Forall_impl; [exact Hos|]. apply typed_return. Qed.

(** The stream of legs. *)
Lemma typed_collect ks turns legs os :
  Forall running_own legs → Forall outcome_own os →
  preserves (typed others ks true) (λ r, Forall outcome_own r.2) (collect_legs turns legs os).
Proof.
  intros Hl Ho s Hs.
  apply (wp_collect (λ ls os s, typed others ks true s ∧ Forall running_own ls ∧ Forall outcome_own os));
    [|naive_solver|done]. clear. intros l1 leg k ph l2 os s (Hs & Hls & Ho).
  apply Forall_app in Hls as [H1 [[Hk Hph] H2]%Forall_cons]. simpl in Hk, Hph.
  destruct (typed_poll_leg ks k leg ph s Hk Hph Hs) as [Hs' Hp]. destruct (poll_leg leg k ph s) as [[ph'|o] s'].
  - split; [done|]. split; [|done]. apply Forall_app. split; [done|]. by constructor.
  - destruct (leg_failed o).
    + apply wp_bind. eapply wp_mono; [| |by apply typed_drop_lease]; simpl; [|done].
      intros _ s1 [Hs1 _]. eapply wp_mono; [| |apply (holding_each (typed others ks true) drop_running (l1 ++ l2))];
        simpl; [naive_solver|done| |done].
      apply Forall_app. split; (eapply Forall_impl; [eassumption|]); intros r; apply typed_drop_running.
    + split; [done|]. split; [by apply Forall_app|]. apply Forall_app. by rewrite Forall_singleton.
Qed.

(** Every leg gets a pool of the session. *)
Lemma typed_resolve_all ks legs pools :
  map_Forall (λ _ k, mine k) pools → Forall (λ leg, known_endpoint leg = true) legs →
  preserves (typed others ks true)
    (λ pools', map_Forall (λ _ k, mine k) pools' ∧ (∀ i, is_Some (pools !! i) → is_Some (pools' !! i)) ∧
               Forall (λ leg, is_Some (pools' !! leg_endpoint leg)) legs) (resolve_all legs pools).
Proof.
  intros Hp Hlegs. revert pools Hp. induction Hlegs as [|leg legs Hleg _ IH]; intros pools Hp; simpl.
  { apply preserves_ret. by split_and!. }
  destruct (decide (is_Some (pools !! leg_endpoint leg))) as [Hin|Hin].
  { eapply preserves_mono; [|by apply IH]. simpl. intros pools' (H1 & H2 & H3). split_and!; [done..|].
    constructor; [by apply H2|done]. }
  unfold known_endpoint in Hleg. destruct (endpoint cx_route (leg_endpoint leg)) as [ep|] eqn:He; [|done].
  intros s Hs. apply wp_bind. eapply wp_mono; [| |by eapply (typed_resolve _ _ _ _ _ (λ _, True))]; simpl; [|done].
  clear s Hs. intros k s [Hs Hk]. apply (typed_more _ ks) in Hs; [|by left].
  apply endpoint_Some in He as Hid. destruct Hid as [_ Hid].
  eapply wp_mono; [| |apply IH; [|exact Hs]]; simpl; [|done|by apply map_Forall_insert_2].
  intros pools' s' (Hs' & H1 & H2 & H3). split; [done|]. split_and!; [done| |].
  - intros i Hi. apply H2. rewrite lookup_insert_is_Some. destruct (decide (id ep = i)); auto.
  - constructor; [|done]. apply H2. rewrite Hid, lookup_insert_eq. by eexists.
Qed.

Lemma typed_merge_send ks ms : holding (typed others ks true) (λ _, True) (merge_send ms).
Proof. induction ms as [|m ms IH]; simpl; holding_tac. Qed.

Lemma typed_finish ks request own os :
  Forall outcome_own os → holding (typed others ks true) (λ _, True) (finish_scatter request own os).
Proof.
  intros Hos. pose proof (typed_merge_send ks). pose proof (typed_each_drop ks os Hos).
  pose proof (typed_each_return ks os Hos). unfold finish_scatter, merge_write. holding_tac.
Qed.

Lemma typed_session_leg ks own : holding (typed others ks true) (λ _, True) (run_session_leg own).
Proof.
  unfold run_session_leg. destruct own as [leg|]; [|holding_tac].
  pose proof (typed_on_lease others ks true _ (wired_query_collect (leg_sql leg))). holding_tac.
Qed.

(** *** The executor *)

Lemma known_all legs :
  List.find (λ leg, negb (known_endpoint leg)) legs = None → Forall (λ leg, known_endpoint leg = true) legs.
Proof.
  intros Hf. apply Forall_forall. intros leg Hleg. apply list_elem_of_In in Hleg.
  pose proof (List.find_none _ _ Hf leg Hleg) as Hn. simpl in Hn. by destruct (known_endpoint leg).
Qed.

Lemma partition_rest own legs session_leg rest (Q : ScatterLeg → Prop) :
  partition_legs own legs = (session_leg, rest) → Forall Q legs → Forall Q rest.
Proof.
  revert session_leg rest. induction legs as [|leg legs IH]; intros session_leg rest; simpl.
  - by intros [= <- <-].
  - destruct (own leg); [by intros [= <- <-] [_ ?]%Forall_cons|].
    destruct (partition_legs own legs) as [o r]. intros [= <- <-] [? ?]%Forall_cons.
    constructor; [done|]. by eapply IH.
Qed.

#[global] Instance execute_scatter_typed : ScatterTyped others.
Proof.
  intros ks request. unfold execute_scatter, execute_scatter_impl.
  destruct (List.find _ _) eqn:Hfind; [by apply preserves_ret|]. apply known_all in Hfind.
  eapply preserves_bind; [by apply typed_resolve_all|]. intros pools (Hp & _ & Hlegs).
  apply (preserves_bind _ (λ _, True)); [by apply preserves_gets|intros own _].
  destruct (partition_legs own (legs request)) as [session_leg rest] eqn:Hpart.
  apply (partition_rest _ _ _ _ _ Hpart) in Hlegs.
  apply (preserves_bind _ (λ _, True)); [by apply preserves_gets|intros turns _].
  eapply preserves_bind.
  { apply typed_collect; [|by constructor]. apply Forall_fmap. eapply Forall_impl; [exact Hlegs|].
    intros leg [k Hk]. split; [|done]. simpl. rewrite Hk. simpl. by eapply Hp. }
  intros [first_error os] Hos. simpl in Hos.
  assert (∀ (r : result ScatterFailure Z), holding (typed others ks true) (λ _, True) (_ ← each return_lease os; mret r)) as Hret.
  { intros r. pose proof (typed_each_return ks os Hos). holding_tac. }
  destruct first_error as [e|]; [by apply holding_preserves|].
  apply holding_preserves, (holding_bind _ (λ _, True)); [apply typed_session_leg|].
  intros [own'|f] _.
  - destruct (own' ≫= col_error); [done|]. by apply typed_finish.
  - pose proof (typed_each_drop ks os Hos). holding_tac.
Qed.

End ScatterOwn.

(** ** The session, typed *)

Section Typed.
Context `{P : Platform} {F : Fuel} {I : Interceptor} {X : SessionCtx} {Sch : Schedule}.
#[local] Existing Instance execute_scatter_impl.

(** Well-typed, whatever the pools of others are. *)
Definition well_typed (s : Session) : Prop := typed (s_pools s) (λ _, False) true s.

(** C19: typing: whatever the client, the servers, the interceptor and failures
    do, a session stays well-typed: every pool holds only connections that the
    factory of its key made, the connection the session is attached to is of a
    pool of its own user and database, opened with the credentials of an
    endpoint of its route, it says it is attached only when it is, and the
    message counters stay in their width.  The pools of other users and
    databases are left as they were, and no pool goes away. *)
Theorem session_stays_typed evs s r s' :
  well_typed s → pump evs s = (Ready r, s') →
  well_typed s' ∧ (∀ k, ¬ mine k → s_pools s' !! k = s_pools s !! k) ∧
  (∀ k, is_Some (s_pools s !! k) → is_Some (s_pools s' !! k)).
Proof.
  intros Hs Hp. set (ks := λ k, is_Some (s_pools s !! k)).
  assert (typed (s_pools s) ks true s) as Hs0 by (destruct Hs; by split).
  destruct (wp_run _ _ _ _ _ _ (typed_pump (s_pools s) ks evs s Hs0) Hp) as [Hs' _].
  destruct Hs' as [? Ho Hpr ? ? ? ?]. split; [|by split]. by split.
Qed.

End Typed.
