(* ===== verification/Neutral.v ===== *)
(** * Neutral connections

    What a connection must not carry from one client to the next, as far as the
    server is concerned: [owed] counts the [ReadyForQuery] messages still to be
    delivered, [unsynced] says whether messages of the extended protocol wait
    for a [Sync], [server_status] is the transaction status the server reports
    last.  A connection is [neutral] when nothing is owed, nothing is unsynced
    and it is outside a transaction.  Here: the pool hands out neutral
    connections if it is given neutral ones, and preparing a connection for a
    session keeps it neutral.  [Isolation] shows that sessions give neutral ones
    back. *)

From S2P Require Import Prelude Wp RustStr Messages Config Upstream Reference Pool PoolHygiene Session Attach.

(** Messages that end in a [ReadyForQuery] of their own. *)
Definition ends_cycle (m : PgWireFrontendMessage) : bool :=
  match m with FQuery _ | FSync => true | _ => false end.

(** Messages whose effect is complete only at the next [Sync]. *)
Definition batches (m : PgWireFrontendMessage) : bool :=
  match m with
  | FQuery _ | FSync | FFlush | FTerminate | FCopyData _ | FCopyDone | FCopyFail _ => false
  | _ => true
  end.

(** More of the message flow.  A message that ends a cycle makes the server owe
    one [ReadyForQuery] at most, any other message none.  A batch is open from
    its first message to the [Sync], which itself changes no status; the status
    of the [ReadyForQuery] that leaves nothing owed is the server's.  [SET] and
    [Parse] change no status, and [DISCARD ALL] is refused in a transaction. *)
Class FlowLaws (P : Platform) (SL : ServerLaws P) := {
  unsynced : PgWireClient → bool;
  server_status : PgWireClient → TransactionStatus;
  flow_send m r c c' : conn_send m c = (Ready r, c') →
    owed c' ≤ owed c + (if ends_cycle m then 1 else 0) ∧
    (unsynced c' = true → batches m = true ∨ (unsynced c = true ∧ m ≠ FSync));
  flow_feed m r c c' : conn_feed m c = (Ready r, c') →
    owed c' ≤ owed c + (if ends_cycle m then 1 else 0) ∧
    (unsynced c' = true → batches m = true ∨ (unsynced c = true ∧ m ≠ FSync));
  flow_sync r c c' : conn_send FSync c = (Ready r, c') → server_status c' = server_status c;
  flow_parse n q o r c c' :
    conn_feed (FParse n q o) c = (Ready r, c') → server_status c' = server_status c;
  flow_end r c c' : conn_next c = (Ready r, c') → (∀ m, r ≠ Some (Ok m)) → owed c' ≤ owed c;
  flow_next r c c' : conn_next c = (Ready r, c') →
    unsynced c' = unsynced c ∧ server_status c' = server_status c;
  flow_ready st c c' : conn_next c = (Ready (Some (Ok (BReadyForQuery st))), c') →
    owed c' = 0 → unsynced c = false → server_status c = st;
  flow_cancel r c c' : conn_cancel c = (Ready r, c') → unsynced c' = unsynced c;
  flow_query q c c' : conn_simple_query q c = (Ready (Ok ()), c') → unsynced c' = unsynced c;
  flow_set n v c c' : conn_simple_query (set_statement n v) c = (Ready (Ok ()), c') →
    server_status c' = server_status c;
  flow_discard c c' :
    conn_simple_query "DISCARD ALL" c = (Ready (Ok ()), c') → server_status c' = Idle;
  flow_set_status st c : unsynced (set_transaction_status st c) = unsynced c ∧
    server_status (set_transaction_status st c) = server_status c;
  flow_set_param n v c : unsynced (set_server_parameter n v c) = unsynced c ∧
    server_status (set_server_parameter n v c) = server_status c;
  flow_connect config tls e c e' : client_connect config tls e = (Ready (Ok c), e') →
    owed c = 0 ∧ unsynced c = false ∧ server_status c = Idle
}.

Section Neutral.
Context `{P : Platform} {F : Fuel} {SL : ServerLaws P} {FL : FlowLaws P SL}.

Definition neutral (c : PgWireClient) : Prop :=
  owed c = 0 ∧ unsynced c = false ∧ server_status c = Idle.

(** ** Reading up to the end of a cycle *)

(** [c'] is [c] after its last [ReadyForQuery] was read. *)
Definition cycle_read (c c' : PgWireClient) : Prop :=
  owed c = S (owed c') ∧ unsynced c' = unsynced c ∧ server_status c' = server_status c.

Lemma cycle_read_ready st c c1 :
  conn_next c = (Ready (Some (Ok (BReadyForQuery st))), c1) → cycle_read c (set_transaction_status st c1).
Proof.
  intros Hn. destruct (flow_set_status st c1) as [Hu Hs]. unfold cycle_read.
  rewrite owed_set_status, Hu, Hs. split; [by eapply owed_next_ready|by eapply flow_next].
Qed.

(** Over a message that does not end the cycle. *)
Lemma cycle_read_other m c c1 c' :
  conn_next c = (Ready (Some (Ok m)), c1) → (∀ st, m ≠ BReadyForQuery st) →
  cycle_read c1 c' → cycle_read c c'.
Proof.
  unfold cycle_read. intros Hn Hm (Ho & Hu & Hs). rewrite Hu, Hs, <-Ho.
  split; [symmetry; by eapply owed_next_other|by eapply flow_next].
Qed.

Lemma cycle_read_param n v c c' : cycle_read (set_server_parameter n v c) c' → cycle_read c c'.
Proof. unfold cycle_read. destruct (flow_set_param n v c) as [-> ->]. by rewrite owed_set_param. Qed.

Lemma ready_or_not (m : PgWireBackendMessage) :
  (∃ st, m = BReadyForQuery st) ∨ (∀ st, m ≠ BReadyForQuery st).
Proof. destruct m; eauto. Qed.

Lemma drain_read c c' : drain_until_ready c = (Ready (Ok ()), c') → cycle_read c c'.
Proof.
  unfold drain_until_ready. generalize fuel. intros n. revert c.
  induction n as [|n IH]; intros c; simpl; [done|]. intros (item & c1 & Hn & H)%bind_ready_inv.
  destruct item as [[m|e]|]; [|by async_inv|by async_inv].
  destruct (ready_or_not m) as [[st ->]|Hm]; [async_inv; by eapply cycle_read_ready|].
  eapply cycle_read_other; [done|done|].
  destruct m; try (by apply IH in H); [|by destruct (Hm status)].
  async_inv. match goal with H : drain_go _ _ = _ |- _ => apply IH in H end. by eapply cycle_read_param.
Qed.

Lemma close_cycle_status c c' :
  close_cycle c = (Ready (Ok ()), c') →
  owed c' = owed c ∧ unsynced c' = false ∧ server_status c' = server_status c.
Proof.
  intros [([] & c1 & Hs & (Ho & Hu & Hst)%drain_read)|(e & _ & ?)]%try_bind_ready_inv; [|done].
  apply flow_send in Hs as Hf. apply flow_sync in Hs as Hx. apply owed_sync in Hs.
  destruct Hf as [_ Hf]. rewrite Hu, Hst, Hx. split; [lia|]. split; [|done].
  destruct (unsynced c1); [|done]. by destruct (Hf eq_refl) as [?|[_ ?]].
Qed.

(** ** Statements of the proxy's own *)

Lemma set_neutral n v c c' :
  conn_simple_query (set_statement n v) c = (Ready (Ok ()), c') → neutral c → neutral c'.
Proof.
  intros Hq (Ho & Hu & Hs). unfold neutral.
  by rewrite (owed_query _ _ _ Hq), (flow_query _ _ _ Hq), (flow_set _ _ _ _ Hq).
Qed.

Lemma discard_neutral c c' :
  conn_simple_query "DISCARD ALL" c = (Ready (Ok ()), c') → neutral c → neutral c'.
Proof.
  intros Hq (Ho & Hu & _). unfold neutral.
  by rewrite (owed_query _ _ _ Hq), (flow_query _ _ _ Hq), (flow_discard _ _ Hq).
Qed.

Lemma param_neutral n v c : neutral c → neutral (set_server_parameter n v c).
Proof. unfold neutral. destruct (flow_set_param n v c) as [-> ->]. by rewrite owed_set_param. Qed.

(** ** The pool *)

Definition fresh (f : ConnectFactory) : Prop :=
  ∀ e c e', f e = (Ready (Ok c), e') → neutral c.

Definition pool_ok (p : PoolInner) : Prop :=
  Forall (λ k, neutral (pk_conn k)) (idle p) ∧ fresh (p_connect p).

Definition world_ok (w : PoolWorld) : Prop := pool_ok (pool w).

(** A step of the pool that touches neither its idle stack nor its factory. *)
Lemma on_pool_ok f Q N w :
  (∀ p, idle (f p) = idle p ∧ p_connect (f p) = p_connect p) →
  (∀ w, world_ok w → Q () w) → world_ok w → wp (on_pool f) Q N w.
Proof.
  intros Hf HQ Hw. apply wp_modify, HQ. unfold world_ok, pool_ok in *. simpl.
  by destruct (Hf (pool w)) as [-> ->].
Qed.

Lemma in_env_ok {A} (m : async Env A) Q w :
  (∀ a w, world_ok w → Q a w) → world_ok w → wp (in_env m) Q world_ok w.
Proof. intros HQ Hw. unfold wp, in_env, zoom. destruct (m (env w)) as [[] e]; [by apply HQ|done]. Qed.

Lemma on_conn_ok {S A} c (m : async PgWireClient A) Q (N : S → Prop) s :
  wp m (λ a c', Q (a, c') s) (λ _, N s) c → wp (on_conn c m) Q N s.
Proof. unfold wp, on_conn. by destruct (m c) as [[]]. Qed.

Lemma probe_neutral c c' : probe c = (Ready (Ok ()), c') → neutral c → neutral c'.
Proof.
  unfold probe. intros (o & c1 & Ho & H)%bind_ready_inv (Hc & _ & Hs). destruct o as [r|]; [|by async_inv].
  async_inv. apply timeout_ready_inv in Ho as [(r & [= <-] & Hr)|[? _]]; [|done].
  apply (close_cycle_status c) in Hr as (? & ? & ?). unfold neutral. split_and!; congruence.
Qed.

Lemma pop_loop_ok n w :
  world_ok w →
  wp (pop_loop n) (λ r w', world_ok w' ∧ ∀ c t, r = Some (c, t) → neutral c) world_ok w.
Proof.
  revert w. induction n as [|n IH]; intros w Hw; simpl; [by apply wp_never|].
  apply wp_bind. unfold wp at 1. destruct (pop_idle (pool w)) as [[k p]|] eqn:Hpop.
  2: { by apply wp_ret. }
  unfold pop_idle in Hpop. destruct (vec_pop (idle (pool w))) as [[x r]|] eqn:Hv; simplify_eq.
  apply vec_pop_Some in Hv. destruct Hw as [Hidle Hfresh]. rewrite Hv in Hidle.
  apply Forall_app in Hidle as [Hr Hk]. rewrite Forall_singleton in Hk.
  apply wp_bind, in_env_ok; [|done]. intros now w2 Hw2. apply wp_bind, wp_gets.
  destruct (is_expired _ _ _).
  { apply wp_bind, on_pool_ok; [done| |done]. intros w3 Hw3. by apply IH. }
  apply wp_bind, in_env_ok; [|done]. intros now' w3 Hw3. apply wp_bind, wp_gets.
  destruct (is_stale _ _ _); [|apply wp_ret; split; [done|]; intros c0 t0 Heq; simplify_eq; exact Hk].
  apply wp_bind, on_pool_ok; [done| |done]. intros w4 Hw4. apply wp_bind, on_conn_ok.
  unfold wp at 1. destruct (probe (pk_conn k)) as [[[u|e]|] c'] eqn:Hp; [| |done].
  - apply wp_ret. split; [done|]. intros c t [= <- <-]. destruct u. by eapply probe_neutral.
  - apply wp_bind, on_pool_ok; [done| |done]. intros w5 Hw5. by apply IH.
Qed.

Lemma admitted_ok w :
  world_ok w →
  wp admitted_checkout (λ r w', world_ok w' ∧ ∀ l, r = Ok l → neutral (conn l)) world_ok w.
Proof.
  intros Hw. unfold admitted_checkout. apply wp_bind, wp_gets, wp_bind.
  eapply wp_mono; [| |by apply pop_loop_ok]; simpl; [|done].
  intros [[c t]|] w1 [Hw1 Hc].
  { apply wp_bind. unfold wp at 1, finish, finish_checkout. apply wp_ret. split; [done|].
    intros l [= <-]. simpl. by eapply Hc. }
  apply wp_bind, wp_gets, wp_bind. unfold wp at 1, in_env, zoom.
  destruct (p_connect (pool w1) (env w1)) as [[[c|e]|] e'] eqn:Hcn; [| |done].
  - apply wp_bind, on_pool_ok; [done| |done]. intros w2 Hw2.
    apply wp_bind, in_env_ok; [|done]. intros now w3 Hw3.
    apply wp_bind. unfold wp at 1, finish, finish_checkout. apply wp_ret. split; [done|].
    intros l [= <-]. simpl. by eapply (proj2 Hw1).
  - apply wp_bind, on_pool_ok; [done| |done]. intros w2 Hw2.
    apply wp_bind, on_pool_ok; [done| |done]. intros w3 Hw3. by apply wp_ret.
Qed.

Lemma enter_ok w : world_ok w → wp enter_pool (λ _, world_ok) world_ok w.
Proof.
  intros Hw. unfold enter_pool. apply wp_bind, on_pool_ok; [done| |done]. intros w1 Hw1.
  unfold wp, acquire, grant. by destruct (permits (pool w1)).
Qed.

Lemma checkout_ok w :
  world_ok w →
  wp checkout (λ r w', world_ok w' ∧ ∀ l, r = Ok l → neutral (conn l)) world_ok w.
Proof.
  intros Hw. unfold checkout. apply wp_bind. eapply wp_mono; [| |by apply enter_ok]; simpl; [|done].
  intros _ w1 Hw1. by apply admitted_ok.
Qed.

(** A connection that owes nothing is parked. *)
Lemma park_or_evict_ok c t w :
  neutral c → world_ok w → wp (park_or_evict c t) (λ _, world_ok) world_ok w.
Proof.
  intros Hc Hw. unfold park_or_evict. apply wp_bind, in_env_ok; [|done]. intros now w1 Hw1.
  apply wp_bind, wp_gets. destruct (is_expired _ _ _).
  { apply wp_bind, on_pool_ok; [done| |done]. intros w2 Hw2. by apply on_pool_ok. }
  apply wp_bind, in_env_ok; [|done]. intros now' w2 [Hi Hf]. apply wp_bind, wp_modify.
  apply on_pool_ok; [done|done|]. split; [|done]. simpl. apply Forall_app. by rewrite Forall_singleton.
Qed.

Lemma detached_ok l dirty w :
  neutral (conn l) → world_ok w → wp (checkin_detached l dirty) (λ _, world_ok) world_ok w.
Proof.
  intros Hl Hw. unfold checkin_detached. apply wp_bind, on_pool_ok; [done| |done]. intros w1 Hw1.
  assert (wp (if dirty then on_conn (conn l) (timeout (conn_simple_query "DISCARD ALL"))
              else mret (Some (Ok ()), conn l))
    (λ rc w, world_ok w ∧ ∀ u c, rc = (Some (Ok u), c) → neutral c) world_ok w1) as Hd.
  { destruct dirty; [|apply wp_ret; split; [done|]; by intros u c [= <- <-]].
    apply on_conn_ok, wp_timeout. unfold wp.
    destruct (conn_simple_query "DISCARD ALL" (conn l)) as [[r|] c'] eqn:Hq; (split; [done|]); [|done].
    intros [] c [= -> ->]. by eapply discard_neutral. }
  apply wp_bind. eapply wp_mono; [| |exact Hd]; simpl; [|done].
  intros [[[u|e]|] c] w2 [Hw2 Hc].
  - apply wp_bind, on_pool_ok; [done| |done]. intros w3 Hw3. apply park_or_evict_ok; [by eapply Hc|done].
  - apply wp_bind, on_pool_ok; [done| |done]. intros w3 Hw3. by apply on_pool_ok.
  - apply wp_bind, on_pool_ok; [done| |done]. intros w3 Hw3. by apply on_pool_ok.
Qed.

Lemma checkin_ok l h w :
  (∀ c, sanitize h (conn l) = (Ready (Ok ()), c) → neutral c) → world_ok w →
  wp (checkin l h) (λ _, world_ok) world_ok w.
Proof.
  intros Hl Hw. unfold checkin. apply wp_bind, on_pool_ok; [done| |done]. intros w1 Hw1.
  assert (∀ w, world_ok w → wp (_ ← in_env instant_now; _ ← on_pool note_dropped; on_pool release)
    (λ _, world_ok) world_ok w) as Hdrop.
  { intros w2 Hw2. apply wp_bind, in_env_ok; [|done]. intros now w3 Hw3.
    apply wp_bind, on_pool_ok; [done| |done]. intros w4 Hw4. by apply on_pool_ok. }
  apply wp_bind, on_conn_ok, wp_timeout. unfold wp at 1.
  destruct (sanitize h (conn l)) as [[[[]|e]|] c] eqn:Hs; [|by apply Hdrop..].
  apply park_or_evict_ok; [by apply Hl|done].
Qed.

(** ** Preparing a connection *)

Lemma sync_neutral names sp c u c' :
  sync_params names sp c = (Ready (Ok u), c') → neutral c → neutral c'.
Proof.
  revert c. induction names as [|n names IH]; intros c; simpl; [by intros; async_inv|].
  destruct (sp !! n); [|apply IH]. intros (cur & c1 & Hg & H)%bind_ready_inv Hc. async_inv.
  case_decide as Hcur; [|by eapply IH]. apply try_bind_ready_inv in H as [([] & c2 & Hs & H)|(e & _ & ?)]; [|done].
  eapply IH; [exact H|]. unfold set_parameter in Hs.
  apply try_bind_ready_inv in Hs as [([] & c3 & Hq & H')|(e & _ & ?)]; [|done].
  async_inv. apply param_neutral. by eapply set_neutral.
Qed.

Lemma guc_neutral l d c d' c' :
  guc_replay l d c = (Ready (None, d'), c') → neutral c → neutral c'.
Proof.
  revert d c. induction l as [|[n v] l IH]; intros d c; simpl; [by intros; async_inv|].
  intros (cur & c1 & Hg & H)%bind_ready_inv Hc. async_inv. case_decide as Hcur; [|by eapply IH].
  apply bind_ready_inv in H as ([[]|e] & c2 & Hq & H); [|by async_inv].
  eapply IH; [exact H|]. by eapply set_neutral.
Qed.

Lemma feed_parses_flow l c u c' :
  feed_parses l c = (Ready (Ok u), c') → owed c' ≤ owed c ∧ server_status c' = server_status c.
Proof.
  revert c. induction l as [|[n [q oids]] l IH]; intros c; simpl; [intros; by async_inv|].
  intros (r & c1 & Hf & H)%bind_ready_inv. destruct r; [|by async_inv].
  apply flow_parse in Hf as Hs. apply flow_feed in Hf as [Ho _]. simpl in Ho. apply IH in H as [? ?].
  split; [lia|congruence].
Qed.

Lemma replay_loop_read n c u c' : replay_loop n c = (Ready (Ok u), c') → cycle_read c c'.
Proof.
  revert c. induction n as [|n IH]; intros c; simpl; [done|].
  intros (item & c1 & Hn & H)%bind_ready_inv.
  destruct item as [[m|e]|]; [|by async_inv|by async_inv].
  destruct (ready_or_not m) as [[st ->]|Hm]; [async_inv; by eapply cycle_read_ready|].
  eapply cycle_read_other; [done|done|].
  destruct m; try (by apply IH in H); [|by destruct (Hm status)|by async_inv].
  async_inv. match goal with H : replay_loop _ _ = _ |- _ => apply IH in H end. by eapply cycle_read_param.
Qed.

Lemma replay_neutral r c u c' : replay r c = (Ready (Ok u), c') → neutral c → neutral c'.
Proof.
  unfold replay. case_decide as Hr; [by intros; async_inv|].
  intros [(u1 & c1 & Hf & H)|(e & _ & ?)]%try_bind_ready_inv (Hc & _ & Hst); [|done].
  apply feed_parses_flow in Hf as [Hf1 Hf2].
  apply bind_ready_inv in H as (r' & c2 & Hs & H). destruct r' as [[]|e]; [|by async_inv].
  apply flow_send in Hs as Hu. apply flow_sync in Hs as Hx. apply owed_sync in Hs.
  apply replay_loop_read in H as (Ho & Hu' & Hs'). unfold neutral. rewrite Hu', Hs', Hx, Hf2.
  split; [lia|]. split; [|done]. destruct Hu as [_ Hu]. destruct (unsynced c2); [|done].
  by destruct (Hu eq_refl) as [?|[_ ?]].
Qed.

(** ** Sanitizing *)

Lemma settle_begin_flow cf aw c c' :
  settle_begin cf aw c = (Ready (Ok ()), c') →
  owed c' = owed c ∧ (unsynced c' = true → unsynced c = true).
Proof.
  unfold settle_begin. intros [([] & c1 & Hs & H)|(e & _ & ?)]%try_bind_ready_inv; [|done].
  apply bind_ready_inv in H as (r & c2 & Hc & H). async_inv.
  assert (owed c' = owed c1 ∧ unsynced c' = unsynced c1) as [-> ->].
  { destruct aw; [|by async_inv]. by rewrite (owed_cancel _ _ _ Hc), (flow_cancel _ _ _ Hc). }
  destruct cf; [|by async_inv]. rewrite (owed_copy_fail _ _ _ Hs). split; [done|].
  intros Hu. apply flow_send in Hs as [_ Hs]. by destruct (Hs Hu) as [?|[? _]].
Qed.

Lemma settle_split cf aw c c' :
  settle cf aw c = (Ready (Ok ()), c') →
  ∃ c1, settle_begin cf aw c = (Ready (Ok ()), c1) ∧
    (drain_until_ready c1 = (Ready (Ok ()), c') ∨ ∃ c2, close_cycle c2 = (Ready (Ok ()), c')).
Proof.
  intros [(u & c1 & Hs & H)|(e & _ & ?)]%try_bind_ready_inv; [|done].
  apply bind_ready_inv in H as (r & c2 & Hc & H). exists c2. split.
  { unfold settle_begin. rewrite (try_bind_ok _ _ _ _ _ Hs). by rewrite (bind_ready _ _ _ _ _ Hc). }
  apply bind_ready_inv in H as (o & c3 & Ht & H).
  apply timeout_ready_inv in Ht as [(r' & -> & Hd)|(-> & Hd)]; [async_inv; by left|right; eauto].
Qed.

Lemma settle_synced cf aw c c' :
  settle cf aw c = (Ready (Ok ()), c') → (unsynced c = true → owed c = 0) → unsynced c' = false.
Proof.
  intros (c1 & [Ho Hu]%settle_begin_flow & [Hd|[c2 Hd]])%settle_split Hc.
  - apply drain_read in Hd as (Hr & -> & _). destruct (unsynced c1); [|done].
    specialize (Hc (Hu eq_refl)). lia.
  - by apply close_cycle_status in Hd as (_ & ? & _).
Qed.

(** After the cycle was closed. *)
Lemma sanitize_rest h c c' :
  sanitize h c = (Ready (Ok ()), c') →
  ∃ c1, (if decide (copy h = ClientOwesCopy) then settle true (awaiting_response h)
         else if awaiting_response h then settle false true
         else close_cycle) c = (Ready (Ok ()), c1) ∧
    owed c' = owed c1 ∧ unsynced c' = unsynced c1 ∧ server_status c' = Idle.
Proof.
  intros [([] & c1 & Hs & H)|(e & _ & ?)]%try_bind_ready_inv; [|done]. exists c1. split; [done|].
  apply bind_ready_inv in H as (st & c2 & Hg & H). unfold gets in Hg. simplify_eq.
  apply try_bind_ready_inv in H as [([] & c3 & Hr & H)|(e & _ & ?)]; [|done].
  apply try_bind_ready_inv in H as [([] & c4 & Hdis & H)|(e & _ & ?)]; [|done]. async_inv.
  rewrite (owed_query _ _ _ Hdis), (flow_query _ _ _ Hdis), (flow_discard _ _ Hdis).
  case_decide; [by rewrite (owed_query _ _ _ Hr), (flow_query _ _ _ Hr)|by async_inv].
Qed.

(** A connection that [sanitize] accepts is neutral, under the conditions of
    [sanitize_owes_nothing] and when no cycle is owed over an open batch. *)
Lemma sanitized_neutral h c c' :
  hygiene_matches h c → drains_in_time h c → (unsynced c = true → owed c = 0) →
  sanitize h c = (Ready (Ok ()), c') → neutral c'.
Proof.
  intros Hm Hd Hc Hs. split; [by eapply sanitize_owes_nothing|].
  apply sanitize_rest in Hs as (c1 & Hs & _ & -> & ->). split; [|done].
  case_decide; [by eapply settle_synced|]. destruct (awaiting_response h); [by eapply settle_synced|].
  by apply close_cycle_status in Hs as (_ & ? & _).
Qed.

Lemma sanitized_unused c c' : sanitize Hygiene_default c = (Ready (Ok ()), c') → neutral c → neutral c'.
Proof.
  intros (c1 & Hs & Ho & Hu & Hi)%sanitize_rest (Hc & _ & _). simpl in Hs.
  apply close_cycle_status in Hs as (Ho1 & Hu1 & _). unfold neutral. split_and!; congruence.
Qed.

End Neutral.
