(* ===== verification/Isolation.v ===== *)
(** * Nothing leaks between clients

    No response, no open batch and no open transaction of one client is left on
    a connection that another one gets.  The invariant: every parked connection,
    of every pool, is [neutral], and a leased one owes at most the cycle its
    session has noted, and none over an open batch.  It is kept by every event of
    a session, as long as its client does not send what opens or ends a batch
    while the response to the last one is outstanding; [Site] puts the sessions
    together. *)

From S2P Require Import Prelude Wp RustStr Messages Config Upstream Reference Row Routing Intercept Pool PoolHygiene Session Attach Pump Chores Neutral.

Section Flow.
Context `{P : Platform} {F : Fuel} {SL : ServerLaws P} {FL : FlowLaws P SL}.

(** ** The session *)

Context {I : Interceptor} {X : SessionCtx}.

Definition pools_ok (s : Session) : Prop :=
  map_Forall (λ _, pool_ok) (s_pools s) ∧ map_Forall (λ _, fresh) (factories s).

(** The cycle the session has noted. *)
Definition noted (s : Session) : nat := if awaiting_response (hygiene s) then 1 else 0.

(** What is known of the leased connection: at most the noted cycle is owed, and
    none over an open batch; nothing is owed; and no batch is open either. *)
Inductive Hold := Loose | Quiet | Calm.
#[global] Instance Hold_eq_dec : EqDecision Hold.
Proof. solve_decision. Defined.

Definition holds (h : Hold) (n : nat) (c : PgWireClient) : Prop :=
  match h with
  | Loose => owed c ≤ n ∧ (unsynced c = true → owed c = 0)
  | Quiet => owed c = 0
  | Calm => owed c = 0 ∧ unsynced c = false
  end.

Definition rank (h : Hold) : nat := match h with Loose => 0 | Quiet => 1 | Calm => 2 end.

Lemma holds_rank h h' n c : rank h' ≤ rank h → holds h n c → holds h' n c.
Proof.
  destruct h, h'; simpl; intros Hr Hc; try (exfalso; lia); try done.
  - split; [lia|done].
  - destruct Hc. split; [lia|done].
  - by destruct Hc.
Qed.

Lemma holds_neutral h n c : neutral c → holds h n c.
Proof. intros (? & ? & _). apply (holds_rank Calm); [destruct h; simpl; lia|done]. Qed.

Definition lease_holds (h : Hold) (s : Session) : Prop :=
  ∀ l, lease s = Some l → holds h (noted s) (conn l).

Definition settled (h : Hold) (s : Session) : Prop := pools_ok s ∧ lease_holds h s.

(** Calm, with the status the server reported last. *)
Definition rested (st : TransactionStatus) (s : Session) : Prop :=
  settled Calm s ∧ ∀ l, lease s = Some l → server_status (conn l) = st.

Definition detached (s : Session) : Prop := pools_ok s ∧ lease s = None.

Lemma settled_rank h h' s : rank h' ≤ rank h → settled h s → settled h' s.
Proof. intros Hr [Hp Hl]. split; [done|]. intros l Hx. eapply holds_rank; [exact Hr|by apply Hl]. Qed.

Lemma settled_loose h s : settled h s → settled Loose s.
Proof. apply settled_rank. simpl. lia. Qed.

Lemma detached_settled h s : detached s → settled h s.
Proof. intros [Hp Hl]. split; [done|]. intros l. by rewrite Hl. Qed.

(** Neither pools, factories, lease nor the note changes. *)
Definition same (s s' : Session) : Prop :=
  s_pools s' = s_pools s ∧ factories s' = factories s ∧ lease s' = lease s ∧
  awaiting_response (hygiene s') = awaiting_response (hygiene s).

#[local] Instance same_preorder : PreOrder same.
Proof. split; unfold same; [done|]. intros ??? (-> & -> & -> & ->) (-> & -> & -> & ->). done. Qed.

Lemma same_pools s s' : same s s' → pools_ok s → pools_ok s'.
Proof. unfold pools_ok. by intros (-> & -> & _ & _). Qed.

Lemma same_settled h s s' : same s s' → settled h s → settled h s'.
Proof.
  intros Hs [Hp Hl]. split; [by eapply same_pools|]. destruct Hs as (_ & _ & Hl' & Hn).
  intros l. rewrite Hl'. intros Hx. specialize (Hl l Hx). unfold noted in *. by rewrite Hn.
Qed.

Lemma same_rested st s s' : same s s' → rested st s → rested st s'.
Proof.
  intros Hs [Hc Hl]. split; [by eapply same_settled|]. by destruct Hs as (_ & _ & -> & _).
Qed.

Lemma same_detached s s' : same s s' → detached s → detached s'.
Proof. intros Hs [Hp Hl]. split; [by eapply same_pools|]. by destruct Hs as (_ & _ & -> & _). Qed.

(** ** Operations that leave all of it alone *)

Lemma same_chore {A} (m : async Session A) : keeps chore m → keeps same m.
Proof. apply keeps_mono. by intros s s' (d & e & h & w & -> & _). Qed.
#[local] Hint Resolve same_chore : keeps.
#[local] Hint Extern 1 (keeps same (modify _)) =>
  solve [apply keeps_modify; intros ?; unfold same; repeat case_match; done] : keeps.

(** An invariant that looks only at pools, factories, lease and note. *)
Class Framed (J : Session → Prop) : Prop := framed s s' : same s s' → J s → J s'.
#[local] Instance framed_settled b : Framed (settled b).
Proof. intros ??. apply same_settled. Qed.
#[local] Instance framed_rested st : Framed (rested st).
Proof. intros ??. apply same_rested. Qed.
#[local] Instance framed_detached : Framed detached.
Proof. intros ??. apply same_detached. Qed.
#[local] Instance framed_pools : Framed pools_ok.
Proof. intros ??. apply same_pools. Qed.

Lemma preserves_same {A} J `{!Framed J} (m : async Session A) :
  keeps same m → preserves J (λ _, True) m.
Proof. apply preserves_keeps, framed. Qed.

#[local] Hint Extern 3 (preserves _ (λ _, True) _) =>
  (apply preserves_same; [apply _|solve [eauto 3 with keeps]]) : preserves.

(** What a hook answers. *)
Lemma preserves_hook {A} J `{!Framed J} (Φ : A → Prop) (m : async (IState * Env) A) :
  (∀ st a st', m st = (Ready a, st') → Φ a) → preserves J Φ (hook m).
Proof.
  intros HΦ s Hs. pose proof (same_chore _ (chore_hook m) s) as Hk. unfold wp. revert Hk. unfold hook.
  destruct (hooks s); [|done]. destruct (m _) as [[a|] [st e]] eqn:Hm; [|done].
  intros Hk. split; [|by eapply HΦ]. eapply framed; [|exact Hs]. by eapply Hk.
Qed.

(** Work on a pool. *)
Lemma wp_with_pool {A} J k (m : async PoolWorld A) (Φ : A → Prop) s :
  (∀ s s', factories s' = factories s → lease s' = lease s → hygiene s' = hygiene s →
     map_Forall (λ _, pool_ok) (s_pools s') → J s → J s') →
  J s → map_Forall (λ _, pool_ok) (s_pools s) →
  (∀ w, world_ok w → wp m (λ a w', world_ok w' ∧ Φ a) world_ok w) →
  wp (with_pool k m) (λ a s', J s' ∧ Φ a) J s.
Proof.
  intros HJ Hs Hp Hm. unfold wp, with_pool. destruct (s_pools s !! k) as [p|] eqn:Hk; [|done].
  specialize (Hm (MkPoolWorld p (s_env s)) (Hp _ _ Hk)). unfold wp in Hm.
  destruct (m _) as [[a|] w]; simpl.
  - destruct Hm as [Hw Ha]. split; [|done]. eapply HJ; [..|exact Hs]; try done. by apply map_Forall_insert_2.
  - eapply HJ; [..|exact Hs]; try done. by apply map_Forall_insert_2.
Qed.

Lemma settled_pools b s s' :
  factories s' = factories s → lease s' = lease s → hygiene s' = hygiene s →
  map_Forall (λ _, pool_ok) (s_pools s') → settled b s → settled b s'.
Proof.
  intros Hf Hl Hh Hp [[_ Hfr] Ho]. split; [split; [done|by rewrite Hf]|].
  intros l. rewrite Hl. unfold noted. rewrite Hh. apply Ho.
Qed.

Lemma detached_pools s s' :
  factories s' = factories s → lease s' = lease s → hygiene s' = hygiene s →
  map_Forall (λ _, pool_ok) (s_pools s') → detached s → detached s'.
Proof. intros Hf Hl _ Hp [[_ Hfr] Hn]. split; [split; [done|by rewrite Hf]|congruence]. Qed.

Lemma settled_with_pool {A} b k (m : async PoolWorld A) (Φ : A → Prop) :
  (∀ w, world_ok w → wp m (λ a w', world_ok w' ∧ Φ a) world_ok w) →
  preserves (settled b) Φ (with_pool k m).
Proof.
  intros Hm s Hs. eapply wp_mono;
    [| |exact (wp_with_pool _ k m Φ s (settled_pools b) Hs (proj1 (proj1 Hs)) Hm)]; auto.
Qed.

Lemma detached_with_pool {A} k (m : async PoolWorld A) (Φ : A → Prop) :
  (∀ w, world_ok w → wp m (λ a w', world_ok w' ∧ Φ a) world_ok w) →
  preserves detached Φ (with_pool k m).
Proof.
  intros Hm s Hs. eapply wp_mono;
    [| |exact (wp_with_pool _ k m Φ s detached_pools Hs (proj1 (proj1 Hs)) Hm)]; auto.
Qed.

Lemma pools_with_pool {A} k (m : async PoolWorld A) (Φ : A → Prop) :
  (∀ w, world_ok w → wp m (λ a w', world_ok w' ∧ Φ a) world_ok w) →
  preserves pools_ok Φ (with_pool k m).
Proof.
  intros Hm s Hs. eapply wp_mono; [| |apply (wp_with_pool pools_ok k m Φ s)]; auto.
  - intros ? ? Hf _ _ Hp [_ Hfr]. split; [done|by rewrite Hf].
  - apply Hs.
Qed.

Lemma destroy_ok w : world_ok w → wp (on_pool destroy) (λ a w', world_ok w' ∧ True) world_ok w.
Proof. intros Hw. by apply on_pool_ok. Qed.

Lemma settled_destroy b l : preserves (settled b) (λ _, True) (destroy_lease l).
Proof. apply settled_with_pool, destroy_ok. Qed.
Lemma detached_destroy l : preserves detached (λ _, True) (destroy_lease l).
Proof. apply detached_with_pool, destroy_ok. Qed.
#[local] Hint Resolve settled_destroy detached_destroy : preserves.

(** ** Attach and detach *)

Lemma preserves_on_conn {A} J c (m : async PgWireClient A) (Φ : A * PgWireClient → Prop) :
  (∀ a c', m c = (Ready a, c') → Φ (a, c')) → preserves (S := Session) J Φ (on_conn c m).
Proof.
  intros HΦ s Hs. apply on_conn_ok. unfold wp. destruct (m c) as [[a|] c'] eqn:Hm; [|done]. auto.
Qed.

Lemma factory_fresh e r u d : fresh (make_factory_for e r u d).
Proof.
  intros env c env'. unfold make_factory_for, connect_parts.
  destruct (parse_config _); [|done]. apply flow_connect.
Qed.

Lemma settled_resolve b ep : preserves (settled b) (λ _, True) (resolve_pool ep).
Proof.
  intros s [[Hp Hf] Hl]. unfold wp, resolve_pool. split; [|done].
  set (f := match factories s !! id ep with Some f => f | None => _ end).
  assert (fresh f) as Hfr.
  { subst f. destruct (factories s !! id ep) eqn:He; [by eapply Hf|apply factory_fresh]. }
  clearbody f. split; [|exact Hl]. split; simpl; [|by apply map_Forall_insert_2].
  unfold get_or_create. destruct (s_pools s !! _); [done|]. by apply map_Forall_insert_2.
Qed.

Lemma settled_attach b s ep l c :
  neutral c → settled b s →
  settled b (s <| current_endpoint := ep |> <| lease := Some (l <| conn := c |>) |>).
Proof. intros Hc [Hp _]. split; [done|]. intros l' [= <-]. by apply holds_neutral. Qed.

Lemma settled_prepare b ep l :
  neutral (conn l) → preserves (settled b) (λ _, True) (prepare_lease ep l).
Proof.
  intros Hl. unfold prepare_lease.
  apply (preserves_bind _ (λ rc, ∀ u c, rc = (Ok u, c) → neutral c)).
  { apply preserves_on_conn. intros a c' Hs u c [= -> ->]. by eapply sync_neutral. }
  intros [[u|e] c1] H1; [|preserves_tac]. specialize (H1 u c1 eq_refl).
  apply (preserves_bind _ (λ _, True)); [preserves_tac|intros gucs _].
  apply (preserves_bind _ (λ rc, ∀ d c, rc = (None, d, c) → neutral c)).
  { apply preserves_on_conn. intros a c' Hs d c [= -> ->]. by eapply guc_neutral. }
  intros [[fl d] c2] H2. apply (preserves_bind _ (λ _, True)); [preserves_tac|intros _ _].
  destruct fl; [preserves_tac|]. specialize (H2 d c2 eq_refl).
  apply (preserves_bind _ (λ _, True)); [preserves_tac|intros reg _].
  apply (preserves_bind _ (λ rc, ∀ u c, rc = (Ok u, c) → neutral c)).
  { apply preserves_on_conn. intros a c' Hs u' c [= -> ->]. by eapply replay_neutral. }
  intros [[u'|e] c3] H3; [|preserves_tac]. specialize (H3 u' c3 eq_refl).
  do 2 (apply (preserves_bind _ (λ _, True)); [preserves_tac|intros _ _]).
  apply (preserves_bind _ (λ _, True)); [|preserves_tac].
  apply preserves_modify. intros s. by apply settled_attach.
Qed.

Lemma settled_checkout b k :
  preserves (settled b) (λ r, ∀ l, r = Ok l → neutral (conn l)) (with_pool k checkout).
Proof. apply settled_with_pool, checkout_ok. Qed.
#[local] Hint Resolve settled_resolve : preserves.

Lemma settled_attempts b n q : preserves (settled b) (λ _, True) (attempts_loop n q).
Proof.
  assert (∀ ep, preserves (settled b) (λ _, True) (attach_to ep)) as Hattach.
  { intros ep. unfold attach_to. apply (preserves_bind _ (λ _, True)); [preserves_tac|intros k _].
    eapply preserves_bind; [apply settled_checkout|]. intros [l|e] Hl; [|preserves_tac].
    by apply settled_prepare, Hl. }
  induction n as [|n IH]; simpl; unfold attempt, send_attach_fatal; preserves_tac.
Qed.

Lemma settled_ensure b q : preserves (settled b) (λ _, True) (ensure_attached q).
Proof. pose proof settled_attempts. unfold ensure_attached. preserves_tac. Qed.
#[local] Hint Resolve settled_ensure : preserves.

(** A session gives its connection back when the server reported [Idle]. *)
Lemma rested_detach st dirty tm :
  preserves (rested st) (λ _, True) (detach_if_idle st dirty tm).
Proof.
  unfold detach_if_idle. destruct (negb tm); [preserves_tac|]. case_decide as Hst; [preserves_tac|].
  subst st.
  intros s Hs. apply wp_bind, wp_gets. destruct (lease s) as [l|] eqn:Hl; [|by apply wp_ret].
  assert (neutral (conn l)) as Hn.
  { destruct Hs as [[_ Hc] Hst]. destruct (Hc l Hl) as [? ?]. split_and!; auto. }
  apply wp_bind, wp_modify, wp_bind. eapply wp_mono; [| |apply (detached_with_pool _ _ (λ _, True))]; simpl.
  - intros _ s' [Hs' _]. apply wp_ret. split; [|done]. split; [by apply detached_settled|].
    intros l'. by rewrite (proj2 Hs').
  - done.
  - intros w Hw. eapply wp_mono; [| |by apply detached_ok]; auto.
  - split; [apply Hs|done].
Qed.

(** Dropping a broken lease. *)
Lemma drop_broken_ok s : pools_ok s → wp drop_broken_lease (λ _, detached) (λ _, True) s.
Proof.
  intros Hs. unfold drop_broken_lease. apply wp_bind, wp_gets.
  destruct (lease s) as [l|] eqn:Hl.
  - apply wp_bind, wp_bind, wp_modify.
    eapply wp_mono; [| |apply (detached_destroy l)]; simpl; [|done|by split].
    intros _ s' [Hd _]. by apply wp_modify.
  - apply wp_bind, wp_ret, wp_modify. by split.
Qed.

(** ** The pump *)

Context {E : ScatterExec}.

(** A statement that leaves no transaction behind. *)
Definition self_contained (sql : string) : Prop :=
  ∀ c r c', conn_send (FQuery sql) c = (Ready r, c') → server_status c = Idle → server_status c' = Idle.

(** A scatter runs on a calm lease, and leaves it so unless it reports it
    broken. *)
Definition after_scatter (r : result ScatterFailure Z) (s : Session) : Prop :=
  match r with
  | Err f => if session_lease_broken f then pools_ok s else settled Calm s
  | Ok _ => settled Calm s
  end.

Class ScatterFlow : Prop :=
  scatter_flow request s : Forall (λ leg, self_contained (leg_sql leg)) (legs request) →
    settled Calm s → wp (execute_scatter request) after_scatter (λ _, True) s.

(** What a message may be sent over: a query over a calm connection, what opens
    or ends a batch over a quiet one, the rest over any. *)
Definition needs (m : PgWireFrontendMessage) : Hold :=
  match m with
  | FQuery _ => Calm
  | FFlush | FTerminate | FCopyData _ | FCopyDone | FCopyFail _ => Loose
  | _ => Quiet
  end.

(** Raw hooks that forward do not ask for more quiet and do not make up the end
    of a cycle; a scatter is of statements that leave no transaction behind. *)
Class HookFlow : Prop := {
  frontend_flow m st m' st' :
    on_frontend m st = (Ready (Forward, m'), st') → rank (needs m') ≤ rank (needs m);
  backend_flow m st m' st' :
    on_backend m st = (Ready (Forward, m'), st') →
    is_ready_for_query m' = true → is_ready_for_query m = true;
  query_flow q st request q' st' :
    on_query q st = (Ready (Scatter request, q'), st') →
    Forall (λ leg, self_contained (leg_sql leg)) (legs request)
}.
Context {SF : ScatterFlow} {HF : HookFlow}.

(** A phase that may pass on only values of [φ]. *)
Definition passes {A} (φ : A → Prop) (r : Flow + A) : Prop :=
  match r with inl _ => True | inr a => φ a end.

Lemma preserves_phase_run {A} J (ψ : A → Prop) (m : async Session (Flow + A)) (k : A → async Session Flow) :
  preserves J (passes ψ) m → (∀ a, ψ a → preserves J (λ _, True) (k a)) →
  preserves J (λ _, True) (phase_run m k).
Proof.
  intros Hm Hk. eapply preserves_bind; [exact Hm|]. intros [f|a] Ha; [|by apply Hk].
  by apply preserves_ret.
Qed.

Lemma preserves_swallow b m : preserves (settled b) (λ _, True) (swallow_phase m).
Proof. unfold swallow_phase. preserves_tac. Qed.

Lemma preserves_local b m : preserves (settled b) (passes (λ _, True)) (local_phase m).
Proof. unfold local_phase, end_active_cycle, pass, stop. preserves_tac. Qed.

Lemma preserves_deny b input info φ : preserves (settled b) (passes φ) (deny input info).
Proof. unfold deny, set_cycle_error, stop. preserves_tac. Qed.

Lemma preserves_reply b input ms φ : preserves (settled b) (passes φ) (reply input ms).
Proof. unfold reply, stop. preserves_tac. Qed.
#[local] Hint Resolve preserves_deny preserves_reply : preserves.

(** The tail of a scatter, once a broken lease is gone. *)
Lemma preserves_scatter m input request φ :
  cycle_input_of m = Some input → Forall (λ leg, self_contained (leg_sql leg)) (legs request) →
  preserves (settled (needs m)) (passes φ) (scatter input request).
Proof.
  intros Hi Hlegs. unfold scatter, set_cycle_error, set_downstream_status, stop.
  apply (preserves_bind _ (λ _, True)); [preserves_tac|intros st _].
  apply (preserves_bind _ (λ _, True)); [preserves_tac|intros _ _].
  intros s Hs. apply wp_bind.
  assert (wp (match scatter_refusal (ci_kind input) st with
              | Some info => mret (Err (MkScatterFailure info false))
              | None => execute_scatter request end)
    (λ r s', match r with
             | Err f => if session_lease_broken f then pools_ok s' else settled (needs m) s'
             | Ok _ => settled (needs m) s' end) (λ _, True) s) as Hx.
  { destruct (scatter_refusal (ci_kind input) st) eqn:Hr; [by apply wp_ret|].
    destruct m; try done; injection Hi as <-; [|done]. exact (scatter_flow request s Hlegs Hs). }
  eapply wp_mono; [| |exact Hx]; simpl; [|done]. clear s Hs Hx. intros [rows|f] s Hs.
  { apply wp_preserves; [|done]. preserves_tac. }
  apply wp_bind, wp_gets, wp_bind.
  assert (wp (match session_lease_broken f, lease s with
              | true, Some l => _ ← modify (λ s, s <| lease := None |>); destroy_lease l
              | _, _ => mret () end) (λ _, settled (needs m)) (λ _, True) s) as Hd.
  { destruct (session_lease_broken f); [|by apply wp_ret].
    destruct (lease s) as [l|] eqn:Hl; [|by apply wp_ret, detached_settled].
    apply wp_bind, wp_modify. eapply wp_mono; [| |apply (detached_destroy l)]; simpl; [|done|by split].
    intros _ s' [Hd _]. by apply detached_settled. }
  eapply wp_mono; [| |exact Hd]; simpl; [|done]. intros _ s' Hs'.
  apply wp_preserves; [|done]. preserves_tac.
Qed.

Lemma rewrite_needs m r : needs (apply_rewrite m r) = needs m.
Proof. by destruct m, r. Qed.

Lemma preserves_on_query m :
  preserves (settled (needs m)) (passes (λ m', needs m' = needs m)) (on_query_phase m).
Proof.
  unfold on_query_phase, pass, stop. destruct (cycle_input_of m) as [input|] eqn:Hi; [|preserves_tac].
  do 2 (apply (preserves_bind _ (λ _, True)); [preserves_tac|intros ? _]).
  destruct a0; [|preserves_tac].
  apply (preserves_bind _ (λ ac, ∀ request, ac.1 = Scatter request →
    Forall (λ leg, self_contained (leg_sql leg)) (legs request))).
  { apply preserves_hook; [apply _|]. intros st [action q'] st' Hq request. simpl. intros ->.
    by eapply query_flow. }
  intros [action cycle] Hq. simpl in Hq. destruct action as [|info|rs|request|].
  - apply (preserves_bind _ (λ _, True)); [preserves_tac|intros _ _].
    apply preserves_ret. apply rewrite_needs.
  - preserves_tac.
  - preserves_tac.
  - apply preserves_scatter; [done|by apply Hq].
  - preserves_tac.
Qed.

Lemma preserves_registry b m : preserves (settled b) (passes (λ _, True)) (registry_phase m).
Proof. unfold registry_phase, pass, stop. preserves_tac. Qed.

Lemma preserves_attach b i m pending : preserves (settled b) (passes (λ _, True)) (attach_phase i m pending).
Proof. unfold attach_phase, set_attached, lift, stop. preserves_tac. Qed.

Lemma preserves_frontend_hook b m :
  preserves (settled b) (passes (λ m', rank (needs m') ≤ rank (needs m))) (frontend_hook_phase m).
Proof.
  unfold frontend_hook_phase, pass, stop. apply (preserves_bind _ (λ _, True)); [preserves_tac|intros h _].
  destruct h; [|apply preserves_ret; simpl; auto].
  apply (preserves_bind _ (λ am, am.1 = Forward → rank (needs am.2) ≤ rank (needs m))).
  { apply preserves_hook; [apply _|]. intros st [a m'] st' Hm. simpl. intros ->. by eapply frontend_flow. }
  intros [action m'] Hm. simpl in Hm. destruct action; [apply preserves_ret; exact (Hm eq_refl)|..]; preserves_tac.
Qed.

(** Nothing is noted any more once the lease is gone. *)
Lemma preserves_reset : preserves detached (λ _, True) reset_flight.
Proof. apply preserves_modify. by intros s [Hp Hl]. Qed.
#[local] Hint Resolve preserves_reset : preserves.

Lemma wp_detached {A} (m : async Session A) s :
  preserves detached (λ _, True) m → detached s → wp m (λ _, settled Loose) (λ _, True) s.
Proof.
  intros Hm Hs. eapply wp_mono; [| |by apply Hm]; simpl; [|done].
  intros a s' [Hd _]. by apply detached_settled.
Qed.

Lemma send_failed_ok s : settled Loose s → wp send_failed (λ _, settled Loose) (λ _, True) s.
Proof.
  intros Hs. unfold send_failed. apply wp_bind, wp_gets, wp_bind.
  eapply wp_mono; [| |apply (preserves_same (settled Loose)); [eauto with keeps|exact Hs]]; simpl; [|done].
  clear s Hs. intros d s [Hs _]. destruct d; [|by apply wp_ret].
  apply wp_bind. eapply wp_mono; [| |apply drop_broken_ok, Hs]; simpl; [|done].
  intros _ s1 Hs1. apply wp_detached; [|done]. unfold bump_frontend. preserves_tac.
Qed.

Lemma upstream_eof_ok s : settled Loose s → wp upstream_eof (λ _, settled Loose) (λ _, True) s.
Proof.
  intros Hs. unfold upstream_eof. apply wp_bind, wp_gets, wp_bind.
  eapply wp_mono; [| |apply (preserves_same (settled Loose)); [eauto with keeps|exact Hs]]; simpl; [|done].
  clear s Hs. intros d s [Hs _]. destruct d; [|by apply wp_ret].
  apply wp_bind. eapply wp_mono; [| |apply drop_broken_ok, Hs]; simpl; [|done].
  intros _ s1 Hs1. apply wp_detached; [|done]. preserves_tac.
Qed.

(** Work on the leased connection. *)
Lemma wp_on_lease {A} (m : async PgWireClient A) Q s :
  (∀ l a c', lease s = Some l → m (conn l) = (Ready a, c') →
     Q a (s <| lease := Some (l <| conn := c' |>) |>)) →
  wp (on_lease m) Q (λ _, True) s.
Proof.
  intros HQ. unfold wp, on_lease. destruct (lease s) as [l|]; [|done].
  destruct (m (conn l)) as [[a|] c'] eqn:Hm; [|done]. by apply HQ.
Qed.

(** The note of a message that opens a cycle of the server. *)
Definition opened (m : PgWireFrontendMessage) (s : Session) : Session :=
  if opens_cycle m then s <| hygiene ::= λ h, h <| awaiting_response := true |> |> else s.

Lemma needs_spec m :
  (∃ q, m = FQuery q) ∨ m = FSync ∨ (needs m = Quiet ∧ ends_cycle m = false) ∨
  (needs m = Loose ∧ ends_cycle m = false ∧ batches m = false).
Proof. destruct m; simpl; eauto 10. Qed.

(** A message sent over a connection that is as quiet as it needs. *)
Lemma sent_holds m n n' c c' :
  holds (needs m) n c → n ≤ n' → (opens_cycle m = true → n' = 1) →
  owed c' ≤ owed c + (if ends_cycle m then 1 else 0) →
  (unsynced c' = true → batches m = true ∨ (unsynced c = true ∧ m ≠ FSync)) →
  holds Loose n' c'.
Proof.
  intros Hc Hn Hop Ho Hu. destruct (needs_spec m) as [[q ->]|[->|[[Hm He]|(Hm & He & Hb)]]].
  - destruct Hc as [Hc1 Hc2]. simpl in *. rewrite Hop by done. split; [lia|].
    intros Hx. destruct (Hu Hx) as [?|[? _]]; congruence.
  - simpl in *. rewrite Hop by done. split; [lia|].
    intros Hx. by destruct (Hu Hx) as [?|[_ ?]].
  - rewrite Hm in Hc. rewrite He in Ho. simpl in *. split; [lia|intros _; lia].
  - rewrite Hm in Hc. rewrite He in Ho. destruct Hc as [Hc1 Hc2]. split; [lia|].
    intros Hx. destruct (Hu Hx) as [?|[Hy _]]; [congruence|]. specialize (Hc2 Hy). lia.
Qed.

Lemma forward_settled m s :
  settled (needs m) s → wp (forward_phase m) (λ _, settled Loose) (λ _, True) s.
Proof.
  intros Hs. unfold forward_phase. apply wp_bind.
  assert (wp (if opens_cycle m then modify (λ s, s <| hygiene ::= λ h, h <| awaiting_response := true |> |>)
              else mret ()) (λ _ s', s' = opened m s) (λ _, True) s) as H0 by (unfold opened; by destruct (opens_cycle m)).
  eapply wp_mono; [| |exact H0]; simpl; [|done]. intros _ ? ->. apply wp_bind, wp_on_lease.
  intros l r c' Hl Hsend.
  assert (settled Loose ((opened m s) <| lease := Some (l <| conn := c' |>) |>)) as Hs2.
  { destruct Hs as [Hp Hh]. split; [unfold opened; by destruct (opens_cycle m)|].
    intros l' Hl'. simpl in Hl'. injection Hl' as <-.
    assert (lease s = Some l) as Hls by (revert Hl; unfold opened; by destruct (opens_cycle m)).
    specialize (Hh l Hls).
    assert (owed c' ≤ owed (conn l) + (if ends_cycle m then 1 else 0) ∧
      (unsynced c' = true → batches m = true ∨ (unsynced (conn l) = true ∧ m ≠ FSync))) as [Ho Hu]
      by (destruct (triggers_response m); [by eapply flow_send|by eapply flow_feed]).
    eapply sent_holds; [exact Hh| | |exact Ho|exact Hu]; unfold opened, noted;
      destruct (opens_cycle m); simpl; try done; destruct (awaiting_response _); simpl; lia || done. }
  destruct r; [|by apply send_failed_ok].
  eapply wp_mono; [| |apply (wp_preserves (settled Loose) (λ _, True)); [|exact Hs2]]; simpl.
  - by intros ? ? [? _].
  - done.
  - unfold bump_frontend. preserves_tac.
Qed.

Lemma client_message_ok m s :
  settled (needs m) s → wp (on_client_message m) (λ _, settled Loose) (λ _, True) s.
Proof.
  intros Hs.
  assert (∀ A (m' : async Session (Flow + A)) φ (k : A → async Session Flow) s,
    settled (needs m) s → preserves (settled (needs m)) (passes φ) m' →
    (∀ a s, settled (needs m) s → φ a → wp (k a) (λ _, settled Loose) (λ _, True) s) →
    wp (phase_run m' k) (λ _, settled Loose) (λ _, True) s) as Hrun.
  { clear. intros A m' φ k s Hs Hm Hk. apply wp_bind. eapply wp_mono; [| |by apply Hm]; simpl; [|done].
    intros [f|a] s' [Hs' Ha]; [|by apply Hk]. apply wp_ret. by eapply settled_loose. }
  unfold on_client_message. apply wp_bind, wp_gets. destruct (swallow_until_sync s).
  { eapply wp_mono; [| |by apply preserves_swallow]; simpl; [|done]. intros ? ? [? _]. by eapply settled_loose. }
  eapply Hrun; [done|apply preserves_local|]. clear s Hs. intros _ s Hs _.
  eapply Hrun; [done|apply preserves_on_query|]. clear s Hs. intros m1 s Hs Hm1.
  eapply Hrun; [done|apply preserves_registry|]. clear s Hs. intros pending s Hs _.
  eapply Hrun; [done|apply preserves_attach|]. clear s Hs. intros _ s Hs _.
  eapply Hrun; [done|apply preserves_frontend_hook|]. clear s Hs. intros m2 s Hs Hm2.
  apply forward_settled. eapply settled_rank; [|exact Hs]. by rewrite <-Hm1.
Qed.

(** ** From the server *)

(** After a message was read: with the end of a cycle the lease is at rest. *)
Definition after_read (m : PgWireBackendMessage) : Session → Prop :=
  match m with BReadyForQuery st => rested st | _ => settled Loose end.

#[local] Instance framed_after_read m : Framed (after_read m).
Proof. destruct m; simpl; apply _. Qed.

Lemma after_read_loose m s : after_read m s → settled Loose s.
Proof. destruct m; simpl; try done. intros [Hs _]. by eapply settled_loose. Qed.

(** The client library's cache of a connection is not what the server knows. *)
Definition caches (f : PgWireClient → PgWireClient) : Prop :=
  ∀ c, owed (f c) = owed c ∧ unsynced (f c) = unsynced c ∧ server_status (f c) = server_status c.

Lemma caches_status st : caches (set_transaction_status st).
Proof. intros c. rewrite owed_set_status. split; [done|apply flow_set_status]. Qed.
Lemma caches_param n v : caches (set_server_parameter n v).
Proof. intros c. rewrite owed_set_param. split; [done|apply flow_set_param]. Qed.

Lemma cached_settled h f s l :
  caches f → lease s = Some l → settled h s → settled h (s <| lease := Some (l <| conn := f (conn l) |>) |>).
Proof.
  intros Hf Hl [Hp Hs]. split; [done|]. intros l' [= <-]. specialize (Hs l Hl).
  destruct (Hf (conn l)) as (Ho & Hu & _). unfold noted in *. destruct h; simpl in *; by rewrite ?Ho, ?Hu.
Qed.

Lemma cached_read f m :
  caches f → preserves (after_read m) (λ _, True) (on_lease (modify f)).
Proof.
  intros Hf s Hs. apply wp_on_lease. intros l [] c' Hl Hm. async_inv. split; [|done].
  destruct m; simpl in *; try (by apply cached_settled). destruct Hs as [Hs Hst].
  split; [by apply cached_settled|]. intros l' [= <-]. simpl.
  destruct (Hf (conn l)) as (_ & _ & ->). by apply Hst.
Qed.

Lemma preserves_track m :
  preserves (after_read m) (λ st, ∀ st', m = BReadyForQuery st' → st = st') (track m).
Proof.
  pose proof (λ st, cached_read _ m (caches_status st)). pose proof (λ n v, cached_read _ m (caches_param n v)).
  destruct (ready_or_not m) as [[st ->]|Hm].
  - unfold track, set_downstream_status. apply (preserves_bind _ (λ _, True)); [auto|intros _ _].
    apply (preserves_bind _ (λ _, True)); [preserves_tac|intros _ _].
    apply (preserves_bind _ (λ _, True)); [|intros _ _; apply preserves_ret; by intros st' [= ->]].
    apply preserves_modify. intros s [[Hp Hl] Hst]. split; [|done]. by split.
  - apply (preserves_mono _ (λ _, True)); [intros st _ st' ->; by destruct (Hm st')|].
    destruct m; try (by destruct (Hm status)); unfold track, set_downstream_status; preserves_tac; auto.
Qed.

Lemma preserves_observe J `{!Framed J} m :
  preserves J (λ o, ∀ m', o = Some m' → is_ready_for_query m' = is_ready_for_query m) (observe m).
Proof.
  unfold observe, set_cycle_error. apply (preserves_bind _ (λ _, True)); [preserves_tac|intros h _].
  destruct h as [h|]; [|apply preserves_ret; by intros ? [= <-]].
  destruct m; try (apply preserves_ret; by intros ? [= <-]).
  - do 2 (apply (preserves_bind _ (λ _, True)); [preserves_tac|intros ? _]).
    apply preserves_ret. intros m' [= <-]. by destruct (_ && _).
  - apply (preserves_bind _ (λ _, True)); [preserves_tac|intros ? _]. apply preserves_ret. by intros ? [= <-].
  - apply (preserves_bind _ (λ _, True)); [preserves_tac|intros ? _]. apply preserves_ret. by intros ? [= <-].
  - apply (preserves_bind _ (λ _, True)); [unfold row_hook; preserves_tac|intros o _].
    apply preserves_ret. intros m'. destruct o; [|done]. by intros [= <-].
Qed.

Lemma preserves_backend_hook J `{!Framed J} m :
  preserves J
    (passes (λ o, ∀ m', o = Some m' → is_ready_for_query m' = true → is_ready_for_query m = true))
    (backend_hook_phase m).
Proof.
  unfold backend_hook_phase, pass, stop. apply (preserves_bind _ (λ _, True)); [preserves_tac|intros h _].
  destruct h; [|apply preserves_ret; by intros ? [= <-]].
  apply (preserves_bind _ (λ am, am.1 = Forward → is_ready_for_query am.2 = true → is_ready_for_query m = true)).
  { apply preserves_hook; [apply _|]. intros st [a m'] st' Hm. simpl. intros ->. by eapply backend_flow. }
  intros [action m'] Hm. simpl in Hm. destruct action; preserves_tac.
  apply preserves_ret. intros ? [= <-]. by apply Hm.
Qed.

(** The delivery of [m'], made of [m]: only at the end of a cycle is the
    connection given back, at the status just read. *)
Lemma preserves_deliver m st m' :
  (∀ st', m = BReadyForQuery st' → st = st') →
  (is_ready_for_query m' = true → is_ready_for_query m = true) →
  preserves (after_read m) (λ _, True) (deliver st m').
Proof.
  intros Hst Hm. unfold deliver, bump_backend. destruct (is_ready_for_query m') eqn:Hr.
  - specialize (Hm eq_refl). destruct m; try done. rewrite (Hst _ eq_refl). simpl.
    pose proof (rested_detach status). preserves_tac.
  - preserves_tac.
Qed.

Lemma preserves_server_message m :
  preserves (after_read m) (λ _, True) (on_server_message m).
Proof.
  unfold on_server_message. eapply preserves_bind; [apply preserves_track|intros st Hst].
  eapply preserves_bind; [apply preserves_observe; apply _|]. intros [m1|] Ho; [|preserves_tac].
  specialize (Ho m1 eq_refl).
  eapply preserves_phase_run; [apply preserves_backend_hook; apply _|]. simpl. intros [m2|] Hm2.
  - apply preserves_deliver; [done|]. intros Hr. rewrite <-Ho. by eapply Hm2.
  - unfold bump_backend. preserves_tac.
Qed.

(** A message read off the lease: the one that ends a cycle leaves it at rest. *)
Lemma next_settled s l c m :
  settled Loose s → lease s = Some l → conn_next (conn l) = (Ready (Some (Ok m)), c) →
  after_read m (s <| lease := Some (l <| conn := c |>) |>).
Proof.
  intros [Hp Hl] Hx Hn. specialize (Hl l Hx). unfold noted in *. destruct Hl as [Ho Hu].
  apply flow_next in Hn as Hg. destruct Hg as [Hu' Hs'].
  destruct (ready_or_not m) as [[st ->]|Hm].
  - apply owed_next_ready in Hn as Hr.
    assert (owed c = 0) as Hc by (destruct (awaiting_response _); lia).
    assert (unsynced (conn l) = false) as Hb.
    { destruct (unsynced (conn l)); [|done]. specialize (Hu eq_refl). lia. }
    split; [split; [done|]|]; intros l' [= <-]; simpl; [split; [done|congruence]|].
    rewrite Hs'. by eapply flow_ready.
  - apply owed_next_other in Hn as Hr; [|done].
    assert (settled Loose (s <| lease := Some (l <| conn := c |>) |>)) as Hs.
    { split; [done|]. intros l' [= <-]. unfold noted. simpl. rewrite Hr, Hu'. by split. }
    destruct m; try exact Hs. by destruct (Hm status).
Qed.

(** The client is as patient as its messages need: nothing of the extended
    protocol is sent while the response to the last cycle is outstanding, no
    query while one is or a batch is open. *)
Definition paced (ev : Event) (s : Session) : Prop :=
  match ev with
  | EvClient (Some (Ok m)) => lease_holds (needs m) s
  | _ => True
  end.

(** Work on the lease that reads no end of a cycle. *)
Lemma loose_lease s l c :
  settled Loose s → lease s = Some l → owed c ≤ owed (conn l) → unsynced c = unsynced (conn l) →
  settled Loose (s <| lease := Some (l <| conn := c |>) |>).
Proof.
  intros [Hp Hs] Hl Ho Hu. split; [done|]. intros l' [= <-]. destruct (Hs l Hl) as [H1 H2].
  unfold noted in *. simpl. rewrite Hu. split; [lia|]. intros Hx. specialize (H2 Hx). lia.
Qed.

Lemma on_event_ok ev s :
  paced ev s → settled Loose s → wp (on_event ev) (λ _, settled Loose) (λ _, True) s.
Proof.
  intros Hpc Hs. destruct ev as [[[m|e]|]| | |]; try by apply wp_ret.
  - assert (settled (needs m) s) as Hm by (split; [apply Hs|exact Hpc]).
    destruct m; by apply client_message_ok || by apply wp_ret.
  - apply wp_bind, wp_gets. destruct (lease s) as [l0|] eqn:Hl0; [|by apply wp_ret].
    apply wp_bind, wp_on_lease. intros l item c Hl Hn.
    assert (∀ (Hend : ∀ m, item ≠ Some (Ok m)), settled Loose (s <| lease := Some (l <| conn := c |>) |>)) as Hend.
    { intros Hend. destruct (flow_next _ _ _ Hn) as [Hg _]. apply (flow_end _ _ _ Hn) in Hend. by apply loose_lease. }
    destruct item as [[m|e]|].
    + eapply wp_mono; [| |apply preserves_server_message]; simpl; [|done|by apply next_settled].
      intros ? ? [? _]. by eapply after_read_loose.
    + by apply wp_ret, Hend.
    + by apply upstream_eof_ok, Hend.
  - apply wp_bind, wp_gets. destruct (lease s) as [l0|] eqn:Hl0; [|by apply wp_ret].
    apply wp_bind, wp_on_lease. intros l r c Hl Hc. apply wp_ret. apply loose_lease; [done..| |].
    + by rewrite (owed_cancel _ _ _ Hc).
    + by eapply flow_cancel.
  - apply wp_bind, wp_gets. destruct (_ || _); [|by apply wp_ret].
    apply wp_bind, wp_modify, wp_ret. by eapply same_settled.
Qed.

(** The end of a session. *)
Lemma session_end_ok e s :
  settled Loose s → (∀ l, lease s = Some l → drains_in_time (hygiene s) (conn l)) →
  wp (session_end e) (λ _, pools_ok) (λ _, True) s.
Proof.
  intros Hs Hd. unfold session_end. apply wp_bind, wp_gets, wp_bind, wp_gets, wp_bind, wp_modify.
  assert (detached (s <| lease := None |>)) as Hs' by (split; [apply Hs|done]).
  assert (∀ (m : async Session unit), preserves detached (λ _, True) m →
    wp m (λ _, pools_ok) (λ _, True) (s <| lease := None |>)) as Hgo.
  { intros m Hm. eapply wp_mono; [| |by apply Hm]; simpl; [|done]. by intros ? ? [[? _] _]. }
  destruct e, (lease s) as [l|] eqn:Hl; apply Hgo; [|preserves_tac..].
  apply detached_with_pool. intros w Hw. eapply wp_mono; [| |apply checkin_ok]; simpl; [by auto|done| |done].
  intros c Hc. destruct Hs as [_ Hs]. destruct (Hs l Hl) as [Ho Hu]. unfold noted in Ho.
  eapply sanitized_neutral; [|by apply Hd|exact Hu|exact Hc]. unfold hygiene_matches.
  case_decide as Hx; destruct (awaiting_response _); lia || naive_solver.
Qed.

End Flow.

#[export] Existing Instance same_preorder.
#[export] Existing Instances framed_settled framed_detached framed_pools.
#[export] Hint Resolve same_chore : keeps.
#[export] Hint Extern 3 (preserves _ (λ _, True) _) =>
  (apply preserves_same; [apply _|solve [eauto 3 with keeps]]) : preserves.
#[export] Hint Resolve settled_destroy settled_resolve : preserves.
