(* ===== verification/Replay.v ===== *)
(** * State carried onto a connection (session.rs)

    What [ensure_attached] has put on the connection it attaches: the startup
    parameters, the session's GUC overrides and its named statements, in this
    order and nothing else. *)

From S2P Require Import Prelude RustStr Messages Config Upstream Reference Row Routing Intercept Pool Session Attach Pump Chores PumpInv PoolKeys.

(** What a server was told on a connection: the messages it was sent and the
    simple queries it completed; a [SET] changes the cached value of its own
    parameter at most. *)
Class Traced (P : Platform) := {
  seen : PgWireClient → list PgWireFrontendMessage;
  ran : PgWireClient → list string;
  trace_feed m u c c' : conn_feed m c = (Ready (Ok u), c') → seen c' = seen c ++ [m] ∧ ran c' = ran c;
  trace_send m u c c' : conn_send m c = (Ready (Ok u), c') → seen c' = seen c ++ [m] ∧ ran c' = ran c;
  trace_next r c c' : conn_next c = (Ready r, c') → seen c' = seen c ∧ ran c' = ran c;
  trace_query q u c c' :
    conn_simple_query q c = (Ready (Ok u), c') → seen c' = seen c ∧ ran c' = ran c ++ [q];
  trace_status st c : seen (set_transaction_status st c) = seen c ∧ ran (set_transaction_status st c) = ran c;
  trace_param n v c : seen (set_server_parameter n v c) = seen c ∧ ran (set_server_parameter n v c) = ran c;
  set_keeps_others n v n' u c c' :
    conn_simple_query (set_statement n v) c = (Ready (Ok u), c') → n' ≠ n →
    server_parameters c' !! n' = server_parameters c !! n'
}.

Section Replay.
Context `{P : Platform} {F : Fuel} {T : Traced P}.

(** ** On the connection *)

Definition parse_of (x : string * (string * list Z)) : PgWireFrontendMessage :=
  FParse (Some x.1) x.2.1 x.2.2.

(** The messages that replay a registry. *)
Definition replay_messages (r : gmap string (string * list Z)) : list PgWireFrontendMessage :=
  if decide (r = ∅) then [] else (parse_of <$> map_to_list r) ++ [FSync].

Lemma feed_trace l u c c' :
  feed_parses l c = (Ready (Ok u), c') → seen c' = seen c ++ (parse_of <$> l) ∧ ran c' = ran c.
Proof.
  revert c. induction l as [|[n [q oids]] l IH]; intros c; simpl.
  { intros [= <- <-]. by rewrite app_nil_r. }
  intros (r & c1 & Hf & H)%bind_ready_inv. destruct r; [|by async_inv].
  apply trace_feed in Hf as [Hs Hr]. apply IH in H as [-> ->]. rewrite Hs, <-app_assoc. done.
Qed.

Lemma replay_loop_trace n u c c' :
  replay_loop n c = (Ready (Ok u), c') → seen c' = seen c ∧ ran c' = ran c.
Proof.
  revert c. induction n as [|n IH]; intros c; simpl; [done|].
  intros (item & c1 & Hn & H)%bind_ready_inv. apply trace_next in Hn as [<- <-].
  destruct item as [[m|e]|]; [|by async_inv|by async_inv].
  destruct m; try (by apply IH); async_inv.
  - destruct (trace_param name value c1) as [<- <-]. by apply IH.
  - apply trace_status.
Qed.

Lemma replay_trace r u c c' :
  replay r c = (Ready (Ok u), c') → seen c' = seen c ++ replay_messages r ∧ ran c' = ran c.
Proof.
  unfold replay, replay_messages. case_decide as Hr; [intros [= <- <-]; by rewrite app_nil_r|].
  intros [(u1 & c1 & Hf & H)|(e & _ & ?)]%try_bind_ready_inv; [|done].
  apply feed_trace in Hf as [Hs1 Hr1]. apply bind_ready_inv in H as (r' & c2 & Hs & H).
  destruct r' as [u2|e]; [|by async_inv]. apply trace_send in Hs as [Hs2 Hr2].
  apply replay_loop_trace in H as [-> ->]. by rewrite Hs2, Hr2, Hs1, Hr1, <-app_assoc.
Qed.

(** The overrides that are set: each is [SET] unless the connection reported
    that value already. *)
Lemma guc_trace l d c d' c' :
  NoDup l.*1 → guc_replay l d c = (Ready (None, d'), c') →
  seen c' = seen c ∧ ∃ sets, ran c' = ran c ++ sets ∧
    (∀ n v, (n, v) ∈ l → set_statement n v ∈ sets ∨ default EmptyString (server_parameters c !! n) = v) ∧
    sets `sublist_of` ((λ x, set_statement x.1 x.2) <$> l) ∧ (sets ≠ [] → d' = true) ∧ (d = true → d' = true).
Proof.
  revert d c. induction l as [|[n v] l IH]; intros d c Hnd; simpl.
  { intros [= <- <-]. split; [done|]. exists []. rewrite app_nil_r. split_and!; try done.
    by intros n v ?%elem_of_nil. }
  apply NoDup_cons in Hnd as [Hn Hnd].
  intros (cur & c1 & [= <- <-] & H)%bind_ready_inv. case_decide as Hcur.
  - apply bind_ready_inv in H as ([u|e] & c2 & Hq & H); [|by async_inv].
    pose proof (λ n' Hne, set_keeps_others _ _ n' _ _ _ Hq Hne) as Hkeep.
    apply trace_query in Hq as [Hs Hr]. apply IH in H as (Hs' & sets & Hr' & Hin & Hsub & Hd & Hd1); [|done].
    split; [congruence|]. exists (set_statement n v :: sets). split_and!.
    + by rewrite Hr', Hr, <-app_assoc.
    + intros n' v' [[= -> ->]|Hx]%elem_of_cons; [left; by left|].
      assert (n' ≠ n) as Hne by (intros ->; apply Hn, list_elem_of_fmap; by exists (n, v')).
      destruct (Hin _ _ Hx) as [?|He]; [left; by right|right]. by rewrite <-(Hkeep n' Hne).
    + by apply sublist_skip.
    + intros _. by apply Hd1.
    + intros _. by apply Hd1.
  - apply IH in H as (Hs' & sets & Hr' & Hin & Hsub & Hd & Hd1); [|done].
    split; [done|]. exists sets. split_and!; try done.
    + intros n' v' [[= -> ->]|Hx]%elem_of_cons; [right; destruct (decide (default EmptyString (server_parameters c !! n) = v)); [done|by destruct Hcur]|by apply Hin].
    + by apply sublist_cons.
Qed.

Lemma sync_trace names sp u c c' :
  sync_params names sp c = (Ready (Ok u), c') → seen c' = seen c ∧ ∃ sets, ran c' = ran c ++ sets.
Proof.
  revert c. induction names as [|n names IH]; intros c; simpl.
  { intros [= <- <-]. split; [done|]. exists []. by rewrite app_nil_r. }
  destruct (sp !! n) as [v|]; [|apply IH].
  intros (cur & c1 & [= <- <-] & H)%bind_ready_inv. case_decide as Hcur; [|by apply IH].
  apply try_bind_ready_inv in H as [(u1 & c2 & Hs & H)|(e & _ & ?)]; [|done].
  unfold set_parameter in Hs. apply try_bind_ready_inv in Hs as [(u2 & c3 & Hq & Hs)|(e & _ & ?)]; [|done].
  async_inv. apply trace_query in Hq as [Hq1 Hq2].
  match goal with H : sync_params _ _ _ = _ |- _ => apply IH in H as (-> & sets & ->) end.
  destruct (trace_param n v c3) as [-> ->]. split; [done|]. exists (set_statement n v :: sets).
  by rewrite Hq2, <-app_assoc.
Qed.

(** ** Through the attempts *)

Context {I : Interceptor} {X : SessionCtx}.

(** Neither the session's state nor its lease. *)
Definition same_state (s s' : Session) : Prop :=
  registry s' = registry s ∧ guc_overrides s' = guc_overrides s ∧ lease s' = lease s.

#[local] Instance same_state_preorder : PreOrder same_state.
Proof. split; unfold same_state; [done|]. intros ??? (-> & -> & ->) (-> & -> & ->). done. Qed.

Lemma state_chore {A} (m : async Session A) : keeps chore m → keeps same_state m.
Proof. apply keeps_mono. by intros s s' (d & e & h & w & -> & _). Qed.
Lemma state_with_pool {A} k (m : async PoolWorld A) : keeps same_state (with_pool k m).
Proof.
  intros s a s'. unfold with_pool. destruct (s_pools s !! k); [|by intros [= <- <-]].
  destruct (m _). by intros [= <- <-].
Qed.
Lemma state_resolve e : keeps same_state (resolve_pool e).
Proof. by intros s a s' [= <- <-]. Qed.
#[local] Hint Resolve state_chore state_with_pool state_resolve : keeps.

(** A failed preparation: the connection is destroyed, the attempt goes on. *)
Lemma failed_state l e m s r s' :
  (_ ← destroy_lease l; attempt_failed e m) s = (Ready r, s') → r ≠ Some true ∧ same_state s s'.
Proof.
  intros Hf. assert (keeps same_state (_ ← destroy_lease l; attempt_failed e m)) as Hk
    by (unfold destroy_lease; keeps_tac).
  split; [|by eapply Hk]. apply bind_ready_inv in Hf as (? & s1 & _ & Hf).
  unfold attempt_failed in Hf. apply bind_ready_inv in Hf as (d & s2 & _ & Hf). destruct d; [by async_inv|].
  by apply bind_ready_inv in Hf as (? & s3 & _ & [= <- <-]).
Qed.

(** What a connection carries, from the connection as it was checked out: the
    statements are replayed, and every override is set after the startup
    parameters or was already reported by then. *)
Definition carries (c0 c : PgWireClient) (s : Session) : Prop :=
  seen c = seen c0 ++ replay_messages (registry s) ∧
  ∃ c1 u syncs sets, sync_startup_parameters cx_startup_parameters c0 = (Ready (Ok u), c1) ∧
    ran c1 = ran c0 ++ syncs ∧ ran c = ran c1 ++ sets ∧
    (∀ n v, guc_overrides s !! n = Some v →
       set_statement n v ∈ sets ∨ default EmptyString (server_parameters c1 !! n) = v) ∧
    sets `sublist_of` ((λ x, set_statement x.1 x.2) <$> map_to_list (guc_overrides s)) ∧
    (sets ≠ [] ∨ registry s ≠ ∅ → lease_dirty s = true).

Definition attached_with (c0 : PgWireClient) (s s' : Session) : Prop :=
  registry s' = registry s ∧ guc_overrides s' = guc_overrides s ∧
  ∃ l, lease s' = Some l ∧ carries c0 (conn l) s'.

Lemma prepare_carries ep l s r s' :
  prepare_lease ep l s = (Ready r, s') →
  (r = Some true → attached_with (conn l) s s') ∧ (r ≠ Some true → same_state s s').
Proof.
  unfold prepare_lease. intros ([[u|e] c1] & s1 & H1 & H)%bind_ready_inv; unfold on_conn in H1.
  2: { destruct (sync_startup_parameters _ _) as [[]]; simplify_eq.
       apply failed_state in H as [? ?]. naive_solver. }
  destruct (sync_startup_parameters _ _) as [[]] eqn:Hsync; simplify_eq.
  apply bind_ready_inv in H as (gucs & s2 & [= <- <-] & H).
  apply bind_ready_inv in H as ([[fl d] c2] & s2 & H2 & H). unfold on_conn in H2.
  destruct (guc_replay _ _ _) as [[x|] c2'] eqn:Hguc; simplify_eq.
  apply bind_ready_inv in H as (? & s3 & [= <- <-] & H). destruct fl.
  { apply failed_state in H as [Hr Hs]. split; [done|]. intros _.
    destruct Hs as (Hr1 & Hg1 & Hl1). by split_and!. }
  apply bind_ready_inv in H as (reg & s4 & [= <- <-] & H).
  apply bind_ready_inv in H as ([[u'|e] c3] & s4 & H3 & H); unfold on_conn in H3.
  2: { destruct (replay _ _) as [[]]; simplify_eq. apply failed_state in H as [Hr Hs].
       split; [done|]. intros _. destruct Hs as (Hr1 & Hg1 & Hl1). by split_and!. }
  destruct (replay _ _) as [[x|] c3'] eqn:Hrep; simplify_eq.
  apply bind_ready_inv in H as (? & s4 & [= <- <-] & H).
  apply bind_ready_inv in H as (? & s5 & Hcon & H).
  apply bind_ready_inv in H as (? & s6 & [= <- <-] & [= <- <-]). split; [|by intros []].
  intros _. apply (keeps_chore _ (chore_upstream_connected _)) in Hcon as Hdirty. destruct Hdirty as (_ & Hdirty & _).
  apply (state_chore _ (chore_upstream_connected _)) in Hcon as (Hreg & Hgucs & _). simpl in Hreg, Hgucs, Hdirty.
  apply guc_trace in Hguc as (Hs2 & sets & Hr2 & Hin & Hsub & Hd & _); [|apply NoDup_fst_map_to_list].
  apply replay_trace in Hrep as [Hs3 Hr3]. simpl in Hs3, Hr3.
  destruct (sync_trace _ _ _ _ _ Hsync) as [Hs1 [syncs Hr1]].
  split; [done|]. split; [done|]. eexists. split; [done|]. unfold carries. simpl.
  rewrite Hreg, Hgucs, Hs3, Hs2, Hs1, Hdirty. split; [done|].
  exists c1, u, syncs, sets. rewrite Hr3, Hr2. split_and!; try done.
  - intros n v Hn. apply Hin. by apply elem_of_map_to_list.
  - intros [Hsets|Hne]; [rewrite (Hd Hsets); by rewrite orb_true_r|by rewrite bool_decide_true].
Qed.

(** ** Where the connection is from *)

(** The pool a session finds for an endpoint, which is made with the session's
    factory for it where there is none yet. *)
Definition pool_for (s : Session) (ep : EndpointConfig) : PoolInner :=
  let f := match factories s !! id ep with
           | Some f => f
           | None => make_factory_for ep cx_route cx_user cx_database
           end in
  let k := MkPoolKey (name cx_route) (id ep) cx_user cx_database in
  default (Pool_new k cx_pool_config f) (s_pools s !! k).

(** A connection the session could check out: of the pool of one of the route's
    endpoints, parked there or made by the pool's factory, and sent nothing
    since but the [Sync] of a probe. *)
Definition checked_out (s : Session) (c0 : PgWireClient) : Prop :=
  ∃ ep, endpoint cx_route (id ep) = Some ep ∧ taken_from (pool_for s ep) c0.

(** The pools of the endpoints are drained at most. *)
Definition drawn (s s' : Session) : Prop :=
  ∀ ep, endpoint cx_route (id ep) = Some ep → drains_only (pool_for s ep) (pool_for s' ep).
#[local] Instance drawn_preorder : PreOrder drawn.
Proof. split; unfold drawn; [done|]. intros ??? H1 H2 ep Hep. etrans; [by apply H1|by apply H2]. Qed.

Lemma checked_out_earlier s s' c0 : drawn s s' → checked_out s' c0 → checked_out s c0.
Proof. intros Hd (ep & Hep & Hc). exists ep. split; [done|]. eapply taken_earlier; [by apply Hd|done]. Qed.

Lemma drawn_chore {A} (m : async Session A) : keeps chore m → keeps drawn m.
Proof. apply keeps_mono. by intros s s' (d & e & h & w & -> & _) ep _. Qed.
Lemma drawn_with_pool {A} k (m : async PoolWorld A) :
  (∀ w r w', m w = (r, w') → drains_only (pool w) (pool w')) → keeps drawn (with_pool k m).
Proof.
  intros Hm s r s'. unfold with_pool. destruct (s_pools s !! k) as [p|] eqn:Hk; [|by intros [= <- <-]].
  destruct (m _) as [x w] eqn:Hx. intros [= <- <-] ep _. apply Hm in Hx. simpl in Hx.
  unfold pool_for. simpl. destruct (decide (k = MkPoolKey (name cx_route) (id ep) cx_user cx_database)) as [->|].
  - by rewrite lookup_insert_eq, Hk.
  - by rewrite lookup_insert_ne.
Qed.
Lemma drawn_checkout k : keeps drawn (with_pool k checkout).
Proof. apply drawn_with_pool. apply drained_checkout. Qed.
Lemma drawn_destroy l : keeps drawn (destroy_lease l).
Proof. apply drawn_with_pool. by intros w r w' [= <- <-]. Qed.
Lemma drawn_conn {A} c (m : async PgWireClient A) : keeps drawn (on_conn c m).
Proof. intros s r s'. unfold on_conn. destruct (m c) as [[]]; by intros [= <- <-]. Qed.

(** Resolving an endpoint's pool gives that pool. *)
Lemma resolve_pool_for ep s k s' :
  endpoint cx_route (id ep) = Some ep → resolve_pool ep s = (Ready k, s') →
  drawn s s' ∧ s_pools s' !! k = Some (pool_for s ep).
Proof.
  intros Hep [= <- <-]. split.
  - intros ep' Hep'. unfold pool_for, get_or_create. simpl.
    destruct (decide (id ep' = id ep)) as [He|Hne].
    + rewrite He in Hep'. assert (ep' = ep) as -> by congruence. rewrite lookup_insert_eq.
      destruct (s_pools s !! MkPoolKey _ _ _ _) eqn:Hk; simpl; [by rewrite Hk|by rewrite lookup_insert_eq].
    + rewrite lookup_insert_ne by done.
      destruct (s_pools s !! MkPoolKey (name cx_route) (id ep) _ _) eqn:Hk; simpl; [done|].
      rewrite lookup_insert_ne by congruence. done.
  - unfold pool_for, get_or_create. simpl. destruct (s_pools s !! MkPoolKey _ _ _ _) eqn:Hk; simpl;
      [done|by rewrite lookup_insert_eq].
Qed.

#[local] Hint Resolve drawn_chore drawn_checkout drawn_destroy drawn_conn : keeps.
#[local] Hint Extern 1 (keeps drawn (modify _)) => solve [apply keeps_modify; done] : keeps.

Lemma drawn_prepare ep l : keeps drawn (prepare_lease ep l).
Proof. unfold prepare_lease, attempt_failed. keeps_tac. Qed.
#[local] Hint Resolve drawn_prepare : keeps.

Lemma drawn_attempt q : keeps drawn (attempt q).
Proof.
  unfold attempt. apply keeps_bind; [apply _|keeps_tac|]. intros i.
  destruct (endpoint cx_route i) as [ep|] eqn:Hep; [|unfold send_attach_fatal; keeps_tac].
  apply endpoint_Some in Hep as Hid. destruct Hid as [_ <-]. unfold attach_to, attempt_failed.
  apply keeps_bind; [apply _| |intros k; keeps_tac]. intros s [k|] s' H; [|done].
  by apply (resolve_pool_for ep s k s').
Qed.

Lemma attempt_carries q s r s' :
  attempt q s = (Ready r, s') →
  (r = Some true → ∃ c0, checked_out s c0 ∧ attached_with c0 s s') ∧ (r ≠ Some true → same_state s s').
Proof.
  unfold attempt. intros (i & s1 & Hu & H)%bind_ready_inv.
  apply (drawn_chore _ (chore_upstream _)) in Hu as Hdrawn. apply (state_chore _ (chore_upstream _)) in Hu.
  assert (same_state s1 s' → same_state s s') as Htr by (intros; by etrans).
  destruct Hu as (Hr1 & Hg1 & _).
  destruct (endpoint cx_route i) as [ep|] eqn:Hep.
  2: { apply bind_ready_inv in H as (? & s2 & Hf & [= <- <-]). split; [done|]. intros _. apply Htr.
       assert (keeps same_state (send_attach_fatal ("pgferry: unknown upstream endpoint " +:+ debug_str i)))
         as Hk by (unfold send_attach_fatal; keeps_tac). by eapply Hk. }
  unfold attach_to in H. apply bind_ready_inv in H as (k & s2 & Hk & H).
  apply bind_ready_inv in H as (r' & s3 & Hc & H).
  assert (same_state s1 s3) as Hs3.
  { etrans; [by eapply state_resolve|by eapply state_with_pool]. }
  destruct r' as [l|e].
  - apply prepare_carries in H as [Hyes Hno]. split; [|intros Hr; apply Htr; etrans; [done|by apply Hno]].
    intros Hr. destruct (Hyes Hr) as (Hr2 & Hg2 & Hl). exists (conn l). split.
    + apply endpoint_Some in Hep as Hid. destruct Hid as [_ <-].
      apply (checked_out_earlier _ _ _ Hdrawn). exists ep. split; [done|].
      apply resolve_pool_for in Hk as [_ Hk]; [|done]. unfold with_pool in Hc. rewrite Hk in Hc.
      destruct (checkout _) as [[]] eqn:Hco; simplify_eq. by apply checkout_taken in Hco.
    + destruct Hs3 as (Hr3 & Hg3 & _). split_and!; [congruence|congruence|done].
  - assert (keeps same_state (attempt_failed (Connect (id ep) (show_error e))
      ("pgferry: failed to connect to upstream: " +:+ show_error e))) as Hf by keeps_tac.
    split; [|intros _; apply Htr; etrans; [done|by eapply Hf]].
    intros ->. unfold attempt_failed in H. apply bind_ready_inv in H as (d & s4 & _ & H).
    destruct d; [done|]. by apply bind_ready_inv in H as (? & s5 & _ & ?).
Qed.

Lemma attempts_carry n q s s' :
  attempts_loop n q s = (Ready true, s') → ∃ c0, checked_out s c0 ∧ attached_with c0 s s'.
Proof.
  revert s. induction n as [|n IH]; intros s; simpl.
  { by intros (? & s1 & _ & ?)%bind_ready_inv. }
  intros (r & s1 & Ha & H)%bind_ready_inv. apply drawn_attempt in Ha as Hdrawn.
  apply attempt_carries in Ha as [Hyes Hno].
  destruct r as [b|].
  - injection H as -> ->. by apply Hyes.
  - apply IH in H as (c0 & Hc & Hr & Hg & Hl). destruct (Hno ltac:(done)) as (Hr1 & Hg1 & _).
    exists c0. split; [by eapply checked_out_earlier|]. split_and!; [congruence|congruence|done].
Qed.

(** C12: an attached connection carries the session.  When a detached session
    attaches, over however many failed attempts, its registry and overrides are
    as before, and its connection is one that was parked in the pool of one of
    its endpoints when the attach began (probed or not), or one such a pool's
    factory made.  Since then it was sent exactly a [Parse] of every
    registered statement and a [Sync] (nothing when there is none); every
    override was [SET] on it or already had that value after the startup
    parameters, and nothing but overrides was set; when anything was, the lease
    is marked for [DISCARD ALL]. *)
Theorem attach_carries_state q s s' :
  lease s = None → ensure_attached q s = (Ready true, s') →
  ∃ c0, checked_out s c0 ∧ attached_with c0 s s'.
Proof.
  intros Hl. unfold ensure_attached. rewrite (bind_ready _ _ _ None s) by (unfold gets; by rewrite Hl).
  apply attempts_carry.
Qed.

End Replay.

(** ** The reference server *)

#[global] Program Instance ref_traced : Traced ref_platform := {| seen := sent; ran := queries |}.
Next Obligation. intros m u c c'. simpl. unfold ref_send. destruct (dead c); intros; by simplify_eq. Qed.
Next Obligation. intros m u c c'. simpl. unfold ref_send. destruct (dead c); intros; by simplify_eq. Qed.
Next Obligation.
  intros r c c'. simpl. unfold ref_next. destruct (inbox c); [destruct (dead c)|]; intros; by simplify_eq.
Qed.
Next Obligation.
  intros q u c c'. simpl. unfold ref_simple_query. destruct (dead c); [done|].
  by repeat case_decide; intros [= _ <-].
Qed.
Next Obligation. done. Qed.
Next Obligation. done. Qed.
Next Obligation.
  intros n v n' u c c'. simpl. unfold ref_simple_query. destruct (dead c); [done|].
  repeat case_decide; try done; by intros [= _ <-].
Qed.
