(* ===== verification/Site.v ===== *)
(** * Sessions on shared pools

    The scatter executor keeps the flow invariant of [Isolation]; any number of
    sessions that come, run, scatter and end on the same pools, with the sweeper
    in between, never leave a response on a parked connection. *)

From S2P Require Import Prelude Wp RustStr Messages Config Upstream Reference Row Routing Intercept Pool PoolHygiene Session Attach Pump Chores ScatterLeg Scatter Neutral Isolation.

Section ScatterOwed.
Context `{P : Platform} {F : Fuel} {SL : ServerLaws P} {FL : FlowLaws P SL}.
Context {I : Interceptor} {X : SessionCtx} {Sch : Schedule}.

(** ** One leg *)

Lemma collect_loop_read n acc c q c' :
  col_broken acc = false → collect_loop n acc c = (Ready q, c') → col_broken q = false →
  cycle_read c c'.
Proof.
  revert acc c. induction n as [|n IH]; intros acc c Ha; simpl; [done|].
  intros (item & c1 & Hn & H)%bind_ready_inv Hq.
  destruct item as [[m|e]|]; [|by async_inv|by async_inv].
  destruct (ready_or_not m) as [[st ->]|Hm]; [async_inv; by eapply cycle_read_ready|].
  eapply cycle_read_other; [done|done|].
  destruct m; try (by apply IH in H); [|by destruct (Hm status)].
  async_inv. match goal with H : collect_loop _ _ _ = _ |- _ => apply IH in H; [|done|done] end.
  by eapply cycle_read_param.
Qed.

(** A query cycle over a calm connection leaves it calm, and outside a
    transaction if the statement does. *)
Lemma query_collect_calm sql c q c' :
  run_query_collect sql c = (Ready q, c') → owed c = 0 → unsynced c = false → col_broken q = false →
  owed c' = 0 ∧ unsynced c' = false ∧
  (self_contained sql → server_status c = Idle → server_status c' = Idle).
Proof.
  unfold run_query_collect. intros (r & c1 & Hs & H)%bind_ready_inv Hc Hu Hq.
  destruct r; [|by async_inv]. apply collect_loop_read in H as (Ho & Hu' & Hst); [|done|done].
  apply flow_send in Hs as Hf. simpl in Hf. destruct Hf as [Hf1 Hf2]. split; [lia|]. split.
  - rewrite Hu'. destruct (unsynced c1); [|done]. destruct (Hf2 eq_refl) as [?|[? _]]; congruence.
  - intros Hsc Hi. rewrite Hst. by eapply Hsc.
Qed.

Lemma query_collect_neutral sql c q c' :
  self_contained sql → run_query_collect sql c = (Ready q, c') → neutral c → col_broken q = false → neutral c'.
Proof.
  intros Hsc Hr (Ho & Hu & Hi) Hq. destruct (query_collect_calm _ _ _ _ Hr Ho Hu Hq) as (? & ? & Hx).
  split_and!; auto.
Qed.

Definition leg_ok (o : LegOutcome) : Prop := ∀ l, o_lease o = Some l → neutral (conn l).

Lemma wp_destroy b l s : settled b s → wp (destroy_lease l) (λ _, settled b) (settled b) s.
Proof.
  intros Hs. eapply wp_mono; [| |exact (wp_with_pool _ (lease_pool l) (on_pool destroy) (λ _, True) s
    (settled_pools b) Hs (proj1 (proj1 Hs)) destroy_ok)]; simpl; [|done]. by intros ? ? [? _].
Qed.

(** The connection a leg holds is neutral. *)
Definition phase_ok (ph : LegPhase) : Prop :=
  match ph with
  | LegProbing k => neutral (pk_conn k)
  | LegSyncing l | LegQuerying l => neutral (conn l)
  | _ => True
  end.

Definition polled_ok (p : Polled) : Prop :=
  match p with LegAwaits ph => phase_ok ph | LegDone o => leg_ok o end.

Lemma idle_pop_ok w :
  world_ok w →
  wp idle_pop (λ r w', world_ok w' ∧ match r with PopStale k | PopFresh k => neutral (pk_conn k) | _ => True end)
    world_ok w.
Proof.
  intros Hw. unfold idle_pop. apply wp_bind. unfold wp at 1.
  destruct (pop_idle (pool w)) as [[k p]|] eqn:Hpop; [|by apply wp_ret].
  unfold pop_idle in Hpop. destruct (vec_pop (idle (pool w))) as [[x r]|] eqn:Hv; simplify_eq.
  apply vec_pop_Some in Hv. destruct Hw as [Hidle Hfresh]. rewrite Hv in Hidle.
  apply Forall_app in Hidle as [Hr Hk]. rewrite Forall_singleton in Hk.
  apply wp_bind, in_env_ok; [|done]. intros now w2 Hw2. apply wp_bind, wp_gets.
  destruct (is_expired _ _ _); [by apply wp_bind, on_pool_ok|].
  apply wp_bind, in_env_ok; [|done]. intros now' w3 Hw3. apply wp_bind, wp_gets.
  destruct (is_stale _ _ _); [by apply wp_bind, on_pool_ok|by apply wp_ret].
Qed.

Lemma finish_ok c t w :
  neutral c → world_ok w → wp (finish c t) (λ l w', world_ok w' ∧ neutral (conn l)) world_ok w.
Proof. intros Hc Hw. unfold wp, finish, finish_checkout. simpl. by split. Qed.

Lemma syncing_ok c t w :
  neutral c → world_ok w →
  wp (l ← finish c t; mret (LegSyncing l)) (λ ph w', world_ok w' ∧ phase_ok ph) world_ok w.
Proof.
  intros Hc Hw. apply wp_bind. eapply wp_mono; [| |by apply finish_ok]; simpl; [|done].
  intros l w' Hl. by apply wp_ret.
Qed.

Lemma idle_round_ok w : world_ok w → wp idle_round (λ ph w', world_ok w' ∧ phase_ok ph) world_ok w.
Proof.
  intros Hw. unfold idle_round. apply wp_bind. eapply wp_mono; [| |by apply idle_pop_ok]; simpl; [|done].
  intros [| |k|k] w1 [Hw1 Hk]; [by apply wp_ret..|by apply syncing_ok].
Qed.

Lemma probe_round_ok k w :
  neutral (pk_conn k) → world_ok w → wp (probe_round k) (λ ph w', world_ok w' ∧ phase_ok ph) world_ok w.
Proof.
  intros Hk Hw. unfold probe_round. apply wp_bind, on_conn_ok. unfold wp at 1.
  destruct (probe (pk_conn k)) as [[[[]|e]|] c'] eqn:Hp; [| |done].
  - apply syncing_ok; [by eapply probe_neutral|done].
  - by apply wp_bind, on_pool_ok.
Qed.

Lemma connect_round_ok w :
  world_ok w →
  wp connect_round (λ r w', world_ok w' ∧ match r with Ok l => neutral (conn l) | _ => True end) world_ok w.
Proof.
  intros Hw. unfold connect_round. apply wp_bind, wp_gets, wp_bind. unfold wp at 1, in_env, zoom.
  destruct (p_connect (pool w) (env w)) as [[[c|e]|] e'] eqn:Hcn; [| |done].
  - apply wp_bind, on_pool_ok; [done| |done]. intros w2 Hw2.
    apply wp_bind, in_env_ok; [|done]. intros now w3 Hw3. apply wp_bind.
    eapply wp_mono; [| |apply finish_ok; [by eapply (proj2 Hw)|done]]; simpl; [|done].
    intros l w4 Hl. by apply wp_ret.
  - apply wp_bind, on_pool_ok; [done| |done]. intros w2 Hw2.
    apply wp_bind, on_pool_ok; [done| |done]. intros w3 Hw3. by apply wp_ret.
Qed.

Lemma wp_pool_round {A} b k (m : async PoolWorld A) (Φ : A → Prop) (f : A → async Session Polled) s :
  (∀ w, world_ok w → wp m (λ a w', world_ok w' ∧ Φ a) world_ok w) →
  (∀ a s, Φ a → settled b s → wp (f a) (λ p s', settled b s' ∧ polled_ok p) (settled b) s) →
  settled b s → wp (a ← with_pool k m; f a) (λ p s', settled b s' ∧ polled_ok p) (settled b) s.
Proof.
  intros Hm Hf Hs. apply wp_bind. eapply wp_mono; [| |exact (wp_with_pool _ k m Φ s
    (settled_pools b) Hs (proj1 (proj1 Hs)) Hm)]; simpl; [|done].
  intros a s' [Hs' Ha]. by apply Hf.
Qed.

Lemma sync_round_ok b leg l s :
  neutral (conn l) → settled b s →
  wp (sync_round leg l) (λ p s', settled b s' ∧ polled_ok p) (settled b) s.
Proof.
  intros Hl Hs. unfold sync_round. apply wp_bind, on_conn_ok. unfold wp at 1.
  destruct (sync_startup_parameters _ (conn l)) as [[[u|e]|] c] eqn:Hsy; [| |done].
  - apply wp_ret. split; [done|]. simpl. by eapply sync_neutral.
  - apply wp_bind. eapply wp_mono; [| |by apply wp_destroy]; simpl; [|done].
    intros _ s' Hs'. by apply wp_ret.
Qed.

Lemma query_round_ok b leg l s :
  self_contained (leg_sql leg) → neutral (conn l) → settled b s →
  wp (query_round leg l) (λ p s', settled b s' ∧ polled_ok p) (settled b) s.
Proof.
  intros Hsc Hl Hs. unfold query_round. apply wp_bind, on_conn_ok. unfold wp at 1.
  destruct (run_query_collect (leg_sql leg) (conn l)) as [[q|] c'] eqn:Hq; [|done].
  destruct (col_broken q) eqn:Hb.
  - apply wp_bind. eapply wp_mono; [| |by apply wp_destroy]; simpl; [|done].
    intros _ s' Hs'. by apply wp_ret.
  - apply wp_ret. split; [done|]. intros l' [= <-]. simpl. by eapply query_collect_neutral.
Qed.

Lemma leg_round_ok b leg k ph s :
  self_contained (leg_sql leg) → phase_ok ph → settled b s →
  wp (leg_round leg k ph) (λ p s', settled b s' ∧ polled_ok p) (settled b) s.
Proof.
  intros Hsc Hph Hs. destruct ph as [| | |c| |l|l|l]; simpl in *.
  - apply (wp_pool_round _ _ _ (λ _, True)); [| |done].
    + intros w Hw. by apply on_pool_ok.
    + intros _ s' _ Hs'. by apply wp_ret.
  - apply (wp_pool_round _ _ _ (λ _, True)); [| |done].
    + intros w Hw. unfold wp, acquire, grant. by destruct (permits (pool w)).
    + intros _ s' _ Hs'. by apply wp_ret.
  - apply (wp_pool_round _ _ _ phase_ok); [apply idle_round_ok| |done]. intros ph s' Hp Hs'. by apply wp_ret.
  - apply (wp_pool_round _ _ _ phase_ok); [by intros w; apply probe_round_ok| |done]. intros ph s' Hp Hs'. by apply wp_ret.
  - apply (wp_pool_round _ _ _ (λ r, match r with Ok l => neutral (conn l) | Err _ => True end));
      [apply connect_round_ok| |done]. intros [l|e] s' Hr Hs'; by apply wp_ret.
  - by apply sync_round_ok.
  - by apply query_round_ok.
  - by apply wp_never.
Qed.

Lemma poll_leg_ok b leg k ph s :
  self_contained (leg_sql leg) → phase_ok ph → settled b s →
  settled b (poll_leg leg k ph s).2 ∧ polled_ok (poll_leg leg k ph s).1.
Proof.
  intros Hsc Hph Hs. pose proof (leg_round_ok b leg k ph s Hsc Hph Hs) as Hr. unfold poll_leg.
  unfold wp in Hr. destruct (leg_round leg k ph s) as [[p|] s']; [done|]. split; [done|]. by destruct ph.
Qed.

(** ** All legs *)

Lemma release_ok w : world_ok w → wp drop_admitted (λ a w', world_ok w' ∧ True) world_ok w.
Proof. intros Hw. by apply on_pool_ok. Qed.

Lemma settled_drop_lease b o : preserves (settled b) (λ _, True) (drop_lease o).
Proof. unfold drop_lease. destruct o; [apply settled_with_pool, release_ok|preserves_tac]. Qed.

Lemma settled_drop_running b r : preserves (settled b) (λ _, True) (drop_running r).
Proof.
  unfold drop_running, drop_leg. pose proof (settled_with_pool b r.1.2 _ _ release_ok).
  destruct r.2 as [| | | | |l|l|[l|]]; preserves_tac; apply settled_drop_lease.
Qed.

Lemma settled_return b o : leg_ok o → preserves (settled b) (λ _, True) (return_lease o).
Proof.
  intros Ho. unfold return_lease. destruct (o_lease o) as [l|] eqn:Hl; [|preserves_tac].
  apply settled_with_pool. intros w Hw. eapply wp_mono; [| |apply detached_ok; [by apply Ho|done]]; auto.
Qed.

Lemma preserves_each {A} J (f : A → async Session unit) l :
  Forall (λ a, preserves J (λ _, True) (f a)) l → preserves J (λ _, True) (each f l).
Proof.
  induction 1 as [|a l Ha _ IH]; simpl; [by apply preserves_ret|].
  by apply (preserves_bind _ (λ _, True)).
Qed.

Lemma each_drop_running b l : preserves (settled b) (λ _, True) (each drop_running l).
Proof. apply preserves_each, Forall_true, settled_drop_running. Qed.
Lemma each_drop_lease b l : preserves (settled b) (λ _, True) (each drop_lease l).
Proof. apply preserves_each, Forall_true, settled_drop_lease. Qed.
Lemma each_return b l : Forall leg_ok l → preserves (settled b) (λ _, True) (each return_lease l).
Proof. intros Hl. apply preserves_each. eapply Forall_impl; [exact Hl|]. apply settled_return. Qed.
#[local] Hint Resolve each_drop_running each_drop_lease each_return settled_drop_lease : preserves.

(** A leg in the stream: its statement and its connection. *)
Definition running_ok (r : Running) : Prop := self_contained (leg_sql r.1.1) ∧ phase_ok r.2.

Lemma settled_collect b turns legs os :
  Forall running_ok legs → Forall leg_ok os →
  preserves (settled b) (λ r, Forall leg_ok r.2) (collect_legs turns legs os).
Proof.
  intros Hl Hd s Hs.
  apply (wp_collect (λ ls os s, settled b s ∧ Forall running_ok ls ∧ Forall leg_ok os));
    [|naive_solver|done]. clear - FL. intros l1 leg k ph l2 os s (Hs & Hls & Ho).
  apply Forall_app in Hls as [H1 [[Hsc Hph] H2]%Forall_cons]. simpl in Hsc, Hph.
  destruct (poll_leg_ok b leg k ph s Hsc Hph Hs) as [Hs' Hp]. destruct (poll_leg leg k ph s) as [[ph'|o] s'].
  - split; [done|]. split; [|done]. apply Forall_app. split; [done|]. by constructor.
  - destruct (leg_failed o).
    + apply wp_bind. eapply wp_mono; [| |by apply settled_drop_lease]; simpl; [|done].
      intros _ s1 [Hs1 _]. eapply wp_mono; [| |by apply each_drop_running]; simpl; [|done]. naive_solver.
    + split; [done|]. split; [by apply Forall_app|]. apply Forall_app. by rewrite Forall_singleton.
Qed.

Lemma settled_resolve_all b legs pools : preserves (settled b) (λ _, True) (resolve_all legs pools).
Proof. revert pools. induction legs as [|leg legs IH]; intros pools; simpl; preserves_tac. Qed.

(** ** The merge *)

Definition lease_kept {A} (r : result ScatterFailure A) : Prop :=
  ∀ f, r = Err f → session_lease_broken f = false.

Lemma settled_merge_send b ms : preserves (settled b) lease_kept (merge_send ms).
Proof.
  induction ms as [|m ms IH]; simpl; [by apply preserves_ret|].
  apply (preserves_bind _ (λ _, True)); [preserves_tac|intros r _].
  destruct r; [done|]. apply preserves_ret. by intros f [= <-].
Qed.

Lemma settled_finish b request own done :
  Forall leg_ok done → preserves (settled b) lease_kept (finish_scatter request own done).
Proof.
  intros Hd. unfold finish_scatter. apply (preserves_bind _ lease_kept).
  { unfold merge_write. destruct (merge request); [apply settled_merge_send|].
    destruct (sum_messages _ _ _); [apply preserves_never| |apply settled_merge_send].
    apply preserves_ret. by intros f [= <-]. }
  intros [u|f] Hf; (apply (preserves_bind _ (λ _, True)); [eauto with preserves|intros _ _]); apply preserves_ret.
  - by intros g.
  - intros g [= <-]. by apply Hf.
Qed.

(** ** The executor *)

(** The leg on the session's own lease, which is calm before it. *)
Lemma session_leg_ok own s :
  settled Calm s →
  wp (run_session_leg own) (λ r s', match r with Ok _ => settled Calm s' | Err f => pools_ok s' ∧ session_lease_broken f = true end)
    (λ _, True) s.
Proof.
  intros Hs. unfold run_session_leg. destruct own as [leg|]; [|by apply wp_ret].
  apply wp_bind, wp_on_lease. intros l q c Hl Hq.
  destruct (col_broken q) eqn:Hb; apply wp_ret; [split; [apply Hs|done]|].
  split; [apply Hs|]. intros l' [= <-]. simpl. destruct Hs as [_ Hs]. destruct (Hs l Hl) as [Ho Hu].
  by destruct (query_collect_calm _ _ _ _ Hq Ho Hu Hb) as (? & ? & _).
Qed.

Lemma partition_legs_rest own legs rest session_leg :
  partition_legs own legs = (session_leg, rest) → rest ⊆ legs.
Proof.
  revert session_leg rest. induction legs as [|leg legs IH]; intros session_leg rest; simpl.
  - by intros [= <- <-].
  - destruct (own leg); [intros [= <- <-]; set_solver|].
    destruct (partition_legs own legs) as [o r]. intros [= <- <-]. specialize (IH o r eq_refl). set_solver.
Qed.

#[global] Instance execute_scatter_flow : ScatterFlow.
Proof.
  intros request s Hlegs Hs. unfold execute_scatter, execute_scatter_impl.
  destruct (List.find _ _); [by apply wp_ret|].
  assert (∀ (m : async Session (result ScatterFailure Z)) s,
    preserves (settled Calm) lease_kept m → settled Calm s → wp m after_scatter (λ _, True) s) as Hgo.
  { clear - FL. intros m s Hm Hs. eapply wp_mono; [| |by apply Hm]; simpl; [|done].
    intros [z|f] s' [Hs' Hk]; [done|]. unfold after_scatter. by rewrite (Hk f eq_refl). }
  apply wp_bind. eapply wp_mono; [| |by apply settled_resolve_all]; simpl; [|done].
  clear s Hs. intros pools s [Hs _]. apply wp_bind, wp_gets.
  destruct (partition_legs _ _) as [session_leg rest] eqn:Hpart. apply partition_legs_rest in Hpart.
  apply wp_bind, wp_gets, wp_bind.
  eapply wp_mono; [| |apply settled_collect; [|done|exact Hs]]; simpl; [|done|].
  2: { apply Forall_fmap, Forall_forall. intros leg Hleg. split; [|done]. simpl.
       rewrite Forall_forall in Hlegs. by apply Hlegs, Hpart. }
  clear s Hs. intros [first_error done] s [Hs Hd]. simpl in Hd. destruct first_error as [e|].
  { apply Hgo; [|done]. apply (preserves_bind _ (λ _, True)); [eauto with preserves|intros _ _].
    apply preserves_ret. by intros f [= <-]. }
  apply wp_bind. eapply wp_mono; [| |by apply session_leg_ok]; simpl; [|done].
  clear s Hs. intros [own|f] s Hs.
  - destruct (own ≫= col_error); [|by apply Hgo; [apply settled_finish|]].
    apply Hgo; [|done]. apply (preserves_bind _ (λ _, True)); [eauto with preserves|intros _ _].
    apply preserves_ret. by intros f [= <-].
  - destruct Hs as [Hp Hb]. apply wp_bind.
    eapply wp_mono; [| |apply (preserves_each pools_ok)]; simpl.
    + intros _ s' [Hs' _]. apply wp_ret. unfold after_scatter. by rewrite Hb.
    + done.
    + apply Forall_true. intros o. unfold drop_lease. destruct o; [|by apply preserves_ret].
      apply pools_with_pool, release_ok.
    + done.
Qed.

End ScatterOwed.

(** ** The site *)

Section Site.
Context `{P : Platform} {F : Fuel} {SL : ServerLaws P} {FL : FlowLaws P SL}.
Context {I : Interceptor} {HF : HookFlow} {Sch : Schedule}.

(** The pools and the sessions that run on them, each with its own context
    (user, database, route). *)
Record Site := MkSite {
  site_pools : gmap PoolKey PoolInner;
  site_sessions : list (SessionCtx * Session)
}.

(** A session with the pools as they are now. *)
Definition seeing (pools : gmap PoolKey PoolInner) (s : Session) : Session := s <| s_pools := pools |>.

(** A session without a connection yet. *)
Definition newcomer (d : Downstream) (e : Env) (h : option SessionHooks) : Session :=
  pump_init (X := MkSessionCtx (MkRouteConfig EmptyString [] None (MkUpstreamTlsConfig None false))
    PoolConfig_default EmptyString None ∅ false) d e ∅ None h false.

(** What is asked of the sessions: with which context they start, which event
    they may get, and how they may be left. *)
Record Manners := MkManners {
  starts : SessionCtx → Prop;
  moves : Event → Session → Prop;
  leaves : Session → Prop
}.

(** One session moves at a time: it starts, attaches or probes for its startup
    parameters, handles an event, ends, or is dropped with its lease; or the
    sweeper makes a round. *)
Inductive site_step (M : Manners) : Site → Site → Prop :=
| site_start pools ss x d e h :
    starts M x →
    site_step M (MkSite pools ss) (MkSite pools (ss ++ [(x, newcomer d e h)]))
| site_attach pools ss i x s q b s' :
    ss !! i = Some (x, s) → ensure_attached (X := x) q (seeing pools s) = (Ready b, s') →
    site_step M (MkSite pools ss) (MkSite (s_pools s') (<[i := (x, s')]> ss))
| site_baseline pools ss i x s r s' :
    ss !! i = Some (x, s) → baseline_params_routed (X := x) (seeing pools s) = (Ready r, s') →
    site_step M (MkSite pools ss) (MkSite (s_pools s') (<[i := (x, s')]> ss))
| site_event pools ss i x s ev s' :
    ss !! i = Some (x, s) → moves M ev s →
    on_event (X := x) ev (seeing pools s) = (Ready Continue, s') →
    site_step M (MkSite pools ss) (MkSite (s_pools s') (<[i := (x, s')]> ss))
| site_end pools ss i x s ev e s1 s2 :
    ss !! i = Some (x, s) → moves M ev s →
    on_event (X := x) ev (seeing pools s) = (Ready (Break e), s1) →
    leaves M s1 →
    session_end e s1 = (Ready (), s2) →
    site_step M (MkSite pools ss) (MkSite (s_pools s2) (delete i ss))
| site_drop pools ss i x s s' :
    ss !! i = Some (x, s) → drop_lease (lease s) (seeing pools s) = (Ready (), s') →
    site_step M (MkSite pools ss) (MkSite (s_pools s') (delete i ss))
| site_sweep pools ss now : site_step M (MkSite pools ss) (MkSite (sweep_all now pools) ss).

(** Clients that are as patient as their messages need, and servers that end a
    cancelled cycle within the drain window. *)
Definition patient : Manners :=
  MkManners (λ _, True) paced (λ s, ∀ l, lease s = Some l → drains_in_time (hygiene s) (conn l)).

Definition session_ok (s : Session) : Prop :=
  map_Forall (λ _, fresh) (factories s) ∧ lease_holds Loose s.

Definition site_ok (st : Site) : Prop :=
  map_Forall (λ _, pool_ok) (site_pools st) ∧ Forall (λ xs, session_ok xs.2) (site_sessions st).

Lemma seeing_settled pools ss i x s :
  site_ok (MkSite pools ss) → ss !! i = Some (x, s) → settled Loose (seeing pools s).
Proof.
  intros [Hp Hs] Hi. destruct (Forall_lookup_1 _ _ _ _ Hs Hi) as [Hf Hl]. by split.
Qed.

Lemma settled_site pools ss i x s' :
  site_ok (MkSite pools ss) → settled Loose s' → site_ok (MkSite (s_pools s') (<[i := (x, s')]> ss)).
Proof.
  intros [_ Hs] [[Hp Hf] Hl]. split; [done|]. apply Forall_insert; [done|]. by split.
Qed.

Lemma Forall_delete {A} (Q : A → Prop) i l : Forall Q l → Forall Q (delete i l).
Proof.
  intros Hl. apply Forall_forall. intros y Hy. rewrite list_elem_of_lookup in Hy.
  destruct Hy as [j Hj]. rewrite list_lookup_delete in Hj.
  case_match; (eapply Forall_lookup_1; [exact Hl|exact Hj]).
Qed.

Lemma gone_site pools ss i s' :
  site_ok (MkSite pools ss) → pools_ok s' → site_ok (MkSite (s_pools s') (delete i ss)).
Proof. intros [_ Hs] [Hp _]. split; [done|]. by apply Forall_delete. Qed.

Lemma sweep_ok now p : pool_ok p → pool_ok (sweep now p).
Proof.
  intros [Hi Hf]. unfold sweep. apply (Forall_kept _ (λ k, negb (swept now (p_config p) k))) in Hi.
  case_bool_decide; by split.
Qed.

(** The probe for startup parameters gives a connection back as quiet as it
    got it. *)
Lemma baseline_ok w : world_ok w → wp baseline_params (λ _ w', world_ok w' ∧ True) world_ok w.
Proof.
  intros Hw. unfold baseline_params. apply wp_bind, wp_gets.
  destruct (p_baseline (pool w)); [by apply wp_ret|]. apply wp_try_bind.
  eapply wp_mono; [| |by apply checkout_ok]; simpl; [|done].
  intros [l|e] w1 [Hw1 Hl]; [|done]. apply wp_bind.
  eapply wp_mono; [| |apply checkin_ok]; simpl; [|done| |done].
  - intros _ w2 Hw2. by apply wp_ret.
  - intros c Hs. eapply sanitized_unused; [exact Hs|by apply Hl].
Qed.

Lemma settled_baseline (x : SessionCtx) b : preserves (settled b) (λ _, True) baseline_params_routed.
Proof.
  pose proof (λ k, settled_with_pool b k _ _ baseline_ok). unfold baseline_params_routed.
  generalize attempts. intros n. induction n as [|n IH]; simpl; preserves_tac.
Qed.

Lemma newcomer_ok d e h : session_ok (newcomer d e h).
Proof. split; [apply map_Forall_empty|]. by intros l. Qed.

Lemma site_step_ok st st' : site_step patient st st' → site_ok st → site_ok st'.
Proof.
  destruct 1 as [pools ss x d e h _|pools ss i x s q b s' Hi Hs|pools ss i x s r s' Hi Hs|
    pools ss i x s ev s' Hi Hpc Hs|pools ss i x s ev e s1 s2 Hi Hpc Hs Hd He|
    pools ss i x s s' Hi Hs|pools ss now]; intros Hok.
  - destruct Hok as [Hp Hss]. split; [done|]. apply Forall_app. split; [done|].
    apply Forall_singleton, newcomer_ok.
  - eapply settled_site; [done|]. eapply (wp_run _ _ _ _ _ _ (settled_ensure Loose q _ (seeing_settled _ _ _ _ _ Hok Hi)) Hs).
  - eapply settled_site; [done|]. eapply (wp_run _ _ _ _ _ _ (settled_baseline x Loose _ (seeing_settled _ _ _ _ _ Hok Hi)) Hs).
  - eapply settled_site; [done|]. refine (wp_run _ _ _ _ _ _ (on_event_ok ev _ _ (seeing_settled _ _ _ _ _ Hok Hi)) Hs).
    exact Hpc.
  - eapply gone_site; [done|].
    assert (settled Loose s1) as Hs1.
    { refine (wp_run _ _ _ _ _ _ (on_event_ok ev _ _ (seeing_settled _ _ _ _ _ Hok Hi)) Hs). exact Hpc. }
    exact (wp_run _ _ _ _ _ _ (session_end_ok e s1 Hs1 Hd) He).
  - eapply gone_site; [done|].
    pose proof (wp_run _ _ _ _ _ _ (settled_drop_lease Loose (lease s) _ (seeing_settled _ _ _ _ _ Hok Hi)) Hs)
      as [[Hp _] _]. exact Hp.
  - destruct Hok as [Hp Hss]. split; [|done]. simpl. intros k p. unfold sweep_all.
    rewrite map_lookup_imap. intros (p0 & Hp0 & [= <-])%bind_Some. apply sweep_ok. by eapply Hp.
Qed.

(** C2: nothing leaks between clients: on pools shared by any number of
    sessions, with attaches, scatters, failovers, cancels, session ends and
    sweeps in any order, every parked connection is neutral (it has delivered
    all it owed, no batch of the extended protocol is open on it and the server
    is outside a transaction), a leased one owes at most the one cycle its
    session has noted, and a checkout from any pool gives a neutral connection.
    Assumed: a client does not send what opens or ends a batch before the
    response to its last one, nor a query over an open batch ([patient]); a
    cancelled cycle ends within the drain window ([patient]); and of the
    interceptor, whose raw hooks may otherwise do anything ([HookFlow]): a
    message that [on_frontend] forwards asks for no more quiet than the one it
    was given, so that it turns nothing into a query, a [Sync] or part of a
    batch that was not, a message that [on_backend] forwards is a
    [ReadyForQuery] only where the server sent one, and the statements of the
    scatters [on_query] asks for leave no transaction behind.  An interceptor
    that makes up a [ReadyForQuery] has connections parked with their response
    unread.  Of the server: it answers as the protocol says ([ServerLaws],
    [FlowLaws]). *)
Theorem responses_do_not_leak pools st :
  map_Forall (λ _, pool_ok) pools → rtc (site_step patient) (MkSite pools []) st →
  (∀ k p parked, site_pools st !! k = Some p → parked ∈ idle p → neutral (pk_conn parked)) ∧
  (∀ i x s l, site_sessions st !! i = Some (x, s) → lease s = Some l →
     owed (conn l) ≤ noted s ∧ (unsynced (conn l) = true → owed (conn l) = 0)) ∧
  (∀ k p e l w, site_pools st !! k = Some p →
     checkout (MkPoolWorld p e) = (Ready (Ok l), w) → neutral (conn l)).
Proof.
  intros Hp Hst. assert (site_ok st) as [Hpools Hss].
  { assert (site_ok (MkSite pools [])) as H0 by (by split).
    revert H0. induction Hst; eauto using site_step_ok. }
  split_and!.
  - intros k p parked Hk Hin. destruct (Hpools _ _ Hk) as [Hi _].
    rewrite Forall_forall in Hi. by apply Hi.
  - intros i x s l Hi Hl. destruct (Forall_lookup_1 _ _ _ _ Hss Hi) as [_ Ho]. by apply Ho.
  - intros k p e l w Hk Hc. eapply (wp_run _ _ _ _ _ _ (checkout_ok (MkPoolWorld p e) (Hpools _ _ Hk)) Hc).
    done.
Qed.

End Site.

(** ** The assumptions can hold *)

(** A batch is open from its first message to the [Sync]. *)
Fixpoint open_batch (b : bool) (l : list PgWireFrontendMessage) : bool :=
  match l with
  | [] => b
  | FSync :: l => open_batch false l
  | m :: l => open_batch (b || batches m) l
  end.

Definition ref_unsynced (c : RefConn) : bool := negb (dead c) && open_batch false (sent c).

Lemma open_batch_app b l1 l2 : open_batch b (l1 ++ l2) = open_batch (open_batch b l1) l2.
Proof. revert b. induction l1 as [|m l1 IH]; intros b; simpl; [done|]. destruct m; apply IH. Qed.

Lemma last_status_app l1 l2 :
  last_status (l1 ++ l2) = match last_status l2 with Some st => Some st | None => last_status l1 end.
Proof.
  induction l1 as [|x l1 IH]; simpl; [by destruct (last_status l2)|].
  rewrite IH. by destruct (last_status l2), (last_status l1).
Qed.

Lemma ref_send_flow m r c c' :
  ref_send m c = (Ready r, c') →
  ref_owed c' ≤ ref_owed c + (if ends_cycle m then 1 else 0) ∧
  (ref_unsynced c' = true → batches m = true ∨ (ref_unsynced c = true ∧ m ≠ FSync)).
Proof.
  unfold ref_send, ref_unsynced, ref_owed. destruct (dead c) eqn:Hd; intros [= _ <-]; simpl; rewrite Hd.
  { split; [lia|done]. }
  rewrite List.filter_app, length_app, open_batch_app. simpl. split; [destruct m; simpl; lia|].
  destruct m; simpl; rewrite ?orb_false_r; auto.
Qed.

Lemma ref_send_status m r c c' :
  ref_send m c = (Ready r, c') → last_status (Ok <$> react (ref_server_status c) m) = None ∨ m = FSync →
  ref_server_status c' = ref_server_status c.
Proof.
  unfold ref_send. destruct (dead c); intros [= _ <-]; [done|]. intros Hm.
  unfold ref_server_status. simpl. rewrite last_status_app.
  destruct m; simpl in *; try done; by destruct Hm.
Qed.

Lemma ref_next_flow r c c' :
  ref_next c = (Ready r, c') → ref_unsynced c' = ref_unsynced c ∧ ref_server_status c' = ref_server_status c.
Proof.
  unfold ref_next. destruct (inbox c) as [|x rest] eqn:Hi.
  { destruct (dead c) eqn:Hd; [|done]. by intros [= _ <-]. }
  intros [= _ <-]. split; [done|]. unfold ref_server_status. simpl. rewrite Hi. simpl.
  destruct (last_status rest); [done|]. by destruct x as [[]|].
Qed.

Lemma no_ready_no_status l : length (List.filter is_ready l) = 0 → last_status l = None.
Proof.
  induction l as [|x l IH]; simpl; [done|]. destruct (is_ready x) eqn:Hx; simpl; [done|].
  intros ->%IH. by destruct x as [[]|].
Qed.

#[global] Instance ref_flow : FlowLaws ref_platform ref_server.
Proof.
  refine {| unsynced := ref_unsynced : PgWireClient → bool; server_status := ref_server_status |};
    try exact ref_send_flow; try exact ref_next_flow; simpl.
  - intros r c c' Hs. apply ref_send_status in Hs; auto.
  - intros n q o r c c' Hs. apply ref_send_status in Hs; auto.
  - intros r c c'. unfold ref_next, ref_owed. destruct (inbox c) as [|[m|e] rest] eqn:Hi.
    + destruct (dead c); [|done]. intros [= <- <-] _. by rewrite Hi.
    + intros [= <- <-] Hm. by destruct (Hm m).
    + intros [= <- <-] _. simpl. lia.
  - intros st c c'. unfold ref_next. destruct (inbox c) as [|x rest] eqn:Hi; [by destruct (dead c)|].
    intros [= -> <-]. unfold ref_owed, ref_server_status. simpl. rewrite Hi. simpl.
    intros Ho _. by rewrite no_ready_no_status.
  - by intros r c c' [= _ <-].
  - intros q c c'. unfold ref_simple_query, ref_unsynced. destruct (dead c) eqn:Hd; [done|].
    by repeat case_decide; intros [= <-]; simpl; rewrite Hd.
  - intros n v c c'. unfold ref_simple_query. destruct (dead c); [done|].
    repeat case_decide; try done; by intros [= <-].
  - intros c c'. unfold ref_simple_query. destruct (dead c); [done|].
    destruct (decide (ref_server_status c = Idle)) as [Hi|Hi]; [|by rewrite decide_True].
    rewrite decide_False by tauto. by intros [= <-].
  - done.
  - done.
  - intros config _ e c e'. unfold ref_connect. destruct (outcomes e) as [|[c0|x] rest].
    + case_decide; [done|]. by intros [= <- _].
    + intros [= <- _]. unfold ref_owed, ref_unsynced. simpl. by rewrite andb_false_r.
    + done.
Defined.

#[global] Instance noop_flow `{P : Platform} {SL : ServerLaws P} {FL : FlowLaws P SL} :
  HookFlow (I := NoopInterceptor).
Proof. by constructor; intros m st m' st'; [intros [= <- _]..|]. Qed.
