(* ===== verification/SiteOwnership.v ===== *)
(** * Sessions keep to their own connections

    [Ownership] for the sessions of a proxy together: on pools shared by
    sessions of any users and databases, whoever comes and goes, a connection
    that a session holds, or that is parked in a pool, was opened with the user
    and database it is kept under.  Nothing is asked of clients or servers. *)

From S2P Require Import Prelude Wp RustStr Messages Config Upstream Row Routing Intercept Pool Session Attach Pump Chores ScatterLeg Scatter Ownership Site.

Section SiteOwnership.
Context `{P : Platform} {F : Fuel} {I : Interceptor} {Sch : Schedule}.
Context (r : RouteConfig).

(** All sessions are of the proxy's route. *)
Definition on_route : Manners := MkManners (λ x, cx_route (SessionCtx := x) = r) (λ _ _, True) (λ _, True).

(** A session of the site, with the pools as they are. *)
Definition session_own (pools : gmap PoolKey PoolInner) (x : SessionCtx) (s : Session) : Prop :=
  cx_route (SessionCtx := x) = r ∧ well_typed (X := x) (seeing pools s).

Definition site_own (st : Site) : Prop :=
  map_Forall (pool_own r) (site_pools st) ∧
  Forall (λ xs, session_own (site_pools st) xs.1 xs.2) (site_sessions st).

(** The pools after a session moved are good for the others. *)
Lemma session_own_mono pools pools' x s :
  map_Forall (pool_own r) pools' → (∀ k, is_Some (pools !! k) → is_Some (pools' !! k)) →
  session_own pools x s → session_own pools' x s.
Proof.
  intros Hp Hm [<- Hty]. split; [done|]. pose proof (ty_lease _ _ _ _ Hty) as Hlease. simpl in Hlease.
  destruct Hty. split; simpl; try done. intros l Hl. destruct (Hlease l Hl). auto.
Qed.

Lemma sessions_own_mono pools pools' ss :
  map_Forall (pool_own r) pools' → (∀ k, is_Some (pools !! k) → is_Some (pools' !! k)) →
  Forall (λ xs, session_own pools xs.1 xs.2) ss → Forall (λ xs, session_own pools' xs.1 xs.2) ss.
Proof. intros Hp Hm Hss. eapply Forall_impl; [exact Hss|]. intros [x s]. by apply session_own_mono. Qed.

(** The pools a session sees, for its own invariant. *)
Definition kept (pools : gmap PoolKey PoolInner) (k : PoolKey) : Prop := is_Some (pools !! k).

Lemma seeing_typed pools ss i x s :
  site_own (MkSite pools ss) → ss !! i = Some (x, s) →
  cx_route (SessionCtx := x) = r ∧ typed (X := x) pools (kept pools) true (seeing pools s).
Proof.
  intros [_ Hss] Hi. destruct (Forall_lookup_1 _ _ _ _ Hss Hi) as [Hr Hty]. split; [done|].
  destruct Hty. by split.
Qed.

Lemma moved_own pools ss i x strict s' :
  site_own (MkSite pools ss) → cx_route (SessionCtx := x) = r →
  typed (X := x) pools (kept pools) strict s' →
  map_Forall (pool_own r) (s_pools s') ∧ Forall (λ xs, session_own (s_pools s') xs.1 xs.2) ss ∧
  (strict = true → site_own (MkSite (s_pools s') (<[i := (x, s')]> ss))).
Proof.
  intros [_ Hss] Hr Hty. assert (map_Forall (pool_own r) (s_pools s')) as Hp
    by (rewrite <-Hr; apply (ty_pools _ _ _ _ Hty)).
  assert (Forall (λ xs, session_own (s_pools s') xs.1 xs.2) ss) as Hss'.
  { eapply sessions_own_mono; [done| |exact Hss]. apply (ty_present _ _ _ _ Hty). }
  split; [done|]. split; [done|]. intros ->. split; [done|]. apply Forall_insert; [done|].
  split; [done|]. destruct Hty. by split.
Qed.

Lemma newcomer_own pools x d e h :
  map_Forall (pool_own r) pools → cx_route (SessionCtx := x) = r → session_own pools x (newcomer d e h).
Proof.
  intros Hp Hr. split; [done|]. split; simpl; try done. by rewrite Hr.
Qed.

Lemma own_step st st' : site_step on_route st st' → site_own st → site_own st'.
Proof.
  destruct 1 as [pools ss x d e h Hx|pools ss i x s q b s' Hi Hs|pools ss i x s v s' Hi Hs|
    pools ss i x s ev s' Hi _ Hs|pools ss i x s ev e s1 s2 Hi _ Hs _ He|
    pools ss i x s s' Hi Hs|pools ss now]; intros Hok.
  - destruct Hok as [Hp Hss]. split; [done|]. apply Forall_app. split; [done|].
    apply Forall_singleton. by apply newcomer_own.
  - destruct (seeing_typed _ _ _ _ _ Hok Hi) as [Hr Hty]. eapply moved_own; [done..| |done].
    exact (proj1 (wp_run _ _ _ _ _ _ (typed_ensure pools _ true q _ Hty) Hs)).
  - destruct (seeing_typed _ _ _ _ _ Hok Hi) as [Hr Hty]. eapply moved_own; [done..| |done].
    exact (proj1 (wp_run _ _ _ _ _ _ (typed_baseline pools _ true _ Hty) Hs)).
  - destruct (seeing_typed _ _ _ _ _ Hok Hi) as [Hr Hty]. eapply moved_own; [done..| |done].
    exact (proj1 (wp_run _ _ _ _ _ _ (typed_on_event pools _ ev _ Hty) Hs)).
  - destruct (seeing_typed _ _ _ _ _ Hok Hi) as [Hr Hty].
    pose proof (proj1 (wp_run _ _ _ _ _ _ (typed_on_event pools _ ev _ Hty) Hs)) as Hs1.
    pose proof (wp_run _ _ _ _ _ _ (typed_session_end pools _ e s1 Hs1) He) as Hs2.
    destruct (moved_own _ _ i _ _ _ Hok Hr Hs2) as (Hp & Hss & _). split; [done|]. by apply Forall_delete.
  - destruct (seeing_typed _ _ _ _ _ Hok Hi) as [Hr Hty].
    assert (∀ l, lease s = Some l → lease_own (X := x) l) as Hl
      by (intros l Hl; by apply (ty_lease _ _ _ _ Hty l)).
    pose proof (proj1 (wp_run _ _ _ _ _ _ (typed_drop_lease pools _ (lease s) Hl _ Hty) Hs)) as Hs'.
    destruct (moved_own _ _ i _ _ _ Hok Hr Hs') as (Hp & Hss & _). split; [done|]. by apply Forall_delete.
  - destruct Hok as [Hp Hss]. simpl in *.
    assert (map_Forall (pool_own r) (sweep_all now pools)) as Hp'.
    { intros k p. unfold sweep_all. rewrite map_lookup_imap. intros (p0 & Hp0 & [= <-])%bind_Some.
      destruct (Hp _ _ Hp0) as (f & Hf & Hat). exists f. split; [done|]. by apply at_sweep. }
    split; [done|]. eapply sessions_own_mono; [done| |exact Hss]. intros k [p Hk].
    cbn [site_pools]. unfold sweep_all. rewrite map_lookup_imap, Hk. by eexists.
Qed.

(** C4: every connection is used under the identity it was opened with: on pools
    shared by sessions of any users and databases, through attaches, failovers,
    scatters, session ends and sweeps in any order, the connection a session is
    attached to was opened by the factory of an endpoint of the route for that
    session's user and database, and kept under them; and so was every parked
    connection for the user and database of its pool.  Nothing is assumed of
    clients, servers or interceptors. *)
Theorem connections_keep_identity pools st :
  map_Forall (pool_own r) pools → rtc (site_step on_route) (MkSite pools []) st →
  (∀ i x s l, site_sessions st !! i = Some (x, s) → lease s = Some l →
     ∃ ep, endpoint r (id ep) = Some ep ∧
       lease_pool l = MkPoolKey (name r) (id ep) (cx_user (SessionCtx := x)) (cx_database (SessionCtx := x)) ∧
       opened (make_factory_for ep r (cx_user (SessionCtx := x)) (cx_database (SessionCtx := x))) (conn l)) ∧
  (∀ k p parked, site_pools st !! k = Some p → parked ∈ idle p →
     ∃ ep, endpoint r (pk_endpoint k) = Some ep ∧
       opened (make_factory_for ep r (pk_user k) (pk_database k)) (pk_conn parked)).
Proof.
  intros Hp Hst. assert (site_own st) as [Hpools Hss].
  { assert (site_own (MkSite pools [])) as H0 by (by split).
    revert H0. induction Hst; eauto using own_step. }
  split.
  - intros i x s l Hi Hl. destruct (Forall_lookup_1 _ _ _ _ Hss Hi) as [Hr Hty]. cbn [fst snd] in Hr, Hty.
    destruct (ty_lease _ _ _ _ Hty l Hl) as [_ [(H1 & H2 & H3) (f & (_ & ep & He & ->) & Ho)]].
    rewrite Hr in He, Ho, H1. rewrite H2, H3 in Ho. apply endpoint_Some in He as Hid. destruct Hid as [_ Hid].
    exists ep. rewrite Hid. split; [done|]. split; [|done]. destruct (lease_pool l). simpl in *. by subst.
  - intros k p parked Hk Hin. destruct (Hpools _ _ Hk) as (f & (_ & ep & He & ->) & _ & _ & Ho).
    exists ep. split; [done|]. rewrite Forall_forall in Ho. by apply (Ho parked).
Qed.

End SiteOwnership.
