(* ===== verification/Front.v ===== *)
(** * A session beside what it shares (session.rs, proxy.rs)

    The state of one session together with the registries of the proxy, the
    proxy's settings, and the sends of the startup code; shared by the normal
    session ([Startup]) and the admin console ([Admin]). *)

From S2P Require Import Prelude RustStr Messages Config Upstream Reference Row Routing Intercept Pool Session Attach Pump Registries.

Section Front.
Context `{P : Platform} {F : Fuel} {I : Interceptor}.

(** The session beside the registries it shares with the others: [f_flags] is
    the store of the [attached] flags of all sessions, [f_cell] the address of
    this session's, once it is registered. *)
Record Front := MkFront {
  f_session : Session;
  f_router : CancelRouter;
  f_runtime : RuntimeState;
  f_flags : list bool;
  f_cell : option nat
}.
#[global] Instance eta_Front : Eta Front :=
  λ f, MkFront (f_session f) (f_router f) (f_runtime f) (f_flags f) (f_cell f).

(** The proxy's settings, and the code outside the sources. *)
Record Shared := MkShared {
  sh_route : RouteConfig;
  sh_pool_config : PoolConfig;
  sh_admin_database : option string;
  sh_interceptor : option IState;
  (** The messages of [finish_authentication]. *)
  handshake : gmap string string → CancelKey → list PgWireBackendMessage;
  (** What closing the client's socket gives. *)
  close_socket : Downstream → result unit unit;
  (** A row of text fields, by the client library's encoder. *)
  encode_text_row : list string → DataRow;
  (** [{:?}] of a message. *)
  debug_message : PgWireFrontendMessage → string
}.

(** The stores to [info.attached]: the session's field is the flag it shares. *)
Definition publish (f : Front) : Front :=
  match f_cell f with
  | Some a => f <| f_flags ::= <[a := attached (f_session f)]> |>
  | None => f
  end.

Definition on_session {A} (m : async Session A) : async Front A := λ f,
  let '(r, f) := zoom f_session (λ s f, f <| f_session := s |>) m f in (r, publish f).

(** [Arc::new(SessionInfo { attached: AtomicBool::new(false), .. })]. *)
Definition new_flag : async Front nat := λ f,
  (Ready (length (f_flags f)),
   f <| f_session ::= λ s, s <| attached := false |> |>
     <| f_flags ::= λ l, l ++ [false] |> <| f_cell := Some (length (f_flags f)) |>).

(** [downstream.send(m).await?]. *)
Definition send (m : PgWireBackendMessage) : async Front (result unit unit) :=
  on_session (ds_send m).

Definition fatal (c m : string) : PgWireBackendMessage :=
  BErrorResponse (error_fields (MkErrorInfo "FATAL" c m)).

(** [downstream.close().await?]. *)
Definition close (sh : Shared) : async Front (result unit unit) := λ f,
  (Ready (close_socket sh (downstream (f_session f))), f).

Definition send_fatal (sh : Shared) (c m : string) : async Front (result unit unit) :=
  _ ←? send (fatal c m); close sh.

Fixpoint send_each (ms : list PgWireBackendMessage) : async Front (result unit unit) :=
  match ms with
  | [] => mret (Ok ())
  | m :: ms => _ ←? send m; send_each ms
  end.

(** A session lease that goes out of scope: its permit returns to the pool,
    its connection closes and the gauges stay. *)
Definition drop_session_lease : async Session unit :=
  l ← gets lease;
  _ ← modify (λ s, s <| lease := None |>);
  match l with
  | Some l => with_pool (lease_pool l) drop_admitted
  | None => mret ()
  end.

(** [finish_authentication(..).await?]: a failed handshake ends the session
    and drops what it leased. *)
Definition finish_authentication (sh : Shared) (ps : gmap string string) (k : CancelKey) :
    async Front (result unit unit) :=
  r ← send_each (handshake sh ps k);
  match r with
  | Ok _ => mret (Ok ())
  | Err e => _ ← on_session drop_session_lease; mret (Err e)
  end.

(** ** The registries after a session *)

Definition same_registries (f f' : Front) : Prop :=
  f_router f' = f_router f ∧ f_runtime f' = f_runtime f.

#[global] Instance same_registries_preorder : PreOrder same_registries.
Proof. split; unfold same_registries; [by intros ?|]. intros ??? [-> ->] [-> ->]. done. Qed.

Lemma session_publish f : f_session (publish f) = f_session f.
Proof. unfold publish. by destruct (f_cell f). Qed.

Lemma registries_publish f f' : same_registries f f' → same_registries f (publish f').
Proof. unfold same_registries, publish. by destruct (f_cell f'). Qed.

Lemma on_session_ready {A} (m : async Session A) f r s :
  m (f_session f) = (r, s) → on_session m f = (r, publish (f <| f_session := s |>)).
Proof. intros H. unfold on_session, zoom. by rewrite H. Qed.

(** The flag in the store is the session's. *)
Definition published (f : Front) : Prop :=
  ∀ a, f_cell f = Some a → f_flags f !! a = Some (attached (f_session f)).

Lemma on_session_run {A} (m : async Session A) f r f' :
  on_session m f = (r, f') →
  m (f_session f) = (r, f_session f') ∧ f_router f' = f_router f ∧ f_runtime f' = f_runtime f ∧
  f_cell f' = f_cell f ∧ (published f → published f').
Proof.
  unfold on_session, zoom. destruct (m (f_session f)) as [r0 s]. intros [= <- <-].
  rewrite session_publish. unfold publish. simpl. destruct (f_cell f) as [a|] eqn:Hc; simpl.
  - split_and!; try done. intros Hf b Hb. simpl in *. simplify_eq.
    apply list_lookup_insert_eq. by eapply lookup_lt_Some, Hf.
  - by split_and!.
Qed.

Lemma keeps_on_session {A} (m : async Session A) : keeps same_registries (on_session m).
Proof.
  intros f r f' H. apply on_session_run in H as (_ & ? & ? & _). done.
Qed.
#[local] Hint Resolve keeps_on_session : keeps.

Lemma keeps_try_bind {A B} (m : async Front (result unit A)) (k : A → async Front (result unit B)) :
  keeps same_registries m → (∀ a, keeps same_registries (k a)) → keeps same_registries (try_bind m k).
Proof. intros Hm Hk. unfold try_bind. keeps_tac. Qed.
#[local] Hint Resolve keeps_try_bind : keeps.

Lemma keeps_send m : keeps same_registries (send m).
Proof. apply keeps_on_session. Qed.
Lemma keeps_close sh : keeps same_registries (close sh).
Proof. by intros f r f' [= <- <-]. Qed.
#[local] Hint Resolve keeps_send keeps_close : keeps.

Lemma keeps_send_fatal sh c m : keeps same_registries (send_fatal sh c m).
Proof. apply keeps_try_bind; eauto with keeps. Qed.

Lemma keeps_send_each ms : keeps same_registries (send_each ms).
Proof. induction ms; simpl; [keeps_tac|]. apply keeps_try_bind; [apply keeps_send|done]. Qed.

#[local] Hint Resolve keeps_send_each : keeps.

Lemma keeps_finish_authentication sh ps k : keeps same_registries (finish_authentication sh ps k).
Proof. unfold finish_authentication. keeps_tac. Qed.

(** [f'] is [f] after sending [ms] to a client that reads, nothing else touched. *)
Definition only_sent (ms : list PgWireBackendMessage) (f f' : Front) : Prop :=
  same_registries f f' ∧ ds_sent (downstream (f_session f')) = ds_sent (downstream (f_session f)) ++ ms ∧
  ds_gone_after (downstream (f_session f')) = None ∧
  s_pools (f_session f') = s_pools (f_session f) ∧ lease (f_session f') = lease (f_session f).

Lemma send_there m f :
  ds_gone_after (downstream (f_session f)) = None →
  ∃ f', send m f = (Ready (Ok ()), f') ∧ only_sent [m] f f'.
Proof.
  intros Hc. eexists. split.
  { unfold send. apply on_session_ready. unfold ds_send, ds_push. by rewrite Hc. }
  unfold only_sent. rewrite session_publish. split; [by apply registries_publish|done].
Qed.

(** A refusal: the error, and the socket is closed. *)
Lemma fatal_there sh c m f :
  ds_gone_after (downstream (f_session f)) = None →
  ∃ f', send_fatal sh c m f = (Ready (close_socket sh (downstream (f_session f'))), f') ∧
    only_sent [fatal c m] f f'.
Proof.
  intros Hc. destruct (send_there (fatal c m) f Hc) as (f1 & H1 & S1). exists f1. split; [|done].
  unfold send_fatal. by rewrite (try_bind_ok _ _ _ _ _ H1).
Qed.

Lemma only_sent_trans ms1 ms2 f1 f2 f3 :
  only_sent ms1 f1 f2 → only_sent ms2 f2 f3 → only_sent (ms1 ++ ms2) f1 f3.
Proof.
  intros ([? ?] & Hs1 & _ & ? & ?) ([? ?] & Hs2 & ? & ? & ?). unfold only_sent, same_registries.
  rewrite Hs2, Hs1, app_assoc. split_and!; congruence.
Qed.

Lemma only_sent_nil f :
  ds_gone_after (downstream (f_session f)) = None → only_sent [] f f.
Proof. unfold only_sent, same_registries. by rewrite app_nil_r. Qed.

Lemma only_sent_there ms f f' :
  only_sent ms f f' → ds_gone_after (downstream (f_session f')) = None.
Proof. by intros (_ & _ & ? & _). Qed.

Lemma send_each_there ms f :
  ds_gone_after (downstream (f_session f)) = None →
  ∃ f', send_each ms f = (Ready (Ok ()), f') ∧ only_sent ms f f'.
Proof.
  revert f. induction ms as [|m ms IH]; intros f Hc; simpl; [by eauto using only_sent_nil|].
  destruct (send_there m f Hc) as (f1 & H1 & S1). rewrite (try_bind_ok _ _ _ _ _ H1).
  destruct (IH f1 (only_sent_there _ _ _ S1)) as (f2 & H2 & S2). exists f2. split; [done|].
  exact (only_sent_trans [m] ms _ _ _ S1 S2).
Qed.

Lemma now_only {L : PlatformLaws P} f :
  ds_gone_after (downstream (f_session f)) = None →
  ∃ t f', on_session now_s f = (Ready t, f') ∧ only_sent [] f f'.
Proof.
  intros Hc. destruct (clock_ready (s_env (f_session f))) as (t & e & Ht). eexists t, _. split.
  { apply on_session_ready. unfold now_s, zoom. by rewrite Ht. }
  unfold only_sent. rewrite session_publish, app_nil_r. split; [by apply registries_publish|done].
Qed.

End Front.

#[export] Hint Resolve keeps_on_session keeps_try_bind keeps_send keeps_close keeps_send_fatal keeps_send_each
  keeps_finish_authentication : keeps.
