(* ===== verification/Admin.v ===== *)
(** * The admin console (admin.rs)

    [SHOW POOLS], [SHOW CLIENTS], [SHOW STATS] and [SHOW HELP], answered from
    the pools and the registry of live sessions without an upstream. *)

From S2P Require Import Prelude RustStr RustFloat Messages Config Upstream Reference Row Routing Intercept Pool Session Attach Pump PumpFlow Registries Front.

(** [env!("CARGO_PKG_VERSION")], from the crate's manifest. *)
Definition CARGO_PKG_VERSION : string := "0.1.0".

Definition admin_parameters : gmap string string := list_to_map [
  ("server_version", "pgferry-" +:+ CARGO_PKG_VERSION);
  ("server_encoding", "UTF8");
  ("client_encoding", "UTF8");
  ("DateStyle", "ISO, MDY");
  ("integer_datetimes", "on");
  ("standard_conforming_strings", "on");
  ("is_superuser", "on")].

(** The object identifier of PostgreSQL's type [text]. *)
Definition TEXT_OID : Z := 25.

Definition text_column (n : string) : FieldDescription :=
  MkFieldDescription n 0 0 TEXT_OID (-1) (-1) 0.

Definition pools_columns : list string :=
  ["database"; "user"; "route"; "cl_active"; "cl_waiting"; "sv_active"; "sv_idle"; "max_size"].
Definition clients_columns : list string :=
  ["pid"; "client"; "user"; "database"; "kind"; "state"; "connected_for"].
Definition stats_columns : list string :=
  ["database"; "user"; "checkouts"; "reused"; "created"; "checked_in"; "dropped"; "evicted"; "probed"].

Section Admin.
Context `{P : Platform} {F : Fuel} {I : Interceptor} {U : UnicodeTables}.

(** A result set of text columns. *)
Definition text_result (sh : Shared) (columns : list string) (rows : list (list string))
    (tag : string) : list PgWireBackendMessage :=
  BRowDescription (text_column <$> columns) ::
  ((λ r, BDataRow (encode_text_row sh r)) <$> rows) ++
  [BCommandComplete (tag +:+ String " " (show_Z (Z.of_nat (length rows))))].

(** Sessions of a pool's user and database, consoles apart. *)
Definition is_pool_client (k : PoolKey) (i : SessionInfo) : bool :=
  negb (is_admin i) && bool_decide (si_user i = pk_user k) &&
  bool_decide (si_database i = default EmptyString (pk_database k)).

Definition pool_row (sessions : list SessionInfo) (p : PoolInner) : list string :=
  let k := p_key p in
  let m := metrics p in
  [default EmptyString (pk_database k); pk_user k; pk_route k;
   show_Z (Z.of_nat (length (List.filter (is_pool_client k) sessions)));
   show_Z (waiting m); show_Z (active m);
   show_Z (Z.of_nat (idle_len p)); show_Z (Z.of_nat (pool_max_size p))].

Definition stats_row (p : PoolInner) : list string :=
  let k := p_key p in
  let m := metrics p in
  [default EmptyString (pk_database k); pk_user k;
   show_Z (checkouts m); show_Z (reused m); show_Z (created m); show_Z (checked_in m);
   show_Z (dropped m); show_Z (evicted m); show_Z (probed m)].

Definition client_row (flags : list bool) (now : Instant) (i : SessionInfo) : list string :=
  [show_Z (si_pid i); si_addr i; si_user i; si_database i;
   if is_admin i then "admin" else "client";
   if nth (si_attached i) flags false then "attached" else "idle";
   format_secs (duration_since now (si_started i))].

(** [PoolManager::pools]. *)
Definition list_pools (pools : gmap PoolKey PoolInner) : list PoolInner := (map_to_list pools).*2.

Definition show_pools (sh : Shared) (f : Front) : list PgWireBackendMessage :=
  text_result sh pools_columns
    (pool_row (rt_sessions (f_runtime f)) <$> list_pools (s_pools (f_session f))) "SHOW".

Definition show_stats (sh : Shared) (f : Front) : list PgWireBackendMessage :=
  text_result sh stats_columns (stats_row <$> list_pools (s_pools (f_session f))) "SHOW".

(** One look at the flag and the clock per session. *)
Fixpoint client_rows (l : list SessionInfo) : async Front (list (list string)) :=
  match l with
  | [] => mret []
  | i :: l =>
    flags ← gets f_flags;
    now ← on_session now_s;
    rest ← client_rows l;
    mret (client_row flags now i :: rest)
  end.

Definition show_clients (sh : Shared) : async Front (list PgWireBackendMessage) :=
  l ← gets (λ f, rt_sessions (f_runtime f));
  rows ← client_rows l;
  mret (text_result sh clients_columns rows "SHOW").

Definition show_help (sh : Shared) : list PgWireBackendMessage :=
  text_result sh ["command"] [["SHOW POOLS"]; ["SHOW CLIENTS"]; ["SHOW STATS"]; ["SHOW HELP"]] "SHOW".

Definition command_of (q : string) : string :=
  to_lowercase (trim (trim_end_matches ";"%char (trim q))).

Definition unknown_command (c : string) : ErrorInfo :=
  MkErrorInfo "ERROR" "42601" ("unknown admin command " +:+ debug_str c +:+
    "; supported: SHOW POOLS | SHOW CLIENTS | SHOW STATS | SHOW HELP").

(** The answer to a command, up to [ReadyForQuery]. *)
Definition outcome (sh : Shared) (c : string) : async Front (list PgWireBackendMessage) :=
  if decide (c = "show pools") then gets (show_pools sh)
  else if decide (c = "show clients") then show_clients sh
  else if decide (c = "show stats") then gets (show_stats sh)
  else if decide (c = "show help" ∨ c = "help") then mret (show_help sh)
  else mret [error_response (unknown_command c)].

Definition admin_ready : async Front (result unit unit) := send (BReadyForQuery Idle).

Definition dispatch (sh : Shared) (q : string) : async Front (result unit unit) :=
  ms ← outcome sh (command_of q);
  _ ←? send_each ms; admin_ready.

Definition simple_only : ErrorInfo :=
  MkErrorInfo "ERROR" "0A000" "pgferry admin console: only simple queries are supported".

(** One iteration of the console's [select!]; [true] ends the session. *)
Definition admin_event (sh : Shared) (ev : Event) : async Front bool :=
  match ev with
  | EvShutdown => mret true
  | EvClient None | EvClient (Some (Err _)) | EvClient (Some (Ok FTerminate)) => mret true
  | EvClient (Some (Ok FSync)) => _ ← admin_ready; mret false
  | EvClient (Some (Ok (FQuery q))) => r ← dispatch sh q; mret (is_err r)
  | EvClient (Some (Ok _)) =>
    r ← send (error_response simple_only);
    match r with
    | Err _ => mret true
    | Ok _ => _ ← admin_ready; mret false
    end
  | EvCancel | EvUpstream => mret false
  end.

(** [false] while the session still runs. *)
Fixpoint admin_loop (sh : Shared) (evs : list Event) : async Front bool :=
  match evs with
  | [] => mret false
  | ev :: evs =>
    ended ← admin_event sh ev;
    if ended : bool then mret true else admin_loop sh evs
  end.

Definition run_admin_session (sh : Shared) (k : CancelKey) (evs : list Event) :
    async Front (result unit unit) :=
  _ ← on_session now_s;
  _ ←? finish_authentication sh admin_parameters k;
  _ ← modify (λ f, f <| f_router ::= λ r, (cancel_register k r).2 |>);
  ended ← admin_loop sh evs;
  if ended : bool then
    _ ← modify (λ f, f <| f_router ::= cancel_unregister k |>);
    mret (Ok ())
  else never.

(** ** The registries *)

Lemma keeps_client_rows l : keeps same_registries (client_rows l).
Proof. induction l; simpl; keeps_tac. Qed.
#[local] Hint Resolve keeps_client_rows : keeps.

Lemma keeps_outcome sh c : keeps same_registries (outcome sh c).
Proof. unfold outcome, show_clients. repeat case_decide; keeps_tac. Qed.
#[local] Hint Resolve keeps_outcome : keeps.

Lemma keeps_admin_event sh ev : keeps same_registries (admin_event sh ev).
Proof.
  unfold admin_event, dispatch, admin_ready. destruct ev as [[[m|]|]| | |]; keeps_tac.
Qed.
#[local] Hint Resolve keeps_admin_event : keeps.

Lemma keeps_admin_loop sh evs : keeps same_registries (admin_loop sh evs).
Proof. induction evs; simpl; keeps_tac. Qed.

(** The console takes its own registration away. *)
Lemma admin_balanced sh k evs f r f' :
  run_admin_session sh k evs f = (Ready r, f') → cr_sessions (f_router f) !! k = None →
  f_runtime f' = f_runtime f ∧ cr_sessions (f_router f') = cr_sessions (f_router f).
Proof.
  intros H Hk. unfold run_admin_session in H.
  apply bind_ready_inv in H as (? & f0 & H0 & H). apply keeps_on_session in H0 as [Hr0 Ht0].
  apply try_bind_ready_inv in H as [(u & f1 & H1 & H)|(e & H1 & ->)];
    apply keeps_finish_authentication in H1 as [Hr1 Ht1]; [|by rewrite Hr1, Hr0, Ht1].
  apply bind_ready_inv in H as (? & f2 & [= <- <-] & H).
  apply bind_ready_inv in H as (ended & f3 & H3 & H). apply keeps_admin_loop in H3 as [Hr3 Ht3].
  destruct ended; [|done]. apply bind_ready_inv in H as (? & f4 & [= <- <-] & H).
  injection H as <- <-. simpl. rewrite Ht3, Hr3. simpl. rewrite Ht1, Ht0, Hr1, Hr0.
  split; [done|]. by rewrite delete_insert_id.
Qed.

(** ** The answers *)

(** The columns and the number of rows of a [SHOW] command, with [pools] pools
    and [sessions] registered sessions. *)
Definition shown (pools sessions : nat) (c : string) : option (list string * nat) :=
  if decide (c = "show pools") then
    Some (["database"; "user"; "route"; "cl_active"; "cl_waiting"; "sv_active"; "sv_idle"; "max_size"], pools)
  else if decide (c = "show clients") then
    Some (["pid"; "client"; "user"; "database"; "kind"; "state"; "connected_for"], sessions)
  else if decide (c = "show stats") then
    Some (["database"; "user"; "checkouts"; "reused"; "created"; "checked_in"; "dropped"; "evicted"; "probed"], pools)
  else if decide (c = "show help" ∨ c = "help") then Some (["command"], 4)
  else None.

(** One result set: a description of text columns, [n] rows of one value for
    each, and a tag that counts the rows. *)
Definition result_set (sh : Shared) (columns : list string) (n : nat) (ms : list PgWireBackendMessage) : Prop :=
  ∃ fields values, fd_name <$> fields = columns ∧ Forall (λ fd, type_id fd = 25%Z) fields ∧
    length values = n ∧ Forall (λ vs, length vs = length columns) values ∧
    ms = [BRowDescription fields] ++ ((λ vs, BDataRow (encode_text_row sh vs)) <$> values) ++
         [BCommandComplete ("SHOW " +:+ show_Z (Z.of_nat n))].

Lemma text_result_set sh columns rows :
  Forall (λ r, length r = length columns) rows →
  result_set sh columns (length rows) (text_result sh columns rows "SHOW").
Proof.
  intros Hr. exists (text_column <$> columns), rows. split_and!; try done.
  - rewrite <-list_fmap_compose. apply list_fmap_id.
  - by apply Forall_fmap, Forall_true.
Qed.

(** What the console sends for a message. *)
Definition admin_answer (sh : Shared) (pools sessions : nat) (m : PgWireFrontendMessage)
    (out : list PgWireBackendMessage) : Prop :=
  match m with
  | FSync => out = [BReadyForQuery Idle]
  | FQuery q => ∃ body, out = body ++ [BReadyForQuery Idle] ∧
      match shown pools sessions (command_of q) with
      | Some (columns, n) => result_set sh columns n body
      | None => body = [error_response (unknown_command (command_of q))]
      end
  | _ => out = [error_response simple_only; BReadyForQuery Idle]
  end.

(** The pools and the sessions a console lists. *)
Definition pools_listed (f : Front) : nat := size (s_pools (f_session f)).
Definition sessions_listed (f : Front) : nat := length (rt_sessions (f_runtime f)).

Lemma listed_same ms f f' :
  only_sent ms f f' → pools_listed f' = pools_listed f ∧ sessions_listed f' = sessions_listed f.
Proof. intros ([_ Ht] & _ & _ & Hp & _). unfold pools_listed, sessions_listed. by rewrite Hp, Ht. Qed.

Lemma list_pools_length pools : length (list_pools pools) = size pools.
Proof. unfold list_pools. by rewrite length_fmap, length_map_to_list. Qed.

Lemma client_rows_there {L : PlatformLaws P} l f :
  ds_gone_after (downstream (f_session f)) = None →
  ∃ rows f', client_rows l f = (Ready rows, f') ∧ only_sent [] f f' ∧
    length rows = length l ∧ Forall (λ r, length r = length clients_columns) rows.
Proof.
  revert f. induction l as [|i l IH]; intros f Hc; simpl; [exists [], f; by eauto using only_sent_nil|].
  destruct (now_only f Hc) as (t & f1 & H1 & S1).
  rewrite (bind_ready _ _ _ (f_flags f) f) by done. rewrite (bind_ready _ _ _ _ _ H1).
  destruct (IH f1 (only_sent_there _ _ _ S1)) as (rows & f2 & H2 & S2 & Hn & Hr).
  rewrite (bind_ready _ _ _ _ _ H2). eexists _, f2. split; [done|].
  split; [exact (only_sent_trans [] [] _ _ _ S1 S2)|]. split; [simpl; congruence|]. by constructor.
Qed.

Lemma rows_length {A} (g : A → list string) l n :
  (∀ a, length (g a) = n) → Forall (λ r, length r = n) (g <$> l).
Proof. intros Hg. apply Forall_fmap, Forall_true, Hg. Qed.

Lemma outcome_there {L : PlatformLaws P} sh c f :
  ds_gone_after (downstream (f_session f)) = None →
  ∃ body f', outcome sh c f = (Ready body, f') ∧ only_sent [] f f' ∧
    match shown (pools_listed f) (sessions_listed f) c with
    | Some (columns, n) => result_set sh columns n body
    | None => body = [error_response (unknown_command c)]
    end.
Proof.
  intros Hc. unfold outcome, shown, pools_listed, sessions_listed.
  rewrite <-list_pools_length.
  repeat case_decide; try (eexists _, f; split; [reflexivity|]; split; [by apply only_sent_nil|]).
  - rewrite <-(length_fmap (pool_row (rt_sessions (f_runtime f)))). apply text_result_set. by apply rows_length.
  - unfold show_clients. destruct (client_rows_there (rt_sessions (f_runtime f)) f Hc)
      as (rows & f' & Hrun & Hs & <- & Hr). rewrite (bind_ready _ _ _ (rt_sessions (f_runtime f)) f) by done.
    rewrite (bind_ready _ _ _ _ _ Hrun). eexists _, f'. split; [done|]. split; [done|]. by apply text_result_set.
  - rewrite <-(length_fmap stats_row). apply text_result_set. by apply rows_length.
  - apply (text_result_set sh ["command"] [["SHOW POOLS"]; ["SHOW CLIENTS"]; ["SHOW STATS"]; ["SHOW HELP"]]).
    by repeat constructor.
  - done.
Qed.

Lemma admin_ready_there f :
  ds_gone_after (downstream (f_session f)) = None →
  ∃ f', admin_ready f = (Ready (Ok ()), f') ∧ only_sent [BReadyForQuery Idle] f f'.
Proof. apply send_there. Qed.

Lemma dispatch_there {L : PlatformLaws P} sh q f :
  ds_gone_after (downstream (f_session f)) = None →
  ∃ out f', dispatch sh q f = (Ready (Ok ()), f') ∧ only_sent out f f' ∧
    admin_answer sh (pools_listed f) (sessions_listed f) (FQuery q) out.
Proof.
  intros Hc. unfold dispatch.
  destruct (outcome_there sh (command_of q) f Hc) as (body & f1 & H1 & S1 & Hb).
  destruct (send_each_there body f1 (only_sent_there _ _ _ S1)) as (f2 & H2 & S2).
  destruct (admin_ready_there f2 (only_sent_there _ _ _ S2)) as (f3 & H3 & S3).
  exists (body ++ [BReadyForQuery Idle]), f3.
  rewrite (bind_ready _ _ _ _ _ H1), (try_bind_ok _ _ _ _ _ H2). split; [done|]. split; [|by eexists].
  exact (only_sent_trans body _ _ _ _ (only_sent_trans [] body _ _ _ S1 S2) S3).
Qed.

Lemma admin_event_there {L : PlatformLaws P} sh m f :
  ds_gone_after (downstream (f_session f)) = None → m ≠ FTerminate →
  ∃ out f', admin_event sh (EvClient (Some (Ok m))) f = (Ready false, f') ∧ only_sent out f f' ∧
    admin_answer sh (pools_listed f) (sessions_listed f) m out.
Proof.
  intros Hc Hm.
  assert (∃ f', (r ← send (error_response simple_only);
      match r with Err _ => mret true | Ok _ => _ ← admin_ready; mret false end) f = (Ready false, f') ∧
      only_sent [error_response simple_only; BReadyForQuery Idle] f f') as (fo & Ho & So).
  { destruct (send_there (error_response simple_only) f Hc) as (f1 & H1 & S1).
    destruct (admin_ready_there f1 (only_sent_there _ _ _ S1)) as (f2 & H2 & S2).
    exists f2. rewrite (bind_ready _ _ _ _ _ H1), (bind_ready _ _ _ _ _ H2).
    split; [done|]. exact (only_sent_trans [_] [_] _ _ _ S1 S2). }
  destruct m; try done; try (by eexists _, fo).
  - destruct (dispatch_there sh query f Hc) as (out & f' & H & Hs & Ha). exists out, f'.
    simpl. by rewrite (bind_ready _ _ _ _ _ H).
  - destruct (admin_ready_there f Hc) as (f' & H & Hs). eexists _, f'. simpl.
    by rewrite (bind_ready _ _ _ _ _ H).
Qed.

Lemma admin_loop_there {L : PlatformLaws P} sh ms f :
  ds_gone_after (downstream (f_session f)) = None → Forall (λ m, m ≠ FTerminate) ms →
  ∃ outs f', admin_loop sh (client_events (ms ++ [FTerminate])) f = (Ready true, f') ∧
    only_sent (concat outs) f f' ∧
    Forall2 (admin_answer sh (pools_listed f) (sessions_listed f)) ms outs.
Proof.
  revert f. induction ms as [|m ms IH]; intros f Hc Hms.
  { exists [], f. split; [done|]. split; [by apply only_sent_nil|done]. }
  apply Forall_cons in Hms as [Hm Hms].
  destruct (admin_event_there sh m f Hc Hm) as (out & f1 & H1 & S1 & Ha).
  destruct (IH f1 (only_sent_there _ _ _ S1) Hms) as (outs & f2 & H2 & S2 & Hall).
  destruct (listed_same _ _ _ S1) as [Hpl Hsl]. rewrite Hpl, Hsl in Hall.
  exists (out :: outs), f2. split; [|split; [by eapply only_sent_trans|by constructor]].
  change (client_events ((m :: ms) ++ [FTerminate])) with
    (EvClient (Some (Ok m)) :: client_events (ms ++ [FTerminate])).
  cbn [admin_loop]. by rewrite (bind_ready _ _ _ _ _ H1).
Qed.

(** C33: the admin console answers every message of a client that reads with one
    whole cycle of its own.  A [Query] with a [SHOW] command gets a result set:
    a description of the command's columns, all text, a row with a value for
    each for every pool, session or command listed, and the tag [SHOW n] with
    their number; any other [Query] and any other message gets one error, and a
    [Sync] nothing; [ReadyForQuery] follows in each case.  No pool, lease or
    registered session is touched, and the console's cancel key is gone at the
    end. *)
Theorem admin_console_answers {L : PlatformLaws P} sh k ms f :
  ds_gone_after (downstream (f_session f)) = None → Forall (λ m, m ≠ FTerminate) ms →
  cr_sessions (f_router f) !! k = None →
  ∃ outs f', run_admin_session sh k (client_events (ms ++ [FTerminate])) f = (Ready (Ok ()), f') ∧
    Forall2 (admin_answer sh (pools_listed f) (sessions_listed f)) ms outs ∧
    ds_sent (downstream (f_session f')) =
      ds_sent (downstream (f_session f)) ++ handshake sh admin_parameters k ++ concat outs ∧
    s_pools (f_session f') = s_pools (f_session f) ∧ lease (f_session f') = lease (f_session f) ∧
    f_runtime f' = f_runtime f ∧ cr_sessions (f_router f') = cr_sessions (f_router f).
Proof.
  intros Hc Hms Hk. unfold run_admin_session, finish_authentication.
  destruct (now_only f Hc) as (t & f1 & H1 & S1). rewrite (bind_ready _ _ _ _ _ H1).
  destruct (send_each_there (handshake sh admin_parameters k) f1 (only_sent_there _ _ _ S1))
    as (f2 & H2 & S2).
  rewrite (try_bind_ok _ _ _ () f2) by (by rewrite (bind_ready _ _ _ _ _ H2)).
  set (f3 := f2 <| f_router ::= λ r, (cancel_register k r).2 |>).
  rewrite (bind_ready _ _ _ () f3) by done.
  pose proof (only_sent_trans [] _ _ _ _ S1 S2) as ([Hr Ht] & Hs & Hc2 & Hp & Hl).
  destruct (admin_loop_there sh ms f3 Hc2 Hms) as (outs & f4 & H4 & ([Hr4 Ht4] & Hs4 & _ & Hp4 & Hl4) & Ha).
  rewrite (bind_ready _ _ _ _ _ H4). eexists outs, _. split; [reflexivity|].
  split; [unfold pools_listed, sessions_listed in *; subst f3; simpl in Ha; by rewrite Hp, Ht in Ha|]. simpl.
  rewrite Hs4, Hp4, Hl4, Ht4, Hr4. subst f3. simpl. rewrite Hs, Hp, Hl, Ht, Hr.
  split_and!; try done; [by rewrite <-app_assoc|]. by rewrite delete_insert_id.
Qed.

End Admin.
