(* ===== verification/Startup.v ===== *)
(** * Session start and end (session.rs)

    [run_session] on an accepted socket: the TLS negotiation, cancel requests,
    the protocol version policy, the refusals, the registration in the shared
    registries, the downstream handshake, the pump and what happens to the
    connection afterwards.  What the socket and the client library give (the
    outcome of the negotiation, the first message, the handshake messages, the
    result of closing) are arguments. *)

From S2P Require Import Prelude RustStr Messages Config Upstream Reference Row Routing Intercept Pool Session Attach Pump Registries Front Admin.

(** [SessionParams::from_startup]. *)
Record SessionParams := MkSessionParams {
  sp_user : string;
  sp_database : option string;
  replication : bool
}.

Definition is_replication (v : string) : bool :=
  bool_decide (v = "1") || bool_decide (v = "true") || bool_decide (v = "database") ||
  bool_decide (v = "on").

Definition from_startup (st : Startup) : SessionParams :=
  MkSessionParams (default EmptyString (parameters st !! "user")) (parameters st !! "database")
    (match parameters st !! "replication" with Some v => is_replication v | None => false end).

(** What a session is given: the route and the pool knobs of the proxy, the
    rest from the startup packet. *)
Definition session_ctx (r : RouteConfig) (c : PoolConfig) (st : Startup) : SessionCtx :=
  MkSessionCtx r c (sp_user (from_startup st)) (sp_database (from_startup st)) (parameters st)
    (bool_decide (mode c = TransactionMode)).

Section Startup.
Context `{P : Platform} {F : Fuel} {I : Interceptor} {E : ∀ X : SessionCtx, ScatterExec}.
Context {U : UnicodeTables}.

(** The state the pump starts from. *)
Definition enter_pump (s : Session) {X : SessionCtx} : Session :=
  pump_init (downstream s) (s_env s) (s_pools s) (lease s) (hooks s) (attached s).

(** The startup parameters replayed to the client, or [None] when there is no
    upstream and the client was told. *)
Definition upstream_parameters (sh : Shared) {X : SessionCtx} : async Front (result unit (option (gmap string string))) :=
  if cx_transaction_mode then
    r ← on_session baseline_params_routed;
    match r with
    | Ok m => mret (Ok (Some m))
    | Err e =>
      _ ←? send_fatal sh "08006" ("pgferry: failed to connect to upstream: " +:+ e);
      mret (Ok None)
    end
  else
    ok ← on_session (ensure_attached None);
    if ok : bool then
      _ ← on_session (set_attached true);
      m ← gets (λ f, match lease (f_session f) with
                     | Some l => server_parameters (conn l) | None => ∅ end);
      mret (Ok (Some m))
    else mret (Ok None).

(** [SessionHooks::new] for the registered interceptor. *)
Definition install_hooks (sh : Shared) : async Session unit :=
  match sh_interceptor sh with
  | None => modify (λ s, s <| hooks := None |>)
  | Some st => now ← now_s; modify (λ s, s <| hooks := Some (SessionHooks_new st now) |>)
  end.

(** A client session up to its pump; [false] when the client was sent away. *)
Definition start_session (sh : Shared) (X : SessionCtx) (k : CancelKey) : async Front (result unit bool) :=
  _ ← on_session (install_hooks sh);
  ps ←? upstream_parameters sh;
  match ps with
  | None => mret (Ok false)
  | Some ps =>
    _ ←? finish_authentication sh ps k;
    _ ← on_session (set_downstream_status Idle);
    _ ← modify (λ f, f <| f_router ::= λ r, (cancel_register k r).2 |>);
    _ ← modify (λ f, f <| f_session ::= λ s, enter_pump s |>);
    mret (Ok true)
  end.

(** Everything a registered session does. *)
Definition registered_session (sh : Shared) (X : SessionCtx) (k : CancelKey) (admin : bool)
    (evs : list Event) : async Front (result unit unit) :=
  if admin then run_admin_session sh k evs
  else
    started ←? start_session sh X k;
    if started : bool then
      e ← on_session (pump evs);
      match e with
      | None => never
      | Some e =>
        _ ← modify (λ f, f <| f_router ::= cancel_unregister k |>);
        _ ← on_session (session_end e);
        mret (Ok ())
      end
    else mret (Ok ()).

Definition is_admin_database (sh : Shared) (db : option string) : bool :=
  match sh_admin_database sh with
  | Some a => bool_decide (db = Some a)
  | None => false
  end.

Definition run_session_ready (sh : Shared) (addr : string) (k : CancelKey) (st : Startup)
    (evs : list Event) : async Front (result unit unit) :=
  let ps := from_startup st in
  _ ← on_session now_s;
  if replication ps then
    send_fatal sh "0A000" "pgferry: replication connections are not supported"
  else if decide (sp_user ps = EmptyString) then
    send_fatal sh "28000" "pgferry: no user specified in startup packet"
  else
    now ← on_session now_s;
    let admin := is_admin_database sh (sp_database ps) in
    cell ← new_flag;
    let i := MkSessionInfo k.1 addr (sp_user ps) (default EmptyString (sp_database ps)) admin cell now in
    _ ← modify (λ f, f <| f_runtime ::= λ r, (rt_register i r).2 |>);
    r ← registered_session sh (session_ctx (sh_route sh) (sh_pool_config sh) st) k admin evs;
    _ ← modify (λ f, f <| f_runtime ::= rt_unregister k.1 |>);
    mret r.

(** The protocol version policy: [Ok true] goes on, [Ok false] was refused. *)
Definition check_version (sh : Shared) (st : Startup) : async Front (result unit bool) :=
  if decide (protocol_number_major st = 3%Z) then
    if decide (protocol_number_minor st = 0%Z) then mret (Ok true)
    else
      _ ←? send (BNegotiateProtocolVersion 0 []);
      mret (Ok true)
  else
    _ ←? send_fatal sh "08P01" ("pgferry: unsupported protocol version " +:+
           show_Z (protocol_number_major st) +:+ "." +:+ show_Z (protocol_number_minor st));
    mret (Ok false).

(** What an accepted socket and the TLS negotiation on it give: the result of
    [set_nodelay], the negotiated connection ([None] when the client wants TLS
    and there is no acceptor) and its first message. *)
Record Socket := MkSocket {
  nodelay : result unit unit;
  negotiated : result unit (option Downstream);
  first_message : option (result unit PgWireFrontendMessage)
}.

(** From the first message on; [k] is the generated cancel key. *)
Definition run_negotiated (sh : Shared) (addr : string) (k : CancelKey)
    (first : option (result unit PgWireFrontendMessage)) (evs : list Event) :
    async Front (result unit unit) :=
  match first with
  | None | Some (Err _) => mret (Ok ())
  | Some (Ok (FCancelRequest pid secret)) =>
    _ ← modify (λ f, f <| f_router ::= λ r,
                       (cancel (pid, String.string_of_list_ascii secret) r).2 |>);
    close sh
  | Some (Ok (FStartup st)) =>
    go ←? check_version sh st;
    if go : bool then run_session_ready sh addr k st evs else mret (Ok ())
  | Some (Ok m) => send_fatal sh "08P01" ("pgferry: expected Startup, got " +:+ debug_message sh m)
  end.

Definition run_session (sh : Shared) (sock : Socket) (addr : string) (k : CancelKey)
    (evs : list Event) : async Front (result unit unit) :=
  _ ←? mret (nodelay sock);
  d ←? mret (negotiated sock);
  match d with
  | None => mret (Ok ())
  | Some d =>
    _ ← modify (λ f, f <| f_session ::= λ s, s <| downstream := d |> |>);
    run_negotiated sh addr k (first_message sock) evs
  end.

Lemma keeps_upstream_parameters sh (X : SessionCtx) : keeps same_registries (upstream_parameters sh).
Proof. unfold upstream_parameters, try_bind. keeps_tac. Qed.

Lemma keeps_check_version sh st : keeps same_registries (check_version sh st).
Proof. unfold check_version, send_fatal, try_bind. keeps_tac. Qed.

(** The start registers the session's cancel key, at its very end. *)
Lemma keeps_start_session sh X k f r f' :
  start_session sh X k f = (Ready r, f') →
  f_runtime f' = f_runtime f ∧
  cr_sessions (f_router f') =
    (if r is Ok true then <[k := next_channel (f_router f)]> (cr_sessions (f_router f))
     else cr_sessions (f_router f)).
Proof.
  unfold start_session. intros (u & f0 & H0 & H)%bind_ready_inv.
  apply keeps_on_session in H0 as [Hr0 Ht0]. rewrite <-Ht0, <-Hr0. clear Hr0 Ht0 f.
  apply try_bind_ready_inv in H as [(ps & f1 & H1 & H)|(e & H1 & ->)];
    apply keeps_upstream_parameters in H1 as [Hr1 Ht1]; [|by rewrite Hr1].
  rewrite <-Ht1, <-Hr1. clear Hr1 Ht1 f0. destruct ps as [ps|]; [|by injection H as <- <-].
  apply try_bind_ready_inv in H as [([] & f2 & H2 & H)|(e & H2 & ->)];
    apply keeps_finish_authentication in H2 as [Hr2 Ht2]; [|by rewrite Hr2].
  rewrite <-Ht2, <-Hr2. clear Hr2 Ht2 f1.
  apply bind_ready_inv in H as (? & f3 & H3 & H). apply keeps_on_session in H3 as [Hr3 Ht3].
  apply bind_ready_inv in H as (? & f4 & [= <- <-] & H).
  apply bind_ready_inv in H as (? & f5 & [= <- <-] & H).
  injection H as <- <-. simpl. by rewrite Ht3, Hr3.
Qed.

Lemma registered_balanced sh X k admin evs f r f' :
  cr_sessions (f_router f) !! k = None →
  registered_session sh X k admin evs f = (Ready r, f') →
  f_runtime f' = f_runtime f ∧ cr_sessions (f_router f') = cr_sessions (f_router f).
Proof.
  intros Hk. unfold registered_session. destruct admin; [by intros H; eapply admin_balanced|].
  intros [(started & f1 & H1 & H)|(e & H1 & ->)]%try_bind_ready_inv;
    apply keeps_start_session in H1 as [Ht1 Hc1]; [|done].
  destruct started; [|by injection H as <- <-].
  apply bind_ready_inv in H as (e & f2 & H2 & H). apply keeps_on_session in H2 as [Hr2 Ht2].
  destruct e as [e|]; [|done]. apply bind_ready_inv in H as (? & f3 & [= <- <-] & H).
  apply bind_ready_inv in H as (? & f4 & H4 & H). apply keeps_on_session in H4 as [Hr4 Ht4].
  injection H as <- <-. rewrite Ht4, Hr4. simpl. rewrite Ht2, Hr2, Hc1.
  split; [done|]. by rewrite delete_insert_id.
Qed.

Lemma negotiated_unregisters sh addr k first evs f r f' :
  cr_sessions (f_router f) !! k = None →
  k.1 ∉ (si_pid <$> rt_sessions (f_runtime f)) →
  run_negotiated sh addr k first evs f = (Ready r, f') →
  rt_sessions (f_runtime f') = rt_sessions (f_runtime f) ∧
  cr_sessions (f_router f') = cr_sessions (f_router f).
Proof.
  intros Hk Hpid. unfold run_negotiated.
  assert (∀ c m, send_fatal sh c m f = (Ready r, f') → rt_sessions (f_runtime f') = rt_sessions (f_runtime f) ∧
    cr_sessions (f_router f') = cr_sessions (f_router f)) as Hsend
    by (intros c m [-> ->]%keeps_send_fatal; done).
  destruct first as [[m|]|]; [|by intros [= <- <-]..]. destruct m; try apply Hsend.
  - intros [(go & f1 & H1 & H)|(e & H1 & ->)]%try_bind_ready_inv;
      apply keeps_check_version in H1 as [Hr1 Ht1]; [|by rewrite Hr1, Ht1].
    rewrite <-Hr1, <-Ht1. rewrite <-Hr1 in Hk. rewrite <-Ht1 in Hpid. clear Hr1 Ht1 Hsend f.
    destruct go; [|by injection H as <- <-]. unfold run_session_ready in H.
    apply bind_ready_inv in H as (? & f2 & H2 & H). apply keeps_on_session in H2 as [Hr2 Ht2].
    rewrite <-Hr2, <-Ht2. rewrite <-Hr2 in Hk. rewrite <-Ht2 in Hpid. clear Hr2 Ht2 f1.
    destruct (replication _); [by apply keeps_send_fatal in H as [-> ->]|].
    case_decide; [by apply keeps_send_fatal in H as [-> ->]|].
    apply bind_ready_inv in H as (now & f3 & H3 & H). apply keeps_on_session in H3 as [Hr3 Ht3].
    rewrite <-Hr3, <-Ht3. rewrite <-Hr3 in Hk. rewrite <-Ht3 in Hpid. clear Hr3 Ht3 f2.
    apply bind_ready_inv in H as (cell & f3' & [= <- <-] & H).
    apply bind_ready_inv in H as (? & f4 & [= <- <-] & H).
    apply bind_ready_inv in H as (? & f5 & H5 & H).
    apply registered_balanced in H5 as [Ht5 Hr5]; [|done].
    apply bind_ready_inv in H as (? & f6 & [= <- <-] & H). injection H as <- <-. simpl.
    rewrite Ht5, Hr5. simpl. split; [|done].
    rewrite List.filter_app. simpl. rewrite bool_decide_false by (by intros []).
    rewrite app_nil_r. by apply filter_other_pids.
  - intros (? & f1 & [= <- <-] & H)%bind_ready_inv. injection H as <- <-. simpl. unfold cancel.
    by destruct (cr_sessions (f_router f) !! (pid, String.string_of_list_ascii secret_key)).
Qed.

(** C26: a session leaves no registration behind: however it ends (TLS not agreed,
    refused at startup, no upstream, handshake failure, client or upstream gone), its
    cancel key and its entry in the list of live sessions are gone, and those
    of the other sessions are untouched, as long as its pid and cancel key
    were not in use. *)
Theorem session_unregisters sh sock addr k evs f r f' :
  cr_sessions (f_router f) !! k = None →
  k.1 ∉ (si_pid <$> rt_sessions (f_runtime f)) →
  run_session sh sock addr k evs f = (Ready r, f') →
  rt_sessions (f_runtime f') = rt_sessions (f_runtime f) ∧
  cr_sessions (f_router f') = cr_sessions (f_router f).
Proof.
  intros Hk Hpid. unfold run_session.
  destruct (nodelay sock) as [u|e]; [|by intros [= <- <-]].
  rewrite (try_bind_ok _ _ _ u f) by done.
  destruct (negotiated sock) as [[d|]|e]; [|by intros [= <- <-]..].
  rewrite (try_bind_ok _ _ _ (Some d) f) by done.
  intros (? & f1 & [= <- <-] & H)%bind_ready_inv. by eapply negotiated_unregisters in H.
Qed.

(** ** Refusals *)

(** The error a startup packet is refused with. *)
Definition refusal (st : Startup) : option PgWireBackendMessage :=
  if decide (protocol_number_major st = 3%Z) then
    if replication (from_startup st) then
      Some (fatal "0A000" "pgferry: replication connections are not supported")
    else if decide (sp_user (from_startup st) = EmptyString) then
      Some (fatal "28000" "pgferry: no user specified in startup packet")
    else None
  else Some (fatal "08P01" ("pgferry: unsupported protocol version " +:+
               show_Z (protocol_number_major st) +:+ "." +:+ show_Z (protocol_number_minor st))).

(** A newer minor version is negotiated down to 3.0 first. *)
Definition negotiation (st : Startup) : list PgWireBackendMessage :=
  if decide (protocol_number_major st = 3%Z ∧ protocol_number_minor st ≠ 0%Z)
  then [BNegotiateProtocolVersion 0 []] else [].

(** A supported version passes, negotiated down if it is newer. *)
Lemma version_there sh st f :
  protocol_number_major st = 3%Z → ds_gone_after (downstream (f_session f)) = None →
  ∃ f', check_version sh st f = (Ready (Ok true), f') ∧ only_sent (negotiation st) f f'.
Proof.
  intros H3 Hc. unfold check_version, negotiation. rewrite decide_True by done.
  destruct (decide (protocol_number_minor st = 0%Z)).
  - rewrite decide_False by tauto. eauto using only_sent_nil.
  - rewrite decide_True by done. destruct (send_there (BNegotiateProtocolVersion 0 []) f Hc)
      as (f1 & H1 & S1). exists f1. split; [|done]. by rewrite (try_bind_ok _ _ _ _ _ H1).
Qed.

Lemma negotiated_refused {L : PlatformLaws P} sh addr k st m evs f :
  refusal st = Some m → ds_gone_after (downstream (f_session f)) = None →
  ∃ f', run_negotiated sh addr k (Some (Ok (FStartup st))) evs f =
      (Ready (close_socket sh (downstream (f_session f'))), f') ∧
    only_sent (negotiation st ++ [m]) f f'.
Proof.
  unfold refusal. intros Hr Hc. simpl. destruct (decide (protocol_number_major st = 3%Z)) as [H3|H3].
  - destruct (version_there sh st f H3 Hc) as (f1 & H1 & S1). rewrite (try_bind_ok _ _ _ _ _ H1).
    unfold run_session_ready. destruct (now_only f1 (only_sent_there _ _ _ S1)) as (t & f2 & H2 & S2).
    rewrite (bind_ready _ _ _ _ _ H2). pose proof (only_sent_there _ _ _ S2) as Hc2.
    pose proof (only_sent_trans _ _ _ _ _ S1 S2) as S. rewrite app_nil_r in S.
    assert (∀ c t, ∃ f', send_fatal sh c t f2 = (Ready (close_socket sh (downstream (f_session f'))), f') ∧
      only_sent (negotiation st ++ [fatal c t]) f f') as Hf.
    { intros c x. destruct (fatal_there sh c x f2 Hc2) as (f3 & H4 & S3). exists f3.
      split; [exact H4|by eapply only_sent_trans]. }
    destruct (replication (from_startup st)); [injection Hr as <-; apply Hf|].
    destruct (decide (sp_user (from_startup st) = EmptyString)); [injection Hr as <-; apply Hf|done].
  - injection Hr as <-. unfold negotiation, check_version. rewrite !decide_False by tauto.
    destruct (fatal_there sh "08P01" ("pgferry: unsupported protocol version " +:+
      show_Z (protocol_number_major st) +:+ "." +:+ show_Z (protocol_number_minor st)) f Hc)
      as (f1 & H1 & S1). exists f1. split; [|exact S1]. unfold try_bind, mbind, async_bind.
    rewrite H1. by destruct (close_socket _ _) as [[]|[]].
Qed.

(** C27: a startup packet of another major protocol version, for replication, or
    without a user is refused with its one [FATAL] error (after the version
    negotiation, if a newer minor was asked for); the session is never
    registered, no upstream is contacted, no pool is touched. *)
Theorem startup_refused {L : PlatformLaws P} sh addr k st m evs f d :
  refusal st = Some m → ds_gone_after d = None →
  ∃ f', run_session sh (MkSocket (Ok ()) (Ok (Some d)) (Some (Ok (FStartup st)))) addr k evs f =
      (Ready (close_socket sh (downstream (f_session f'))), f') ∧
    only_sent (negotiation st ++ [m]) (f <| f_session ::= λ s, s <| downstream := d |> |>) f'.
Proof.
  intros Hr Hc. unfold run_session. rewrite (try_bind_ok _ _ _ () f) by done.
  rewrite (try_bind_ok _ _ _ (Some d) f) by done.
  rewrite (bind_ready _ _ _ () (f <| f_session ::= λ s, s <| downstream := d |> |>)) by done.
  by apply negotiated_refused.
Qed.

End Startup.
