(* ===== verification/Clients.v ===== *)
(** * What [SHOW CLIENTS] says of a live session (session.rs, runtime.rs, admin.rs)

    The [attached] flag of a registry entry is shared: the session stores to it
    as it attaches and detaches, a console loads it.  Here the start of a
    session, its pump and a console that looks are put together. *)

From S2P Require Import Prelude Wp RustStr Messages Config Upstream Reference Row Routing Intercept Pool Session Attach Pump Registries ScatterLeg Scatter Chores Ownership Front Admin Startup.

Section Clients.
Context `{P : Platform} {F : Fuel} {I : Interceptor} {U : UnicodeTables} {Sch : Schedule}.
#[local] Existing Instance execute_scatter_impl.

(** ** The shared flag *)

(** The session keeps its flag, and the flag in the store is the session's. *)
Definition shares (f f' : Front) : Prop := f_cell f' = f_cell f ∧ (published f → published f').

#[local] Instance shares_preorder : PreOrder shares.
Proof. split; unfold shares; [done|]. intros ??? [-> ?] [-> ?]. auto. Qed.

Lemma shares_on_session {A} (m : async Session A) : keeps shares (on_session m).
Proof. by intros f r f' (_ & _ & _ & ? & ?)%on_session_run. Qed.

Lemma shares_close sh : keeps shares (close sh).
Proof. by intros f r f' [= <- <-]. Qed.

Lemma shares_try_bind {A B} (m : async Front (result unit A)) (k : A → async Front (result unit B)) :
  keeps shares m → (∀ a, keeps shares (k a)) → keeps shares (try_bind m k).
Proof. intros Hm Hk. unfold try_bind. keeps_tac. Qed.
#[local] Hint Resolve shares_on_session shares_close shares_try_bind : keeps.

Lemma shares_send m : keeps shares (send m).
Proof. apply shares_on_session. Qed.
#[local] Hint Resolve shares_send : keeps.

Lemma shares_send_each ms : keeps shares (send_each ms).
Proof. induction ms; simpl; [keeps_tac|]. apply shares_try_bind; [apply shares_send|done]. Qed.
#[local] Hint Resolve shares_send_each : keeps.

(** No step of a session's start detaches the flag from the session. *)
Lemma shares_start sh X k : keeps shares (start_session sh X k).
Proof.
  assert (∀ X : SessionCtx, keeps shares (modify (λ f, f <| f_session ::= λ s, enter_pump s |>))).
  { by intros Y f r f' [= <- <-]. }
  assert (keeps shares (modify (λ f, f <| f_router ::= λ r, (cancel_register k r).2 |>))).
  { by intros f r f' [= <- <-]. }
  unfold start_session, upstream_parameters, send_fatal, finish_authentication, try_bind. keeps_tac.
Qed.

(** A new flag is down, and so is the session. *)
Lemma new_flag_published f :
  published (new_flag f).2 ∧ f_cell (new_flag f).2 = Some (length (f_flags f)).
Proof.
  split; [|done]. intros a [= <-]. simpl. by rewrite lookup_app_r, Nat.sub_diag.
Qed.

(** ** The session behind it *)

Lemma wp_on_session {A} (m : async Session A) Q N f :
  wp m Q (λ _, True) (f_session f) → (∀ f', N f') → wp (on_session m) (λ a f', Q a (f_session f')) N f.
Proof.
  intros Hm HN. unfold wp. destruct (on_session m f) as [[a|] f'] eqn:H; [|done].
  apply on_session_run in H as [H _]. by apply (wp_run _ _ _ _ _ _ Hm) in H.
Qed.

Context {X : SessionCtx} (others : gmap PoolKey PoolInner) (ks : PoolKey → Prop).
#[local] Abbreviation typed_front := (λ f, typed others ks true (f_session f)).

Lemma typed_on_session {A} (m : async Session A) :
  preserves (typed others ks true) (λ _, True) m → preserves typed_front (λ _, True) (on_session m).
Proof.
  intros Hm f Hf. apply (wp_on_session m (λ _ s, typed others ks true s ∧ True)); [by apply Hm|done].
Qed.

Lemma typed_install_hooks sh : preserves typed_front (λ _, True) (on_session (install_hooks sh)).
Proof.
  apply typed_on_session, holding_preserves, typed_still. unfold install_hooks.
  destruct (sh_interceptor sh); [|by apply keeps_modify].
  apply keeps_bind; [apply _|apply still_chore; eauto with keeps|]. intros now. by apply keeps_modify.
Qed.

Lemma typed_front_chore {A} (m : async Session A) :
  keeps chore m → preserves typed_front (λ _, True) (on_session m).
Proof. intros Hm. by apply typed_on_session, holding_preserves, typed_still, still_chore. Qed.

Lemma typed_send_each ms : preserves typed_front (λ _, True) (send_each ms).
Proof.
  induction ms as [|m ms IH]; simpl; [by apply preserves_ret|]. unfold try_bind.
  apply (preserves_bind _ (λ _, True)); [apply typed_front_chore; eauto with keeps|].
  intros [u|e] _; [done|by apply preserves_ret].
Qed.

Lemma typed_upstream_parameters sh : preserves typed_front (λ _, True) (upstream_parameters sh).
Proof.
  unfold upstream_parameters, send_fatal, send, try_bind. destruct cx_transaction_mode.
  - apply (preserves_bind _ (λ _, True)); [by apply typed_on_session, holding_preserves, typed_baseline|].
    intros [m|e] _; [by apply preserves_ret|].
    apply (preserves_bind _ (λ _, True)); [|by intros [] _; apply preserves_ret].
    apply (preserves_bind _ (λ _, True)); [apply typed_front_chore; eauto with keeps|].
    intros [u|e'] _; [|by apply preserves_ret]. by intros f Hf.
  - intros f Hf. apply wp_bind.
    apply (wp_mono _ (λ ok f', typed_front f' ∧ (ok = true → is_Some (lease (f_session f')))) _ (λ _, True)); [|done|].
    { intros [] f' [Hf' Hl]; [|done]. apply wp_bind, (wp_mono _ (λ _, typed_front) _ (λ _, True)); [done|done|].
      apply (wp_on_session _ (λ _, typed others ks true)); [|done]. apply wp_modify. destruct Hf'. by split; auto. }
    apply (wp_on_session _ (λ ok s, typed others ks true s ∧ (ok = true → is_Some (lease s)))); [|done].
    eapply wp_mono; [| |apply wp_and; [by apply typed_ensure|apply ensure_lease]]; simpl; [|done].
    by intros ok s [[? _] ?].
Qed.

(** The pump starts well-typed. *)
Lemma typed_start sh k f :
  typed_front f → wp (start_session sh X k) (λ r f', r = Ok true → typed_front f') (λ _, True) f.
Proof.
  intros Hf. unfold start_session. apply wp_bind.
  eapply wp_mono; [| |by apply typed_install_hooks]; simpl; [|done].
  clear f Hf. intros _ f [Hf _]. apply wp_try_bind.
  eapply wp_mono; [| |by apply typed_upstream_parameters]; simpl; [|done].
  clear f Hf. intros [[ps|]|e] f [Hf _]; [|done..]. apply wp_try_bind. unfold finish_authentication.
  apply wp_bind. eapply wp_mono; [| |by apply typed_send_each]; simpl; [|done].
  clear f Hf. intros [u|e] f [Hf _].
  2: { apply wp_bind. unfold wp at 1. by destruct (on_session drop_session_lease f) as [[]]. }
  apply wp_ret, wp_bind. eapply wp_mono; [| |apply (typed_front_chore (set_downstream_status Idle)); [|exact Hf]]; simpl; [|done|].
  2: { eauto with keeps. }
  clear f Hf. intros _ f [Hf _]. apply wp_bind, wp_modify, wp_bind, wp_modify, wp_ret. intros _. simpl.
  destruct Hf. by split.
Qed.

End Clients.

(** ** The console that looks *)

Section Looking.
Context `{P : Platform} {F : Fuel} {I : Interceptor} {U : UnicodeTables} {Sch : Schedule} {X : SessionCtx}.
#[local] Existing Instance execute_scatter_impl.

(** The column [state] of a row. *)
Definition state_column (row : list string) : option string := row !! 5.
Definition state_text (b : bool) : string := if b then "attached" else "idle".

(** A console's own steps leave the flags of others alone. *)
Definition flag_kept (a : nat) (f f' : Front) : Prop :=
  f_cell f' = f_cell f ∧ (f_cell f ≠ Some a → f_flags f' !! a = f_flags f !! a).

Lemma flag_kept_on_session {A} a (m : async Session A) : keeps (flag_kept a) (on_session m).
Proof.
  intros f r f'. unfold on_session, zoom, publish, flag_kept. destruct (m _) as [r0 s]. intros [= _ <-]. simpl.
  destruct (f_cell f) as [b|] eqn:Hc; [|done]. split; [done|]. intros Hn. simpl.
  apply list_lookup_insert_ne. congruence.
Qed.

(** Each entry is shown with its flag. *)
Lemma client_rows_states l f rows f' j i b :
  client_rows l f = (Ready rows, f') → l !! j = Some i →
  f_flags f !! si_attached i = Some b → f_cell f ≠ Some (si_attached i) →
  ∃ row, rows !! j = Some row ∧ state_column row = Some (state_text b).
Proof.
  revert f rows j. induction l as [|i0 l IH]; intros f rows j Hrun Hj Hb Hc; [done|].
  simpl in Hrun. apply bind_ready_inv in Hrun as (flags & f1 & [= <- <-] & Hrun).
  apply bind_ready_inv in Hrun as (now & f2 & H2 & Hrun).
  apply bind_ready_inv in Hrun as (rest & f3 & H3 & [= <- <-]).
  destruct j as [|j]; simpl in Hj; [injection Hj as ->|].
  - eexists. split; [done|]. unfold state_column. simpl. by rewrite (nth_lookup_Some _ _ _ _ Hb).
  - apply (flag_kept_on_session (si_attached i)) in H2 as [Hc2 Hf2].
    apply (IH f2 rest j H3 Hj); [by rewrite Hf2|by rewrite Hc2].
Qed.

(** C34: what [SHOW CLIENTS] says of a live client session, between the events
    of its pump and whatever happened to it before: its state column is the
    session's own flag, and it is "attached" only while the session holds an
    upstream connection. *)
Theorem clients_show_leases sh k evs f f1 f2 e c c' rows i j :
  well_typed (f_session f) →
  start_session sh X k (new_flag f).2 = (Ready (Ok true), f1) →
  on_session (pump evs) f1 = (Ready e, f2) →
  f_flags c = f_flags f2 → f_cell c ≠ Some (si_attached i) →
  rt_sessions (f_runtime c) !! j = Some i → si_attached i = length (f_flags f) →
  client_rows (rt_sessions (f_runtime c)) c = (Ready rows, c') →
  ∃ row, rows !! j = Some row ∧ state_column row = Some (state_text (attached (f_session f2))) ∧
    (state_column row = Some "attached" → is_Some (lease (f_session f2))).
Proof.
  intros Hty H1 H2 Hflags Hcell Hj Hi Hrows. destruct (new_flag_published f) as [Hp0 Hc0].
  destruct (shares_start _ _ _ _ _ _ H1) as [Hc1 Hp1]. specialize (Hp1 Hp0).
  destruct (shares_on_session _ _ _ _ H2) as [Hc2 Hp2]. specialize (Hp2 Hp1).
  assert (typed (s_pools (f_session f)) (λ _, False) true (f_session (new_flag f).2)) as Hty0
    by (destruct Hty; by split).
  pose proof (wp_run _ _ _ _ _ _ (typed_start _ _ sh k _ Hty0) H1 eq_refl) as Hty1.
  apply on_session_run in H2 as [H2 _].
  destruct (wp_run _ _ _ _ _ _ (typed_pump _ _ evs _ Hty1) H2) as [Hty2 _].
  rewrite <-Hi in Hc0. assert (f_flags c !! si_attached i = Some (attached (f_session f2))) as Hb
    by (rewrite Hflags; apply Hp2; congruence).
  destruct (client_rows_states _ _ _ _ _ _ _ Hrows Hj Hb Hcell) as (row & Hrow & Hs).
  exists row. split; [done|]. split; [done|]. rewrite Hs. unfold state_text.
  destruct (attached (f_session f2)) eqn:Ha; [|done]. intros _. by apply (ty_flag _ _ _ _ Hty2).
Qed.

End Looking.
