(* ===== verification/Proxy.v ===== *)
(** * The proxy builder (proxy.rs, config.rs)

    The builder that assembles a configuration.  Socket addresses are an
    abstract type with a parser, a registered service any value. *)

From S2P Require Import Prelude RustStr Messages Config Routing.

Class Sockets := {
  SocketAddr : Type;
  parse_addr : string → option SocketAddr;
  Service : Type
}.

Inductive ConfigError :=
| ListenAddr (addr : string)
| Missing (what : string)
| Tls (what : string).

Record ServerTlsConfig := MkServerTlsConfig {
  cert : string;
  tls_key : string
}.

Section Builder.
Context {K : Sockets}.

(** What answers the hooks: the user's service or the built-in router. *)
Inductive ServiceChoice :=
| UserService (s : Service)
| BuiltinFailover (g : EndpointGroup).

Record ProxyConfig := MkProxyConfig {
  listen_addr : SocketAddr;
  cfg_route : RouteConfig;
  cfg_pool : PoolConfig;
  max_client_conn : nat;
  admin_database : option string;
  metrics_addr : option SocketAddr;
  tls_server : option ServerTlsConfig;
  shutdown_drain : Duration
}.

Record ProxyBuilder := MkProxyBuilder {
  b_listen_addr : option SocketAddr;
  b_route : option RouteConfig;
  b_pool_config : option PoolConfig;
  b_max_client_conn : nat;
  b_interceptor : option Service;
  b_admin_database : option string;
  b_metrics_addr : option SocketAddr;
  b_tls_server : option ServerTlsConfig;
  b_shutdown_drain : option Duration
}.
#[global] Instance eta_ProxyBuilder : Eta ProxyBuilder := λ b,
  MkProxyBuilder (b_listen_addr b) (b_route b) (b_pool_config b) (b_max_client_conn b)
    (b_interceptor b) (b_admin_database b) (b_metrics_addr b) (b_tls_server b)
    (b_shutdown_drain b).

Definition builder : ProxyBuilder :=
  MkProxyBuilder None None None 0 None None None None None.

Definition set_listen (addr : string) (b : ProxyBuilder) : result ConfigError ProxyBuilder :=
  match parse_addr addr with
  | Some a => Ok (b <| b_listen_addr := Some a |>)
  | None => Err (ListenAddr addr)
  end.

Definition set_service (s : Service) (b : ProxyBuilder) : ProxyBuilder :=
  b <| b_interceptor := Some s |>.

Definition set_route (r : RouteConfig) (b : ProxyBuilder) : ProxyBuilder :=
  b <| b_route := Some r |>.

Definition no_tls_config : UpstreamTlsConfig := MkUpstreamTlsConfig None false.

Definition set_upstream (connstring : string) (b : ProxyBuilder) : ProxyBuilder :=
  b <| b_route := Some (MkRouteConfig "default"
         [MkEndpointConfig "default" connstring None None] None no_tls_config) |>.

(** The implicit default endpoint is replaced by the first named one. *)
Definition is_default_route (r : RouteConfig) : bool :=
  match endpoints r with
  | [e] => bool_decide (id e = "default")
  | _ => false
  end.

Definition add_endpoint (i connstring : string) (b : ProxyBuilder) : ProxyBuilder :=
  let e := MkEndpointConfig i connstring None None in
  match b_route b with
  | Some r =>
    if is_default_route r
    then b <| b_route := Some (MkRouteConfig (name r) [e] (password r) (tls r)) |>
    else b <| b_route := Some (MkRouteConfig (name r) (endpoints r ++ [e]) (password r) (tls r)) |>
  | None => b <| b_route := Some (MkRouteConfig "default" [e] None no_tls_config) |>
  end.

Definition set_password (pw : string) (b : ProxyBuilder) : ProxyBuilder :=
  match b_route b with
  | Some r => b <| b_route := Some (MkRouteConfig (name r) (endpoints r) (Some pw) (tls r)) |>
  | None => b
  end.

(** [password_env]: [lookup] reads the environment. *)
Definition set_password_env (lookup : string → option string) (var : string) (b : ProxyBuilder) :
    ProxyBuilder :=
  match lookup var with
  | Some pw => set_password pw b
  | None => b
  end.

Definition set_pool_config (c : PoolConfig) (b : ProxyBuilder) : ProxyBuilder :=
  b <| b_pool_config := Some c |>.
Definition set_max_client_conn (n : nat) (b : ProxyBuilder) : ProxyBuilder :=
  b <| b_max_client_conn := n |>.
Definition set_admin_database (n : string) (b : ProxyBuilder) : ProxyBuilder :=
  b <| b_admin_database := Some n |>.
Definition set_metrics_addr (addr : string) (b : ProxyBuilder) : result ConfigError ProxyBuilder :=
  match parse_addr addr with
  | Some a => Ok (b <| b_metrics_addr := Some a |>)
  | None => Err (ListenAddr addr)
  end.
Definition set_tls_server (c k : string) (b : ProxyBuilder) : ProxyBuilder :=
  b <| b_tls_server := Some (MkServerTlsConfig c k) |>.
Definition set_shutdown_drain (d : Duration) (b : ProxyBuilder) : ProxyBuilder :=
  b <| b_shutdown_drain := Some d |>.

Definition choose_service (s : option Service) (r : option RouteConfig) : option ServiceChoice :=
  match s, r with
  | Some s, _ => Some (UserService s)
  | None, Some r =>
    if bool_decide (1 < length (endpoints r)) then Some (BuiltinFailover (from_endpoints (endpoints r)))
    else None
  | None, None => None
  end.

Definition build (b : ProxyBuilder) :
    result ConfigError (ProxyConfig * option ServiceChoice) :=
  let interceptor := choose_service (b_interceptor b) (b_route b) in
  match b_listen_addr b with
  | None => Err (Missing "listen")
  | Some l =>
    match b_route b with
    | None => Err (Missing "upstream")
    | Some r =>
      Ok (MkProxyConfig l r (default PoolConfig_default (b_pool_config b))
            (if decide (b_max_client_conn b = 0) then 128 else b_max_client_conn b)
            (b_admin_database b) (b_metrics_addr b) (b_tls_server b)
            (default (from_secs 30) (b_shutdown_drain b)), interceptor)
    end
  end.

(** ** Properties of the builder *)

Definition add_endpoints (l : list (string * string)) (b : ProxyBuilder) : ProxyBuilder :=
  foldl (λ b '(i, c), add_endpoint i c b) b l.

Definition named (l : list (string * string)) : list EndpointConfig :=
  (λ '(i, c), MkEndpointConfig i c None None) <$> l.

Lemma add_endpoints_route l b r :
  b_route b = Some r → is_default_route r = false →
  Forall (λ '(i, _), i ≠ "default") l →
  endpoints <$> b_route (add_endpoints l b) = Some (endpoints r ++ named l) ∧
  b_listen_addr (add_endpoints l b) = b_listen_addr b ∧
  b_interceptor (add_endpoints l b) = b_interceptor b ∧
  b_max_client_conn (add_endpoints l b) = b_max_client_conn b.
Proof.
  intros Hb Hr Hl. revert b r Hb Hr.
  induction Hl as [|[i c] l Hi _ IH]; intros b r Hb Hr.
  { simpl. rewrite Hb. simpl. by rewrite app_nil_r. }
  set (r' := MkRouteConfig (name r) (endpoints r ++ [MkEndpointConfig i c None None]) (password r) (tls r)).
  assert (add_endpoint i c b = b <| b_route := Some r' |>) as Hadd
    by (unfold add_endpoint; by rewrite Hb, Hr).
  change (add_endpoints ((i, c) :: l) b) with (add_endpoints l (add_endpoint i c b)). rewrite Hadd.
  set (b' := b <| b_route := Some r' |>).
  destruct (IH b' r' eq_refl) as (-> & -> & -> & ->).
  { unfold is_default_route. simpl. destruct (endpoints r) as [|e [|e' es]]; simpl; [|done|done].
    by apply bool_decide_eq_false. }
  simpl. by rewrite <-app_assoc.
Qed.

(** C40: the builder: endpoints added by name, none of which is called [default],
    are all kept in order, and the implicit default of [upstream] gives way to
    the first; with two or more of them and no service of the user's the
    built-in failover router over exactly those endpoints is installed; a
    session cap of zero, which is also the builder's default, is built as
    128, any other as it is.  (An endpoint that is called [default] can be lost:
    [default_named_endpoint_lost].) *)
Theorem build_named_endpoints connstring i c l b cfg svc :
  i ≠ "default" → Forall (λ '(i, _), i ≠ "default") l →
  build (add_endpoints ((i, c) :: l) (set_upstream connstring b)) = Ok (cfg, svc) →
  endpoints (cfg_route cfg) = named ((i, c) :: l) ∧
  max_client_conn cfg = (match b_max_client_conn b with 0 => 128 | S n => S n end) ∧
  svc = match b_interceptor b with
        | Some s => Some (UserService s)
        | None => if decide (l = []) then None
                  else Some (BuiltinFailover (from_endpoints (named ((i, c) :: l))))
        end.
Proof.
  intros Hi Hl. set (b0 := set_upstream connstring b).
  set (r := MkRouteConfig "default" [MkEndpointConfig i c None None] None no_tls_config).
  change (add_endpoints ((i, c) :: l) b0) with (add_endpoints l (b0 <| b_route := Some r |>)).
  set (b00 := b0 <| b_route := Some r |>).
  destruct (add_endpoints_route l b00 r eq_refl) as (Hr & Hls & Hint & Hmax);
    [by apply bool_decide_eq_false|done|].
  set (b1 := add_endpoints l _) in *. clearbody b1. unfold build, choose_service.
  destruct (b_listen_addr b1); [|done]. destruct (b_route b1) as [r1|]; [|done].
  injection Hr as Hr. rewrite Hint, Hmax. intros [= <- <-]. simpl. rewrite Hr. split; [done|].
  split; [by destruct (b_max_client_conn b)|]. simpl. destruct (b_interceptor b); [done|].
  by destruct l as [|x l].
Qed.

(** An endpoint the user names [default] is lost when a second one is added:
    the builder takes it for the implicit one. *)
Theorem default_named_endpoint_lost c i c' b :
  b_route b = None →
  endpoints <$> b_route (add_endpoint i c' (add_endpoint "default" c b)) = Some (named [(i, c')]).
Proof. intros Hb. unfold add_endpoint. by rewrite Hb. Qed.

End Builder.
