(* ===== verification/Server.v ===== *)
(** * The running proxy (proxy.rs)

    [serve]: binding, the TLS acceptor and the tasks it spawns; the accept loop
    with its cap on client sessions; the shutdown of a [ProxyServer].  Time and
    scheduling are nondeterministic: a run is any sequence of events. *)

From S2P Require Import Prelude RustStr Messages Config Routing Proxy.

(** ** Starting *)

Inductive IoError :=
| Os (code : Z)
| Other (message : string).

(** The operating system, [rustls] and [rustls_pemfile].  [PemError] and
    [TlsError] are the texts of their errors. *)
Class Host {K : Sockets} := {
  HostState : Type;
  Listener : Type;
  bind : SocketAddr → HostState → result IoError Listener * HostState;
  local_addr : Listener → result IoError SocketAddr;
  open_file : string → result IoError bytes;
  Certificate : Type;
  PrivateKey : Type;
  TlsAcceptor : Type;
  certs : bytes → list (result string Certificate);
  pkcs8_private_keys : bytes → list (result string PrivateKey);
  rsa_private_keys : bytes → list (result string PrivateKey);
  with_single_cert : list Certificate → PrivateKey → result string TlsAcceptor
}.

(** [Iterator::collect] into a [Result]: the first error wins. *)
Fixpoint collect {E A} (l : list (result E A)) : result E (list A) :=
  match l with
  | [] => Ok []
  | Err e :: _ => Err e
  | Ok a :: l => match collect l with Ok l => Ok (a :: l) | Err e => Err e end
  end.

Definition map_err {E E' A} (f : E → E') (r : result E A) : result E' A :=
  match r with Ok a => Ok a | Err e => Err (f e) end.

(** [m?] for a plain result. *)
Definition and_then {E A B} (r : result E A) (k : A → result E B) : result E B :=
  match r with Ok a => k a | Err e => Err e end.

Section Serve.
Context {K : Sockets} {H : Host}.

(** The first PKCS#8 key of the file, else its last RSA key. *)
Definition load_key (path : string) : result IoError PrivateKey :=
  and_then (open_file path) (λ contents,
  and_then (map_err (λ e, Other ("pkcs8 key: " +:+ e)) (collect (pkcs8_private_keys contents))) (λ keys,
  match keys with
  | key :: _ => Ok key
  | [] =>
    and_then (open_file path) (λ contents,
    and_then (map_err (λ e, Other ("rsa key: " +:+ e)) (collect (rsa_private_keys contents))) (λ keys,
    match last keys with
    | Some key => Ok key
    | None => Err (Other "no private key found in key file")
    end))
  end)).

Definition build_tls_acceptor (c : ServerTlsConfig) : result IoError TlsAcceptor :=
  and_then (open_file (cert c)) (λ contents,
  and_then (map_err (λ e, Other ("reading " +:+ debug_str (cert c) +:+ ": " +:+ e))
              (collect (certs contents))) (λ chain,
  and_then (load_key (tls_key c)) (λ key,
  map_err (λ e, Other ("tls config: " +:+ e)) (with_single_cert chain key)))).

End Serve.

(** ** The tasks *)

(** The accept loop accepts, drains for for the [rest] of its window, or has ended. *)
Inductive Phase := Serving | Draining (rest : Duration) | Done.

(** The accept loop: slots left, whether it holds one while it waits for a
    connection, the sessions that run, those that were aborted and hold their
    slot until the runtime drops them, and those that ended but are still in
    the [JoinSet]; and the drain window it was given. *)
Record Accept := MkAccept {
  slots : nat;
  holding : bool;
  running : nat;
  aborting : nat;
  retained : nat;
  phase : Phase;
  window : Duration
}.

Definition accept_init (max : nat) (drain : Duration) : Accept := MkAccept max false 0 0 0 Serving drain.

Inductive AcceptEvent :=
| SlotAcquired
| Accepted
| AcceptFailed
| SessionEnded
| SignalTaken
| Elapse (d : Duration)
| Joined
| Drained
| DrainTimeout
| SessionDropped.

(** One event of [accept_loop] and the sessions it spawned; [None] when it
    cannot happen.  Time is only followed while the loop drains, up to the
    deadline; [abort_all] marks what is left in the set, and a marked session
    is dropped, with its slot, when the runtime next gets to it. *)
Definition accept_event (ev : AcceptEvent) (a : Accept) : option Accept :=
  match ev, a with
  | SlotAcquired, MkAccept (S n) false r x t Serving w => Some (MkAccept n true r x t Serving w)
  | Accepted, MkAccept n true r x t Serving w => Some (MkAccept n false (S r) x t Serving w)
  | AcceptFailed, MkAccept n true r x t Serving w => Some (MkAccept (S n) false r x t Serving w)
  | SessionEnded, MkAccept n h (S r) x t ph w => Some (MkAccept (S n) h r x (S t) ph w)
  | SignalTaken, MkAccept n h r x t Serving w =>
    Some (MkAccept (if h then S n else n) false r x t (Draining w) w)
  | Elapse d, MkAccept n h r x t (Draining l) w =>
    if decide (0 < d ≤ l)%Z then Some (MkAccept n h r x t (Draining (l - d)) w) else None
  | Joined, MkAccept n h r x (S t) (Draining l) w => Some (MkAccept n h r x t (Draining l) w)
  | Drained, MkAccept n h 0 x 0 (Draining _) w => Some (MkAccept n h 0 x 0 Done w)
  | DrainTimeout, MkAccept n h r x t (Draining l) w =>
    if decide ((l ≤ 0)%Z ∧ 0 < r + t) then Some (MkAccept n h 0 (x + r) 0 Done w) else None
  | SessionDropped, MkAccept n h r (S x) t ph w => Some (MkAccept (S n) h r x t ph w)
  | _, _ => None
  end.

(** A task that was aborted stays until the runtime drops it. *)
Inductive TaskState := NotSpawned | Running | Aborting | Finished | Aborted.
#[global] Instance task_state_eq : EqDecision TaskState.
Proof. solve_decision. Defined.

(** [JoinHandle::abort]: a task that has ended stays as it is. *)
Definition abort (t : TaskState) : TaskState :=
  match t with Running => Aborting | t => t end.

(** The runtime drops an aborted task. *)
Definition dropped (t : TaskState) : option TaskState :=
  match t with Aborting => Some Aborted | _ => None end.

Lemma dropped_Some t t' : dropped t = Some t' ↔ t = Aborting ∧ t' = Aborted.
Proof. destruct t; simpl; naive_solver. Qed.

(** Not ended yet. *)
Definition alive (t : TaskState) : bool := match t with Running | Aborting => true | _ => false end.

(** Who holds the [ProxyServer]: its owner, an await of [shutdown_graceful] or
    [wait], or nobody any more. *)
Inductive Handle := Held | Awaited | Returned | Gone.

(** [handlers]: the connections of the metrics endpoint, tasks of their own. *)
Record Server := MkServer {
  accept : Accept;
  sweeper : TaskState;
  metrics_task : TaskState;
  handlers : nat;
  supervisor : TaskState;
  signalled : bool;
  owner : Handle
}.
#[global] Instance eta_Server : Eta Server := λ s,
  MkServer (accept s) (sweeper s) (metrics_task s) (handlers s) (supervisor s) (signalled s) (owner s).

Section Serving.
Context {K : Sockets} {H : Host}.

(** The addresses a [ProxyServer] reports. *)
Record ProxyServer := MkProxyServer {
  server_addr : SocketAddr;
  server_metrics_addr : option SocketAddr
}.

(** The result is the server with its tasks; the second component is the
    sweeper, which outlives an error that comes after its start. *)
Definition serve (cfg : ProxyConfig) (h : HostState) :
    result IoError (ProxyServer * Server) * TaskState * HostState :=
  match bind (listen_addr cfg) h with
  | (Err e, h) => (Err e, NotSpawned, h)
  | (Ok listener, h) =>
    match local_addr listener with
    | Err e => (Err e, NotSpawned, h)
    | Ok addr =>
      match (match tls_server cfg with
             | Some t => and_then (build_tls_acceptor t) (λ a, Ok (Some a))
             | None => Ok None
             end) with
      | Err e => (Err e, NotSpawned, h)
      | Ok _ =>
        let sweeper := Running in
        let spawned m := MkServer (accept_init (max_client_conn cfg) (shutdown_drain cfg)) sweeper m 0 Running false Held in
        match metrics_addr cfg with
        | None => (Ok (MkProxyServer addr None, spawned NotSpawned), sweeper, h)
        | Some a =>
          match bind a h with
          | (Err e, h) => (Err e, sweeper, h)
          | (Ok l, h) =>
            let ma := match local_addr l with Ok a => Some a | Err _ => None end in
            (Ok (MkProxyServer addr ma, spawned Running), sweeper, h)
          end
        end
      end
    end
  end.

End Serving.

(** ** Events of a running server *)

Inductive ServerEvent :=
| AcceptLoop (ev : AcceptEvent)
| Supervise
| MetricsEnds
| MetricsAccepts
| HandlerEnds
| SweeperDropped
| MetricsDropped
| SupervisorDropped
| CallShutdown
| CallGraceful
| CallWait
| DropServer
| AwaitEnds.

(** Dropping the sender wakes the receivers like a signal does; a task that was
    aborted may be in its last poll. *)
Definition server_event (ev : ServerEvent) (s : Server) : option Server :=
  match ev with
  | AcceptLoop SignalTaken =>
    if signalled s then (λ a, s <| accept := a |>) <$> accept_event SignalTaken (accept s) else None
  | AcceptLoop ev => (λ a, s <| accept := a |>) <$> accept_event ev (accept s)
  | Supervise =>
    match phase (accept s), alive (supervisor s) with
    | Done, true =>
      Some (s <| sweeper ::= abort |> <| metrics_task ::= abort |> <| supervisor := Finished |>)
    | _, _ => None
    end
  | MetricsEnds => if alive (metrics_task s) then Some (s <| metrics_task := Finished |>) else None
  | MetricsAccepts => if alive (metrics_task s) then Some (s <| handlers ::= S |>) else None
  | HandlerEnds => match handlers s with S n => Some (s <| handlers := n |>) | 0 => None end
  | SweeperDropped => (λ t, s <| sweeper := t |>) <$> dropped (sweeper s)
  | MetricsDropped => (λ t, s <| metrics_task := t |>) <$> dropped (metrics_task s)
  | SupervisorDropped => (λ t, s <| supervisor := t |>) <$> dropped (supervisor s)
  | CallShutdown =>
    match owner s with
    | Held => Some (s <| signalled := true |> <| supervisor ::= abort |> <| owner := Gone |>)
    | _ => None
    end
  | CallGraceful =>
    match owner s with Held => Some (s <| signalled := true |> <| owner := Awaited |>) | _ => None end
  | CallWait => match owner s with Held => Some (s <| owner := Awaited |>) | _ => None end
  | DropServer =>
    match owner s with Held => Some (s <| signalled := true |> <| owner := Gone |>) | _ => None end
  | AwaitEnds =>
    match owner s, alive (supervisor s) with
    | Awaited, false => Some (s <| signalled := true |> <| owner := Returned |>)
    | _, _ => None
    end
  end.

Definition server_step (s s' : Server) : Prop := ∃ ev, server_event ev s = Some s'.

(** A run: the events in order. *)
Fixpoint server_run (evs : list ServerEvent) (s : Server) : option Server :=
  match evs with
  | [] => Some s
  | ev :: evs => server_event ev s ≫= server_run evs
  end.

(** The server [serve] starts, with or without a metrics endpoint. *)
Definition started (max : nat) (drain : Duration) (metrics : bool) : Server :=
  MkServer (accept_init max drain) Running (if metrics then Running else NotSpawned) 0 Running false Held.

Definition reachable_server (max : nat) (drain : Duration) (s : Server) : Prop :=
  ∃ m, rtc server_step (started max drain m) s.

(** The events of the accept loop as a relation. *)
Inductive accept_step : AcceptEvent → Accept → Accept → Prop :=
| acc_slot n r x t w :
    accept_step SlotAcquired (MkAccept (S n) false r x t Serving w) (MkAccept n true r x t Serving w)
| acc_ok n r x t w :
    accept_step Accepted (MkAccept n true r x t Serving w) (MkAccept n false (S r) x t Serving w)
| acc_err n r x t w :
    accept_step AcceptFailed (MkAccept n true r x t Serving w) (MkAccept (S n) false r x t Serving w)
| acc_end n h r x t ph w :
    accept_step SessionEnded (MkAccept n h (S r) x t ph w) (MkAccept (S n) h r x (S t) ph w)
| acc_signal n h r x t w :
    accept_step SignalTaken (MkAccept n h r x t Serving w)
      (MkAccept (if h then S n else n) false r x t (Draining w) w)
| acc_elapse d n h r x t l w :
    (0 < d ≤ l)%Z →
    accept_step (Elapse d) (MkAccept n h r x t (Draining l) w) (MkAccept n h r x t (Draining (l - d)) w)
| acc_joined n h r x t l w :
    accept_step Joined (MkAccept n h r x (S t) (Draining l) w) (MkAccept n h r x t (Draining l) w)
| acc_drained n h x l w :
    accept_step Drained (MkAccept n h 0 x 0 (Draining l) w) (MkAccept n h 0 x 0 Done w)
| acc_timeout n h r x t l w :
    (l ≤ 0)%Z ∧ 0 < r + t →
    accept_step DrainTimeout (MkAccept n h r x t (Draining l) w) (MkAccept n h 0 (x + r) 0 Done w)
| acc_dropped n h r x t ph w :
    accept_step SessionDropped (MkAccept n h r (S x) t ph w) (MkAccept (S n) h r x t ph w).

Lemma accept_event_step ev a a' : accept_event ev a = Some a' ↔ accept_step ev a a'.
Proof.
  split; [|destruct 1; simpl; by rewrite ?decide_True]. destruct a as [n h r x t ph w].
  destruct ev; simpl; repeat case_match; intros; simplify_eq; by constructor.
Qed.

(** Slots are conserved, and none is held after the loop was left; sessions are
    aborted when the loop ends, and not before. *)
Record accept_inv (max : nat) (drain : Duration) (a : Accept) : Prop := {
  ai_slots : slots a + (if holding a then 1 else 0) + running a + aborting a = max;
  ai_holding : phase a ≠ Serving → holding a = false;
  ai_done : phase a = Done → running a = 0;
  ai_aborting : phase a ≠ Done → aborting a = 0;
  ai_left l : phase a = Draining l → (0 ≤ drain → 0 ≤ l ≤ drain)%Z;
  ai_window : window a = drain
}.

Lemma accept_event_inv max drain ev a a' :
  accept_event ev a = Some a' → accept_inv max drain a → accept_inv max drain a'.
Proof.
  rewrite accept_event_step. intros Hev [Hn Hh Hd Ha Hl Hw].
  destruct Hev as [| | | | |d n h r x t l w Hel| | | |]; simpl in *; constructor; simpl; try done;
    try (destruct h; simpl in *; lia); try (intros; naive_solver lia).
  intros l' [= <-] H0. specialize (Hl l eq_refl H0). lia.
Qed.
Record server_inv (max : nat) (drain : Duration) (s : Server) : Prop := {
  inv_accept : accept_inv max drain (accept s);
  inv_sweeper : alive (sweeper s) = true ∨ sweeper s = Aborted;
  inv_supervisor : supervisor s ≠ NotSpawned;
  inv_finished : supervisor s = Finished → phase (accept s) = Done ∧ sweeper s ≠ Running ∧ metrics_task s ≠ Running;
  inv_told : supervisor s ≠ Finished → sweeper s = Running ∧ metrics_task s ≠ Aborting ∧ metrics_task s ≠ Aborted;
  inv_aborted : supervisor s = Aborted ∨ supervisor s = Aborting → owner s = Gone;
  inv_returned : owner s = Returned → supervisor s = Finished;
  inv_signal : phase (accept s) ≠ Serving → signalled s = true
}.

(** The loop leaves [Serving] only by the signal, and [Done] for nothing. *)
Lemma accept_event_phase ev a a' :
  accept_event ev a = Some a' →
  (phase a = Done → phase a' = Done) ∧
  (phase a' ≠ Serving → phase a ≠ Serving ∨ ev = SignalTaken).
Proof.
  rewrite accept_event_step. destruct 1; simpl; (split; [done|]); auto.
Qed.

(** An event is one of the accept loop or leaves it alone. *)
Lemma server_event_accept ev s s' :
  server_event ev s = Some s' →
  (∃ aev a, ev = AcceptLoop aev ∧ accept_event aev (accept s) = Some a ∧ s' = s <| accept := a |> ∧
     (aev = SignalTaken → signalled s = true)) ∨ accept s' = accept s ∧ ∀ aev, ev ≠ AcceptLoop aev.
Proof.
  intros Hev. destruct ev as [ev| | | | | | | | | | | |]; simpl in Hev;
    try (right; split; [|done]; repeat case_match; by simplify_option_eq).
  left. exists ev. destruct ev; try (apply fmap_Some in Hev as (a & Ha & ->); by exists a).
  destruct (signalled s) eqn:Hs; [|done]. apply fmap_Some in Hev as (a & Ha & ->).
  exists a. rewrite <-Hs. done.
Qed.

Lemma server_event_inv max drain ev s s' :
  server_event ev s = Some s' → server_inv max drain s → server_inv max drain s'.
Proof.
  intros Hev [Ia Is In If It Ib Ir Ig].
  destruct (server_event_accept _ _ _ Hev) as [(aev & a & -> & Ha & -> & Hs)|[_ Hne]].
  { destruct (accept_event_phase _ _ _ Ha) as [Hd Hp].
    constructor; simpl; try done; [by eapply accept_event_inv|naive_solver|].
    intros Hph. destruct (Hp Hph) as [?| ->]; auto. }
  destruct ev as [ev| | | | | | | | | | | |]; simpl in Hev; [by destruct (Hne ev)|..].
  - destruct (phase (accept s)) eqn:Hp, (alive (supervisor s)) eqn:Hs; simplify_eq.
    destruct It as (Hsw & Hm1 & Hm2); [by intros Hf; rewrite Hf in Hs|].
    constructor; simpl; rewrite ?Hsw; try done; [by left| | |intros _; apply Ig; done].
    + split; [done|]. split; [done|]. by destruct (metrics_task s).
    + by intros [?|?].
  - destruct (alive (metrics_task s)) eqn:Hm; simplify_eq. constructor; simpl; try done; naive_solver.
  - destruct (alive (metrics_task s)) eqn:Hm; simplify_eq. by constructor.
  - destruct (handlers s); simplify_eq. by constructor.
  - apply fmap_Some in Hev as (t & [Hs ->]%dropped_Some & ->). constructor; simpl; try done; [by right| |].
    + naive_solver.
    + intros Hf. destruct (It Hf) as [Hr _]. by rewrite Hr in Hs.
  - apply fmap_Some in Hev as (t & [Hs ->]%dropped_Some & ->). constructor; simpl; try done; [naive_solver|].
    intros Hf. destruct (It Hf) as (_ & Hr & _). done.
  - apply fmap_Some in Hev as (t & [Hs ->]%dropped_Some & ->). constructor; simpl; try done.
    + intros _. apply It. by rewrite Hs.
    + intros _. apply Ib. by right.
    + intros Hx. apply Ir in Hx. by rewrite Hs in Hx.
  - destruct (owner s) eqn:Hh; simplify_eq. constructor; simpl; try done.
    + by destruct (supervisor s).
    + intros Hx. apply If. by destruct (supervisor s).
    + intros Hx. apply It. intros Hf. by rewrite Hf in Hx.
  - destruct (owner s) eqn:Hh; simplify_eq. constructor; simpl; try done. intros Hx. by apply Ib in Hx.
  - destruct (owner s) eqn:Hh; simplify_eq. constructor; simpl; try done. intros Hx. by apply Ib in Hx.
  - destruct (owner s) eqn:Hh; simplify_eq. by constructor.
  - destruct (owner s) eqn:Hh, (alive (supervisor s)) eqn:Hs; simplify_eq.
    assert (supervisor s = Finished) as Hf.
    { destruct (supervisor s); try done. by specialize (Ib (or_introl eq_refl)). }
    constructor; simpl; try done. intros [Hx|Hx]; by rewrite Hf in Hx.
Qed.

Lemma started_inv max drain m : server_inv max drain (started max drain m).
Proof.
  constructor; simpl; try done; [|by left|by destruct m|naive_solver].
  constructor; simpl; try done. lia.
Qed.

Lemma reachable_inv max drain s : reachable_server max drain s → server_inv max drain s.
Proof.
  intros [m Hr]. pose proof (started_inv max drain m) as H0. revert H0.
  induction Hr as [|x y z [ev Hev] _ IH]; eauto using server_event_inv.
Qed.

Lemma server_run_steps evs s s' : server_run evs s = Some s' → rtc server_step s s'.
Proof.
  revert s. induction evs as [|ev evs IH]; intros s; simpl; [by intros [= ->]|].
  intros (s1 & H1 & H)%bind_Some. eapply rtc_l; [by exists ev|by apply IH].
Qed.

(** C30: at most [max_client_conn] client sessions exist at any time, those that
    were aborted and are not dropped yet included, and once the accept loop
    has taken the shutdown signal no session is started. *)
Theorem accept_cap max drain s ev s' :
  reachable_server max drain s → server_event ev s = Some s' →
  running (accept s) + aborting (accept s) ≤ max ∧ running (accept s') + aborting (accept s') ≤ max ∧
  (phase (accept s) ≠ Serving →
     running (accept s') ≤ running (accept s) ∧
     running (accept s') + aborting (accept s') ≤ running (accept s) + aborting (accept s) ∧
     phase (accept s') ≠ Serving).
Proof.
  intros Hr Hev. apply reachable_inv in Hr as Hi.
  pose proof (ai_slots _ _ _ (inv_accept _ _ _ (server_event_inv _ _ _ _ _ Hev Hi))).
  pose proof (ai_slots _ _ _ (inv_accept _ _ _ Hi)). split; [lia|]. split; [lia|].
  destruct (server_event_accept _ _ _ Hev) as [(aev & a & _ & Ha & -> & _)|[-> _]]; [|done].
  simpl. apply accept_event_step in Ha. clear -Ha.
  destruct Ha; simpl; try done; intros; split_and!; done || lia.
Qed.

(** ** Shutdown *)

(** What holds of a stopping server from then on: the loop has ended, no session
    runs that was not told to stop, and of what is still there nothing is added. *)
Record winding_down (s s' : Server) : Prop := {
  wd_done : phase (accept s') = Done;
  wd_running : running (accept s') = 0;
  wd_sessions : aborting (accept s') ≤ aborting (accept s);
  wd_sweeper : sweeper s' = Aborting ∨ sweeper s' = Aborted;
  wd_metrics : metrics_task s' ≠ Running
}.

Lemma winding_event ev s0 s s' : server_event ev s = Some s' → winding_down s0 s → winding_down s0 s'.
Proof.
  intros Hev [Hd Hr Hn Hs Hm].
  destruct (server_event_accept _ _ _ Hev) as [(aev & a & -> & Ha & -> & _)|[Ha Hne]].
  - apply accept_event_step in Ha. destruct Ha; simpl in *; simplify_eq; constructor; simpl; done || lia.
  - clear Ha. destruct ev as [ev| | | | | | | | | | | |]; simpl in Hev; [by destruct (Hne ev)|..];
      try (apply fmap_Some in Hev as (t & [Ht ->]%dropped_Some & ->)); repeat case_match; simplify_eq;
      constructor; simpl; auto.
    + by destruct Hs as [->| ->]; [left|right].
    + by destruct (metrics_task s).
Qed.

Lemma winding_steps s0 s s' : rtc server_step s s' → winding_down s0 s → winding_down s0 s'.
Proof. induction 1 as [|x y z [ev Hev] _ IH]; eauto using winding_event. Qed.

(** Without a drain timeout no session was aborted. *)
Lemma aborted_by_timeout evs s s' :
  server_run evs s = Some s' → AcceptLoop DrainTimeout ∉ evs → aborting (accept s) = 0 → aborting (accept s') = 0.
Proof.
  revert s. induction evs as [|ev evs IH]; intros s; simpl; [by intros [= <-]|].
  intros (s1 & H1 & H)%bind_Some [Hne Hin]%not_elem_of_cons H0. apply (IH s1); [done|done|].
  destruct (server_event_accept _ _ _ H1) as [(aev & a & -> & Ha & -> & _)|[-> _]]; [|done].
  simpl. apply accept_event_step in Ha. destruct Ha; simpl in *; done || lia.
Qed.

(** C28: what the return of [shutdown_graceful] or [wait] guarantees.  The accept
    loop has ended and every session ended by itself or was aborted; so were
    the sweeper and the metrics endpoint.  An aborted task is gone when the
    runtime drops it, so some may still be there, but from then on no session
    runs that was not told to stop and no more of them appear.  When the
    drain window did not run out there is none, and every client slot is
    free.  (The connections of the metrics endpoint are tasks that nobody stops:
    [graceful_returns_early] has one.) *)
Theorem graceful_stops_everything max drain m evs s :
  server_run evs (started max drain m) = Some s → owner s = Returned →
  slots (accept s) + aborting (accept s) = max ∧
  (∀ s', rtc server_step s s' → winding_down s s') ∧
  (AcceptLoop DrainTimeout ∉ evs → aborting (accept s) = 0 ∧ slots (accept s) = max).
Proof.
  intros Hrun Hret. assert (server_inv max drain s) as [Ia Is _ If _ _ Ir _]
    by (apply reachable_inv; exists m; by eapply server_run_steps).
  specialize (Ir Hret). destruct (If Ir) as (Hp & Hs & Hm).
  pose proof (ai_slots _ _ _ Ia) as Hn. rewrite (ai_holding _ _ _ Ia), (ai_done _ _ _ Ia) in Hn by (by rewrite Hp).
  split; [lia|]. split.
  - intros s' Hr. apply (winding_steps _ _ _ Hr).
    constructor; [done|by apply Ia|done| |done]. destruct (sweeper s), Is; naive_solver.
  - intros Hin. pose proof (aborted_by_timeout _ _ _ Hrun Hin eq_refl). lia.
Qed.

(** The runtime may take its time: [shutdown_graceful] can return while an
    aborted session still holds its slot and a metrics connection is served. *)
Example graceful_returns_early :
  ∃ s, server_run [AcceptLoop SlotAcquired; AcceptLoop Accepted; MetricsAccepts; CallGraceful;
      AcceptLoop SignalTaken; AcceptLoop (Elapse 5); AcceptLoop DrainTimeout; Supervise; AwaitEnds]
      (started 1 5 true) = Some s ∧
    owner s = Returned ∧ slots (accept s) = 0 ∧ aborting (accept s) = 1 ∧ handlers s = 1.
Proof. eexists. split; [vm_compute; reflexivity|done]. Qed.

(** The connections of the metrics endpoint come and go as its peers like. *)
Definition scrape (ev : ServerEvent) : bool :=
  match ev with MetricsAccepts | HandlerEnds => true | _ => false end.

(** What is left to do once the loop is draining: every event that is not of a
    metrics connection uses some up. *)
Definition work_left (s : Server) : nat :=
  3 * running (accept s) + aborting (accept s) + retained (accept s) +
  (match phase (accept s) with Serving => 2 | Draining l => 1 + Z.to_nat l | Done => 0 end) +
  sum_list ((λ t, match t with Running => 2 | Aborting => 1 | _ => 0 end) <$>
    [sweeper s; metrics_task s; supervisor s]) +
  (match owner s with Held => 2 | Awaited => 1 | _ => 0 end).

Lemma work_decreases ev s s' :
  server_event ev s = Some s' → phase (accept s) ≠ Serving →
  work_left s' + (if scrape ev then 0 else 1) ≤ work_left s ∧ phase (accept s') ≠ Serving.
Proof.
  intros Hev Hp. destruct (server_event_accept _ _ _ Hev) as [(aev & a & -> & Ha & -> & _)|[Ha Hne]].
  { unfold work_left. simpl. apply accept_event_step in Ha. revert Hp.
    destruct Ha; simpl; try done; intros; split; done || lia. }
  split; [|by rewrite Ha]. unfold work_left. rewrite Ha. clear Ha Hp.
  generalize (3 * running (accept s) + aborting (accept s) + retained (accept s) +
    match phase (accept s) with Serving => 2 | Draining l => 1 + Z.to_nat l | Done => 0 end). intros n.
  assert (∀ t t', dropped t = Some t' → t = Aborting ∧ t' = Aborted) as Hdr by apply dropped_Some.
  assert (∀ t, (match abort t with Running => 2 | Aborting => 1 | _ => 0 end) ≤
    (match t with Running => 2 | Aborting => 1 | _ => 0 end)) as Hab by (intros []; simpl; lia).
  pose proof (Hab (sweeper s)). pose proof (Hab (metrics_task s)). pose proof (Hab (supervisor s)). clear Hab.
  destruct ev as [ev| | | | | | | | | | | |]; simpl in Hev; [by destruct (Hne ev)|..].
  - destruct (phase (accept s)), (supervisor s); simplify_eq/=; lia.
  - destruct (metrics_task s); simplify_eq/=; lia.
  - destruct (alive (metrics_task s)); simplify_eq/=; lia.
  - destruct (handlers s); simplify_eq/=; lia.
  - apply fmap_Some in Hev as (t & [Hs ->]%Hdr & ->). simpl. rewrite Hs. lia.
  - apply fmap_Some in Hev as (t & [Hs ->]%Hdr & ->). simpl. rewrite Hs. lia.
  - apply fmap_Some in Hev as (t & [Hs ->]%Hdr & ->). simpl. rewrite Hs. lia.
  - destruct (owner s); simplify_eq/=; lia.
  - destruct (owner s); simplify_eq/=; lia.
  - destruct (owner s); simplify_eq/=; lia.
  - destruct (owner s); simplify_eq/=; lia.
  - destruct (owner s), (alive (supervisor s)); simplify_eq/=; lia.
Qed.

Lemma work_bounds evs s s' :
  server_run evs s = Some s' → phase (accept s) ≠ Serving →
  length (List.filter (λ ev, negb (scrape ev)) evs) ≤ work_left s.
Proof.
  revert s. induction evs as [|ev evs IH]; intros s; simpl; [lia|].
  intros (s1 & H1 & H)%bind_Some Hp. destruct (work_decreases _ _ _ H1 Hp) as [Hw Hp1].
  specialize (IH s1 H Hp1). destruct (scrape ev); simpl in *; lia.
Qed.

(** Nothing is left to do for the proxy itself: its tasks, its timer and the
    runtime wait.  A session, a metrics connection or the owner may still do
    something. *)
Definition idle_proxy (s : Server) : Prop :=
  ∀ ev, match ev with
        | AcceptLoop SessionEnded | AcceptLoop SessionDropped => True
        | MetricsEnds | MetricsAccepts | HandlerEnds => True
        | CallShutdown | CallGraceful | CallWait | DropServer => True
        | _ => server_event ev s = None
        end.

(** How long a run took, as far as it was followed. *)
Definition elapsed (evs : list ServerEvent) : Duration :=
  foldr (λ ev t, match ev with AcceptLoop (Elapse d) => (d + t)%Z | _ => t end) 0%Z evs.

(** An event that is not the loop's takes no time. *)
Lemma elapsed_other ev evs : (∀ aev, ev ≠ AcceptLoop aev) → elapsed (ev :: evs) = elapsed evs.
Proof. intros Hne. destruct ev as [aev| | | | | | | | | | | |]; try done. by destruct (Hne aev). Qed.

Lemma done_clock evs s s' :
  server_run evs s = Some s' → phase (accept s) = Done →
  elapsed evs = 0%Z ∧ (∀ l, phase (accept s') ≠ Draining l) ∧ AcceptLoop DrainTimeout ∉ evs.
Proof.
  revert s. induction evs as [|ev evs IH]; intros s.
  { intros [= <-] ->. split_and!; try done. by intros ?%elem_of_nil. }
  simpl server_run. intros (s1 & H1 & H)%bind_Some Hd.
  destruct (server_event_accept _ _ _ H1) as [(aev & a & -> & Ha & -> & _)|[Ha Hne]].
  - apply accept_event_step in Ha.
    assert (phase a = Done ∧ aev ≠ DrainTimeout ∧ (∀ d, aev ≠ Elapse d)) as (Hd2 & Hn1 & Hn2)
      by (destruct Ha; simpl in *; done).
    destruct (IH _ H Hd2) as (He & ? & Hin). split_and!; [|done|].
    + rewrite <-He. destruct aev; try done. by destruct (Hn2 d).
    + rewrite not_elem_of_cons. split; [congruence|done].
  - rewrite <-Ha in Hd. destruct (IH _ H Hd) as (He & ? & Hin). rewrite elapsed_other by done.
    split_and!; [done|done|]. rewrite not_elem_of_cons. split; [|done]. intros Heq. by destruct (Hne DrainTimeout).
Qed.

Lemma drain_clock evs s l s' :
  server_run evs s = Some s' → phase (accept s) = Draining l →
  (∀ l', phase (accept s') = Draining l' → l = (elapsed evs + l')%Z) ∧
  (0 ≤ l → AcceptLoop DrainTimeout ∈ evs → elapsed evs = l)%Z.
Proof.
  revert s l. induction evs as [|ev evs IH]; intros s l.
  { intros [= <-] ->. split; [by intros l' [= ->]|]. by intros _ ?%elem_of_nil. }
  simpl server_run. intros (s1 & H1 & H)%bind_Some Hp.
  destruct (server_event_accept _ _ _ H1) as [(aev & a & -> & Ha & -> & _)|[Ha Hne]].
  - apply accept_event_step in Ha. rewrite elem_of_cons.
    destruct Ha; simpl in Hp; simplify_eq;
      try (destruct (IH _ _ H eq_refl) as [Hl Ht]; split; [exact Hl|]; intros Hz [?|Hin]; [done|by apply Ht]).
    + destruct (IH _ _ H eq_refl) as [Hl Ht]. change (elapsed (AcceptLoop (Elapse d) :: evs)) with (d + elapsed evs)%Z.
      split; [intros l' Hl'; rewrite <-Z.add_assoc, <-(Hl l' Hl'); lia|].
      intros Hz [?|Hin]; [done|]. rewrite Ht by (done || lia). lia.
    + destruct (done_clock _ _ _ H eq_refl) as (He & Hs & Hin). split; [by intros l' Hl'; destruct (Hs l')|].
      by intros _ [?|?].
    + destruct (done_clock _ _ _ H eq_refl) as (He & Hs & Hin). split; [by intros l' Hl'; destruct (Hs l')|].
      intros Hz _. change (elapsed (AcceptLoop DrainTimeout :: evs)) with (elapsed evs). lia.
  - destruct (IH s1 l H) as [Hl Ht]; [by rewrite Ha|]. rewrite elapsed_other by done. split; [done|].
    intros H0 [Heq|Hin]%elem_of_cons; [by destruct (Hne DrainTimeout)|by apply Ht].
Qed.

(** C29: the drain ends, within its window.  Once the accept loop has taken the
    signal a run of the server has only so many events (metrics connections
    apart), and where the proxy has nothing left to do the loop has ended, no
    session runs that was not aborted, an await of the server has returned, and
    the sweeper and the metrics endpoint are stopped, unless [shutdown] aborted
    their supervisor: all this though no session ever ends by itself.  And
    sessions are not aborted before the configured window has passed. *)
Theorem drain_completes max drain s0 s :
  (0 ≤ drain)%Z → reachable_server max drain s0 → server_event (AcceptLoop SignalTaken) s0 = Some s →
  (∃ n, ∀ evs s', server_run evs s = Some s' → length (List.filter (λ ev, negb (scrape ev)) evs) ≤ n) ∧
  (∀ evs s', server_run evs s = Some s' → idle_proxy s' →
    phase (accept s') = Done ∧ running (accept s') = 0 ∧ owner s' ≠ Awaited ∧
    (supervisor s' = Finished ∧ sweeper s' = Aborted ∧ alive (metrics_task s') = false ∨
     supervisor s' = Aborted)) ∧
  (∀ evs s', server_run evs s = Some s' → AcceptLoop DrainTimeout ∈ evs → elapsed evs = drain).
Proof.
  intros H0 Hr Hev. pose proof (reachable_inv _ _ _ Hr) as Hi0.
  pose proof (server_event_inv _ _ _ _ _ Hev Hi0) as Hi.
  assert (phase (accept s) = Draining drain) as Hp.
  { pose proof (ai_window _ _ _ (inv_accept _ _ _ Hi0)) as Hw. simpl in Hev.
    destruct (signalled s0); [|done]. apply fmap_Some in Hev as (a & Ha & ->).
    destruct (accept s0) as [n h r x t [] w]; by simplify_eq/=. }
  split; [|split].
  - exists (work_left s). intros evs s' Hrun. eapply work_bounds; [done|]. by rewrite Hp.
  - intros evs s' Hrun Hq. assert (server_inv max drain s' ∧ phase (accept s') ≠ Serving) as [Hi' Hp'].
    { apply server_run_steps in Hrun. assert (phase (accept s) ≠ Serving) as Hps by (by rewrite Hp).
      clear -Hi Hps Hrun. revert Hi Hps. induction Hrun as [|x y z [ev Hev] _ IH]; [done|].
      intros Hx Hxp. apply IH; [by eapply server_event_inv|]. by eapply work_decreases. }
    assert (phase (accept s') = Done) as Hdone.
    { destruct (phase (accept s')) as [|l|] eqn:Hph; [done| |done]. exfalso.
      pose proof (Hq (AcceptLoop (Elapse l))) as Hx. pose proof (Hq (AcceptLoop DrainTimeout)) as Hy.
      pose proof (Hq (AcceptLoop Drained)) as Hz. pose proof (Hq (AcceptLoop Joined)) as Hj. simpl in Hx, Hy, Hz, Hj.
      pose proof (ai_left _ _ _ (inv_accept _ _ _ Hi') l Hph H0) as Hl.
      destruct (accept s') as [n h r x t ph w]. simpl in Hph. subst ph. simpl in Hx, Hy.
      destruct (decide (0 < l ≤ l)%Z); [done|].
      destruct (decide _) as [|Hn] in Hy; [done|]. destruct r, t; try done; apply Hn; lia. }
    split; [done|]. split; [by apply Hi'|].
    pose proof (Hq Supervise) as Hx. simpl in Hx. rewrite Hdone in Hx.
    pose proof (Hq AwaitEnds) as Ha. pose proof (Hq SweeperDropped) as Hsw. pose proof (Hq MetricsDropped) as Hme.
    simpl in Ha, Hsw, Hme. pose proof (inv_supervisor _ _ _ Hi') as Hns.
    destruct (alive (supervisor s')) eqn:Hal; [done|].
    split; [by destruct (owner s')|]. destruct (supervisor s') eqn:Hs; try done; [|by right]. left.
    destruct (inv_finished _ _ _ Hi' Hs) as (_ & Hn1 & Hn2). pose proof (inv_sweeper _ _ _ Hi') as Hsa.
    split; [done|]. split; [by destruct (sweeper s'), Hsa|]. by destruct (metrics_task s').
  - intros evs s' Hrun Hin. by eapply (drain_clock evs s drain s').
Qed.

(** [shutdown] does not stop the proxy: it leaves the sessions as they are, and
    once its abort of the supervisor has landed the sweeper and the metrics
    endpoint are never aborted. *)
Theorem shutdown_leaves_tasks max drain s s' s'' :
  reachable_server max drain s → server_event CallShutdown s = Some s' →
  accept s' = accept s ∧
  (rtc server_step s' s'' → supervisor s'' = Aborted →
   sweeper s'' = Running ∧ metrics_task s'' ≠ Aborting ∧ metrics_task s'' ≠ Aborted).
Proof.
  intros Hr Hev. split; [simpl in Hev; destruct (owner s); by simplify_eq|]. intros Hs'' Hab.
  assert (server_inv max drain s'') as Hi.
  { apply reachable_inv. destruct Hr as [m Hr]. exists m. etrans; [exact Hr|].
    eapply rtc_l; [by exists CallShutdown|done]. }
  apply (inv_told _ _ _ Hi). by rewrite Hab.
Qed.

(** The [JoinSet] is not emptied while connections are accepted: it keeps every
    session the proxy ever accepted. *)
Lemma joinset_grows ev a a' :
  accept_event ev a = Some a' → phase a' = Serving →
  running a' + retained a' = running a + retained a + (match ev with Accepted => 1 | _ => 0 end).
Proof.
  rewrite accept_event_step. destruct 1; simpl; intros; simplify_eq; lia.
Qed.

(** ** Errors of [serve] *)

Section ServeErrors.
Context {K : Sockets} {H : Host}.

(** [serve] on a failure: no server is returned; when the listener, its
    address or the TLS files fail nothing was started, but when the metrics
    address cannot be bound the sweeper is left running with nobody to stop it. *)
Theorem serve_fails cfg h e t h' :
  serve cfg h = (Err e, t, h') →
  t = NotSpawned ∧
    (fst (bind (listen_addr cfg) h) = Err e ∨
     (∃ l, fst (bind (listen_addr cfg) h) = Ok l ∧ local_addr l = Err e) ∨
     ∃ c, tls_server cfg = Some c ∧ build_tls_acceptor c = Err e) ∨
  t = Running ∧ ∃ a h1, metrics_addr cfg = Some a ∧ bind a h1 = (Err e, h').
Proof.
  unfold serve. destruct (bind (listen_addr cfg) h) as [[l|e1] h1]; [|intros [= -> <- <-]; by auto].
  destruct (local_addr l) eqn:Hl; [|intros [= -> <- <-]; left; split; [done|right; left; by exists l]].
  destruct (tls_server cfg) as [c|] eqn:Ht; simpl.
  - destruct (build_tls_acceptor c) eqn:Hc; simpl;
      [|intros [= -> <- <-]; left; split; [done|right; right; by exists c]].
    destruct (metrics_addr cfg) as [m|]; [|done].
    destruct (bind m h1) as [[l2|e2] h2] eqn:Hb; [done|]. intros [= -> <- <-]. right. split; [done|]. by exists m, h1.
  - destruct (metrics_addr cfg) as [m|]; [|done].
    destruct (bind m h1) as [[l2|e2] h2] eqn:Hb; [done|]. intros [= -> <- <-]. right. split; [done|]. by exists m, h1.
Qed.

End ServeErrors.
