(* ===== verification/Metrics.v ===== *)
(** * The metrics endpoint (metrics.rs)

    The Prometheus text of the session and pool counters, and the HTTP handler
    that serves it. *)

From S2P Require Import Prelude RustStr Messages Config Upstream Pool Row Routing Intercept Registries.

(** ** Label values *)

Definition backslash : ascii := "092"%char.
Definition dquote : ascii := "034"%char.
Definition newline : ascii := "010"%char.

Definition escape (v : string) : string :=
  str_replace newline (String backslash (String "n" EmptyString))
    (str_replace dquote (String backslash (String dquote EmptyString))
       (str_replace backslash (String backslash (String backslash EmptyString)) v)).

(** What the text format reads back from an escaped label value; [None] when
    the value would end early or break the line. *)
Fixpoint unescape (s : string) : option string :=
  match s with
  | EmptyString => Some EmptyString
  | String c s =>
    if decide (c = backslash) then
      match s with
      | EmptyString => None
      | String d s =>
        if decide (d = backslash) then String backslash <$> unescape s
        else if decide (d = dquote) then String dquote <$> unescape s
        else if decide (d = "n"%char) then String newline <$> unescape s
        else None
      end
    else if decide (c = dquote) then None
    else if decide (c = newline) then None
    else String c <$> unescape s
  end.

Definition escape_char (c : ascii) : string :=
  if decide (c = backslash) then String backslash (String backslash EmptyString)
  else if decide (c = dquote) then String backslash (String dquote EmptyString)
  else if decide (c = newline) then String backslash (String "n" EmptyString)
  else String c EmptyString.

Lemma str_replace_app c b s t : str_replace c b (s +:+ t) = str_replace c b s +:+ str_replace c b t.
Proof.
  induction s as [|d s IH]; [done|].
  change (String d s +:+ t) with (String d (s +:+ t)).
  change (str_replace c b (String d (s +:+ t))) with
    (if decide (d = c) then b +:+ str_replace c b (s +:+ t) else String d (str_replace c b (s +:+ t))).
  change (str_replace c b (String d s)) with
    (if decide (d = c) then b +:+ str_replace c b s else String d (str_replace c b s)).
  rewrite IH. case_decide; [by rewrite str_app_assoc|done].
Qed.

Lemma escape_cons c s : escape (String c s) = escape_char c +:+ escape s.
Proof.
  unfold escape. change (String c s) with (String c EmptyString +:+ s). rewrite !str_replace_app.
  f_equal. unfold escape_char.
  destruct (decide (c = backslash)) as [->|Hb]; [done|].
  cbn [str_replace]. rewrite (decide_False _ _ Hb).
  destruct (decide (c = dquote)) as [->|Hd]; cbn [str_replace]; [done|].
  rewrite (decide_False _ _ Hd). cbn [str_replace]. by case_decide.
Qed.

(** Label values round-trip: whatever bytes a user, database or route name
    has, the escaped value stays inside its quotes and its line and reads back
    as the name. *)
Theorem escape_roundtrip v : unescape (escape v) = Some v.
Proof.
  induction v as [|c v IH]; [done|]. rewrite escape_cons. unfold escape_char.
  destruct (decide (c = backslash)) as [->|Hb].
  { change (unescape (String backslash (String backslash (escape v))) = Some (String backslash v)).
    simpl. by rewrite IH. }
  destruct (decide (c = dquote)) as [->|Hd].
  { change (unescape (String backslash (String dquote (escape v))) = Some (String dquote v)).
    simpl. by rewrite IH. }
  destruct (decide (c = newline)) as [->|Hn].
  { change (unescape (String backslash (String "n" (escape v))) = Some (String newline v)).
    simpl. by rewrite IH. }
  change (unescape (String c (escape v)) = Some (String c v)). simpl.
  rewrite (decide_False _ _ Hb), (decide_False _ _ Hd), (decide_False _ _ Hn). by rewrite IH.
Qed.

Section Metrics.
Context `{P : Platform}.

Definition quoted (s : string) : string := String dquote (s +:+ String dquote EmptyString).
Definition line (s : string) : string := s +:+ String newline EmptyString.

Definition labels (k : PoolKey) : string :=
  "route=" +:+ quoted (escape (pk_route k)) +:+ ",user=" +:+ quoted (escape (pk_user k)) +:+
  ",database=" +:+ quoted (escape (default EmptyString (pk_database k))).

(** One metric of a pool: its type line and its sample. *)
Definition sample (metric kind : string) (l : string) (v : Z) : string :=
  line ("# TYPE " +:+ metric +:+ " " +:+ kind) +:+
  line (metric +:+ "{" +:+ l +:+ "} " +:+ show_Z v).

Definition counter (n : string) (l : string) (v : Z) : string :=
  sample ("pgferry_pool_" +:+ n +:+ "_total") "counter" l v.

Definition render_pool (p : PoolInner) : string :=
  let l := labels (p_key p) in
  let m := metrics p in
  counter "checkouts" l (checkouts m) +:+
  counter "checkouts_reused" l (reused m) +:+
  counter "connections_created" l (created m) +:+
  counter "checkins" l (checked_in m) +:+
  counter "connections_dropped" l (dropped m) +:+
  counter "connections_evicted" l (evicted m) +:+
  counter "stale_probes" l (probed m) +:+
  sample "pgferry_pool_connections_active" "gauge" l (active m) +:+
  sample "pgferry_pool_connections_idle" "gauge" l (Z.of_nat (idle_len p)) +:+
  sample "pgferry_pool_clients_waiting" "gauge" l (waiting m) +:+
  sample "pgferry_pool_max_size" "gauge" l (Z.of_nat (pool_max_size p)).

(** [pools] in the order the manager lists them. *)
Definition render (state : RuntimeState) (pools : list PoolInner) : string :=
  line "# TYPE pgferry_sessions_active gauge" +:+
  line ("pgferry_sessions_active " +:+ show_Z (Z.of_nat (sessions_active state))) +:+
  line "# TYPE pgferry_sessions_total counter" +:+
  line ("pgferry_sessions_total " +:+ show_Z (sessions_total state)) +:+
  foldr (λ p out, render_pool p +:+ out) EmptyString pools.

(** ** The request *)

(** The end of a request head. *)
Definition head_end : bytes := ["013"; "010"; "013"; "010"]%char.

(** [windows(4).any(..)]. *)
Fixpoint has_head_end (l : bytes) : bool :=
  bool_decide (take 4 l = head_end) || match l with [] => false | _ :: l => has_head_end l end.

Definition MAX_HEAD : nat := 16 * 1024.

(** The read loop of [handle], over the results of the reads: [Ok None] when
    the peer closes first. *)
Fixpoint read_head (reads : list (result unit bytes)) (buf : bytes) :
    poll (result unit (option bytes)) :=
  match reads with
  | [] => Pending
  | Err e :: _ => Ready (Err e)
  | Ok [] :: _ => Ready (Ok None)
  | Ok chunk :: reads =>
    let buf := buf ++ chunk in
    if has_head_end buf || bool_decide (MAX_HEAD < length buf) then Ready (Ok (Some buf))
    else read_head reads buf
  end.

Definition crlf : string := String "013" (String "010" EmptyString).

(** The method and the path of a request line. *)
Definition parse_request (l : bytes) : string * string :=
  match split_whitespace (String.string_of_list_ascii l) with
  | [] => (EmptyString, EmptyString)
  | [m] => (m, EmptyString)
  | m :: p :: _ => (m, p)
  end.

Definition http_response (status body : string) : string :=
  "HTTP/1.1 " +:+ status +:+ crlf +:+ "Content-Type: text/plain; version=0.0.4" +:+ crlf +:+
  "Content-Length: " +:+ show_Z (Z.of_nat (String.length body)) +:+ crlf +:+
  "Connection: close" +:+ crlf +:+ crlf +:+ body.

Definition respond (state : RuntimeState) (pools : list PoolInner) (l : bytes) : string :=
  let '(method, path) := parse_request l in
  if bool_decide (method = "GET") && bool_decide (path = "/metrics")
  then http_response "200 OK" (render state pools)
  else http_response "404 Not Found" (line "not found").

(** [handle] up to the write of its response. *)
Definition handle (state : RuntimeState) (pools : list PoolInner) (reads : list (result unit bytes)) :
    poll (result unit (option string)) :=
  match read_head reads [] with
  | Pending => Pending
  | Ready (Err e) => Ready (Err e)
  | Ready (Ok None) => Ready (Ok None)
  | Ready (Ok (Some buf)) => Ready (Ok (Some (respond state pools (first_line (from_utf8_lossy buf)))))
  end.

(** The loop of [run_metrics_server], over what its listener accepts: each
    connection with the registry and the pools its task finds, and its reads.
    A failed accept ends the endpoint; otherwise it runs until it is aborted. *)
Fixpoint metrics_loop
    (accepts : list (result unit (RuntimeState * list PoolInner * list (result unit bytes)))) :
    list (poll (result unit (option string))) * poll (result unit unit) :=
  match accepts with
  | [] => ([], Pending)
  | Err e :: _ => ([], Ready (Err e))
  | Ok (state, pools, reads) :: accepts =>
    let '(answers, e) := metrics_loop accepts in (handle state pools reads :: answers, e)
  end.

(** It asks the listener for its address first, for the log. *)
Definition run_metrics_server (local_addr : result unit string)
    (accepts : list (result unit (RuntimeState * list PoolInner * list (result unit bytes)))) :
    list (poll (result unit (option string))) * poll (result unit unit) :=
  match local_addr with
  | Err e => ([], Ready (Err e))
  | Ok _ => metrics_loop accepts
  end.

(** ** Properties of the handler *)

Lemma has_head_end_newline l : has_head_end l = true → newline ∈ l.
Proof.
  induction l as [|c l IH]; simpl; [done|].
  rewrite orb_true_iff, bool_decide_eq_true. intros [H|H]; [|by right; apply IH].
  unfold head_end in H. destruct l as [|d l]; simpl in H; simplify_eq. right. left.
Qed.

Lemma first_line_app l r : newline ∉ l → first_line (l ++ newline :: r) = first_line (l ++ [newline]).
Proof.
  unfold newline. induction l as [|c l IH]; intros Hl; [done|]. apply not_elem_of_cons in Hl as [Hc Hl].
  cbn [app first_line]. rewrite (IH Hl). by destruct l.
Qed.

(** Where the read loop stops: after a prefix of the chunks. *)
Lemma read_head_prefix chunks buf :
  Forall (λ c, c ≠ []) chunks → has_head_end (buf ++ concat chunks) = true →
  length (buf ++ concat chunks) ≤ MAX_HEAD → has_head_end buf = false →
  ∃ got rest, read_head (Ok <$> chunks) buf = Ready (Ok (Some got)) ∧
    has_head_end got = true ∧ buf ++ concat chunks = got ++ rest.
Proof.
  revert buf. induction chunks as [|c chunks IH]; intros buf Hne Hend Hlen Hbuf; simpl in *.
  { rewrite app_nil_r in Hend. congruence. }
  apply Forall_cons in Hne as [Hc Hne]. destruct c as [|x c]; [done|].
  rewrite app_assoc in Hend, Hlen |- *. set (buf' := buf ++ x :: c) in *.
  rewrite length_app in Hlen. rewrite bool_decide_false by lia. rewrite orb_false_r.
  destruct (has_head_end buf') eqn:Hb; [by eauto|].
  apply IH; try done. by rewrite length_app.
Qed.

Lemma first_newline (l got r rest : bytes) :
  newline ∉ l → newline ∈ got → l ++ newline :: r = got ++ rest →
  ∃ r', got = l ++ newline :: r'.
Proof.
  revert got. induction l as [|c l IH]; intros got Hl Hg Heq.
  - destruct got as [|d got]; [by apply not_elem_of_nil in Hg|]. simpl in Heq. simplify_eq. by exists got.
  - apply not_elem_of_cons in Hl as [Hc Hl].
    destruct got as [|d got]; [by apply not_elem_of_nil in Hg|]. simpl in Heq.
    injection Heq as -> Heq. apply elem_of_cons in Hg as [?|Hg]; [done|].
    destruct (IH got Hl Hg Heq) as [r' ->]. by exists r'.
Qed.

(** A response: its lines, an empty one, and the body. *)
Definition response_lines (status body : string) : string :=
  foldr (λ l rest, l +:+ crlf +:+ rest) body
    ["HTTP/1.1 " +:+ status; "Content-Type: text/plain; version=0.0.4";
     "Content-Length: " +:+ show_Z (Z.of_nat (String.length body)); "Connection: close"; EmptyString].

(** The words of a request line. *)
Definition words (l : bytes) : list string := split_whitespace (String.string_of_list_ascii l).

Lemma respond_spec state pools l :
  respond state pools l =
    if decide (take 2 (words l) = ["GET"; "/metrics"]) then response_lines "200 OK" (render state pools)
    else response_lines "404 Not Found" (line "not found").
Proof.
  unfold respond, parse_request, words.
  assert (∀ st b, http_response st b = response_lines st b) as Hresp.
  { intros st b. unfold http_response, response_lines. simpl. by rewrite !str_app_assoc. }
  rewrite !Hresp. destruct (split_whitespace _) as [|m [|p ws]]; simpl; [done| |].
  - rewrite andb_false_r. by rewrite decide_False by done.
  - case_decide as Hd.
    + injection Hd as -> ->. by rewrite !bool_decide_true.
    + destruct (bool_decide (m = "GET")) eqn:Hm; [|done]. apply bool_decide_eq_true in Hm as ->.
      rewrite bool_decide_false; [done|]. by intros ->.
Qed.

(** C31: the metrics endpoint answers by the request line alone.  However the
    bytes of a request head of at most 16 KiB arrive, the response is [200] with
    the rendered metrics when the first two words of the first line are [GET]
    and [/metrics], and [404] with a fixed text for anything else; its headers
    announce the length of the body and the end of the connection. *)
Theorem handle_by_request_line state pools chunks l r :
  Forall (λ c, c ≠ []) chunks → concat chunks = l ++ newline :: r → newline ∉ l →
  has_head_end (concat chunks) = true → length (concat chunks) ≤ MAX_HEAD →
  handle state pools (Ok <$> chunks) =
    Ready (Ok (Some (
      if decide (take 2 (words (first_line (from_utf8_lossy l ++ [newline]))) = ["GET"; "/metrics"])
      then response_lines "200 OK" (render state pools)
      else response_lines "404 Not Found" (line "not found")))).
Proof.
  intros Hne Hc Hl Hend Hlen. rewrite <-respond_spec. unfold handle.
  destruct (read_head_prefix chunks [] Hne Hend Hlen eq_refl) as (got & rest & -> & Hg & Heq).
  simpl in Heq. rewrite Hc in Heq.
  apply has_head_end_newline in Hg. destruct (first_newline l got r rest Hl Hg Heq) as [r' ->].
  do 4 f_equal. rewrite lossy_app by done. apply first_line_app.
  intros Hin. apply Hl. by apply lossy_elem in Hin.
Qed.

(** C32: the metrics endpoint bounds what a peer can make it hold and wait for:
    with reads of at most 1024 bytes the head it answers is at most 17 KiB, and
    it is done (answered, closed or failed) within 16 * 1024 + 1 reads,
    whatever bytes arrive. *)
Theorem head_bounded reads :
  Forall (λ x, match x with Ok c => length c ≤ 1024 | Err _ => True end) reads →
  (∀ got, read_head reads [] = Ready (Ok (Some got)) → length got ≤ 17 * 1024) ∧
  (MAX_HEAD < length reads → ∃ x, read_head reads [] = Ready x).
Proof.
  intros Hall. split.
  - intros got. assert (length (@nil ascii) ≤ MAX_HEAD) as H0 by (simpl; unfold MAX_HEAD; lia).
    revert H0. generalize (@nil ascii).
    induction reads as [|[c|] reads IH]; intros buf Hbuf; simpl; [done| |done].
    apply Forall_cons in Hall as [Hc Hall]. destruct c as [|x c]; [done|].
    destruct (bool_decide (MAX_HEAD < length (buf ++ x :: c))) eqn:Hb.
    + rewrite orb_true_r. intros [= <-]. rewrite length_app. unfold MAX_HEAD in *. lia.
    + apply bool_decide_eq_false in Hb. rewrite orb_false_r.
      destruct (has_head_end _); [intros [= <-]; unfold MAX_HEAD in *; lia|]. by apply IH; [|lia].
  - clear Hall. assert (∀ buf, length buf ≤ MAX_HEAD → MAX_HEAD < length buf + length reads →
      ∃ x, read_head reads buf = Ready x) as Hgo.
    { induction reads as [|[c|] reads IH]; intros buf Hbuf Hlen; simpl in *; [lia| |eauto].
      destruct c as [|x c]; [eauto|]. destruct (_ || _) eqn:Hb; [eauto|].
      apply orb_false_iff in Hb as [_ Hb%bool_decide_eq_false].
      rewrite length_app in *. simpl in *. apply IH; rewrite length_app; simpl; lia. }
    intros Hlen. apply Hgo; simpl; [unfold MAX_HEAD; lia|done].
Qed.

End Metrics.
