(* ===== verification/Gateway.v ===== *)
(** * The gateway example (examples/gateway.rs)

    An interceptor composed of the library's helpers: deny-list, rewrites,
    column masking, audit, read/write split and shard broadcast.  Theorems: a
    denied query is refused end to end, and masked columns reach the client
    masked. *)

From S2P Require Import Prelude RustStr Messages Config Upstream Reference Row Routing Intercept Pool PoolHygiene Session Attach Pump PumpFlow Registries ScatterLeg Scatter.

Section Gateway.
Context `{P : Platform} {RE : RegexEngine} {U : UnicodeTables}.

(** The settings of [Gateway]; its [RwSplit] shares the health table of the
    gateway's own group. *)
Record GatewayConfig := MkGatewayConfig {
  gw_deny : DenyList;
  gw_rewrites : list Rewrite;
  mask_columns : list string;
  gw_rw_split : option RwSplit;
  gw_shards : option ShardSet;
  gw_shard_all : option Regex
}.

(** What the gateway shares between sessions. *)
Record GatewayState := MkGatewayState {
  gw_group : EndpointGroup;
  gw_audit : AuditInner;
  gw_reports : list CycleReport
}.
#[global] Instance eta_GatewayState : Eta GatewayState :=
  λ g, MkGatewayState (gw_group g) (gw_audit g) (gw_reports g).

Definition apply_rewrites (ws : list Rewrite) (c : QueryCycle) : QueryCycle :=
  foldl (λ c w, match rewrite_sql w (sql c) with Some q => set_sql q c | None => c end) c ws.

Definition starts_with (p s : string) : bool :=
  match strip_prefix p s with Some _ => true | None => false end.

Definition merge_of (q : string) : MergePolicy :=
  let lowered := to_lowercase (trim_start q) in
  if starts_with "select count" lowered || starts_with "select sum" lowered then Sum else Concat.

Definition gw_on_query (cfg : GatewayConfig) (c : QueryCycle) : Action * QueryCycle :=
  match deny_check (gw_deny cfg) (sql c) with
  | Some e => (Deny e, c)
  | None =>
    let c := apply_rewrites (gw_rewrites cfg) c in
    match gw_shards cfg, gw_shard_all cfg with
    | Some shards, Some pattern =>
      if is_match pattern (sql c)
      then (broadcast shards (sql c) (merge_of (sql c)) "SELECT", c)
      else (Forward, c)
    | _, _ => (Forward, c)
    end
  end.

Definition gw_upstream (cfg : GatewayConfig) (info : RoutingInfo) :
    async (GatewayState * Env) EndpointId :=
  now ← hook_now;
  g ← gets (λ s, gw_group s.1);
  mret (match gw_rw_split cfg with
        | Some split =>
          let split := split <| group := g |> in
          match ri_sql info with
          | Some q => route_sql now split info q
          | None => route now split info false
          end
        | None => default (default_endpoint info) (select_first_alive now g info)
        end).

Definition gw_on_upstream_error (e : UpstreamError) : async (GatewayState * Env) RetryDecision :=
  now ← hook_now;
  _ ← modify (λ s, (s.1 <| gw_group ::= report_failure now (error_endpoint e) |>, s.2));
  mret Relink.

Definition gw_on_upstream_connected (ep : string) : async (GatewayState * Env) unit :=
  modify (λ s, (s.1 <| gw_group ::= report_success ep |>, s.2)).

Definition MASK : string := "***".

(** One masked column of [on_row]. *)
Definition mask_column (schema : RowSchema) (r : DataRowMut) (n : string) : DataRowMut :=
  match column_index schema n with
  | Some i =>
    match text i r with
    | Ok (Some _) => match set_text i MASK r with Ok r' => r' | Err _ => r end
    | _ => r
    end
  | None => r
  end.

Definition gw_on_row (cfg : GatewayConfig) (schema : RowSchema) (r : DataRowMut) : DataRowMut :=
  foldl (mask_column schema) r (mask_columns cfg).

Definition gw_on_cycle_end (rep : CycleReport) : async (GatewayState * Env) unit :=
  modify (λ s, (s.1 <| gw_audit ::= audit_record rep |> <| gw_reports ::= λ l, l ++ [rep] |>, s.2)).

Definition Gateway (cfg : GatewayConfig) : Interceptor := {|
  IState := GatewayState;
  new_session_ctx := λ s, s;
  wants_rows := bool_decide (mask_columns cfg ≠ []);
  adjust_command_counts := false;
  on_query := λ c, mret (gw_on_query cfg c);
  on_frontend := λ m, mret (Forward, m);
  on_backend := λ m, mret (Forward, m);
  on_row := λ schema r, mret (Keep, gw_on_row cfg schema r);
  on_cycle_end := gw_on_cycle_end;
  upstream_hook := gw_upstream cfg;
  on_upstream_error := gw_on_upstream_error;
  on_upstream_connected := gw_on_upstream_connected
|}.

(** ** Masking *)

(** The masked value of a column: [NULL] and bytes that are no text stay. *)
Definition mask_value (v : option bytes) : option bytes :=
  match v with
  | Some b => if utf8_valid b then Some (String.list_ascii_of_string MASK) else v
  | None => None
  end.

(** The columns the gateway masks: the first of each configured name. *)
Definition masked (schema : RowSchema) (ns : list string) (i : nat) : bool :=
  existsb (λ n, bool_decide (column_index schema n = Some i)) ns.

Definition mask_values (cfg : GatewayConfig) (schema : RowSchema) (vs : list (option bytes)) :
    list (option bytes) :=
  imap (λ i v, if masked schema (mask_columns cfg) i then mask_value v else v) vs.

(** Only the first column of a name is masked. *)
Example second_column_shown :
  let c := MkColumnMeta "ssn" 25 0 in
  masked [c; c] ["ssn"] 0 = true ∧ masked [c; c] ["ssn"] 1 = false.
Proof. split; reflexivity. Qed.

Lemma mask_value_idemp v : mask_value (mask_value v) = mask_value v.
Proof. destruct v as [b|]; simpl; [|done]. destruct (utf8_valid b) eqn:E; simpl; [done|by rewrite E]. Qed.

Lemma row_values_lookup m i :
  row_values m !! i = option_map (slot_bytes (data (row m))) <$> values m !! i.
Proof. apply list_lookup_fmap. Qed.

Lemma mask_column_spec schema m n :
  row_inv m →
  row_inv (mask_column schema m n) ∧ row (mask_column schema m n) = row m ∧
  row_values (mask_column schema m n) =
    match column_index schema n with Some i => alter mask_value i (row_values m) | None => row_values m end.
Proof.
  intros Hm. unfold mask_column. destruct (column_index schema n) as [i|]; [|done].
  pose proof (row_values_lookup m i) as Hl. unfold text.
  destruct (values m !! i) as [[s|]|] eqn:Hv; simpl in Hl.
  - unfold from_utf8. destruct (utf8_valid (slot_bytes (data (row m)) s)) eqn:Hu.
    + destruct (edit_spec (SetText i MASK) m) as (Hi & Hr & Hx); [done|done|]. simpl in Hi, Hr, Hx.
      split; [done|]. split; [done|]. rewrite Hx.
      apply list_eq. intros j. destruct (decide (j = i)) as [->|Hj].
      * rewrite list_lookup_insert_eq by (by eapply lookup_lt_Some).
        rewrite list_lookup_alter_eq, Hl. simpl. by rewrite Hu.
      * by rewrite list_lookup_insert_ne, list_lookup_alter_ne by done.
    + split; [done|]. split; [done|]. apply list_eq. intros j.
      destruct (decide (j = i)) as [->|Hj]; [|by rewrite list_lookup_alter_ne].
      rewrite list_lookup_alter_eq, Hl. simpl. by rewrite Hu.
  - split; [done|]. split; [done|]. apply list_eq. intros j.
    destruct (decide (j = i)) as [->|Hj]; [|by rewrite list_lookup_alter_ne].
    by rewrite list_lookup_alter_eq, Hl.
  - split; [done|]. split; [done|]. apply list_eq. intros j.
    destruct (decide (j = i)) as [->|Hj]; [|by rewrite list_lookup_alter_ne].
    by rewrite list_lookup_alter_eq, Hl.
Qed.

Lemma mask_columns_spec schema ns m :
  row_inv m →
  let m' := foldl (mask_column schema) m ns in
  row_inv m' ∧ row m' = row m ∧
  ∀ i, row_values m' !! i =
    (λ v, if masked schema ns i then mask_value v else v) <$> row_values m !! i.
Proof.
  revert m. induction ns as [|n ns IH]; intros m Hm; simpl.
  { split; [done|]. split; [done|]. intros i. by destruct (row_values m !! i). }
  destruct (mask_column_spec schema m n Hm) as (H1 & Hr1 & Hv1).
  destruct (IH _ H1) as (H2 & Hr2 & Hv2). split; [done|]. split; [congruence|].
  intros i. rewrite Hv2, Hv1.
  destruct (column_index schema n) as [k|]; [destruct (decide (k = i)) as [->|Hi]|].
  - rewrite list_lookup_alter_eq, bool_decide_true by done.
    destruct (row_values m !! i); simpl; [|done]. f_equal.
    destruct (masked schema ns i); [apply mask_value_idemp|done].
  - rewrite list_lookup_alter_ne by done. by rewrite bool_decide_false by congruence.
  - done.
Qed.

Lemma gw_on_row_spec cfg schema m :
  row_inv m →
  row_inv (gw_on_row cfg schema m) ∧ row (gw_on_row cfg schema m) = row m ∧
  row_values (gw_on_row cfg schema m) = mask_values cfg schema (row_values m).
Proof.
  intros Hm. destruct (mask_columns_spec schema (mask_columns cfg) m Hm) as (Hi & Hr & Hv).
  split; [done|]. split; [done|]. apply list_eq. intros i.
  unfold gw_on_row, mask_values. by rewrite Hv, list_lookup_imap.
Qed.

Context {F : Fuel} {X : SessionCtx} {E : ∀ cfg, ScatterExec (I := Gateway cfg)}.

(** The session after a message that ends no cycle is sent on. *)
Definition passed_on {I : Interceptor} (m : PgWireBackendMessage) (s : Session) : Session :=
  (sent_down m s) <| backend ::= λ n, u64_add n 1 |>.

Lemma deliver_other {I : Interceptor} st m s :
  is_ready_for_query m = false → client_there s →
  deliver st m s = (Ready Continue, passed_on m s).
Proof.
  intros Hm Hc. unfold deliver. rewrite Hm.
  rewrite (bind_ready _ _ _ (cycle_active s) s) by done.
  rewrite (bind_ready _ _ _ None s) by done.
  by rewrite (phase_run_pass _ _ _ _ _ (send_or_gone_there _ s Hc)).
Qed.

(** [r'] is [r] with the columns of [schema] masked, as many fields as before. *)
Definition masked_row (cfg : GatewayConfig) (schema : RowSchema) (r r' : DataRow) : Prop :=
  ∃ m m', Row.parse r = Ok m ∧ Row.parse r' = Ok m' ∧ field_count r' = field_count r ∧
    row_values m' = mask_values cfg schema (row_values m).

(** A session of the gateway that masks, its last row description [schema]. *)
Definition masking (cfg : GatewayConfig) (schema : RowSchema) (s : Session (I := Gateway cfg)) : Prop :=
  client_there s ∧ ∃ h, hooks s = Some h ∧ h_wants_rows h = true ∧ h_schema h = schema.

(** One message from the server through the pump. *)
Lemma upstream_message cfg m (s : Session (I := Gateway cfg)) l c :
  lease s = Some l → conn_next (conn l) = (Ready (Some (Ok m)), c) →
  on_event EvUpstream s = on_server_message m (s <| lease := Some (l <| conn := c |>) |>).
Proof.
  intros Hl Hn. simpl. rewrite (bind_ready _ _ _ (Some l) s) by (unfold gets; by rewrite Hl).
  rewrite (bind_ready _ _ _ (Some (Ok m)) (s <| lease := Some (l <| conn := c |>) |>)); [done|].
  unfold on_lease. by rewrite Hl, Hn.
Qed.

(** A well-formed row reaches the client masked by the last row description. *)
Lemma row_masked cfg schema r m (s : Session (I := Gateway cfg)) :
  masking cfg schema s → Row.parse r = Ok m →
  ∃ r' s', on_server_message (BDataRow r) s = (Ready Continue, s') ∧
    ds_sent (downstream s') = ds_sent (downstream s) ++ [BDataRow r'] ∧
    masked_row cfg schema r r' ∧ masking cfg schema s' ∧ lease s' = lease s.
Proof.
  intros (Hc & h & Hh & Hw & <-) Hp. destruct (parse_inv _ _ Hp) as (Hi & Hr & _).
  destruct (gw_on_row_spec cfg (h_schema h) m Hi) as (Hi' & Hr' & Hv).
  destruct (apply_roundtrip _ Hi') as (Hf & m' & Hp' & Hv').
  set (r' := Row.apply (gw_on_row cfg (h_schema h) m)) in *.
  set (s1 := (on_cycle add_row s).2). exists r', (passed_on (BDataRow r') s1).
  split_and!; [|done|..|done].
  2: { exists m, m'. rewrite Hp', Hf, Hr', Hr, Hv', Hv. done. }
  2: { split; [done|]. exists (h <| h_cycle ::= add_row |>). simpl. by rewrite Hh. }
  unfold on_server_message, track. rewrite (bind_ready _ _ _ (lease_status s) s) by done.
  rewrite (bind_ready _ _ _ (Some (BDataRow r')) s1).
  - rewrite (phase_run_pass _ _ _ (Some (BDataRow r')) s1); [by apply deliver_other|].
    subst s1. unfold backend_hook_phase, hook, mbind, async_bind, gets, mret, async_ret. simpl.
    rewrite Hh. simpl. do 2 f_equal.
  - unfold observe, row_hook, mbind, async_bind, gets, mret, async_ret. rewrite Hh, Hw, Hp.
    unfold hook. rewrite Hh. simpl. subst s1. do 2 f_equal. destruct s, h; simpl in *; by subst.
Qed.

(** A row description reaches the client and is the schema of what follows. *)
Lemma schema_taken cfg fields (s : Session (I := Gateway cfg)) h :
  client_there s → hooks s = Some h → h_wants_rows h = true →
  ∃ s', on_server_message (BRowDescription fields) s = (Ready Continue, s') ∧
    ds_sent (downstream s') = ds_sent (downstream s) ++ [BRowDescription fields] ∧
    masking cfg (from_row_description fields) s' ∧ lease s' = lease s.
Proof.
  intros Hc Hh Hw.
  set (s1 := s <| hooks ::= option_map (λ h, h <| h_schema := from_row_description fields |>) |>).
  exists (passed_on (BRowDescription fields) s1). split_and!; [|done| |done].
  2: { split; [done|]. exists (h <| h_schema := from_row_description fields |>). simpl. by rewrite Hh. }
  unfold on_server_message, track. rewrite (bind_ready _ _ _ (lease_status s) s) by done.
  rewrite (bind_ready _ _ _ (Some (BRowDescription fields)) s1).
  - rewrite (phase_run_pass _ _ _ (Some (BRowDescription fields)) s1); [by apply deliver_other|].
    subst s1. unfold backend_hook_phase, hook, mbind, async_bind, gets, mret, async_ret. simpl.
    rewrite Hh. simpl. do 2 f_equal.
  - unfold observe, mbind, async_bind, gets, mret, async_ret, modify. rewrite Hh, Hw. done.
Qed.

Lemma rows_masked cfg schema rs l c' (s : Session (I := Gateway cfg)) :
  masking cfg schema s → lease s = Some l → serves (BDataRow <$> rs) (conn l) c' →
  Forall (λ r, ∃ m, Row.parse r = Ok m) rs →
  ∃ rs' s', pump (const EvUpstream <$> rs) s = (Ready None, s') ∧
    ds_sent (downstream s') = ds_sent (downstream s) ++ (BDataRow <$> rs') ∧
    Forall2 (masked_row cfg schema) rs rs'.
Proof.
  intros Hs Hl Hserves Hrs. revert s l Hs Hl Hserves. induction Hrs as [|r rs [m Hm] _ IH]; intros s l Hs Hl Hserves.
  { exists [], s. simpl. by rewrite app_nil_r. }
  destruct Hserves as (c1 & Hn & Hserves).
  set (s0 := s <| lease := Some (l <| conn := c1 |>) |>).
  destruct (row_masked cfg schema r m s0 Hs Hm) as (r' & s1 & H1 & Hsent & Hr & Hs1 & Hl1).
  destruct (IH s1 (l <| conn := c1 |>) Hs1 Hl1 Hserves) as (rs' & s' & Hp & Hsent' & Hrs).
  exists (r' :: rs'), s'. split; [|split; [|by constructor]].
  - rewrite fmap_cons. unfold const at 1. cbn [pump].
    rewrite (bind_ready _ _ _ Continue s1); [exact Hp|]. by rewrite (upstream_message _ _ _ _ _ Hl Hn).
  - by rewrite Hsent', Hsent, <-app_assoc.
Qed.

(** C13: column masking through the pump.  When the server of a session of a
    gateway with columns to mask delivers a row description and then well-formed rows, and the client
    reads, the client gets the row description and as many rows, each with the
    server's number of fields; every field is the server's except that the first
    column of each configured name, by that row description, shows the mask,
    unless it is [NULL] or no text.  (Rows that do not parse are passed as they
    are, rows without a row description of their own are masked by the last one
    seen, [undescribed_row_shown], and the rows of a scatter do not come this
    way: its merge writes them unmasked.) *)
Theorem gateway_masks_rows cfg h fields rs l c' (s : Session (I := Gateway cfg)) :
  hooks s = Some h → h_wants_rows h = true → client_there s →
  lease s = Some l → serves (BRowDescription fields :: (BDataRow <$> rs)) (conn l) c' →
  Forall (λ r, ∃ m, Row.parse r = Ok m) rs →
  ∃ rs' s', pump (EvUpstream :: (const EvUpstream <$> rs)) s = (Ready None, s') ∧
    ds_sent (downstream s') =
      ds_sent (downstream s) ++ BRowDescription fields :: (BDataRow <$> rs') ∧
    Forall2 (masked_row cfg (from_row_description fields)) rs rs'.
Proof.
  intros Hh Hw Hc Hl (c1 & Hn & Hserves) Hrs. simpl in Hserves.
  set (s0 := s <| lease := Some (l <| conn := c1 |>) |>).
  destruct (schema_taken cfg fields s0 h Hc Hh Hw) as (s1 & H1 & Hsent & Hs1 & Hl1).
  destruct (rows_masked cfg _ rs _ c' s1 Hs1 Hl1 Hserves Hrs) as (rs' & s' & Hp & Hsent' & Hm).
  exists rs', s'. split; [|split; [|done]].
  - cbn [pump]. rewrite (bind_ready _ _ _ Continue s1); [exact Hp|]. by rewrite (upstream_message _ _ _ _ _ Hl Hn).
  - by rewrite Hsent', Hsent, <-app_assoc.
Qed.

(** The row description of an earlier result stays in effect: a prepared
    statement that is executed without a [Describe] has its rows masked by the
    columns of whatever was described last, so a row under another result's
    schema reaches the client with every value as the server sent it. *)
Theorem undescribed_row_shown cfg schema r m (s : Session (I := Gateway cfg)) :
  masking cfg schema s → Forall (λ n, column_index schema n = None) (mask_columns cfg) →
  Row.parse r = Ok m →
  ∃ r' m' s', on_server_message (BDataRow r) s = (Ready Continue, s') ∧
    ds_sent (downstream s') = ds_sent (downstream s) ++ [BDataRow r'] ∧
    Row.parse r' = Ok m' ∧ row_values m' = row_values m.
Proof.
  intros Hs Hn Hp. destruct (row_masked cfg schema r m s Hs Hp) as (r' & s' & H & Hsent & (m1 & m' & Hm1 & Hm' & _ & Hv) & _).
  exists r', m', s'. split; [done|]. split; [done|]. split; [done|]. rewrite Hv.
  assert (m1 = m) as -> by congruence. unfold mask_values. apply list_eq. intros i. rewrite list_lookup_imap.
  assert (masked schema (mask_columns cfg) i = false) as Hf.
  { unfold masked. clear - Hn. induction Hn as [|n ns Hn _ IH]; simpl; [done|]. by rewrite Hn, IH. }
  rewrite Hf. by destruct (row_values m !! i).
Qed.

(** ** Denied queries *)

#[global] Instance gateway_complete cfg : HooksComplete (I := Gateway cfg).
Proof. intros rep st. by eexists. Qed.

Context {L : PlatformLaws P} {SL : ServerLaws P}.

(** The gateway's deny-list holds end to end: a query or a [Parse] whose text
    matches a deny pattern is answered with the configured error and one
    [ReadyForQuery], whatever the client pipelined behind it; nothing is
    forwarded, registered or routed, and the rewrites cannot undo it. *)
Theorem gateway_denies cfg (h : @SessionHooks P (Gateway cfg)) m rest s i p :
  hooks s = Some h → cycle_input_of m = Some i →
  p ∈ patterns (gw_deny cfg) → is_match p (ci_sql i) = true →
  swallow_until_sync s = false → client_there s → Forall mid_cycle rest →
  let info := MkErrorInfo "ERROR" (deny_code (gw_deny cfg)) (deny_message (gw_deny cfg)) in
  ∃ s', pump (I := Gateway cfg) (client_events (m :: rest_of_cycle i rest)) s = (Ready None, s') ∧
    answers [error_response info; BReadyForQuery (lease_status s)] s s' ∧
    swallow_until_sync s' = false.
Proof.
  intros Hh Hi Hp Hmatch Hsw Hc Hr info.
  assert (verdict (I := Gateway cfg) m s i (Deny info)) as Hv.
  { split; [done|]. exists h, (QueryCycle_new (ci_sql i) (ci_kind i)), (h_state h, s_env s).
    split; [done|]. simpl. unfold gw_on_query, deny_check. simpl.
    rewrite (proj2 (existsb_exists _ _)); [done|]. exists p. split; [|done].
    by apply list_elem_of_In. }
  destruct (injected_cycle (I := Gateway cfg) m rest s i (Deny info)
    (error_response info :: if is_extended (ci_kind i) then [] else [BReadyForQuery (lease_status s)])
    (deny i info) Hv Hsw Hc Hr eq_refl) as (s' & ? & A & ?).
  - intros s1 Hc1 Hl1 Hw1. destruct (deny_spec (I := Gateway cfg) i info s1 Hc1) as (s2 & ? & ? & W).
    exists s2. rewrite Hl1, Hw1, orb_false_r in *. done.
  - exists s'. split; [done|]. split; [|done]. by destruct (is_extended (ci_kind i)).
Qed.

End Gateway.
