(* ===== verification/GatewayRoute.v ===== *)
(** * Where the gateway sends writes (examples/gateway.rs, session.rs)

    A gateway with a read/write split attaches a session for a statement that is
    no read to the primary, through every failed attempt, or not at all.  The
    verdict is on the text the client sent: a rewrite by the same gateway does
    not change it. *)

From S2P Require Import Prelude Wp RustStr Messages Config Upstream Row Routing Intercept Pool Session Attach Pump Chores Registries PoolKeys Gateway.

(** ** The attach *)

Section GatewayRoute.
Context `{P : Platform} {RE : RegexEngine} {U : UnicodeTables} {F : Fuel} {X : SessionCtx}.
Context (cfg : GatewayConfig) (split : RwSplit) (q : string).
Hypothesis (Hsplit : gw_rw_split cfg = Some split).
Hypothesis (Hwrite : classifier split q = false).

#[local] Instance gateway : Interceptor := Gateway cfg.

(** A detached session of the gateway. *)
Definition roaming (s : Session) : Prop :=
  is_Some (hooks s) ∧ keyed (s_pools s) ∧ lease s = None.

(** Attached, to the pool of an endpoint. *)
Definition attached_to (ep : string) (s : Session) : Prop :=
  current_endpoint s = Some ep ∧ ∃ l, lease s = Some l ∧ pk_endpoint (lease_pool l) = ep.

Definition same_place (s s' : Session) : Prop :=
  (is_Some (hooks s) → is_Some (hooks s')) ∧ s_pools s' = s_pools s ∧ lease s' = lease s.
#[local] Instance same_place_preorder : PreOrder same_place.
Proof. split; unfold same_place; [done|]. intros ??? (? & -> & ->) (? & -> & ->). auto. Qed.

Lemma place_chore {A} (m : async Session A) : keeps chore m → keeps same_place m.
Proof. apply keeps_mono. by intros s s' (d & e & h & w & -> & ?). Qed.
#[local] Hint Resolve place_chore : keeps.
#[local] Hint Extern 1 (keeps same_place (modify _)) =>
  solve [apply keeps_modify; intros ?; unfold same_place; done] : keeps.

Lemma roaming_same s s' : same_place s s' → roaming s → roaming s'.
Proof. intros (Hh & Hp & Hl) (? & ? & ?). unfold roaming. rewrite Hp, Hl. auto. Qed.

Lemma preserves_place {A} (m : async Session A) : keeps same_place m → preserves roaming (λ _, True) m.
Proof. apply preserves_keeps, roaming_same. Qed.
#[local] Hint Extern 3 (preserves roaming (λ _, True) _) =>
  (apply preserves_place; solve [eauto 3 with keeps]) : preserves.

(** The gateway's own choice for the statement. *)
Lemma dispatch_primary : preserves roaming (λ ep, ep = primary split) (dispatch_upstream (Some q)).
Proof.
  intros s Hs. unfold dispatch_upstream. apply wp_bind, wp_gets. pose proof Hs as ([h Hh] & _).
  rewrite Hh. pose proof (place_chore _ (chore_hook (upstream_hook (routing_info (Some q)))) s) as Hk.
  unfold wp. revert Hk. unfold hook. rewrite Hh. simpl. unfold gw_upstream.
  destruct (mbind (M := async (GatewayState * Env)) _ _ _) as [[ep|] [st e]] eqn:Hg; [|done].
  intros Hk. split; [by eapply roaming_same; [by eapply Hk|]|].
  apply bind_ready_inv in Hg as (now & s1 & _ & Hg). apply bind_ready_inv in Hg as (g & s2 & _ & Hg).
  rewrite Hsplit in Hg. injection Hg as <- _. unfold route_sql. simpl. by rewrite Hwrite.
Qed.

Lemma roaming_with_pool {A} k (m : async PoolWorld A) :
  keeps same_key m → preserves roaming (λ _, True) (with_pool k m).
Proof.
  intros Hm s (Hh & Hk & Hl). unfold wp, with_pool. destruct (s_pools s !! k) as [p|] eqn:Hp; [|done].
  destruct (m (MkPoolWorld p (s_env s))) as [[a|] w] eqn:Hw; [|done]. apply Hm in Hw. split; [|done].
  split; [done|]. split; [|done]. apply map_Forall_insert_2; [|done]. rewrite Hw. by apply Hk.
Qed.

Lemma roaming_destroy l : preserves roaming (λ _, True) (destroy_lease l).
Proof. apply roaming_with_pool, keeps_modify. by intros w. Qed.
#[local] Hint Resolve roaming_destroy : preserves.

Lemma roaming_on_conn {A} c (m : async PgWireClient A) :
  preserves (S := Session) roaming (λ _, True) (on_conn c m).
Proof. intros s Hs. unfold wp, on_conn. by destruct (m c) as [[]]. Qed.
#[local] Hint Resolve roaming_on_conn : preserves.

(** Attached to [ep], if attached. *)
Definition lands (ep : string) (r : option bool) (s : Session) : Prop :=
  match r with Some true => attached_to ep s | Some false => True | None => roaming s end.

Lemma failed_lands ep e m s : roaming s → wp (attempt_failed e m) (lands ep) (λ _, True) s.
Proof.
  intros Hs. unfold attempt_failed. apply wp_bind.
  eapply wp_mono; [| |apply (wp_preserves roaming (λ _, True)); [preserves_tac|exact Hs]]; simpl; [|done].
  clear s Hs. intros [] s [Hs _].
  - by apply wp_ret.
  - apply wp_bind. unfold wp. by destruct (send_attach_fatal _ _) as [[]].
Qed.

Lemma prepare_lands ep l s :
  pk_endpoint (lease_pool l) = id ep → roaming s →
  wp (prepare_lease ep l) (lands (id ep)) (λ _, True) s.
Proof.
  intros Hl Hs. unfold prepare_lease.
  assert (∀ A (m : async Session A) (k : A → async Session (option bool)) s, roaming s →
    preserves roaming (λ _, True) m → (∀ a s, roaming s → wp (k a) (lands (id ep)) (λ _, True) s) →
    wp (m ≫= k) (lands (id ep)) (λ _, True) s) as Hrun.
  { clear. intros A m k s Hs Hm Hk. apply wp_bind. eapply wp_mono; [| |by apply Hm]; simpl; [|done].
    intros a s' [Hs' _]. by apply Hk. }
  apply Hrun; [done|preserves_tac|]. clear s Hs. intros [[u|e] c] s Hs.
  2: { apply Hrun; [done|preserves_tac|]. intros _ s' Hs'. by apply failed_lands. }
  apply Hrun; [done|preserves_tac|]. clear s Hs. intros gucs s Hs.
  apply Hrun; [done|preserves_tac|]. clear s Hs. intros [[fl d] c2] s Hs.
  apply Hrun; [done|preserves_tac|]. clear s Hs. intros _ s Hs. destruct fl.
  { apply Hrun; [done|preserves_tac|]. intros _ s' Hs'. by apply failed_lands. }
  apply Hrun; [done|preserves_tac|]. clear s Hs. intros reg s Hs.
  apply Hrun; [done|preserves_tac|]. clear s Hs. intros [[u'|e] c3] s Hs.
  2: { apply Hrun; [done|preserves_tac|]. intros _ s' Hs'. by apply failed_lands. }
  apply Hrun; [done|preserves_tac|]. clear s Hs. intros _ s Hs.
  apply Hrun; [done|preserves_tac|]. clear s Hs. intros _ s Hs.
  apply wp_bind, wp_modify, wp_ret. split; [done|]. eexists. split; [reflexivity|done].
Qed.

Lemma attempt_lands s : roaming s → wp (attempt (Some q)) (lands (primary split)) (λ _, True) s.
Proof.
  intros Hs. unfold attempt. apply wp_bind. eapply wp_mono; [| |by apply dispatch_primary]; simpl; [|done].
  clear s Hs. intros ? s [Hs ->]. destruct (endpoint cx_route (primary split)) as [ep|] eqn:He.
  2: { apply wp_bind. unfold wp. by destruct (send_attach_fatal _ _) as [[]]. }
  apply endpoint_Some in He as [_ Hid]. rewrite <-Hid. unfold attach_to.
  apply wp_bind. unfold wp at 1, resolve_pool.
  set (k := MkPoolKey _ _ _ _). set (f := match factories s !! id ep with Some f => f | None => _ end).
  set (s1 := s <| factories ::= _ |> <| s_pools := _ |>).
  assert (roaming s1) as Hs1.
  { destruct Hs as (Hh & Hk & Hl). subst s1. split; [done|]. split; [|done]. simpl. unfold get_or_create.
    destruct (s_pools s !! k); [done|]. by apply map_Forall_insert_2. }
  clearbody s1. clear s Hs f. apply wp_bind. unfold wp at 1.
  pose proof (roaming_with_pool k checkout key_checkout s1 Hs1) as Hc. unfold wp in Hc.
  destruct (with_pool k checkout s1) as [[r|] s2] eqn:Hw; [|done]. destruct Hc as [Hs2 _].
  destruct r as [l|e]; [|by apply failed_lands]. apply prepare_lands; [|done].
  unfold with_pool in Hw. destruct (s_pools s1 !! k) as [p|] eqn:Hp; [|done].
  destruct (checkout _) as [r w] eqn:Hch. injection Hw as -> _. apply checkout_key in Hch. rewrite Hch.
  destruct Hs1 as (_ & Hk & _). simpl. by rewrite (Hk _ _ Hp).
Qed.

Lemma ensure_lands s :
  roaming s → wp (ensure_attached (Some q)) (λ b s', b = true → attached_to (primary split) s') (λ _, True) s.
Proof.
  intros Hs. unfold ensure_attached. apply wp_bind, wp_gets. rewrite (proj2 (proj2 Hs)).
  generalize attempts. intros n. revert s Hs. induction n as [|n IH]; intros s Hs; simpl.
  { apply wp_bind. unfold wp. by destruct (send_attach_fatal _ _) as [[]]. }
  apply wp_bind. eapply wp_mono; [| |by apply attempt_lands]; simpl; [|done].
  clear s Hs. intros [[]|] s Hs; [by apply wp_ret..|by apply IH].
Qed.

End GatewayRoute.

Section Writes.
Context `{P : Platform} {RE : RegexEngine} {U : UnicodeTables} {F : Fuel} {X : SessionCtx}.

(** C22: the gateway sends writes to the primary: when the split does not take
    the client's statement for a read, the session that attaches for it (with
    whatever message the rewrites made of it) gets a connection of the primary's
    pool, also after failed attempts and whatever the health table says, or the
    session ends. *)
Theorem gateway_writes_to_primary cfg split (h : @SessionHooks P (Gateway cfg)) m m' i pending s r s' :
  gw_rw_split cfg = Some split → cycle_input_of m = Some i → classifier split (ci_sql i) = false →
  hooks s = Some h → keyed (s_pools s) → lease s = None →
  attach_phase (I := Gateway cfg) (cycle_input_of m) m' pending s = (Ready r, s') →
  match r with
  | inr _ => attached_to cfg (primary split) s'
  | inl fl => fl = Break ClientGone
  end.
Proof.
  intros Hsp Hi Hw Hh Hk Hl. unfold attach_phase, lift, stop. rewrite Hi.
  intros (reg & s1 & [= <- <-] & H)%bind_ready_inv.
  apply bind_ready_inv in H as (ok & s2 & Ha & H).
  assert (roaming cfg s) as Hs by (split; [by eexists|done]).
  pose proof (wp_run _ _ _ _ _ _ (ensure_lands cfg split (ci_sql i) Hsp Hw s Hs) Ha) as Hok.
  destruct ok; [|by async_inv]. specialize (Hok eq_refl).
  apply bind_ready_inv in H as (? & s3 & H3 & H). apply bind_ready_inv in H as (? & s4 & H4 & H).
  injection H as <- <-. unfold set_attached in H4. injection H4 as _ <-.
  destruct pending as [[[n sql] oids]|]; injection H3 as _ <-; exact Hok.
Qed.

End Writes.
