(* ===== verification/GatewayMain.v ===== *)
(** * The gateway's command line (examples/gateway.rs, [main])

    Arguments, the gateway they describe and the proxy it is installed in. *)

From S2P Require Import Prelude RustStr Messages Config Upstream Reference Row Routing Intercept Pool Registries ScatterLeg Scatter Gateway Proxy.

Record GatewayArgs := MkGatewayArgs {
  ga_listen : string;
  ga_upstream : option string;
  ga_endpoints : list (string * string);
  rw_split_primary : option string;
  ga_shard_all : option string;
  ga_deny : list string;
  ga_rewrites : list (string * string);
  ga_mask_columns : list string
}.
#[global] Instance eta_GatewayArgs : Eta GatewayArgs := λ a,
  MkGatewayArgs (ga_listen a) (ga_upstream a) (ga_endpoints a) (rw_split_primary a) (ga_shard_all a)
    (ga_deny a) (ga_rewrites a) (ga_mask_columns a).

Definition default_args : GatewayArgs :=
  MkGatewayArgs "127.0.0.1:7432" None [] None None [] [] [].

(** How the process ends instead: [expect] panics with the usage, an unknown
    argument exits with status 2. *)
Inductive ArgsError :=
| Usage (what : string)
| UnknownArgument (arg : string).

Fixpoint parse_args (args : list string) (a : GatewayArgs) : result ArgsError GatewayArgs :=
  match args with
  | [] => Ok a
  | arg :: args =>
    if decide (arg = "--listen") then
      match args with
      | v :: args => parse_args args (a <| ga_listen := v |>)
      | [] => Err (Usage "--listen <addr>")
      end
    else if decide (arg = "--upstream") then
      match args with
      | v :: args => parse_args args (a <| ga_upstream := Some v |>)
      | [] => Err (Usage "--upstream <connstring>")
      end
    else if decide (arg = "--endpoint") then
      match args with
      | v :: args =>
        match split_once "=" v with
        | Some (i, c) => parse_args args (a <| ga_endpoints ::= λ l, l ++ [(i, c)] |>)
        | None => Err (Usage "--endpoint <id>=<connstring>")
        end
      | [] => Err (Usage "--endpoint <id>=<connstring>")
      end
    else if decide (arg = "--rw-split") then
      match args with
      | v :: args => parse_args args (a <| rw_split_primary := Some v |>)
      | [] => Err (Usage "--rw-split <primary-id>")
      end
    else if decide (arg = "--shard-all") then
      match args with
      | v :: args => parse_args args (a <| ga_shard_all := Some v |>)
      | [] => Err (Usage "--shard-all <regex>")
      end
    else if decide (arg = "--deny") then
      match args with
      | v :: args => parse_args args (a <| ga_deny ::= λ l, l ++ [v] |>)
      | [] => Err (Usage "--deny <regex>")
      end
    else if decide (arg = "--rewrite") then
      match args with
      | f :: t :: args => parse_args args (a <| ga_rewrites ::= λ l, l ++ [(f, t)] |>)
      | _ => Err (Usage "--rewrite <from> <to>")
      end
    else if decide (arg = "--mask-col") then
      match args with
      | v :: args => parse_args args (a <| ga_mask_columns ::= λ l, l ++ [v] |>)
      | [] => Err (Usage "--mask-col <name>")
      end
    else Err (UnknownArgument arg)
  end.

(** ** Printing and parsing back *)

(** A command line for given arguments. *)
Definition print_args (a : GatewayArgs) : list string :=
  ["--listen"; ga_listen a] ++
  (match ga_upstream a with Some v => ["--upstream"; v] | None => [] end) ++
  concat ((λ '(i, c), ["--endpoint"; i +:+ String "=" c]) <$> ga_endpoints a) ++
  (match rw_split_primary a with Some v => ["--rw-split"; v] | None => [] end) ++
  (match ga_shard_all a with Some v => ["--shard-all"; v] | None => [] end) ++
  concat ((λ v, ["--deny"; v]) <$> ga_deny a) ++
  concat ((λ '(f, t), ["--rewrite"; f; t]) <$> ga_rewrites a) ++
  concat ((λ v, ["--mask-col"; v]) <$> ga_mask_columns a).

(** An id without the separator. *)
Definition plain_id (i : string) : Prop := str_all (λ c, bool_decide (c ≠ "="%char)) i = true.

Lemma split_once_plain i c : plain_id i → split_once "=" (i +:+ String "=" c) = Some (i, c).
Proof.
  unfold plain_id. induction i as [|x i IH]; [done|]. cbn [str_all]. rewrite andb_true_iff, bool_decide_eq_true.
  intros [Hx Hi]. simpl. destruct (decide ("="%char = x)); [done|]. simpl in IH. by rewrite IH.
Qed.

(** An option that may repeat, over its values. *)
Lemma parse_repeated {A} (opt : A → list string) (add : A → GatewayArgs → GatewayArgs) l rest a :
  (∀ x rest a, x ∈ l → parse_args (opt x ++ rest) a = parse_args rest (add x a)) →
  parse_args (concat (opt <$> l) ++ rest) a = parse_args rest (foldl (λ a x, add x a) a l).
Proof.
  intros Hopt. revert a. induction l as [|x l IH]; intros a; [done|].
  cbn [fmap list_fmap concat foldl]. rewrite <-app_assoc, Hopt by (by left). apply IH.
  intros y rest' a' Hy. apply Hopt. by right.
Qed.

(** Pushes onto one of the lists, taken together. *)
Lemma fold_push {A} (upd : (list A → list A) → GatewayArgs → GatewayArgs) l a :
  (∀ a, upd (λ e, e ++ []) a = a) →
  (∀ x l a, upd (λ e, e ++ l) (upd (λ e, e ++ [x]) a) = upd (λ e, e ++ x :: l) a) →
  foldl (λ a x, upd (λ e, e ++ [x]) a) a l = upd (λ e, e ++ l) a.
Proof.
  intros Hnil Hcons. revert a. induction l as [|x l IH]; intros a; cbn [foldl]; [done|].
  by rewrite IH, Hcons.
Qed.

Ltac push_laws :=
  intros; repeat match goal with a : GatewayArgs |- _ => destruct a end; simpl;
  by rewrite ?app_nil_r, <-?app_assoc.

(** C36: the gateway's command line reads back: printing any arguments whose
    endpoint ids have no [=] and parsing the result gives those arguments, with
    endpoints, patterns, rewrites and masks in their order. *)
Theorem args_roundtrip a :
  Forall (λ '(i, _), plain_id i) (ga_endpoints a) →
  parse_args (print_args a) default_args = Ok a.
Proof.
  intros Hids. unfold print_args. cbn [app parse_args]. rewrite decide_True by done.
  set (a0 := default_args <| ga_listen := ga_listen a |>).
  assert (∀ (o : option string) k set rest b,
    (∀ v rest b, parse_args (k :: v :: rest) b = parse_args rest (set v b)) →
    parse_args (match o with Some v => [k; v] | None => [] end ++ rest) b =
    parse_args rest (match o with Some v => set v b | None => b end)) as Hopt.
  { intros [v|] k set rest b Hk; [apply Hk|done]. }
  rewrite (Hopt _ _ (λ v a, a <| ga_upstream := Some v |>)) by done.
  rewrite (parse_repeated (λ '(i, c), ["--endpoint"; i +:+ String "=" c])
    (λ x a, a <| ga_endpoints ::= λ e, e ++ [x] |>)).
  2: { intros [i c] rest b Hin. simpl. rewrite split_once_plain; [done|].
       rewrite Forall_forall in Hids. exact (Hids _ Hin). }
  rewrite (fold_push (λ f a, a <| ga_endpoints ::= f |>)) by push_laws.
  rewrite (Hopt _ _ (λ v a, a <| rw_split_primary := Some v |>)) by done.
  rewrite (Hopt _ _ (λ v a, a <| ga_shard_all := Some v |>)) by done.
  rewrite (parse_repeated (λ v, ["--deny"; v]) (λ x a, a <| ga_deny ::= λ e, e ++ [x] |>)) by done.
  rewrite (fold_push (λ f a, a <| ga_deny ::= f |>)) by push_laws.
  rewrite (parse_repeated (λ '(f, t), ["--rewrite"; f; t]) (λ x a, a <| ga_rewrites ::= λ e, e ++ [x] |>))
    by (by intros []).
  rewrite (fold_push (λ f a, a <| ga_rewrites ::= f |>)) by push_laws.
  rewrite <-(app_nil_r (concat ((λ v, ["--mask-col"; v]) <$> ga_mask_columns a))).
  rewrite (parse_repeated (λ v, ["--mask-col"; v]) (λ x a, a <| ga_mask_columns ::= λ e, e ++ [x] |>)) by done.
  rewrite (fold_push (λ f a, a <| ga_mask_columns ::= f |>)) by push_laws.
  subst a0. by destruct a as [l [] ? [] [] ? ? ?].
Qed.

(** ** The proxy the arguments describe *)

Section Main.
Context `{P : Platform} {RE : RegexEngine} {K : Sockets}.

(** The gateway as a service of the proxy. *)
Context (as_service : GatewayConfig → GatewayState → Service).

(** [None] is a panic: an invalid pattern. *)
Definition make_gateway (a : GatewayArgs) : option (GatewayConfig * GatewayState) :=
  let g := group_new (fst <$> ga_endpoints a) in
  pattern ← match ga_shard_all a with
            | Some p => r ← regex_new p; Some (Some r)
            | None => Some None
            end;
  deny ← DenyList_new (ga_deny a);
  rewrites ← mapM (λ '(f, t), Rewrite_new f t) (ga_rewrites a);
  let shards := match ga_shard_all a, ga_endpoints a with
                | Some _, _ :: _ => Some (MkShardSet (fst <$> ga_endpoints a))
                | _, _ => None
                end in
  Some (MkGatewayConfig deny rewrites (ga_mask_columns a) (rwsplit_new g <$> rw_split_primary a)
          shards pattern,
        MkGatewayState g Audit_new []).

Definition uses_rw_split (a : GatewayArgs) : bool :=
  bool_decide (is_Some (rw_split_primary a)) || bool_decide (is_Some (ga_shard_all a)).

Definition transaction_pool : PoolConfig :=
  let d := PoolConfig_default in
  MkPoolConfig TransactionMode (max_size d) (idle_timeout d) (max_lifetime d) (stale_after d)
    (sweep_interval d).

(** [main] up to [run]: [None] is a panic. *)
Definition gateway_main (a : GatewayArgs) :
    option (result ConfigError (ProxyConfig * option ServiceChoice)) :=
  let upstream := default "host=127.0.0.1 port=5432" (ga_upstream a) in
  gw ← make_gateway a;
  Some (match set_listen (ga_listen a) builder with
        | Err e => Err e
        | Ok b =>
          let b := match ga_endpoints a with
                   | [] => set_upstream upstream b
                   | l => foldl (λ b '(i, c), add_endpoint i c b) b l
                   end in
          let b := if uses_rw_split a then set_pool_config transaction_pool b else b in
          build (set_service (as_service gw.1 gw.2) b)
        end).

(** The builder's pool settings are its own business. *)
Lemma add_endpoints_pool l b : b_pool_config (add_endpoints l b) = b_pool_config b.
Proof.
  revert b. induction l as [|[i c] l IH]; intros b; [done|].
  change (add_endpoints ((i, c) :: l) b) with (add_endpoints l (add_endpoint i c b)). rewrite IH.
  unfold add_endpoint. destruct (b_route b); [|done]. by destruct (is_default_route _).
Qed.

Lemma add_endpoints_fresh i c l b :
  b_route b = None → i ≠ "default" → Forall (λ '(i, _), i ≠ "default") l →
  endpoints <$> b_route (add_endpoints ((i, c) :: l) b) = Some (named ((i, c) :: l)).
Proof.
  intros Hb Hi Hl.
  set (r := MkRouteConfig "default" [MkEndpointConfig i c None None] None no_tls_config).
  change (add_endpoints ((i, c) :: l) b) with (add_endpoints l (add_endpoint i c b)).
  assert (b_route (add_endpoint i c b) = Some r) as Hr by (unfold add_endpoint; by rewrite Hb).
  destruct (add_endpoints_route l _ r Hr) as (-> & _ & _); [by apply bool_decide_eq_false|done|done].
Qed.

Lemma build_inv b cfg svc :
  build b = Ok (cfg, svc) →
  b_route b = Some (cfg_route cfg) ∧ cfg_pool cfg = default PoolConfig_default (b_pool_config b) ∧
  svc = choose_service (b_interceptor b) (b_route b).
Proof.
  unfold build. destruct (b_listen_addr b); [|done]. destruct (b_route b); [|done].
  by intros [= <- <-].
Qed.

(** The gateway's arguments make the proxy they describe: the route has
    exactly the named endpoints in order (or the one upstream), pooling is per
    transaction exactly when queries are split or sharded, the gateway answers
    the hooks, and every shard it broadcasts to is an endpoint of the route. *)
Theorem gateway_main_config a cfg svc :
  Forall (λ '(i, _), i ≠ "default") (ga_endpoints a) → gateway_main a = Some (Ok (cfg, svc)) →
  endpoints (cfg_route cfg) =
    match ga_endpoints a with
    | [] => [MkEndpointConfig "default" (default "host=127.0.0.1 port=5432" (ga_upstream a)) None None]
    | l => named l
    end ∧
  mode (cfg_pool cfg) = (if uses_rw_split a then TransactionMode else SessionMode) ∧
  ∃ gw st, make_gateway a = Some (gw, st) ∧ svc = Some (UserService (as_service gw st)) ∧
    ∀ ss ep, gw_shards gw = Some ss → ep ∈ shards ss → is_Some (endpoint (cfg_route cfg) ep).
Proof.
  intros Hids H. unfold gateway_main in H. destruct (make_gateway a) as [[gw st]|] eqn:Hgw; [|done].
  simpl in H. injection H as H. destruct (set_listen (ga_listen a) builder) as [b|] eqn:Hb; [|done].
  assert (b_route b = None ∧ b_pool_config b = None) as [Hr Hpc].
  { unfold set_listen in Hb. destruct (parse_addr _); [|done]. by injection Hb as <-. }
  set (b1 := match ga_endpoints a with [] => _ | _ => _ end) in H.
  assert (endpoints <$> b_route b1 = Some (match ga_endpoints a with
    | [] => [MkEndpointConfig "default" (default "host=127.0.0.1 port=5432" (ga_upstream a)) None None]
    | l => named l end) ∧ b_pool_config b1 = None) as [He1 Hp1].
  { subst b1. destruct (ga_endpoints a) as [|[i c] l]; [done|].
    apply Forall_cons in Hids as [Hi Hl]. split; [by apply add_endpoints_fresh|].
    rewrite <-Hpc. apply (add_endpoints_pool ((i, c) :: l) b). }
  clearbody b1. apply build_inv in H as (Hbr & Hbp & ->).
  assert (b_route b1 = Some (cfg_route cfg)) as Hbr1 by (by destruct (uses_rw_split a)).
  rewrite Hbr1 in He1. injection He1 as He1. split; [done|]. split.
  { rewrite Hbp. destruct (uses_rw_split a); [done|]. simpl. by rewrite Hp1. }
  exists gw, st. split; [done|]. split; [done|].
  intros ss ep Hss Hin. unfold make_gateway in Hgw.
  assert (ga_endpoints a ≠ [] ∧ shards ss = fst <$> ga_endpoints a) as [Hne Hsh].
  { apply bind_Some in Hgw as (? & _ & Hgw). apply bind_Some in Hgw as (? & _ & Hgw).
    apply bind_Some in Hgw as (? & _ & Hgw). injection Hgw as <- <-. simpl in Hss.
    destruct (ga_shard_all a), (ga_endpoints a); simplify_eq; done. }
  rewrite Hsh in Hin. apply list_elem_of_fmap in Hin as ([i c] & -> & Hin).
  replace (match ga_endpoints a with [] => _ | l => named l end) with (named (ga_endpoints a)) in He1
    by (by destruct (ga_endpoints a)).
  apply (endpoint_is_Some _ (MkEndpointConfig i c None None)). rewrite He1.
  unfold named. apply list_elem_of_fmap. by exists (i, c).
Qed.

End Main.
