(* ===== verification/Binary.v ===== *)
(** * The command-line binary (pgferry-bin, main.rs)

    From the parsed command line and configuration file to the proxy's
    configuration.  The argument and TOML parsers are outside: their results
    are the records below. *)

From S2P Require Import Prelude RustStr Messages Config Routing Proxy.

Record Args := MkArgs {
  arg_listen : option string;
  arg_upstream : option string;
  arg_password : option string
}.

Record FileServerTls := MkFileServerTls {
  file_cert : string;
  file_key : string
}.

Record FileEndpoint := MkFileEndpoint {
  fe_id : string;
  fe_upstream : string;
  fe_password : option string
}.

Record FileRoute := MkFileRoute {
  fr_name : option string;
  fr_upstream : option string;
  fr_endpoints : list FileEndpoint;
  fr_password : option string;
  fr_password_env : option string;
  tls_ca : option string;
  tls_insecure : option bool
}.

Record FilePool := MkFilePool {
  fp_mode : option string;
  fp_max_size : option nat;
  idle_timeout_secs : option Z;
  max_lifetime_secs : option Z;
  stale_after_secs : option Z;
  sweep_interval_secs : option Z
}.

(** [FilePool::default]. *)
Definition FilePool_default : FilePool := MkFilePool None None None None None None.

Record FileConfig := MkFileConfig {
  file_listen : string;
  file_max_client_conn : option nat;
  file_admin_database : option string;
  file_metrics_addr : option string;
  shutdown_drain_secs : option Z;
  server_tls : option FileServerTls;
  file_route : FileRoute;
  file_pool : FilePool
}.

(** An unknown mode is reported and taken for session pooling. *)
Definition parse_mode (v : string) : PoolMode :=
  if decide (v = "transaction") then TransactionMode else SessionMode.

(** A duration given in seconds. *)
Definition secs_or (o : option Z) (d : Duration) : Duration :=
  match o with Some v => from_secs v | None => d end.

Definition into_config (p : FilePool) : PoolConfig :=
  let d := PoolConfig_default in
  MkPoolConfig
    (match fp_mode p with Some v => parse_mode v | None => mode d end)
    (default (max_size d) (fp_max_size p))
    (secs_or (idle_timeout_secs p) (idle_timeout d))
    (secs_or (max_lifetime_secs p) (max_lifetime d))
    (secs_or (stale_after_secs p) (stale_after d))
    (secs_or (sweep_interval_secs p) (sweep_interval d)).

(** [env] is the process environment. *)
Definition resolve_password (env : string → option string) (r : FileRoute) (cli : option string) :
    option string :=
  match cli with
  | Some p => Some p
  | None =>
    match fr_password r with
    | Some p => Some p
    | None => match fr_password_env r with Some var => env var | None => None end
    end
  end.

Inductive BinError :=
| NoListen
| BadConfig (e : ConfigError).

Definition file_endpoint (e : FileEndpoint) : EndpointConfig :=
  MkEndpointConfig (fe_id e) (fe_upstream e) (fe_password e) None.

Definition or_else {A} (a b : option A) : option A :=
  match a with Some _ => a | None => b end.

(** The route of [main]. *)
Definition main_route (env : string → option string) (args : Args) (file : option FileConfig) :
    RouteConfig :=
  let r := file_route <$> file in
  let upstream := default EmptyString (or_else (arg_upstream args) (r ≫= fr_upstream)) in
  let endpoints := match r with Some r => file_endpoint <$> fr_endpoints r | None => [] end in
  MkRouteConfig
    (default "default" (r ≫= fr_name))
    (match endpoints with
     | [] => [MkEndpointConfig "default" upstream None None]
     | l => l
     end)
    (r ≫= λ r, resolve_password env r (arg_password args))
    (MkUpstreamTlsConfig (r ≫= tls_ca) (default false (r ≫= tls_insecure))).

Section Binary.
Context {K : Sockets}.

(** [main] up to [serve]. *)
Definition main_config (env : string → option string) (args : Args) (file : option FileConfig) :
    result BinError (ProxyConfig * option ServiceChoice) :=
  match or_else (arg_listen args) (file_listen <$> file) with
  | None => Err NoListen
  | Some listen =>
    match set_listen listen builder with
    | Err e => Err (BadConfig e)
    | Ok b =>
      let pool := match file with Some f => file_pool f | None => FilePool_default end in
      let b := set_route (main_route env args file) b in
      let b := set_pool_config (into_config pool) b in
      let b := set_max_client_conn (default 128 (file ≫= file_max_client_conn)) b in
      let b := match file ≫= file_admin_database with Some n => set_admin_database n b | None => b end in
      match (match file ≫= file_metrics_addr with Some a => set_metrics_addr a b | None => Ok b end) with
      | Err e => Err (BadConfig e)
      | Ok b =>
        let b := match file ≫= server_tls with
                 | Some t => set_tls_server (file_cert t) (file_key t) b
                 | None => b
                 end in
        let b := match file ≫= shutdown_drain_secs with
                 | Some d => set_shutdown_drain (from_secs d) b
                 | None => b
                 end in
        match build b with
        | Err e => Err (BadConfig e)
        | Ok c => Ok c
        end
      end
    end
  end.

(** C37: the binary's configuration: the listen address of the command line wins
    over the file's; named endpoints of the file make the route, and without
    them the one upstream does, the command line's before the file's; more than
    one endpoint installs failover; the session cap is the file's, and 128 without a
    file, where the file has none, or when it is zero; and the password
    of the command line, which wins over the file's, is used only when there is
    a file. *)
Theorem binary_config env args file cfg svc :
  main_config env args file = Ok (cfg, svc) →
  (∃ listen, or_else (arg_listen args) (file_listen <$> file) = Some listen ∧
     parse_addr listen = Some (listen_addr cfg)) ∧
  endpoints (cfg_route cfg) =
    (match file with
     | Some f => match fr_endpoints (file_route f) with
                 | [] => [MkEndpointConfig "default" (default EmptyString
                           (or_else (arg_upstream args) (fr_upstream (file_route f)))) None None]
                 | l => file_endpoint <$> l
                 end
     | None => [MkEndpointConfig "default" (default EmptyString (arg_upstream args)) None None]
     end) ∧
  svc = (if decide (1 < length (endpoints (cfg_route cfg)))
         then Some (BuiltinFailover (from_endpoints (endpoints (cfg_route cfg)))) else None) ∧
  max_client_conn cfg =
    (match file ≫= file_max_client_conn with
     | Some (S n) => S n
     | Some 0 | None => 128
     end) ∧
  password (cfg_route cfg) =
    (match file with
     | Some f => or_else (arg_password args) (or_else (fr_password (file_route f))
                   (fr_password_env (file_route f) ≫= env))
     | None => None
     end).
Proof.
  unfold main_config. destruct (or_else (arg_listen args) _) as [listen|]; [|done].
  destruct (set_listen listen builder) as [b|] eqn:Hl; [|done].
  assert (∃ a, parse_addr listen = Some a ∧ b = builder <| b_listen_addr := Some a |>) as (a & Ha & ->).
  { unfold set_listen in Hl. destruct (parse_addr listen) as [a|]; [|done]. injection Hl as <-. by exists a. }
  set (b1 := match file ≫= file_admin_database with Some n => _ | None => _ end).
  destruct (match file ≫= file_metrics_addr with Some _ => _ | None => _ end) as [b2|] eqn:Hm; [|done].
  assert (b_listen_addr b2 = Some a ∧ b_route b2 = Some (main_route env args file) ∧
    b_interceptor b2 = None ∧ b_max_client_conn b2 = default 128 (file ≫= file_max_client_conn)) as (Hl2 & Hr2 & Hi2 & Hm2).
  { assert (b_listen_addr b1 = Some a ∧ b_route b1 = Some (main_route env args file) ∧
      b_interceptor b1 = None ∧ b_max_client_conn b1 = default 128 (file ≫= file_max_client_conn)) as Hb1 by (subst b1; by destruct (file ≫= file_admin_database)).
    clearbody b1. destruct (file ≫= file_metrics_addr) as [ma|]; [|by injection Hm as <-].
    unfold set_metrics_addr in Hm. destruct (parse_addr ma); [|done]. by injection Hm as <-. }
  set (b3 := match file ≫= shutdown_drain_secs with Some d => _ | None => _ end).
  assert (b_listen_addr b3 = Some a ∧ b_route b3 = Some (main_route env args file) ∧
    b_interceptor b3 = None ∧ b_max_client_conn b3 = default 128 (file ≫= file_max_client_conn)) as (Hl3 & Hr3 & Hi3 & Hm3)
    by (subst b3; by destruct (file ≫= shutdown_drain_secs), (file ≫= server_tls)).
  clearbody b3. unfold build. rewrite Hl3, Hr3, Hi3, Hm3. cbv zeta iota. intros [= <- <-]. cbn [listen_addr cfg_route max_client_conn].
  split; [by eauto|]. split; [|split; [|split; [by destruct (file ≫= file_max_client_conn) as [[|n]|]|]]].
  - unfold main_route. destruct file as [f|]; simpl; [|by destruct (arg_upstream args)].
    by destruct (fr_endpoints (file_route f)).
  - unfold choose_service. case_bool_decide; [by rewrite decide_True|by rewrite decide_False].
  - destruct file as [f|]; [|done]. unfold main_route, resolve_password. simpl.
    destruct (arg_password args), (fr_password (file_route f)); try done.
Qed.

End Binary.
