(* ===== verification/Witnesses.v ===== *)
(** * Witnesses

    Each theorem with hypotheses is applied here at a concrete input of the
    reference platform, with its hypotheses discharged by evaluation: what the
    theorems assume can hold. *)

From S2P Require Import Prelude RustStr Messages Row Config Routing Upstream Reference Pool PoolHygiene PoolKeys PoolSystem Intercept Registries Session Attach Pump PumpFlow PumpInv RowHooks Failover ScatterLeg Scatter ScatterProps ScatterLimits Wp Neutral Isolation Replay Ownership Site SiteOwnership Front Admin Startup Clients Proxy Server Metrics Gateway GatewayRoute GatewayMain Binary.

#[local] Instance some_fuel : Fuel := 8.

(** ** Rows *)

(** One field, [ab]. *)
Definition row_ab : DataRow := MkDataRow (put_i32 2 ++ ["a"%char; "b"%char]) 1.

Definition view_ab : DataRowMut := MkDataRowMut row_ab [Some (Range 4 2)] false.

Lemma edits_roundtrip_witness :
  ∃ m', parse (apply (edits [SetText 0 "xyz"; SetNull 3] view_ab)) = Ok m' ∧
        row_values m' = [Some ["x"%char; "y"%char; "z"%char]].
Proof.
  apply (edits_roundtrip row_ab view_ab [SetText 0 "xyz"; SetNull 3]).
  - vm_compute. reflexivity.
  - repeat constructor; vm_compute; reflexivity.
Defined.

(** ** Routing *)

Definition two_endpoints : EndpointGroup := group_new ["a"; "b"].

Lemma failures_mark_dead_witness :
  is_alive 7 (report_failures [5; 6]%Z "a" two_endpoints) "a" = true ↔
  (0 + 2 < 2)%Z ∨ (DEFAULT_REVIVE_AFTER ≤ 1)%Z.
Proof.
  apply (failures_mark_dead [5; 6]%Z 6 "a" two_endpoints 7 0).
  - apply group_new_inv.
  - reflexivity.
  - reflexivity.
Defined.

(** ** The pool *)

Definition a_key : PoolKey := MkPoolKey "r" "a" "u" None.
Definition small_config : PoolConfig := MkPoolConfig TransactionMode 2 (from_secs 600)
  (from_secs 3600) (from_secs 30) (from_secs 15).
Definition an_env : RefEnv := MkRefEnv 100 1 [].
Definition a_factory : ConnectFactory := ref_connect "up".
Definition a_pool : PoolInner := Pool_new a_key small_config a_factory.
Definition a_world : PoolWorld := MkPoolWorld a_pool an_env.
Definition a_lease : UpstreamLease := MkUpstreamLease fresh_conn 100 a_key.

(** Two checkouts begun, one of them given a permit. *)
Definition busy_sys : Sys :=
  MkSys (count (λ m, m <| waiting ::= dec |>) ((begin_wait (begin_wait a_pool)) <| permits := 1 |>))
    [TAcquired; TWaiting] 0 0.

Lemma busy_reachable : reachable a_key small_config a_factory busy_sys.
Proof.
  eapply rtc_l; [apply step_new|]. eapply rtc_l; [apply step_new|].
  eapply rtc_l; [eapply (step_task _ [] TWaiting [TWaiting]), step_acquire; reflexivity|].
  apply rtc_refl.
Defined.

Lemma pool_capacity_witness :
  connections busy_sys ≤ 2 ∧ permits (sys_pool busy_sys) + tally holds_permit (tasks busy_sys) = 2.
Proof. apply (pool_capacity a_key small_config a_factory busy_sys), busy_reachable. Defined.

Lemma gauges_exact_witness :
  active (metrics (sys_pool busy_sys)) = wrap_i 64 0 ∧
  waiting (metrics (sys_pool busy_sys)) = wrap_i 64 1 ∧
  reused (metrics (sys_pool busy_sys)) = checkouts (metrics (sys_pool busy_sys)).
Proof. apply (gauges_exact a_key small_config a_factory busy_sys), busy_reachable. Defined.

Lemma checkout_refines_witness :
  steps (MkSys a_pool [] 0 0) (MkSys (pool (checkout a_world).2)
    [TLeased a_lease] 0 0).
Proof.
  apply (checkout_refines a_world (Ok a_lease) _ [] 0 0).
  apply run_result. vm_compute. reflexivity.
Defined.

Lemma return_refines_witness :
  steps (MkSys a_pool [TLeased a_lease] 0 0)
    (MkSys (pool (checkin a_lease Hygiene_default a_world).2) [] 0 0).
Proof.
  apply (return_refines a_lease Hygiene_default false a_world _ [] 0 0).
  left. apply run_result. vm_compute. reflexivity.
Defined.

Definition a_parked : Parked := MkParked fresh_conn 90 80.
Definition old_lease : UpstreamLease := MkUpstreamLease fresh_conn 80 a_key.
Definition parked_pool : PoolInner := a_pool <| idle := [a_parked] |>.

Lemma checkout_reuses_top_witness :
  ∃ w', checkout (MkPoolWorld parked_pool an_env) =
      (Ready (Ok old_lease), w') ∧
    idle (pool w') = [] ∧ permits (pool w') = 1 ∧
    created (metrics (pool w')) = created (metrics parked_pool).
Proof.
  apply (checkout_reuses_top 100 101 parked_pool a_parked [] an_env
    (MkRefEnv 101 1 []) (MkRefEnv 102 1 []) 1); try reflexivity; vm_compute; discriminate.
Defined.

Lemma checkout_completes_witness :
  ∃ r w', checkout a_world = (Ready r, w') ∧ permits (pool w') = if is_err r then 2 else 1.
Proof.
  apply (checkout_completes (L := ref_laws) a_world 1).
  - reflexivity.
  - intros e. simpl. unfold a_factory, ref_connect. destruct (outcomes e) as [|[]]; by eexists _, _.
Defined.

Lemma checkin_total_witness :
  ∃ w', checkin a_lease Hygiene_default a_world = (Ready (), w') ∧
    permits (pool w') = 3 ∧
    active (metrics (pool w')) = dec 0 ∧
    (idle (pool w') = [] ∨
     ∃ c now, sanitize Hygiene_default fresh_conn = (Ready (Ok ()), c) ∧
              idle (pool w') = [] ++ [MkParked c now 100]).
Proof. apply (checkin_total (L := ref_laws) a_lease Hygiene_default a_world). Defined.

(** A connection in a transaction with a response in flight. *)
Definition busy_conn : @PgWireClient ref_platform :=
  MkRefConn [Ok (BCommandComplete "SELECT 1"); Ok (BReadyForQuery Transaction)] Transaction ∅ ∅ [] []
    false 1 Idle.

Lemma sanitize_neutral_witness :
  let c' := (sanitize (MkHygiene true CopyNone) busy_conn).2 in
  owed c' = 0 ∧ transaction_status c' = Idle.
Proof.
  apply (sanitize_neutral (MkHygiene true CopyNone) busy_conn).
  - vm_compute. apply le_n.
  - intros c1 c2 Hb Hd. vm_compute in Hb. injection Hb as <-. vm_compute in Hd. discriminate Hd.
  - vm_compute. reflexivity.
Defined.

(** A response in flight that was not noted. *)
Definition unnoted_conn : @PgWireClient ref_platform :=
  MkRefConn [Ok (BCommandComplete "SELECT 1"); Ok (BReadyForQuery Idle)] Idle ∅ ∅ [] [] false 1 Idle.
Lemma sanitize_keeps_unnoted_witness :
  owed (sanitize Hygiene_default unnoted_conn).2 = owed unnoted_conn ∧ owed unnoted_conn = 1.
Proof.
  split; [|vm_compute; reflexivity].
  apply (sanitize_keeps_unnoted Hygiene_default unnoted_conn).
  - discriminate.
  - reflexivity.
  - vm_compute. reflexivity.
Defined.

(** ** Sessions *)

Definition ep_a : EndpointConfig := MkEndpointConfig "a" "up" None None.
Definition ep_down : EndpointConfig := MkEndpointConfig "b" "down" None None.
Definition no_tls : UpstreamTlsConfig := MkUpstreamTlsConfig None false.

(** A transaction-mode session on a route with one endpoint. *)
#[local] Instance one_route : SessionCtx :=
  MkSessionCtx (MkRouteConfig "r" [ep_a] None no_tls) small_config "u" None ∅ true.

(** The leg futures are polled in turns. *)
#[local] Instance in_turns `{P : Platform} {I : Interceptor} : Schedule := λ legs _, concat (replicate 16 (seq 0 (length legs))).

Definition reading_client : Downstream := MkDownstream [] Idle None.

Section Plain.
#[local] Instance no_interceptor : Interceptor := NoopInterceptor.

Lemma noop_complete : HooksComplete.
Proof. intros rep st. by eexists. Defined.

(** An attached session; the server has a response ready. *)
Definition answering (ms : list PgWireBackendMessage) : UpstreamLease :=
  MkUpstreamLease (MkRefConn (Ok <$> ms) Idle ∅ ∅ [] [] false 1 Idle) 100 a_key.
Definition attached_session (l : UpstreamLease) : Session :=
  pump_init reading_client an_env {[ a_key := a_pool ]} (Some l) None true.

Definition a_response : list PgWireBackendMessage := [BCommandComplete "SELECT 0"].

(** A query, and a statement that is named. *)
Definition sent_up : list PgWireFrontendMessage := [FQuery "select 1"; FParse (Some "st") "select 2" []; FSync].
Definition told_conn : @PgWireClient ref_platform :=
  (conn_forward FSync (conn_forward (FParse (Some "st") "select 2" [])
    (conn_forward (FQuery "select 1") fresh_conn).2).2).2.

Lemma client_passthrough_witness :
  ∃ s', pump (client_events sent_up) (attached_session a_lease) = (Ready None, s') ∧
    lease s' = Some (a_lease <| conn := told_conn |>) ∧
    ds_sent (downstream s') = [] ∧ s_pools s' = {[ a_key := a_pool ]} ∧
    registry s' = {[ "st" := ("select 2", []) ]} ∧ lease_dirty s' = true.
Proof.
  apply (client_passthrough sent_up a_lease told_conn (attached_session a_lease)); try reflexivity.
  - repeat (split; [split; [discriminate|intros x Hx; first [discriminate Hx|by injection Hx as <-]]|]).
    exact Logic.I.
  - do 3 (eexists; split; [reflexivity|]). reflexivity.
Defined.

Lemma response_is_served :
  serves (a_response ++ [BReadyForQuery Idle]) (conn (answering (a_response ++ [BReadyForQuery Idle])))
    (MkRefConn [] Idle ∅ ∅ [] [] false 1 Idle).
Proof. eexists. split; [reflexivity|]. eexists. split; reflexivity. Defined.

Definition served_session : Session :=
  attached_session (answering (a_response ++ [BReadyForQuery Idle])).
Definition served_lease : UpstreamLease := answering [].


(** A response is due; the client sends more of its [COPY] data meanwhile. *)
Definition waiting_session : Session := served_session <| hygiene := MkHygiene true CopyNone |>.
Definition both_ways : list Turn := [Down (BCommandComplete "SELECT 0"); Up (FCopyData [])].
Definition drained_conn : @PgWireClient ref_platform :=
  MkRefConn [] Idle ∅ ∅ [FCopyData []] [] false 1 Idle.


(** The server closed the connection during an extended cycle. *)
Definition dead_lease : UpstreamLease :=
  MkUpstreamLease (MkRefConn [] Idle ∅ ∅ [] [] true 1 Idle) 100 a_key.
Definition losing_session : Session :=
  (attached_session dead_lease) <| hygiene := MkHygiene true CopyNone |> <| cycle_is_extended := true |>.

Lemma upstream_eof_recovers_witness :
  ∃ s', on_event EvUpstream losing_session = (Ready Continue, s') ∧
    lease s' = None ∧ attached s' = false ∧ s_pools s' = destroyed dead_lease a_pool losing_session ∧
    awaiting_response (hygiene s') = false ∧
    ds_sent (downstream s') = [error_response lost_error] ∧
    swallow_until_sync s' = true ∧
    (true = true → ∀ rest, Forall mid_cycle rest →
      ∃ s'', pump (client_events (rest ++ [FSync])) s' = (Ready None, s'') ∧
        ds_sent (downstream s'') = ds_sent (downstream s') ++ [BReadyForQuery Idle] ∧
        swallow_until_sync s'' = false ∧ lease s'' = None ∧ s_pools s'' = s_pools s').
Proof.
  apply (upstream_eof_recovers dead_lease a_pool (conn dead_lease) losing_session); reflexivity.
Defined.

(** A session whose statement [st] was parsed as [select 1]. *)
Definition prepared_session : Session :=
  (attached_session a_lease) <| registry := {[ "st" := ("select 1", []) ]} |>.

Lemma closed_statement_witness :
  ∃ s', pump (client_events [FClose (Some "st") "S"%char; FParse (Some "st") "select 2" []])
          prepared_session = (Ready None, s') ∧
    lease s' = Some (a_lease <| conn := (conn_forward (FClose (Some "st") "S"%char) fresh_conn).2 |>) ∧
    swallow_until_sync s' = true ∧
    ds_sent (downstream s') = ds_sent (downstream prepared_session) ++
      [error_response (MkErrorInfo "ERROR" "42P05"
         ("prepared statement " +:+ String "034" ("st" +:+ String "034" " already exists (pgferry)")))].
Proof.
  apply (closed_statement_still_registered "st" "S"%char "select 2" [] "select 1" [] a_lease _
    prepared_session); try reflexivity; discriminate.
Defined.

(** A client that pipelines a batch behind a query: the end of the query gives
    the connection back, with the batch open and its responses unread. *)
Definition pipelining_session : Session :=
  (pump (client_events [FQuery "select 1"; FParse None "select 2" []; FExecute []] ++ [EvUpstream; EvUpstream])
    (attached_session a_lease)).2.

Example pipelined_batch_parked :
  lease pipelining_session = None ∧
  (λ p, (λ k, (inbox (pk_conn k), unsynced (pk_conn k))) <$> idle p) <$>
    (s_pools pipelining_session !! a_key) =
    Some [([Ok BParseComplete; Ok (BCommandComplete "SELECT 0")], true)].
Proof. vm_compute. by split. Qed.

(** A detached session in a pool with room parses a named statement, and the
    server reports itself idle. *)
Definition detached_session : Session :=
  pump_init reading_client an_env {[ a_key := a_pool ]} None None false.
Definition parse_events : list Event :=
  client_events [FParse (Some "st") "select 1" []; FSync].
Definition parsed_session : Session := (pump parse_events detached_session).2.

#[local] Opaque pump detach_if_idle.

Lemma parsed_run : pump parse_events detached_session = (Ready None, parsed_session).
Proof. unfold parsed_session. apply run_result. vm_compute. reflexivity. Defined.

Lemma parsed_detaches :
  detach_if_idle Idle (lease_dirty parsed_session) cx_transaction_mode parsed_session =
  (Ready true, (detach_if_idle Idle (lease_dirty parsed_session) cx_transaction_mode parsed_session).2).
Proof. apply run_result. vm_compute. reflexivity. Defined.

Lemma statements_do_not_leak_witness :
  ∃ l p p', lease parsed_session = Some l ∧ s_pools parsed_session !! lease_pool l = Some p ∧
    s_pools (detach_if_idle Idle (lease_dirty parsed_session) cx_transaction_mode parsed_session).2
      !! lease_pool l = Some p' ∧
    (idle p' = idle p ∨ ∃ c now,
       conn_simple_query "DISCARD ALL" (conn l) = (Ready (Ok ()), c) ∧
       idle p' = idle p ++ [MkParked c now (lease_created_at l)]).
Proof.
  assert (lease_pool <$> lease parsed_session = Some a_key) as Hk by (vm_compute; reflexivity).
  assert (bool_decide (is_Some (s_pools parsed_session !! a_key)) = true) as Hb by (vm_compute; reflexivity).
  destruct (lease parsed_session) as [l|] eqn:Hl; [|discriminate Hk]. injection Hk as Hk.
  apply bool_decide_eq_true in Hb as [p Hp]. rewrite <-Hk in Hp.
  destruct (statements_do_not_leak (L := ref_laws) parse_events reading_client an_env
    {[ a_key := a_pool ]} None None false parsed_session l p Idle
    (detach_if_idle Idle (lease_dirty parsed_session) cx_transaction_mode parsed_session).2 parsed_run) as (p' & Hp' & Hidle).
  - intros Hr. apply (f_equal (lookup "st")) in Hr. vm_compute in Hr. discriminate Hr.
  - exact Hl.
  - exact Hp.
  - exact parsed_detaches.
  - exists l, p, p'. exact (conj eq_refl (conj Hp (conj Hp' Hidle))).
Defined.
#[local] Transparent pump detach_if_idle.
(** A detached session with a statement and an override. *)
Definition stateful_session : Session :=
  detached_session <| registry := {[ "st" := ("select 1", []) ]} |>
                   <| guc_overrides := {[ "search_path" := "x" ]} |>.

Lemma attach_carries_state_witness :
  ∃ c0, checked_out stateful_session c0 ∧ attached_with c0 stateful_session (ensure_attached None stateful_session).2.
Proof.
  apply (attach_carries_state None); [reflexivity|]. apply run_result. vm_compute. reflexivity.
Defined.
End Plain.

(** ** Sessions with an interceptor *)

(** Decides [a] about every cycle, and keeps the rows of one field. *)
Definition deciding (a : Action) : Interceptor := {|
  IState := unit;
  new_session_ctx := λ s, s;
  wants_rows := true;
  adjust_command_counts := true;
  on_query := λ c, mret (a, c);
  on_frontend := λ m, mret (Forward, m);
  on_backend := λ m, mret (Forward, m);
  on_row := λ _ r, mret (if bool_decide (field_count (row r) = 1) then Keep else Drop, r);
  on_cycle_end := λ _, mret ();
  upstream_hook := λ info, mret (default_endpoint info);
  on_upstream_error := λ _, mret Relink;
  on_upstream_connected := λ _, mret ()
|}.

Definition no_privilege : ErrorInfo := MkErrorInfo "ERROR" "42501" "insufficient privilege".

Section Denying.
#[local] Instance denying : Interceptor := deciding (Deny no_privilege).

Lemma denying_complete : HooksComplete.
Proof. intros rep st. by eexists. Defined.

Definition hooked : SessionHooks := SessionHooks_new (() : @IState _ denying) 0.
Definition denying_session : Session :=
  pump_init reading_client an_env {[ a_key := a_pool ]} None (Some hooked) false.
Definition a_parse : PgWireFrontendMessage := FParse None "drop table t" [].
Definition pipelined : list PgWireFrontendMessage := [FBind None []; FExecute []].

Lemma deny_answers_locally_witness :
  ∃ s', pump (client_events (a_parse :: rest_of_cycle (MkCycleInput "drop table t" (Extended None)) pipelined))
          denying_session = (Ready None, s') ∧
    answers [error_response no_privilege; BReadyForQuery (lease_status denying_session)] denying_session s' ∧
    swallow_until_sync s' = false.
Proof.
  apply (deny_answers_locally (L := ref_laws) (HC := denying_complete)).
  - split; [reflexivity|]. exists hooked. eexists _, _. split; reflexivity.
  - reflexivity.
  - reflexivity.
  - repeat constructor; discriminate.
Defined.
End Denying.

(** Denies one statement and forwards the others. *)
Section DenyingOne.
#[local] Instance denying_one : Interceptor := {|
  IState := unit;
  new_session_ctx := λ s, s;
  wants_rows := false;
  adjust_command_counts := false;
  on_query := λ c, mret (if decide (sql c = "drop table t") then Deny no_privilege else Forward, c);
  on_frontend := λ m, mret (Forward, m);
  on_backend := λ m, mret (Forward, m);
  on_row := λ _ r, mret (Keep, r);
  on_cycle_end := λ _, mret ();
  upstream_hook := λ info, mret (default_endpoint info);
  on_upstream_error := λ _, mret Relink;
  on_upstream_connected := λ _, mret ()
|}.

Definition one_batch : list PgWireFrontendMessage :=
  [FParse None "insert into t values (1)" []; FBind None []; FExecute []; FParse None "drop table t" []; FSync].
Definition batching_session : Session :=
  (pump (client_events one_batch)
    (pump_init reading_client an_env {[ a_key := a_pool ]} (Some a_lease)
       (Some (SessionHooks_new (() : @IState _ denying_one) 0)) true)).2.

(** A statement denied in the middle of a batch takes the batch's [Sync] with
    it: the client is told that the batch is over, while the statements before
    it were forwarded and wait on the server for a [Sync] that never comes. *)
Example denied_batch_left_open :
  ds_sent (downstream batching_session) = [error_response no_privilege; BReadyForQuery Idle] ∧
  (sent ∘ conn <$> lease batching_session) = Some (take 3 one_batch) ∧
  (unsynced ∘ conn <$> lease batching_session) = Some true.
Proof. vm_compute. by split_and!. Qed.
End DenyingOne.

Section Replying.
#[local] Instance replying : Interceptor := deciding (Reply [BCommandComplete "SELECT 0"]).

Lemma replying_complete : HooksComplete.
Proof. intros rep st. by eexists. Defined.

Definition hooked_reply : SessionHooks := SessionHooks_new (() : @IState _ replying) 0.
Definition replying_session : Session :=
  pump_init reading_client an_env {[ a_key := a_pool ]} None (Some hooked_reply) false.

Lemma reply_answers_locally_witness :
  ∃ s', pump (client_events (a_parse :: rest_of_cycle (MkCycleInput "drop table t" (Extended None)) pipelined))
          replying_session = (Ready None, s') ∧
    answers [BCommandComplete "SELECT 0"; BReadyForQuery (lease_status replying_session);
             BReadyForQuery (lease_status replying_session)] replying_session s' ∧
    swallow_until_sync s' = false.
Proof.
  apply (reply_answers_locally (L := ref_laws) (HC := replying_complete) a_parse pipelined replying_session
    (MkCycleInput "drop table t" (Extended None)) [BCommandComplete "SELECT 0"]).
  - split; [reflexivity|]. exists hooked_reply. eexists _, _. split; reflexivity.
  - reflexivity.
  - reflexivity.
  - repeat constructor; discriminate.
Defined.

(** Three rows, one of which the hook drops (it has no field). *)
Definition some_rows : list DataRow := [row_ab; MkDataRow [] 0; row_ab].

Lemma tag_counts_kept_rows_witness :
  ∃ s'', observe (BCommandComplete (tag_of "SELECT" 3)) (observe_rows some_rows replying_session).2 =
    (Ready (Some (BCommandComplete (tag_of "SELECT" 2))), s'').
Proof.
  apply (tag_counts_kept_rows "SELECT" some_rows replying_session [row_ab; row_ab]).
  - exists hooked_reply. repeat split.
  - reflexivity.
  - apply run_result. vm_compute. reflexivity.
Defined.
End Replying.

(** ** Scatter *)

Section Scattering.
#[local] Instance noop_scatter : Interceptor := NoopInterceptor.

Definition count_request : ScatterRequest :=
  MkScatterRequest [MkScatterLeg "a" "select 1"] Sum "SELECT".
Definition idle_session : Session :=
  pump_init reading_client an_env {[ a_key := a_pool ]} None None false.

Lemma scatter_all_or_nothing_witness :
  ∃ out, ds_sent (downstream (execute_scatter count_request idle_session).2) =
           ds_sent (downstream idle_session) ++ out ∧ one_result "SELECT" 1 out.
Proof.
  apply (scatter_all_or_nothing count_request idle_session (Ok 1%Z)).
  - reflexivity.
  - apply run_result. vm_compute. reflexivity.
Defined.

(** Two connections parked for the shards, which will count 5 and -7. *)
Definition shard_schema : PgWireBackendMessage := BRowDescription [MkFieldDescription "count" 0 0 20 8 (-1) 0].
Definition shard_conn (z : Z) : @PgWireClient ref_platform :=
  MkRefConn (Ok <$> [shard_schema; BDataRow (sum_row z); BCommandComplete "SELECT 1"; BReadyForQuery Idle])
    Idle ∅ ∅ [] [] false 1 Idle.
Definition sharded_pool : PoolInner :=
  a_pool <| idle := [MkParked (shard_conn (-7)) 90 80; MkParked (shard_conn 5) 90 80] |>.
Definition sharded_session : Session :=
  pump_init reading_client an_env {[ a_key := sharded_pool ]} None None false.
Definition sum_request : ScatterRequest :=
  MkScatterRequest [MkScatterLeg "a" "select 1"; MkScatterLeg "a" "select 2"] Sum "SELECT".

Definition sharded_resolved : Session := (resolve_all (legs sum_request) ∅ sharded_session).2.
Definition sharded_run : poll (option ErrorInfo * list LegOutcome) * Session :=
  collect_legs (polls (legs sum_request) sharded_resolved) (enlist {[ "a" := a_key ]} <$> legs sum_request)
    [] sharded_resolved.
Definition shard_outcomes : list LegOutcome :=
  match sharded_run.1 with Ready (_, os) => os | Pending => [] end.

Lemma shards_ran : legs_ran sum_request sharded_session None shard_outcomes sharded_run.2.
Proof.
  split; [repeat constructor|].
  exists {[ "a" := a_key ]}, sharded_resolved, None, (legs sum_request), sharded_run.2.
  split; [apply run_result; vm_compute; reflexivity|]. split; [vm_compute; reflexivity|].
  split; [apply run_result; vm_compute; reflexivity|]. split; reflexivity.
Defined.

Lemma scatter_sum_exact_witness :
  ∃ s' row, execute_scatter sum_request sharded_session = (Ready (Ok 1%Z), s') ∧
    ds_sent (downstream s') = ds_sent (downstream sharded_session) ++ [shard_schema] ++
      [BDataRow row; BCommandComplete ("SELECT" +:+ " 1")] ∧
    field_count row = 1 ∧ first_column_i128 row = Value (zsum [5; -7]%Z).
Proof.
  apply (scatter_sum_exact sum_request sharded_session None shard_outcomes sharded_run.2 [5; -7]%Z).
  - reflexivity.
  - reflexivity.
  - exact shards_ran.
  - intros o l Ho Hl. exists (default a_pool (s_pools sharded_run.2 !! a_key)).
    assert (Forall (λ o, from_option lease_pool a_key (o_lease o) = a_key) shard_outcomes) as Hall
      by (vm_compute; repeat constructor).
    apply Forall_forall with (x := o) in Hall; [|exact Ho]. rewrite Hl in Hall. simpl in Hall. rewrite Hall.
    vm_compute. reflexivity.
  - vm_compute. reflexivity.
  - vm_compute. repeat split; discriminate.
Defined.

(** A leg of its own: connected, queried, answered. *)
Definition a_leg : ScatterLeg := MkScatterLeg "a" "select 1".
Definition leg_conn : @PgWireClient ref_platform :=
  MkRefConn [] Idle ∅ ∅ [FQuery "select 1"] [] false 1 Idle.
Definition leg_result : LegOutcome := MkLegOutcome "a" [BCommandComplete "SELECT 0"] 0 None
  (Some (MkUpstreamLease leg_conn 100 a_key)) false false.

Lemma leg_polled_alone_witness :
  poll_alone (2 * length (idle a_pool) + 6) a_leg a_key LegStart idle_session =
    Some (leg_result, (run_leg_pooled a_leg a_key idle_session).2) ∧
  leg_accounts a_leg a_key leg_result idle_session (run_leg_pooled a_leg a_key idle_session).2.
Proof.
  destruct (leg_polled_alone a_leg a_key idle_session a_pool) as (_ & H & H'); [reflexivity|reflexivity|].
  assert (poll_alone (2 * length (idle a_pool) + 6) a_leg a_key LegStart idle_session =
    Some (leg_result, (run_leg_pooled a_leg a_key idle_session).2)) as Hp
    by (apply H, run_result; vm_compute; reflexivity).
  exact (conj Hp (proj1 (H' _ _ _ Hp))).
Defined.

(** Two legs on one endpoint, whose pool has one permit left. *)
Definition twice : ScatterRequest :=
  MkScatterRequest [MkScatterLeg "a" "select 1"; MkScatterLeg "a" "select 2"] Concat "SELECT".
Definition small_pool : PoolInner := a_pool <| permits := 1 |>.
Definition crowded_session : Session :=
  pump_init reading_client an_env {[ a_key := small_pool ]} None None false.

Lemma scatter_needs_permits_witness :
  execute_scatter twice crowded_session ≠ (Ready (Ok 2%Z), crowded_session).
Proof.
  apply (scatter_needs_permits twice "a" small_pool crowded_session 2%Z crowded_session); try reflexivity.
  vm_compute. lia.
Defined.
End Scattering.

(** ** Failover *)

Section FailingOver.
#[local] Existing Instance router.
#[local] Instance two_routes : SessionCtx :=
  MkSessionCtx (MkRouteConfig "r" [ep_down; ep_a] None no_tls) small_config "u" None ∅ true.

(** A clock that stands still. *)
Definition still_env : @Env ref_platform := MkRefEnv 100 0 [].
Definition factory_of (ep : EndpointConfig) : @ConnectFactory ref_platform := ref_connect (upstream ep).
Definition key_of (ep : EndpointConfig) : PoolKey := MkPoolKey "r" (id ep) "u" None.

(** The pool and the factory of an endpoint, if resolved: room left, nothing
    parked, and the endpoint's own connect. *)
Definition unused (ep : EndpointConfig) (s : Session) : Prop :=
  (∀ p, s_pools s !! key_of ep = Some p →
     0 < permits p ∧ idle p = [] ∧ p_connect p = factory_of ep) ∧
  (∀ f, factories s !! id ep = Some f → f = factory_of ep).

Definition at_rest (s : Session) : Prop :=
  s_env s = still_env ∧ guc_overrides s = ∅ ∧ registry s = ∅ ∧ unused ep_down s ∧ unused ep_a s.

(** [checkout] of a pool with nothing parked. *)
Lemma checkout_connects p n :
  permits p = S n → idle p = [] →
  ∃ p', permits p' = permits p ∧ idle p' = [] ∧ p_connect p' = p_connect p ∧
    ∀ e, p_connect p still_env = (Ready (Err e), still_env) →
      checkout (MkPoolWorld p still_env) = (Ready (Err e), MkPoolWorld p' still_env).
Proof.
  intros Hn Hi. destruct p as [k c pm idl b f m]. simpl in *. subst.
  eexists. split; [|split; [|split; [|intros e He]]].
  4: { unfold checkout, enter_pool, admitted_checkout, in_env, zoom, mbind, async_bind. simpl.
       unfold gets. simpl. rewrite He. reflexivity. }
  all: reflexivity.
Qed.

(** The two endpoints of the route. *)
Definition of_route (ep : EndpointConfig) : Prop := ep = ep_down ∨ ep = ep_a.

Lemma resolved ep s :
  unused ep s → of_route ep →
  ∃ p, resolve_pool ep s =
      (Ready (key_of ep), s <| factories ::= <[id ep := factory_of ep]> |>
                            <| s_pools ::= <[key_of ep := p]> |>) ∧
    0 < permits p ∧ idle p = [] ∧ p_connect p = factory_of ep.
Proof.
  intros [Hp Hf] Hep.
  assert (match factories s !! id ep with Some f => f | None => make_factory_for ep cx_route cx_user cx_database end
          = factory_of ep) as Hfac.
  { destruct (factories s !! id ep) eqn:E; [by apply Hf|]. by destruct Hep as [-> | ->]. }
  exists (get_or_create (key_of ep) cx_pool_config (factory_of ep) (s_pools s)).1.
  unfold resolve_pool. rewrite Hfac. unfold get_or_create.
  change (MkPoolKey (name cx_route) (id ep) cx_user cx_database) with (key_of ep).
  destruct (s_pools s !! key_of ep) as [p|] eqn:Hk.
  - split; [|by apply Hp].
    assert (<[key_of ep := p]> (s_pools s) = s_pools s) as Hid by (by apply insert_id).
    cbn [set_field s_pools fst snd]. by rewrite Hid.
  - split; [done|]. split; [vm_compute; lia|done].
Qed.

Lemma unused_update ep ep' f p s :
  unused ep s → of_route ep → of_route ep' → 0 < permits p → idle p = [] →
  p_connect p = factory_of ep' → f = factory_of ep' →
  unused ep (s <| factories ::= <[id ep' := f]> |> <| s_pools ::= <[key_of ep' := p]> |>).
Proof.
  intros [Hp Hf] He He' Hpm Hi Hc ->. split; simpl.
  - intros q. rewrite lookup_insert. case_decide as Hk; [|apply Hp].
    intros [= <-]. destruct He as [-> | ->], He' as [-> | ->]; try discriminate Hk; done.
  - intros g. rewrite lookup_insert. case_decide as Hk; [|apply Hf].
    intros [= <-]. destruct He as [-> | ->], He' as [-> | ->]; try discriminate Hk; done.
Qed.

Lemma down_refuses : refuses at_rest ep_down.
Proof.
  intros s (He & Hg & Hr & Hd & Ha).
  destruct (resolved ep_down s Hd (or_introl eq_refl)) as (p & Hres & Hpm & Hi & Hc).
  destruct (permits p) as [|n] eqn:Hn; [lia|].
  destruct (checkout_connects p n Hn Hi) as (p' & Hpm' & Hi' & Hc' & Hout).
  set (s1 := s <| factories ::= <[id ep_down := factory_of ep_down]> |>
              <| s_pools ::= <[key_of ep_down := p]> |>) in *.
  change (resolve_pool ep_down s = (Ready (key_of ep_down), s1)) in Hres.
  exists "connection refused". eexists.
  exists (s1 <| s_pools ::= <[key_of ep_down := p']> |> <| s_env := still_env |>).
  split; [|split; [|done]].
  - unfold attach_to. rewrite (bind_ready _ _ _ _ _ Hres).
    erewrite (bind_ready _ _ _ (Err "connection refused")); [reflexivity|].
    assert (s_pools s1 !! key_of ep_down = Some p) as Hl1 by apply lookup_insert_eq.
    assert (s_env s1 = still_env) as He1 by exact He.
    unfold with_pool. rewrite Hl1, He1. rewrite (Hout "connection refused") by by rewrite Hc.
    reflexivity.
  - split; [done|]. split; [done|]. split; [done|].
    assert (∀ ep, of_route ep → unused ep s →
      unused ep (s <| factories ::= <[id ep_down := factory_of ep_down]> |>
                   <| s_pools ::= <[key_of ep_down := p']> |>)) as Hu.
    { intros ep Hep Hun. apply unused_update; try done; [by left|lia|congruence]. }
    split.
    + destruct (Hu ep_down) as [H1 H2]; [by left|done|]. split; [|exact H2].
      intros q. simpl. rewrite insert_insert_eq. apply H1.
    + destruct (Hu ep_a) as [H1 H2]; [by right|done|]. split; [|exact H2].
      intros q. simpl. rewrite insert_insert_eq. apply H1.
Qed.
(** [checkout] of a pool with nothing parked whose connect succeeds. *)
Lemma checkout_opens p n :
  permits p = S n → idle p = [] → p_connect p = factory_of ep_a →
  ∃ k p', checkout (MkPoolWorld p still_env) =
    (Ready (Ok (MkUpstreamLease fresh_conn 100 k)), MkPoolWorld p' still_env).
Proof.
  intros Hn Hi Hc. destruct p as [k c pm idl b f m]. simpl in *. subst.
  eexists _, _. unfold checkout, enter_pool, admitted_checkout, in_env, zoom, mbind, async_bind. simpl.
  reflexivity.
Qed.

Lemma prepares k s :
  guc_overrides s = ∅ → registry s = ∅ →
  ∃ s', prepare_lease ep_a (MkUpstreamLease fresh_conn 100 k) s = (Ready (Some true), s').
Proof.
  intros Hg Hr. unfold prepare_lease.
  rewrite (bind_ready _ _ _ (Ok (), fresh_conn) s) by reflexivity.
  rewrite (bind_ready _ _ _ ∅ s) by (unfold gets; by rewrite Hg).
  rewrite (bind_ready _ _ _ (None, false, fresh_conn) s) by reflexivity.
  rewrite (bind_ready _ _ _ () (s <| lease_dirty ::= orb false |>)) by reflexivity.
  set (s1 := s <| lease_dirty ::= orb false |>).
  rewrite (bind_ready _ _ _ ∅ s1) by (unfold gets; simpl; by rewrite Hr).
  rewrite (bind_ready _ _ _ (Ok (), fresh_conn) s1) by reflexivity.
  erewrite (bind_ready _ _ _ ()); [|reflexivity].
  set (s2 := s1 <| lease_dirty ::= _ |>).
  assert (∃ s3, dispatch_on_upstream_connected (id ep_a) s2 = (Ready (), s3)) as [s3 H3].
  { unfold dispatch_on_upstream_connected, hook, mbind, async_bind, gets. simpl.
    destruct (hooks s) eqn:Hh; [|by eexists]. simpl. rewrite Hh. by eexists. }
  rewrite (bind_ready _ _ _ _ _ H3). by eexists.
Qed.

Lemma a_accepts : accepts at_rest ep_a.
Proof.
  intros s (He & Hg & Hr & Hd & Ha).
  destruct (resolved ep_a s Ha (or_intror eq_refl)) as (p & Hres & Hpm & Hi & Hc).
  destruct (permits p) as [|n] eqn:Hn; [lia|].
  destruct (checkout_opens p n Hn Hi Hc) as (k & p' & Hout).
  set (s1 := s <| factories ::= <[id ep_a := factory_of ep_a]> |>
              <| s_pools ::= <[key_of ep_a := p]> |>) in *.
  change (resolve_pool ep_a s = (Ready (key_of ep_a), s1)) in Hres.
  assert (s_pools s1 !! key_of ep_a = Some p) as Hl1 by apply lookup_insert_eq.
  assert (s_env s1 = still_env) as He1 by exact He.
  set (s2 := s1 <| s_pools ::= <[key_of ep_a := p']> |> <| s_env := still_env |>).
  destruct (prepares k s2 Hg Hr) as (s' & Hs'). exists s'.
  unfold attach_to. rewrite (bind_ready _ _ _ _ _ Hres).
  rewrite (bind_ready _ _ _ (Ok (MkUpstreamLease (fresh_conn : @PgWireClient ref_platform) 100 k)) s2);
    [exact Hs'|].
  unfold with_pool. rewrite Hl1, He1, Hout. reflexivity.
Qed.

Definition failover_hooks : SessionHooks :=
  SessionHooks_new (from_endpoints [ep_down; ep_a] : @IState _ router) 0.
Definition failing_session : Session :=
  pump_init reading_client still_env ∅ None (Some failover_hooks) false.

Lemma failover_attaches_witness :
  ∃ s', ensure_attached (Some "select 1") failing_session = (Ready true, s').
Proof.
  apply (failover_attaches at_rest 100 DEFAULT_REVIVE_AFTER) with (l1 := [ep_down]) (l2 := [])
    (target := ep_a) (g := from_endpoints [ep_down; ep_a]).
  - intros s h H. exact H.
  - intros s H. exists 100%Z, still_env. destruct H as (He & H). rewrite He.
    split; [reflexivity|]. split; [vm_compute; split; [discriminate|reflexivity]|]. split; [reflexivity|exact H].
  - reflexivity.
  - apply (bool_decide_unpack _). vm_compute. exact Logic.I.
  - constructor; [exact down_refuses|constructor].
  - exact a_accepts.
  - reflexivity.
  - split; [reflexivity|]. split; [reflexivity|]. split; [reflexivity|].
    split; split; intros ? Hx; discriminate Hx.
  - split; [by exists failover_hooks|]. split; [apply group_new_inv|]. split; [|reflexivity].
    intros i since Hi. apply group_new_lookup in Hi as [?|?]; discriminate.
  - vm_compute. discriminate.
  - vm_compute. reflexivity.
Defined.
End FailingOver.

(** ** Shared pools *)

Section Sharing.
#[local] Instance noop_site : Interceptor := NoopInterceptor.

Definition site_pools_0 : gmap PoolKey PoolInner := {[ a_key := a_pool ]}.
Definition newcomer_a : Session := newcomer reading_client (an_env : @Env ref_platform) None.
(** The client sends a query, which attaches the session, and leaves without
    its response. *)
Definition asking : poll Flow * Session :=
  on_event (EvClient (Some (Ok (FQuery "select 1")))) (seeing site_pools_0 newcomer_a).
Definition leaving : poll Flow * Session := on_event (EvClient None) (seeing (s_pools asking.2) asking.2).
Definition left_behind : poll unit * Session := session_end ClientGone leaving.2.
Definition site_after : Site := MkSite (s_pools left_behind.2) [].

Lemma site_run : rtc (site_step patient) (MkSite site_pools_0 []) site_after.
Proof.
  eapply rtc_l; [by apply (site_start patient _ [] one_route reading_client (an_env : @Env ref_platform) None)|].
  eapply rtc_l; [eapply (site_event patient _ _ 0 one_route newcomer_a (EvClient (Some (Ok (FQuery "select 1")))));
    [reflexivity|by intros l|apply run_result; vm_compute; reflexivity]|].
  eapply rtc_l; [eapply (site_end patient _ _ 0 one_route asking.2 (EvClient None) ClientGone leaving.2);
    [reflexivity|exact Logic.I|apply run_result; vm_compute; reflexivity| |apply run_result; vm_compute; reflexivity]|].
  - intros l Hl c1 c2 Hb Hd.
    assert (match lease leaving.2 with
            | Some l => (drain_until_ready (settle_begin (bool_decide (copy (hygiene leaving.2) = ClientOwesCopy))
                          (awaiting_response (hygiene leaving.2)) (conn l)).2).1
            | None => Pending
            end = Ready (Ok ())) as Hr by (vm_compute; reflexivity).
    rewrite Hl, Hb in Hr. cbn [snd] in Hr. rewrite Hd in Hr. discriminate Hr.
  - apply rtc_refl.
Defined.

Lemma responses_do_not_leak_witness :
  (∀ k p parked, site_pools site_after !! k = Some p → parked ∈ idle p → neutral (pk_conn parked)) ∧
  (∀ i x s l, site_sessions site_after !! i = Some (x, s) → lease s = Some l →
     owed (conn l) ≤ noted s ∧ (unsynced (conn l) = true → owed (conn l) = 0)) ∧
  (∀ k p e l w, site_pools site_after !! k = Some p →
     checkout (MkPoolWorld p e) = (Ready (Ok l), w) → neutral (conn l)).
Proof.
  apply (responses_do_not_leak site_pools_0 site_after); [|apply site_run].
  apply map_Forall_singleton. split; [constructor|].
  intros e c e'. apply (flow_connect (FlowLaws := ref_flow) "up" None).
Defined.

(** Two users' pools, of the factories of their keys. *)
Definition v_key : PoolKey := MkPoolKey "r" "a" "v" None.
Definition two_users : gmap PoolKey PoolInner :=
  {[ a_key := a_pool; v_key := Pool_new v_key small_config a_factory ]}.

Lemma two_users_own : map_Forall (pool_own (cx_route (SessionCtx := one_route))) two_users.
Proof.
  assert (∀ u, pool_own (cx_route (SessionCtx := one_route)) (MkPoolKey "r" "a" u None)
    (Pool_new (MkPoolKey "r" "a" u None) small_config a_factory)) as Hown.
  { intros u. exists a_factory. split; [|split_and!; [done|done|constructor]].
    split; [done|]. exists ep_a. by split. }
  apply map_Forall_insert_2; [apply (Hown "u")|]. apply map_Forall_singleton, (Hown "v").
Defined.

#[local] Existing Instance execute_scatter_impl.
Definition user_session : Session :=
  pump_init (X := one_route) reading_client an_env two_users None None false.
Definition user_events : list Event := [EvClient (Some (Ok (FQuery "select 1"))); EvUpstream].

Lemma user_run : ∃ s', pump (X := one_route) user_events user_session = (Ready None, s').
Proof. eexists. apply run_result. vm_compute. reflexivity. Defined.

Lemma session_stays_typed_witness :
  ∃ s', pump (X := one_route) user_events user_session = (Ready None, s') ∧
    well_typed (X := one_route) s' ∧ s_pools s' !! v_key = s_pools user_session !! v_key.
Proof.
  destruct user_run as [s' Hs']. exists s'. split; [exact Hs'|].
  destruct (session_stays_typed (X := one_route) user_events user_session _ _
    ltac:(split; [exact two_users_own|done|done|done|done|done|done]) Hs') as (Hty & Ho & _).
  split; [exact Hty|]. apply Ho. intros (_ & Hu & _). discriminate Hu.
Defined.

Definition attached_site : Site := MkSite (s_pools asking.2) [(one_route, asking.2)].

Lemma identity_run :
  rtc (site_step (on_route (cx_route (SessionCtx := one_route)))) (MkSite site_pools_0 []) attached_site.
Proof.
  eapply rtc_l; [by apply (site_start _ _ [] one_route reading_client (an_env : @Env ref_platform) None)|].
  eapply rtc_l; [eapply (site_event _ _ _ 0 one_route newcomer_a (EvClient (Some (Ok (FQuery "select 1")))));
    [reflexivity|done|apply run_result; vm_compute; reflexivity]|].
  apply rtc_refl.
Defined.

Lemma connections_keep_identity_witness :
  ∃ s l, site_sessions attached_site !! 0 = Some (one_route, s) ∧ lease s = Some l ∧
    opened (make_factory_for ep_a (cx_route (SessionCtx := one_route)) "u" None) (conn l).
Proof.
  destruct (connections_keep_identity (cx_route (SessionCtx := one_route)) site_pools_0 attached_site) as [Hs _].
  - apply map_Forall_singleton. exists a_factory. split; [|split_and!; [done|done|constructor]].
    split; [done|]. exists ep_a. by split.
  - apply identity_run.
  - assert (is_Some (lease asking.2)) as [l Hl]
      by (apply (bool_decide_unpack _); vm_compute; exact Logic.I).
    exists asking.2, l. split; [reflexivity|]. split; [exact Hl|].
    destruct (Hs 0 one_route asking.2 l eq_refl Hl) as (ep & He & Hk & Ho).
    assert (ep = ep_a) as Hep; [|by rewrite Hep in Ho]. apply endpoint_Some in He as [Hin _].
    apply list_elem_of_singleton in Hin. exact Hin.
Defined.
End Sharing.

(** ** Registries *)

Definition info_1 : SessionInfo := MkSessionInfo 1 "addr" "u" "db" false 0 0.
Definition info_2 : SessionInfo := MkSessionInfo 2 "addr" "u" "db" false 0 0.
Definition one_session : RuntimeState := MkRuntimeState [info_1] 1.

Lemma one_session_distinct : distinct_pids one_session ∧ si_pid info_2 ∉ (si_pid <$> rt_sessions one_session).
Proof.
  split; [apply NoDup_singleton|]. intros H. apply list_elem_of_singleton in H. discriminate H.
Defined.

Lemma guard_removes_its_session_witness :
  rt_sessions (rt_unregister (rt_register info_2 one_session).1 (rt_register info_2 one_session).2) = [info_1].
Proof.
  apply (guard_removes_its_session info_2 one_session); apply one_session_distinct.
Defined.

Lemma guard_removes_twins_witness :
  rt_sessions (rt_unregister 2 (rt_register info_2 (rt_register info_2 one_session).2).2) = [info_1].
Proof. apply (guard_removes_twins info_2 info_2 one_session); [reflexivity|apply one_session_distinct]. Defined.

(** ** Session start *)

Section Starting.
#[local] Instance noop_startup : Interceptor := NoopInterceptor.

#[local] Instance no_tables : UnicodeTables := λ s, s.

(** Text fields, each under its length. *)
Definition frame_row (vs : list string) : DataRow :=
  MkDataRow (concat ((λ v, put_i32 (Z.of_nat (String.length v)) ++ String.list_ascii_of_string v) <$> vs))
    (length vs).

Definition quiet_shared : Shared := MkShared (MkRouteConfig "r" [ep_a] None no_tls) small_config
  (Some "console") None (λ _ _, [BReadyForQuery Idle]) (λ _, Ok ()) frame_row (λ _, "message").
Definition a_front : Front :=
  MkFront (pump_init reading_client an_env ∅ None None false) CancelRouter_new one_session [false] None.
Definition a_startup : Startup := MkStartup 3 0 {[ "user" := "u" ]}.
Definition a_socket (st : Startup) : Socket :=
  MkSocket (Ok ()) (Ok (Some reading_client)) (Some (Ok (FStartup st))).
Definition a_cancel_key : Z * string := (7%Z, "secret").

Lemma session_unregisters_witness :
  rt_sessions (f_runtime (run_session quiet_shared (a_socket a_startup) "addr" a_cancel_key
    [EvClient None] a_front).2) = [info_1] ∧
  cr_sessions (f_router (run_session quiet_shared (a_socket a_startup) "addr" a_cancel_key
    [EvClient None] a_front).2) = ∅.
Proof.
  apply (session_unregisters quiet_shared (a_socket a_startup) "addr" a_cancel_key
    [EvClient None] a_front (Ok ())).
  - reflexivity.
  - intros H. apply list_elem_of_singleton in H. discriminate H.
  - apply run_result. vm_compute. reflexivity.
Defined.

Lemma startup_refused_witness :
  ∃ f', run_session quiet_shared (a_socket (MkStartup 3 2 ∅)) "addr" a_cancel_key [] a_front =
      (Ready (Ok ()), f') ∧
    only_sent (negotiation (MkStartup 3 2 ∅) ++
      [fatal "28000" "pgferry: no user specified in startup packet"]) a_front f'.
Proof.
  apply (startup_refused (L := ref_laws) quiet_shared "addr" a_cancel_key (MkStartup 3 2 ∅) _ [] a_front
    reading_client); reflexivity.
Defined.

(** A command, a statement of the extended protocol and a [Sync]. *)
Definition console_messages : list PgWireFrontendMessage :=
  [FQuery " SHOW Clients ; "; FParse None "show pools" []; FSync].

Lemma admin_console_answers_witness :
  ∃ outs f', run_admin_session quiet_shared a_cancel_key
      (client_events (console_messages ++ [FTerminate])) a_front = (Ready (Ok ()), f') ∧
    Forall2 (admin_answer quiet_shared (pools_listed a_front) (sessions_listed a_front)) console_messages outs ∧
    ds_sent (downstream (f_session f')) =
      ds_sent (downstream (f_session a_front)) ++ handshake quiet_shared admin_parameters a_cancel_key ++ concat outs ∧
    s_pools (f_session f') = s_pools (f_session a_front) ∧
    lease (f_session f') = lease (f_session a_front) ∧
    f_runtime f' = f_runtime a_front ∧ cr_sessions (f_router f') = cr_sessions (f_router a_front).
Proof.
  apply (admin_console_answers (L := ref_laws)); [reflexivity| |reflexivity].
  repeat constructor; discriminate.
Defined.

(** A session starts, its client asks something, and a console looks. *)
#[local] Existing Instance execute_scatter_impl.
Definition watched_start : poll (result unit bool) * Front :=
  start_session quiet_shared one_route a_cancel_key (new_flag a_front).2.
Definition watched : poll (option End) * Front :=
  on_session (pump (X := one_route) [EvClient (Some (Ok (FQuery "select 1")))]) watched_start.2.
Definition info_7 : SessionInfo := MkSessionInfo 7 "addr" "u" EmptyString false 1 100.
Definition watching : Front :=
  watched.2 <| f_cell := None |> <| f_runtime := (rt_register info_7 one_session).2 |>.
Definition watched_rows : list (list string) :=
  match (client_rows (rt_sessions (f_runtime watching)) watching).1 with Ready rows => rows | Pending => [] end.

Lemma clients_show_leases_witness :
  ∃ row, watched_rows !! 1 = Some row ∧ state_column row = Some "attached" ∧
    is_Some (lease (f_session watched.2)).
Proof.
  destruct (clients_show_leases (X := one_route) quiet_shared a_cancel_key
    [EvClient (Some (Ok (FQuery "select 1")))] a_front watched_start.2 watched.2 None watching
    (client_rows (rt_sessions (f_runtime watching)) watching).2 watched_rows info_7 1)
    as (row & Hr & Hs & Hl).
  - split; [apply map_Forall_empty|done..].
  - apply run_result. vm_compute. reflexivity.
  - apply run_result. vm_compute. reflexivity.
  - vm_compute. reflexivity.
  - vm_compute. discriminate.
  - vm_compute. reflexivity.
  - reflexivity.
  - apply run_result. vm_compute. reflexivity.
  - exists row. split; [exact Hr|]. assert (attached (f_session watched.2) = true) as Ha by (vm_compute; reflexivity).
    rewrite Ha in Hs. split; [exact Hs|by apply Hl].
Defined.
End Starting.

(** A scatter that fails before it takes the session's connection. *)
Section Scattered.
Definition elsewhere : ScatterRequest :=
  MkScatterRequest [MkScatterLeg "nowhere" "select 1"] Sum "SELECT".
#[local] Instance scattering : Interceptor := deciding (Scatter elsewhere).
#[local] Existing Instance execute_scatter_impl.
Definition scattered : Session :=
  (pump (X := one_route) [EvClient (Some (Ok (FQuery "select 1")))]
    (pump_init (X := one_route) reading_client an_env {[ a_key := a_pool ]} (Some a_lease)
      (Some (SessionHooks_new (() : @IState _ scattering) 0)) true)).2.

(** The converse fails: after a failed scatter the session keeps its
    connection, but its flag is down and its endpoint forgotten. *)
Example scattered_shows_idle :
  attached scattered = false ∧ is_Some (lease scattered) ∧ current_endpoint scattered = None.
Proof. split_and!; [reflexivity|by eexists|reflexivity]. Qed.
End Scattered.

(** ** The proxy *)

#[local] Instance any_sockets : Sockets :=
  {| SocketAddr := string; parse_addr := Some; Service := unit |}.

Definition a_builder : ProxyBuilder :=
  match set_listen "localhost" builder with Ok b => b | Err _ => builder end.
Definition built : ProxyBuilder :=
  add_endpoints [("a", "host=a"); ("b", "host=b")] (set_upstream "host=c" a_builder).

Lemma build_named_endpoints_witness :
  ∃ cfg svc, build built = Ok (cfg, svc) ∧
    endpoints (cfg_route cfg) = named [("a", "host=a"); ("b", "host=b")] ∧ max_client_conn cfg = 128 ∧
    svc = Some (BuiltinFailover (from_endpoints (named [("a", "host=a"); ("b", "host=b")]))).
Proof.
  eexists _, _. split; [reflexivity|].
  apply (build_named_endpoints "host=c" "a" "host=a" [("b", "host=b")]
    a_builder).
  - discriminate.
  - constructor; [discriminate|constructor].
  - reflexivity.
Defined.

Lemma default_named_endpoint_lost_witness :
  endpoints <$> b_route (add_endpoint "b" "host=b" (add_endpoint "default" "host=a" builder)) =
  Some (named [("b", "host=b")]).
Proof. apply (default_named_endpoint_lost "host=a" "b" "host=b" builder). reflexivity. Defined.

(** Two slots, a window of 30, and a metrics endpoint. *)
Definition two_slots : Server := started 2 30 true.
(** A client connects, the owner asks for a graceful shutdown, the loop takes
    the signal. *)
Definition one_client : list ServerEvent := [AcceptLoop SlotAcquired; AcceptLoop Accepted].
Definition asked : list ServerEvent := one_client ++ [CallGraceful].
Definition after (evs : list ServerEvent) : Server := default two_slots (server_run evs two_slots).

Lemma after_run evs : bool_decide (is_Some (server_run evs two_slots)) = true →
  server_run evs two_slots = Some (after evs).
Proof. unfold after. destruct (server_run evs two_slots); [reflexivity|discriminate]. Defined.

Lemma after_reachable evs :
  bool_decide (is_Some (server_run evs two_slots)) = true → reachable_server 2 30 (after evs).
Proof. intros H. exists true. by apply server_run_steps with evs, after_run. Defined.

Lemma accept_cap_witness :
  running (accept (after one_client)) + aborting (accept (after one_client)) ≤ 2 ∧
  running (accept (after asked)) + aborting (accept (after asked)) ≤ 2 ∧
  (phase (accept (after one_client)) ≠ Serving →
   running (accept (after asked)) ≤ running (accept (after one_client)) ∧
   running (accept (after asked)) + aborting (accept (after asked)) ≤
     running (accept (after one_client)) + aborting (accept (after one_client)) ∧
   phase (accept (after asked)) ≠ Serving).
Proof.
  apply (accept_cap 2 30 (after one_client) CallGraceful); [|reflexivity].
  apply after_reachable. reflexivity.
Defined.

Definition stopped : list ServerEvent :=
  asked ++ [AcceptLoop SignalTaken; AcceptLoop SessionEnded; AcceptLoop Joined; AcceptLoop Drained; Supervise; AwaitEnds].

Lemma graceful_stops_everything_witness :
  let s := after stopped in
  slots (accept s) + aborting (accept s) = 2 ∧ (∀ s', rtc server_step s s' → winding_down s s') ∧
  (AcceptLoop DrainTimeout ∉ stopped → aborting (accept s) = 0 ∧ slots (accept s) = 2).
Proof.
  apply (graceful_stops_everything 2 30 true stopped); [|reflexivity]. apply after_run. reflexivity.
Defined.

(** The session does not end: the window runs out and it is aborted. *)
Definition draining : Server := after (asked ++ [AcceptLoop SignalTaken]).
Definition window_passes : list ServerEvent :=
  [AcceptLoop (Elapse 30); AcceptLoop DrainTimeout; Supervise; AwaitEnds; SweeperDropped; MetricsDropped].

Lemma drain_completes_witness :
  (∃ n, ∀ evs s', server_run evs draining = Some s' → length (List.filter (λ ev, negb (scrape ev)) evs) ≤ n) ∧
  (∀ evs s', server_run evs draining = Some s' → idle_proxy s' →
    phase (accept s') = Done ∧ running (accept s') = 0 ∧ owner s' ≠ Awaited ∧
    (supervisor s' = Finished ∧ sweeper s' = Aborted ∧ alive (metrics_task s') = false ∨
     supervisor s' = Aborted)) ∧
  elapsed window_passes = 30%Z ∧ is_Some (server_run window_passes draining).
Proof.
  destruct (drain_completes 2 30 (after asked) draining) as (H1 & H2 & H3);
    [discriminate|apply after_reachable; reflexivity|reflexivity|].
  split; [exact H1|]. split; [exact H2|]. split; [|eexists; vm_compute; reflexivity].
  eapply (H3 window_passes); [vm_compute; reflexivity|]. right. left.
Defined.

Definition shut : list ServerEvent :=
  [SupervisorDropped; AcceptLoop SignalTaken; AcceptLoop (Elapse 30); AcceptLoop DrainTimeout].

Lemma shutdown_leaves_tasks_witness :
  let s' := after (one_client ++ [CallShutdown]) in
  let s'' := after (one_client ++ [CallShutdown] ++ shut) in
  accept s' = accept (after one_client) ∧
  sweeper s'' = Running ∧ metrics_task s'' ≠ Aborting ∧ metrics_task s'' ≠ Aborted.
Proof.
  destruct (shutdown_leaves_tasks 2 30 (after one_client) (after (one_client ++ [CallShutdown]))
    (after (one_client ++ [CallShutdown] ++ shut))) as [H1 H2]; [apply after_reachable; reflexivity|reflexivity|].
  split; [exact H1|]. apply H2; [|reflexivity]. apply (server_run_steps shut). reflexivity.
Defined.

(** A host on which only the metrics address is taken. *)
#[local] Instance metrics_taken : Host := {|
  HostState := unit;
  Listener := string;
  bind a h := (if decide (a = "metrics") then Err (Os 98) else Ok a, h);
  local_addr l := Ok l;
  open_file _ := Err (Os 2);
  Certificate := unit;
  PrivateKey := unit;
  TlsAcceptor := unit;
  certs _ := [];
  pkcs8_private_keys _ := [];
  rsa_private_keys _ := [];
  with_single_cert _ _ := Ok ()
|}.

Definition with_metrics : ProxyConfig :=
  MkProxyConfig "localhost" (MkRouteConfig "r" [ep_a] None no_tls) small_config 2 None (Some "metrics") None
    (from_secs 30).

Definition a_host : @HostState _ metrics_taken := tt.

Lemma serve_fails_witness :
  Running = NotSpawned ∧
    (fst (bind (listen_addr with_metrics) a_host) = Err (Os 98) ∨
     (∃ l, fst (bind (listen_addr with_metrics) a_host) = Ok l ∧ local_addr l = Err (Os 98)) ∨
     ∃ c, tls_server with_metrics = Some c ∧ build_tls_acceptor c = Err (Os 98)) ∨
  Running = Running ∧ ∃ a h1, metrics_addr with_metrics = Some a ∧ bind a h1 = (Err (Os 98), a_host).
Proof. apply (serve_fails with_metrics a_host (Os 98) Running a_host). reflexivity. Defined.

(** ** The metrics endpoint *)

Definition request_line : bytes := String.list_ascii_of_string "GET /metrics HTTP/1.1" ++ ["013"%char].
Definition request_rest : bytes := ["013"; "010"]%char.

(** The request head in two reads. *)
Definition two_reads : list bytes := [take 6 request_line; drop 6 request_line ++ newline :: request_rest].

Lemma handle_by_request_line_witness :
  handle one_session [a_pool] (Ok <$> two_reads) =
    Ready (Ok (Some (response_lines "200 OK" (render one_session [a_pool])))).
Proof.
  change (response_lines "200 OK" (render one_session [a_pool])) with
    (if decide (take 2 (words (first_line (from_utf8_lossy request_line ++ [newline]))) = ["GET"; "/metrics"])
     then response_lines "200 OK" (render one_session [a_pool])
     else response_lines "404 Not Found" (line "not found")).
  apply (handle_by_request_line one_session [a_pool] two_reads request_line request_rest).
  - repeat constructor; discriminate.
  - reflexivity.
  - apply (bool_decide_unpack _). vm_compute. exact Logic.I.
  - vm_compute. reflexivity.
  - apply (bool_decide_unpack _). vm_compute. exact Logic.I.
Defined.

Lemma head_bounded_witness :
  (∀ got, read_head (Ok <$> two_reads) [] = Ready (Ok (Some got)) → length got ≤ 17 * 1024) ∧
  (MAX_HEAD < length (Ok (E := unit) <$> two_reads) → ∃ x, read_head (Ok <$> two_reads) [] = Ready x).
Proof.
  apply (head_bounded (Ok <$> two_reads)).
  repeat constructor; apply (bool_decide_unpack _); vm_compute; exact Logic.I.
Defined.

(** ** The gateway *)

Section Gateways.
(** Patterns that match one statement exactly. *)
#[local] Instance literal_regex : RegexEngine := {|
  Regex := string;
  regex_new := Some;
  is_match p s := bool_decide (p = s);
  replace_all p t s := if decide (p = s) then t else s
|}.
#[local] Instance plain_tables : UnicodeTables := λ s, s.

Definition gw_config : GatewayConfig :=
  MkGatewayConfig (MkDenyList ["drop table t"] "42501" "denied") [] ["ssn"] None None None.
#[local] Instance gateway : Interceptor := Gateway gw_config.
Definition gw_state : GatewayState := MkGatewayState two_endpoints Audit_new [].
Definition gw_hooks : SessionHooks := SessionHooks_new (gw_state : @IState _ gateway) 0.
(** The server describes a column [ssn] and sends a row. *)
Definition ssn_column : FieldDescription := MkFieldDescription "ssn" 0 0 25 (-1) (-1) 0.
Definition gw_session : Session :=
  pump_init reading_client an_env {[ a_key := a_pool ]}
    (Some (answering [BRowDescription [ssn_column]; BDataRow row_ab])) (Some gw_hooks) true.

Lemma gateway_masks_rows_witness :
  ∃ rs' s', pump (replicate 2 EvUpstream) gw_session = (Ready None, s') ∧
    ds_sent (downstream s') =
      ds_sent (downstream gw_session) ++ BRowDescription [ssn_column] :: (BDataRow <$> rs') ∧
    Forall2 (masked_row gw_config (from_row_description [ssn_column])) [row_ab] rs'.
Proof.
  apply (gateway_masks_rows (E := λ cfg, execute_scatter_impl (I := Gateway cfg) (Sch := in_turns)) gw_config gw_hooks [ssn_column] [row_ab]
    (answering [BRowDescription [ssn_column]; BDataRow row_ab]) (conn (answering [])) gw_session); try reflexivity.
  - do 2 (eexists; split; [reflexivity|]). reflexivity.
  - repeat constructor. exists view_ab. vm_compute. reflexivity.
Defined.

Lemma undescribed_row_shown_witness :
  ∃ r' m' s', on_server_message (BDataRow row_ab) gw_session = (Ready Continue, s') ∧
    ds_sent (downstream s') = ds_sent (downstream gw_session) ++ [BDataRow r'] ∧
    Row.parse r' = Ok m' ∧ row_values m' = row_values view_ab.
Proof.
  apply (undescribed_row_shown gw_config [] row_ab view_ab gw_session).
  - split; [reflexivity|]. by exists gw_hooks.
  - by repeat constructor.
  - vm_compute. reflexivity.
Defined.

Lemma pipelined_mid_cycle : Forall mid_cycle pipelined.
Proof. repeat constructor; discriminate. Defined.

Lemma gateway_denies_witness :
  ∃ s', pump (client_events (a_parse :: rest_of_cycle (MkCycleInput "drop table t" (Extended None)) pipelined))
          gw_session = (Ready None, s') ∧
    answers [error_response (MkErrorInfo "ERROR" "42501" "denied"); BReadyForQuery (lease_status gw_session)]
      gw_session s' ∧
    swallow_until_sync s' = false.
Proof.
  exact (gateway_denies (E := λ cfg, execute_scatter_impl (I := Gateway cfg)) gw_config gw_hooks a_parse
    pipelined gw_session (MkCycleInput "drop table t" (Extended None)) "drop table t" eq_refl eq_refl
    (list_elem_of_here _ _) eq_refl eq_refl eq_refl pipelined_mid_cycle).
Defined.

Definition gw_args : GatewayArgs :=
  MkGatewayArgs "localhost" None [("s1", "host=a port=1"); ("s2", "host=b")] None (Some "select 1")
    ["drop table t"] [("a", "b")] ["ssn"].

Lemma args_roundtrip_witness : parse_args (print_args gw_args) default_args = Ok gw_args.
Proof. apply (args_roundtrip gw_args). repeat constructor. Defined.

Definition a_service : @Service any_sockets := tt.

Lemma gateway_main_config_witness :
  ∃ cfg svc, gateway_main (λ _ _, a_service) gw_args = Some (Ok (cfg, svc)) ∧
  endpoints (cfg_route cfg) = named (ga_endpoints gw_args) ∧
  mode (cfg_pool cfg) = TransactionMode ∧
  ∃ gw st, make_gateway gw_args = Some (gw, st) ∧ svc = Some (UserService a_service) ∧
    ∀ ss ep, gw_shards gw = Some ss → ep ∈ shards ss → is_Some (endpoint (cfg_route cfg) ep).
Proof.
  eexists _, _. split; [reflexivity|].
  apply (gateway_main_config (λ _ _, a_service) gw_args); [|reflexivity].
  repeat constructor; discriminate.
Defined.
End Gateways.

(** ** The binary *)

Definition cli_only : Args := MkArgs (Some "localhost") (Some "host=a") (Some "secret").

Lemma binary_config_witness :
  ∃ cfg svc, main_config (λ _, None) cli_only None = Ok (cfg, svc) ∧
  (∃ listen, or_else (arg_listen cli_only) None = Some listen ∧ parse_addr listen = Some (listen_addr cfg)) ∧
  endpoints (cfg_route cfg) = [MkEndpointConfig "default" "host=a" None None] ∧
  svc = (if decide (1 < length (endpoints (cfg_route cfg)))
         then Some (BuiltinFailover (from_endpoints (endpoints (cfg_route cfg)))) else None) ∧
  max_client_conn cfg = 128 ∧ password (cfg_route cfg) = None.
Proof.
  eexists _, _. split; [reflexivity|].
  apply (binary_config (λ _, None) cli_only None). reflexivity.
Defined.

(** ** Read and write routing *)

Section Splitting.
#[local] Existing Instance literal_regex.
#[local] Existing Instance plain_tables.

(** A primary and a replica, and a rewrite of a read to a write. *)
Definition ep_replica : EndpointConfig := MkEndpointConfig "replica" "up" None None.
#[local] Instance split_route : SessionCtx :=
  MkSessionCtx (MkRouteConfig "r" [ep_replica; ep_a] None no_tls) small_config "u" None ∅ true.
Definition split_group : EndpointGroup := group_new ["replica"; "a"].
Definition a_split : RwSplit := rwsplit_new split_group "a".
Definition split_config : GatewayConfig := MkGatewayConfig (MkDenyList [] "42501" "denied")
  [MkRewrite "select 1" "insert into t values (1)"] [] (Some a_split) None None.
#[local] Instance split_gateway : Interceptor := Gateway split_config.
#[local] Instance split_scatter : ScatterExec := execute_scatter_impl.
Definition split_hooks : SessionHooks :=
  SessionHooks_new (MkGatewayState split_group Audit_new [] : @IState _ split_gateway) 0.
Definition split_session : Session :=
  pump_init reading_client an_env {[ a_key := a_pool ]} None (Some split_hooks) false.

Definition a_write : PgWireFrontendMessage := FQuery "update t set x = 1".
Definition written : poll (Flow + unit) * Session :=
  attach_phase (cycle_input_of a_write) a_write None split_session.

Lemma gateway_writes_to_primary_witness : attached_to split_config "a" written.2.
Proof.
  exact (gateway_writes_to_primary split_config a_split split_hooks a_write a_write _ None split_session
    (inr ()) written.2 eq_refl eq_refl eq_refl eq_refl
    (proj2 (map_Forall_singleton (λ k p, p_key p = k) a_key a_pool) eq_refl) eq_refl
    (run_result _ _ _ eq_refl)).
Defined.

(** The verdict is on the client's text: a read that the gateway rewrites to a
    write is routed as the read and reaches the replica. *)
Definition rewritten : Session := (on_client_message (FQuery "select 1") split_session).2.

Example rewritten_read_on_replica :
  current_endpoint rewritten = Some "replica" ∧
  (sent ∘ conn <$> lease rewritten) = Some [FQuery "insert into t values (1)"].
Proof. vm_compute. by split. Qed.
End Splitting.
